(* ===== verification/_CoqProject ===== *)
-Q . S2P
Prelude.v
Math.v
Names.v
Format.v
Cbor.v
FsLinux.v
FsRead.v
StateMachine.v
Ticket.v
Layout.v
Engine.v
Durability.v
Logic.v
FsDir.v
Verified.v
Queue.v
Watermark.v
Publish.v
Stream.v
Resolve.v
Consumer.v
Quarantine.v
Lease.v
Batch.v
Inspect.v
Recovery.v
Phases.v
Cursor.v
Maintenance.v
Pass.v
Ends.v
Fsck.v
Integrity.v
Setup.v
Lifecycle.v
Process.v
Worker.v
Cli.v
Divergences.v
Simulator.v
Oracle.v
Scenarios.v
