(* ===== verification/Prelude.v ===== *)
(** * SteadQ: a verification of the durable job queue

    SteadQ keeps a job queue in an ordinary directory.  A job is one file; its
    state is the directory it lies in and its name; every transition is one
    rename that replaces nothing, surrounded by the directory syncs that make it
    survive a crash.  This library models that code in Rocq and proves what the
    protocol promises: that an outcome tells the truth about the disk, that
    names, records and tickets are read back exactly as written, that recovery
    and the integrity check touch only what they may, and that every loop ends.

    ** The parts of the program and their files

    Pure data, bottom up (paths are below [crates/]):
    - [Math] (steadq-math): buckets, retry delays with jitter, the wall floor;
    - [Names] (steadq-names): hex, shards, tags, the seven kinds of filename;
    - [Format] and [Cbor] (steadq-format): the fixed records, the job envelope
      and the deterministic CBOR extension header;
    - [StateMachine], [Ticket] (steadq-core [state_machine.rs], [errors.rs]): the
      transition table, errors and outcomes, identity rules, tickets;
    - [Layout] ([queue/layout.rs]): where an object of each state lies.

    The filesystem (steadq-fs-linux):
    - [FsLinux], [FsRead], [FsDir]: path validation, every system-call wrapper
      the queue uses, transfer loops, locks, clocks, directory streams, inotify;
    - [Logic]: the program logic in which the handlers are verified;
    - [Engine] and [Durability] ([queue/engine.rs]): moves, publication, unlink,
      replacement and the dirty set, and what they mean over a kernel with a
      cached and a durable side.

    The queue (steadq-core [queue/], [quarantine.rs], [recovery.rs]):
    - [Verified]: streaming verification of jobs and receipts;
    - [Queue]: the handle, its options and its poisoning rule;
    - [Setup], [Lifecycle] ([mod.rs]): creating and opening a queue;
    - [Watermark]: the shared wall-clock watermark;
    - [Publish], [Stream]: enqueue from memory and from a reader;
    - [Lease], [Consumer], [Batch]: claiming, settling, group commit;
    - [Resolve]: what became of an operation with an unknown outcome;
    - [Inspect], [Quarantine]: lookup, dead letters, setting objects aside;
    - [Recovery], [Phases] with the proofs [Cursor], [Maintenance], [Pass],
      [Ends]: the bounded recovery pass and retention;
    - [Fsck], [Integrity]: the integrity check and its repairs.

    The command line (steadq-cli):
    - [Process]: programs that interleave the queue's system calls with requests
      to child processes, threads, the clock and the user's files;
    - [Worker] ([work.rs]): the worker loop that runs a command for each job;
    - [Cli] ([main.rs]): exit codes, the lease handle file, one program for each
      command that works on a queue.

    The test kit (steadq-testkit):
    - [Simulator], [Oracle], [Scenarios]: the crash simulator, the reference
      oracle, and the scenarios that compare them.

    [Divergences] holds executions where a comment or a document says something
    else than the code does.  The present file holds what all the others share:
    results and their notation, machine integers, byte strings, and list lemmas.

    ** How the code is rendered

    A pure function is a function.  A function that talks to the kernel is a
    program of type [io] ([FsLinux]): a tree of system calls whose branches are
    the kernel's answers.  [exec p tr r] says that [p] can make exactly the calls
    of [tr], get the answers recorded there and return [r]; theorems quantify
    over all of them, so failures, short transfers and concurrent processes that
    change the directories at any time are included unless a hypothesis excludes
    them.  A method of the handle threads the handle and the caller's dirty set
    ([op] in [Queue]); recovery and fsck thread their reports as well ([rop],
    [fop]).  [Result] and [?] are [result] with [let?], [let!?] and [let*?];
    structs are records, enums inductive types with the source's variants.
    Integers are [Z] with their width in the predicates [is_u32], [is_u64], ...;
    checked, saturating and wrapping operations are written out, and a plain
    [+=] wraps.  A drop guard is the explicit action at each exit it covers.

    Code outside the repository is an interface: SHA-256 ([Sha256], of which only
    the digest length is assumed, in [Sha256Spec]), serde_json (its round trip),
    the standard library's [create_dir_all] and read sizes ([StdFs]), the
    caller's reader ([Reader]), texts produced by [Display] implementations of
    foreign types ([Texts]), the iteration order of hash maps ([SyncOrder]), the
    kernel's crash behaviour ([Durability]), and the processes, threads, clock and
    files of a command ([Process]).  Each has an instance that the witnesses run on.

    Simplifications that do not change behaviour: closing a descriptor is not a
    call; attempts answered by EINTR are left out of a trace ([retry_last],
    [write_settled] and [writev_settled] relate the loops of the source to the
    settled call); the fault-injection hooks are disarmed, as outside of tests.

    ** What the theorems show

    - Durability and truth of the engine: [strict_move_durable],
      [engine_outcomes_truthful], [strict_barrier_order]; of every operation on
      top: [enqueue_truthful], [stream_truthful], [lease_truthful],
      [ack_truthful], [renew_truthful], [transitions_truthful],
      [quarantine_publication_truthful], [group_commit_durable].
    - Life of a job: [job_history], [job_never_stuck]; the test kit's oracle
      refines the same histories ([oracle_refines_protocol]).
    - Life of a queue: [init_publishes_last], [open_establishes],
      [created_queue_opens]; [wall_floor_contract].
    - Reading back: [format_record_codec], [envelope_accepts_exactly],
      [extension_round_trip], [extension_decode_canonical],
      [make_names_authenticate], [job_names_canonical]; streaming against
      buffered forms: [verification_exact], [streaming_equals_buffered].
    - Recovery: [recovery_moves_justified], [recovery_within_budget],
      [recovery_cursor_resumes], [recovery_ends]; integrity:
      [fsck_object_exact], [fsck_accepts_placed], [fsck_moves_recorded],
      [fsck_ends]; resolution: [resolve_is_evidence], [ticket_paths_recognised].
    - The command line: [worker_settles], [feed_delivers], [worker_stops_sound],
      [exit_codes_truthful], [handle_round_trip], [handle_bound].
    - The simulator: [simulated_move_durable], [simulator_state_typed],
      [scenarios_hold].

    ** Fuel

    Loops that end by their data take their own bound: positional and stream
    transfers the bytes left, directory creation the length of the path, CBOR
    items the nesting limit of 4, number printing its digits, the watermark 8
    attempts and quarantine names 8, jitter 64 doublings, the phases of recovery
    5 turns, the fsck walk the depth of its state, the payload copy the payload
    length.  [write_loops_exact], [read_item_exact], [ensure_dir_terminates]
    show that these are enough.  Loops that end when the environment says so
    take fuel and return [None] without it: one unit for each directory entry
    ([enumeration_exact], [lease_scan_terminates], [recovery_ends], [fsck_ends]),
    each read of a stream or of the boot id, each job of a worker.

    ** What is not modelled

    The exports of dead letters and quarantined objects, which copy through the
    standard library; argument parsing, printing and signal handlers of the
    command line, and its commands [stats], [doctor] and [bench], which only
    measure and report; the C interface, which converts pointers; the drivers
    that run the built binaries; and the development tools of [xtask], which
    generate [state_machine.rs] and its documents. *)
From stdpp Require Import base numbers list strings gmap option sorting.
From Stdlib Require Import Strings.Byte.

(** ** Results: Rust's [Result<T, E>] and the [?] operator *)

Declare Scope steadq_scope.
Delimit Scope steadq_scope with steadq.
Open Scope steadq_scope.

Inductive result (T E : Type) : Type :=
| Ok (t : T)
| Err (e : E).
Arguments Ok {T E} t.
Arguments Err {T E} e.

Definition rbind {T U E : Type} (m : result T E) (k : T -> result U E) : result U E :=
  match m with
  | Ok t => k t
  | Err e => Err e
  end.

Notation "'let?' x ':=' m 'in' k" := (rbind m (fun x => k))
  (at level 10, x pattern, m at level 100, k at level 200,
   format "'[v' 'let?'  x  ':='  m  'in' '//' k ']'") : steadq_scope.

(** [Option::ok_or] *)
Definition ok_or {T E : Type} (o : option T) (e : E) : result T E :=
  match o with
  | Some t => Ok t
  | None => Err e
  end.

(** [Result::map_err] *)
Definition map_err {T E F : Type} (f : E -> F) (m : result T E) : result T F :=
  match m with
  | Ok t => Ok t
  | Err e => Err (f e)
  end.

Definition is_ok {T E : Type} (m : result T E) : bool :=
  match m with Ok _ => true | Err _ => false end.

#[global] Instance result_eq_dec {T E : Type} `{EqDecision T, EqDecision E} :
  EqDecision (result T E).
Proof. solve_decision. Defined.

Lemma rbind_ok_iff {T U E} (m : result T E) (k : T -> result U E) u :
  rbind m k = Ok u <-> exists t, m = Ok t /\ k t = Ok u.
Proof. destruct m; naive_solver. Qed.

Lemma ok_or_ok_iff {T E} (o : option T) (e : E) t : ok_or o e = Ok t <-> o = Some t.
Proof. destruct o; naive_solver. Qed.

Lemma rbind_ok_inv {T U E} (m : result T E) (k : T -> result U E) u :
  rbind m k = Ok u -> exists t, m = Ok t /\ k t = Ok u.
Proof. destruct m; naive_solver. Qed.

Lemma ok_or_ok_inv {T E} (o : option T) (e : E) t : ok_or o e = Ok t -> o = Some t.
Proof. destruct o; naive_solver. Qed.

Lemma map_err_ok_inv {T E F} (f : E -> F) (m : result T E) t :
  map_err f m = Ok t -> m = Ok t.
Proof. destruct m; naive_solver. Qed.

(** Walk through a successful chain of guards and [let?] binds. *)
Ltac rstep H :=
  lazymatch type of H with
  | rbind ?m _ = Ok _ =>
      let E := fresh "E" in
      destruct m eqn:E; cbn [rbind] in H; [|discriminate H]
  | (if ?b then _ else _) = Ok _ =>
      let E := fresh "G" in
      first [ destruct b eqn:E; [discriminate H|] | destruct b eqn:E; [|discriminate H] ]
  | Ok _ = Ok _ => injection H as H
  | Err _ = Ok _ => discriminate H
  | ok_or _ _ = Ok _ => apply ok_or_ok_inv in H
  | map_err _ _ = Ok _ => apply map_err_ok_inv in H
  end.
Ltac rsteps H := repeat (rstep H; try lazymatch type of H with _ = Ok _ => idtac end).

(** Split the conjunctions among the hypotheses, syntactically. *)
Ltac split_hyps := repeat match goal with H : _ /\ _ |- _ => destruct H end.

(** ** Machine integers: [u8], [u16], [u32], [u64] as ranged [Z] *)

Definition is_u8 (x : Z) : Prop := (0 <= x < 2 ^ 8)%Z.
Definition is_u16 (x : Z) : Prop := (0 <= x < 2 ^ 16)%Z.
Definition is_u32 (x : Z) : Prop := (0 <= x < 2 ^ 32)%Z.
Definition is_u64 (x : Z) : Prop := (0 <= x < 2 ^ 64)%Z.
Definition is_i64 (x : Z) : Prop := (- 2 ^ 63 <= x < 2 ^ 63)%Z.
Definition u32_max : Z := (2 ^ 32 - 1)%Z.
Definition u64_max : Z := (2 ^ 64 - 1)%Z.
Definition i64_max : Z := (2 ^ 63 - 1)%Z.

(** Arithmetic modulo the word size: Rust's [wrapping_*], and what the plain
    operators compute when they do not panic. *)
Definition wrap64 (x : Z) : Z := (x mod 2 ^ 64)%Z.
Definition wrap32 (x : Z) : Z := (x mod 2 ^ 32)%Z.

Definition u64_checked_add (a b : Z) : option Z :=
  if decide (a + b <= u64_max)%Z then Some (a + b)%Z else None.
Definition u64_checked_mul (a b : Z) : option Z :=
  if decide (a * b <= u64_max)%Z then Some (a * b)%Z else None.
Definition u32_checked_add (a b : Z) : option Z :=
  if decide (a + b <= u32_max)%Z then Some (a + b)%Z else None.

(** ** Bytes *)

Abbreviation bytes := (list byte).

#[global] Instance byte_eq_dec : EqDecision byte := Byte.byte_eq_dec.
#[global] Instance byte_inhabited : Inhabited byte := populate x00.
#[global] Program Instance byte_countable : Countable byte :=
  inj_countable Byte.to_N Byte.of_N _.
Next Obligation. intros b. apply Byte.of_to_N. Qed.

Definition b2z (b : byte) : Z := Z.of_N (Byte.to_N b).
Definition z2b (z : Z) : byte :=
  default x00 (Byte.of_N (Z.to_N (z mod 256))).

(** The bytes of an ASCII literal. *)
Definition lit (s : string) : bytes := String.list_byte_of_string s.
Arguments lit s%_string_scope.

Lemma b2z_range b : (0 <= b2z b < 256)%Z.
Proof. unfold b2z. pose proof (Byte.to_N_bounded b). lia. Qed.

Lemma z2b_b2z b : z2b (b2z b) = b.
Proof.
  unfold z2b. rewrite Z.mod_small by apply b2z_range.
  unfold b2z. by rewrite N2Z.id, Byte.of_to_N.
Qed.

Lemma b2z_z2b z : b2z (z2b z) = (z mod 256)%Z.
Proof.
  unfold z2b. pose proof (Z.mod_pos_bound z 256 eq_refl).
  destruct (Byte.of_N (Z.to_N (z mod 256))) as [b|] eqn:E; simpl.
  - apply Byte.to_of_N in E. unfold b2z. rewrite E. lia.
  - apply Byte.of_N_None_iff in E. lia.
Qed.

Lemma b2z_z2b_small z : (0 <= z < 256)%Z -> b2z (z2b z) = z.
Proof. intros. rewrite b2z_z2b. by apply Z.mod_small. Qed.

#[global] Instance b2z_inj : Inj (=) (=) b2z.
Proof. intros a b H. by rewrite <- (z2b_b2z a), H, z2b_b2z. Qed.

(** ** Big-endian integers: [to_be_bytes] and [from_be_bytes] *)

Fixpoint to_be (n : nat) (z : Z) : bytes :=
  match n with
  | O => []
  | S n' => z2b (Z.shiftr z (8 * Z.of_nat n')) :: to_be n' z
  end.

Fixpoint from_be_acc (acc : Z) (bs : bytes) : Z :=
  match bs with
  | [] => acc
  | b :: bs' => from_be_acc (acc * 256 + b2z b)%Z bs'
  end.
Definition from_be (bs : bytes) : Z := from_be_acc 0 bs.

Lemma length_to_be n z : length (to_be n z) = n.
Proof. induction n; simpl; congruence. Qed.

Lemma from_be_acc_shift bs acc :
  from_be_acc acc bs = (acc * 256 ^ Z.of_nat (length bs) + from_be bs)%Z.
Proof.
  unfold from_be. revert acc. induction bs as [|b bs IH]; intros acc.
  - cbn. lia.
  - cbn [from_be_acc length]. rewrite IH, (IH (0 * 256 + b2z b)%Z).
    rewrite Nat2Z.inj_succ, Z.pow_succ_r by lia. ring.
Qed.

Lemma from_be_cons b bs :
  from_be (b :: bs) = (b2z b * 256 ^ Z.of_nat (length bs) + from_be bs)%Z.
Proof. unfold from_be at 1. cbn [from_be_acc]. rewrite from_be_acc_shift. ring. Qed.

Lemma from_be_bound bs : (0 <= from_be bs < 256 ^ Z.of_nat (length bs))%Z.
Proof.
  induction bs as [|b bs IH]; [cbn; lia|].
  rewrite from_be_cons. cbn [length]. rewrite Nat2Z.inj_succ, Z.pow_succ_r by lia.
  pose proof (b2z_range b). nia.
Qed.

Lemma from_be_to_be_mod n z : from_be (to_be n z) = (z mod 256 ^ Z.of_nat n)%Z.
Proof.
  induction n as [|n IH]; [by rewrite Z.mod_1_r|].
  cbn [to_be]. rewrite from_be_cons, length_to_be, IH, b2z_z2b.
  rewrite Z.shiftr_div_pow2 by lia.
  replace (2 ^ (8 * Z.of_nat n))%Z with (256 ^ Z.of_nat n)%Z
    by (rewrite Z.pow_mul_r by lia; done).
  rewrite Nat2Z.inj_succ, Z.pow_succ_r by lia.
  pose proof (Z.pow_pos_nonneg 256 (Z.of_nat n)).
  rewrite (Z.mul_comm 256), Z.rem_mul_r by lia. ring.
Qed.

Lemma from_be_to_be n z :
  (0 <= z < 256 ^ Z.of_nat n)%Z -> from_be (to_be n z) = z.
Proof. intros. rewrite from_be_to_be_mod. by apply Z.mod_small. Qed.

Lemma to_be_add_high n z k :
  to_be n (k * 256 ^ Z.of_nat n + z)%Z = to_be n z.
Proof.
  enough (forall m, (n <= m)%nat -> to_be n (k * 256 ^ Z.of_nat m + z)%Z = to_be n z)
    as H by (by apply H).
  induction n as [|n IH]; intros m Hm; [done|].
  cbn [to_be]. f_equal; [|apply IH; lia].
  apply (inj b2z). rewrite !b2z_z2b, !Z.shiftr_div_pow2 by lia.
  replace (2 ^ (8 * Z.of_nat n))%Z with (256 ^ Z.of_nat n)%Z
    by (rewrite Z.pow_mul_r by lia; done).
  replace (k * 256 ^ Z.of_nat m + z)%Z
    with (z + (k * 256 ^ Z.of_nat (m - S n) * 256) * 256 ^ Z.of_nat n)%Z.
  2:{ replace m with (m - S n + 1 + n)%nat at 2 by lia.
      rewrite !Nat2Z.inj_add, !Z.pow_add_r by lia. change (256 ^ Z.of_nat 1)%Z with 256%Z. ring. }
  rewrite Z.div_add by (pose proof (Z.pow_pos_nonneg 256 (Z.of_nat n)); lia).
  by rewrite Z_mod_plus_full.
Qed.

Lemma to_be_from_be bs : to_be (length bs) (from_be bs) = bs.
Proof.
  induction bs as [|b bs IH]; [done|].
  cbn [to_be length]. rewrite from_be_cons. f_equal.
  - apply (inj b2z). rewrite b2z_z2b, Z.shiftr_div_pow2 by lia.
    replace (2 ^ (8 * Z.of_nat (length bs)))%Z with (256 ^ Z.of_nat (length bs))%Z
      by (rewrite Z.pow_mul_r by lia; done).
    pose proof (from_be_bound bs).
    rewrite Z.div_add_l by lia. rewrite (Z.div_small (from_be bs)) by lia.
    rewrite Z.add_0_r. apply Z.mod_small, b2z_range.
  - by rewrite to_be_add_high.
Qed.

Lemma to_be_from_be_len n bs : length bs = n -> to_be n (from_be bs) = bs.
Proof. intros <-. apply to_be_from_be. Qed.

(** ** Slices and buffer writes

    [slice a b l] is [&l[a..b]]; [write_at a src buf] is
    [buf[a..a + src.len()].copy_from_slice(src)]. *)

Definition slice (a b : nat) (l : bytes) : bytes := take (b - a) (drop a l).
Definition write_at (a : nat) (src buf : bytes) : bytes :=
  take a buf ++ src ++ drop (a + length src) buf.
Definition zeros (n : nat) : bytes := replicate n x00.

Create Rewrite HintDb len.
#[export] Hint Rewrite @length_app @length_take @length_drop @length_replicate
  length_to_be @length_cons @length_nil : len.
Ltac len := repeat (autorewrite with len in *; cbn [length] in * ); lia.

Lemma length_zeros n : length (zeros n) = n.
Proof. apply length_replicate. Qed.

Lemma length_slice a b l : (b <= length l)%nat -> length (slice a b l) = (b - a)%nat.
Proof. unfold slice. rewrite length_take, length_drop. lia. Qed.
Lemma length_slice' a b l : length (slice a b l) = Nat.min (b - a) (length l - a).
Proof. unfold slice. by rewrite length_take, length_drop. Qed.
#[export] Hint Rewrite length_zeros : len.
#[export] Hint Rewrite length_slice using lia : len.

Lemma slice_skip n a b l1 l2 :
  length l1 = n -> (n <= a)%nat -> slice a b (l1 ++ l2) = slice (a - n) (b - n) l2.
Proof.
  intros <- Ha. unfold slice. rewrite drop_app_ge by lia. f_equal. lia.
Qed.

Lemma slice_here b l1 l2 : length l1 = b -> slice 0 b (l1 ++ l2) = l1.
Proof. intros <-. unfold slice. rewrite drop_0, Nat.sub_0_r. apply take_app_length. Qed.

Lemma slice_prefix b l1 l2 : (b <= length l1)%nat -> slice 0 b (l1 ++ l2) = slice 0 b l1.
Proof. intros. unfold slice. rewrite !drop_0, Nat.sub_0_r. by apply take_app_le. Qed.

Lemma slice_all b l : length l = b -> slice 0 b l = l.
Proof. intros <-. unfold slice. rewrite drop_0, Nat.sub_0_r. by apply take_ge. Qed.

Lemma slice_cat a b c l :
  (a <= b <= c)%nat -> slice a b l ++ slice b c l = slice a c l.
Proof.
  intros. unfold slice.
  replace (c - a)%nat with ((b - a) + (c - b))%nat by lia.
  rewrite <- take_take_drop, drop_drop. do 3 f_equal. lia.
Qed.

(** Peel one leading chunk off a slice of a concatenation; the offsets are
    closed numerals, so they evaluate. *)
Ltac slice_step :=
  first
    [ rewrite slice_here by len
    | rewrite slice_all by len
    | erewrite slice_skip
        by (first [ eassumption | autorewrite with len; reflexivity | len ]);
      cbn [Nat.sub Nat.add length] ].
Ltac slices := repeat slice_step.

Lemma write_zeros a src pre n :
  (length pre <= a)%nat -> (a - length pre + length src <= n)%nat ->
  write_at a src (pre ++ zeros n)
  = (pre ++ zeros (a - length pre) ++ src) ++ zeros (n - (a - length pre) - length src).
Proof.
  intros Ha Hn. unfold write_at, zeros.
  rewrite take_app_ge, drop_app_ge by lia.
  rewrite take_replicate, drop_replicate, <- !app_assoc.
  do 2 f_equal; [f_equal; lia|]. f_equal. f_equal. lia.
Qed.

(** The gap-free case: append to what is written so far. *)
Lemma write_next a src pre n k :
  length pre = a -> n = (length src + k)%nat ->
  write_at a src (pre ++ zeros n) = (pre ++ src) ++ zeros k.
Proof.
  intros <- ->. rewrite write_zeros, Nat.sub_diag by lia. cbn [zeros replicate app].
  do 2 f_equal. lia.
Qed.

(** The general case with the gap and the remaining zeros named. *)
Lemma write_gap a src pre n g k :
  a = (length pre + g)%nat -> n = (g + length src + k)%nat ->
  write_at a src (pre ++ zeros n) = (pre ++ zeros g ++ src) ++ zeros k.
Proof.
  intros -> ->. rewrite write_zeros by lia.
  replace (length pre + g - length pre)%nat with g by lia. do 2 f_equal. lia.
Qed.

Lemma length_write_at a src buf :
  (a + length src <= length buf)%nat -> length (write_at a src buf) = length buf.
Proof. intros. unfold write_at. len. Qed.

(** A slice read back as a big-endian integer determines the slice. *)
Lemma slice_of_be a b n l v :
  (b <= length l)%nat -> n = (b - a)%nat -> from_be (slice a b l) = v -> slice a b l = to_be n v.
Proof. intros Hb -> <-. symmetry. apply to_be_from_be_len. by apply length_slice. Qed.

Lemma to_be_zero n : to_be n 0 = zeros n.
Proof.
  induction n as [|n IH]; [done|]. cbn [to_be]. rewrite Z.shiftr_0_l, IH. done.
Qed.

Lemma lookup_slice i l : (i < length l)%nat -> slice i (S i) l = [l !!! i].
Proof.
  intros Hi. unfold slice. replace (S i - i)%nat with 1%nat by lia.
  destruct (lookup_lt_is_Some_2 l i Hi) as [x Hx].
  rewrite (drop_S l x i Hx). cbn [take]. by rewrite (list_lookup_total_correct _ _ _ Hx).
Qed.

(** ** Lexicographic order on byte strings ([Ord] on [[u8]] and [str]) *)

Fixpoint bytes_ltb (x y : bytes) : bool :=
  match x, y with
  | [], [] => false
  | [], _ :: _ => true
  | _ :: _, [] => false
  | a :: x', b :: y' =>
      if (b2z a <? b2z b)%Z then true
      else if (b2z b <? b2z a)%Z then false
      else bytes_ltb x' y'
  end.
Definition bytes_leb (x y : bytes) : bool := negb (bytes_ltb y x).

Lemma bytes_ltb_irrefl x : bytes_ltb x x = false.
Proof. induction x as [|a x IH]; simpl; [done|]. by rewrite Z.ltb_irrefl. Qed.

Lemma bytes_ltb_trans x y z :
  bytes_ltb x y = true -> bytes_ltb y z = true -> bytes_ltb x z = true.
Proof.
  revert y z. induction x as [|a x IH]; intros [|b y] [|c z]; simpl; try done.
  repeat case_match; rewrite ?Z.ltb_lt, ?Z.ltb_ge in *; try lia; try done.
  apply IH.
Qed.

Lemma bytes_ltb_total x y :
  bytes_ltb x y = false -> bytes_ltb y x = false -> x = y.
Proof.
  revert y. induction x as [|a x IH]; intros [|b y]; simpl; try done.
  repeat case_match; rewrite ?Z.ltb_lt, ?Z.ltb_ge in *; try lia; try done.
  intros. f_equal; [apply (inj b2z); lia | by apply IH].
Qed.

(** ** Reflection of the boolean guards the code is written with *)

Lemma bool_decide_eq_negb_true {P : Prop} `{Decision P} :
  negb (bool_decide P) = false <-> P.
Proof. rewrite negb_false_iff. apply bool_decide_eq_true. Qed.

Ltac breflect :=
  repeat match goal with
    | H : (_ || _) = false |- _ => apply orb_false_iff in H as [? ?]
    | H : (_ && _) = true |- _ => apply andb_true_iff in H as [? ?]
    | H : negb _ = false |- _ => apply negb_false_iff in H
    | H : negb _ = true |- _ => apply negb_true_iff in H
    | H : bool_decide _ = true |- _ => apply bool_decide_eq_true in H
    | H : bool_decide _ = false |- _ => apply bool_decide_eq_false in H
    | H : (_ =? _)%Z = true |- _ => apply Z.eqb_eq in H
    | H : (_ =? _)%Z = false |- _ => apply Z.eqb_neq in H
    | H : (_ <? _)%Z = true |- _ => apply Z.ltb_lt in H
    | H : (_ <? _)%Z = false |- _ => apply Z.ltb_ge in H
    | H : (_ <=? _)%Z = true |- _ => apply Z.leb_le in H
    | H : (_ <=? _)%Z = false |- _ => apply Z.leb_gt in H
    | H : (_ =? _)%nat = true |- _ => apply Nat.eqb_eq in H
    | H : (_ =? _)%nat = false |- _ => apply Nat.eqb_neq in H
    | H : (_ <? _)%nat = true |- _ => apply Nat.ltb_lt in H
    | H : (_ <? _)%nat = false |- _ => apply Nat.ltb_ge in H
    end.

(** ** SHA-256

    The digest comes from the [sha2] crate; the development is parametric in
    it.  [Sha256Spec] records the one fact the code relies on when it slices
    digests: the output is 32 bytes long. *)

Class Sha256 : Type := sha256 : bytes -> bytes.
Class Sha256Spec `{Sha256} : Prop := sha256_length m : length (sha256 m) = 32%nat.

(** A concrete 32-byte digest for evaluating examples: a rolling checksum of
    the message, repeated over four words. *)
Definition checksum_step (acc : Z) (b : byte) : Z :=
  ((acc * 1099511628211 + b2z b + 14695981039346656037) mod 2 ^ 64)%Z.
Definition checksum256 : Sha256 := fun m =>
  let h1 := fold_left checksum_step m 7%Z in
  let h2 := checksum_step h1 x01 in
  let h3 := checksum_step h2 x02 in
  let h4 := checksum_step h3 x03 in
  to_be 8 h1 ++ to_be 8 h2 ++ to_be 8 h3 ++ to_be 8 h4.

Lemma checksum256_spec : @Sha256Spec checksum256.
Proof. intros m. unfold sha256, checksum256. len. Qed.
