(* ===== verification/Math.v ===== *)
(** * steadq-math: bucket arithmetic, retry jitter and the wall floor

    Models [crates/steadq-math/src/lib.rs].  Timestamps, widths and delays are
    [u64] values kept as ranged [Z]; the checked operations return [option],
    the retry policy validates into a [result]. *)
From stdpp Require Import base numbers list option strings.
From S2P Require Import Prelude.
Local Open Scope Z_scope.

(** ** Checked arithmetic and buckets *)

Definition checked_add_u64 (a b : Z) : option Z := u64_checked_add a b.
Definition checked_mul_u64 (a b : Z) : option Z := u64_checked_mul a b.

Definition bucket_number (timestamp_ns bucket_width_ns : Z) : option Z :=
  if bucket_width_ns =? 0 then None else Some (timestamp_ns / bucket_width_ns).

Definition ceiling_bucket (timestamp_ns bucket_width_ns : Z) : option Z :=
  if bucket_width_ns =? 0 then None
  else
    let q := timestamp_ns / bucket_width_ns in
    let r := timestamp_ns mod bucket_width_ns in
    if negb (r =? 0) then checked_add_u64 q 1 else Some q.

Definition eligibility_bucket_and_ns (requested_ns bucket_width_ns : Z) : option (Z * Z) :=
  bucket ← ceiling_bucket requested_ns bucket_width_ns;
  ns ← checked_mul_u64 bucket bucket_width_ns;
  Some (bucket, ns).

Definition bucket_start_ns (bucket bucket_width_ns : Z) : option Z :=
  checked_mul_u64 bucket bucket_width_ns.

Definition bucket_end_ns (bucket bucket_width_ns : Z) : option Z :=
  start ← bucket_start_ns bucket bucket_width_ns;
  checked_add_u64 start bucket_width_ns.

Definition lease_bucket (boottime_deadline_ns lease_bucket_width_ns : Z) : option Z :=
  bucket_number boottime_deadline_ns lease_bucket_width_ns.

(** ** Retry policy *)

Record RetryPolicy : Type := mkRetryPolicy {
  base_ms : Z;
  cap_ms : Z;
  use_jitter : bool;
  max_delay_ms : option Z
}.

Inductive RetryError : Type := ZeroBase | CapTooSmall | Overflow.

Definition effective_cap_ms (p : RetryPolicy) : Z :=
  match max_delay_ms p with
  | Some max => Z.min (cap_ms p) max
  | None => cap_ms p
  end.

Definition RetryPolicy_validate (p : RetryPolicy) : result unit RetryError :=
  if base_ms p =? 0 then Err ZeroBase
  else if effective_cap_ms p <? base_ms p then Err CapTooSmall
  else Ok tt.

Definition RetryPolicy_new (base cap : Z) (jitter : bool) (max_delay : option Z)
  : result RetryPolicy RetryError :=
  let policy := mkRetryPolicy base cap jitter max_delay in
  let? _ := RetryPolicy_validate policy in
  Ok policy.

(** The fields of a policy are [u64]s. *)
Definition RetryPolicy_wf (p : RetryPolicy) : Prop :=
  is_u64 (base_ms p) /\ is_u64 (cap_ms p) /\
  match max_delay_ms p with Some m => is_u64 m | None => True end.

(** ** Retry delay *)

Definition saturating_double (base exp : Z) : Z :=
  if (exp =? 0) || (base =? 0) then base
  else if exp >? 64 then u64_max
  else
    let shift := exp - 1 in
    if (shift >=? 64) || (base >? Z.shiftr u64_max shift) then u64_max
    else wrap64 (Z.shiftl base shift).

Definition span_midpoint (lower span : Z) : Z := wrap64 (lower + span / 2).

(** [span.wrapping_neg() % span] *)
Definition jitter_threshold (span : Z) : Z := wrap64 (- span) mod span.

Section Jitter.
Context `{Sha256}.

(** The sample of one round: the first eight digest bytes of
    [domain || queue_id || job_id || attempt || counter]. *)
Definition jitter_sample (queue_id job_id : bytes) (attempt counter : Z) : Z :=
  let digest :=
    sha256 ((lit "SteadQ-1-jitter" ++ [Byte.x00]) ++ queue_id ++ job_id
            ++ to_be 4 attempt ++ to_be 4 counter) in
  from_be (slice 0 8 digest).

(** [for counter in 0..64u32], with [n] rounds left. *)
Fixpoint jitter_rounds (n : nat) (counter : Z) (queue_id job_id : bytes)
    (attempt lower span threshold : Z) : Z :=
  match n with
  | O => span_midpoint lower span
  | S n' =>
      let x := jitter_sample queue_id job_id attempt counter in
      if threshold <=? x then wrap64 (lower + x mod span)
      else jitter_rounds n' (counter + 1) queue_id job_id attempt lower span threshold
  end.

Definition div_ceil (a b : Z) : Z :=
  if 0 <? a mod b then a / b + 1 else a / b.

Definition retry_delay_ms (queue_id job_id : bytes) (attempt : Z) (policy : RetryPolicy)
  : result Z RetryError :=
  let? _ := RetryPolicy_validate policy in
  if attempt =? 0 then Ok 0
  else
    let cap := effective_cap_ms policy in
    let ceiling := Z.min cap (saturating_double (base_ms policy) attempt) in
    if negb (use_jitter policy) then Ok ceiling
    else
      let lower := div_ceil ceiling 2 in
      let span := wrap64 (ceiling - lower + 1) in
      let threshold := jitter_threshold span in
      Ok (jitter_rounds 64 0 queue_id job_id attempt lower span threshold).

End Jitter.

(** ** Wall deadline and wall floor *)

Definition retry_wall_deadline (effective_wall_floor_ns delay_ns : Z) : option Z :=
  deadline ← checked_add_u64 effective_wall_floor_ns delay_ns;
  if deadline >? i64_max then None else Some deadline.

Definition effective_wall_floor (clock_realtime_ns stored_bucket bucket_width_ns : Z)
  : option Z :=
  if bucket_width_ns =? 0 then None
  else
    watermark_ns ← checked_mul_u64 stored_bucket bucket_width_ns;
    Some (Z.max clock_realtime_ns watermark_ns).

(** ** Buckets: lemmas *)

Lemma checked_add_u64_Some a b c :
  checked_add_u64 a b = Some c <-> c = a + b /\ a + b <= u64_max.
Proof. unfold checked_add_u64, u64_checked_add. case_decide; naive_solver. Qed.

Lemma checked_mul_u64_Some a b c :
  checked_mul_u64 a b = Some c <-> c = a * b /\ a * b <= u64_max.
Proof. unfold checked_mul_u64, u64_checked_mul. case_decide; naive_solver. Qed.

(** The rounded-up bucket never overflows: it is at most the timestamp. *)
Lemma ceiling_bucket_Some t w b :
  is_u64 t -> 0 < w -> ceiling_bucket t w = Some b <-> t <= b * w < t + w.
Proof.
  unfold is_u64, ceiling_bucket. intros Ht Hw.
  pose proof (Z.div_mod t w ltac:(lia)) as Hdm.
  pose proof (Z.mod_pos_bound t w Hw) as Hm.
  destruct (w =? 0) eqn:E; breflect; [lia|].
  destruct (t mod w =? 0) eqn:E0; breflect; cbn [negb].
  - split; [intros [= <-]|intros]; [nia|]. f_equal. nia.
  - rewrite checked_add_u64_Some. unfold u64_max. split; [intros [-> _]; nia|].
    intros. assert (b = t / w + 1) by nia. split; [done|].
    assert (t / w <= t) by (apply Z.div_le_upper_bound; nia).
    destruct (decide (w = 1)) as [->|]; [rewrite Z.mod_1_r in *; lia|].
    assert (t / w <= t / 2) by (apply Z.div_le_compat_l; lia). lia.
Qed.

(** Delayed scheduling rounds a requested time up to the first bucket
    boundary at or after it, so a job is never eligible early, and it fails
    only when that boundary exceeds [u64]. *)
Theorem eligibility_bucket_least requested width bucket ns :
  is_u64 requested -> 0 < width ->
  eligibility_bucket_and_ns requested width = Some (bucket, ns) <->
  ns = bucket * width /\ requested <= ns < requested + width /\ ns <= u64_max.
Proof.
  intros Hr Hw. unfold eligibility_bucket_and_ns.
  rewrite bind_Some. setoid_rewrite bind_Some. setoid_rewrite checked_mul_u64_Some.
  setoid_rewrite ceiling_bucket_Some; [|done..]. naive_solver.
Qed.

(** A timestamp lies in the half-open interval of the bucket it maps to. *)
Theorem bucket_interval t width b e :
  0 < width -> bucket_number t width = Some b -> bucket_end_ns b width = Some e ->
  exists s, bucket_start_ns b width = Some s /\ s <= t < e /\ e = s + width.
Proof.
  intros Hw Hb He. unfold bucket_number in Hb.
  destruct (width =? 0); [done|]. injection Hb as <-.
  unfold bucket_end_ns in He. rewrite bind_Some in He. destruct He as (s & Hs & He).
  exists s. split; [done|]. unfold bucket_start_ns in Hs.
  apply checked_mul_u64_Some in Hs as [-> _]. apply checked_add_u64_Some in He as [-> _].
  pose proof (Z.div_mod t width ltac:(lia)). pose proof (Z.mod_pos_bound t width Hw). nia.
Qed.

(** The effective wall floor is the later of the clock and the stored
    watermark, so its bucket never falls behind the watermark. *)
Theorem effective_wall_floor_spec clock stored width floor :
  0 <= clock -> 0 < width ->
  effective_wall_floor clock stored width = Some floor ->
  exists b, bucket_number floor width = Some b /\
    stored <= b /\ clock <= floor /\ stored * width <= floor /\
    (floor = clock \/ floor = stored * width).
Proof.
  intros Hc Hw. unfold effective_wall_floor, bucket_number.
  destruct (width =? 0) eqn:E; breflect; [lia|].
  rewrite bind_Some. intros (wm & Hwm & [= <-]).
  apply checked_mul_u64_Some in Hwm as [-> _].
  exists (Z.max clock (stored * width) / width). split_and!; try lia; [done|].
  apply Z.div_le_lower_bound; lia.
Qed.

(** ** Retry: lemmas *)

Lemma div_ceil_2 c : 0 <= c -> c <= 2 * div_ceil c 2 <= c + 1.
Proof.
  intros. unfold div_ceil. pose proof (Z.div_mod c 2 ltac:(lia)).
  pose proof (Z.mod_pos_bound c 2 eq_refl).
  destruct (0 <? c mod 2) eqn:?; breflect; lia.
Qed.

(** The shift computes the saturated exact product. *)
Lemma saturating_double_exact base exp :
  is_u64 base -> 1 <= exp ->
  saturating_double base exp = Z.min u64_max (base * 2 ^ (exp - 1)).
Proof.
  unfold is_u64, saturating_double, u64_max. intros Hb He.
  destruct (exp =? 0) eqn:E0; breflect; [lia|]. cbn [orb].
  destruct (base =? 0) eqn:Eb; breflect; [subst; lia|].
  rewrite Z.gtb_ltb. destruct (64 <? exp) eqn:E64; breflect.
  { rewrite Z.min_l; [done|]. assert (2 ^ 64 <= 2 ^ (exp - 1)) by (apply Z.pow_le_mono_r; lia). nia. }
  rewrite Z.geb_leb, Z.gtb_ltb. destruct (64 <=? exp - 1) eqn:?; breflect; [lia|]. cbn [orb].
  rewrite Z.shiftr_div_pow2, Z.shiftl_mul_pow2 by lia.
  assert (0 < 2 ^ (exp - 1)) by (apply Z.pow_pos_nonneg; lia).
  destruct (_ <? base) eqn:Elt; breflect.
  - rewrite Z.min_l; [done|].
    pose proof (Z.mul_succ_div_gt (2 ^ 64 - 1) (2 ^ (exp - 1)) ltac:(lia)). nia.
  - assert (base * 2 ^ (exp - 1) <= 2 ^ 64 - 1).
    { pose proof (Z.mul_div_le (2 ^ 64 - 1) (2 ^ (exp - 1)) ltac:(lia)). nia. }
    unfold wrap64. rewrite Z.mod_small by nia. lia.
Qed.

Lemma RetryPolicy_validate_ok p :
  RetryPolicy_wf p -> RetryPolicy_validate p = Ok tt ->
  1 <= base_ms p <= effective_cap_ms p /\ effective_cap_ms p <= u64_max.
Proof.
  unfold RetryPolicy_wf, RetryPolicy_validate, effective_cap_ms, is_u64, u64_max.
  intros (Hb & Hc & Hm) Hv. rsteps Hv. breflect.
  destruct (max_delay_ms p); lia.
Qed.

Lemma jitter_rounds_range `{Sha256} n counter q j attempt lower span threshold :
  0 <= lower -> 1 <= span -> lower + span <= 2 ^ 64 ->
  lower <= jitter_rounds n counter q j attempt lower span threshold < lower + span.
Proof.
  intros Hl Hs Hb. revert counter. induction n as [|n IH]; intros counter; cbn [jitter_rounds].
  - unfold span_midpoint, wrap64.
    assert (0 <= span / 2 < span) by (split; [apply Z.div_pos|apply Z.div_lt_upper_bound]; lia).
    rewrite Z.mod_small by lia. lia.
  - case_match; [|apply IH].
    pose proof (Z.mod_pos_bound (jitter_sample q j attempt counter) span ltac:(lia)).
    unfold wrap64. rewrite Z.mod_small by lia. lia.
Qed.

(** For a valid policy the retry delay exists and lies between half the
    exponential-backoff ceiling and the ceiling itself, computed exactly over the
    integers; without jitter it is the ceiling. *)
Theorem retry_delay_bounds `{Sha256} q j attempt p :
  RetryPolicy_wf p -> RetryPolicy_validate p = Ok tt -> 1 <= attempt ->
  let ceiling := Z.min (effective_cap_ms p) (base_ms p * 2 ^ (attempt - 1)) in
  exists d, retry_delay_ms q j attempt p = Ok d /\ ceiling <= 2 * d /\ d <= ceiling /\
    1 <= d /\ (use_jitter p = false -> d = ceiling).
Proof.
  intros Hwf Hv Ha ceiling. pose proof (RetryPolicy_validate_ok p Hwf Hv) as [Hb Hc].
  assert (Hceil : Z.min (effective_cap_ms p) (saturating_double (base_ms p) attempt) = ceiling).
  { rewrite saturating_double_exact; [|unfold is_u64, u64_max in *; lia|done]. subst ceiling. lia. }
  assert (1 <= ceiling <= u64_max).
  { subst ceiling. assert (0 < 2 ^ (attempt - 1)) by (apply Z.pow_pos_nonneg; lia). nia. }
  unfold retry_delay_ms. rewrite Hv. cbn [rbind].
  destruct (attempt =? 0) eqn:?; breflect; [lia|]. rewrite Hceil.
  destruct (use_jitter p) eqn:Hj; cbn [negb]; [|eexists; split; [done|]; naive_solver lia].
  pose proof (div_ceil_2 ceiling ltac:(lia)) as Hd.
  eexists; split; [done|]. unfold u64_max in *.
  set (lower := div_ceil ceiling 2) in *.
  assert (Hspan : wrap64 (ceiling - lower + 1) = ceiling - lower + 1)
    by (apply Z.mod_small; lia).
  rewrite Hspan.
  pose proof (jitter_rounds_range 64 0 q j attempt lower (ceiling - lower + 1)
    (jitter_threshold (ceiling - lower + 1)) ltac:(lia) ltac:(lia) ltac:(lia)).
  split_and!; [lia..|done].
Qed.

Lemma jitter_threshold_mod span :
  1 <= span <= 2 ^ 64 -> jitter_threshold span = 2 ^ 64 mod span.
Proof.
  intros Hs. unfold jitter_threshold, wrap64.
  destruct (decide (span = 2 ^ 64)) as [->|]; [done|].
  replace (- span) with (2 ^ 64 - span + (-1) * 2 ^ 64) by ring.
  rewrite Z_mod_plus_full, (Z.mod_small (2 ^ 64 - span)) by lia.
  replace (2 ^ 64 - span) with (2 ^ 64 + (-1) * span) by ring.
  by rewrite Z_mod_plus_full.
Qed.

(** Rejection sampling is unbiased: every offset of the span is the residue
    of the same number of accepted 64-bit samples. *)
Theorem jitter_rejection_unbiased span :
  1 <= span <= 2 ^ 64 ->
  exists n, forall r, 0 <= r < span ->
  exists first, forall x,
    (jitter_threshold span <= x < 2 ^ 64 /\ x mod span = r) <->
    (exists k, 0 <= k < n /\ x = first + k * span).
Proof.
  intros Hs. exists (2 ^ 64 / span). intros r Hr. rewrite jitter_threshold_mod by done.
  set (thr := 2 ^ 64 mod span). set (n := 2 ^ 64 / span).
  pose proof (Z.mod_pos_bound (2 ^ 64) span ltac:(lia)) as Ht.
  pose proof (Z.div_mod (2 ^ 64) span ltac:(lia)) as Hdm. fold thr n in Ht, Hdm.
  exists (thr + (r - thr) mod span). intros x.
  pose proof (Z.mod_pos_bound (r - thr) span ltac:(lia)) as Hf.
  pose proof (Z.div_mod (r - thr) span ltac:(lia)) as Hrd.
  set (f := (r - thr) mod span) in *. set (g := (r - thr) / span) in *.
  split.
  - intros [Hx Hxr]. pose proof (Z.div_mod x span ltac:(lia)) as Hxd.
    exists (x / span + g). split; [|nia].
    assert (x = span * (x / span + g) + thr + f) by nia. nia.
  - intros (k & Hk & ->). split; [nia|].
    replace (thr + f + k * span) with (r + (k - g) * span) by nia.
    rewrite Z_mod_plus_full. apply Z.mod_small. lia.
Qed.

Lemma retry_wall_deadline_Some floor delay t :
  retry_wall_deadline floor delay = Some t <-> t = floor + delay /\ t <= i64_max.
Proof.
  unfold retry_wall_deadline. rewrite bind_Some. setoid_rewrite checked_add_u64_Some.
  setoid_rewrite Z.gtb_ltb. split.
  - intros (d & [-> Hle] & Hd). case_match; breflect; naive_solver.
  - intros [-> Hle]. exists (floor + delay). unfold i64_max, u64_max in *.
    split; [lia|]. case_match; breflect; [lia|done].
Qed.

(** ** Witnesses *)

Lemma eligibility_bucket_least_witness :
  eligibility_bucket_and_ns 10000000001 10000000000 = Some (2, 20000000000) <->
  20000000000 = 2 * 10000000000 /\
  10000000001 <= 20000000000 < 10000000001 + 10000000000 /\ 20000000000 <= u64_max.
Proof. apply eligibility_bucket_least; [split; lia | lia]. Defined.

Lemma bucket_interval_witness :
  exists s, bucket_start_ns 2 10 = Some s /\ s <= 25 < 30 /\ 30 = s + 10.
Proof. apply (bucket_interval 25 10 2 30); [lia | reflexivity | reflexivity]. Defined.

Lemma effective_wall_floor_spec_witness :
  exists b, bucket_number 50000000000 10000000000 = Some b /\
    5 <= b /\ 100 <= 50000000000 /\ 5 * 10000000000 <= 50000000000 /\
    (50000000000 = 100 \/ 50000000000 = 5 * 10000000000).
Proof. apply effective_wall_floor_spec; [lia | lia | reflexivity]. Defined.

Definition sample_policy : RetryPolicy := mkRetryPolicy 1000 300000 true (Some 100000).

Lemma retry_delay_bounds_witness :
  exists d, @retry_delay_ms checksum256 (replicate 16 Byte.x01) (replicate 16 Byte.x02) 4
      sample_policy = Ok d /\
    8000 <= 2 * d /\ d <= 8000 /\ 1 <= d /\ (true = false -> d = 8000).
Proof.
  apply (@retry_delay_bounds checksum256 (replicate 16 Byte.x01) (replicate 16 Byte.x02) 4
           sample_policy); [|reflexivity|lia].
  repeat split; cbn; lia.
Defined.

Lemma jitter_rejection_unbiased_witness :
  exists n, forall r, 0 <= r < 4001 ->
  exists first, forall x,
    (jitter_threshold 4001 <= x < 2 ^ 64 /\ x mod 4001 = r) <->
    (exists k, 0 <= k < n /\ x = first + k * 4001).
Proof. apply (jitter_rejection_unbiased 4001). lia. Defined.
