(* ===== verification/Names.v ===== *)
(** * steadq-names: canonical filenames, name tags and shards

    Models [crates/steadq-names/src/lib.rs].  A Rust [&str] is its list of
    UTF-8 bytes; fixed arrays [[u8; N]] are byte lists whose length the
    well-formedness predicates fix. *)
From stdpp Require Import base numbers list option strings sorting.
From Stdlib Require Import Strings.Byte ZArith.
From S2P Require Import Prelude.

(** ** Hex helpers *)

Definition hex_digits_table : bytes := lit "0123456789abcdef".
Definition hex_digit (n : Z) : byte := default x00 (hex_digits_table !! Z.to_nat n).

Definition hex_byte (b : byte) : bytes :=
  [hex_digit (Z.shiftr (b2z b) 4); hex_digit (Z.land (b2z b) 15)].

Definition push_hex (encoded bs : bytes) : bytes := encoded ++ concat (map hex_byte bs).
Definition hex_encode (bs : bytes) : bytes := push_hex [] bs.

Definition from_hex_digit_lower (b : byte) : option Z :=
  let v := b2z b in
  if (48 <=? v)%Z && (v <=? 57)%Z then Some (v - 48)%Z
  else if (97 <=? v)%Z && (v <=? 102)%Z then Some (v - 97 + 10)%Z
  else None.

Definition from_hex_pair_lower (hi lo : byte) : option byte :=
  h ← from_hex_digit_lower hi;
  l ← from_hex_digit_lower lo;
  Some (z2b (Z.lor (Z.shiftl h 4) l)).

Fixpoint hex_decode_chunks (s : bytes) : option bytes :=
  match s with
  | [] => Some []
  | [_] => None
  | hi :: lo :: s' =>
      b ← from_hex_pair_lower hi lo;
      rest ← hex_decode_chunks s';
      Some (b :: rest)
  end.

(** Decode exactly [2 * n] lowercase hex digits. *)
Definition hex_decode_array (n : nat) (s : bytes) : option bytes :=
  if negb (length s =? 2 * n)%nat then None else hex_decode_chunks s.

Definition hex_decode_16 (s : bytes) : option bytes := hex_decode_array 16 s.
Definition hex_decode_32 (s : bytes) : option bytes := hex_decode_array 32 s.
Definition hex_decode_u64 (s : bytes) : option Z := from_be <$> hex_decode_array 8 s.
Definition hex_decode_u32 (s : bytes) : option Z := from_be <$> hex_decode_array 4 s.
Definition hex_decode_u16 (s : bytes) : option Z := from_be <$> hex_decode_array 2 s.

(** [format!("{v:0{width}x}")]: the significant digits, zero-padded on the
    left to [width]. *)
Fixpoint hex_significant (fuel : nat) (v : Z) : bytes :=
  match fuel with
  | O => []
  | S f =>
      if (v <? 16)%Z then [hex_digit v]
      else hex_significant f (v / 16) ++ [hex_digit (v mod 16)]
  end.
Definition fmt_hex (width : nat) (v : Z) : bytes :=
  let ds := hex_significant 16 v in
  replicate (width - length ds) (hex_digit 0) ++ ds.

Definition hex_u64 (v : Z) : bytes := fmt_hex 16 v.
Definition hex_u16 (v : Z) : bytes := fmt_hex 4 v.

(** ** States *)

Inductive State : Type := Ready | Leased | Delayed | Receipt | Dead | Quarantine.

Definition dir_name (s : State) : bytes :=
  match s with
  | Ready => lit "ready"
  | Leased => lit "leased"
  | Delayed => lit "delayed"
  | Receipt => lit "receipts"
  | Dead => lit "dead"
  | Quarantine => lit "quarantine"
  end.

(** ** Buckets and shards *)

Definition shard_hex (shard : Z) : bytes := fmt_hex 4 shard.
Definition shard_from_hex (s : bytes) : option Z := hex_decode_u16 s.
Definition bucket_hex (bucket : Z) : bytes := fmt_hex 16 bucket.
Definition bucket_from_hex (s : bytes) : option Z :=
  if negb (length s =? 16)%nat then None else hex_decode_u64 s.

(** [u32::trailing_zeros], with 32 rounds. *)
Fixpoint count_trailing_zeros (n : nat) (x : Z) : Z :=
  match n with
  | O => 0
  | S n' => if Z.odd x then 0 else 1 + count_trailing_zeros n' (x / 2)
  end.
Definition trailing_zeros (x : Z) : Z := count_trailing_zeros 32 x.

(** The [i]-th shard of a scan: [(start + stride * i) mod shard_count]. *)
Definition shard_at (start stride i shard_count : Z) : Z :=
  let mask := (shard_count - 1)%Z in
  Z.land (wrap32 (start + wrap32 (stride * i))) mask.

(** ** Boot ids *)

Definition dash : byte := "-"%byte.

Definition format_boot_id (b : bytes) : bytes :=
  concat (map hex_byte (slice 0 4 b)) ++ [dash] ++
  concat (map hex_byte (slice 4 6 b)) ++ [dash] ++
  concat (map hex_byte (slice 6 8 b)) ++ [dash] ++
  concat (map hex_byte (slice 8 10 b)) ++ [dash] ++
  concat (map hex_byte (slice 10 16 b)).

Definition is_dash_index (i : nat) : bool :=
  (i =? 8)%nat || (i =? 13)%nat || (i =? 18)%nat || (i =? 23)%nat.

(** The decoding loop of [boot_id_bytes] over [(index, byte)]. *)
Fixpoint boot_id_loop (s : bytes) (index nibble_index : nat) (decoded : bytes)
  : option bytes :=
  match s with
  | [] => Some decoded
  | byte :: s' =>
      if is_dash_index index then boot_id_loop s' (S index) nibble_index decoded
      else
        nibble ← from_hex_digit_lower byte;
        let k := (nibble_index / 2)%nat in
        let output := decoded !!! k in
        let output' :=
          if (nibble_index mod 2 =? 0)%nat then z2b (Z.shiftl nibble 4)
          else z2b (Z.lor (b2z output) nibble) in
        boot_id_loop s' (S index) (S nibble_index) (<[k := output']> decoded)
  end.

Definition boot_id_bytes (s : bytes) : option bytes :=
  if negb (length s =? 36)%nat then None
  else if negb (forallb (fun pos => bool_decide (s !! pos = Some dash)) [8; 13; 18; 23]%nat)
  then None
  else boot_id_loop s 0 0 (zeros 16).

(** ** Parsed names *)

Record CommonFields : Type := mkCommon {
  cf_job_id : bytes;
  cf_generation : Z;
  cf_attempt : Z;
  cf_maximum_attempts : Z
}.

Record ReadyName : Type := mkReadyName { rn_common : CommonFields; rn_tag : bytes }.
Record DelayedName : Type := mkDelayedName {
  dn_common : CommonFields; dn_not_before_ns : Z; dn_tag : bytes }.
Record DeadName : Type := mkDeadName {
  xn_common : CommonFields; xn_reason : Z; xn_tag : bytes }.
Record ReceiptName : Type := mkReceiptName {
  tn_common : CommonFields; tn_token : bytes; tn_tag : bytes }.
Record LeasedName : Type := mkLeasedName {
  ln_common : CommonFields;
  ln_boot_id : bytes;
  ln_boottime_deadline_ns : Z;
  ln_wall_deadline_ns : Z;
  ln_token : bytes;
  ln_tag : bytes
}.
Record TempName : Type := mkTempName { tmp_created_boottime_ns : Z; tmp_random : bytes }.
Record QuarantineName : Type := mkQuarantineName { qn_quarantine_id : bytes; qn_reason : Z }.

#[global] Instance CommonFields_eq_dec : EqDecision CommonFields.
Proof. solve_decision. Defined.

Inductive ParseError : Type :=
| BadExtension
| MissingField (field : string)
| BadHex (field : string)
| Malformed
| NonAscii.

(** ** Writers *)

Definition base_name (c : CommonFields) : bytes :=
  push_hex [] (cf_job_id c) ++ lit ".g" ++ fmt_hex 16 (cf_generation c)
  ++ lit ".a" ++ fmt_hex 8 (cf_attempt c) ++ lit ".m" ++ fmt_hex 8 (cf_maximum_attempts c).

Definition leased_base (n : LeasedName) : bytes :=
  push_hex
    (push_hex (base_name (ln_common n) ++ lit ".o") (ln_boot_id n)
     ++ lit ".b" ++ fmt_hex 16 (ln_boottime_deadline_ns n)
     ++ lit ".w" ++ fmt_hex 16 (ln_wall_deadline_ns n) ++ lit ".t")
    (ln_token n).
Definition delayed_base (n : DelayedName) : bytes :=
  base_name (dn_common n) ++ lit ".d" ++ fmt_hex 16 (dn_not_before_ns n).
Definition dead_base (n : DeadName) : bytes :=
  base_name (xn_common n) ++ lit ".x" ++ fmt_hex 4 (xn_reason n).
Definition receipt_base (n : ReceiptName) : bytes :=
  push_hex (base_name (tn_common n) ++ lit ".t") (tn_token n).

Definition tagged_filename (base tag extension : bytes) : bytes :=
  push_hex (base ++ lit ".k") tag ++ extension.

Definition ready_filename (fields : CommonFields) (tag : bytes) : bytes :=
  tagged_filename (base_name fields) tag (lit ".sqj").
Definition delayed_filename (fields : CommonFields) (not_before_ns : Z) (tag : bytes) : bytes :=
  tagged_filename (base_name fields ++ lit ".d" ++ fmt_hex 16 not_before_ns) tag (lit ".sqj").
Definition dead_filename (fields : CommonFields) (reason : Z) (tag : bytes) : bytes :=
  tagged_filename (base_name fields ++ lit ".x" ++ fmt_hex 4 reason) tag (lit ".sqj").
Definition receipt_filename (fields : CommonFields) (token tag : bytes) : bytes :=
  tagged_filename (push_hex (base_name fields ++ lit ".t") token) tag (lit ".rct").
Definition leased_filename (fields : CommonFields) (boot_id : bytes)
    (boottime_deadline_ns wall_deadline_ns : Z) (token tag : bytes) : bytes :=
  let base := push_hex (base_name fields ++ lit ".o") boot_id in
  let base := base ++ lit ".b" ++ fmt_hex 16 boottime_deadline_ns
              ++ lit ".w" ++ fmt_hex 16 wall_deadline_ns ++ lit ".t" in
  tagged_filename (push_hex base token) tag (lit ".sqj").
Definition temp_filename (created_boottime_ns : Z) (random : bytes) : bytes :=
  hex_u64 created_boottime_ns ++ lit "." ++ hex_encode random ++ lit ".tmp".
Definition quarantine_filename (quarantine_id : bytes) (reason : Z) : bytes :=
  lit "q" ++ hex_encode quarantine_id ++ lit ".x" ++ hex_u16 reason ++ lit ".raw".

(** ** Tag contexts *)

Definition ready_context (shard_hex filename_without_tag_ext : bytes) : bytes :=
  lit "ready/-/-/" ++ shard_hex ++ lit "/" ++ filename_without_tag_ext.
Definition leased_context (boot_id bucket shard_hex filename_without_tag_ext : bytes) : bytes :=
  lit "leased/" ++ boot_id ++ lit "/" ++ bucket ++ lit "/" ++ shard_hex ++ lit "/"
  ++ filename_without_tag_ext.
Definition delayed_context (bucket shard_hex filename_without_tag_ext : bytes) : bytes :=
  lit "delayed/-/" ++ bucket ++ lit "/" ++ shard_hex ++ lit "/" ++ filename_without_tag_ext.
Definition terminal_context (state : State) (bucket shard_hex filename_without_tag_ext : bytes)
  : bytes :=
  dir_name state ++ lit "/-/" ++ bucket ++ lit "/" ++ shard_hex ++ lit "/"
  ++ filename_without_tag_ext.

Definition ReadyName_canonical_context (n : ReadyName) (shard_hex : bytes) : bytes :=
  ready_context shard_hex (base_name (rn_common n)).
Definition LeasedName_canonical_context (n : LeasedName) (boot_id bucket shard_hex : bytes)
  : bytes := leased_context boot_id bucket shard_hex (leased_base n).
Definition DelayedName_canonical_context (n : DelayedName) (bucket shard_hex : bytes) : bytes :=
  delayed_context bucket shard_hex (delayed_base n).
Definition DeadName_canonical_context (n : DeadName) (bucket shard_hex : bytes) : bytes :=
  terminal_context Dead bucket shard_hex (dead_base n).
Definition ReceiptName_canonical_context (n : ReceiptName) (bucket shard_hex : bytes) : bytes :=
  terminal_context Receipt bucket shard_hex (receipt_base n).

(** ** Digest-dependent definitions *)

Section Tags.
Context `{Sha256}.

Definition compute_name_tag_parts (queue_id : bytes) (context_parts : list bytes) : bytes :=
  let result := sha256 ((lit "SteadQ-1-name" ++ [x00]) ++ queue_id ++ concat context_parts) in
  slice 0 8 result.

Definition compute_name_tag (queue_id canonical_context : bytes) : bytes :=
  compute_name_tag_parts queue_id [canonical_context].

Definition compute_shard (queue_id job_id : bytes) (shard_count : Z) : Z :=
  let result := sha256 ((lit "SteadQ-1-shard" ++ [x00]) ++ queue_id ++ job_id) in
  let k := trailing_zeros shard_count in
  let val := from_be (slice 0 4 result) in
  Z.land val (wrap32 (Z.shiftl 1 k) - 1).

Definition shard_scan_params (queue_id boot_id worker_nonce : bytes)
    (scan_round shard_count : Z) : Z * Z :=
  let result :=
    sha256 ((lit "SteadQ-1-scan" ++ [x00]) ++ queue_id ++ boot_id ++ worker_nonce
            ++ to_be 8 scan_round) in
  let mask := (shard_count - 1)%Z in
  let start := Z.land (from_be (slice 0 8 result)) mask in
  let stride := Z.land (Z.lor (from_be (slice 8 16 result)) 1) mask in
  let stride := if (stride =? 0)%Z then 1%Z else stride in
  (wrap32 start, wrap32 stride).

Definition ReadyName_authenticate_tag (n : ReadyName) (queue_id shard_hex : bytes) : bool :=
  let base := base_name (rn_common n) in
  bool_decide
    (compute_name_tag_parts queue_id [lit "ready/-/-/"; shard_hex; lit "/"; base] = rn_tag n).

Definition LeasedName_authenticate_tag (n : LeasedName)
    (queue_id boot_id bucket shard_hex : bytes) : bool :=
  let base := leased_base n in
  bool_decide
    (compute_name_tag_parts queue_id
       [lit "leased/"; boot_id; lit "/"; bucket; lit "/"; shard_hex; lit "/"; base] = ln_tag n).

Definition DelayedName_authenticate_tag (n : DelayedName)
    (queue_id bucket shard_hex : bytes) : bool :=
  let base := delayed_base n in
  bool_decide
    (compute_name_tag_parts queue_id
       [lit "delayed/-/"; bucket; lit "/"; shard_hex; lit "/"; base] = dn_tag n).

Definition DeadName_authenticate_tag (n : DeadName) (queue_id bucket shard_hex : bytes) : bool :=
  let base := dead_base n in
  bool_decide
    (compute_name_tag_parts queue_id
       [dir_name Dead; lit "/-/"; bucket; lit "/"; shard_hex; lit "/"; base] = xn_tag n).

Definition ReceiptName_authenticate_tag (n : ReceiptName) (queue_id bucket shard_hex : bytes)
  : bool :=
  let base := receipt_base n in
  bool_decide
    (compute_name_tag_parts queue_id
       [dir_name Receipt; lit "/-/"; bucket; lit "/"; shard_hex; lit "/"; base] = tn_tag n).

Definition make_ready_name (queue_id shard_hex : bytes) (common : CommonFields) : bytes :=
  let base := base_name common in
  let tag := compute_name_tag_parts queue_id [lit "ready/-/-/"; shard_hex; lit "/"; base] in
  tagged_filename base tag (lit ".sqj").

Definition make_delayed_name (queue_id bucket_hex shard_hex : bytes) (common : CommonFields)
    (not_before_ns : Z) : bytes :=
  let base := base_name common ++ lit ".d" ++ fmt_hex 16 not_before_ns in
  let tag := compute_name_tag_parts queue_id
               [lit "delayed/-/"; bucket_hex; lit "/"; shard_hex; lit "/"; base] in
  tagged_filename base tag (lit ".sqj").

Definition make_leased_name (queue_id boot_id bucket_hex shard_hex : bytes)
    (common : CommonFields) (boottime_deadline_ns wall_deadline_ns : Z) (token : bytes)
  : option bytes :=
  boot_bytes ← boot_id_bytes boot_id;
  let base := push_hex (base_name common ++ lit ".o") boot_bytes in
  let base := base ++ lit ".b" ++ fmt_hex 16 boottime_deadline_ns
              ++ lit ".w" ++ fmt_hex 16 wall_deadline_ns ++ lit ".t" in
  let base := push_hex base token in
  let tag := compute_name_tag_parts queue_id
               [lit "leased/"; boot_id; lit "/"; bucket_hex; lit "/"; shard_hex; lit "/"; base] in
  Some (tagged_filename base tag (lit ".sqj")).

Definition make_receipt_name (queue_id bucket_hex shard_hex : bytes) (common : CommonFields)
    (token : bytes) : bytes :=
  let base := push_hex (base_name common ++ lit ".t") token in
  let tag := compute_name_tag_parts queue_id
               [dir_name Receipt; lit "/-/"; bucket_hex; lit "/"; shard_hex; lit "/"; base] in
  tagged_filename base tag (lit ".rct").

Definition make_dead_name (queue_id bucket_hex shard_hex : bytes) (common : CommonFields)
    (reason : Z) : bytes :=
  let base := base_name common ++ lit ".x" ++ fmt_hex 4 reason in
  let tag := compute_name_tag_parts queue_id
               [dir_name Dead; lit "/-/"; bucket_hex; lit "/"; shard_hex; lit "/"; base] in
  tagged_filename base tag (lit ".sqj").

End Tags.

(** ** Parsers *)

Definition dot : byte := "."%byte.

Definition is_ascii (s : bytes) : bool := forallb (fun b => b2z b <? 128)%Z s.
Definition contains_byte (c : byte) (s : bytes) : bool := existsb (fun b => bool_decide (b = c)) s.

Definition assert_ascii (s : bytes) : result unit ParseError :=
  if is_ascii s && negb (contains_byte x00 s) then Ok tt else Err NonAscii.

(** [str::strip_suffix] *)
Definition strip_suffix (suffix s : bytes) : option bytes :=
  let n := (length s - length suffix)%nat in
  if (length suffix <=? length s)%nat && bool_decide (drop n s = suffix)
  then Some (take n s) else None.

(** [str::split('.')] *)
Fixpoint split_dot (s : bytes) : list bytes :=
  match s with
  | [] => [[]]
  | b :: s' =>
      if bool_decide (b = dot) then [] :: split_dot s'
      else match split_dot s' with
           | [] => [[b]]
           | p :: ps => (b :: p) :: ps
           end
  end.

Definition strip_tag (part : bytes) (prefix : byte) : result bytes ParseError :=
  match part with
  | first :: rest =>
      if bool_decide (first = prefix) && negb (bool_decide (rest = []))
      then Ok rest else Err Malformed
  | [] => Err Malformed
  end.

Definition parse_tagged_hex_u64 (part : bytes) (prefix : byte) : result Z ParseError :=
  let? s := strip_tag part prefix in ok_or (hex_decode_u64 s) (BadHex "u64").
Definition parse_tagged_hex_u32 (part : bytes) (prefix : byte) : result Z ParseError :=
  let? s := strip_tag part prefix in ok_or (hex_decode_u32 s) (BadHex "u32").
Definition parse_tagged_hex_u16 (part : bytes) (prefix : byte) : result Z ParseError :=
  let? s := strip_tag part prefix in ok_or (hex_decode_u16 s) (BadHex "u16").
Definition parse_tagged_hex_16 (part : bytes) (prefix : byte) : result bytes ParseError :=
  let? s := strip_tag part prefix in ok_or (hex_decode_16 s) (BadHex "16").
Definition parse_tag (part : bytes) : result bytes ParseError :=
  let? s := strip_tag part "k"%byte in ok_or (hex_decode_array 8 s) (BadHex "k").

Definition parse_common_strict (parts : list bytes)
  : result (CommonFields * list bytes) ParseError :=
  match parts with
  | p0 :: p1 :: p2 :: p3 :: rest =>
      let? job_id := ok_or (hex_decode_16 p0) (BadHex "job_id") in
      let? generation := parse_tagged_hex_u64 p1 "g"%byte in
      let? attempt := parse_tagged_hex_u32 p2 "a"%byte in
      let? maximum_attempts := parse_tagged_hex_u32 p3 "m"%byte in
      Ok (mkCommon job_id generation attempt maximum_attempts, rest)
  | _ => Err Malformed
  end.

(** The common prologue of the job-name parsers: ASCII check, extension,
    field count, common fields. *)
Definition parse_fields (extension : bytes) (count : nat) (filename : bytes)
  : result (CommonFields * list bytes) ParseError :=
  let? _ := assert_ascii filename in
  let? filename := ok_or (strip_suffix extension filename) BadExtension in
  let parts := split_dot filename in
  if negb (length parts =? count)%nat then Err Malformed
  else parse_common_strict parts.

Definition parse_ready (filename : bytes) : result ReadyName ParseError :=
  let? (common, rest) := parse_fields (lit ".sqj") 5 filename in
  match rest with
  | [r0] =>
      let? tag := parse_tag r0 in
      Ok (mkReadyName common tag)
  | _ => Err Malformed
  end.

Definition parse_delayed (filename : bytes) : result DelayedName ParseError :=
  let? (common, rest) := parse_fields (lit ".sqj") 6 filename in
  match rest with
  | [r0; r1] =>
      let? not_before_ns := parse_tagged_hex_u64 r0 "d"%byte in
      let? tag := parse_tag r1 in
      Ok (mkDelayedName common not_before_ns tag)
  | _ => Err Malformed
  end.

Definition parse_dead (filename : bytes) : result DeadName ParseError :=
  let? (common, rest) := parse_fields (lit ".sqj") 6 filename in
  match rest with
  | [r0; r1] =>
      let? reason := parse_tagged_hex_u16 r0 "x"%byte in
      let? tag := parse_tag r1 in
      Ok (mkDeadName common reason tag)
  | _ => Err Malformed
  end.

Definition parse_receipt (filename : bytes) : result ReceiptName ParseError :=
  let? (common, rest) := parse_fields (lit ".rct") 6 filename in
  match rest with
  | [r0; r1] =>
      let? token := parse_tagged_hex_16 r0 "t"%byte in
      let? tag := parse_tag r1 in
      Ok (mkReceiptName common token tag)
  | _ => Err Malformed
  end.

Definition parse_leased (filename : bytes) : result LeasedName ParseError :=
  let? (common, rest) := parse_fields (lit ".sqj") 9 filename in
  match rest with
  | [r0; r1; r2; r3; r4] =>
      let? boot_id := parse_tagged_hex_16 r0 "o"%byte in
      let? boottime_deadline_ns := parse_tagged_hex_u64 r1 "b"%byte in
      let? wall_deadline_ns := parse_tagged_hex_u64 r2 "w"%byte in
      let? token := parse_tagged_hex_16 r3 "t"%byte in
      let? tag := parse_tag r4 in
      Ok (mkLeasedName common boot_id boottime_deadline_ns wall_deadline_ns token tag)
  | _ => Err Malformed
  end.

Definition parse_temp (filename : bytes) : result TempName ParseError :=
  let? _ := assert_ascii filename in
  let? filename := ok_or (strip_suffix (lit ".tmp") filename) BadExtension in
  match split_dot filename with
  | [p0; p1] =>
      let? created_boottime_ns := ok_or (hex_decode_u64 p0) (BadHex "boottime") in
      let? random := ok_or (hex_decode_16 p1) (BadHex "random") in
      Ok (mkTempName created_boottime_ns random)
  | _ => Err Malformed
  end.

Definition parse_quarantine (filename : bytes) : result QuarantineName ParseError :=
  let? _ := assert_ascii filename in
  let? filename := ok_or (strip_suffix (lit ".raw") filename) BadExtension in
  match split_dot filename with
  | [p0; p1] =>
      if negb (length p0 =? 33)%nat || negb (bool_decide (p0 !! 0%nat = Some "q"%byte))
      then Err Malformed
      else
        let id_hex := drop 1 p0 in
        let? quarantine_id := ok_or (hex_decode_16 id_hex) (BadHex "id") in
        let? reason := parse_tagged_hex_u16 p1 "x"%byte in
        Ok (mkQuarantineName quarantine_id reason)
  | _ => Err Malformed
  end.

(** ** Hex: lemmas *)

(** What a filename field is made of: ASCII, no NUL, no separator. *)
Definition name_char (b : byte) : bool :=
  (b2z b <? 128)%Z && negb (bool_decide (b = x00)) && negb (bool_decide (b = dot)).

Lemma nibble_ind (P : Z -> Prop) :
  Forall P [0; 1; 2; 3; 4; 5; 6; 7; 8; 9; 10; 11; 12; 13; 14; 15]%Z ->
  forall n, (0 <= n < 16)%Z -> P n.
Proof.
  intros HP n Hn. rewrite Forall_forall in HP. apply HP.
  rewrite !elem_of_cons, elem_of_nil. lia.
Qed.
Ltac nibbles := repeat (apply Forall_cons_2; [vm_compute; reflexivity|]); apply Forall_nil_2.

Lemma from_hex_digit_hex_digit n :
  (0 <= n < 16)%Z -> from_hex_digit_lower (hex_digit n) = Some n.
Proof. revert n. apply nibble_ind. nibbles. Qed.

Lemma name_char_hex_digit n : (0 <= n < 16)%Z -> name_char (hex_digit n) = true.
Proof. revert n. apply nibble_ind. nibbles. Qed.

Lemma from_hex_digit_inv b n :
  from_hex_digit_lower b = Some n -> b = hex_digit n /\ (0 <= n < 16)%Z.
Proof. destruct b; vm_compute; intros [= <-]; done. Qed.

Lemma b2z_nibbles b :
  (0 <= Z.shiftr (b2z b) 4 < 16)%Z /\ (0 <= Z.land (b2z b) 15 < 16)%Z.
Proof. destruct b; vm_compute; done. Qed.

Lemma b2z_of_nibbles b :
  z2b (Z.lor (Z.shiftl (Z.shiftr (b2z b) 4) 4) (Z.land (b2z b) 15)) = b.
Proof. destruct b; reflexivity. Qed.

Lemma hex_byte_of_nibbles h l :
  (0 <= h < 16)%Z -> (0 <= l < 16)%Z ->
  hex_byte (z2b (Z.lor (Z.shiftl h 4) l)) = [hex_digit h; hex_digit l].
Proof.
  intros Hh Hl. revert l Hl h Hh. refine (nibble_ind _ _).
  repeat (apply Forall_cons_2; [apply nibble_ind; nibbles|]). apply Forall_nil_2.
Qed.

Lemma push_hex_app a bs : push_hex a bs = a ++ hex_encode bs.
Proof. done. Qed.

Lemma hex_encode_cons b bs : hex_encode (b :: bs) = hex_byte b ++ hex_encode bs.
Proof. done. Qed.

Lemma hex_encode_app l1 l2 : hex_encode (l1 ++ l2) = hex_encode l1 ++ hex_encode l2.
Proof. unfold hex_encode, push_hex. simpl. by rewrite map_app, concat_app. Qed.

Lemma length_hex_encode bs : length (hex_encode bs) = (2 * length bs)%nat.
Proof. induction bs as [|b bs IH]; [done|]. rewrite hex_encode_cons, length_app, IH. simpl. lia. Qed.
#[export] Hint Rewrite length_hex_encode : len.

Lemma hex_decode_chunks_encode bs : hex_decode_chunks (hex_encode bs) = Some bs.
Proof.
  induction bs as [|b bs IH]; [done|]. rewrite hex_encode_cons. cbn -[hex_encode].
  unfold from_hex_pair_lower. destruct (b2z_nibbles b).
  rewrite !from_hex_digit_hex_digit by done. simpl. by rewrite b2z_of_nibbles, IH.
Qed.

Lemma hex_decode_chunks_inv s bs : hex_decode_chunks s = Some bs -> s = hex_encode bs.
Proof.
  revert bs. induction s as [s IH] using (induction_ltof1 _ (@length byte)).
  destruct s as [|hi [|lo s]]; intros bs; [by intros [= <-]|done|].
  unfold ltof in IH. cbn [hex_decode_chunks]. rewrite bind_Some. intros (b & Hb & Hrest).
  rewrite bind_Some in Hrest. destruct Hrest as (rest & Hrest & [= <-]).
  unfold from_hex_pair_lower in Hb.
  rewrite bind_Some in Hb. destruct Hb as (h & Hh & Hb).
  rewrite bind_Some in Hb. destruct Hb as (l & Hl & [= <-]).
  apply from_hex_digit_inv in Hh as [-> Hh]. apply from_hex_digit_inv in Hl as [-> Hl].
  rewrite hex_encode_cons, hex_byte_of_nibbles by done. simpl. do 2 f_equal.
  apply IH; [simpl; lia|done].
Qed.

Lemma hex_decode_array_Some n s bs :
  hex_decode_array n s = Some bs <-> s = hex_encode bs /\ length bs = n.
Proof.
  unfold hex_decode_array. split.
  - case_match; [done|]. breflect. intros Hs%hex_decode_chunks_inv. subst.
    rewrite length_hex_encode in *. split; [done|lia].
  - intros [-> <-]. rewrite length_hex_encode, Nat.eqb_refl. apply hex_decode_chunks_encode.
Qed.

(** [{v:0wx}] of a value that fits prints exactly the big-endian bytes. *)
Fixpoint hex_fixed (k : nat) (v : Z) : bytes :=
  match k with
  | O => []
  | S k' => hex_fixed k' (v / 16) ++ [hex_digit (v mod 16)]
  end.

Lemma hex_fixed_zero k : hex_fixed k 0 = replicate k (hex_digit 0).
Proof.
  induction k as [|k IH]; [done|]. cbn [hex_fixed]. change (0 / 16)%Z with 0%Z.
  rewrite IH. change (0 mod 16)%Z with 0%Z. symmetry. apply replicate_cons_app.
Qed.

Lemma hex_significant_pad fuel k v :
  (0 <= v < 16 ^ Z.of_nat k)%Z -> (1 <= k <= fuel)%nat ->
  (length (hex_significant fuel v) <= k)%nat /\
  replicate (k - length (hex_significant fuel v)) (hex_digit 0) ++ hex_significant fuel v
  = hex_fixed k v.
Proof.
  revert k v. induction fuel as [|f IH]; intros k v Hv Hk; [lia|].
  destruct k as [|k]; [lia|]. cbn [hex_significant hex_fixed].
  rewrite Nat2Z.inj_succ, Z.pow_succ_r in Hv by lia.
  destruct (v <? 16)%Z eqn:E; breflect.
  - simpl. split; [lia|]. rewrite Z.div_small, hex_fixed_zero by lia.
    rewrite Nat.sub_0_r, (Z.mod_small v) by lia. done.
  - assert (1 <= k)%nat by (destruct k; [simpl in Hv; lia|lia]).
    destruct (IH k (v / 16)%Z) as [Hlen Heq]; [|lia|].
    { split; [apply Z.div_pos|apply Z.div_lt_upper_bound]; lia. }
    rewrite length_app. simpl. split; [lia|].
    rewrite <- Heq, <- app_assoc. do 2 f_equal. lia.
Qed.

Lemma to_be_snoc n v : to_be (S n) v = to_be n (v / 256) ++ [z2b v].
Proof.
  induction n as [|n IH]; [done|].
  cbn [to_be]. cbn [to_be] in IH. rewrite IH. simpl. f_equal. f_equal.
  replace (v / 256)%Z with (Z.shiftr v 8) by (by rewrite Z.shiftr_div_pow2).
  rewrite Z.shiftr_shiftr by lia. f_equal. lia.
Qed.

Lemma hex_byte_z2b v :
  hex_byte (z2b v) = [hex_digit (v / 16 mod 16); hex_digit (v mod 16)].
Proof.
  unfold hex_byte. rewrite b2z_z2b.
  replace 15%Z with (Z.ones 4) by done. rewrite Z.land_ones, Z.shiftr_div_pow2 by lia.
  change (2 ^ 4)%Z with 16%Z. change 256%Z with (16 * 16)%Z.
  rewrite Z.rem_mul_r by lia.
  replace (v mod 16 + 16 * (v / 16 mod 16))%Z with (v / 16 mod 16 * 16 + v mod 16)%Z by ring.
  pose proof (Z.mod_pos_bound v 16 eq_refl).
  rewrite Z.div_add_l, (Z.div_small (v mod 16)), Z.add_0_r by lia.
  rewrite (Z.add_comm (_ * 16)), Z_mod_plus_full, (Z.mod_small (v mod 16)) by lia. done.
Qed.

Lemma hex_encode_to_be n v : hex_encode (to_be n v) = hex_fixed (2 * n) v.
Proof.
  revert v. induction n as [|n IH]; intros v; [done|].
  rewrite to_be_snoc, hex_encode_app, IH.
  replace (2 * S n)%nat with (S (S (2 * n))) by lia. cbn [hex_fixed].
  rewrite Z.div_div by lia. rewrite <- app_assoc. f_equal.
  rewrite hex_encode_cons, hex_byte_z2b. done.
Qed.

Lemma fmt_hex_to_be n v :
  (1 <= n <= 8)%nat -> (0 <= v < 256 ^ Z.of_nat n)%Z ->
  fmt_hex (2 * n) v = hex_encode (to_be n v).
Proof.
  intros Hn Hv. rewrite hex_encode_to_be. unfold fmt_hex.
  apply (hex_significant_pad 16 (2 * n) v); [|lia].
  rewrite Nat2Z.inj_mul, Z.pow_mul_r by lia. done.
Qed.

(** ** Splitting and field lemmas *)

Definition field_chars (p : bytes) : Prop := Forall (fun b => name_char b = true) p.
Definition ascii_char (b : byte) : Prop := (b2z b < 128)%Z /\ b <> x00.

Fixpoint join_dot (parts : list bytes) : bytes :=
  match parts with
  | [] => []
  | [p] => p
  | p :: ps => p ++ dot :: join_dot ps
  end.

Lemma name_char_spec b : name_char b = true <-> ascii_char b /\ b <> dot.
Proof.
  unfold name_char, ascii_char. rewrite !andb_true_iff, !negb_true_iff, Z.ltb_lt.
  rewrite !bool_decide_eq_false. naive_solver.
Qed.

Lemma assert_ascii_ok s : assert_ascii s = Ok tt <-> Forall ascii_char s.
Proof.
  unfold assert_ascii, is_ascii, contains_byte.
  enough (forallb (fun b => (b2z b <? 128)%Z) s
          && negb (existsb (fun b => bool_decide (b = x00)) s) = true <-> Forall ascii_char s)
    as <- by (case_match; naive_solver).
  induction s as [|b s IH]; simpl; [split; [constructor|done]|].
  rewrite Forall_cons, <- IH. unfold ascii_char.
  rewrite !andb_true_iff, !negb_true_iff, orb_false_iff, Z.ltb_lt, bool_decide_eq_false.
  naive_solver.
Qed.

Lemma split_dot_nonempty s : split_dot s <> [].
Proof. destruct s; simpl; [done|]. repeat case_match; done. Qed.

Lemma join_split_dot s : join_dot (split_dot s) = s.
Proof.
  induction s as [|b s IH]; [done|]. cbn [split_dot].
  pose proof (split_dot_nonempty s). destruct (split_dot s) as [|p ps]; [done|].
  case_bool_decide; subst; destruct ps; cbn [join_dot app] in *; congruence.
Qed.

Lemma split_dot_chars s :
  Forall ascii_char s -> Forall field_chars (split_dot s).
Proof.
  induction s as [|b s IH]; [repeat constructor|]. rewrite Forall_cons. intros [Hb Hs].
  specialize (IH Hs). cbn [split_dot]. pose proof (split_dot_nonempty s).
  destruct (split_dot s) as [|p ps]; [done|]. rewrite Forall_cons in IH. destruct IH.
  case_bool_decide; repeat constructor; try done. by apply name_char_spec.
Qed.

Lemma split_dot_field p : field_chars p -> split_dot p = [p].
Proof.
  unfold field_chars. induction p as [|b p IH]; [done|]. rewrite Forall_cons.
  intros [Hb Hp]. apply name_char_spec in Hb as [_ Hb]. cbn [split_dot].
  by rewrite bool_decide_eq_false_2, IH.
Qed.

Lemma split_dot_app p s : field_chars p -> split_dot (p ++ dot :: s) = p :: split_dot s.
Proof.
  unfold field_chars. induction p as [|b p IH]; [done|]. rewrite Forall_cons.
  intros [Hb Hp]. apply name_char_spec in Hb as [_ Hb]. cbn [split_dot app].
  by rewrite bool_decide_eq_false_2, IH.
Qed.

Lemma split_join_dot parts :
  parts <> [] -> Forall field_chars parts -> split_dot (join_dot parts) = parts.
Proof.
  induction parts as [|p ps IH]; [done|]. intros _. rewrite Forall_cons. intros [Hp Hps].
  destruct ps as [|p' ps]; [by apply split_dot_field|].
  change (join_dot (p :: p' :: ps)) with (p ++ dot :: join_dot (p' :: ps)).
  rewrite split_dot_app by done. by rewrite IH.
Qed.

Lemma join_dot_ascii parts : Forall field_chars parts -> Forall ascii_char (join_dot parts).
Proof.
  assert (Hf : forall p, field_chars p -> Forall ascii_char p).
  { intros p Hp. eapply Forall_impl; [exact Hp|]. intros b [Ha _]%name_char_spec. exact Ha. }
  induction parts as [|p [|p' ps] IH]; [constructor| |]; rewrite Forall_cons; intros [Hp Hps];
    [by apply Hf|].
  change (join_dot (p :: p' :: ps)) with (p ++ dot :: join_dot (p' :: ps)).
  apply Forall_app. split; [by apply Hf|]. constructor; [by split|]. by apply IH.
Qed.

Lemma strip_suffix_Some suffix s t : strip_suffix suffix s = Some t <-> s = t ++ suffix.
Proof.
  unfold strip_suffix. split.
  - case_match; [|done]. breflect. intros [= <-].
    transitivity (take (length s - length suffix) s ++ drop (length s - length suffix) s);
      [by rewrite take_drop|congruence].
  - intros ->. rewrite length_app.
    replace (length t + length suffix - length suffix)%nat with (length t) by lia.
    rewrite drop_app_length, take_app_length, bool_decide_eq_true_2 by done.
    destruct (_ <=? _)%nat eqn:E; [done|]. apply Nat.leb_gt in E. lia.
Qed.

Lemma hex_encode_chars bs : field_chars (hex_encode bs).
Proof.
  unfold field_chars. induction bs as [|b bs IH]; [constructor|]. rewrite hex_encode_cons.
  destruct (b2z_nibbles b). unfold hex_byte.
  repeat (constructor; [by apply name_char_hex_digit|]). done.
Qed.

Lemma hex_decode_int n s v :
  (1 <= n <= 8)%nat ->
  from_be <$> hex_decode_array n s = Some v <->
  s = fmt_hex (2 * n) v /\ (0 <= v < 256 ^ Z.of_nat n)%Z.
Proof.
  intros Hn. rewrite fmap_Some. setoid_rewrite hex_decode_array_Some. split.
  - intros (bs & [-> Hl] & ->). pose proof (from_be_bound bs). rewrite Hl in *.
    by rewrite fmt_hex_to_be, to_be_from_be_len.
  - intros [-> Hv]. exists (to_be n v).
    by rewrite fmt_hex_to_be, length_to_be, from_be_to_be.
Qed.

Lemma hex_decode_u64_Some s v : hex_decode_u64 s = Some v <-> s = fmt_hex 16 v /\ is_u64 v.
Proof. apply (hex_decode_int 8). lia. Qed.

Lemma hex_decode_u16_Some s v : hex_decode_u16 s = Some v <-> s = fmt_hex 4 v /\ is_u16 v.
Proof. apply (hex_decode_int 2). lia. Qed.

Lemma strip_tag_ok part prefix s :
  strip_tag part prefix = Ok s <-> part = prefix :: s /\ s <> [].
Proof.
  unfold strip_tag. destruct part as [|b r]; [naive_solver|].
  destruct (decide (b = prefix)), (decide (r = []));
    rewrite ?bool_decide_eq_true_2, ?bool_decide_eq_false_2 by done; simpl; naive_solver.
Qed.

(** A tagged integer field accepts exactly its one canonical spelling. *)
Lemma tagged_int_ok n part prefix e v :
  (1 <= n <= 8)%nat ->
  rbind (strip_tag part prefix) (fun s => ok_or (from_be <$> hex_decode_array n s) e) = Ok v <->
  part = prefix :: fmt_hex (2 * n) v /\ (0 <= v < 256 ^ Z.of_nat n)%Z.
Proof.
  intros Hn. rewrite rbind_ok_iff. setoid_rewrite strip_tag_ok. setoid_rewrite ok_or_ok_iff.
  setoid_rewrite hex_decode_int; [|done]. split; [naive_solver|].
  intros [-> Hv]. exists (fmt_hex (2 * n) v). split; [split; [done|] | done].
  rewrite fmt_hex_to_be by done. intros Heq. apply (f_equal length) in Heq.
  rewrite length_hex_encode, length_to_be in Heq. simpl in Heq. lia.
Qed.

Lemma tagged_bytes_ok n part prefix e bs :
  (1 <= n)%nat ->
  rbind (strip_tag part prefix) (fun s => ok_or (hex_decode_array n s) e) = Ok bs <->
  part = prefix :: hex_encode bs /\ length bs = n.
Proof.
  intros Hn. rewrite rbind_ok_iff. setoid_rewrite strip_tag_ok. setoid_rewrite ok_or_ok_iff.
  setoid_rewrite hex_decode_array_Some. split; [naive_solver|].
  intros [-> Hl]. exists (hex_encode bs). split; [split; [done|] | done].
  intros Heq. apply (f_equal length) in Heq. rewrite length_hex_encode in Heq. simpl in Heq. lia.
Qed.

Lemma parse_tagged_hex_u64_ok part prefix v :
  parse_tagged_hex_u64 part prefix = Ok v <-> part = prefix :: fmt_hex 16 v /\ is_u64 v.
Proof. apply (tagged_int_ok 8). lia. Qed.
Lemma parse_tagged_hex_u32_ok part prefix v :
  parse_tagged_hex_u32 part prefix = Ok v <-> part = prefix :: fmt_hex 8 v /\ is_u32 v.
Proof. apply (tagged_int_ok 4). lia. Qed.
Lemma parse_tagged_hex_u16_ok part prefix v :
  parse_tagged_hex_u16 part prefix = Ok v <-> part = prefix :: fmt_hex 4 v /\ is_u16 v.
Proof. apply (tagged_int_ok 2). lia. Qed.
Lemma parse_tagged_hex_16_ok part prefix bs :
  parse_tagged_hex_16 part prefix = Ok bs <-> part = prefix :: hex_encode bs /\ length bs = 16%nat.
Proof. apply tagged_bytes_ok. lia. Qed.
Lemma parse_tag_ok part bs :
  parse_tag part = Ok bs <-> part = "k"%byte :: hex_encode bs /\ length bs = 8%nat.
Proof. apply tagged_bytes_ok. lia. Qed.

(** ** Well-formed names *)

Definition CommonFields_wf (c : CommonFields) : Prop :=
  length (cf_job_id c) = 16%nat /\ is_u64 (cf_generation c) /\
  is_u32 (cf_attempt c) /\ is_u32 (cf_maximum_attempts c).
Definition ReadyName_wf (n : ReadyName) : Prop :=
  CommonFields_wf (rn_common n) /\ length (rn_tag n) = 8%nat.
Definition DelayedName_wf (n : DelayedName) : Prop :=
  CommonFields_wf (dn_common n) /\ is_u64 (dn_not_before_ns n) /\ length (dn_tag n) = 8%nat.
Definition DeadName_wf (n : DeadName) : Prop :=
  CommonFields_wf (xn_common n) /\ is_u16 (xn_reason n) /\ length (xn_tag n) = 8%nat.
Definition ReceiptName_wf (n : ReceiptName) : Prop :=
  CommonFields_wf (tn_common n) /\ length (tn_token n) = 16%nat /\ length (tn_tag n) = 8%nat.
Definition LeasedName_wf (n : LeasedName) : Prop :=
  CommonFields_wf (ln_common n) /\ length (ln_boot_id n) = 16%nat /\
  is_u64 (ln_boottime_deadline_ns n) /\ is_u64 (ln_wall_deadline_ns n) /\
  length (ln_token n) = 16%nat /\ length (ln_tag n) = 8%nat.

(** The dot-separated fields every job name starts with. *)
Definition common_parts (c : CommonFields) : list bytes :=
  [hex_encode (cf_job_id c);
   "g"%byte :: fmt_hex 16 (cf_generation c);
   "a"%byte :: fmt_hex 8 (cf_attempt c);
   "m"%byte :: fmt_hex 8 (cf_maximum_attempts c)].

Lemma join_dot_app ps q qs :
  ps <> [] -> join_dot (ps ++ q :: qs) = join_dot ps ++ dot :: join_dot (q :: qs).
Proof.
  induction ps as [|p ps IH]; [done|]. intros _. destruct ps as [|p' ps]; [done|].
  change ((p :: p' :: ps) ++ q :: qs) with (p :: p' :: (ps ++ q :: qs)).
  change (join_dot (p :: p' :: ps ++ q :: qs))
    with (p ++ dot :: join_dot ((p' :: ps) ++ q :: qs)).
  rewrite IH by done. change (join_dot (p :: p' :: ps)) with (p ++ dot :: join_dot (p' :: ps)).
  by rewrite <- app_assoc.
Qed.

Lemma base_name_parts c : base_name c = join_dot (common_parts c).
Proof. done. Qed.

Lemma parse_common_strict_ok parts c rest :
  parse_common_strict parts = Ok (c, rest) <-> CommonFields_wf c /\ parts = common_parts c ++ rest.
Proof.
  unfold parse_common_strict, CommonFields_wf, common_parts. split.
  - destruct parts as [|p0 [|p1 [|p2 [|p3 r]]]]; try done.
    rewrite rbind_ok_iff. intros (j & Hj & H). apply ok_or_ok_iff, hex_decode_array_Some in Hj.
    rewrite rbind_ok_iff in H. destruct H as (g & Hg%parse_tagged_hex_u64_ok & H).
    rewrite rbind_ok_iff in H. destruct H as (a & Ha%parse_tagged_hex_u32_ok & H).
    rewrite rbind_ok_iff in H. destruct H as (m & Hm%parse_tagged_hex_u32_ok & [= <- <-]).
    destruct Hj, Hg, Ha, Hm. subst. by split_and!.
  - intros [(Hj & Hg & Ha & Hm) ->]. destruct c as [j g a m]. cbn [app] in *. simpl in Hj, Hg, Ha, Hm.
    cbn [cf_job_id cf_generation cf_attempt cf_maximum_attempts].
    rewrite (proj2 (hex_decode_array_Some 16 _ j)) by done.
    rewrite (proj2 (parse_tagged_hex_u64_ok _ _ g)) by done.
    rewrite (proj2 (parse_tagged_hex_u32_ok _ _ a)) by done.
    by rewrite (proj2 (parse_tagged_hex_u32_ok _ _ m)) by done.
Qed.

Lemma fmt_hex_field n b v :
  (1 <= n <= 8)%nat -> (0 <= v < 256 ^ Z.of_nat n)%Z -> name_char b = true ->
  field_chars (b :: fmt_hex (2 * n) v).
Proof. intros. constructor; [done|]. rewrite fmt_hex_to_be by done. apply hex_encode_chars. Qed.

Lemma hex_field b bs : name_char b = true -> field_chars (b :: hex_encode bs).
Proof. intros. constructor; [done|apply hex_encode_chars]. Qed.

Lemma common_parts_chars c : CommonFields_wf c -> Forall field_chars (common_parts c).
Proof.
  intros (Hj & Hg & Ha & Hm). unfold common_parts.
  apply Forall_cons_2; [apply hex_encode_chars|].
  apply Forall_cons_2; [by apply (fmt_hex_field 8); [lia| |]|].
  do 2 (apply Forall_cons_2; [by apply (fmt_hex_field 4); [lia| |]|]).
  apply Forall_nil_2.
Qed.

(** What the common prologue of the parsers accepts. *)
Lemma parse_fields_ok ext count s c rest :
  Forall ascii_char ext -> (4 <= count)%nat ->
  parse_fields ext count s = Ok (c, rest) <->
  CommonFields_wf c /\ length rest = (count - 4)%nat /\ Forall field_chars rest /\
  s = join_dot (common_parts c ++ rest) ++ ext.
Proof.
  intros Hext Hcount. unfold parse_fields. rewrite rbind_ok_iff.
  setoid_rewrite rbind_ok_iff. setoid_rewrite ok_or_ok_iff. setoid_rewrite strip_suffix_Some.
  split.
  - intros ([] & Ha & f & -> & H). apply assert_ascii_ok, Forall_app in Ha as [Ha _].
    destruct (negb _) eqn:E; [done|]. breflect.
    apply parse_common_strict_ok in H as [Hc Hs].
    pose proof (split_dot_chars f Ha) as Hchars. rewrite Hs, Forall_app in Hchars.
    rewrite Hs, length_app in E. simpl in E.
    split_and!; [apply Hc..|lia|apply Hchars|]. by rewrite <- Hs, join_split_dot.
  - intros (Hc & Hl & Hr & ->).
    assert (Hch : Forall field_chars (common_parts c ++ rest))
      by (apply Forall_app; split; [by apply common_parts_chars|done]).
    exists tt. split; [apply assert_ascii_ok, Forall_app; split; [by apply join_dot_ascii|done]|].
    exists (join_dot (common_parts c ++ rest)). split; [done|].
    rewrite split_join_dot by done.
    replace (_ =? _)%nat with true by (symmetry; apply Nat.eqb_eq; rewrite length_app; simpl; lia).
    cbn [negb]. by apply parse_common_strict_ok.
Qed.

(** ** Each parser accepts exactly the canonical filenames of its kind *)

Ltac fields := repeat (apply Forall_cons_2;
  [first [ by apply (fmt_hex_field 8); [lia| |] | by apply (fmt_hex_field 2); [lia| |]
         | by apply hex_field ]|]); apply Forall_nil_2.

Lemma ext_ascii_sqj : Forall ascii_char (lit ".sqj").
Proof. apply assert_ascii_ok. reflexivity. Qed.
Lemma ext_ascii_rct : Forall ascii_char (lit ".rct").
Proof. apply assert_ascii_ok. reflexivity. Qed.

Ltac parts_eq :=
  rewrite join_dot_app, base_name_parts, ?push_hex_app by done; cbn [join_dot];
  repeat first [ rewrite <- !app_assoc | progress cbn [app] ]; reflexivity.

Lemma ready_filename_parts c tag :
  ready_filename c tag = join_dot (common_parts c ++ ["k"%byte :: hex_encode tag]) ++ lit ".sqj".
Proof. unfold ready_filename, tagged_filename. parts_eq. Qed.
Lemma delayed_filename_parts c nb tag :
  delayed_filename c nb tag
  = join_dot (common_parts c ++ ["d"%byte :: fmt_hex 16 nb; "k"%byte :: hex_encode tag])
    ++ lit ".sqj".
Proof. unfold delayed_filename, tagged_filename. parts_eq. Qed.
Lemma dead_filename_parts c reason tag :
  dead_filename c reason tag
  = join_dot (common_parts c ++ ["x"%byte :: fmt_hex 4 reason; "k"%byte :: hex_encode tag])
    ++ lit ".sqj".
Proof. unfold dead_filename, tagged_filename. parts_eq. Qed.
Lemma receipt_filename_parts c token tag :
  receipt_filename c token tag
  = join_dot (common_parts c ++ ["t"%byte :: hex_encode token; "k"%byte :: hex_encode tag])
    ++ lit ".rct".
Proof. unfold receipt_filename, tagged_filename. parts_eq. Qed.
Lemma leased_filename_parts c boot bdl wdl token tag :
  leased_filename c boot bdl wdl token tag
  = join_dot (common_parts c ++
      ["o"%byte :: hex_encode boot; "b"%byte :: fmt_hex 16 bdl; "w"%byte :: fmt_hex 16 wdl;
       "t"%byte :: hex_encode token; "k"%byte :: hex_encode tag]) ++ lit ".sqj".
Proof. unfold leased_filename, tagged_filename. parts_eq. Qed.

Ltac name_cbn :=
  cbn [rn_common rn_tag dn_common dn_not_before_ns dn_tag xn_common xn_reason xn_tag
       tn_common tn_token tn_tag ln_common ln_boot_id ln_boottime_deadline_ns
       ln_wall_deadline_ns ln_token ln_tag].

(** Invert a successful field-by-field parse, and run one on canonical fields. *)
Ltac inv_fields H :=
  repeat
    (let v := fresh "v" in let Hv := fresh "Hv" in
     rewrite rbind_ok_iff in H; destruct H as (v & Hv & H);
     first [ apply parse_tagged_hex_u64_ok in Hv as [-> Hv]
           | apply parse_tagged_hex_u16_ok in Hv as [-> Hv]
           | apply parse_tagged_hex_16_ok in Hv as [-> Hv]
           | apply parse_tag_ok in Hv as [-> Hv] ]);
  injection H; clear H; intros; subst.
Ltac run_fields :=
  repeat first
    [ erewrite (proj2 (parse_tagged_hex_u64_ok _ _ _)) by (split; [reflexivity|eassumption])
    | erewrite (proj2 (parse_tagged_hex_u16_ok _ _ _)) by (split; [reflexivity|eassumption])
    | erewrite (proj2 (parse_tagged_hex_16_ok _ _ _)) by (split; [reflexivity|eassumption])
    | erewrite (proj2 (parse_tag_ok _ _)) by (split; [reflexivity|eassumption])
    | progress cbn [rbind] ];
  reflexivity.
Ltac parser_iff ext_ok :=
  rewrite rbind_ok_iff; split;
  [ let c := fresh "c" in let rest := fresh "rest" in
    let Hf := fresh "Hf" in let H := fresh "H" in
    intros ([c rest] & Hf & H);
    apply parse_fields_ok in Hf as (? & ? & _ & ->); [|exact ext_ok|lia];
    repeat (destruct rest as [|? rest]; try done);
    inv_fields H; done
  | let Hwf := fresh "Hwf" in
    intros [Hwf ->]; split_hyps; eexists (_, _); split;
    [ apply parse_fields_ok; [exact ext_ok|lia|];
      split; [eassumption|]; split; [|split; [|reflexivity]]; [reflexivity|fields]
    | run_fields ] ].

Lemma parse_ready_iff s n :
  parse_ready s = Ok n <-> ReadyName_wf n /\ s = ready_filename (rn_common n) (rn_tag n).
Proof.
  unfold parse_ready, ReadyName_wf. rewrite ready_filename_parts. destruct n. name_cbn.
  parser_iff ext_ascii_sqj.
Qed.

Lemma parse_delayed_iff s n :
  parse_delayed s = Ok n <->
  DelayedName_wf n /\ s = delayed_filename (dn_common n) (dn_not_before_ns n) (dn_tag n).
Proof.
  unfold parse_delayed, DelayedName_wf. rewrite delayed_filename_parts. destruct n. name_cbn.
  parser_iff ext_ascii_sqj.
Qed.

Lemma parse_dead_iff s n :
  parse_dead s = Ok n <->
  DeadName_wf n /\ s = dead_filename (xn_common n) (xn_reason n) (xn_tag n).
Proof.
  unfold parse_dead, DeadName_wf. rewrite dead_filename_parts. destruct n. name_cbn.
  parser_iff ext_ascii_sqj.
Qed.

Lemma parse_receipt_iff s n :
  parse_receipt s = Ok n <->
  ReceiptName_wf n /\ s = receipt_filename (tn_common n) (tn_token n) (tn_tag n).
Proof.
  unfold parse_receipt, ReceiptName_wf. rewrite receipt_filename_parts. destruct n. name_cbn.
  parser_iff ext_ascii_rct.
Qed.

Lemma parse_leased_iff s n :
  parse_leased s = Ok n <->
  LeasedName_wf n /\
  s = leased_filename (ln_common n) (ln_boot_id n) (ln_boottime_deadline_ns n)
        (ln_wall_deadline_ns n) (ln_token n) (ln_tag n).
Proof.
  unfold parse_leased, LeasedName_wf. rewrite leased_filename_parts. destruct n. name_cbn.
  parser_iff ext_ascii_sqj.
Qed.

(** ** No filename has two readings *)

(** The kinds of job name under which a filename parses. *)
Definition name_kinds (s : bytes) : list State :=
  (if is_ok (parse_ready s) then [Ready] else []) ++
  (if is_ok (parse_leased s) then [Leased] else []) ++
  (if is_ok (parse_delayed s) then [Delayed] else []) ++
  (if is_ok (parse_receipt s) then [Receipt] else []) ++
  (if is_ok (parse_dead s) then [Dead] else []).

Lemma parse_fields_shape ext count s c rest :
  parse_fields ext count s = Ok (c, rest) ->
  exists t, s = t ++ ext /\ split_dot t = common_parts c ++ rest /\
            length (split_dot t) = count.
Proof.
  unfold parse_fields. intros H. rsteps H. apply ok_or_ok_iff, strip_suffix_Some in E0 as ->.
  breflect. apply parse_common_strict_ok in H as [_ H]. eauto.
Qed.

Lemma app_inj_suffix (t1 t2 e1 e2 : bytes) :
  length e1 = length e2 -> t1 ++ e1 = t2 ++ e2 -> t1 = t2 /\ e1 = e2.
Proof. intros. by apply app_inj_2. Qed.

Lemma parse_fields_det ext1 ext2 n1 n2 s c1 c2 r1 r2 :
  length ext1 = length ext2 ->
  parse_fields ext1 n1 s = Ok (c1, r1) -> parse_fields ext2 n2 s = Ok (c2, r2) ->
  ext1 = ext2 /\ n1 = n2 /\ r1 = r2.
Proof.
  intros Hl (t1 & -> & Hs1 & Hn1)%parse_fields_shape (t2 & Ht & Hs2 & Hn2)%parse_fields_shape.
  apply app_inj_suffix in Ht as [-> ->]; [|done]. rewrite Hs1 in Hs2.
  apply app_inj_1 in Hs2 as [_ ->]; [|done]. by split_and!; [|congruence|].
Qed.

(** What each successful parse says about the fields after the common ones. *)
Definition name_shape (s : bytes) (k : State) (ext : bytes) (count : nat) (first : byte) : Prop :=
  exists c p r, parse_fields ext count s = Ok (c, (first :: p) :: r).

Lemma name_kinds_shape s k :
  In k (name_kinds s) ->
  match k with
  | Ready => name_shape s k (lit ".sqj") 5 "k"%byte
  | Leased => name_shape s k (lit ".sqj") 9 "o"%byte
  | Delayed => name_shape s k (lit ".sqj") 6 "d"%byte
  | Receipt => name_shape s k (lit ".rct") 6 "t"%byte
  | Dead => name_shape s k (lit ".sqj") 6 "x"%byte
  | Quarantine => False
  end.
Proof.
  assert (Hinv : forall {T} (parse : bytes -> result T ParseError) k',
    In k (if is_ok (parse s) then [k'] else []) -> k = k' /\ exists n, parse s = Ok n).
  { intros T parse k' Hin. destruct (parse s) eqn:E; cbn in Hin; naive_solver. }
  unfold name_kinds. rewrite !in_app_iff.
  intros [H|[H|[H|[H|H]]]];
    [apply (Hinv _ parse_ready) in H|apply (Hinv _ parse_leased) in H
    |apply (Hinv _ parse_delayed) in H|apply (Hinv _ parse_receipt) in H
    |apply (Hinv _ parse_dead) in H];
    destruct H as [-> [n Hn]]; unfold name_shape;
    [apply parse_ready_iff in Hn as [Hwf ->]; rewrite ready_filename_parts
    |apply parse_leased_iff in Hn as [Hwf ->]; rewrite leased_filename_parts
    |apply parse_delayed_iff in Hn as [Hwf ->]; rewrite delayed_filename_parts
    |apply parse_receipt_iff in Hn as [Hwf ->]; rewrite receipt_filename_parts
    |apply parse_dead_iff in Hn as [Hwf ->]; rewrite dead_filename_parts];
    unfold ReadyName_wf, LeasedName_wf, DelayedName_wf, ReceiptName_wf, DeadName_wf in Hwf;
    split_hyps; eexists _, _, _; apply parse_fields_ok;
    try first [exact ext_ascii_sqj|exact ext_ascii_rct|lia];
    (split; [eassumption|]; split; [|split; [|reflexivity]]; [reflexivity|fields]).
Qed.

(** No filename parses under two kinds of job name. *)
Theorem name_kinds_unique s k1 k2 :
  In k1 (name_kinds s) -> In k2 (name_kinds s) -> k1 = k2.
Proof.
  intros H1%name_kinds_shape H2%name_kinds_shape.
  destruct k1, k2; try done; destruct H1 as (c1 & p1 & r1 & H1), H2 as (c2 & p2 & r2 & H2);
    pose proof (fun He => parse_fields_det _ _ _ _ _ _ _ _ _ He H1 H2) as HD;
    destruct (HD eq_refl) as (? & ? & ?);
    first [ reflexivity | discriminate | congruence ].
Qed.

(** ** Boot ids: lemmas *)

Lemma nibble_merge b :
  z2b (Z.lor (b2z (z2b (Z.shiftl (Z.shiftr (b2z b) 4) 4))) (Z.land (b2z b) 15)) = b.
Proof. destruct b; reflexivity. Qed.

Lemma nibble_merge_hex h l :
  (0 <= h < 16)%Z -> (0 <= l < 16)%Z ->
  hex_byte (z2b (Z.lor (b2z (z2b (Z.shiftl h 4))) l)) = [hex_digit h; hex_digit l].
Proof.
  intros Hh Hl. revert l Hl h Hh. refine (nibble_ind _ _).
  repeat (apply Forall_cons_2; [apply nibble_ind; nibbles|]). apply Forall_nil_2.
Qed.

Lemma even_nibble k :
  ((2 * k) mod 2 = 0 /\ (2 * k) / 2 = k /\ S (2 * k) mod 2 = 1 /\ S (2 * k) / 2 = k)%nat.
Proof.
  replace (2 * k)%nat with (0 + k * 2)%nat by lia. rewrite <- (Nat.add_1_l (0 + k * 2)).
  rewrite Nat.add_assoc, !Nat.Div0.mod_add, !Nat.div_add by lia. done.
Qed.

(** Two consecutive digits at an even nibble index fill one output byte. *)
Lemma boot_id_loop_pair x y s i k d r :
  (k < length d)%nat -> is_dash_index i = false -> is_dash_index (S i) = false ->
  boot_id_loop (x :: y :: s) i (2 * k) d = Some r <->
  exists b, [x; y] = hex_byte b /\ boot_id_loop s (S (S i)) (2 * S k) (<[k := b]> d) = Some r.
Proof.
  intros Hk Hi Hi'. cbn [boot_id_loop]. rewrite Hi, Hi'.
  destruct (even_nibble k) as (-> & -> & -> & ->).
  cbn [Nat.eqb]. replace (S (S (2 * k))) with (2 * S k)%nat by lia.
  rewrite bind_Some. setoid_rewrite bind_Some. setoid_rewrite list_insert_insert_eq.
  setoid_rewrite list_lookup_total_insert_eq; [|done]. split.
  - intros (h & [-> Hh]%from_hex_digit_inv & l & [-> Hl]%from_hex_digit_inv & H).
    eexists. split; [|exact H]. by rewrite nibble_merge_hex.
  - intros (b & [= -> ->] & H). destruct (b2z_nibbles b).
    eexists. split; [by apply from_hex_digit_hex_digit|].
    eexists. split; [by apply from_hex_digit_hex_digit|]. by rewrite nibble_merge.
Qed.

(** A dash-free run of [2 * n] digits fills [n] output bytes. *)
Lemma boot_id_loop_group n g s i k d r :
  length g = (2 * n)%nat -> (k + n <= length d)%nat ->
  (forall j, (i <= j < i + 2 * n)%nat -> is_dash_index j = false) ->
  boot_id_loop (g ++ s) i (2 * k) d = Some r <->
  exists bs, g = hex_encode bs /\ length bs = n /\
    boot_id_loop s (i + 2 * n) (2 * (k + n)) (write_at k bs d) = Some r.
Proof.
  revert g i k d. induction n as [|n IH]; intros g i k d Hg Hk Hd.
  - destruct g; [|done]. rewrite !Nat.add_0_r. unfold write_at. cbn [app]. split.
    + intros H. exists []. split_and!; try done. cbn [length app]. by rewrite Nat.add_0_r, take_drop.
    + intros ([|??] & _ & Hl & H); [|done]. cbn [length app] in H. by rewrite Nat.add_0_r, take_drop in H.
  - destruct g as [|x [|y g]]; [simpl in Hg; lia..|]. cbn [app].
    rewrite boot_id_loop_pair by (first [lia | apply Hd; lia]).
    assert (Hw : forall b bs, write_at (S k) bs (<[k := b]> d) = write_at k (b :: bs) d).
    { intros b bs. unfold write_at. cbn [length app].
      rewrite (take_S_r _ k b) by (apply list_lookup_insert_eq; lia).
      rewrite take_insert_ge, drop_insert_lt by lia. rewrite <- app_assoc. simpl.
      by rewrite <- Nat.add_succ_comm. }
    assert (Hstep : forall b, boot_id_loop (g ++ s) (S (S i)) (2 * S k) (<[k := b]> d) = Some r <->
      exists bs, g = hex_encode bs /\ length bs = n /\
        boot_id_loop s (i + 2 * S n) (2 * (k + S n)) (write_at k (b :: bs) d) = Some r).
    { intros b. rewrite IH; [|simpl in Hg; lia|rewrite length_insert; lia|intros; apply Hd; lia].
      setoid_rewrite Hw. by replace (S (S i) + 2 * n)%nat with (i + 2 * S n)%nat by lia;
        replace (2 * (S k + n))%nat with (2 * (k + S n))%nat by lia. }
    setoid_rewrite Hstep. split.
    + intros (b & Hb & bs & -> & <- & H). exists (b :: bs). split_and!; try done.
      by rewrite hex_encode_cons, <- Hb.
    + intros ([|b bs] & Heq & Hl & H); [done|]. rewrite hex_encode_cons in Heq.
      injection Heq as -> -> ->. exists b. split; [done|]. exists bs. naive_solver.
Qed.

Lemma boot_id_loop_dash s i ni d r :
  is_dash_index i = true ->
  boot_id_loop ([dash] ++ s) i ni d = Some r <-> boot_id_loop s (S i) ni d = Some r.
Proof. intros Hi. cbn [boot_id_loop app]. by rewrite Hi. Qed.

Lemma no_dash_between i n :
  forallb (fun j => negb (is_dash_index j)) (seq i n) = true ->
  forall j, (i <= j < i + n)%nat -> is_dash_index j = false.
Proof. intros Hf j Hj. rewrite forallb_forall in Hf. apply negb_true_iff, Hf, in_seq. lia. Qed.

Ltac group := first [ done | len | by apply no_dash_between ].

Lemma boot_id_loop_groups g1 g2 g3 g4 g5 b :
  length g1 = 8%nat -> length g2 = 4%nat -> length g3 = 4%nat -> length g4 = 4%nat ->
  length g5 = 12%nat ->
  boot_id_loop (g1 ++ [dash] ++ g2 ++ [dash] ++ g3 ++ [dash] ++ g4 ++ [dash] ++ g5) 0 0 (zeros 16)
    = Some b ->
  length b = 16%nat /\
  g1 ++ [dash] ++ g2 ++ [dash] ++ g3 ++ [dash] ++ g4 ++ [dash] ++ g5 = format_boot_id b.
Proof.
  intros H1 H2 H3 H4 H5. rewrite <- (app_nil_r g5).
  change (boot_id_loop ?x 0 0 (zeros 16)) with (boot_id_loop x 0 (2 * 0) ([] ++ zeros 16)).
  rewrite (boot_id_loop_group 4) by group.
  intros (b1 & -> & Hl1 & H). rewrite (write_next _ _ _ _ 12) in H by len.
  rewrite boot_id_loop_dash, (boot_id_loop_group 2) in H by group.
  destruct H as (b2 & -> & Hl2 & H). rewrite (write_next _ _ _ _ 10) in H by len.
  rewrite boot_id_loop_dash, (boot_id_loop_group 2) in H by group.
  destruct H as (b3 & -> & Hl3 & H). rewrite (write_next _ _ _ _ 8) in H by len.
  rewrite boot_id_loop_dash, (boot_id_loop_group 2) in H by group.
  destruct H as (b4 & -> & Hl4 & H). rewrite (write_next _ _ _ _ 6) in H by len.
  rewrite boot_id_loop_dash, (boot_id_loop_group 6) in H by group.
  destruct H as (b5 & -> & Hl5 & H). rewrite (write_next _ _ _ _ 0) in H by len.
  injection H as <-. cbn [zeros replicate]. rewrite !app_nil_r. cbn [app]. split; [len|].
  unfold format_boot_id. rewrite <- !app_assoc. slices. done.
Qed.

Lemma format_boot_id_hex b :
  format_boot_id b
  = hex_encode (slice 0 4 b) ++ [dash] ++ hex_encode (slice 4 6 b) ++ [dash]
    ++ hex_encode (slice 6 8 b) ++ [dash] ++ hex_encode (slice 8 10 b) ++ [dash]
    ++ hex_encode (slice 10 16 b).
Proof. reflexivity. Qed.

Lemma boot_id_loop_format b :
  length b = 16%nat -> boot_id_loop (format_boot_id b) 0 0 (zeros 16) = Some b.
Proof.
  intros Hb. rewrite format_boot_id_hex, <- (app_nil_r (hex_encode (slice 10 16 b))).
  change (boot_id_loop ?x 0 0 (zeros 16)) with (boot_id_loop x 0 (2 * 0) ([] ++ zeros 16)).
  apply (boot_id_loop_group 4); [group..|]. exists (slice 0 4 b). split; [done|]. split; [len|].
  rewrite (write_next _ _ _ _ 12) by len. apply boot_id_loop_dash; [done|].
  apply (boot_id_loop_group 2); [group..|]. exists (slice 4 6 b). split; [done|]. split; [len|].
  rewrite (write_next _ _ _ _ 10) by len. apply boot_id_loop_dash; [done|].
  apply (boot_id_loop_group 2); [group..|]. exists (slice 6 8 b). split; [done|]. split; [len|].
  rewrite (write_next _ _ _ _ 8) by len. apply boot_id_loop_dash; [done|].
  apply (boot_id_loop_group 2); [group..|]. exists (slice 8 10 b). split; [done|]. split; [len|].
  rewrite (write_next _ _ _ _ 6) by len. apply boot_id_loop_dash; [done|].
  apply (boot_id_loop_group 6); [group..|]. exists (slice 10 16 b). split; [done|]. split; [len|].
  rewrite (write_next _ _ _ _ 0) by len. cbn [boot_id_loop zeros replicate].
  rewrite app_nil_r. cbn [app]. rewrite !slice_cat, slice_all by lia. done.
Qed.

Lemma length_format_boot_id b : length b = 16%nat -> length (format_boot_id b) = 36%nat.
Proof.
  intros. rewrite format_boot_id_hex. len.
Qed.

Lemma boot_id_bytes_iff s b :
  boot_id_bytes s = Some b <-> length b = 16%nat /\ s = format_boot_id b.
Proof.
  unfold boot_id_bytes. split.
  - destruct (length s =? 36)%nat eqn:Hl; [|done]. destruct (forallb _ _) eqn:Hd; [|done].
    cbn [negb]. cbn [forallb] in Hd. breflect.
    assert (Hs : s = take 8 s ++ [dash] ++ slice 9 13 s ++ [dash] ++ slice 14 18 s ++ [dash]
                     ++ slice 19 23 s ++ [dash] ++ slice 24 36 s).
    { do 36 (destruct s as [|? s]; [discriminate|]). destruct s; [|discriminate].
      unfold slice. simpl in *. congruence. }
    intros Hloop. rewrite Hs in Hloop. apply boot_id_loop_groups in Hloop; [|len..].
    by rewrite <- Hs in Hloop.
  - intros [Hb ->]. rewrite length_format_boot_id by done. cbn [Nat.eqb negb].
    replace (forallb _ _) with true; [by apply boot_id_loop_format|].
    symmetry. do 16 (destruct b as [|? b]; [discriminate|]). destruct b; [|discriminate].
    reflexivity.
Qed.

(** ** Written names parse back and authenticate *)

Section Written.
Context `{Sha256Spec}.

Lemma length_name_tag q parts : length (compute_name_tag_parts q parts) = 8%nat.
Proof. unfold compute_name_tag_parts. apply length_slice. rewrite sha256_length. lia. Qed.

Lemma make_ready_ok q shard c :
  CommonFields_wf c ->
  exists n, parse_ready (make_ready_name q shard c) = Ok n /\
    rn_common n = c /\ ReadyName_authenticate_tag n q shard = true.
Proof.
  intros Hc. eexists (mkReadyName c _).
  split; [apply parse_ready_iff; split; [split; [done|apply length_name_tag]|reflexivity]|].
  split; [done|]. by apply bool_decide_eq_true_2.
Qed.

Lemma make_delayed_ok q bucket shard c not_before :
  CommonFields_wf c -> is_u64 not_before ->
  exists n, parse_delayed (make_delayed_name q bucket shard c not_before) = Ok n /\
    dn_common n = c /\ dn_not_before_ns n = not_before /\
    DelayedName_authenticate_tag n q bucket shard = true.
Proof.
  intros Hc Hnb. eexists (mkDelayedName c not_before _).
  split; [apply parse_delayed_iff; split; [split; [done|split; [done|apply length_name_tag]]|reflexivity]|].
  split_and!; [done..|]. by apply bool_decide_eq_true_2.
Qed.

Lemma make_dead_ok q bucket shard c reason :
  CommonFields_wf c -> is_u16 reason ->
  exists n, parse_dead (make_dead_name q bucket shard c reason) = Ok n /\
    xn_common n = c /\ xn_reason n = reason /\ DeadName_authenticate_tag n q bucket shard = true.
Proof.
  intros Hc Hr. eexists (mkDeadName c reason _).
  split; [apply parse_dead_iff; split; [split; [done|split; [done|apply length_name_tag]]|reflexivity]|].
  split_and!; [done..|]. by apply bool_decide_eq_true_2.
Qed.

Lemma make_receipt_ok q bucket shard c token :
  CommonFields_wf c -> length token = 16%nat ->
  exists n, parse_receipt (make_receipt_name q bucket shard c token) = Ok n /\
    tn_common n = c /\ tn_token n = token /\ ReceiptName_authenticate_tag n q bucket shard = true.
Proof.
  intros Hc Ht. eexists (mkReceiptName c token _).
  split; [apply parse_receipt_iff; split; [split; [done|split; [done|apply length_name_tag]]|reflexivity]|].
  split_and!; [done..|]. by apply bool_decide_eq_true_2.
Qed.

Lemma make_leased_ok q boot boot_bytes bucket shard c boottime_deadline wall_deadline token :
  CommonFields_wf c -> is_u64 boottime_deadline -> is_u64 wall_deadline -> length token = 16%nat ->
  boot_id_bytes boot = Some boot_bytes ->
  exists s n, make_leased_name q boot bucket shard c boottime_deadline wall_deadline token = Some s /\
    parse_leased s = Ok n /\ ln_common n = c /\ ln_boot_id n = boot_bytes /\
    ln_boottime_deadline_ns n = boottime_deadline /\ ln_wall_deadline_ns n = wall_deadline /\
    ln_token n = token /\ LeasedName_authenticate_tag n q boot bucket shard = true.
Proof.
  intros Hc Hb Hw Ht Hboot.
  assert (Hbl : length boot_bytes = 16%nat) by (apply boot_id_bytes_iff in Hboot; tauto).
  unfold make_leased_name. rewrite Hboot. cbn [mbind option_bind].
  eexists _, (mkLeasedName c boot_bytes boottime_deadline wall_deadline token _).
  split; [reflexivity|]. split; [apply parse_leased_iff; split; [|reflexivity]|].
  - repeat (split; [done|]). apply length_name_tag.
  - split_and!; [done..|]. by apply bool_decide_eq_true_2.
Qed.

(** C34: every name a high-level builder writes parses back to the fields it
    was built from, and its tag authenticates in the directory it was built for. *)
Theorem make_names_authenticate q shard bucket boot boot_bytes c not_before reason
    boottime_deadline wall_deadline token :
  CommonFields_wf c -> is_u64 not_before -> is_u16 reason ->
  is_u64 boottime_deadline -> is_u64 wall_deadline -> length token = 16%nat ->
  boot_id_bytes boot = Some boot_bytes ->
  (exists n, parse_ready (make_ready_name q shard c) = Ok n /\
     rn_common n = c /\ ReadyName_authenticate_tag n q shard = true) /\
  (exists n, parse_delayed (make_delayed_name q bucket shard c not_before) = Ok n /\
     dn_common n = c /\ dn_not_before_ns n = not_before /\
     DelayedName_authenticate_tag n q bucket shard = true) /\
  (exists n, parse_dead (make_dead_name q bucket shard c reason) = Ok n /\
     xn_common n = c /\ xn_reason n = reason /\
     DeadName_authenticate_tag n q bucket shard = true) /\
  (exists n, parse_receipt (make_receipt_name q bucket shard c token) = Ok n /\
     tn_common n = c /\ tn_token n = token /\
     ReceiptName_authenticate_tag n q bucket shard = true) /\
  (exists s n, make_leased_name q boot bucket shard c boottime_deadline wall_deadline token = Some s /\
     parse_leased s = Ok n /\ ln_common n = c /\ ln_boot_id n = boot_bytes /\
     ln_boottime_deadline_ns n = boottime_deadline /\ ln_wall_deadline_ns n = wall_deadline /\
     ln_token n = token /\ LeasedName_authenticate_tag n q boot bucket shard = true).
Proof.
  intros. split_and!; [by apply make_ready_ok|by apply make_delayed_ok|by apply make_dead_ok
                      |by apply make_receipt_ok|by apply make_leased_ok].
Qed.

End Written.

(** ** Name lengths *)

Lemma length_fmt_hex n v :
  (1 <= n <= 8)%nat -> (0 <= v < 256 ^ Z.of_nat n)%Z -> length (fmt_hex (2 * n) v) = (2 * n)%nat.
Proof. intros. rewrite fmt_hex_to_be by done. len. Qed.

Lemma length_lit (s : string) : length (lit s) = String.length s.
Proof.
  unfold lit, String.list_byte_of_string. rewrite length_map.
  induction s as [|a s IH]; simpl; congruence.
Qed.

Lemma length_base_name c : CommonFields_wf c -> length (base_name c) = 70%nat.
Proof.
  intros (Hj & Hg & Ha & Hm). unfold base_name. rewrite push_hex_app.
  pose proof (length_fmt_hex 8 _ ltac:(lia) Hg). pose proof (length_fmt_hex 4 _ ltac:(lia) Ha).
  pose proof (length_fmt_hex 4 _ ltac:(lia) Hm). rewrite !length_app, !length_lit, length_hex_encode.
  cbn [length String.length Nat.mul Nat.add] in *. lia.
Qed.

(** Every job filename has the fixed length of its kind, at most 196 bytes. *)
Lemma name_lengths c not_before reason boot bdl wdl token tag :
  CommonFields_wf c -> is_u64 not_before -> is_u16 reason -> length boot = 16%nat ->
  is_u64 bdl -> is_u64 wdl -> length token = 16%nat -> length tag = 8%nat ->
  length (ready_filename c tag) = 92%nat /\
  length (delayed_filename c not_before tag) = 110%nat /\
  length (dead_filename c reason tag) = 98%nat /\
  length (receipt_filename c token tag) = 126%nat /\
  length (leased_filename c boot bdl wdl token tag) = 196%nat.
Proof.
  intros Hc Hnb Hr Hb Hbdl Hwdl Ht Htag. pose proof (length_base_name c Hc).
  pose proof (length_fmt_hex 8 _ ltac:(lia) Hnb). pose proof (length_fmt_hex 2 _ ltac:(lia) Hr).
  pose proof (length_fmt_hex 8 _ ltac:(lia) Hbdl). pose proof (length_fmt_hex 8 _ ltac:(lia) Hwdl).
  unfold ready_filename, delayed_filename, dead_filename, receipt_filename, leased_filename,
    tagged_filename. rewrite !push_hex_app, !length_app, !length_lit, !length_hex_encode.
  cbn [String.length Nat.mul Nat.add] in *. lia.
Qed.

(** ** Shards *)

Lemma count_trailing_zeros_pow2 n k :
  (0 <= k < Z.of_nat n)%Z -> count_trailing_zeros n (2 ^ k) = k.
Proof.
  revert k. induction n as [|n IH]; intros k Hk; [lia|]. cbn [count_trailing_zeros].
  destruct (decide (k = 0)%Z) as [->|]; [done|].
  replace (2 ^ k)%Z with (2 * 2 ^ (k - 1))%Z by (rewrite <- Z.pow_succ_r by lia; f_equal; lia).
  rewrite Z.odd_mul. cbn [Z.odd andb].
  rewrite Z.mul_comm, Z.div_mul by lia. rewrite IH by lia. lia.
Qed.

Lemma compute_shard_range `{Sha256} q j k :
  (0 <= k < 32)%Z -> (0 <= compute_shard q j (2 ^ k) < 2 ^ k)%Z.
Proof.
  intros Hk. unfold compute_shard, trailing_zeros.
  rewrite count_trailing_zeros_pow2, Z.shiftl_1_l by lia. unfold wrap32.
  assert (2 ^ k < 2 ^ 32)%Z by (apply Z.pow_lt_mono_r; lia).
  rewrite Z.mod_small by lia. rewrite Z.sub_1_r, <- Z.ones_equiv, Z.land_ones by lia.
  apply Z.mod_pos_bound. lia.
Qed.

(** The mask of a power-of-two shard count is reduction modulo it. *)
Lemma land_mask x k : (0 <= k)%Z -> Z.land x (2 ^ k - 1) = (x mod 2 ^ k)%Z.
Proof. intros. by rewrite Z.sub_1_r, <- Z.ones_equiv, Z.land_ones. Qed.

Lemma wrap32_mod_pow2 x k : (0 <= k <= 32)%Z -> (wrap32 x mod 2 ^ k = x mod 2 ^ k)%Z.
Proof.
  intros. unfold wrap32. replace (2 ^ 32)%Z with (2 ^ k * 2 ^ (32 - k))%Z
    by (rewrite <- Z.pow_add_r by lia; f_equal; lia).
  pose proof (Z.pow_pos_nonneg 2 k). pose proof (Z.pow_pos_nonneg 2 (32 - k)).
  rewrite Z.rem_mul_r by lia. rewrite (Z.mul_comm (2 ^ k)), Z_mod_plus_full.
  by rewrite Z.mod_mod by lia.
Qed.

Lemma shard_at_mod start stride i k :
  (0 <= k < 32)%Z -> shard_at start stride i (2 ^ k) = ((start + stride * i) mod 2 ^ k)%Z.
Proof.
  intros. unfold shard_at. rewrite land_mask, wrap32_mod_pow2 by lia.
  rewrite Z.add_mod, wrap32_mod_pow2, <- Z.add_mod by lia. done.
Qed.

Lemma odd_coprime_pow2 s k : (0 <= k)%Z -> Z.odd s = true -> Z.gcd (2 ^ k) s = 1%Z.
Proof.
  intros Hk [q ->]%Z.odd_spec. apply Z.coprime_pow_l; [done|]. unfold Z.coprime.
  rewrite Z.add_comm, Z.mul_comm, Z.gcd_add_mult_diag_r. done.
Qed.

Lemma shard_at_inj start stride k i j :
  (0 <= k < 32)%Z -> Z.odd stride = true ->
  (0 <= i < 2 ^ k)%Z -> (0 <= j < 2 ^ k)%Z ->
  shard_at start stride i (2 ^ k) = shard_at start stride j (2 ^ k) -> i = j.
Proof.
  intros Hk Hs Hi Hj. rewrite !shard_at_mod by done. intros Heq.
  assert (Hdiv : (2 ^ k | stride * (i - j))%Z).
  { apply Z.mod_divide; [lia|]. replace (stride * (i - j))%Z
      with (start + stride * i - (start + stride * j))%Z by ring.
    rewrite Zminus_mod, Heq, Z.sub_diag. by apply Z.mod_0_l; lia. }
  apply Z.gauss in Hdiv; [|apply odd_coprime_pow2; [lia|done]].
  destruct Hdiv as [q Hq]. clear Heq Hs. set (m := (2 ^ k)%Z) in *.
  assert (q < 1)%Z by nia. assert (-1 < q)%Z by nia. nia.
Qed.

Lemma shard_scan_params_range `{Sha256} q b w round k :
  (0 <= k < 32)%Z ->
  let '(start, stride) := shard_scan_params q b w round (2 ^ k) in
  (0 <= start < 2 ^ k)%Z /\ Z.odd stride = true /\ (1 <= stride <= 2 ^ k)%Z.
Proof.
  intros Hk. unfold shard_scan_params. rewrite !land_mask by lia.
  set (h1 := from_be _). set (h2 := from_be _).
  assert (Hp : (2 ^ k < 2 ^ 32)%Z) by (apply Z.pow_lt_mono_r; lia).
  pose proof (Z.mod_pos_bound h1 (2 ^ k) ltac:(lia)) as Hb1.
  pose proof (Z.mod_pos_bound (Z.lor h2 1) (2 ^ k) ltac:(lia)) as Hb2.
  unfold wrap32. rewrite (Z.mod_small (h1 mod _)) by lia. split; [done|].
  destruct (decide (k = 0)%Z) as [->|]; [by rewrite Z.mod_1_r|].
  assert (Hodd : Z.odd (Z.lor h2 1 mod 2 ^ k) = true).
  { rewrite <- Z.bit0_odd, Z.mod_pow2_bits_low, Z.lor_spec, orb_true_r by lia. done. }
  destruct (_ =? 0)%Z eqn:E; breflect; [by rewrite E in Hodd|].
  rewrite Z.mod_small by lia. split; [done|lia].
Qed.

(** One round of a worker's shard scan visits every shard exactly once. *)
Theorem shard_scan_visits_each_once `{Sha256} q b w round k :
  (0 <= k < 32)%Z ->
  let '(start, stride) := shard_scan_params q b w round (2 ^ k) in
  map (fun i => shard_at start stride i (2 ^ k)) (seqZ 0 (2 ^ k)) ≡ₚ seqZ 0 (2 ^ k).
Proof.
  intros Hk. pose proof (shard_scan_params_range q b w round k Hk) as Hr.
  destruct (shard_scan_params q b w round (2 ^ k)) as [start stride].
  destruct Hr as (Hst & Hodd & _).
  apply submseteq_length_Permutation; [|by rewrite length_map].
  apply NoDup_submseteq.
  - apply NoDup_fmap_2_strong; [|apply NoDup_seqZ].
    intros i j Hi Hj. rewrite elem_of_seqZ in Hi, Hj. apply shard_at_inj; [done|done|lia..].
  - intros x Hx. apply list_elem_of_fmap in Hx as (i & -> & Hi). rewrite elem_of_seqZ.
    rewrite shard_at_mod by done. apply Z.mod_pos_bound. lia.
Qed.

(** ** Tag contexts determine the placed name *)

(** A name together with the directory it is placed in. *)
Inductive Placed : Type :=
| PlacedReady (shard : bytes) (n : ReadyName)
| PlacedLeased (boot bucket shard : bytes) (n : LeasedName)
| PlacedDelayed (bucket shard : bytes) (n : DelayedName)
| PlacedDead (bucket shard : bytes) (n : DeadName)
| PlacedReceipt (bucket shard : bytes) (n : ReceiptName).

Definition placed_context (p : Placed) : bytes :=
  match p with
  | PlacedReady shard n => ReadyName_canonical_context n shard
  | PlacedLeased boot bucket shard n => LeasedName_canonical_context n boot bucket shard
  | PlacedDelayed bucket shard n => DelayedName_canonical_context n bucket shard
  | PlacedDead bucket shard n => DeadName_canonical_context n bucket shard
  | PlacedReceipt bucket shard n => ReceiptName_canonical_context n bucket shard
  end.

(** Directory components have their canonical widths: a 36-character boot id,
    16 hex digits of bucket, four of shard. *)
Definition placed_wf (p : Placed) : Prop :=
  match p with
  | PlacedReady shard n => length shard = 4%nat /\ ReadyName_wf n
  | PlacedLeased boot bucket shard n =>
      length boot = 36%nat /\ length bucket = 16%nat /\ length shard = 4%nat /\ LeasedName_wf n
  | PlacedDelayed bucket shard n =>
      length bucket = 16%nat /\ length shard = 4%nat /\ DelayedName_wf n
  | PlacedDead bucket shard n =>
      length bucket = 16%nat /\ length shard = 4%nat /\ DeadName_wf n
  | PlacedReceipt bucket shard n =>
      length bucket = 16%nat /\ length shard = 4%nat /\ ReceiptName_wf n
  end.

(** Everything but the tag. *)
Definition placed_untagged (p : Placed) : Placed :=
  match p with
  | PlacedReady shard n => PlacedReady shard (mkReadyName (rn_common n) [])
  | PlacedLeased boot bucket shard n =>
      PlacedLeased boot bucket shard
        (mkLeasedName (ln_common n) (ln_boot_id n) (ln_boottime_deadline_ns n)
           (ln_wall_deadline_ns n) (ln_token n) [])
  | PlacedDelayed bucket shard n =>
      PlacedDelayed bucket shard (mkDelayedName (dn_common n) (dn_not_before_ns n) [])
  | PlacedDead bucket shard n =>
      PlacedDead bucket shard (mkDeadName (xn_common n) (xn_reason n) [])
  | PlacedReceipt bucket shard n =>
      PlacedReceipt bucket shard (mkReceiptName (tn_common n) (tn_token n) [])
  end.

Lemma hex_encode_inj x y : hex_encode x = hex_encode y -> x = y.
Proof. intros H. apply (f_equal hex_decode_chunks) in H. rewrite !hex_decode_chunks_encode in H. congruence. Qed.

Lemma fmt_hex_inj n x y :
  (1 <= n <= 8)%nat -> (0 <= x < 256 ^ Z.of_nat n)%Z -> (0 <= y < 256 ^ Z.of_nat n)%Z ->
  fmt_hex (2 * n) x = fmt_hex (2 * n) y -> x = y.
Proof.
  intros Hn Hx Hy. rewrite !fmt_hex_to_be by done. intros H%hex_encode_inj.
  apply (f_equal from_be) in H. by rewrite !from_be_to_be in H by done.
Qed.

Lemma base_name_inj c c' x x' :
  CommonFields_wf c -> CommonFields_wf c' ->
  base_name c ++ x = base_name c' ++ x' -> c = c' /\ x = x'.
Proof.
  intros Hc Hc' H. apply app_inj_1 in H as [H ->]; [|by rewrite !length_base_name].
  split; [|done]. rewrite !base_name_parts in H. apply (f_equal split_dot) in H.
  rewrite !split_join_dot in H by (first [done | by apply common_parts_chars]).
  unfold common_parts in H. injection H as Hj Hg Ha Hm.
  destruct c as [j g a m], c' as [j' g' a' m'], Hc as (?&?&?&?), Hc' as (?&?&?&?); cbn in *.
  apply hex_encode_inj in Hj. apply (fmt_hex_inj 8) in Hg; [|lia|done..].
  apply (fmt_hex_inj 4) in Ha; [|lia|done..]. apply (fmt_hex_inj 4) in Hm; [|lia|done..].
  congruence.
Qed.

Lemma lit_app_inj s x y : lit s ++ x = lit s ++ y -> x = y.
Proof. apply app_inv_head. Qed.

(** Cancel equal-length prefixes of a context equation. *)
Ltac cancel_prefix H :=
  first [ apply lit_app_inj in H
        | apply app_inj_1 in H as [? H]; [|congruence] ].
Ltac context_parts H :=
  unfold ready_context, leased_context, delayed_context, terminal_context, dir_name in H;
  repeat cancel_prefix H.

(** The canonical context hashed into a name tag determines the state, the
    directory and every field of the name: no two placed names share a context. *)
Theorem placed_context_inj p p' :
  placed_wf p -> placed_wf p' -> placed_context p = placed_context p' ->
  placed_untagged p = placed_untagged p'.
Proof.
  destruct p, p'; cbn [placed_wf placed_context placed_untagged];
    unfold ReadyName_canonical_context, LeasedName_canonical_context,
      DelayedName_canonical_context, DeadName_canonical_context, ReceiptName_canonical_context;
    intros Hw Hw' H; try discriminate H; split_hyps.
  - unfold ReadyName_wf in *. split_hyps. context_parts H.
    rewrite <- (app_nil_r (base_name (rn_common n))), <- (app_nil_r (base_name (rn_common n0))) in H.
    apply base_name_inj in H as [? _]; [congruence|done..].
  - unfold LeasedName_wf, leased_base in *. split_hyps. context_parts H.
    rewrite !push_hex_app, <- !app_assoc in H. apply base_name_inj in H as [? H]; [|done..].
    apply lit_app_inj, app_inj_1 in H as [Hboot H]; [|len]. apply lit_app_inj in H.
    apply app_inj_1 in H as [Hbdl H]; [|by rewrite !(length_fmt_hex 8) by (lia || done)].
    apply lit_app_inj, app_inj_1 in H as [Hwdl H]; [|by rewrite !(length_fmt_hex 8) by (lia || done)].
    apply lit_app_inj, hex_encode_inj in H. apply hex_encode_inj in Hboot.
    apply (fmt_hex_inj 8) in Hbdl; [|lia|done..]. apply (fmt_hex_inj 8) in Hwdl; [|lia|done..].
    congruence.
  - unfold DelayedName_wf, delayed_base in *. split_hyps. context_parts H.
    apply base_name_inj in H as [? H]; [|done..].
    apply lit_app_inj, (fmt_hex_inj 8) in H; [congruence|lia|done..].
  - unfold DeadName_wf, dead_base in *. split_hyps. context_parts H.
    apply base_name_inj in H as [? H]; [|done..].
    apply lit_app_inj, (fmt_hex_inj 2) in H; [congruence|lia|done..].
  - unfold ReceiptName_wf, receipt_base in *. split_hyps. context_parts H.
    rewrite !push_hex_app, <- !app_assoc in H. apply base_name_inj in H as [? H]; [|done..].
    apply lit_app_inj, hex_encode_inj in H. congruence.
Qed.

(** ** Temporary and quarantine names *)

Definition TempName_wf (n : TempName) : Prop :=
  is_u64 (tmp_created_boottime_ns n) /\ length (tmp_random n) = 16%nat.
Definition QuarantineName_wf (n : QuarantineName) : Prop :=
  length (qn_quarantine_id n) = 16%nat /\ is_u16 (qn_reason n).

(** A two-field name is split off its extension and separator. *)
Lemma two_fields_ok s ext p0 p1 :
  Forall ascii_char ext ->
  assert_ascii s = Ok tt /\ (exists f, strip_suffix ext s = Some f /\ split_dot f = [p0; p1]) <->
  field_chars p0 /\ field_chars p1 /\ s = p0 ++ dot :: p1 ++ ext.
Proof.
  intros He. setoid_rewrite strip_suffix_Some. split.
  - intros [Ha (f & -> & Hs)]. apply assert_ascii_ok, Forall_app in Ha as [Ha _].
    pose proof (split_dot_chars f Ha) as Hc. rewrite Hs, !Forall_cons in Hc.
    rewrite <- (join_split_dot f), Hs. cbn [join_dot]. rewrite <- app_assoc. naive_solver.
  - intros (H0 & H1 & ->).
    assert (Hf : Forall field_chars [p0; p1]) by (by repeat apply Forall_cons_2; [..|apply Forall_nil_2]).
    replace (p0 ++ dot :: p1 ++ ext) with (join_dot [p0; p1] ++ ext)
      by (cbn [join_dot]; by rewrite <- app_assoc).
    split; [apply assert_ascii_ok, Forall_app; split; [by apply join_dot_ascii|done]|].
    eexists. split; [done|]. by rewrite split_join_dot.
Qed.

Lemma parse_temp_iff s n :
  parse_temp s = Ok n <->
  TempName_wf n /\ s = temp_filename (tmp_created_boottime_ns n) (tmp_random n).
Proof.
  assert (He : Forall ascii_char (lit ".tmp")) by (apply assert_ascii_ok; reflexivity).
  unfold parse_temp, TempName_wf, temp_filename, hex_u64. split.
  - intros H. destruct (assert_ascii s) as [[]|] eqn:Ha; [|done]. cbn [rbind] in H.
    destruct (strip_suffix (lit ".tmp") s) as [f|] eqn:Hf; [|done]. cbn [rbind ok_or] in H.
    destruct (split_dot f) as [|p0 [|p1 [|??]]] eqn:Hs; try done.
    destruct (proj1 (two_fields_ok s _ p0 p1 He)) as (_ & _ & ->); [eauto|].
    rsteps H. subst n. apply ok_or_ok_iff in E, E0. cbn.
    apply hex_decode_u64_Some in E as [-> Hv]. apply hex_decode_array_Some in E0 as [-> Hr].
    split; [done|]. reflexivity.
  - intros [[Hv Hr] ->].
    destruct (proj2 (two_fields_ok
      (fmt_hex 16 (tmp_created_boottime_ns n) ++ dot :: hex_encode (tmp_random n) ++ lit ".tmp")
      (lit ".tmp") (fmt_hex 16 (tmp_created_boottime_ns n)) (hex_encode (tmp_random n)) He))
      as (Ha & f & Hf & Hs).
    { split_and!; [|apply hex_encode_chars|done].
      rewrite (fmt_hex_to_be 8) by (lia || done). apply hex_encode_chars. }
    change (lit "." ++ ?x) with (dot :: x). rewrite Ha. cbn [rbind].
    rewrite Hf. cbn [rbind ok_or]. rewrite Hs.
    rewrite (proj2 (hex_decode_u64_Some _ _) (conj eq_refl Hv)). cbn [rbind ok_or].
    unfold hex_decode_16.
    rewrite (proj2 (hex_decode_array_Some 16 _ _) (conj eq_refl Hr)). by destruct n.
Qed.

Lemma parse_quarantine_iff s n :
  parse_quarantine s = Ok n <->
  QuarantineName_wf n /\ s = quarantine_filename (qn_quarantine_id n) (qn_reason n).
Proof.
  assert (He : Forall ascii_char (lit ".raw")) by (apply assert_ascii_ok; reflexivity).
  unfold parse_quarantine, QuarantineName_wf, quarantine_filename, hex_u16. split.
  - intros H. destruct (assert_ascii s) as [[]|] eqn:Ha; [|done]. cbn [rbind] in H.
    destruct (strip_suffix (lit ".raw") s) as [f|] eqn:Hf; [|done]. cbn [rbind ok_or] in H.
    destruct (split_dot f) as [|p0 [|p1 [|??]]] eqn:Hs; try done.
    destruct (proj1 (two_fields_ok s _ p0 p1 He)) as (_ & _ & ->); [eauto|].
    rsteps H. subst n. breflect. apply ok_or_ok_iff, hex_decode_array_Some in E as [Hd Hl].
    apply parse_tagged_hex_u16_ok in E0 as [-> Hv]. cbn [qn_quarantine_id qn_reason].
    destruct p0 as [|b p0]; [done|]. injection H0 as ->. cbn [drop] in Hd.
    unfold drop in Hd. rewrite Hd. split; [done|]. reflexivity.
  - intros [[Hl Hv] ->]. destruct n as [q r]. cbn [qn_quarantine_id qn_reason] in *.
    set (p0 := "q"%byte :: hex_encode q). set (p1 := "x"%byte :: fmt_hex 4 r).
    destruct (proj2 (two_fields_ok (p0 ++ dot :: p1 ++ lit ".raw") (lit ".raw") p0 p1 He))
      as (Ha & f & Hf & Hs).
    { split_and!; [by apply hex_field|by apply (fmt_hex_field 2); [lia| |]|done]. }
    replace (lit "q" ++ hex_encode q ++ lit ".x" ++ fmt_hex 4 r ++ lit ".raw")
      with (p0 ++ dot :: p1 ++ lit ".raw") by reflexivity.
    rewrite Ha. cbn [rbind]. rewrite Hf. cbn [rbind ok_or]. rewrite Hs.
    unfold hex_decode_16. subst p0 p1. cbn [length drop]. rewrite drop_0.
    rewrite (proj2 (hex_decode_array_Some 16 _ _) (conj eq_refl Hl)).
    rewrite (proj2 (parse_tagged_hex_u16_ok _ _ r)) by done.
    rewrite length_hex_encode, Hl. done.
Qed.

(** ** Properties *)

(** Each job-name parser accepts exactly the filenames the matching writer
    produces from well-formed fields, and returns those fields: parsing and
    printing are mutually inverse and every name has one spelling. *)
Theorem job_names_canonical s :
  (forall n, parse_ready s = Ok n <->
     ReadyName_wf n /\ s = ready_filename (rn_common n) (rn_tag n)) /\
  (forall n, parse_delayed s = Ok n <->
     DelayedName_wf n /\ s = delayed_filename (dn_common n) (dn_not_before_ns n) (dn_tag n)) /\
  (forall n, parse_dead s = Ok n <->
     DeadName_wf n /\ s = dead_filename (xn_common n) (xn_reason n) (xn_tag n)) /\
  (forall n, parse_receipt s = Ok n <->
     ReceiptName_wf n /\ s = receipt_filename (tn_common n) (tn_token n) (tn_tag n)) /\
  (forall n, parse_leased s = Ok n <->
     LeasedName_wf n /\
     s = leased_filename (ln_common n) (ln_boot_id n) (ln_boottime_deadline_ns n)
           (ln_wall_deadline_ns n) (ln_token n) (ln_tag n)).
Proof.
  split_and!; intros n.
  - apply parse_ready_iff.
  - apply parse_delayed_iff.
  - apply parse_dead_iff.
  - apply parse_receipt_iff.
  - apply parse_leased_iff.
Qed.

(** Temporary and quarantine filenames have the same bijective reading. *)
Theorem maintenance_names_canonical s :
  (forall n, parse_temp s = Ok n <->
     TempName_wf n /\ s = temp_filename (tmp_created_boottime_ns n) (tmp_random n)) /\
  (forall n, parse_quarantine s = Ok n <->
     QuarantineName_wf n /\ s = quarantine_filename (qn_quarantine_id n) (qn_reason n)).
Proof. split; intros n; [apply parse_temp_iff|apply parse_quarantine_iff]. Qed.

(** The canonical UUID text of a boot id decodes to its 16 bytes, and the
    decoder accepts no other text. *)
Theorem boot_id_canonical s b :
  boot_id_bytes s = Some b <-> length b = 16%nat /\ s = format_boot_id b.
Proof. apply boot_id_bytes_iff. Qed.

(** A job's shard is below a power-of-two shard count of at most 4096, and
    its directory name reads back as that shard. *)
Theorem shard_directory_round_trip `{Sha256} q j k :
  (0 <= k <= 12)%Z ->
  (0 <= compute_shard q j (2 ^ k) < 2 ^ k)%Z /\
  shard_from_hex (shard_hex (compute_shard q j (2 ^ k))) = Some (compute_shard q j (2 ^ k)).
Proof.
  intros Hk. pose proof (compute_shard_range q j k ltac:(lia)) as Hr. split; [done|].
  apply hex_decode_u16_Some. split; [done|]. unfold is_u16.
  assert (2 ^ k <= 2 ^ 12)%Z by (apply Z.pow_le_mono_r; lia). lia.
Qed.

Lemma shard_directory_round_trip_witness :
  @compute_shard checksum256 (replicate 16 x42) (replicate 16 xab) 64 = 38%Z /\
  shard_from_hex (shard_hex (@compute_shard checksum256 (replicate 16 x42) (replicate 16 xab) 64))
  = Some (@compute_shard checksum256 (replicate 16 x42) (replicate 16 xab) 64).
Proof.
  split; [vm_compute; reflexivity|].
  apply (@shard_directory_round_trip checksum256 (replicate 16 x42) (replicate 16 xab) 6).
  lia.
Defined.

(** ** Witnesses *)

Definition sample_common : CommonFields := mkCommon (replicate 16 xab) 5 1 3.

Lemma sample_common_wf : CommonFields_wf sample_common.
Proof. split_and!; done. Qed.

Lemma name_kinds_unique_witness :
  name_kinds (ready_filename sample_common (replicate 8 x0f)) = [Ready] /\ Ready = Ready.
Proof.
  split; [vm_compute; reflexivity|].
  apply (name_kinds_unique (ready_filename sample_common (replicate 8 x0f)));
    vm_compute; left; reflexivity.
Defined.

Lemma make_names_authenticate_witness :
  exists s n,
    @make_leased_name checksum256 (replicate 16 x42) (lit "12345678-1234-1234-1234-123456789abc")
      (bucket_hex 3) (shard_hex 38) sample_common 30000000000 40000000000 (replicate 16 x0c)
    = Some s /\ parse_leased s = Ok n /\ ln_common n = sample_common.
Proof.
  destruct (@make_names_authenticate checksum256 checksum256_spec (replicate 16 x42)
    (shard_hex 38) (bucket_hex 3) (lit "12345678-1234-1234-1234-123456789abc")
    [x12; x34; x56; x78; x12; x34; x12; x34; x12; x34; x12; x34; x56; x78; x9a; xbc]
    sample_common 7 4 30000000000 40000000000 (replicate 16 x0c))
    as (_ & _ & _ & _ & s & n & Hs & Hp & Hc & _);
    [exact sample_common_wf|by split|by split|by split|by split|done|vm_compute; reflexivity|].
  exists s, n. split; [exact Hs|]. split; [exact Hp|exact Hc].
Defined.

Lemma shard_scan_visits_each_once_witness :
  @shard_scan_params checksum256 (replicate 16 x42) (replicate 16 xab) (replicate 16 x01) 0 8
    = (3, 7)%Z /\
  map (fun i => shard_at 3 7 i 8) (seqZ 0 8) ≡ₚ seqZ 0 8.
Proof.
  split; [vm_compute; reflexivity|].
  pose proof (@shard_scan_visits_each_once checksum256 (replicate 16 x42) (replicate 16 xab)
    (replicate 16 x01) 0 3) as H.
  apply H. lia.
Defined.

Lemma placed_context_inj_witness :
  placed_untagged (PlacedDead (bucket_hex 3) (shard_hex 38)
    (mkDeadName sample_common 4 (replicate 8 x01)))
  = placed_untagged (PlacedDead (bucket_hex 3) (shard_hex 38)
    (mkDeadName sample_common 4 (replicate 8 x02))).
Proof.
  apply placed_context_inj; [by split_and!..|reflexivity].
Defined.
