(* ===== verification/Format.v ===== *)
(** * steadq-format: fixed-size binary records and the job envelope

    Models [crates/steadq-format/src/lib.rs].  Encoders write fields into a
    zeroed buffer at the offsets of the source; decoders read slices and
    validate in the order of the source. *)
From stdpp Require Import base numbers list option strings.
From Stdlib Require Import Strings.Byte ZArith.
From S2P Require Import Prelude.

(** ** Constants *)

Definition FORMAT_MAGIC : bytes := lit "SDQFMT1" ++ [x00].
Definition JOB_MAGIC : bytes := lit "SDQJOB1" ++ [x00].
Definition RECEIPT_MAGIC : bytes := lit "SDQRCPT" ++ [x00].
Definition WATERMARK_MAGIC : bytes := lit "SDQWMR1" ++ [x00].

Definition FORMAT_SIZE : nat := 160.
Definition FIXED_HEADER_SIZE : nat := 128.
Definition COMPACT_RECEIPT_SIZE : nat := 128.
Definition WATERMARK_SIZE : nat := 64.

Definition DIGEST_ALGORITHM_SHA256 : Z := 1.
Definition NAME_TAG_BITS : Z := 64.
Definition FORMAT_MAJOR : Z := 1.
Definition FORMAT_MINOR : Z := 1.
Definition STRICT_COMPACT_RECEIPT_MINOR : Z := 1.
Definition MAX_PAYLOAD_LENGTH : Z := 2 ^ 40 - 1.
Definition MAX_EXTENSION_HEADER_LENGTH : Z := 65536.

(** [buf[i..j].iter().any(|&b| b != 0)] *)
Definition any_nonzero (bs : bytes) : bool := existsb (fun b => negb (bool_decide (b = x00))) bs.
(** [buf[i]] of a buffer whose length was checked. *)
Definition byte_at (i : nat) (buf : bytes) : Z := b2z (buf !!! i).
(** [u16/u32/u64::from_be_bytes(buf[i..j])] *)
Definition be_at (i j : nat) (buf : bytes) : Z := from_be (slice i j buf).

(** [u32::is_power_of_two] *)
Definition is_power_of_two (x : Z) : bool := (0 <? x)%Z && (Z.land x (x - 1) =? 0)%Z.

(** ** FORMAT record *)

Record FormatRecord : Type := mkFormatRecord {
  fr_queue_id : bytes;
  fr_created_at_unix_ns : Z;
  fr_shard_count : Z;
  fr_lease_bucket_width_ns : Z;
  fr_delayed_bucket_width_ns : Z;
  fr_terminal_bucket_width_ns : Z;
  fr_max_payload_length : Z
}.

Inductive FormatError : Type :=
| FormatBadMagic
| FormatUnsupportedVersion (major minor : Z)
| FormatNonzeroFlags
| FormatNonzeroReserved
| UnsupportedDigestAlgo (algo : Z)
| InvalidNameTagBits (bits : Z)
| InvalidShardCount (count : Z)
| InvalidBucketWidth
| PayloadLimitExceeded
| FormatDigestMismatch
| NonzeroFeatureBits
| FormatWrongSize (expected actual : nat).

(** The parameter checks [new] and [decode] share, in their common order. *)
Definition check_format_parameters (shard_count lease delayed terminal max_payload : Z)
  : result unit FormatError :=
  if (shard_count =? 0)%Z || negb (is_power_of_two shard_count) || (4096 <? shard_count)%Z
  then Err (InvalidShardCount shard_count)
  else if (lease =? 0)%Z || (delayed =? 0)%Z then Err InvalidBucketWidth
  else if negb ((60000000000 <=? terminal)%Z && (terminal <=? 86400000000000)%Z)
  then Err InvalidBucketWidth
  else if negb (terminal mod delayed =? 0)%Z then Err InvalidBucketWidth
  else if (MAX_PAYLOAD_LENGTH <? max_payload)%Z then Err PayloadLimitExceeded
  else Ok tt.

Definition FormatRecord_new (queue_id : bytes)
    (created_at_unix_ns shard_count lease delayed terminal max_payload : Z)
  : result FormatRecord FormatError :=
  let? _ := check_format_parameters shard_count lease delayed terminal max_payload in
  Ok (mkFormatRecord queue_id created_at_unix_ns shard_count lease delayed terminal max_payload).

Section Digests.
Context `{Sha256}.

Definition format_digest (header : bytes) : bytes :=
  sha256 ((lit "SteadQ-1-format" ++ [x00]) ++ header).
Definition receipt_digest (record : bytes) : bytes :=
  sha256 ((lit "SteadQ-1-receipt" ++ [x00]) ++ record).
Definition watermark_digest (record : bytes) : bytes :=
  sha256 ((lit "SteadQ-1-wall-watermark" ++ [x00]) ++ record).
Definition payload_digest (payload : bytes) : bytes := sha256 payload.

Definition FormatRecord_encode (r : FormatRecord) : bytes :=
  let buf := zeros FORMAT_SIZE in
  let buf := write_at 0 FORMAT_MAGIC buf in
  let buf := write_at 8 (to_be 2 FORMAT_MAJOR) buf in
  let buf := write_at 10 (to_be 2 FORMAT_MINOR) buf in
  let buf := write_at 16 (fr_queue_id r) buf in
  let buf := write_at 32 (to_be 8 (fr_created_at_unix_ns r)) buf in
  let buf := write_at 40 (to_be 4 (fr_shard_count r)) buf in
  let buf := write_at 48 (to_be 8 (fr_lease_bucket_width_ns r)) buf in
  let buf := write_at 56 (to_be 8 (fr_delayed_bucket_width_ns r)) buf in
  let buf := write_at 64 (to_be 8 (fr_terminal_bucket_width_ns r)) buf in
  let buf := write_at 72 (to_be 8 (fr_max_payload_length r)) buf in
  let buf := write_at 80 [z2b DIGEST_ALGORITHM_SHA256] buf in
  let buf := write_at 81 [z2b NAME_TAG_BITS] buf in
  let digest := format_digest (slice 0 128 buf) in
  write_at 128 digest buf.

Definition FormatRecord_decode (buf : bytes) : result FormatRecord FormatError :=
  if negb (length buf =? FORMAT_SIZE)%nat then Err (FormatWrongSize FORMAT_SIZE (length buf))
  else if negb (bool_decide (slice 0 8 buf = FORMAT_MAGIC)) then Err FormatBadMagic
  else
    let major := be_at 8 10 buf in
    let minor := be_at 10 12 buf in
    if negb (major =? FORMAT_MAJOR)%Z then Err (FormatUnsupportedVersion major minor)
    else if negb (be_at 12 16 buf =? 0)%Z then Err FormatNonzeroFlags
    else
      let queue_id := slice 16 32 buf in
      let created_at_unix_ns := be_at 32 40 buf in
      let shard_count := be_at 40 44 buf in
      if negb (be_at 44 48 buf =? 0)%Z then Err FormatNonzeroReserved
      else
        let lease := be_at 48 56 buf in
        let delayed := be_at 56 64 buf in
        let terminal := be_at 64 72 buf in
        let max_payload := be_at 72 80 buf in
        let digest_algo := byte_at 80 buf in
        if negb (digest_algo =? DIGEST_ALGORITHM_SHA256)%Z
        then Err (UnsupportedDigestAlgo digest_algo)
        else
          let name_tag_bits := byte_at 81 buf in
          if negb (name_tag_bits =? NAME_TAG_BITS)%Z then Err (InvalidNameTagBits name_tag_bits)
          else if any_nonzero (slice 82 88 buf) || any_nonzero (slice 104 128 buf)
          then Err FormatNonzeroReserved
          else if negb (be_at 88 96 buf =? 0)%Z || negb (be_at 96 104 buf =? 0)%Z
          then Err NonzeroFeatureBits
          else if negb (bool_decide (format_digest (slice 0 128 buf) = slice 128 160 buf))
          then Err FormatDigestMismatch
          else
            let? _ := check_format_parameters shard_count lease delayed terminal max_payload in
            Ok (mkFormatRecord queue_id created_at_unix_ns shard_count lease delayed terminal
                  max_payload).

End Digests.

(** ** Fixed job header *)

Record FixedHeader : Type := mkFixedHeader {
  fh_format_minor : Z;
  fh_extension_header_length : Z;
  fh_payload_length : Z;
  fh_flags : Z;
  fh_digest_algorithm : Z;
  fh_job_id : bytes;
  fh_maximum_attempts : Z;
  fh_created_at_unix_ns : Z;
  fh_payload_digest : bytes;
  fh_envelope_digest : bytes
}.

Inductive HeaderError : Type :=
| HeaderBadMagic
| HeaderUnsupportedVersion (major minor : Z)
| HeaderNonzeroFlags
| DigestAlgoMismatch (algo : Z)
| HeaderNonzeroReserved
| HeaderWrongSize (expected actual : nat)
| PayloadTooLarge
| ExtensionTooLarge
| ZeroMaxAttempts
| HeaderEnvelopeDigestMismatch
| ExtensionDigestMismatch
| ExtensionLengthMismatch.

Definition FixedHeader_encode (h : FixedHeader) (extension : bytes) : result bytes HeaderError :=
  if negb (wrap32 (Z.of_nat (length extension)) =? fh_extension_header_length h)%Z
  then Err ExtensionLengthMismatch
  else
    let buf := zeros FIXED_HEADER_SIZE in
    let buf := write_at 0 JOB_MAGIC buf in
    let buf := write_at 8 (to_be 2 FORMAT_MAJOR) buf in
    let buf := write_at 10 (to_be 2 (fh_format_minor h)) buf in
    let buf := write_at 12 (to_be 4 (fh_extension_header_length h)) buf in
    let buf := write_at 16 (to_be 8 (fh_payload_length h)) buf in
    let buf := write_at 24 (to_be 4 (fh_flags h)) buf in
    let buf := write_at 28 [z2b (fh_digest_algorithm h)] buf in
    let buf := write_at 32 (fh_job_id h) buf in
    let buf := write_at 48 (to_be 4 (fh_maximum_attempts h)) buf in
    let buf := write_at 56 (to_be 8 (fh_created_at_unix_ns h)) buf in
    let buf := write_at 64 (fh_payload_digest h) buf in
    let buf := write_at 96 (fh_envelope_digest h) buf in
    Ok buf.

Definition FixedHeader_decode (buf : bytes) : result FixedHeader HeaderError :=
  if negb (length buf =? FIXED_HEADER_SIZE)%nat
  then Err (HeaderWrongSize FIXED_HEADER_SIZE (length buf))
  else if negb (bool_decide (slice 0 8 buf = JOB_MAGIC)) then Err HeaderBadMagic
  else
    let major := be_at 8 10 buf in
    let minor := be_at 10 12 buf in
    if negb (major =? FORMAT_MAJOR)%Z then Err (HeaderUnsupportedVersion major minor)
    else
      let flags := be_at 24 28 buf in
      if negb (flags =? 0)%Z then Err HeaderNonzeroFlags
      else
        let digest_algorithm := byte_at 28 buf in
        if negb (digest_algorithm =? DIGEST_ALGORITHM_SHA256)%Z
        then Err (DigestAlgoMismatch digest_algorithm)
        else if any_nonzero (slice 29 32 buf) || any_nonzero (slice 52 56 buf)
        then Err HeaderNonzeroReserved
        else
          let extension_header_length := be_at 12 16 buf in
          let payload_length := be_at 16 24 buf in
          let job_id := slice 32 48 buf in
          let maximum_attempts := be_at 48 52 buf in
          let created_at_unix_ns := be_at 56 64 buf in
          let payload_digest := slice 64 96 buf in
          let envelope_digest := slice 96 128 buf in
          if (maximum_attempts =? 0)%Z then Err ZeroMaxAttempts
          else if (MAX_PAYLOAD_LENGTH <? payload_length)%Z then Err PayloadTooLarge
          else if (MAX_EXTENSION_HEADER_LENGTH <? extension_header_length)%Z
          then Err ExtensionTooLarge
          else
            Ok (mkFixedHeader minor extension_header_length payload_length flags
                  digest_algorithm job_id maximum_attempts created_at_unix_ns
                  payload_digest envelope_digest).

(** ** Envelope digest *)

Section Envelope.
Context `{Sha256}.

Definition envelope_digest (fixed_header : FixedHeader) (extension : bytes) : option bytes :=
  match FixedHeader_encode fixed_header extension with
  | Err _ => None
  | Ok header =>
      let header_with_zero_digest := write_at 96 (zeros 32) header in
      Some (sha256 ((lit "SteadQ-1-envelope" ++ [x00]) ++ header_with_zero_digest ++ extension))
  end.

Definition verify_envelope_digest (header : FixedHeader) (extension : bytes) : bool :=
  match envelope_digest header extension with
  | Some computed => bool_decide (computed = fh_envelope_digest header)
  | None => false
  end.

End Envelope.

(** ** Compact receipt *)

Record CompactReceipt : Type := mkCompactReceipt {
  cr_job_id : bytes;
  cr_envelope_digest : bytes;
  cr_final_attempt : Z;
  cr_lease_token : bytes;
  cr_receipt_bucket_start_unix_ns : Z;
  cr_original_payload_length : Z
}.

Inductive ReceiptError : Type :=
| ReceiptBadMagic
| ReceiptUnsupportedVersion (major minor : Z)
| ReceiptDigestMismatch
| ReceiptWrongSize (expected actual : nat).

(** ** Wall watermark *)

Record WatermarkRecord : Type := mkWatermarkRecord {
  wm_highest_observed_bucket : Z;
  wm_sequence : Z
}.

Inductive WatermarkError : Type :=
| WatermarkBadMagic
| WatermarkUnsupportedVersion (major minor : Z)
| WatermarkNonzeroReserved
| WatermarkDigestMismatch
| WatermarkWrongSize (expected actual : nat).

Section Records.
Context `{Sha256}.

Definition CompactReceipt_encode (r : CompactReceipt) : bytes :=
  let buf := zeros COMPACT_RECEIPT_SIZE in
  let buf := write_at 0 RECEIPT_MAGIC buf in
  let buf := write_at 8 (to_be 2 FORMAT_MAJOR) buf in
  let buf := write_at 10 (to_be 2 FORMAT_MINOR) buf in
  let buf := write_at 12 (cr_job_id r) buf in
  let buf := write_at 28 (cr_envelope_digest r) buf in
  let buf := write_at 60 (to_be 4 (cr_final_attempt r)) buf in
  let buf := write_at 64 (cr_lease_token r) buf in
  let buf := write_at 80 (to_be 8 (cr_receipt_bucket_start_unix_ns r)) buf in
  let buf := write_at 88 (to_be 8 (cr_original_payload_length r)) buf in
  let digest := receipt_digest (slice 0 96 buf) in
  write_at 96 digest buf.

Definition CompactReceipt_decode (buf : bytes) : result CompactReceipt ReceiptError :=
  if negb (length buf =? COMPACT_RECEIPT_SIZE)%nat
  then Err (ReceiptWrongSize COMPACT_RECEIPT_SIZE (length buf))
  else if negb (bool_decide (slice 0 8 buf = RECEIPT_MAGIC)) then Err ReceiptBadMagic
  else
    let major := be_at 8 10 buf in
    let minor := be_at 10 12 buf in
    if negb (major =? FORMAT_MAJOR)%Z || (minor <? STRICT_COMPACT_RECEIPT_MINOR)%Z
    then Err (ReceiptUnsupportedVersion major minor)
    else if negb (bool_decide (receipt_digest (slice 0 96 buf) = slice 96 128 buf))
    then Err ReceiptDigestMismatch
    else
      Ok (mkCompactReceipt (slice 12 28 buf) (slice 28 60 buf) (be_at 60 64 buf)
            (slice 64 80 buf) (be_at 80 88 buf) (be_at 88 96 buf)).

Definition WatermarkRecord_encode (r : WatermarkRecord) : bytes :=
  let buf := zeros WATERMARK_SIZE in
  let buf := write_at 0 WATERMARK_MAGIC buf in
  let buf := write_at 8 (to_be 2 FORMAT_MAJOR) buf in
  let buf := write_at 10 (to_be 2 FORMAT_MINOR) buf in
  let buf := write_at 16 (to_be 8 (wm_highest_observed_bucket r)) buf in
  let buf := write_at 24 (to_be 8 (wm_sequence r)) buf in
  let digest := watermark_digest (slice 0 32 buf) in
  write_at 32 digest buf.

Definition WatermarkRecord_decode (buf : bytes) : result WatermarkRecord WatermarkError :=
  if negb (length buf =? WATERMARK_SIZE)%nat
  then Err (WatermarkWrongSize WATERMARK_SIZE (length buf))
  else if negb (bool_decide (slice 0 8 buf = WATERMARK_MAGIC)) then Err WatermarkBadMagic
  else
    let major := be_at 8 10 buf in
    let minor := be_at 10 12 buf in
    if negb (major =? FORMAT_MAJOR)%Z then Err (WatermarkUnsupportedVersion major minor)
    else if negb (be_at 12 16 buf =? 0)%Z then Err WatermarkNonzeroReserved
    else if negb (bool_decide (watermark_digest (slice 0 32 buf) = slice 32 64 buf))
    then Err WatermarkDigestMismatch
    else Ok (mkWatermarkRecord (be_at 16 24 buf) (be_at 24 32 buf)).

End Records.

(** ** Job envelope *)

Inductive EnvelopeError : Type :=
| EnvelopeHeader (e : HeaderError)
| EnvelopeDigestMismatch
| PayloadDigestMismatch
| EnvelopeTooShort (expected actual : Z)
| EnvelopeTrailingBytes
| EnvelopeExtension (message : string)
| EnvelopeIo (message : string).

Record ValidatedEnvelope : Type := mkValidatedEnvelope {
  ve_header : FixedHeader;
  ve_extension : bytes;
  ve_payload : bytes
}.

(** [usize::checked_add] on the 64-bit targets the crate supports. *)
Definition usize_checked_add (a b : Z) : option Z := u64_checked_add a b.

Definition ValidatedEnvelope_from_bytes `{Sha256} (data : bytes) (verify_payload : bool)
  : result ValidatedEnvelope EnvelopeError :=
  if (length data <? FIXED_HEADER_SIZE)%nat
  then Err (EnvelopeTooShort (Z.of_nat FIXED_HEADER_SIZE) (Z.of_nat (length data)))
  else
    let? header := map_err EnvelopeHeader (FixedHeader_decode (slice 0 FIXED_HEADER_SIZE data)) in
    let ext_len := fh_extension_header_length header in
    let payload_len := fh_payload_length header in
    let? expected_ext :=
      ok_or (usize_checked_add (Z.of_nat FIXED_HEADER_SIZE) ext_len) (EnvelopeIo "size overflow") in
    let? expected_total :=
      ok_or (usize_checked_add expected_ext payload_len) (EnvelopeIo "size overflow") in
    let len := Z.of_nat (length data) in
    if negb (len =? expected_total)%Z then
      if (expected_total <? len)%Z then Err EnvelopeTrailingBytes
      else Err (EnvelopeTooShort expected_total len)
    else
      let ext_end := (FIXED_HEADER_SIZE + Z.to_nat ext_len)%nat in
      let extension := slice FIXED_HEADER_SIZE ext_end data in
      let payload := drop ext_end data in
      if negb (verify_envelope_digest header extension) then Err EnvelopeDigestMismatch
      else if verify_payload && negb (bool_decide (payload_digest payload = fh_payload_digest header))
      then Err PayloadDigestMismatch
      else Ok (mkValidatedEnvelope header extension payload).

(** ** Layout of the encodings *)

Lemma length_FORMAT_MAGIC : length FORMAT_MAGIC = 8%nat. Proof. done. Qed.
Lemma length_JOB_MAGIC : length JOB_MAGIC = 8%nat. Proof. done. Qed.
Lemma length_RECEIPT_MAGIC : length RECEIPT_MAGIC = 8%nat. Proof. done. Qed.
Lemma length_WATERMARK_MAGIC : length WATERMARK_MAGIC = 8%nat. Proof. done. Qed.
#[export] Hint Rewrite length_FORMAT_MAGIC length_JOB_MAGIC length_RECEIPT_MAGIC
  length_WATERMARK_MAGIC : len.
#[global] Opaque FORMAT_MAGIC JOB_MAGIC RECEIPT_MAGIC WATERMARK_MAGIC.

Definition FormatRecord_wf (r : FormatRecord) : Prop :=
  length (fr_queue_id r) = 16%nat /\ is_u64 (fr_created_at_unix_ns r) /\
  is_u32 (fr_shard_count r) /\ is_u64 (fr_lease_bucket_width_ns r) /\
  is_u64 (fr_delayed_bucket_width_ns r) /\ is_u64 (fr_terminal_bucket_width_ns r) /\
  is_u64 (fr_max_payload_length r).

(** The first 128 bytes of a FORMAT file, with the minor version it carries. *)
Definition format_body (minor : Z) (r : FormatRecord) : bytes :=
  FORMAT_MAGIC ++ to_be 2 FORMAT_MAJOR ++ to_be 2 minor ++ zeros 4
  ++ fr_queue_id r ++ to_be 8 (fr_created_at_unix_ns r) ++ to_be 4 (fr_shard_count r) ++ zeros 4
  ++ to_be 8 (fr_lease_bucket_width_ns r) ++ to_be 8 (fr_delayed_bucket_width_ns r)
  ++ to_be 8 (fr_terminal_bucket_width_ns r) ++ to_be 8 (fr_max_payload_length r)
  ++ [z2b DIGEST_ALGORITHM_SHA256] ++ [z2b NAME_TAG_BITS] ++ zeros 6 ++ zeros 8 ++ zeros 8
  ++ zeros 24.

Lemma zeros_app n m : zeros n ++ zeros m = zeros (n + m).
Proof. symmetry. apply replicate_add. Qed.

Lemma length_format_body minor r :
  length (fr_queue_id r) = 16%nat -> length (format_body minor r) = 128%nat.
Proof. intros. unfold format_body. len. Qed.

Lemma FormatRecord_encode_layout `{Sha256Spec} r :
  length (fr_queue_id r) = 16%nat ->
  FormatRecord_encode r
  = format_body FORMAT_MINOR r ++ format_digest (format_body FORMAT_MINOR r).
Proof.
  intros Hq. unfold FormatRecord_encode, FORMAT_SIZE. cbv zeta.
  change (zeros 160) with ([] ++ zeros 160).
  rewrite (write_next _ _ _ _ 152), (write_next _ _ _ _ 150), (write_next _ _ _ _ 148) by len.
  rewrite (write_gap _ _ _ _ 4 128), (write_next _ _ _ _ 120), (write_next _ _ _ _ 116) by len.
  rewrite (write_gap _ _ _ _ 4 104), (write_next _ _ _ _ 96), (write_next _ _ _ _ 88),
    (write_next _ _ _ _ 80), (write_next _ _ _ _ 79), (write_next _ _ _ _ 78) by len.
  change (zeros 78) with (zeros (46 + 32)). rewrite <- zeros_app, app_assoc.
  set (body := _ ++ zeros 46).
  assert (Hbody : body = format_body FORMAT_MINOR r).
  { unfold body, format_body. rewrite !zeros_app, <- !app_assoc. reflexivity. }
  clearbody body. subst body. pose proof (length_format_body FORMAT_MINOR r Hq).
  rewrite slice_here by done. rewrite (write_next _ _ _ _ 0);
    [by rewrite app_nil_r|done|].
  unfold format_digest. by rewrite sha256_length.
Qed.

Lemma any_nonzero_false bs : any_nonzero bs = false <-> bs = zeros (length bs).
Proof.
  unfold any_nonzero, zeros. induction bs as [|b bs IH]; [done|]. cbn [existsb length replicate].
  rewrite orb_false_iff, negb_false_iff, bool_decide_eq_true, IH. split; [|by intros [= -> <-]].
  intros [-> <-]. done.
Qed.

Lemma any_nonzero_zeros n : any_nonzero (zeros n) = false.
Proof. apply any_nonzero_false. by rewrite length_zeros. Qed.

(** Reading one chunk of a layout: drop the chunks before it. *)
Ltac chunk := unfold be_at; slices; try rewrite from_be_to_be by done; try reflexivity.

Lemma format_layout_read minor r d :
  FormatRecord_wf r -> is_u16 minor -> length d = 32%nat ->
  let buf := format_body minor r ++ d in
  slice 0 8 buf = FORMAT_MAGIC /\ be_at 8 10 buf = FORMAT_MAJOR /\ be_at 10 12 buf = minor /\
  slice 12 16 buf = zeros 4 /\ slice 16 32 buf = fr_queue_id r /\
  be_at 32 40 buf = fr_created_at_unix_ns r /\ be_at 40 44 buf = fr_shard_count r /\
  slice 44 48 buf = zeros 4 /\ be_at 48 56 buf = fr_lease_bucket_width_ns r /\
  be_at 56 64 buf = fr_delayed_bucket_width_ns r /\
  be_at 64 72 buf = fr_terminal_bucket_width_ns r /\
  be_at 72 80 buf = fr_max_payload_length r /\
  slice 80 81 buf = [z2b DIGEST_ALGORITHM_SHA256] /\ slice 81 82 buf = [z2b NAME_TAG_BITS] /\
  slice 82 88 buf = zeros 6 /\ slice 88 96 buf = zeros 8 /\ slice 96 104 buf = zeros 8 /\
  slice 104 128 buf = zeros 24 /\ slice 0 128 buf = format_body minor r /\
  slice 128 160 buf = d.
Proof.
  intros (Hq & Hc & Hs & Hl & Hdl & Ht & Hm) Hmin Hd buf.
  assert (Hb : length (format_body minor r) = 128%nat) by (by apply length_format_body).
  repeat split; [..|subst buf; by apply slice_here|subst buf; erewrite slice_skip by (first [exact Hb|lia]);
                    by apply slice_all].
  all: subst buf; unfold format_body; rewrite <- !app_assoc; chunk.
Qed.

Lemma slice_split b a c l :
  (a <= b <= c)%nat -> slice a c l = slice a b l ++ slice b c l.
Proof. intros. by rewrite slice_cat. Qed.

Lemma be_at_zero a b n l :
  (b <= length l)%nat -> n = (b - a)%nat -> be_at a b l = 0%Z -> slice a b l = zeros n.
Proof. intros Hb Hn Hz. rewrite <- to_be_zero. by apply slice_of_be. Qed.

Lemma be_at_zeros a b n l : slice a b l = zeros n -> be_at a b l = 0%Z.
Proof. unfold be_at. intros ->. rewrite <- to_be_zero. apply from_be_to_be. lia. Qed.

Lemma byte_at_slice i v l :
  (i < length l)%nat -> byte_at i l = v -> slice i (S i) l = [z2b v].
Proof. intros Hi <-. rewrite lookup_slice by done. unfold byte_at. by rewrite z2b_b2z. Qed.

Lemma byte_at_of_slice i v l :
  (i < length l)%nat -> (0 <= v < 256)%Z -> slice i (S i) l = [z2b v] -> byte_at i l = v.
Proof.
  intros Hi Hv. rewrite lookup_slice by done. intros [= E]. unfold byte_at. rewrite E.
  by apply b2z_z2b_small.
Qed.

Lemma any_nonzero_slice a b n l :
  (b <= length l)%nat -> n = (b - a)%nat -> any_nonzero (slice a b l) = false ->
  slice a b l = zeros n.
Proof. intros Hb -> Hz. apply any_nonzero_false in Hz. rewrite Hz. f_equal. by apply length_slice. Qed.

Lemma be_at_bound a b l : (b <= length l)%nat -> (0 <= be_at a b l < 256 ^ Z.of_nat (b - a))%Z.
Proof. intros. unfold be_at. rewrite <- (length_slice a b l) by done. apply from_be_bound. Qed.

(** Turn the guards of a decoder into the chunks of its buffer. *)
Lemma be_at_u16 a b l : (b <= length l)%nat -> (b - a = 2)%nat -> is_u16 (be_at a b l).
Proof. intros Hl E. pose proof (be_at_bound a b l Hl) as H. by rewrite E in H. Qed.
Lemma be_at_u32 a b l : (b <= length l)%nat -> (b - a = 4)%nat -> is_u32 (be_at a b l).
Proof. intros Hl E. pose proof (be_at_bound a b l Hl) as H. by rewrite E in H. Qed.
Lemma be_at_u64 a b l : (b <= length l)%nat -> (b - a = 8)%nat -> is_u64 (be_at a b l).
Proof. intros Hl E. pose proof (be_at_bound a b l Hl) as H. by rewrite E in H. Qed.
Ltac be_range :=
  first [ apply be_at_u16; lia | apply be_at_u32; lia | apply be_at_u64; lia ].
Ltac split_fields :=
  lazymatch goal with |- _ /\ _ => split; split_fields | _ => idtac end.
Ltac field_ranges := cbn -[slice be_at length is_u16 is_u32 is_u64]; split_fields; first [be_range | by apply length_slice; lia].
Ltac chunks_match :=
  repeat f_equal;
  first [ done | by apply slice_of_be; [lia|lia|] | by apply be_at_zero; lia
        | by apply byte_at_slice; [lia|] | by apply any_nonzero_slice; [lia|lia|] ].

(** A FORMAT buffer decodes to [r] exactly when it is [r]'s layout, for some
    minor version, followed by the digest of that layout, and [r] passes the
    parameter checks. *)
Lemma FormatRecord_decode_iff `{Sha256Spec} buf r :
  FormatRecord_decode buf = Ok r <->
  FormatRecord_wf r /\
  check_format_parameters (fr_shard_count r) (fr_lease_bucket_width_ns r)
    (fr_delayed_bucket_width_ns r) (fr_terminal_bucket_width_ns r)
    (fr_max_payload_length r) = Ok tt /\
  exists minor, is_u16 minor /\
    buf = format_body minor r ++ format_digest (format_body minor r).
Proof.
  unfold FormatRecord_decode, FORMAT_SIZE. cbv zeta. split.
  - intros Hd. rsteps Hd. subst r. breflect. cbn [fr_shard_count fr_lease_bucket_width_ns fr_delayed_bucket_width_ns fr_terminal_bucket_width_ns fr_max_payload_length].
    split; [|split; [by destruct t|]].
    + unfold FormatRecord_wf. field_ranges.
    + exists (be_at 10 12 buf). split; [be_range|].
      assert (Hb : slice 0 128 buf = format_body (be_at 10 12 buf)
        (mkFormatRecord (slice 16 32 buf) (be_at 32 40 buf) (be_at 40 44 buf) (be_at 48 56 buf)
           (be_at 56 64 buf) (be_at 64 72 buf) (be_at 72 80 buf))).
      { rewrite (slice_split 8), (slice_split 10 8), (slice_split 12 10), (slice_split 16 12),
          (slice_split 32 16), (slice_split 40 32), (slice_split 44 40), (slice_split 48 44),
          (slice_split 56 48), (slice_split 64 56), (slice_split 72 64), (slice_split 80 72),
          (slice_split 81 80), (slice_split 82 81), (slice_split 88 82), (slice_split 96 88),
          (slice_split 104 96) by lia.
        unfold format_body; cbn [fr_queue_id fr_created_at_unix_ns fr_shard_count
          fr_lease_bucket_width_ns fr_delayed_bucket_width_ns fr_terminal_bucket_width_ns
          fr_max_payload_length].
        chunks_match. }
      rewrite <- Hb, G8, slice_cat by lia. symmetry. by apply slice_all.
  - intros (Hwf & Hp & minor & Hm & ->).
    pose proof (sha256_length ((lit "SteadQ-1-format" ++ [x00]) ++ format_body minor r)) as Hl.
    fold (format_digest (format_body minor r)) in Hl.
    pose proof (format_layout_read minor r _ Hwf Hm Hl) as R.
    set (buf := format_body minor r ++ _) in *.
    assert (Hlen : length buf = 160%nat).
    { subst buf. rewrite length_app, length_format_body by apply Hwf. lia. }
    destruct R as (-> & -> & -> & E1 & -> & -> & -> & E2 & -> & -> & -> & -> & E3 & E4 & -> & E5
      & E6 & -> & -> & ->).
    rewrite Hlen, (be_at_zeros _ _ _ _ E1), (be_at_zeros _ _ _ _ E2), (be_at_zeros _ _ _ _ E5),
      (be_at_zeros _ _ _ _ E6), !any_nonzero_zeros, !bool_decide_true by done.
    rewrite (byte_at_of_slice 80 DIGEST_ALGORITHM_SHA256), (byte_at_of_slice 81 NAME_TAG_BITS)
      by (done || lia). cbn. rewrite Hp. by destruct r.
Qed.

(** *** The job header *)

(** What the record's types say of any value. *)
Definition FixedHeader_typed (h : FixedHeader) : Prop :=
  is_u16 (fh_format_minor h) /\ is_u32 (fh_extension_header_length h) /\
  is_u64 (fh_payload_length h) /\ is_u32 (fh_flags h) /\ is_u8 (fh_digest_algorithm h) /\
  length (fh_job_id h) = 16%nat /\ is_u32 (fh_maximum_attempts h) /\
  is_u64 (fh_created_at_unix_ns h) /\ length (fh_payload_digest h) = 32%nat /\
  length (fh_envelope_digest h) = 32%nat.

(** What the decoder additionally enforces. *)
Definition FixedHeader_valid (h : FixedHeader) : Prop :=
  FixedHeader_typed h /\ fh_flags h = 0%Z /\ fh_digest_algorithm h = DIGEST_ALGORITHM_SHA256 /\
  (0 < fh_maximum_attempts h)%Z /\ (fh_payload_length h <= MAX_PAYLOAD_LENGTH)%Z /\
  (fh_extension_header_length h <= MAX_EXTENSION_HEADER_LENGTH)%Z.

Definition header_prefix (h : FixedHeader) : bytes :=
  JOB_MAGIC ++ to_be 2 FORMAT_MAJOR ++ to_be 2 (fh_format_minor h)
  ++ to_be 4 (fh_extension_header_length h) ++ to_be 8 (fh_payload_length h)
  ++ to_be 4 (fh_flags h) ++ [z2b (fh_digest_algorithm h)] ++ zeros 3 ++ fh_job_id h
  ++ to_be 4 (fh_maximum_attempts h) ++ zeros 4 ++ to_be 8 (fh_created_at_unix_ns h)
  ++ fh_payload_digest h.
Definition header_body (h : FixedHeader) : bytes := header_prefix h ++ fh_envelope_digest h.

Lemma length_header_prefix h : FixedHeader_typed h -> length (header_prefix h) = 96%nat.
Proof. intros (?&?&?&?&?&?&?&?&?&?). unfold header_prefix. len. Qed.

Lemma length_header_body h : FixedHeader_typed h -> length (header_body h) = 128%nat.
Proof.
  intros Ht. unfold header_body. rewrite length_app, length_header_prefix by done.
  destruct Ht as (?&?&?&?&?&?&?&?&?&->). done.
Qed.

Lemma FixedHeader_encode_layout h ext :
  FixedHeader_typed h ->
  FixedHeader_encode h ext =
    if (wrap32 (Z.of_nat (length ext)) =? fh_extension_header_length h)%Z
    then Ok (header_body h) else Err ExtensionLengthMismatch.
Proof.
  intros (?&?&?&?&?&?&?&?&?&?). unfold FixedHeader_encode, FIXED_HEADER_SIZE. cbv zeta.
  destruct (_ =? _)%Z; cbn [negb]; [f_equal|done].
  change (zeros 128) with ([] ++ zeros 128).
  rewrite (write_next _ _ _ _ 120), (write_next _ _ _ _ 118), (write_next _ _ _ _ 116),
    (write_next _ _ _ _ 112), (write_next _ _ _ _ 104), (write_next _ _ _ _ 100),
    (write_next _ _ _ _ 99), (write_gap _ _ _ _ 3 80), (write_next _ _ _ _ 76),
    (write_gap _ _ _ _ 4 64), (write_next _ _ _ _ 32), (write_next _ _ _ _ 0) by len.
  unfold header_body, header_prefix. rewrite app_nil_r, <- !app_assoc. done.
Qed.

Lemma header_layout_read h :
  FixedHeader_typed h ->
  let buf := header_body h in
  slice 0 8 buf = JOB_MAGIC /\ be_at 8 10 buf = FORMAT_MAJOR /\
  be_at 10 12 buf = fh_format_minor h /\ be_at 12 16 buf = fh_extension_header_length h /\
  be_at 16 24 buf = fh_payload_length h /\ be_at 24 28 buf = fh_flags h /\
  slice 28 29 buf = [z2b (fh_digest_algorithm h)] /\ slice 29 32 buf = zeros 3 /\
  slice 32 48 buf = fh_job_id h /\ be_at 48 52 buf = fh_maximum_attempts h /\
  slice 52 56 buf = zeros 4 /\ be_at 56 64 buf = fh_created_at_unix_ns h /\
  slice 64 96 buf = fh_payload_digest h /\ slice 96 128 buf = fh_envelope_digest h.
Proof.
  intros (?&?&?&?&?&?&?&?&?&?). cbv zeta.
  split_fields; unfold header_body, header_prefix; rewrite <- !app_assoc; chunk.
Qed.

Lemma FixedHeader_decode_iff buf h :
  FixedHeader_decode buf = Ok h <-> FixedHeader_valid h /\ buf = header_body h.
Proof.
  unfold FixedHeader_decode, FIXED_HEADER_SIZE. cbv zeta. split.
  - intros Hd. rsteps Hd. subst h. breflect. split.
    + unfold FixedHeader_valid, FixedHeader_typed.
      cbn -[slice be_at byte_at length is_u8 is_u16 is_u32 is_u64 MAX_PAYLOAD_LENGTH
        MAX_EXTENSION_HEADER_LENGTH]. split_fields;
        first [ done | be_range | by apply length_slice; lia | by apply b2z_range
              | pose proof (be_at_bound 48 52 buf); lia ].
    + rewrite <- (slice_all 128 buf) at 1 by done.
      rewrite (slice_split 8), (slice_split 10 8), (slice_split 12 10), (slice_split 16 12),
        (slice_split 24 16), (slice_split 28 24), (slice_split 29 28), (slice_split 32 29),
        (slice_split 48 32), (slice_split 52 48), (slice_split 56 52), (slice_split 64 56),
        (slice_split 96 64) by lia.
      unfold header_body, header_prefix; cbn [fh_format_minor fh_extension_header_length
        fh_payload_length fh_flags fh_digest_algorithm fh_job_id fh_maximum_attempts
        fh_created_at_unix_ns fh_payload_digest fh_envelope_digest]. rewrite <- !app_assoc.
      chunks_match.
  - intros [(Ht & Hf & Ha & Hm & Hp & He) ->].
    destruct (header_layout_read h Ht) as (-> & -> & -> & -> & -> & -> & E & -> & -> & -> & -> & -> & -> & ->).
    rewrite length_header_body, !any_nonzero_zeros, bool_decide_true by done.
    rewrite (byte_at_of_slice 28 (fh_digest_algorithm h));
      [|by rewrite length_header_body; [lia|]|by apply Ht|done].
    rewrite Hf, Ha. cbn.
    repeat case_match; breflect; try lia. destruct h; cbn in *; by subst.
Qed.

(** *** Compact receipts *)

Definition CompactReceipt_typed (r : CompactReceipt) : Prop :=
  length (cr_job_id r) = 16%nat /\ length (cr_envelope_digest r) = 32%nat /\
  is_u32 (cr_final_attempt r) /\ length (cr_lease_token r) = 16%nat /\
  is_u64 (cr_receipt_bucket_start_unix_ns r) /\ is_u64 (cr_original_payload_length r).

Definition receipt_body (minor : Z) (r : CompactReceipt) : bytes :=
  RECEIPT_MAGIC ++ to_be 2 FORMAT_MAJOR ++ to_be 2 minor ++ cr_job_id r ++ cr_envelope_digest r
  ++ to_be 4 (cr_final_attempt r) ++ cr_lease_token r
  ++ to_be 8 (cr_receipt_bucket_start_unix_ns r) ++ to_be 8 (cr_original_payload_length r).

Lemma length_receipt_body minor r :
  CompactReceipt_typed r -> length (receipt_body minor r) = 96%nat.
Proof. intros (?&?&?&?&?&?). unfold receipt_body. len. Qed.

(** *** Watermarks *)

Definition WatermarkRecord_typed (r : WatermarkRecord) : Prop :=
  is_u64 (wm_highest_observed_bucket r) /\ is_u64 (wm_sequence r).

Definition watermark_body (minor : Z) (r : WatermarkRecord) : bytes :=
  WATERMARK_MAGIC ++ to_be 2 FORMAT_MAJOR ++ to_be 2 minor ++ zeros 4
  ++ to_be 8 (wm_highest_observed_bucket r) ++ to_be 8 (wm_sequence r).

Lemma length_watermark_body minor r : length (watermark_body minor r) = 32%nat.
Proof. unfold watermark_body. len. Qed.

Lemma receipt_layout_read minor r d :
  CompactReceipt_typed r -> is_u16 minor -> length d = 32%nat ->
  let buf := receipt_body minor r ++ d in
  slice 0 8 buf = RECEIPT_MAGIC /\ be_at 8 10 buf = FORMAT_MAJOR /\ be_at 10 12 buf = minor /\
  slice 0 96 buf = receipt_body minor r /\ slice 96 128 buf = d /\
  slice 12 28 buf = cr_job_id r /\ slice 28 60 buf = cr_envelope_digest r /\
  be_at 60 64 buf = cr_final_attempt r /\ slice 64 80 buf = cr_lease_token r /\
  be_at 80 88 buf = cr_receipt_bucket_start_unix_ns r /\
  be_at 88 96 buf = cr_original_payload_length r.
Proof.
  intros Ht Hm Hd. pose proof (length_receipt_body minor r Ht) as Hb.
  destruct Ht as (?&?&?&?&?&?). cbv zeta.
  split_fields; [..|by apply slice_here
    |erewrite slice_skip by (first [exact Hb|lia]); by apply slice_all| | | | | |].
  all: unfold receipt_body; rewrite <- ?app_assoc; chunk.
Qed.

Lemma watermark_layout_read minor r d :
  WatermarkRecord_typed r -> is_u16 minor -> length d = 32%nat ->
  let buf := watermark_body minor r ++ d in
  slice 0 8 buf = WATERMARK_MAGIC /\ be_at 8 10 buf = FORMAT_MAJOR /\ be_at 10 12 buf = minor /\
  slice 12 16 buf = zeros 4 /\ slice 0 32 buf = watermark_body minor r /\ slice 32 64 buf = d /\
  be_at 16 24 buf = wm_highest_observed_bucket r /\ be_at 24 32 buf = wm_sequence r.
Proof.
  intros [? ?] Hm Hd. pose proof (length_watermark_body minor r) as Hb. cbv zeta.
  split_fields; [..|by apply slice_here
    |erewrite slice_skip by (first [exact Hb|lia]); by apply slice_all| |].
  all: unfold watermark_body; rewrite <- ?app_assoc; chunk.
Qed.

Section RecordCodecs.
Context `{Sha256Spec}.

Lemma length_receipt_digest m : length (receipt_digest m) = 32%nat.
Proof. apply sha256_length. Qed.
Lemma length_watermark_digest m : length (watermark_digest m) = 32%nat.
Proof. apply sha256_length. Qed.

Lemma CompactReceipt_encode_layout r :
  CompactReceipt_typed r ->
  CompactReceipt_encode r
  = receipt_body FORMAT_MINOR r ++ receipt_digest (receipt_body FORMAT_MINOR r).
Proof.
  intros Ht. pose proof (length_receipt_body FORMAT_MINOR r Ht).
  destruct Ht as (?&?&?&?&?&?). unfold CompactReceipt_encode, COMPACT_RECEIPT_SIZE. cbv zeta.
  change (zeros 128) with ([] ++ zeros 128).
  rewrite (write_next _ _ _ _ 120), (write_next _ _ _ _ 118), (write_next _ _ _ _ 116),
    (write_next _ _ _ _ 100), (write_next _ _ _ _ 68), (write_next _ _ _ _ 64),
    (write_next _ _ _ _ 48), (write_next _ _ _ _ 40), (write_next _ _ _ _ 32) by len.
  rewrite <- !app_assoc, app_nil_l. rewrite !(app_assoc _ _ (zeros 32)).
  fold (receipt_body FORMAT_MINOR r).
  replace (RECEIPT_MAGIC ++ _) with (receipt_body FORMAT_MINOR r ++ zeros 32)
    by (unfold receipt_body; by rewrite <- !app_assoc).
  rewrite slice_here, (write_next _ _ _ _ 0), app_nil_r by (rewrite ?length_receipt_digest; done).
  done.
Qed.

Lemma CompactReceipt_decode_iff buf r :
  CompactReceipt_decode buf = Ok r <->
  CompactReceipt_typed r /\
  exists minor, is_u16 minor /\ (STRICT_COMPACT_RECEIPT_MINOR <= minor)%Z /\
    buf = receipt_body minor r ++ receipt_digest (receipt_body minor r).
Proof.
  unfold CompactReceipt_decode, COMPACT_RECEIPT_SIZE. cbv zeta. split.
  - intros Hd. rsteps Hd. subst r. breflect. split; [unfold CompactReceipt_typed; field_ranges|].
    exists (be_at 10 12 buf). split; [be_range|]. split; [done|].
    assert (Hb : slice 0 96 buf = receipt_body (be_at 10 12 buf)
      (mkCompactReceipt (slice 12 28 buf) (slice 28 60 buf) (be_at 60 64 buf)
            (slice 64 80 buf) (be_at 80 88 buf) (be_at 88 96 buf))).
    { rewrite (slice_split 8), (slice_split 10 8), (slice_split 12 10), (slice_split 28 12),
        (slice_split 60 28), (slice_split 64 60), (slice_split 80 64), (slice_split 88 80) by lia.
      unfold receipt_body; cbn [cr_job_id cr_envelope_digest cr_final_attempt cr_lease_token
        cr_receipt_bucket_start_unix_ns cr_original_payload_length].
      chunks_match. }
    rewrite <- Hb. replace (receipt_digest _) with (slice 96 128 buf) by done.
    rewrite slice_cat by lia. symmetry. by apply slice_all.
  - intros (Ht & minor & Hm & Hs & ->).
    pose proof (length_receipt_digest (receipt_body minor r)) as Hg.
    destruct (receipt_layout_read minor r _ Ht Hm Hg) as (-> & -> & -> & -> & -> & -> & -> & -> & -> & -> & ->).
    rewrite length_app, length_receipt_body, Hg, !bool_decide_true by done. cbn.
    case_match; breflect; [lia|]. by destruct r.
Qed.

Lemma WatermarkRecord_encode_layout r :
  WatermarkRecord_encode r
  = watermark_body FORMAT_MINOR r ++ watermark_digest (watermark_body FORMAT_MINOR r).
Proof.
  pose proof (length_watermark_body FORMAT_MINOR r).
  unfold WatermarkRecord_encode, WATERMARK_SIZE. cbv zeta.
  change (zeros 64) with ([] ++ zeros 64).
  rewrite (write_next _ _ _ _ 56), (write_next _ _ _ _ 54), (write_next _ _ _ _ 52),
    (write_gap _ _ _ _ 4 40), (write_next _ _ _ _ 32) by len.
  rewrite <- !app_assoc, app_nil_l.
  replace (WATERMARK_MAGIC ++ _) with (watermark_body FORMAT_MINOR r ++ zeros 32)
    by (unfold watermark_body; by rewrite <- !app_assoc).
  rewrite slice_here, (write_next _ _ _ _ 0), app_nil_r by (rewrite ?length_watermark_digest; done).
  done.
Qed.

Lemma WatermarkRecord_decode_iff buf r :
  WatermarkRecord_decode buf = Ok r <->
  WatermarkRecord_typed r /\
  exists minor, is_u16 minor /\
    buf = watermark_body minor r ++ watermark_digest (watermark_body minor r).
Proof.
  unfold WatermarkRecord_decode, WATERMARK_SIZE. cbv zeta. split.
  - intros Hd. rsteps Hd. subst r. breflect. split; [unfold WatermarkRecord_typed; field_ranges|].
    exists (be_at 10 12 buf). split; [be_range|].
    assert (Hb : slice 0 32 buf = watermark_body (be_at 10 12 buf)
      (mkWatermarkRecord (be_at 16 24 buf) (be_at 24 32 buf))).
    { rewrite (slice_split 8), (slice_split 10 8), (slice_split 12 10), (slice_split 16 12),
        (slice_split 24 16) by lia.
      unfold watermark_body; cbn [wm_highest_observed_bucket wm_sequence]. chunks_match. }
    rewrite <- Hb. replace (watermark_digest _) with (slice 32 64 buf) by done.
    rewrite slice_cat by lia. symmetry. by apply slice_all.
  - intros (Ht & minor & Hm & ->).
    pose proof (length_watermark_digest (watermark_body minor r)) as Hg.
    destruct (watermark_layout_read minor r _ Ht Hm Hg) as (-> & -> & -> & E & -> & -> & -> & ->).
    rewrite length_app, length_watermark_body, Hg, (be_at_zeros _ _ _ _ E), !bool_decide_true
      by done. by destruct r.
Qed.

End RecordCodecs.

(** *** The envelope *)

Section EnvelopeCodec.
Context `{Sha256Spec}.

(** The bytes the envelope digest covers: the header with its digest field
    zeroed, then the extension. *)
Definition envelope_preimage (h : FixedHeader) (extension : bytes) : bytes :=
  (lit "SteadQ-1-envelope" ++ [x00]) ++ (header_prefix h ++ zeros 32) ++ extension.

Lemma envelope_digest_eq h ext :
  FixedHeader_typed h ->
  envelope_digest h ext =
    if (wrap32 (Z.of_nat (length ext)) =? fh_extension_header_length h)%Z
    then Some (sha256 (envelope_preimage h ext)) else None.
Proof.
  intros Ht. unfold envelope_digest. rewrite FixedHeader_encode_layout by done.
  destruct (_ =? _)%Z; [|done]. unfold envelope_preimage, header_body, write_at. do 3 f_equal.
  pose proof (length_header_prefix h Ht) as Hp.
  destruct Ht as (_&_&_&_&_&_&_&_&_&Hd).
  rewrite take_app_length', drop_ge by (rewrite ?length_app, ?length_zeros; lia).
  by rewrite app_nil_r.
Qed.

Lemma verify_envelope_digest_iff h ext :
  FixedHeader_typed h ->
  verify_envelope_digest h ext = true <->
  wrap32 (Z.of_nat (length ext)) = fh_extension_header_length h /\
  fh_envelope_digest h = sha256 (envelope_preimage h ext).
Proof.
  intros Ht. unfold verify_envelope_digest. rewrite envelope_digest_eq by done.
  destruct (_ =? _)%Z eqn:E; breflect; [|naive_solver].
  rewrite bool_decide_eq_true. naive_solver.
Qed.

Definition envelope_accepted (ve : ValidatedEnvelope) (verify_payload : bool) : Prop :=
  FixedHeader_valid (ve_header ve) /\
  Z.of_nat (length (ve_extension ve)) = fh_extension_header_length (ve_header ve) /\
  Z.of_nat (length (ve_payload ve)) = fh_payload_length (ve_header ve) /\
  fh_envelope_digest (ve_header ve) = sha256 (envelope_preimage (ve_header ve) (ve_extension ve)) /\
  (verify_payload = true ->
   payload_digest (ve_payload ve) = fh_payload_digest (ve_header ve)).

Definition envelope_bytes (ve : ValidatedEnvelope) : bytes :=
  header_body (ve_header ve) ++ ve_extension ve ++ ve_payload ve.

Lemma wrap32_ext h (ext : bytes) :
  FixedHeader_valid h -> Z.of_nat (length ext) = fh_extension_header_length h ->
  wrap32 (Z.of_nat (length ext)) = fh_extension_header_length h.
Proof.
  intros (Ht & _ & _ & _ & _ & He) ->. unfold wrap32. apply Z.mod_small.
  destruct Ht as (_ & [? ?] & _). unfold MAX_EXTENSION_HEADER_LENGTH in *. lia.
Qed.

Lemma usize_checked_add_ok a b c : usize_checked_add a b = Some c <-> (a + b <= u64_max)%Z /\ c = (a + b)%Z.
Proof. unfold usize_checked_add, u64_checked_add. case_decide; naive_solver. Qed.

Lemma usize_checked_add_fits a b : (a + b <= u64_max)%Z -> usize_checked_add a b = Some (a + b)%Z.
Proof. intros. by apply usize_checked_add_ok. Qed.

Lemma from_bytes_sound data vp ve :
  ValidatedEnvelope_from_bytes data vp = Ok ve ->
  envelope_accepted ve vp /\ data = envelope_bytes ve.
Proof.
  unfold ValidatedEnvelope_from_bytes. cbv zeta. intros Hd. rsteps Hd.
  apply map_err_ok_inv, FixedHeader_decode_iff in E as [Hv Hb].
  apply ok_or_ok_inv, usize_checked_add_ok in E0 as [_ ->].
  apply ok_or_ok_inv, usize_checked_add_ok in E1 as [_ ->].
  destruct (negb (_ =? _)%Z) eqn:G0; [by case_match|]. rsteps Hd.
  subst ve. breflect. destruct Hv as (Ht & Hv).
  apply verify_envelope_digest_iff in G1 as [_ Hg]; [|done].
  unfold FIXED_HEADER_SIZE in *.
  assert (0 <= fh_extension_header_length t)%Z by apply Ht.
  assert (0 <= fh_payload_length t)%Z by apply Ht.
  split; [split; [done|]|]; cbn [ve_header ve_extension ve_payload].
  - rewrite length_slice, length_drop by lia. split; [lia|]. split; [lia|]. split; [done|].
    intros ->. cbn in G2. by breflect.
  - unfold envelope_bytes. cbn [ve_header ve_extension ve_payload]. rewrite <- Hb, app_assoc, slice_cat by lia.
    unfold slice. by rewrite drop_0, Nat.sub_0_r, take_drop.
Qed.

Lemma from_bytes_complete vp ve :
  envelope_accepted ve vp -> ValidatedEnvelope_from_bytes (envelope_bytes ve) vp = Ok ve.
Proof.
  destruct ve as [h ext payload]. unfold envelope_accepted, envelope_bytes. cbn [ve_header ve_extension ve_payload].
  intros (Hv & He & Hp & Hg & Hpd). pose proof Hv as (Ht & Hf & Ha & Hm & Hpl & Hel).
  pose proof (length_header_body h Ht) as Hl.
  pose proof (wrap32_ext h ext Hv He) as Hw.
  unfold ValidatedEnvelope_from_bytes, FIXED_HEADER_SIZE. cbv zeta.
  rewrite !length_app, Hl. destruct (_ <? _)%nat eqn:G; breflect; [lia|]. clear G.
  rewrite slice_here by done.
  destruct (FixedHeader_decode_iff (header_body h) h) as [_ ->]; [|done]. cbn [map_err rbind].
  unfold MAX_PAYLOAD_LENGTH, MAX_EXTENSION_HEADER_LENGTH in *.
  assert (0 <= fh_payload_length h)%Z by apply Ht.
  assert (0 <= fh_extension_header_length h)%Z by apply Ht.
  change (Z.of_nat 128) with 128%Z.
  rewrite usize_checked_add_fits by (unfold u64_max; lia). cbn [ok_or rbind].
  rewrite usize_checked_add_fits by (unfold u64_max; lia). cbn [ok_or rbind].
  replace (Z.of_nat _) with (128 + fh_extension_header_length h + fh_payload_length h)%Z by lia.
  rewrite Z.eqb_refl. cbn [negb].
  replace (128 + Z.to_nat (fh_extension_header_length h))%nat with (128 + length ext)%nat by lia.
  rewrite (slice_skip 128), slice_here by lia.
  rewrite drop_app_ge, Hl by lia. replace (128 + length ext - 128)%nat with (length ext) by lia.
  rewrite drop_app_length.
  destruct (verify_envelope_digest_iff h ext Ht) as [_ ->]; [|done]. cbn [negb].
  destruct vp; cbn [andb]; [|done]. by rewrite bool_decide_true by auto.
Qed.

End EnvelopeCodec.

(** ** Properties *)

Lemma power_of_two_up_to_4096 n :
  (n <= 4096)%nat -> is_power_of_two (Z.of_nat n) = true ->
  exists k, (k <= 12)%nat /\ Z.of_nat n = (2 ^ Z.of_nat k)%Z.
Proof.
  intros Hn Hp.
  assert (Hall : forallb (fun m => negb (is_power_of_two (Z.of_nat m)) ||
    existsb (fun k => Z.of_nat m =? 2 ^ Z.of_nat k)%Z (seq 0 13)) (seq 0 4097) = true)
    by (vm_compute; reflexivity).
  rewrite forallb_forall in Hall. specialize (Hall n).
  rewrite Hp in Hall. cbn [negb orb] in Hall.
  apply existsb_exists in Hall as (k & Hk & E); [|apply in_seq; lia].
  apply in_seq in Hk. breflect. exists k. split; [lia|done].
Qed.

Lemma power_of_two_power k : (k <= 12)%nat -> is_power_of_two (2 ^ Z.of_nat k) = true.
Proof. intros Hk. do 13 (destruct k as [|k]; [done|]). lia. Qed.

(** The queue parameters [FormatRecord::new] promises to its clients. *)
Definition queue_parameters_ok (r : FormatRecord) : Prop :=
  (exists k, (k <= 12)%nat /\ fr_shard_count r = (2 ^ Z.of_nat k)%Z) /\
  (0 < fr_lease_bucket_width_ns r)%Z /\ (0 < fr_delayed_bucket_width_ns r)%Z /\
  (60000000000 <= fr_terminal_bucket_width_ns r <= 86400000000000)%Z /\
  (fr_delayed_bucket_width_ns r | fr_terminal_bucket_width_ns r)%Z /\
  (fr_max_payload_length r <= MAX_PAYLOAD_LENGTH)%Z.

Lemma check_format_parameters_iff r :
  FormatRecord_wf r ->
  check_format_parameters (fr_shard_count r) (fr_lease_bucket_width_ns r)
    (fr_delayed_bucket_width_ns r) (fr_terminal_bucket_width_ns r)
    (fr_max_payload_length r) = Ok tt <-> queue_parameters_ok r.
Proof.
  intros (Hq & Hc & Hs & Hl & Hdl & Ht & Hm). unfold check_format_parameters, queue_parameters_ok.
  split.
  - intros Hd. rsteps Hd. breflect. unfold is_u32, is_u64 in *.
    split; [|repeat split; try lia].
    + destruct (power_of_two_up_to_4096 (Z.to_nat (fr_shard_count r))) as (k & Hk & E);
        [lia|by rewrite Z2Nat.id by lia|]. exists k. lia.
    + by apply Z.mod_divide; [lia|].
  - intros ((k & Hk & Ek) & H1 & H2 & H3 & H4 & H5).
    apply Z.mod_divide in H4; [|lia]. rewrite H4, Ek, power_of_two_power by done.
    pose proof (Z.pow_le_mono_r 2 (Z.of_nat k) 12). pose proof (Z.pow_pos_nonneg 2 (Z.of_nat k)).
    change (2 ^ 12)%Z with 4096%Z in *.
    repeat (case_match; breflect; try lia); done.
Qed.

Section Properties.
Context `{Sha256Spec}.

(** C38: the FORMAT record codec is exact.  For a typed record, [new] accepts
    its parameters exactly when they satisfy the queue's parameter contract
    (power-of-two shard count up to 4096, nonzero widths, terminal width in
    range and divisible by the delayed width, bounded payload); and a buffer of
    the current minor version decodes to a record exactly when that record is
    well formed, satisfies the contract and encodes to that very buffer. *)
Theorem format_record_codec buf r :
  (FormatRecord_decode buf = Ok r /\ be_at 10 12 buf = FORMAT_MINOR) <->
  FormatRecord_wf r /\
  FormatRecord_new (fr_queue_id r) (fr_created_at_unix_ns r) (fr_shard_count r)
    (fr_lease_bucket_width_ns r) (fr_delayed_bucket_width_ns r)
    (fr_terminal_bucket_width_ns r) (fr_max_payload_length r) = Ok r /\
  queue_parameters_ok r /\ buf = FormatRecord_encode r.
Proof.
  rewrite FormatRecord_decode_iff. unfold FormatRecord_new. split.
  - intros [(Hwf & Hp & minor & Hm & ->) Hmin]. split; [done|]. rewrite Hp. cbn [rbind].
    split; [by destruct r|]. split; [by apply check_format_parameters_iff|].
    destruct (format_layout_read minor r (format_digest (format_body minor r)) Hwf Hm
      (sha256_length _)) as (_ & _ & E & _).
    rewrite E in Hmin. subst minor. symmetry. apply FormatRecord_encode_layout, Hwf.
  - intros (Hwf & _ & Hp & ->). rewrite FormatRecord_encode_layout by apply Hwf.
    assert (Hm : is_u16 FORMAT_MINOR) by done.
    split; [|by apply (format_layout_read FORMAT_MINOR r _ Hwf Hm (sha256_length _))].
    split; [done|]. split; [by apply check_format_parameters_iff|]. eauto.
Qed.

(** The job header codec is exact: the decoder accepts exactly the
    128-byte encodings of valid headers, and for a valid header the encoder
    yields those bytes for every extension of the announced length. *)
Theorem fixed_header_codec buf h :
  FixedHeader_decode buf = Ok h <->
  FixedHeader_valid h /\
  forall ext, Z.of_nat (length ext) = fh_extension_header_length h ->
    FixedHeader_encode h ext = Ok buf.
Proof.
  rewrite FixedHeader_decode_iff. split; intros [Hv Hb]; (split; [done|]).
  - intros ext He. rewrite FixedHeader_encode_layout by apply Hv.
    by rewrite (wrap32_ext h ext Hv He), Z.eqb_refl, Hb.
  - assert (He : Z.of_nat (length (zeros (Z.to_nat (fh_extension_header_length h))))
      = fh_extension_header_length h).
    { destruct Hv as ((_ & [? ?] & _) & _). rewrite length_zeros. lia. }
    specialize (Hb _ He). rewrite FixedHeader_encode_layout in Hb by apply Hv.
    rewrite (wrap32_ext h _ Hv He), Z.eqb_refl in Hb. by injection Hb.
Qed.

(** Compact receipts and wall watermarks round-trip, and their decoders
    accept nothing of the current minor version except encoder output. *)
Theorem compact_records_codec buf r w :
  ((CompactReceipt_decode buf = Ok r /\ be_at 10 12 buf = FORMAT_MINOR) <->
     CompactReceipt_typed r /\ buf = CompactReceipt_encode r) /\
  ((WatermarkRecord_decode buf = Ok w /\ be_at 10 12 buf = FORMAT_MINOR) <->
     WatermarkRecord_typed w /\ buf = WatermarkRecord_encode w).
Proof.
  assert (Hmi : is_u16 FORMAT_MINOR) by done.
  rewrite CompactReceipt_decode_iff, WatermarkRecord_decode_iff. split; split.
  - intros [(Ht & minor & Hm & Hs & ->) Hmin]. split; [done|].
    destruct (receipt_layout_read minor r _ Ht Hm (length_receipt_digest (receipt_body minor r)))
      as (_ & _ & E & _).
    rewrite E in Hmin. subst. by rewrite CompactReceipt_encode_layout.
  - intros [Ht ->]. rewrite CompactReceipt_encode_layout by done.
    split; [|by apply (receipt_layout_read _ r _ Ht Hmi (length_receipt_digest _))].
    split; [done|]. exists FORMAT_MINOR. done.
  - intros [(Ht & minor & Hm & ->) Hmin]. split; [done|].
    destruct (watermark_layout_read minor w _ Ht Hm (length_watermark_digest (watermark_body minor w)))
      as (_ & _ & E & _).
    rewrite E in Hmin. subst. by rewrite WatermarkRecord_encode_layout.
  - intros [Ht ->]. rewrite WatermarkRecord_encode_layout by done.
    split; [|by apply (watermark_layout_read _ w _ Ht Hmi (length_watermark_digest _))].
    split; [done|]. exists FORMAT_MINOR. done.
Qed.

(** C37: [ValidatedEnvelope::from_bytes] accepts exactly the concatenation of
    a valid header, an extension and a payload of the announced lengths whose
    envelope digest (and, when requested, payload digest) match. *)
Theorem envelope_accepts_exactly data verify_payload ve :
  ValidatedEnvelope_from_bytes data verify_payload = Ok ve <->
  envelope_accepted ve verify_payload /\ data = envelope_bytes ve.
Proof.
  split; [apply from_bytes_sound|]. intros [Ha ->]. by apply from_bytes_complete.
Qed.

(** A header with its envelope digest filled in. *)
Definition with_envelope_digest (h : FixedHeader) (d : bytes) : FixedHeader :=
  mkFixedHeader (fh_format_minor h) (fh_extension_header_length h) (fh_payload_length h)
    (fh_flags h) (fh_digest_algorithm h) (fh_job_id h) (fh_maximum_attempts h)
    (fh_created_at_unix_ns h) (fh_payload_digest h) d.

(** An envelope sealed the way the publisher seals it (compute the digest
    over the header whose digest field is arbitrary, store it, encode, append
    extension and payload) is accepted with both digests verified. *)
Theorem sealed_envelope_verifies h ext payload :
  FixedHeader_valid h -> Z.of_nat (length ext) = fh_extension_header_length h ->
  Z.of_nat (length payload) = fh_payload_length h ->
  payload_digest payload = fh_payload_digest h ->
  exists d hb, envelope_digest h ext = Some d /\
    FixedHeader_encode (with_envelope_digest h d) ext = Ok hb /\
    ValidatedEnvelope_from_bytes (hb ++ ext ++ payload) true
    = Ok (mkValidatedEnvelope (with_envelope_digest h d) ext payload).
Proof.
  intros Hv He Hp Hd. pose proof (wrap32_ext h ext Hv He) as Hw. pose proof Hv as (Ht & _).
  exists (sha256 (envelope_preimage h ext)).
  set (h' := with_envelope_digest h _).
  assert (Hv' : FixedHeader_valid h').
  { destruct Hv as ((?&?&?&?&?&?&?&?&?&?) & ?).
    split; [|done]. unfold FixedHeader_typed. cbn -[is_u16 is_u32 is_u64 is_u8 length].
    split_fields; first [done | apply sha256_length]. }
  exists (header_body h'). rewrite envelope_digest_eq by done.
  rewrite FixedHeader_encode_layout by apply Hv'. cbn [fh_extension_header_length h' with_envelope_digest].
  rewrite Hw, Z.eqb_refl. split; [done|]. split; [done|].
  exact (from_bytes_complete true (mkValidatedEnvelope h' ext payload)
    (conj Hv' (conj He (conj Hp (conj eq_refl (fun _ => Hd)))))).
Qed.

End Properties.

Definition sample_header : FixedHeader :=
  mkFixedHeader 1 2 3 0 1 (replicate 16 x2a) 5 1700000000000000000
    (@payload_digest checksum256 [x61; x62; x63]) (zeros 32).

Lemma sealed_envelope_verifies_witness :
  exists d hb, @envelope_digest checksum256 sample_header [xa1; x01] = Some d /\
    FixedHeader_encode (with_envelope_digest sample_header d) [xa1; x01] = Ok hb /\
    @ValidatedEnvelope_from_bytes checksum256 (hb ++ [xa1; x01] ++ [x61; x62; x63]) true
    = Ok (mkValidatedEnvelope (with_envelope_digest sample_header d) [xa1; x01] [x61; x62; x63]).
Proof.
  apply (@sealed_envelope_verifies checksum256 checksum256_spec); try reflexivity.
  repeat split; try reflexivity; unfold MAX_PAYLOAD_LENGTH, MAX_EXTENSION_HEADER_LENGTH; cbn; lia.
Defined.

Definition sample_format : FormatRecord :=
  mkFormatRecord (replicate 16 x42) 1700000000000000000 256 1000000000 1000000000 60000000000 1048576.

Lemma format_record_codec_witness :
  @FormatRecord_decode checksum256 (@FormatRecord_encode checksum256 sample_format) = Ok sample_format.
Proof.
  apply (proj2 (@format_record_codec checksum256 checksum256_spec
    (@FormatRecord_encode checksum256 sample_format) sample_format)).
  split; [repeat split; cbn; lia|]. split; [vm_compute; reflexivity|]. split; [|reflexivity].
  split; [exists 8%nat; split; [lia|reflexivity]|]. cbn. repeat split; try lia.
  - exists 60%Z. reflexivity.
  - unfold MAX_PAYLOAD_LENGTH. lia.
Defined.

Definition sample_receipt : CompactReceipt :=
  mkCompactReceipt (replicate 16 x2a) (replicate 32 x2b) 3 (replicate 16 x2c) 1700000000000000000 12.
Definition sample_watermark : WatermarkRecord := mkWatermarkRecord 1700000000 9.

Lemma compact_records_codec_witness :
  @CompactReceipt_decode checksum256 (@CompactReceipt_encode checksum256 sample_receipt)
  = Ok sample_receipt.
Proof.
  apply (proj1 (@compact_records_codec checksum256 checksum256_spec
    (@CompactReceipt_encode checksum256 sample_receipt) sample_receipt sample_watermark)).
  split; [repeat split; cbn; lia|reflexivity].
Defined.
