(* ===== verification/Cbor.v ===== *)
(** * steadq-format: the deterministic CBOR extension header

    Models [crates/steadq-format/src/cbor.rs]: the encoder, the validators and
    the recursive-descent parser with its position and nesting depth.  A Rust
    [String] is the byte list of its UTF-8 text; a [BTreeMap<String, _>] is an
    association list kept in strictly increasing key order. *)
From stdpp Require Import base numbers list option strings gmap sorting.
From Stdlib Require Import Strings.Byte ZArith.
From S2P Require Import Prelude Format.

(** ** Limits and protocol keys *)

Definition KEY_INITIAL_NOT_BEFORE : Z := 1.
Definition KEY_CONTENT_TYPE : Z := 2.
Definition KEY_METADATA : Z := 3.
Definition KEY_PRODUCER_ID : Z := 4.
Definition KEY_TRACE_CONTEXT : Z := 5.

Definition MAX_EXTENSION_SIZE : nat := Z.to_nat 65536.
Definition MAX_METADATA_ENTRIES : nat := 256.
Definition MAX_TEXT_VALUE : nat := Z.to_nat 4096.
Definition MAX_BYTES_VALUE : nat := Z.to_nat 4096.
Definition MAX_CONTENT_TYPE_LEN : nat := 255.
Definition MAX_PRODUCER_ID_LEN : nat := 255.
Definition MAX_TRACE_CONTEXT_LEN : nat := Z.to_nat 1024.

(** ** Data *)

Inductive MetadataValue : Type :=
| MBool (b : bool)
| MI64 (n : Z)
| MU64 (n : Z)
| MText (s : bytes)
| MBytes (b : bytes).

Record ExtensionHeader : Type := mkExtensionHeader {
  initial_not_before_unix_ns : option Z;
  content_type : bytes;
  metadata : list (bytes * MetadataValue);
  producer_id : option bytes;
  trace_context : option bytes
}.

(** [ExtensionHeader::default()] *)
Definition ExtensionHeader_default : ExtensionHeader :=
  mkExtensionHeader None [] [] None None.

Inductive CborError : Type :=
| TooLarge
| TooManyEntries
| ContentTypeTooLong
| ProducerIdTooLong
| TraceContextTooLong
| TextTooLong
| BytesTooLong
| InvalidKey (key : bytes)
| InvalidContentType
| ProducerIdNul
| Truncated
| InvalidMajorType (m : Z)
| InvalidSimpleValue (v : Z)
| UnexpectedTag (t : Z)
| IndefiniteLength
| FloatNotAllowed
| NullNotAllowed
| UndefinedNotAllowed
| NestingTooDeep
| UnknownKey (k : Z)
| DuplicateKey (k : Z)
| MissingContentType
| InvalidUtf8
| TrailingBytes
| IntOverflow.

Inductive CborItem : Type :=
| UInt (v : Z)
| NInt (v : Z)
| Bytes (b : bytes)
| Text (s : bytes)
| Bool (b : bool)
| Map (items : list (CborItem * CborItem)).

(** [BTreeMap::insert]: keep the keys strictly increasing, replace on equality. *)
Fixpoint btree_insert {V : Type} (k : bytes) (v : V) (m : list (bytes * V)) : list (bytes * V) :=
  match m with
  | [] => [(k, v)]
  | (k', v') :: m' =>
      if bytes_ltb k k' then (k, v) :: m
      else if bytes_ltb k' k then (k', v') :: btree_insert k v m'
      else (k, v) :: m'
  end.

(** [slice::sort_by] on a byte-string key: the stable insertion sort. *)
Fixpoint insert_by {A : Type} (f : A -> bytes) (x : A) (l : list A) : list A :=
  match l with
  | [] => [x]
  | y :: l' => if bytes_ltb (f y) (f x) then y :: insert_by f x l' else x :: l
  end.
Definition sort_by {A : Type} (f : A -> bytes) (l : list A) : list A := foldr (insert_by f) [] l.

(** ** Encoding *)

Definition encode_header (buf : bytes) (major value : Z) : bytes :=
  if (value <? 24)%Z then buf ++ [z2b (Z.lor (Z.shiftl major 5) value)]
  else if (value <? 256)%Z then buf ++ [z2b (Z.lor (Z.shiftl major 5) 24)] ++ [z2b value]
  else if (value <? 65536)%Z
  then buf ++ [z2b (Z.lor (Z.shiftl major 5) 25)] ++ to_be 2 value
  else if (value <? 4294967296)%Z
  then buf ++ [z2b (Z.lor (Z.shiftl major 5) 26)] ++ to_be 4 value
  else buf ++ [z2b (Z.lor (Z.shiftl major 5) 27)] ++ to_be 8 value.

Definition encode_text_string (buf s : bytes) : bytes :=
  encode_header buf 3 (Z.of_nat (length s)) ++ s.

Definition encode_byte_string (buf b : bytes) : bytes :=
  encode_header buf 2 (Z.of_nat (length b)) ++ b.

Definition is_ascii_lowercase (b : byte) : bool := (97 <=? b2z b)%Z && (b2z b <=? 122)%Z.
Definition is_ascii_digit (b : byte) : bool := (48 <=? b2z b)%Z && (b2z b <=? 57)%Z.

Definition validate_metadata_key (key : bytes) : result unit CborError :=
  match key with
  | [] => Err (InvalidKey key)
  | first :: rest =>
      if (64 <? length key)%nat then Err (InvalidKey key)
      else if negb (is_ascii_lowercase first) && negb (is_ascii_digit first)
      then Err (InvalidKey key)
      else if existsb (fun b => negb (is_ascii_lowercase b) && negb (is_ascii_digit b)
                && negb (bool_decide (b = "."%byte)) && negb (bool_decide (b = "_"%byte))
                && negb (bool_decide (b = "-"%byte))) rest
      then Err (InvalidKey key)
      else Ok tt
  end.

Definition validate_content_type (s : bytes) : result unit CborError :=
  if (length s =? 0)%nat || (MAX_CONTENT_TYPE_LEN <? length s)%nat then Err ContentTypeTooLong
  else if existsb (fun b => negb ((32 <=? b2z b)%Z && (b2z b <=? 126)%Z)) s
  then Err InvalidContentType
  else Ok tt.

Fixpoint validate_metadata (m : list (bytes * MetadataValue)) : result unit CborError :=
  match m with
  | [] => Ok tt
  | (k, v) :: m' =>
      let? _ := validate_metadata_key k in
      let? _ :=
        match v with
        | MText s => if (MAX_TEXT_VALUE <? length s)%nat then Err TextTooLong else Ok tt
        | MBytes b => if (MAX_BYTES_VALUE <? length b)%nat then Err BytesTooLong else Ok tt
        | _ => Ok tt
        end in
      validate_metadata m'
  end.

Definition ExtensionHeader_validate (h : ExtensionHeader) : result unit CborError :=
  let? _ := validate_content_type (content_type h) in
  if (MAX_METADATA_ENTRIES <? length (metadata h))%nat then Err TooManyEntries
  else
    let? _ := validate_metadata (metadata h) in
    let? _ :=
      match producer_id h with
      | Some pid =>
          if (MAX_PRODUCER_ID_LEN <? length pid)%nat then Err ProducerIdTooLong
          else if existsb (fun b => bool_decide (b = x00)) pid then Err ProducerIdNul
          else Ok tt
      | None => Ok tt
      end in
    match trace_context h with
    | Some tc => if (MAX_TRACE_CONTEXT_LEN <? length tc)%nat then Err TraceContextTooLong else Ok tt
    | None => Ok tt
    end.

Definition encode_metadata_value (buf : bytes) (v : MetadataValue) : bytes :=
  match v with
  | MBool false => buf ++ [xf4]
  | MBool true => buf ++ [xf5]
  | MU64 n => encode_header buf 0 n
  | MI64 n => if (0 <=? n)%Z then encode_header buf 0 (wrap64 n)
              else encode_header buf 1 (wrap64 (Z.lnot n))
  | MText s => encode_text_string buf s
  | MBytes b => encode_byte_string buf b
  end.

Fixpoint encode_metadata_entries (buf : bytes) (l : list (bytes * bytes * MetadataValue)) : bytes :=
  match l with
  | [] => buf
  | (_, k, v) :: l' => encode_metadata_entries (encode_metadata_value (encode_text_string buf k) v) l'
  end.

(** The keys of the metadata map paired with their encodings, in encoded-byte order. *)
Definition encoded_keys (m : list (bytes * MetadataValue)) : list (bytes * bytes * MetadataValue) :=
  sort_by (fun e => e.1.1) (map (fun kv => (encode_text_string [] kv.1, kv.1, kv.2)) m).

Definition ExtensionHeader_encode (h : ExtensionHeader) : result bytes CborError :=
  let? _ := ExtensionHeader_validate h in
  let entry_count :=
    (1 + (if initial_not_before_unix_ns h is Some _ then 1 else 0)
       + (if metadata h is [] then 0 else 1)
       + (if producer_id h is Some _ then 1 else 0)
       + (if trace_context h is Some _ then 1 else 0))%Z in
  let buf := encode_header [] 5 entry_count in
  let buf :=
    match initial_not_before_unix_ns h with
    | Some ns => encode_header (encode_header buf 0 KEY_INITIAL_NOT_BEFORE) 0 ns
    | None => buf
    end in
  let buf := encode_text_string (encode_header buf 0 KEY_CONTENT_TYPE) (content_type h) in
  let buf :=
    match metadata h with
    | [] => buf
    | m =>
        let buf := encode_header buf 0 KEY_METADATA in
        let buf := encode_header buf 5 (Z.of_nat (length m)) in
        encode_metadata_entries buf (encoded_keys m)
    end in
  let buf :=
    match producer_id h with
    | Some pid => encode_text_string (encode_header buf 0 KEY_PRODUCER_ID) pid
    | None => buf
    end in
  let buf :=
    match trace_context h with
    | Some tc => encode_byte_string (encode_header buf 0 KEY_TRACE_CONTEXT) tc
    | None => buf
    end in
  if (MAX_EXTENSION_SIZE <? length buf)%nat then Err TooLarge else Ok buf.

(** ** UTF-8 validation ([std::str::from_utf8]) *)

Definition in_range (lo hi : Z) (b : byte) : bool := (lo <=? b2z b)%Z && (b2z b <=? hi)%Z.
Definition is_continuation (b : byte) : bool := in_range 128 191 b.

Fixpoint utf8_valid (s : bytes) : bool :=
  match s with
  | [] => true
  | b0 :: s0 =>
      if in_range 0 127 b0 then utf8_valid s0
      else
        match s0 with
        | [] => false
        | b1 :: s1 =>
            if in_range 194 223 b0 then is_continuation b1 && utf8_valid s1
            else
              match s1 with
              | [] => false
              | b2 :: s2 =>
                  if in_range 224 239 b0 then
                    (if in_range 224 224 b0 then in_range 160 191 b1
                     else if in_range 237 237 b0 then in_range 128 159 b1
                     else is_continuation b1)
                    && is_continuation b2 && utf8_valid s2
                  else
                    match s2 with
                    | [] => false
                    | b3 :: s3 =>
                        in_range 240 244 b0
                        && (if in_range 240 240 b0 then in_range 144 191 b1
                            else if in_range 244 244 b0 then in_range 128 143 b1
                            else is_continuation b1)
                        && is_continuation b2 && is_continuation b3 && utf8_valid s3
                    end
              end
        end
  end.

(** ** The parser *)

Record CborParser : Type := mkCborParser {
  data : bytes;
  pos : nat;
  depth : Z
}.

Definition at_pos (p : CborParser) (n : nat) : CborParser := mkCborParser (data p) n (depth p).
Definition at_depth (p : CborParser) (d : Z) : CborParser := mkCborParser (data p) (pos p) d.

(** [self.pos.checked_add(n)] *)
Definition pos_checked_add (p : CborParser) (n : Z) : result Z CborError :=
  ok_or (usize_checked_add (Z.of_nat (pos p)) n) IntOverflow.

Definition read_byte (p : CborParser) : result (byte * CborParser) CborError :=
  if (length (data p) <=? pos p)%nat then Err Truncated
  else Ok (data p !!! pos p, at_pos p (S (pos p))).

(** The common body of the multi-byte arms of [read_uint]: [n] bytes follow,
    and a value below [minimum] had a shorter encoding. *)
Definition read_uint_be (p : CborParser) (n : nat) (minimum : Z)
  : result (Z * CborParser) CborError :=
  let? e := pos_checked_add p (Z.of_nat n) in
  if (Z.of_nat (length (data p)) <? e)%Z then Err Truncated
  else
    let e := Z.to_nat e in
    let v := be_at (e - n) e (data p) in
    if (v <? minimum)%Z then Err IntOverflow else Ok (v, at_pos p e).

Definition read_uint (additional : Z) (p : CborParser) : result (Z * CborParser) CborError :=
  if (additional <=? 23)%Z then Ok (additional, p)
  else if (additional =? 24)%Z then read_uint_be p 1 24
  else if (additional =? 25)%Z then read_uint_be p 2 256
  else if (additional =? 26)%Z then read_uint_be p 4 65536
  else if (additional =? 27)%Z then read_uint_be p 8 4294967296
  else if (additional <=? 30)%Z then Err (InvalidMajorType additional)
  else if (additional =? 31)%Z then Err IndefiniteLength
  else Err (InvalidMajorType additional).

(** The [len] bytes at the position, and the position after them. *)
Definition read_span (len : Z) (p : CborParser) : result (bytes * nat) CborError :=
  let? e := pos_checked_add p len in
  if (Z.of_nat (length (data p)) <? e)%Z then Err Truncated
  else Ok (slice (pos p) (Z.to_nat e) (data p), Z.to_nat e).

(** [for _ in 0..len { key = read_item; val = read_item; push }] *)
Fixpoint read_pairs (item : CborParser -> result (CborItem * CborParser) CborError)
    (n : nat) (p : CborParser) : result (list (CborItem * CborItem) * CborParser) CborError :=
  match n with
  | O => Ok ([], p)
  | S n' =>
      let? (key, p) := item p in
      let? (val, p) := item p in
      let? (items, p) := read_pairs item n' p in
      Ok ((key, val) :: items, p)
  end.

(** [read_item]; the fuel bounds the nesting of maps and four levels are
    enough, because the depth check rejects anything deeper (see
    [read_item_fuel]). *)
Fixpoint read_item (fuel : nat) (p : CborParser) : result (CborItem * CborParser) CborError :=
  match fuel with
  | O => Err NestingTooDeep
  | S fuel' =>
      if (2 <? depth p)%Z then Err NestingTooDeep
      else
        let? (initial, p) := read_byte p in
        let major := Z.shiftr (b2z initial) 5 in
        let additional := Z.land (b2z initial) 31 in
        if (major =? 0)%Z then
          let? (v, p) := read_uint additional p in Ok (UInt v, p)
        else if (major =? 1)%Z then
          let? (v, p) := read_uint additional p in
          if (i64_max <? v)%Z then Err IntOverflow else Ok (NInt v, p)
        else if (major =? 2)%Z then
          let? (len, p) := read_uint additional p in
          let? (b, e) := read_span len p in
          Ok (Bytes b, at_pos p e)
        else if (major =? 3)%Z then
          let? (len, p) := read_uint additional p in
          let? (s, e) := read_span len p in
          if utf8_valid s then Ok (Text s, at_pos p e) else Err InvalidUtf8
        else if (major =? 5)%Z then
          let p := at_depth p (depth p + 1) in
          let? (len, p) := read_uint additional p in
          let remaining := (length (data p) - pos p)%nat in
          let max_possible := (remaining / 2)%nat in
          if (Z.of_nat max_possible <? len)%Z then Err Truncated
          else if (Z.of_nat MAX_METADATA_ENTRIES * 8 <? len)%Z then Err TooManyEntries
          else
            let? (items, p) := read_pairs (read_item fuel') (Z.to_nat len) p in
            Ok (Map items, at_depth p (depth p - 1))
        else if (major =? 6)%Z then Err (UnexpectedTag additional)
        else if (major =? 7)%Z then
          if (additional =? 20)%Z then Ok (Bool false, p)
          else if (additional =? 21)%Z then Ok (Bool true, p)
          else if (additional =? 22)%Z then Err NullNotAllowed
          else if (additional =? 23)%Z then Err UndefinedNotAllowed
          else if (additional =? 24)%Z then
            let? (sv, _) := read_byte p in Err (InvalidSimpleValue (b2z sv))
          else if (25 <=? additional)%Z && (additional <=? 27)%Z then Err FloatNotAllowed
          else Err (InvalidSimpleValue additional)
        else Err (InvalidMajorType major)
  end.

(** ** Interpreting the parsed item *)

(** The loop that collects the metadata keys, with [seen_meta_keys]. *)
Fixpoint collect_meta_items (seen : gset bytes) (m : list (CborItem * CborItem))
  : result (list (bytes * CborItem)) CborError :=
  match m with
  | [] => Ok []
  | (mk_item, mv_item) :: m' =>
      let? mk := match mk_item with Text s => Ok s | _ => Err (InvalidKey (lit "non-string")) end in
      let? _ := validate_metadata_key mk in
      if bool_decide (mk ∈ seen) then Err (InvalidKey (lit "duplicate metadata key: " ++ mk))
      else
        let? rest := collect_meta_items ({[mk]} ∪ seen) m' in
        Ok ((mk, mv_item) :: rest)
  end.

(** The loop over [prev_key_bytes]. *)
Fixpoint check_key_order (prev : option bytes) (l : list (bytes * CborItem))
  : result unit CborError :=
  match l with
  | [] => Ok tt
  | (mk, _) :: l' =>
      let key_buf := encode_text_string [] mk in
      if match prev with Some pk => bytes_leb key_buf pk | None => false end
      then Err (InvalidKey (lit "metadata keys not in canonical order: " ++ mk))
      else check_key_order (Some key_buf) l'
  end.

Definition metadata_value (mv_item : CborItem) : result MetadataValue CborError :=
  match mv_item with
  | Bool b => Ok (MBool b)
  | UInt v => Ok (MU64 v)
  | NInt v => if (i64_max <? v)%Z then Err IntOverflow else Ok (MI64 (-1 - v))
  | Text s => if (MAX_TEXT_VALUE <? length s)%nat then Err TextTooLong else Ok (MText s)
  | Bytes b => if (MAX_BYTES_VALUE <? length b)%nat then Err BytesTooLong else Ok (MBytes b)
  | Map _ => Err (InvalidMajorType 5)
  end.

(** The loop that inserts into [ext.metadata]. *)
Fixpoint insert_meta_items (m : list (bytes * MetadataValue)) (l : list (bytes * CborItem))
  : result (list (bytes * MetadataValue)) CborError :=
  match l with
  | [] => Ok m
  | (mk, mv_item) :: l' =>
      let? mv := metadata_value mv_item in
      insert_meta_items (btree_insert mk mv m) l'
  end.

Definition decode_metadata (ext_metadata : list (bytes * MetadataValue))
    (meta_map : list (CborItem * CborItem)) : result (list (bytes * MetadataValue)) CborError :=
  if (MAX_METADATA_ENTRIES <? length meta_map)%nat then Err TooManyEntries
  else
    let? meta_items := collect_meta_items ∅ meta_map in
    let? _ := check_key_order None meta_items in
    insert_meta_items ext_metadata meta_items.

Definition set_initial_not_before (ext : ExtensionHeader) (ns : Z) : ExtensionHeader :=
  mkExtensionHeader (Some ns) (content_type ext) (metadata ext) (producer_id ext) (trace_context ext).
Definition set_content_type (ext : ExtensionHeader) (ct : bytes) : ExtensionHeader :=
  mkExtensionHeader (initial_not_before_unix_ns ext) ct (metadata ext) (producer_id ext) (trace_context ext).
Definition set_metadata (ext : ExtensionHeader) (m : list (bytes * MetadataValue)) : ExtensionHeader :=
  mkExtensionHeader (initial_not_before_unix_ns ext) (content_type ext) m (producer_id ext) (trace_context ext).
Definition set_producer_id (ext : ExtensionHeader) (pid : bytes) : ExtensionHeader :=
  mkExtensionHeader (initial_not_before_unix_ns ext) (content_type ext) (metadata ext) (Some pid) (trace_context ext).
Definition set_trace_context (ext : ExtensionHeader) (tc : bytes) : ExtensionHeader :=
  mkExtensionHeader (initial_not_before_unix_ns ext) (content_type ext) (metadata ext) (producer_id ext) (Some tc).

(** The [match key] of [decode_extension]. *)
Definition decode_entry (ext : ExtensionHeader) (key : Z) (val_item : CborItem)
  : result ExtensionHeader CborError :=
  if (key =? 1)%Z then
    match val_item with UInt v => Ok (set_initial_not_before ext v) | _ => Err (InvalidMajorType 0) end
  else if (key =? 2)%Z then
    match val_item with
    | Text ct => let? _ := validate_content_type ct in Ok (set_content_type ext ct)
    | _ => Err (InvalidMajorType 0)
    end
  else if (key =? 3)%Z then
    match val_item with
    | Map meta_map =>
        let? m := decode_metadata (metadata ext) meta_map in Ok (set_metadata ext m)
    | _ => Err (InvalidMajorType 0)
    end
  else if (key =? 4)%Z then
    match val_item with
    | Text pid =>
        if existsb (fun b => bool_decide (b = x00)) pid then Err ProducerIdNul
        else if (MAX_PRODUCER_ID_LEN <? length pid)%nat then Err ProducerIdTooLong
        else Ok (set_producer_id ext pid)
    | _ => Err (InvalidMajorType 0)
    end
  else if (key =? 5)%Z then
    match val_item with
    | Bytes tc =>
        if (MAX_TRACE_CONTEXT_LEN <? length tc)%nat then Err TraceContextTooLong
        else Ok (set_trace_context ext tc)
    | _ => Err (InvalidMajorType 0)
    end
  else Err (UnknownKey key).

(** The [for (key_item, val_item) in map_items] loop. *)
Fixpoint decode_entries (ext : ExtensionHeader) (seen_keys : gset Z) (prev_key : option Z)
    (map_items : list (CborItem * CborItem)) : result ExtensionHeader CborError :=
  match map_items with
  | [] => Ok ext
  | (key_item, val_item) :: rest =>
      let? key := match key_item with UInt k => Ok k | _ => Err (UnknownKey 0) end in
      if bool_decide (key ∈ seen_keys) then Err (DuplicateKey key)
      else if match prev_key with Some pk => (key <? pk)%Z | None => false end
      then Err (DuplicateKey key)
      else
        let? ext := decode_entry ext key val_item in
        decode_entries ext ({[key]} ∪ seen_keys) (Some key) rest
  end.

Definition decode_extension (p : CborParser) : result (ExtensionHeader * CborParser) CborError :=
  let? (top, p) := read_item 4 p in
  let? map_items := match top with Map m => Ok m | _ => Err (InvalidMajorType 0) end in
  let? ext := decode_entries ExtensionHeader_default ∅ None map_items in
  if (length (content_type ext) =? 0)%nat then Err MissingContentType else Ok (ext, p).

Definition ExtensionHeader_decode (input : bytes) : result ExtensionHeader CborError :=
  if (MAX_EXTENSION_SIZE <? length input)%nat then Err TooLarge
  else
    let parser := mkCborParser input 0 0 in
    let? (result, parser) := decode_extension parser in
    if negb (pos parser =? length input)%nat then Err TrailingBytes else Ok result.

(** [ValidatedEnvelope::decode_extension] *)
Definition ValidatedEnvelope_decode_extension (ve : ValidatedEnvelope)
  : result ExtensionHeader CborError := ExtensionHeader_decode (ve_extension ve).

Definition sample_extension : ExtensionHeader :=
  mkExtensionHeader (Some 1700000000000000000%Z) (lit "application/json")
    [(lit "aa", MI64 (-5)); (lit "ab", MText (lit "hi")); (lit "b", MU64 300);
     (lit "c", MBool true)]
    (Some (lit "producer")) (Some [x00; xff]).

Example sample_round_trip :
  (let? b := ExtensionHeader_encode sample_extension in ExtensionHeader_decode b)
  = Ok sample_extension.
Proof. vm_compute. reflexivity. Qed.

(** ** The reference encoding of items *)

(** RFC 8949 core deterministic encoding of the item grammar the parser
    accepts: shortest heads, definite lengths. *)
Fixpoint enc_item (it : CborItem) : bytes :=
  match it with
  | UInt v => encode_header [] 0 v
  | NInt v => encode_header [] 1 v
  | Bytes b => encode_byte_string [] b
  | Text s => encode_text_string [] s
  | Bool b => [if b then xf5 else xf4]
  | Map l =>
      encode_header [] 5 (Z.of_nat (length l))
      ++ flat_map (fun kv => enc_item kv.1 ++ enc_item kv.2) l
  end.
Definition enc_pairs (l : list (CborItem * CborItem)) : bytes :=
  flat_map (fun kv => enc_item kv.1 ++ enc_item kv.2) l.

(** Items within the machine ranges, with at most [levels] nested levels. *)
Fixpoint item_ok (levels : nat) (it : CborItem) : Prop :=
  match levels with
  | O => False
  | S levels' =>
      match it with
      | UInt v => is_u64 v
      | NInt v => (0 <= v <= i64_max)%Z
      | Bytes _ => True
      | Text s => utf8_valid s = true
      | Bool _ => True
      | Map l =>
          (length l <= MAX_METADATA_ENTRIES * 8)%nat /\
          Forall (fun kv => item_ok levels' kv.1 /\ item_ok levels' kv.2) l
      end
  end.

Lemma encode_header_app buf major v : encode_header buf major v = buf ++ encode_header [] major v.
Proof. unfold encode_header. by repeat case_match. Qed.

Lemma encode_text_string_app buf s : encode_text_string buf s = buf ++ encode_text_string [] s.
Proof. unfold encode_text_string. by rewrite encode_header_app, <- app_assoc. Qed.

Lemma encode_byte_string_app buf s : encode_byte_string buf s = buf ++ encode_byte_string [] s.
Proof. unfold encode_byte_string. by rewrite encode_header_app, <- app_assoc. Qed.

(** The head of an item: additional information and following bytes. *)
Definition head_info (v : Z) : Z :=
  if (v <? 24)%Z then v else if (v <? 256)%Z then 24 else if (v <? 65536)%Z then 25
  else if (v <? 4294967296)%Z then 26 else 27.
Definition head_tail (v : Z) : bytes :=
  if (v <? 24)%Z then [] else if (v <? 256)%Z then to_be 1 v else if (v <? 65536)%Z then to_be 2 v
  else if (v <? 4294967296)%Z then to_be 4 v else to_be 8 v.

Lemma encode_header_split major v :
  encode_header [] major v = z2b (Z.lor (Z.shiftl major 5) (head_info v)) :: head_tail v.
Proof. unfold encode_header, head_info, head_tail. by repeat case_match. Qed.

Lemma head_info_range v : is_u64 v -> (0 <= head_info v <= 27)%Z.
Proof. unfold is_u64, head_info. intros. repeat case_match; breflect; lia. Qed.

Lemma initial_byte_iff b m a :
  (0 <= m <= 7)%Z -> (0 <= a <= 31)%Z ->
  b = z2b (Z.lor (Z.shiftl m 5) a) <-> Z.shiftr (b2z b) 5 = m /\ Z.land (b2z b) 31 = a.
Proof.
  intros Hm Ha. split.
  - intros ->.
    assert (Hall : forallb (fun m => forallb (fun a =>
      let b := b2z (z2b (Z.lor (Z.shiftl (Z.of_nat m) 5) (Z.of_nat a))) in
      (Z.shiftr b 5 =? Z.of_nat m)%Z && (Z.land b 31 =? Z.of_nat a)%Z) (seq 0 32)) (seq 0 8) = true)
      by (vm_compute; reflexivity).
    rewrite forallb_forall in Hall. specialize (Hall (Z.to_nat m)).
    assert (Hm' : In (Z.to_nat m) (seq 0 8)) by (apply in_seq; lia).
    specialize (Hall Hm'). rewrite forallb_forall in Hall. specialize (Hall (Z.to_nat a)).
    assert (Ha' : In (Z.to_nat a) (seq 0 32)) by (apply in_seq; lia).
    specialize (Hall Ha'). cbv zeta in Hall. rewrite !Z2Nat.id in Hall by lia. by breflect.
  - intros [<- <-]. by destruct b.
Qed.

Lemma major_range b : (0 <= Z.shiftr (b2z b) 5 <= 7)%Z.
Proof. by destruct b. Qed.
Lemma info_range b : (0 <= Z.land (b2z b) 31 <= 31)%Z.
Proof. by destruct b. Qed.

(** ** Consumption: what a parser run reads *)

Definition rest (p : CborParser) : bytes := drop (pos p) (data p).
Definition advance (p : CborParser) (n : nat) : CborParser := at_pos p (pos p + n).
Definition parser_ok (p : CborParser) : Prop :=
  (pos p <= length (data p) <= MAX_EXTENSION_SIZE)%nat.
(** [p'] is [p] after reading exactly the bytes [enc]. *)
Definition consumes (p : CborParser) (enc : bytes) (p' : CborParser) : Prop :=
  p' = advance p (length enc) /\ exists tail, rest p = enc ++ tail.

Lemma advance_0 p : advance p 0 = p.
Proof. destruct p. unfold advance, at_pos. cbn. by rewrite Nat.add_0_r. Qed.

Lemma rest_advance p enc tail : rest p = enc ++ tail -> rest (advance p (length enc)) = tail.
Proof.
  unfold rest, advance. cbn. intros E. rewrite <- drop_drop, E. apply drop_app_length.
Qed.

Lemma consumes_nil p p' : consumes p [] p' <-> p' = p.
Proof.
  unfold consumes. cbn [length]. rewrite advance_0. split; [by intros [-> _]|].
  intros ->. split; [done|]. by exists (rest p).
Qed.

Lemma consumes_app p a b p' :
  consumes p (a ++ b) p' <-> exists p1, consumes p a p1 /\ consumes p1 b p'.
Proof.
  unfold consumes. split.
  - intros [-> [tail E]]. rewrite <- app_assoc in E. exists (advance p (length a)).
    split; [by eauto|]. split; [|exists tail; by eapply rest_advance].
    unfold advance, at_pos. cbn. rewrite length_app. f_equal. lia.
  - intros (p1 & [-> [t1 E1]] & [-> [t2 E2]]). rewrite (rest_advance _ _ _ E1) in E2. subst t1.
    split; [|exists t2; by rewrite E1, app_assoc].
    unfold advance, at_pos. cbn. rewrite length_app. f_equal. lia.
Qed.

Lemma consumes_length p enc p' :
  consumes p enc p' -> parser_ok p -> (pos p + length enc <= length (data p))%nat.
Proof.
  intros [_ [tail E]] Hok. apply (f_equal length) in E. unfold rest in E.
  rewrite length_drop, length_app in E. unfold parser_ok in Hok. lia.
Qed.

Lemma consumes_ok p enc p' : consumes p enc p' -> parser_ok p -> parser_ok p'.
Proof.
  intros Hc Hok. pose proof (consumes_length _ _ _ Hc Hok). destruct Hc as [-> _].
  unfold parser_ok in *. cbn. lia.
Qed.

Lemma consumes_depth p enc p' : consumes p enc p' -> depth p' = depth p.
Proof. by intros [-> _]. Qed.

Lemma consumes_slice p enc p' :
  parser_ok p ->
  consumes p enc p' <->
  p' = advance p (length enc) /\ (pos p + length enc <= length (data p))%nat /\
  slice (pos p) (pos p + length enc) (data p) = enc.
Proof.
  intros Hok. split.
  - intros Hc. pose proof (consumes_length _ _ _ Hc Hok). destruct Hc as [-> [tail E]].
    split; [done|]. split; [done|]. unfold slice. fold (rest p). rewrite E.
    replace (pos p + length enc - pos p)%nat with (length enc) by lia. apply take_app_length.
  - intros (-> & Hl & E). split; [done|]. exists (drop (length enc) (rest p)).
    rewrite <- E at 1. unfold slice. replace (pos p + length enc - pos p)%nat with (length enc) by lia.
    fold (rest p). by rewrite take_drop.
Qed.

Lemma pos_checked_add_small p n :
  parser_ok p -> (0 <= n <= u64_max - 65536)%Z ->
  pos_checked_add p n = Ok (Z.of_nat (pos p) + n)%Z.
Proof.
  unfold parser_ok, MAX_EXTENSION_SIZE, pos_checked_add, usize_checked_add, u64_checked_add.
  intros Hok Hn. by rewrite decide_True by lia.
Qed.

Lemma read_byte_iff p b p' :
  parser_ok p -> read_byte p = Ok (b, p') <-> consumes p [b] p'.
Proof.
  intros Hok. rewrite consumes_slice by done. unfold read_byte. cbn [length].
  replace (pos p + 1)%nat with (S (pos p)) by lia.
  destruct (_ <=? _)%nat eqn:G; [apply Nat.leb_le in G|apply Nat.leb_gt in G].
  - split; [done|]. intros (_ & ? & _). lia.
  - rewrite lookup_slice by lia. unfold advance. rewrite Nat.add_1_r. split.
    + intros [= <- <-]. split; [done|]. split; [lia|done].
    + intros (-> & _ & [= <-]). done.
Qed.

Lemma read_uint_be_iff p n minimum v p' :
  parser_ok p -> (n <= 8)%nat ->
  read_uint_be p n minimum = Ok (v, p') <->
  (minimum <= v)%Z /\ (0 <= v < 256 ^ Z.of_nat n)%Z /\ consumes p (to_be n v) p'.
Proof.
  intros Hok Hn. rewrite consumes_slice by done. unfold read_uint_be.
  rewrite pos_checked_add_small by (first [done | unfold u64_max; lia]). cbn [rbind]. rewrite length_to_be.
  replace (Z.to_nat (Z.of_nat (pos p) + Z.of_nat n)) with (pos p + n)%nat by lia.
  replace (pos p + n - n)%nat with (pos p) by lia.
  destruct (_ <? _)%Z eqn:G; breflect; [split; [done|lia]|].
  destruct (be_at _ _ _ <? _)%Z eqn:G2; breflect.
  - split; [done|]. intros (Hmin & Hv & _ & _ & E). unfold be_at in G2. rewrite E in G2.
    rewrite from_be_to_be in G2 by done. lia.
  - split.
    + intros [= <- <-]. split; [done|].
      pose proof (be_at_bound (pos p) (pos p + n) (data p) ltac:(lia)) as Hb.
      replace (pos p + n - pos p)%nat with n in Hb by lia.
      split; [done|]. split; [done|]. split; [lia|]. apply slice_of_be; [lia|lia|done].
    + intros (Hmin & Hv & -> & _ & E). unfold be_at. by rewrite E, from_be_to_be.
Qed.

(** [read_uint] accepts exactly the shortest form of a [u64]. *)
Lemma read_uint_iff p a v p' :
  parser_ok p -> (0 <= a <= 31)%Z ->
  read_uint a p = Ok (v, p') <-> is_u64 v /\ a = head_info v /\ consumes p (head_tail v) p'.
Proof.
  intros Hok Ha. unfold read_uint, is_u64.
  assert (Hinfo : forall c lo hi n, (n <= 8)%nat ->
    (hi = 256 ^ Z.of_nat n)%Z -> (hi <= 2 ^ 64)%Z -> (0 <= lo)%Z ->
    (forall w, (lo <= w < hi)%Z -> head_info w = c /\ head_tail w = to_be n w) ->
    (forall w, (0 <= w < 2 ^ 64)%Z -> head_info w = c -> (lo <= w < hi)%Z) ->
    read_uint_be p n lo = Ok (v, p') <->
    (0 <= v < 2 ^ 64)%Z /\ c = head_info v /\ consumes p (head_tail v) p').
  { intros c lo hi n Hn -> Hhi Hlo H1 H2. rewrite read_uint_be_iff by done. split.
    - intros (Hmin & Hv & Hc). destruct (H1 v) as [-> ->]; [lia|]. split; [lia|done].
    - intros (Hv & Hcv & Hc). pose proof (H2 v Hv (eq_sym Hcv)).
      destruct (H1 v) as [_ E]; [lia|]. rewrite E in Hc. split; [lia|]. split; [lia|done]. }
  assert (Hcase : forall w, (0 <= w < 2 ^ 64)%Z -> (head_info w <= 27)%Z)
    by (intros w Hw; pose proof (head_info_range w); unfold is_u64 in *; lia).
  destruct (a <=? 23)%Z eqn:E0; breflect.
  { split.
    - intros [= -> ->]. unfold head_info, head_tail. rewrite (proj2 (Z.ltb_lt v 24)) by lia.
      split; [lia|]. split; [done|]. by apply consumes_nil.
    - intros (Hv & Hi & Hc). unfold head_info, head_tail in *. repeat case_match; breflect; try lia.
      apply consumes_nil in Hc. by subst. }
  destruct (a =? 24)%Z eqn:E1; [|destruct (a =? 25)%Z eqn:E2; [|destruct (a =? 26)%Z eqn:E3;
    [|destruct (a =? 27)%Z eqn:E4]]]; breflect; subst.
  1: apply (Hinfo 24%Z 24%Z (2 ^ 8)%Z 1%nat); [lia|done|done|lia|..].
  3: apply (Hinfo 25%Z 256%Z (2 ^ 16)%Z 2%nat); [lia|done|done|lia|..].
  5: apply (Hinfo 26%Z 65536%Z (2 ^ 32)%Z 4%nat); [lia|done|done|lia|..].
  7: apply (Hinfo 27%Z 4294967296%Z (2 ^ 64)%Z 8%nat); [lia|done|done|lia|..].
  1-8: intros w Hw; unfold head_info, head_tail; repeat case_match; breflect; by first [lia | done | intros; lia].
  assert (E : forall e : CborError, Err e = Ok (v, p') <-> (0 <= v < 2 ^ 64)%Z /\ a = head_info v /\
    consumes p (head_tail v) p').
  { intros e. split; [done|]. intros (Hv & -> & _). specialize (Hcase v Hv). lia. }
  repeat case_match; apply E.
Qed.

Lemma read_span_iff p l b e :
  parser_ok p -> (0 <= l)%Z ->
  read_span l p = Ok (b, e) <->
  Z.of_nat (length b) = l /\ e = (pos p + length b)%nat /\ consumes p b (at_pos p e).
Proof.
  intros Hok Hl. unfold read_span, pos_checked_add, usize_checked_add, u64_checked_add.
  rewrite consumes_slice by done.
  case_decide as Hd; cbn [ok_or rbind].
  - destruct (_ <? _)%Z eqn:G; breflect; [split; [done|]; lia|]. split.
    + intros [= <- <-]. rewrite length_slice by lia. split; [lia|]. split; [lia|].
      split; [by unfold advance; f_equal; lia|]. split; [lia|]. f_equal. lia.
    + intros (<- & -> & _ & _ & E).
      replace (Z.to_nat (Z.of_nat (pos p) + Z.of_nat (length b))) with (pos p + length b)%nat by lia.
      by rewrite E.
  - split; [done|]. intros (<- & -> & _ & Hle & _).
    unfold parser_ok, MAX_EXTENSION_SIZE, u64_max in *. lia.
Qed.

(** ** The parser reads exactly the reference encoding *)

Lemma enc_item_nonempty it : (1 <= length (enc_item it))%nat.
Proof.
  destruct it; cbn [enc_item]; unfold encode_byte_string, encode_text_string;
    rewrite ?encode_header_split; cbn; lia.
Qed.

Lemma enc_pairs_length l : (2 * length l <= length (enc_pairs l))%nat.
Proof.
  induction l as [|[k v] l IH]; [done|]. cbn. fold (enc_pairs l). rewrite !length_app.
  pose proof (enc_item_nonempty k). pose proof (enc_item_nonempty v). lia.
Qed.

(** One leading byte and the rest of an item's encoding. *)
Lemma consumes_cons p b enc p' :
  consumes p (b :: enc) p' <-> exists p1, consumes p [b] p1 /\ consumes p1 enc p'.
Proof. apply (consumes_app p [b] enc p'). Qed.

Section ReadPairs.
Variable item : CborParser -> result (CborItem * CborParser) CborError.
Variable ok : CborItem -> Prop.
Variable d : Z.
Hypothesis item_iff : forall p it p', parser_ok p -> depth p = d ->
  item p = Ok (it, p') <-> ok it /\ consumes p (enc_item it) p'.

Lemma read_pairs_iff n p l p' :
  parser_ok p -> depth p = d ->
  read_pairs item n p = Ok (l, p') <->
  length l = n /\ Forall (fun kv => ok kv.1 /\ ok kv.2) l /\ consumes p (enc_pairs l) p'.
Proof.
  revert p l p'. induction n as [|n IH]; intros p l p' Hok Hd; cbn [read_pairs].
  { split; [intros [= <- <-]; split; [done|]; split; [done|by apply consumes_nil]|].
    intros (Hl & _ & Hc). apply nil_length_inv in Hl. subst l. apply consumes_nil in Hc. by subst. }
  split.
  - intros H. rsteps H. destruct t as [key p1]; cbn in H. rsteps H. destruct t as [val p2].
    cbn in H. rsteps H. destruct t as [items p3]. injection H as <- <-.
    apply item_iff in E as [Hk Hc1]; [|done..].
    pose proof (consumes_ok _ _ _ Hc1 Hok). pose proof (consumes_depth _ _ _ Hc1).
    apply item_iff in E0 as [Hv Hc2]; [|done|congruence].
    pose proof (consumes_ok _ _ _ Hc2 ltac:(done)). pose proof (consumes_depth _ _ _ Hc2).
    apply IH in E1 as (Hl & Hf & Hc3); [|done|congruence].
    cbn [length]. split; [by rewrite Hl|]. split; [by constructor|].
    cbn. fold (enc_pairs items). rewrite <- app_assoc, consumes_app.
    exists p1. split; [done|]. rewrite consumes_app. eauto.
  - intros (Hl & Hf & Hc). destruct l as [|[key val] l]; [done|]. injection Hl as Hl.
    inversion Hf as [|? ? [Hk Hv] Hf']; subst. cbn in Hc. fold (enc_pairs l) in Hc.
    rewrite <- app_assoc, consumes_app in Hc. destruct Hc as (p1 & Hc1 & Hc).
    rewrite consumes_app in Hc. destruct Hc as (p2 & Hc2 & Hc3).
    pose proof (consumes_ok _ _ _ Hc1 Hok). pose proof (consumes_depth _ _ _ Hc1).
    pose proof (consumes_ok _ _ _ Hc2 ltac:(done)). pose proof (consumes_depth _ _ _ Hc2).
    rewrite (proj2 (item_iff p key p1 Hok eq_refl)) by done. cbn.
    rewrite (proj2 (item_iff p1 val p2 ltac:(done) ltac:(congruence))) by done. cbn.
    by rewrite (proj2 (IH p2 l p' ltac:(done) ltac:(congruence))).
Qed.
End ReadPairs.

Lemma consumes_depth_shift p enc p' d :
  consumes (at_depth p d) enc p' -> consumes p enc (at_depth p' (depth p)).
Proof. intros [-> [tail E]]. split; [|by exists tail]. by destruct p. Qed.

Lemma consumes_depth_to p enc p' d :
  consumes p enc p' -> consumes (at_depth p d) enc (at_depth p' d).
Proof. intros [-> [tail E]]. split; [|by exists tail]. done. Qed.

(** The nesting levels left at a parser state. *)
Definition levels (p : CborParser) : nat := Z.to_nat (3 - depth p).

(** What the branches of [read_item] for major types 0 to 3 read: a head, then
    the content. *)
Lemma head_iff p b p1 m a v p2 :
  parser_ok p -> consumes p [b] p1 -> Z.shiftr (b2z b) 5 = m -> Z.land (b2z b) 31 = a ->
  read_uint a p1 = Ok (v, p2) <-> is_u64 v /\ consumes p (encode_header [] m v) p2.
Proof.
  intros Hok Hc <- <-. rewrite read_uint_iff by (eauto using consumes_ok, info_range).
  rewrite encode_header_split, consumes_cons.
  pose proof (major_range b). split.
  - intros (Hv & Ha & Hc2). split; [done|]. exists p1. split; [|done]. rewrite <- Ha.
    replace (z2b _) with b; [done|]. by apply initial_byte_iff; [done|apply info_range|].
  - intros (Hv & p1' & Hc1 & Hc2). split; [done|].
    destruct Hc1 as [-> [t1 E1]]. destruct Hc as [-> [t2 E2]]. rewrite E1 in E2. injection E2 as Eb _.
    pose proof (head_info_range v Hv).
    symmetry in Eb. apply initial_byte_iff in Eb as [_ Ea]; [|done|lia]. done.
Qed.

Lemma span_iff p h p1 l b p2 :
  parser_ok p -> consumes p h p1 -> (0 <= l)%Z ->
  (exists e, read_span l p1 = Ok (b, e) /\ at_pos p1 e = p2) <->
  Z.of_nat (length b) = l /\ consumes p1 b p2.
Proof.
  intros Hok Hc Hl. pose proof (consumes_ok _ _ _ Hc Hok). split.
  - intros (e & E & <-). by apply read_span_iff in E as (? & ? & ?).
  - intros (Hlen & Hc2). exists (pos p2). destruct Hc2 as [-> E]. split; [|done].
    apply read_span_iff; [done..|]. split; [done|]. split; [done|]. by split.
Qed.

Lemma head_complete p m v p2 :
  parser_ok p -> (0 <= m <= 7)%Z -> is_u64 v -> consumes p (encode_header [] m v) p2 ->
  exists b p1, read_byte p = Ok (b, p1) /\ consumes p [b] p1 /\ Z.shiftr (b2z b) 5 = m /\
    read_uint (Z.land (b2z b) 31) p1 = Ok (v, p2).
Proof.
  intros Hok Hm Hv Hc. pose proof Hc as Hc'. rewrite encode_header_split, consumes_cons in Hc.
  destruct Hc as (p1 & Hc1 & Hc2). pose proof (head_info_range v Hv).
  set (b := z2b _) in Hc1.
  destruct (proj1 (initial_byte_iff b m (head_info v) Hm ltac:(lia)) eq_refl) as [E1 E2].
  exists b, p1. rewrite (read_byte_iff p b p1 Hok). split; [done|]. split; [done|].
  split; [done|]. by apply (head_iff p b p1 m _ v p2).
Qed.

Lemma read_uint_at_depth p a v p2 d :
  parser_ok p -> (0 <= a <= 31)%Z ->
  read_uint a (at_depth p d) = Ok (v, p2) <->
  p2 = at_depth p2 d /\ read_uint a p = Ok (v, at_depth p2 (depth p)).
Proof.
  intros Hok Ha. rewrite !read_uint_iff by done. split.
  - intros (Hv & Hi & Hc). split; [by destruct Hc as [-> _]|].
    split; [done|]. split; [done|]. by apply consumes_depth_shift in Hc.
  - intros (E & Hv & Hi & Hc). split; [done|]. split; [done|].
    apply (consumes_depth_to _ _ _ d) in Hc. rewrite E.
    by replace (at_depth p2 d) with (at_depth (at_depth p2 (depth p)) d) by done.
Qed.

Lemma parser_ok_at_depth p d : parser_ok (at_depth p d) <-> parser_ok p.
Proof. done. Qed.

Ltac lits := repeat match goal with
  | |- context [(?x =? ?y)%Z] => let b := eval vm_compute in (x =? y)%Z in
      change (x =? y)%Z with b; cbn iota
  end.

Lemma simple_byte b i :
  Z.shiftr (b2z b) 5 = 7%Z -> Z.land (b2z b) 31 = i -> b = z2b (Z.lor 224 i).
Proof. intros Hm <-. by destruct b. Qed.

Lemma content_u64 p h p1 s p2 :
  parser_ok p -> consumes p h p1 -> consumes p1 s p2 -> is_u64 (Z.of_nat (length s)).
Proof.
  intros Hok Hc Hs. pose proof (consumes_length _ _ _ Hs (consumes_ok _ _ _ Hc Hok)).
  pose proof (consumes_ok _ _ _ Hc Hok) as [_ ?]. unfold is_u64, MAX_EXTENSION_SIZE in *. lia.
Qed.

(** One step of the induction of [read_item_iff]. *)
Section ReadItemStep.
Variable fuel : nat.
Hypothesis IH : forall p it p', parser_ok p -> (0 <= depth p)%Z -> (levels p <= fuel)%nat ->
  read_item fuel p = Ok (it, p') <-> item_ok (levels p) it /\ consumes p (enc_item it) p'.
Variable p : CborParser.
Hypothesis Hok : parser_ok p.
Hypothesis Hd : (0 <= depth p <= 2)%Z.
Hypothesis Hf : (levels p <= S fuel)%nat.

Lemma nested_pairs_iff n q l q' :
  parser_ok q -> depth q = (depth p + 1)%Z ->
  read_pairs (read_item fuel) n q = Ok (l, q') <->
  length l = n /\
  Forall (fun kv => item_ok (pred (levels p)) kv.1 /\ item_ok (pred (levels p)) kv.2) l /\
  consumes q (enc_pairs l) q'.
Proof.
  apply (read_pairs_iff _ (item_ok (pred (levels p))) (depth p + 1)).
  intros q0 it q0' Hq Hdq.
  replace (pred (levels p)) with (levels q0) by (unfold levels; lia).
  apply IH; [done|lia|unfold levels in *; lia].
Qed.

Lemma read_item_step_sound it p' :
  read_item (S fuel) p = Ok (it, p') ->
  item_ok (levels p) it /\ consumes p (enc_item it) p'.
Proof.
  replace (levels p) with (S (pred (levels p))) by (unfold levels; lia).
  cbn [read_item item_ok]. intros H. rstep H. rstep H. destruct t as [b p1]. cbv beta zeta in H.
  apply read_byte_iff in E as Hc1; [|done]. pose proof (consumes_ok _ _ _ Hc1 Hok) as Hok1.
  pose proof (info_range b) as Hinfo.
  destruct (_ =? 0)%Z eqn:M0; [|destruct (_ =? 1)%Z eqn:M1; [|destruct (_ =? 2)%Z eqn:M2;
    [|destruct (_ =? 3)%Z eqn:M3; [|destruct (_ =? 5)%Z eqn:M5]]]]; breflect.
  - rstep H. destruct t as [v p2]. injection H as <- <-.
    apply (head_iff p b p1 0) in E0; done.
  - rstep H. destruct t as [v p2]. rstep H. injection H as <- <-. breflect.
    apply (head_iff p b p1 1) in E0 as [Hv Hc]; [|done..]. unfold is_u64 in Hv. split; [lia|done].
  - rstep H. destruct t as [v p2]. rstep H. destruct t as [s e]. injection H as <- <-.
    apply (head_iff p b p1 2) in E0 as [[? ?] Hc]; [|done..].
    destruct (proj1 (span_iff p _ p2 v s (at_pos p2 e) Hok Hc ltac:(lia))) as [<- Hs]; [eauto|].
    split; [done|]. cbn [enc_item]. unfold encode_byte_string. apply consumes_app. eauto.
  - rstep H. destruct t as [v p2]. rstep H. destruct t as [s e].
    destruct (utf8_valid s) eqn:U; [|done]. injection H as <- <-.
    apply (head_iff p b p1 3) in E0 as [[? ?] Hc]; [|done..].
    destruct (proj1 (span_iff p _ p2 v s (at_pos p2 e) Hok Hc ltac:(lia))) as [<- Hs]; [eauto|].
    split; [done|]. cbn [enc_item]. unfold encode_text_string. apply consumes_app. eauto.
  - rstep H. destruct t as [v p2]. do 2 rstep H. rstep H. destruct t as [l p3].
    injection H as <- <-. breflect.
    apply read_uint_at_depth in E0 as [Ep2 E0]; [|done..].
    apply (head_iff p b p1 5) in E0 as [[? ?] Hc]; [|done..].
    assert (Hok2 : parser_ok p2) by (by apply (consumes_ok _ _ _ Hc) in Hok).
    assert (Hd1 : depth p1 = depth p) by (by eapply consumes_depth).
    apply nested_pairs_iff in E1 as (Hl & Hfa & Hc3); [|done|by rewrite Ep2, <- Hd1].
    split; [split; [lia|done]|]. cbn [enc_item]. fold (enc_pairs l).
    rewrite Hl, Z2Nat.id by lia. apply consumes_app. eexists. split; [exact Hc|].
    pose proof (consumes_depth _ _ _ Hc3) as Hd3. rewrite Ep2 in Hd3. cbn in Hd3.
    replace (depth p3 - 1)%Z with (depth p1) by lia.
    by apply consumes_depth_to.
  - destruct (_ =? 6)%Z; [done|]. destruct (_ =? 7)%Z eqn:M7; [|done]. breflect.
    destruct (_ =? 20)%Z eqn:I20; [|destruct (_ =? 21)%Z eqn:I21]; breflect.
    + injection H as <- <-. by rewrite (simple_byte b 20) in Hc1.
    + injection H as <- <-. by rewrite (simple_byte b 21) in Hc1.
    + destruct (_ =? 22)%Z; [done|]. destruct (_ =? 23)%Z; [done|].
      destruct (_ =? 24)%Z; [by destruct (read_byte p1) as [[? ?]|]|]. by case_match.
Qed.

Lemma read_item_step_complete it p' :
  item_ok (levels p) it -> consumes p (enc_item it) p' ->
  read_item (S fuel) p = Ok (it, p').
Proof.
  replace (levels p) with (S (pred (levels p))) by (unfold levels; lia).
  cbn [read_item item_ok]. rewrite (proj2 (Z.ltb_ge 2 (depth p))) by lia.
  intros Hit Hc. destruct it as [v|v|s|s|x|l]; cbn [enc_item] in Hc.
  - destruct (head_complete p 0 v p') as (b & p1 & -> & _ & M & E); [done..|].
    cbn [rbind]. rewrite M. lits. by rewrite E.
  - unfold i64_max in Hit.
    destruct (head_complete p 1 v p') as (b & p1 & -> & _ & M & E); [done|done|unfold is_u64; lia|done|].
    cbn [rbind]. rewrite M. lits. rewrite E. cbn [rbind].
    by rewrite (proj2 (Z.ltb_ge _ _)) by (unfold i64_max; lia).
  - unfold encode_byte_string in Hc. apply consumes_app in Hc as (p2 & Hc & Hs).
    pose proof (content_u64 _ _ _ _ _ Hok Hc Hs) as Hu.
    destruct (head_complete p 2 _ p2 Hok ltac:(lia) Hu Hc) as (b & p1 & -> & _ & M & E).
    cbn [rbind]. rewrite M. lits. rewrite E. cbn [rbind].
    destruct (proj2 (span_iff p _ p2 _ s p' Hok Hc (proj1 Hu)) (conj eq_refl Hs)) as (e & -> & <-).
    done.
  - unfold encode_text_string in Hc. apply consumes_app in Hc as (p2 & Hc & Hs).
    pose proof (content_u64 _ _ _ _ _ Hok Hc Hs) as Hu.
    destruct (head_complete p 3 _ p2 Hok ltac:(lia) Hu Hc) as (b & p1 & -> & _ & M & E).
    cbn [rbind]. rewrite M. lits. rewrite E. cbn [rbind].
    destruct (proj2 (span_iff p _ p2 _ s p' Hok Hc (proj1 Hu)) (conj eq_refl Hs)) as (e & -> & <-).
    cbn [rbind]. by rewrite Hit.
  - rewrite (proj2 (read_byte_iff p _ p' Hok) Hc). by destruct x.
  - fold (enc_pairs l) in Hc. apply consumes_app in Hc as (p2 & Hc & Hs). destruct Hit as [Hl Hfa].
    unfold MAX_METADATA_ENTRIES in Hl.
    assert (Hu : is_u64 (Z.of_nat (length l))) by (unfold is_u64; lia).
    destruct (head_complete p 5 _ p2 Hok ltac:(lia) Hu Hc) as (b & p1 & -> & Hc1 & M & E).
    cbn [rbind]. rewrite M. lits.
    pose proof (consumes_ok _ _ _ Hc1 Hok) as Hok1. pose proof (consumes_ok _ _ _ Hc Hok) as Hok2.
    assert (Hd1 : depth p1 = depth p) by (by eapply consumes_depth).
    assert (Hd2 : depth p2 = depth p) by (by eapply consumes_depth).
    rewrite (proj2 (read_uint_at_depth p1 _ (Z.of_nat (length l)) (at_depth p2 (depth p1 + 1))
      (depth p1 + 1) Hok1 (info_range b))).
    2:{ split; [done|]. rewrite E. do 2 f_equal. rewrite Hd1, <- Hd2. by destruct p2. }
    cbn [rbind data pos at_depth depth].
    pose proof (consumes_length _ _ _ Hs Hok2) as Hlen. pose proof (enc_pairs_length l) as Hel.
    assert (Hhalf : (length l <= (length (data p2) - pos p2) / 2)%nat)
      by (apply Nat.div_le_lower_bound; lia).
    rewrite (proj2 (Z.ltb_ge _ (Z.of_nat (length l)))) by lia.
    rewrite (proj2 (Z.ltb_ge _ (Z.of_nat (length l)))) by (unfold MAX_METADATA_ENTRIES; lia).
    rewrite Nat2Z.id.
    rewrite (proj2 (nested_pairs_iff (length l) (at_depth p2 (depth p1 + 1)) l
      (at_depth p' (depth p1 + 1)) Hok2 ltac:(cbn; lia))).
    2:{ split; [done|]. split; [done|]. by apply consumes_depth_to. }
    cbn [rbind]. do 2 f_equal. destruct Hs as [-> _]. unfold at_depth, advance, at_pos. cbn.
    f_equal. lia.
Qed.

End ReadItemStep.

Lemma read_item_iff fuel p it p' :
  parser_ok p -> (0 <= depth p)%Z -> (levels p <= fuel)%nat ->
  read_item fuel p = Ok (it, p') <-> item_ok (levels p) it /\ consumes p (enc_item it) p'.
Proof.
  revert p it p'. induction fuel as [|fuel IH]; intros p it p' Hok Hd Hf.
  { replace (levels p) with 0%nat by lia. cbn. naive_solver. }
  destruct (decide (depth p <= 2)%Z) as [Hle|Hgt].
  - split; [by apply read_item_step_sound|]. intros [? ?]. by apply read_item_step_complete.
  - cbn [read_item]. rewrite (proj2 (Z.ltb_lt _ _)) by lia.
    replace (levels p) with 0%nat by (unfold levels; lia). cbn. naive_solver.
Qed.

Section PairsExt.
Variables f g : CborParser -> result (CborItem * CborParser) CborError.
Variable d : Z.
Hypothesis fg : forall p, parser_ok p -> depth p = d -> f p = g p.
Hypothesis keeps : forall p it p', parser_ok p -> depth p = d -> f p = Ok (it, p') ->
  parser_ok p' /\ depth p' = d.

Lemma read_pairs_ext n p :
  parser_ok p -> depth p = d -> read_pairs f n p = read_pairs g n p.
Proof.
  revert p. induction n as [|n IH]; intros p Hok Hd; [done|]. cbn [read_pairs].
  rewrite <- fg by done. destruct (f p) as [[k p1]|] eqn:E1; [cbn [rbind]|done].
  apply keeps in E1 as [Hok1 Hd1]; [|done..].
  rewrite <- fg by done. destruct (f p1) as [[v p2]|] eqn:E2; [cbn [rbind]|done].
  apply keeps in E2 as [Hok2 Hd2]; [|done..]. by rewrite IH.
Qed.
End PairsExt.

(** More fuel than nesting levels never changes the outcome, errors included. *)
Lemma read_item_fuel f1 f2 p :
  parser_ok p -> (0 <= depth p)%Z -> (levels p <= f1)%nat -> (levels p <= f2)%nat ->
  read_item f1 p = read_item f2 p.
Proof.
  revert f2 p. induction f1 as [|f1 IH]; intros f2 p Hok Hd H1 H2.
  { destruct f2 as [|f2]; [done|]. cbn [read_item].
    rewrite (proj2 (Z.ltb_lt _ _)) by (unfold levels in *; lia). done. }
  destruct f2 as [|f2].
  { cbn [read_item]. rewrite (proj2 (Z.ltb_lt _ _)) by (unfold levels in *; lia). done. }
  cbn [read_item]. destruct (2 <? depth p)%Z eqn:G; [done|]. breflect.
  destruct (read_byte p) as [[b p1]|] eqn:E; [cbn [rbind]|done].
  apply read_byte_iff in E; [|done]. pose proof (consumes_ok _ _ _ E Hok) as Hok1.
  pose proof (consumes_depth _ _ _ E) as Hd1.
  repeat (case_match; try done).
  destruct (read_uint _ (at_depth p1 _)) as [[v p2]|] eqn:E2; [cbn [rbind]|done].
  apply read_uint_iff in E2 as (_ & _ & E2); [|done|apply info_range].
  pose proof (consumes_ok _ _ _ E2 Hok1) as Hok2. pose proof (consumes_depth _ _ _ E2) as Hd2.
  cbn in Hd2. do 2 (case_match; [done|]).
  rewrite (read_pairs_ext (read_item f1) (read_item f2) (depth p + 1)); [done| | |done|lia].
  - intros q Hq Hdq. apply IH; unfold levels in *; (done || lia).
  - intros q it q' Hq Hdq Eq. apply read_item_iff in Eq as [_ Eq]; [|done|lia|unfold levels in *; lia].
    split; [by eapply consumes_ok|]. by rewrite (consumes_depth _ _ _ Eq).
Qed.

(** Items of bounded size are determined by their encodings. *)
Lemma enc_item_inj a b :
  item_ok 3 a -> item_ok 3 b -> (length (enc_item a) <= MAX_EXTENSION_SIZE)%nat ->
  enc_item a = enc_item b -> a = b.
Proof.
  intros Ha Hb Hl E. set (p := mkCborParser (enc_item a) 0 0).
  assert (Hok : parser_ok p) by (split; cbn; lia).
  assert (Hr : forall it, item_ok 3 it -> enc_item it = enc_item a ->
    read_item 3 p = Ok (it, advance p (length (enc_item a)))).
  { intros it Hit Ei. apply read_item_iff; [done|done|done|]. split; [done|].
    rewrite Ei. split; [done|]. exists []. unfold rest. cbn. by rewrite app_nil_r. }
  pose proof (Hr a Ha eq_refl) as R1. rewrite (Hr b Hb (eq_sym E)) in R1. by injection R1.
Qed.

(** Decoding is parsing one map item that spans the input, then interpreting it. *)
Lemma ExtensionHeader_decode_items input h :
  ExtensionHeader_decode input = Ok h <->
  (length input <= MAX_EXTENSION_SIZE)%nat /\
  exists items, item_ok 3 (Map items) /\ input = enc_item (Map items) /\
    decode_entries ExtensionHeader_default ∅ None items = Ok h /\ content_type h <> [].
Proof.
  unfold ExtensionHeader_decode, decode_extension. cbv zeta.
  destruct (_ <? _)%nat eqn:G; breflect; [split; [done|]; intros [? _]; lia|].
  set (p := mkCborParser input 0 0). assert (Hok : parser_ok p) by (split; cbn; lia).
  split.
  - intros H. split; [done|]. destruct (read_item 4 p) as [[top p1]|] eqn:E; [cbn [rbind] in H|done].
    apply read_item_iff in E as [Hit Hc]; [|done|done|unfold levels; cbn; lia].
    destruct top as [| | | | |items]; try done. cbn [rbind] in H.
    destruct (decode_entries _ _ _ items) as [ext|] eqn:Ed; [cbn [rbind] in H|done].
    destruct (length (content_type ext) =? 0)%nat eqn:G0; [done|]. cbn [rbind] in H.
    rsteps H. subst ext. breflect. exists items. split; [done|]. split; [|split; [done|by destruct (content_type h)]].
    destruct Hc as [-> [tail Et]]. unfold rest in Et. cbn [pos data p] in Et. rewrite drop_0 in Et.
    cbn [pos advance at_pos p] in G1. apply (f_equal length) in Et as El. rewrite length_app in El.
    destruct tail; [by rewrite app_nil_r in Et|cbn [length] in El; lia].
  - intros (_ & items & Hit & Hin & Hd & Hct).
    rewrite (proj2 (read_item_iff 4 p (Map items) (advance p (length input)) Hok ltac:(done) ltac:(unfold levels; cbn; lia))).
    2:{ split; [done|]. rewrite <- Hin. split; [done|]. exists []. by rewrite app_nil_r. }
    cbn [rbind]. rewrite Hd. cbn [rbind].
    destruct (length (content_type h) =? 0)%nat eqn:G0; breflect; [by apply nil_length_inv in G0|].
    cbn [rbind pos advance at_pos p Nat.add]. by rewrite Nat.eqb_refl.
Qed.

(** ** Sorted association lists *)

Definition key_lt {A : Type} (f : A -> bytes) : relation A := fun a b => bytes_ltb (f a) (f b) = true.

#[global] Instance key_lt_trans {A} (f : A -> bytes) : Transitive (key_lt f).
Proof. intros a b c. apply bytes_ltb_trans. Qed.
#[global] Instance key_lt_antisymm {A} (f : A -> bytes) : AntiSymm (=) (key_lt f).
Proof.
  intros a b Hab Hba. exfalso. pose proof (bytes_ltb_trans _ _ _ Hab Hba) as H.
  by rewrite bytes_ltb_irrefl in H.
Qed.

Lemma insert_by_perm {A} (f : A -> bytes) x l : insert_by f x l ≡ₚ x :: l.
Proof.
  induction l as [|y l IH]; [done|]. cbn [insert_by]. case_match; [|done].
  rewrite IH. constructor.
Qed.

Lemma sort_by_perm {A} (f : A -> bytes) l : sort_by f l ≡ₚ l.
Proof.
  induction l as [|x l IH]; [done|]. cbn. fold (sort_by f l). by rewrite insert_by_perm, IH.
Qed.

Lemma insert_by_sorted {A} (f : A -> bytes) x l :
  f x ∉ (f <$> l) -> StronglySorted (key_lt f) l -> StronglySorted (key_lt f) (insert_by f x l).
Proof.
  induction l as [|y l IH]; intros Hx Hs; [by repeat constructor|].
  apply StronglySorted_inv in Hs as [Hs Hf]. cbn [insert_by].
  rewrite fmap_cons, not_elem_of_cons in Hx. destruct Hx as [Hxy Hx].
  destruct (bytes_ltb (f y) (f x)) eqn:E.
  - constructor; [by apply IH|]. rewrite insert_by_perm. by constructor.
  - assert (Hlt : key_lt f x y).
    { unfold key_lt. destruct (bytes_ltb (f x) (f y)) eqn:E2; [done|].
      by apply bytes_ltb_total in E2. }
    constructor; [by constructor|]. constructor; [done|].
    eapply Forall_impl; [exact Hf|]. intros z Hz. by transitivity y.
Qed.

Lemma sort_by_sorted {A} (f : A -> bytes) l :
  NoDup (f <$> l) -> StronglySorted (key_lt f) (sort_by f l).
Proof.
  induction l as [|x l IH]; intros Hn; [constructor|]. rewrite fmap_cons in Hn.
  apply NoDup_cons in Hn as [Hx Hn]. cbn. fold (sort_by f l).
  apply insert_by_sorted; [|by apply IH]. by rewrite sort_by_perm.
Qed.

Lemma sorted_perm_eq {A} (f : A -> bytes) l1 l2 :
  StronglySorted (key_lt f) l1 -> StronglySorted (key_lt f) l2 -> l1 ≡ₚ l2 -> l1 = l2.
Proof. intros H1 H2 Hp. by apply (StronglySorted_unique (key_lt f)). Qed.

Lemma sorted_nodup {A} (f : A -> bytes) l : StronglySorted (key_lt f) l -> NoDup (f <$> l).
Proof.
  induction 1 as [|x l Hs IH Hf]; [constructor|]. rewrite fmap_cons. constructor; [|done].
  rewrite list_elem_of_fmap. intros (y & E & Hy). rewrite Forall_forall in Hf.
  specialize (Hf y Hy). unfold key_lt in Hf. by rewrite E, bytes_ltb_irrefl in Hf.
Qed.

Lemma sort_by_map {A B} (f : B -> bytes) (g : A -> B) l :
  sort_by f (map g l) = map g (sort_by (fun a => f (g a)) l).
Proof.
  induction l as [|x l IH]; [done|]. cbn. unfold sort_by in *. rewrite IH.
  generalize (foldr (insert_by (fun a => f (g a))) [] l). intros l'.
  induction l' as [|y l' IH']; [done|]. cbn. case_match; cbn; [by rewrite IH'|done].
Qed.

(** A [BTreeMap] keeps its keys strictly increasing. *)
Definition btree_sorted {V} (m : list (bytes * V)) : Prop := StronglySorted (key_lt fst) m.

Lemma btree_insert_perm {V} k (v : V) m :
  k ∉ m.*1 -> btree_insert k v m ≡ₚ (k, v) :: m.
Proof.
  induction m as [|[k' v'] m IH]; [done|]. rewrite fmap_cons, not_elem_of_cons. cbn [fst].
  intros [Hk Hm]. cbn [btree_insert]. destruct (bytes_ltb k k') eqn:E1; [done|].
  destruct (bytes_ltb k' k) eqn:E2; [|by apply bytes_ltb_total in E1].
  rewrite IH by done. constructor.
Qed.

Lemma btree_insert_sorted {V} k (v : V) m :
  btree_sorted m -> btree_sorted (btree_insert k v m).
Proof.
  unfold btree_sorted. induction m as [|[k' v'] m IH]; intros Hs; [by repeat constructor|].
  apply StronglySorted_inv in Hs as [Hs Hf]. cbn [btree_insert].
  destruct (bytes_ltb k k') eqn:E1.
  - constructor; [by constructor|]. constructor; [done|].
    eapply Forall_impl; [exact Hf|]. intros z Hz. by transitivity (k', v').
  - destruct (bytes_ltb k' k) eqn:E2.
    + constructor; [by apply IH|]. clear IH Hs. induction m as [|[k2 v2] m IHm]; cbn [btree_insert].
      * by repeat constructor.
      * inversion Hf; subst. repeat case_match; repeat constructor; try done. by apply IHm.
    + apply bytes_ltb_total in E1; [|done]. subst k'. constructor; [done|].
      eapply Forall_impl; [exact Hf|]. done.
Qed.

Definition btree_of {V} (l : list (bytes * V)) : list (bytes * V) :=
  fold_left (fun m kv => btree_insert kv.1 kv.2 m) l [].

Lemma btree_fold_perm {V} (l m : list (bytes * V)) :
  NoDup (l ++ m).*1 -> btree_sorted m ->
  fold_left (fun m kv => btree_insert kv.1 kv.2 m) l m ≡ₚ l ++ m /\
  btree_sorted (fold_left (fun m kv => btree_insert kv.1 kv.2 m) l m).
Proof.
  revert m. induction l as [|[k v] l IH]; intros m Hn Hs; [done|]. cbn [fold_left app fst snd].
  rewrite <- app_comm_cons, fmap_cons in Hn. apply NoDup_cons in Hn as [Hk Hn]. cbn [fst] in Hk.
  rewrite fmap_app, not_elem_of_app in Hk. destruct Hk as [Hkl Hkm].
  pose proof (btree_insert_perm k v m Hkm) as Hp.
  destruct (IH (btree_insert k v m)) as [Hperm Hsort]; [|by apply btree_insert_sorted|].
  - rewrite Hp, fmap_app, fmap_cons. cbn [fst]. rewrite <- Permutation_middle.
    constructor; [by rewrite not_elem_of_app|by rewrite <- fmap_app].
  - split; [|done]. rewrite Hperm, Hp. by rewrite <- Permutation_middle.
Qed.

(** ** Headers as items *)

Definition value_item (v : MetadataValue) : CborItem :=
  match v with
  | MBool b => Bool b
  | MU64 n => UInt n
  | MI64 n => if (0 <=? n)%Z then UInt n else NInt (-1 - n)
  | MText s => Text s
  | MBytes b => Bytes b
  end.
(** The integer representation the decoder chooses. *)
Definition normalize_value (v : MetadataValue) : MetadataValue :=
  match v with
  | MI64 n => if (0 <=? n)%Z then MU64 n else MI64 n
  | _ => v
  end.
Definition value_typed (v : MetadataValue) : Prop :=
  match v with
  | MI64 n => is_i64 n
  | MU64 n => is_u64 n
  | MText s => utf8_valid s = true
  | _ => True
  end.
Definition value_fits (v : MetadataValue) : Prop :=
  match v with
  | MText s => (length s <= MAX_TEXT_VALUE)%nat
  | MBytes b => (length b <= MAX_BYTES_VALUE)%nat
  | _ => True
  end.

Abbreviation enc_key := (fun kv => encode_text_string [] kv.1).
Definition entry_items {V} (item : V -> CborItem) (l : list (bytes * V)) : list (CborItem * CborItem) :=
  map (fun kv => (Text kv.1, item kv.2)) l.
Definition meta_items_of (m : list (bytes * MetadataValue)) : list (CborItem * CborItem) :=
  entry_items value_item (sort_by enc_key m).

Lemma metadata_value_of v :
  value_typed v -> value_fits v -> metadata_value (value_item v) = Ok (normalize_value v).
Proof.
  destruct v as [b|n|n|s|b]; cbn [value_typed value_fits value_item normalize_value metadata_value];
    try done; intros Ht Hf.
  - destruct (0 <=? n)%Z eqn:E; [done|]. breflect. unfold metadata_value, i64_max, is_i64 in *.
    rewrite (proj2 (Z.ltb_ge _ _)) by lia. do 2 f_equal. lia.
  - by rewrite (proj2 (Nat.ltb_ge _ _)).
  - by rewrite (proj2 (Nat.ltb_ge _ _)).
Qed.

Lemma metadata_value_inv it v :
  item_ok 1 it -> metadata_value it = Ok v ->
  it = value_item v /\ normalize_value v = v /\ value_typed v /\ value_fits v.
Proof.
  destruct it as [n|n|b|s|b|l]; cbn [item_ok metadata_value]; intros Hit H; rsteps H; subst v; breflect;
    cbn; try done.
  unfold is_i64, i64_max in *. rewrite (proj2 (Z.leb_gt _ _)) by lia.
  split; [f_equal; lia|]. split; [done|]. split; [lia|done].
Qed.

Lemma validate_metadata_iff m :
  validate_metadata m = Ok tt <->
  Forall (fun kv => validate_metadata_key kv.1 = Ok tt /\ value_fits kv.2) m.
Proof.
  induction m as [|[k v] m IH]; cbn [validate_metadata]; [by split; [constructor|]|].
  rewrite Forall_cons, <- IH. cbn [fst snd].
  destruct (validate_metadata_key k) as [[]|]; cbn [rbind]; [|naive_solver].
  destruct v as [b|n|n|s|b]; cbn [rbind value_fits]; try naive_solver.
  - destruct (_ <? _)%nat eqn:E; breflect; cbn [rbind]; [|naive_solver]. split; [done|]. lia.
  - destruct (_ <? _)%nat eqn:E; breflect; cbn [rbind]; [|naive_solver]. split; [done|]. lia.
Qed.

(** *** Metadata *)

Lemma collect_meta_items_iff seen m l :
  collect_meta_items seen m = Ok l <->
  m = entry_items id l /\ Forall (fun kv => validate_metadata_key kv.1 = Ok tt) l /\
  NoDup l.*1 /\ (forall k, k ∈ l.*1 -> k ∉ seen).
Proof.
  revert seen l. induction m as [|[mk mv] m IH]; intros seen l; cbn [collect_meta_items].
  { split.
    - intros [= <-]. split; [done|]. split; [constructor|]. split; [constructor|].
      intros k Hk. by apply not_elem_of_nil in Hk.
    - intros (Hm & _). destruct l; done. }
  split.
  - intros H. rsteps H. destruct mk; try done. injection E as <-. subst l. breflect. destruct t0.
    apply IH in E1 as (-> & Hv & Hn & Hs). split; [done|]. split; [by constructor|].
    rewrite fmap_cons. cbn [fst]. split; [constructor; [|done]|].
    + intros Hk. specialize (Hs _ Hk). set_solver.
    + intros k. rewrite elem_of_cons. intros [->|Hk]; [done|]. specialize (Hs _ Hk). set_solver.
  - intros (Hm & Hv & Hn & Hs). destruct l as [|[k v] l]; [done|]. injection Hm as -> -> ->.
    apply Forall_cons in Hv as [Hk Hv]. rewrite fmap_cons in *. apply NoDup_cons in Hn as [Hkl Hn].
    cbn [fst rbind] in *. rewrite Hk. cbn [rbind]. rewrite bool_decide_false by (apply Hs; left).
    rewrite (proj2 (IH ({[k]} ∪ seen) l)); [done|]. split; [done|]. split; [done|]. split; [done|].
    intros k' Hk'. rewrite not_elem_of_union, not_elem_of_singleton.
    split; [by intros ->|]. apply Hs. by right.
Qed.

Definition above {V} (prev : option bytes) (l : list (bytes * V)) : Prop :=
  forall pk, prev = Some pk -> Forall (fun kv => bytes_ltb pk (encode_text_string [] kv.1) = true) l.

Lemma check_key_order_iff prev l :
  check_key_order prev l = Ok tt <-> StronglySorted (key_lt enc_key) l /\ above prev l.
Proof.
  revert prev. induction l as [|[mk mv] l IH]; intros prev; cbn [check_key_order].
  { split; [|done]. split; [constructor|]. intros pk _. constructor. }
  assert (Hhead : (match prev with Some pk => bytes_leb (encode_text_string [] mk) pk | None => false end)
    = false <-> forall pk, prev = Some pk -> bytes_ltb pk (encode_text_string [] mk) = true).
  { destruct prev as [pk|]; [|naive_solver]. unfold bytes_leb. rewrite negb_false_iff. naive_solver. }
  set (c := match prev with Some _ => _ | None => _ end) in *. clearbody c. destruct c.
  - split; [done|]. intros [_ Ha].
    assert (true = false); [|done]. apply Hhead. intros pk Hp. by apply Ha, Forall_cons in Hp as [? _].
  - pose proof (proj1 Hhead eq_refl) as Hh. rewrite IH. split.
    + intros [Hs Ha]. specialize (Ha _ eq_refl). split; [by constructor|].
      intros pk Hp. specialize (Hh pk Hp). constructor; [done|].
      eapply Forall_impl; [exact Ha|]. intros [k v] Hk. by eapply bytes_ltb_trans.
    + intros [Hs Ha]. apply StronglySorted_inv in Hs as [Hs Hf]. split; [done|].
      intros pk [= <-]. exact Hf.
Qed.

Lemma insert_meta_items_iff m0 l m :
  insert_meta_items m0 l = Ok m <->
  exists vl, Forall2 (fun a b => a.1 = b.1 /\ metadata_value a.2 = Ok b.2) l vl /\
    m = fold_left (fun m kv => btree_insert kv.1 kv.2 m) vl m0.
Proof.
  revert m0. induction l as [|[k it] l IH]; intros m0; cbn [insert_meta_items].
  { split; [intros [= <-]; by exists []|]. intros (vl & Hv & ->). by inversion Hv. }
  rewrite rbind_ok_iff. split.
  - intros (v & Hv & H). apply IH in H as (vl & Hvl & ->). exists ((k, v) :: vl).
    split; [by constructor|done].
  - intros (vl & Hv & ->). inversion Hv as [|? [k' v] ? vl' [E1 E2] Hvl]; subst. cbn in *. subst k'.
    exists v. split; [done|]. apply IH. eauto.
Qed.

Lemma utf8_ascii s : Forall (fun b => in_range 0 127 b = true) s -> utf8_valid s = true.
Proof. induction 1 as [|b s Hb Hs IH]; [done|]. cbn. by rewrite Hb. Qed.

Lemma validate_metadata_key_ascii k :
  validate_metadata_key k = Ok tt ->
  (length k <= 64)%nat /\ Forall (fun b => in_range 0 127 b = true) k.
Proof.
  destruct k as [|first rest]; [done|]. unfold validate_metadata_key. intros H. rsteps H. breflect.
  split; [lia|]. unfold in_range. constructor.
  - apply andb_false_iff in G0 as [G0|G0]; breflect; unfold is_ascii_lowercase, is_ascii_digit in G0;
      breflect; rewrite !(proj2 (Z.leb_le _ _)) by lia; done.
  - apply Forall_forall. intros b Hb. apply not_true_iff_false in G1.
    rewrite existsb_exists in G1. pose proof (b2z_range b).
    destruct (b2z b <=? 127)%Z eqn:E; [by rewrite (proj2 (Z.leb_le _ _)) by lia|]. breflect.
    contradict G1. exists b. split; [by apply list_elem_of_In|].
    unfold is_ascii_lowercase, is_ascii_digit.
    rewrite (proj2 (Z.leb_gt (b2z b) 122)), (proj2 (Z.leb_gt (b2z b) 57)) by lia.
    rewrite !andb_false_r. cbn. by rewrite !bool_decide_false by (by intros ->).
Qed.

Lemma encode_text_string_inj k1 k2 :
  validate_metadata_key k1 = Ok tt -> validate_metadata_key k2 = Ok tt ->
  encode_text_string [] k1 = encode_text_string [] k2 -> k1 = k2.
Proof.
  intros H1 H2 E. apply validate_metadata_key_ascii in H1 as [L1 U1], H2 as [L2 U2].
  assert (Text k1 = Text k2) as [=]; [|done].
  apply enc_item_inj; cbn [item_ok]; [by apply utf8_ascii|by apply utf8_ascii| |done].
  cbn [enc_item]. unfold encode_text_string. rewrite encode_header_split, length_app. cbn [length].
  assert (length (head_tail (Z.of_nat (length k1))) <= 8)%nat
    by (unfold head_tail; repeat case_match; rewrite ?length_to_be; cbn; lia).
  unfold MAX_EXTENSION_SIZE. lia.
Qed.

Definition normalize_metadata (m : list (bytes * MetadataValue)) : list (bytes * MetadataValue) :=
  map (fun kv => (kv.1, normalize_value kv.2)) m.
Definition metadata_wf (m : list (bytes * MetadataValue)) : Prop :=
  btree_sorted m /\ (length m <= MAX_METADATA_ENTRIES)%nat /\
  Forall (fun kv => (validate_metadata_key kv.1 = Ok tt /\ value_fits kv.2) /\ value_typed kv.2) m.

Lemma keys_nodup_enc {V} (m : list (bytes * V)) :
  Forall (fun kv => validate_metadata_key kv.1 = Ok tt) m -> NoDup m.*1 -> NoDup (enc_key <$> m).
Proof.
  induction m as [|[k v] m IH]; [constructor|]. rewrite !fmap_cons. intros Hv Hn.
  apply Forall_cons in Hv as [Hk Hv]. apply NoDup_cons in Hn as [Hkm Hn].
  constructor; [|by apply IH]. rewrite list_elem_of_fmap. intros ([k' v'] & E & Hin). cbn [fst] in *.
  rewrite Forall_forall in Hv. specialize (Hv _ Hin). apply encode_text_string_inj in E; [|done..].
  subst. apply Hkm. rewrite list_elem_of_fmap. by exists (k', v').
Qed.

(** Relabelling values leaves the key order alone. *)
Lemma sorted_map_values {V W} (f : bytes -> bytes) (g : V -> W) (l : list (bytes * V)) :
  StronglySorted (key_lt (fun kv => f kv.1)) (map (fun kv => (kv.1, g kv.2)) l) <->
  StronglySorted (key_lt (fun kv => f kv.1)) l.
Proof.
  induction l as [|[k v] l IH]; cbn [map]; [by split; constructor|].
  assert (Hf : Forall (key_lt (fun kv => f kv.1) (k, g v)) (map (fun kv => (kv.1, g kv.2)) l) <->
    Forall (key_lt (fun kv => f kv.1) (k, v)) l).
  { change (map (fun kv => (kv.1, g kv.2)) l) with ((fun kv => (kv.1, g kv.2)) <$> l).
    by rewrite Forall_fmap. }
  split; intros [Hs Hfa]%StronglySorted_inv; constructor; by first [apply IH | apply Hf].
Qed.

Lemma keys_map_values {V W} (g : V -> W) (l : list (bytes * V)) :
  (map (fun kv => (kv.1, g kv.2)) l).*1 = l.*1.
Proof. induction l as [|[k v] l IH]; [done|]. cbn. f_equal. exact IH. Qed.

Lemma length_meta_items_of m : length (meta_items_of m) = length m.
Proof. unfold meta_items_of, entry_items. rewrite length_map. by rewrite (sort_by_perm enc_key m). Qed.

Lemma decode_metadata_complete m :
  metadata_wf m -> decode_metadata [] (meta_items_of m) = Ok (normalize_metadata m).
Proof.
  intros (Hs & Hl & Hf). unfold decode_metadata. rewrite length_meta_items_of.
  rewrite (proj2 (Nat.ltb_ge _ _)) by done.
  set (L := sort_by enc_key m). pose proof (sort_by_perm enc_key m) as HL. fold L in HL.
  assert (HfL : Forall (fun kv => (validate_metadata_key kv.1 = Ok tt /\ value_fits kv.2) /\ value_typed kv.2) L)
    by (by rewrite HL).
  assert (Hkeys : Forall (fun kv => validate_metadata_key kv.1 = Ok tt) m)
    by (eapply Forall_impl; [exact Hf|]; naive_solver).
  assert (HsL : StronglySorted (key_lt enc_key) L).
  { apply sort_by_sorted, keys_nodup_enc; [done|]. by apply (sorted_nodup fst). }
  pose proof (sorted_nodup fst m Hs) as Hnm.
  rewrite (proj2 (collect_meta_items_iff ∅ _ (map (fun kv => (kv.1, value_item kv.2)) L))).
  2:{ split; [unfold meta_items_of, entry_items; by rewrite map_map|].
      split; [change (map ?g L) with (g <$> L); rewrite Forall_fmap; rewrite <- HL in Hkeys; exact Hkeys|].
      rewrite keys_map_values. split; [by rewrite HL|]. set_solver. }
  cbn [rbind]. rewrite (proj2 (check_key_order_iff None _)).
  2:{ split; [by apply (sorted_map_values (encode_text_string []))|done]. }
  cbn [rbind]. apply insert_meta_items_iff. exists (normalize_metadata L). split.
  - unfold normalize_metadata. clear -HfL. induction HfL as [|[k v] L Hv HL IH]; cbn; constructor; [|done].
    destruct Hv as [[_ Hfit] Htyp]. split; [done|]. by apply metadata_value_of.
  - destruct (btree_fold_perm (normalize_metadata L) []) as [Hp Hb].
    + rewrite app_nil_r. unfold normalize_metadata. by rewrite keys_map_values, HL.
    + constructor.
    + rewrite app_nil_r in Hp. apply (sorted_perm_eq fst); [|done|].
      * by apply (sorted_map_values id).
      * rewrite Hp. unfold normalize_metadata. apply Permutation_map. by rewrite HL.
Qed.

Lemma decode_metadata_sound items m :
  Forall (fun kv => item_ok 1 kv.2) items -> decode_metadata [] items = Ok m ->
  metadata_wf m /\ normalize_metadata m = m /\ items = meta_items_of m.
Proof.
  unfold decode_metadata. intros Hit H. rsteps H. breflect. destruct t0.
  apply collect_meta_items_iff in E as (-> & Hk & Hn & _).
  apply check_key_order_iff in E0 as [Hs _].
  apply insert_meta_items_iff in H as (vl & Hvl & ->). rename t into l.
  assert (Hvl' : l = map (fun kv => (kv.1, value_item kv.2)) vl /\ normalize_metadata vl = vl /\
    Forall (fun kv => value_fits kv.2 /\ value_typed kv.2) vl).
  { clear -Hit Hvl. induction Hvl as [|[k it] [k' v] l vl [E1 E2] Hvl IH]; [done|].
    cbn in E1, E2. subst k'. inversion Hit as [|? ? Hi Hit']; subst. cbn [snd] in Hi.
    destruct (IH Hit') as (-> & Hn & Hf). apply metadata_value_inv in E2 as (-> & Ev & Ht & Hfit); [|done].
    split; [done|]. split; [|by constructor]. unfold normalize_metadata in *. cbn. by rewrite Ev, Hn. }
  destruct Hvl' as (-> & Hnorm & Hf).
  rewrite keys_map_values in Hn. apply (sorted_map_values (encode_text_string [])) in Hs.
  destruct (btree_fold_perm vl []) as [Hp Hb]; [by rewrite app_nil_r|constructor|].
  rewrite app_nil_r in Hp. set (m := fold_left _ vl []) in *.
  unfold entry_items in G. rewrite !length_map in G.
  assert (Hkf : Forall (fun kv => validate_metadata_key kv.1 = Ok tt) vl).
  { change (map ?g vl) with (g <$> vl) in Hk. by rewrite Forall_fmap in Hk. }
  split; [|split].
  - split; [done|]. split; [rewrite Hp; lia|]. rewrite Hp.
    rewrite Forall_forall in Hf, Hkf |- *. naive_solver.
  - apply (sorted_perm_eq fst); [by apply (sorted_map_values id)|done|].
    transitivity (normalize_metadata vl); [by apply Permutation_map|by rewrite Hnorm, Hp].
  - unfold meta_items_of, entry_items. rewrite map_map. cbn. f_equal. symmetry.
    apply (sorted_perm_eq enc_key); [|done|by rewrite sort_by_perm, Hp].
    apply sort_by_sorted. apply keys_nodup_enc; rewrite Hp; done.
Qed.

(** *** The header's entries *)

(** The entries for the protocol keys above [k]; [explicit] says whether an
    empty metadata map is written out. *)
Definition opt_entry {A} (key : Z) (item : A -> CborItem) (o : option A) : list (CborItem * CborItem) :=
  match o with Some a => [(UInt key, item a)] | None => [] end.
Definition metadata_entry (explicit : bool) (m : list (bytes * MetadataValue))
  : list (CborItem * CborItem) :=
  match m with
  | [] => if explicit then [(UInt KEY_METADATA, Map [])] else []
  | _ => [(UInt KEY_METADATA, Map (meta_items_of m))]
  end.
Definition entries_above (k : Z) (explicit : bool) (h : ExtensionHeader)
  : list (CborItem * CborItem) :=
  (if (k <? 1)%Z then opt_entry KEY_INITIAL_NOT_BEFORE UInt (initial_not_before_unix_ns h) else [])
  ++ (if (k <? 2)%Z then match content_type h with [] => [] | ct => [(UInt KEY_CONTENT_TYPE, Text ct)] end
      else [])
  ++ (if (k <? 3)%Z then metadata_entry explicit (metadata h) else [])
  ++ (if (k <? 4)%Z then opt_entry KEY_PRODUCER_ID Text (producer_id h) else [])
  ++ (if (k <? 5)%Z then opt_entry KEY_TRACE_CONTEXT Bytes (trace_context h) else []).
Definition header_items (explicit : bool) (h : ExtensionHeader) := entries_above 0 explicit h.

(** What the Rust types say of any header. *)
Definition ExtensionHeader_typed (h : ExtensionHeader) : Prop :=
  (forall ns, initial_not_before_unix_ns h = Some ns -> is_u64 ns) /\
  btree_sorted (metadata h) /\ Forall (fun kv => value_typed kv.2) (metadata h) /\
  (forall pid, producer_id h = Some pid -> utf8_valid pid = true).

Definition normalize_header (h : ExtensionHeader) : ExtensionHeader :=
  set_metadata h (normalize_metadata (metadata h)).

Lemma ExtensionHeader_validate_iff h :
  ExtensionHeader_validate h = Ok tt <->
  validate_content_type (content_type h) = Ok tt /\
  (length (metadata h) <= MAX_METADATA_ENTRIES)%nat /\
  Forall (fun kv => validate_metadata_key kv.1 = Ok tt /\ value_fits kv.2) (metadata h) /\
  (forall pid, producer_id h = Some pid ->
     (length pid <= MAX_PRODUCER_ID_LEN)%nat /\ existsb (fun b => bool_decide (b = x00)) pid = false) /\
  (forall tc, trace_context h = Some tc -> (length tc <= MAX_TRACE_CONTEXT_LEN)%nat).
Proof.
  rewrite <- validate_metadata_iff. unfold ExtensionHeader_validate.
  destruct (validate_content_type _) as [[]|]; cbn [rbind]; [|naive_solver].
  destruct (_ <? _)%nat eqn:G; breflect; [split; [done|]; intros (_ & ? & _); lia|].
  destruct (validate_metadata _) as [[]|]; cbn [rbind]; [|naive_solver].
  assert (Htc : match trace_context h with
    | Some tc => if (MAX_TRACE_CONTEXT_LEN <? length tc)%nat then Err TraceContextTooLong else Ok tt
    | None => Ok tt end = Ok tt <->
    (forall tc, trace_context h = Some tc -> (length tc <= MAX_TRACE_CONTEXT_LEN)%nat)).
  { destruct (trace_context h) as [tc|]; [|naive_solver].
    destruct (_ <? _)%nat eqn:E; breflect; split; try done; [|naive_solver].
    intros H. specialize (H tc eq_refl). lia. }
  destruct (producer_id h) as [pid|]; [|cbn [rbind]; naive_solver].
  destruct (MAX_PRODUCER_ID_LEN <? length pid)%nat eqn:E; breflect; cbn [rbind].
  { split; [done|]. intros (_ & _ & _ & Hp & _). destruct (Hp pid eq_refl). lia. }
  destruct (existsb _ pid) eqn:E2; cbn [rbind]; [|naive_solver].
  split; [done|]. intros (_ & _ & _ & Hp & _). destruct (Hp pid eq_refl). congruence.
Qed.

(** The state of [decode_entries] after the keys up to [k]. *)
Definition seen_upto (k : Z) (seen : gset Z) (prev : option Z) : Prop :=
  (0 <= k)%Z /\ (forall x, x ∈ seen -> (x <= k)%Z) /\
  match prev with None => k = 0%Z | Some p => p = k /\ k ∈ seen end.

Lemma decode_entry_key ext key val ext' :
  decode_entry ext key val = Ok ext' -> (1 <= key <= 5)%Z.
Proof. unfold decode_entry. repeat case_match; breflect; try done; lia. Qed.

Lemma entry_step k key seen prev ext val ext' rest :
  (k < key)%Z -> seen_upto k seen prev -> decode_entry ext key val = Ok ext' ->
  seen_upto key ({[key]} ∪ seen) (Some key) /\
  decode_entries ext seen prev ((UInt key, val) :: rest)
  = decode_entries ext' ({[key]} ∪ seen) (Some key) rest.
Proof.
  intros Hk (Hk0 & Hseen & Hprev) He. split.
  - split; [lia|]. split; [|set_solver]. intros x. rewrite elem_of_union, elem_of_singleton.
    intros [->|Hx]; [lia|]. specialize (Hseen x Hx). lia.
  - cbn [decode_entries rbind]. rewrite bool_decide_false.
    2:{ intros Hx. specialize (Hseen _ Hx). lia. }
    assert (Hp : match prev with Some pk => (key <? pk)%Z | None => false end = false).
    { destruct prev as [pk|]; [|done]. apply Z.ltb_ge. lia. }
    by rewrite Hp, He.
Qed.

Lemma entry_step_inv k seen prev ext ki val rest h :
  seen_upto k seen prev -> decode_entries ext seen prev ((ki, val) :: rest) = Ok h ->
  exists key ext', ki = UInt key /\ (k < key <= 5)%Z /\ decode_entry ext key val = Ok ext' /\
    seen_upto key ({[key]} ∪ seen) (Some key) /\
    decode_entries ext' ({[key]} ∪ seen) (Some key) rest = Ok h.
Proof.
  intros Hs H. cbn [decode_entries] in H. destruct ki as [key| | | | |]; try done. cbn [rbind] in H.
  rsteps H. breflect. rename t into ext'. pose proof (decode_entry_key _ _ _ _ E) as Hr.
  assert (Hk : (k < key)%Z).
  { destruct Hs as (_ & _ & Hp). destruct prev as [pk|]; [|lia]. destruct Hp as [-> Hin]. breflect.
    assert (key <> k) by (by intros ->). lia. }
  exists key, ext'. split; [done|]. split; [lia|]. split; [done|].
  split; [|done]. exact (proj1 (entry_step k key seen prev ext val ext' [] Hk Hs E)).
Qed.

(** Headers that agree on the fields of keys up to [k]. *)
Definition agree (k : Z) (a b : ExtensionHeader) : Prop :=
  (if (1 <=? k)%Z then initial_not_before_unix_ns a = initial_not_before_unix_ns b else True) /\
  (if (2 <=? k)%Z then content_type a = content_type b else True) /\
  (if (3 <=? k)%Z then metadata a = metadata b else True) /\
  (if (4 <=? k)%Z then producer_id a = producer_id b else True) /\
  (if (5 <=? k)%Z then trace_context a = trace_context b else True).
(** The fields of keys above [k] are unset. *)
Definition unset_above (k : Z) (h : ExtensionHeader) : Prop :=
  (if (k <? 1)%Z then initial_not_before_unix_ns h = None else True) /\
  (if (k <? 2)%Z then content_type h = [] else True) /\
  (if (k <? 3)%Z then metadata h = [] else True) /\
  (if (k <? 4)%Z then producer_id h = None else True) /\
  (if (k <? 5)%Z then trace_context h = None else True).
(** The fields of keys above [k] are as the decoder leaves them. *)
Definition decoded_above (k : Z) (h : ExtensionHeader) : Prop :=
  (if (k <? 1)%Z then forall ns, initial_not_before_unix_ns h = Some ns -> is_u64 ns else True) /\
  (if (k <? 2)%Z then content_type h = [] \/ validate_content_type (content_type h) = Ok tt else True) /\
  (if (k <? 3)%Z then metadata_wf (metadata h) /\ normalize_metadata (metadata h) = metadata h else True) /\
  (if (k <? 4)%Z then forall pid, producer_id h = Some pid -> utf8_valid pid = true /\
     (length pid <= MAX_PRODUCER_ID_LEN)%nat /\ existsb (fun b => bool_decide (b = x00)) pid = false
   else True) /\
  (if (k <? 5)%Z then forall tc, trace_context h = Some tc -> (length tc <= MAX_TRACE_CONTEXT_LEN)%nat
   else True).

(** What one accepted entry stores. *)
Lemma decode_entry_inv ext key val ext' :
  item_ok 2 val -> metadata ext = [] \/ key <> 3%Z -> decode_entry ext key val = Ok ext' ->
  (key = 1%Z /\ exists v, val = UInt v /\ is_u64 v /\ ext' = set_initial_not_before ext v) \/
  (key = 2%Z /\ exists ct, val = Text ct /\ validate_content_type ct = Ok tt /\ ct <> [] /\
     ext' = set_content_type ext ct) \/
  (key = 3%Z /\ exists m, val = Map (meta_items_of m) /\ metadata_wf m /\ normalize_metadata m = m /\
     ext' = set_metadata ext m) \/
  (key = 4%Z /\ exists pid, val = Text pid /\ utf8_valid pid = true /\
     (length pid <= MAX_PRODUCER_ID_LEN)%nat /\
     existsb (fun b => bool_decide (b = x00)) pid = false /\ ext' = set_producer_id ext pid) \/
  (key = 5%Z /\ exists tc, val = Bytes tc /\ (length tc <= MAX_TRACE_CONTEXT_LEN)%nat /\
     ext' = set_trace_context ext tc).
Proof.
  unfold decode_entry. intros Hit Hm H.
  destruct (key =? 1)%Z eqn:K1; [|destruct (key =? 2)%Z eqn:K2; [|destruct (key =? 3)%Z eqn:K3;
    [|destruct (key =? 4)%Z eqn:K4; [|destruct (key =? 5)%Z eqn:K5; [|done]]]]]; breflect;
    destruct val as [v|v|b|ct|b|l]; try done; rsteps H; subst ext'; breflect; cbn [item_ok] in Hit.
  - left. eauto.
  - right; left. destruct t. split; [done|]. exists ct. split; [done|]. split; [done|].
    split; [by intros ->|done].
  - right; right; left. split; [done|]. destruct Hm as [Hm|Hm]; [|done]. rewrite Hm in E.
    apply decode_metadata_sound in E as (Hw & Hn & ->); [by eauto|].
    destruct Hit as [_ Hf]. eapply Forall_impl; [exact Hf|]. naive_solver.
  - right; right; right; left. eauto 10.
  - right; right; right; right. eauto.
Qed.

Lemma metadata_entry_some e m :
  metadata_entry e m = [(UInt KEY_METADATA, Map (meta_items_of m))] \/ (m = [] /\ e = false).
Proof. destruct m; [|by left]. destruct e; [by left|by right]. Qed.

(** Evaluate the key comparisons at a concrete [k]. *)
Ltac at_key := cbn [Z.leb Z.ltb Z.compare Pos.compare Pos.compare_cont] in *.
Ltac header_fields := cbn [initial_not_before_unix_ns content_type metadata producer_id trace_context
  set_initial_not_before set_content_type set_metadata set_producer_id set_trace_context] in *.

Lemma metadata_wf_nil : metadata_wf [].
Proof. split; [constructor|]. split; [cbn; lia|constructor]. Qed.

Lemma unset_no_entries k h : unset_above k h -> entries_above k false h = [].
Proof.
  destruct h as [ns ct m pid tc]. unfold unset_above, entries_above. header_fields.
  intros (H1 & H2 & H3 & H4 & H5). by repeat case_match; simplify_eq.
Qed.

Lemma unset_decoded k h : unset_above k h -> decoded_above k h.
Proof.
  destruct h as [ns ct m pid tc]. unfold unset_above, decoded_above. header_fields.
  intros (H1 & H2 & H3 & H4 & H5).
  destruct (k <? 1)%Z, (k <? 2)%Z, (k <? 3)%Z, (k <? 4)%Z, (k <? 5)%Z; subst;
    split_fields; try done; first [by left | apply metadata_wf_nil].
Qed.

Lemma agree_refl k h : agree k h h.
Proof. unfold agree. repeat split; by case_match. Qed.

Ltac key_cases k Hk :=
  let H := fresh in
  assert (k = 0 \/ k = 1 \/ k = 2 \/ k = 3 \/ k = 4)%Z as H by lia;
  repeat destruct H as [->|H]; [..|subst k]; try lia; clear Hk; at_key.

(** An accepted entry leaves the later fields unset. *)
Lemma unset_after k key ext val ext' :
  (k < key)%Z -> unset_above k ext -> decode_entry ext key val = Ok ext' -> unset_above key ext'.
Proof.
  intros Hk Hu He. pose proof (decode_entry_key _ _ _ _ He) as Hr.
  assert (Hm : unset_above key ext).
  { destruct Hu as (H1 & H2 & H3 & H4 & H5). unfold unset_above.
    split_fields; repeat (case_match; breflect; try done; try lia). }
  clear Hu. unfold decode_entry in He. unfold unset_above in *.
  repeat case_match; breflect; try done; subst; rsteps He; subst; header_fields; at_key; try done.
Qed.

(** Adding one entry below a decoded suffix. *)
Lemma decoded_step k key ext ext' val h e :
  (0 <= k < key)%Z -> item_ok 2 val -> unset_above k ext -> decode_entry ext key val = Ok ext' ->
  agree key ext' h -> decoded_above key h ->
  exists e', (UInt key, val) :: entries_above key e h = entries_above k e' h /\
    agree k ext h /\ decoded_above k h.
Proof.
  intros Hk Hv Hu He Ha Hd.
  apply decode_entry_inv in He; [|done|].
  2:{ destruct (decide (key = 3%Z)) as [->|]; [left|by right]. destruct Hu as (_ & _ & Hm & _).
      rewrite (proj2 (Z.ltb_lt _ _)) in Hm by lia. done. }
  destruct ext as [ns ct m pid tc], h as [ns' ct' m' pid' tc'].
  unfold unset_above, agree, decoded_above, entries_above in *.
  destruct He as [(-> & v & -> & Hn & ->)|[(-> & c & -> & Hc & Hne & ->)|[(-> & mm & -> & Hw & Hn & ->)
    |[(-> & p & -> & Hp1 & Hp2 & Hp3 & ->)|(-> & t & -> & Ht & ->)]]]]; header_fields;
    [exists e|exists e|exists true|exists false|exists false];
    key_cases k Hk; split_hyps; subst; try (destruct ct' as [|b ct']; [done|]).
  all: split; [first [done | by destruct m']|].
  all: split_fields; try done; try (by left); try (by right); try (intros; by simplify_eq);
    try apply metadata_wf_nil.
Qed.

Lemma decode_entries_sound items : forall ext k seen prev h,
  Forall (fun kv => item_ok 2 kv.2) items -> seen_upto k seen prev ->
  unset_above k ext -> decode_entries ext seen prev items = Ok h ->
  exists e, items = entries_above k e h /\ agree k ext h /\ decoded_above k h.
Proof.
  induction items as [|[ki val] items IH]; intros ext k seen prev h Hit Hs Hu H.
  { injection H as <-. exists false. rewrite unset_no_entries by done.
    split; [done|]. split; [apply agree_refl|by apply unset_decoded]. }
  apply entry_step_inv with (k := k) in H as (key & ext' & -> & Hkey & He & Hs' & H); [|done].
  inversion Hit as [|? ? Hv Hit']; subst. cbn [snd] in Hv.
  assert (Hu' : unset_above key ext') by (eapply unset_after; eauto; lia).
  destruct (IH ext' key _ _ h Hit' Hs' Hu' H) as (e & -> & Ha & Hd).
  destruct Hs as [Hk0 _]. eapply decoded_step; eauto. lia.
Qed.

(** An optional entry advances the decoder from below its key to at most its key. *)
Lemma opt_step key k seen prev ext ext' entry :
  (k < key)%Z -> seen_upto k seen prev ->
  (entry = [] /\ ext' = ext) \/
  (exists val, entry = [(UInt key, val)] /\ decode_entry ext key val = Ok ext') ->
  exists k' seen' prev', (k' < key + 1)%Z /\ seen_upto k' seen' prev' /\
    forall rest, decode_entries ext seen prev (entry ++ rest) = decode_entries ext' seen' prev' rest.
Proof.
  intros Hk Hs [[-> ->]|(val & -> & He)].
  - exists k, seen, prev. split; [lia|done].
  - exists key, ({[key]} ∪ seen), (Some key). split; [lia|].
    split; [exact (proj1 (entry_step k key seen prev ext val ext' [] Hk Hs He))|].
    intros rest. exact (proj2 (entry_step k key seen prev ext val ext' rest Hk Hs He)).
Qed.

Lemma decode_header_items e h :
  ExtensionHeader_typed h -> ExtensionHeader_validate h = Ok tt ->
  decode_entries ExtensionHeader_default ∅ None (header_items e h) = Ok (normalize_header h).
Proof.
  intros (Hns & Hsort & Htyp & Hpid) Hv. apply ExtensionHeader_validate_iff in Hv as (Hct & Hl & Hm & Hp & Ht).
  assert (Hwf : metadata_wf (metadata h)).
  { split; [done|]. split; [done|]. rewrite Forall_forall in *. naive_solver. }
  pose proof (decode_metadata_complete _ Hwf) as Hmeta.
  destruct h as [ns ct m pid tc]. unfold header_items, entries_above, normalize_header. header_fields. at_key.
  assert (Hs0 : seen_upto 0 ∅ None) by (split; [done|]; set_solver).
  edestruct (opt_step 1 0 ∅ None ExtensionHeader_default (mkExtensionHeader ns [] [] None None))
    as (k1 & seen1 & prev1 & Hk1 & Hs1 & ->); [done|done| |].
  { destruct ns as [n|]; [right; by exists (UInt n)|by left]. }
  assert (Hne : ct <> []) by (by intros ->).
  edestruct (opt_step 2 k1 seen1 prev1 (mkExtensionHeader ns [] [] None None)
    (mkExtensionHeader ns ct [] None None)) as (k2 & seen2 & prev2 & Hk2 & Hs2 & ->); [lia|done| |].
  { right. exists (Text ct). split; [by destruct ct|]. cbn. by rewrite Hct. }
  edestruct (opt_step 3 k2 seen2 prev2 (mkExtensionHeader ns ct [] None None)
    (mkExtensionHeader ns ct (normalize_metadata m) None None))
    as (k3 & seen3 & prev3 & Hk3 & Hs3 & ->); [lia|done| |].
  { destruct (metadata_entry_some e m) as [->|[-> ->]]; [right|by left].
    exists (Map (meta_items_of m)). split; [done|]. cbn -[decode_metadata]. by rewrite Hmeta. }
  edestruct (opt_step 4 k3 seen3 prev3 (mkExtensionHeader ns ct (normalize_metadata m) None None)
    (mkExtensionHeader ns ct (normalize_metadata m) pid None))
    as (k4 & seen4 & prev4 & Hk4 & Hs4 & ->); [lia|done| |].
  { destruct pid as [p|]; [right; exists (Text p); split; [done|]|by left].
    destruct (Hp p eq_refl) as [Hp1 Hp2]. unfold decode_entry. cbn [Z.eqb Pos.eqb].
    rewrite Hp2. by rewrite (proj2 (Nat.ltb_ge _ _)). }
  destruct (opt_step 5 k4 seen4 prev4 (mkExtensionHeader ns ct (normalize_metadata m) pid None)
    (mkExtensionHeader ns ct (normalize_metadata m) pid tc) (opt_entry KEY_TRACE_CONTEXT Bytes tc))
    as (k5 & seen5 & prev5 & _ & _ & H5); [lia|done| |].
  { destruct tc as [t|]; [right; exists (Bytes t); split; [done|]|by left].
    unfold decode_entry. cbn [Z.eqb Pos.eqb]. by rewrite (proj2 (Nat.ltb_ge _ _)) by (by apply Ht). }
  specialize (H5 []). rewrite app_nil_r in H5. by rewrite H5.
Qed.

(** ** The encoder writes the header's items *)

Lemma encode_metadata_value_app buf v :
  value_typed v -> encode_metadata_value buf v = buf ++ enc_item (value_item v).
Proof.
  destruct v as [[]|n|n|s|b]; cbn [encode_metadata_value value_item enc_item value_typed]; intros Ht.
  - done.
  - done.
  - unfold is_i64, wrap64 in *. destruct (0 <=? n)%Z eqn:E; breflect; cbn [enc_item];
      rewrite encode_header_app, ?Z.mod_small; try done; try lia.
    + unfold Z.lnot. do 2 f_equal. lia.
    + unfold Z.lnot. lia.
  - by rewrite encode_header_app.
  - by rewrite encode_text_string_app.
  - by rewrite encode_byte_string_app.
Qed.

Lemma encode_metadata_entries_app buf l :
  Forall (fun kv => value_typed kv.2) l ->
  encode_metadata_entries buf (map (fun kv => (encode_text_string [] kv.1, kv.1, kv.2)) l)
  = buf ++ enc_pairs (entry_items value_item l).
Proof.
  revert buf. induction l as [|[k v] l IH]; intros buf Hf; [cbn; by rewrite app_nil_r|].
  apply Forall_cons in Hf as [Hv Hf]. cbn [map encode_metadata_entries fst snd].
  rewrite IH by done. rewrite encode_metadata_value_app, encode_text_string_app by done.
  cbn. fold (enc_pairs (entry_items value_item l)). by rewrite <- !app_assoc.
Qed.

Lemma encoded_keys_eq m :
  encoded_keys m
  = map (fun kv => (encode_text_string [] kv.1, kv.1, kv.2)) (sort_by enc_key m).
Proof. unfold encoded_keys. by rewrite sort_by_map. Qed.

Lemma enc_pairs_cons k v l : enc_pairs ((k, v) :: l) = enc_item k ++ enc_item v ++ enc_pairs l.
Proof. unfold enc_pairs. cbn. by rewrite <- app_assoc. Qed.

(** Separate every encoder call from the buffer it appends to. *)
Ltac split_buffers := repeat match goal with
  | |- context [encode_header ?b ?m ?v] =>
      lazymatch b with [] => fail | _ => rewrite (encode_header_app b m v) end
  | |- context [encode_text_string ?b ?v] =>
      lazymatch b with [] => fail | _ => rewrite (encode_text_string_app b v) end
  | |- context [encode_byte_string ?b ?v] =>
      lazymatch b with [] => fail | _ => rewrite (encode_byte_string_app b v) end
  end.

(** The buffer the encoder builds before the size check. *)
Lemma encode_iff h b :
  ExtensionHeader_typed h ->
  ExtensionHeader_encode h = Ok b <->
  ExtensionHeader_validate h = Ok tt /\ b = enc_item (Map (header_items false h)) /\
  (length b <= MAX_EXTENSION_SIZE)%nat.
Proof.
  intros (_ & _ & Htyp & _). unfold ExtensionHeader_encode.
  destruct (ExtensionHeader_validate h) as [[]|] eqn:Hv; cbn [rbind]; [|naive_solver]. cbv zeta.
  assert (Hne : content_type h <> []).
  { apply ExtensionHeader_validate_iff in Hv as [Hct _]. by intros E; rewrite E in Hct. }
  match goal with |- context [(MAX_EXTENSION_SIZE <? length ?x)%nat] => set (buf := x) end.
  assert (Hb : buf = enc_item (Map (header_items false h))); [|rewrite <- Hb].
  2:{ destruct (_ <? _)%nat eqn:G; breflect; [split; [done|]; intros (_ & -> & ?); lia|].
      split; [by intros [= <-]|]. by intros (_ & -> & _). }
  subst buf. destruct h as [ns ct m pid tc]. unfold header_items, entries_above. header_fields. at_key.
  destruct ct as [|c ct]; [done|]. cbn [enc_item].
  match goal with |- context [flat_map ?f ?l] => change (flat_map f l) with (enc_pairs l) end.
  destruct m as [|kv m].
  - destruct ns, pid, tc; cbn [opt_entry metadata_entry app length];
      rewrite !enc_pairs_cons; cbn [enc_item enc_pairs flat_map];
      split_buffers; rewrite <- ?app_assoc, ?app_nil_r; reflexivity.
  - set (mm := kv :: m) in *.
    assert (Hm : forall buf, encode_metadata_entries (encode_header buf 5 (Z.of_nat (length mm))) (encoded_keys mm)
      = buf ++ enc_item (Map (meta_items_of mm))).
    { intros buf. rewrite encoded_keys_eq, encode_metadata_entries_app by (by rewrite sort_by_perm).
      cbn [enc_item]. fold (enc_pairs (meta_items_of mm)).
      by rewrite length_meta_items_of, encode_header_app, <- app_assoc. }
    replace (metadata_entry false mm) with [(UInt KEY_METADATA, Map (meta_items_of mm))] by done.
    generalize (meta_items_of mm) Hm. intros items Hmm. clearbody mm.
    destruct ns, pid, tc; cbn [opt_entry app length]; rewrite Hmm;
      rewrite !enc_pairs_cons; cbn [enc_pairs flat_map];
      set (mi := enc_item (Map items)); cbn [enc_item];
      split_buffers; rewrite <- ?app_assoc, ?app_nil_r; reflexivity.
Qed.

Lemma validate_content_type_utf8 s : validate_content_type s = Ok tt -> utf8_valid s = true.
Proof.
  unfold validate_content_type. intros H. rsteps H. apply utf8_ascii, Forall_forall. intros b Hb.
  unfold in_range. pose proof (b2z_range b).
  destruct (b2z b <=? 127)%Z eqn:E; [by rewrite (proj2 (Z.leb_le _ _)) by lia|]. breflect.
  apply not_true_iff_false in G0. rewrite existsb_exists in G0. contradict G0.
  exists b. split; [by apply list_elem_of_In|].
  by rewrite (proj2 (Z.leb_gt (b2z b) 126)), andb_false_r by lia.
Qed.

Lemma value_item_ok v : value_typed v -> item_ok 1 (value_item v).
Proof.
  destruct v as [b|n|n|s|b]; cbn [value_typed value_item item_ok]; try done.
  unfold is_i64. intros Hn. destruct (0 <=? n)%Z eqn:E; breflect; cbn [item_ok];
    unfold is_u64, i64_max; lia.
Qed.

Lemma meta_items_ok m : metadata_wf m -> item_ok 2 (Map (meta_items_of m)).
Proof.
  intros (_ & Hl & Hf). cbn [item_ok]. rewrite length_meta_items_of. split; [lia|].
  unfold meta_items_of, entry_items. change (map ?g ?l) with (g <$> l). rewrite Forall_fmap, sort_by_perm.
  eapply Forall_impl; [exact Hf|]. intros [k v] [[Hk _] Hv]. cbn [fst snd compose] in *. split.
  - apply validate_metadata_key_ascii in Hk as [_ Hk]. by apply utf8_ascii.
  - by apply value_item_ok.
Qed.

Lemma header_items_ok e h :
  ExtensionHeader_typed h -> ExtensionHeader_validate h = Ok tt -> item_ok 3 (Map (header_items e h)).
Proof.
  intros (Hns & Hsort & Htyp & Hpid) Hv. apply ExtensionHeader_validate_iff in Hv as (Hct & Hl & Hm & Hp & Ht).
  assert (Hwf : metadata_wf (metadata h)).
  { split; [done|]. split; [done|]. rewrite Forall_forall in *. naive_solver. }
  apply meta_items_ok in Hwf. apply validate_content_type_utf8 in Hct.
  destruct h as [ns ct m pid tc]. unfold header_items, entries_above. header_fields. at_key.
  set (l := _ ++ _). assert (HF : Forall (fun kv => item_ok 2 kv.1 /\ item_ok 2 kv.2) l).
  { subst l. rewrite !Forall_app. split_fields.
    - destruct ns as [n|]; repeat constructor; try (apply Hns; done); unfold KEY_INITIAL_NOT_BEFORE; lia.
    - destruct ct; repeat constructor; try done; unfold KEY_CONTENT_TYPE; lia.
    - destruct (metadata_entry_some e m) as [->|[-> ->]]; [|constructor].
      constructor; [|constructor]. split; [cbn; unfold is_u64, KEY_METADATA; lia|exact Hwf].
    - destruct pid as [p|]; repeat constructor; try (by apply Hpid); unfold KEY_PRODUCER_ID; lia.
    - destruct tc as [t|]; repeat constructor; unfold KEY_TRACE_CONTEXT; lia. }
  split; [|exact HF]. subst l. unfold MAX_METADATA_ENTRIES.
  destruct ns, ct, pid, tc; cbn [opt_entry app length]; destruct (metadata_entry_some e m) as [->|[-> ->]];
    cbn; lia.
Qed.

(** ** Properties *)

(** C35: what the encoder produces, the decoder reads back.  For every header
    of the Rust types, encoded bytes decode to the same header, with
    non-negative [I64] metadata in the [U64] representation. *)
Theorem extension_round_trip h b :
  ExtensionHeader_typed h -> ExtensionHeader_encode h = Ok b ->
  ExtensionHeader_decode b = Ok (normalize_header h).
Proof.
  intros Ht He. apply encode_iff in He as (Hv & -> & Hl); [|done].
  apply ExtensionHeader_decode_items. split; [done|].
  exists (header_items false h). split; [by apply header_items_ok|]. split; [done|].
  split; [by apply decode_header_items|].
  apply ExtensionHeader_validate_iff in Hv as [Hct _]. cbn. by intros E; rewrite E in Hct.
Qed.

Lemma extension_round_trip_witness :
  exists b, ExtensionHeader_encode sample_extension = Ok b /\
    ExtensionHeader_decode b = Ok (normalize_header sample_extension).
Proof.
  destruct (ExtensionHeader_encode sample_extension) as [b|] eqn:E; [|vm_compute in E; discriminate].
  exists b. split; [reflexivity|]. apply extension_round_trip; [|exact E].
  split; [by intros ns [= <-]|]. split; [repeat constructor|]. split; [|by intros pid [= <-]].
  repeat (apply List.Forall_cons; [first [done | cbn; unfold is_i64, is_u64; lia]|]). constructor.
Defined.

(** The header after decoding satisfies what [validate] checks. *)
Lemma decoded_validate h :
  decoded_above 0 h -> content_type h <> [] ->
  ExtensionHeader_typed h /\ normalize_header h = h /\ ExtensionHeader_validate h = Ok tt.
Proof.
  destruct h as [ns ct m pid tc]. unfold decoded_above. header_fields. at_key.
  intros (Hns & Hct & [(Hs & Hl & Hf) Hn] & Hp & Ht) Hne.
  assert (Hf' : Forall (fun kv => value_typed kv.2) m /\
    Forall (fun kv => validate_metadata_key kv.1 = Ok tt /\ value_fits kv.2) m).
  { rewrite !Forall_forall in *. naive_solver. }
  destruct Hf' as [Hf1 Hf2].
  split; [split; [done|]; split; [done|]; split; [done|]; naive_solver|].
  split; [unfold normalize_header; cbn [metadata]; rewrite Hn; done|].
  apply ExtensionHeader_validate_iff. header_fields. naive_solver.
Qed.

(** C36: the decoder accepts only canonical bytes.  A decoded header is valid
    and normal, and the input is either exactly what the encoder writes for it,
    or that encoding with an explicit empty metadata map (key 3 with [0xa0]),
    which the encoder never writes; and all of these inputs are accepted. *)
Theorem extension_decode_canonical b h :
  ExtensionHeader_decode b = Ok h <->
  ExtensionHeader_typed h /\ normalize_header h = h /\
  (ExtensionHeader_encode h = Ok b \/
   (metadata h = [] /\ ExtensionHeader_validate h = Ok tt /\
    b = enc_item (Map (header_items true h)) /\ (length b <= MAX_EXTENSION_SIZE)%nat)).
Proof.
  rewrite ExtensionHeader_decode_items. split.
  - intros (Hl & items & Hit & -> & Hd & Hne).
    assert (Hs0 : seen_upto 0 ∅ None) by (split; [done|]; set_solver).
    destruct (decode_entries_sound items ExtensionHeader_default 0 ∅ None h) as (e & -> & _ & Hdec);
      [|done|done|done|].
    { destruct Hit as [_ Hf]. eapply Forall_impl; [exact Hf|]. intros kv [_ ?]. done. }
    destruct (decoded_validate h Hdec Hne) as (Ht & Hn & Hv). split; [done|]. split; [done|].
    fold (header_items e h) in *. destruct e.
    + destruct (metadata h) as [|kv m] eqn:Em; [by right|]. left. apply encode_iff; [done|].
      split; [done|]. split; [|done]. unfold header_items, entries_above, metadata_entry. by rewrite Em.
    + left. by apply encode_iff.
  - intros (Ht & Hn & Hb).
    assert (exists e, ExtensionHeader_validate h = Ok tt /\ b = enc_item (Map (header_items e h)) /\
      (length b <= MAX_EXTENSION_SIZE)%nat) as (e & Hv & -> & Hl).
    { destruct Hb as [Hb|(_ & Hb)]; [exists false; by apply encode_iff|by exists true]. }
    split; [done|]. exists (header_items e h). split; [by apply header_items_ok|]. split; [done|].
    rewrite decode_header_items, Hn by done. split; [done|].
    apply ExtensionHeader_validate_iff in Hv as [Hct _]. by intros E; rewrite E in Hct.
Qed.

(** The parser reads exactly one shortest-form item.  From any in-range
    state, [read_item] returns [it] and the advanced state precisely when [it]
    is within the machine ranges and at most the remaining nesting levels deep
    and the next bytes are its deterministic encoding; and any fuel of at least
    the remaining levels gives the same outcome, errors included. *)
Theorem read_item_exact f1 f2 p it p' :
  parser_ok p -> (0 <= depth p)%Z -> (levels p <= f1)%nat -> (levels p <= f2)%nat ->
  read_item f1 p = read_item f2 p /\
  (read_item f1 p = Ok (it, p') <-> item_ok (levels p) it /\ consumes p (enc_item it) p').
Proof. intros. split; [by apply read_item_fuel|by apply read_item_iff]. Qed.

Lemma read_item_exact_witness :
  let p := mkCborParser [xa1; x01; x18; x20] 0 0 in
  let it := Map [(UInt 1, UInt 32)] in
  let p' := mkCborParser [xa1; x01; x18; x20] 4 0 in
  read_item 3 p = read_item 9 p /\
  (read_item 3 p = Ok (it, p') <-> item_ok (levels p) it /\ consumes p (enc_item it) p').
Proof. cbv zeta. apply read_item_exact; [split; apply Nat.leb_le; reflexivity|done|apply Nat.leb_le; reflexivity..]. Defined.
