(* ===== verification/FsLinux.v ===== *)
(** * steadq-fs-linux: the system-call substrate

    Models [crates/steadq-fs-linux/src/lib.rs]: path validation, the
    NUL-terminated path conversion, the thin wrappers around the system calls
    the durable move engine uses, and the write loops.  A function that talks
    to the kernel is a program of the type [io]: a tree of system calls whose
    continuations take the kernel's answer.  The kernel itself is not modelled
    here; [exec] relates a program to every sequence of calls and answers it
    can have.  The fault-injection hooks are taken as disarmed, which is their
    state outside of tests. *)
From stdpp Require Import base numbers list option strings.
From Stdlib Require Import Strings.Byte ZArith.
From S2P Require Import Prelude.
Open Scope string_scope.
Open Scope list_scope.

(** ** [std::io::Error] *)

Definition EPERM : Z := 1.
Definition ENOENT : Z := 2.
Definition EINTR : Z := 4.
Definition EAGAIN : Z := 11.
Definition EACCES : Z := 13.
Definition EEXIST : Z := 17.
Definition ENOTDIR : Z := 20.
Definition EISDIR : Z := 21.
Definition EINVAL : Z := 22.
Definition ENOSPC : Z := 28.
Definition EPIPE : Z := 32.
Definition ENOSYS : Z := 38.
Definition ENOTEMPTY : Z := 39.
Definition ELOOP : Z := 40.
Definition EOPNOTSUPP : Z := 95.
Definition EDQUOT : Z := 122.

(** The error kinds the code distinguishes. *)
Inductive ErrorKind : Type :=
| KAlreadyExists | KNotFound | KInterrupted | KInvalidInput | KInvalidData
| KWriteZero | KUnexpectedEof | KWouldBlock | KFileTooLarge | KUnsupported
| KPermissionDenied | KStorageFull | KQuotaExceeded | KBrokenPipe | KOther.
#[global] Instance ErrorKind_eq_dec : EqDecision ErrorKind.
Proof. solve_decision. Defined.

(** An error reported by the operating system, or one made by the code. *)
Inductive IoError : Type :=
| OsError (code : Z)
| CustomError (k : ErrorKind) (message : string).

Definition raw_os_error (e : IoError) : option Z :=
  match e with OsError code => Some code | CustomError _ _ => None end.
Definition kind (e : IoError) : ErrorKind :=
  match e with
  | OsError code =>
      if (code =? EEXIST)%Z then KAlreadyExists
      else if (code =? ENOENT)%Z then KNotFound
      else if (code =? EINTR)%Z then KInterrupted
      else if (code =? EINVAL)%Z then KInvalidInput
      else if (code =? EAGAIN)%Z then KWouldBlock
      else if (code =? EPERM)%Z || (code =? EACCES)%Z then KPermissionDenied
      else if (code =? ENOSPC)%Z then KStorageFull
      else if (code =? EDQUOT)%Z then KQuotaExceeded
      else if (code =? EPIPE)%Z then KBrokenPipe
      else KOther
  | CustomError k _ => k
  end.

(** [matches!(error.raw_os_error(), Some(a) | Some(b) | ...)] *)
Definition os_error_in (codes : list Z) (e : IoError) : bool :=
  match raw_os_error e with Some code => existsb (Z.eqb code) codes | None => false end.

(** ** Path validation *)

Definition MAX_COMPONENT_BYTES : nat := 255.
Definition MAX_RELATIVE_PATH_BYTES : nat := Z.to_nat 4095.

Definition contains (b : byte) (s : bytes) : bool := existsb (fun c => bool_decide (c = b)) s.
Definition is_ascii_graphic (b : byte) : bool := (33 <=? b2z b)%Z && (b2z b <=? 126)%Z.

Definition validate_path_component (comp : bytes) : result unit IoError :=
  if (length comp =? 0)%nat then Err (CustomError KInvalidInput "empty path component")
  else if bool_decide (comp = lit "..") || bool_decide (comp = lit ".")
  then Err (CustomError KInvalidInput "path component is '.' or '..'")
  else if contains "/"%byte comp then Err (CustomError KInvalidInput "slash in path component")
  else if contains x00 comp then Err (CustomError KInvalidInput "NUL byte in path component")
  else if negb (forallb is_ascii_graphic comp)
  then Err (CustomError KInvalidInput "path component contains noncanonical ASCII")
  else if (MAX_COMPONENT_BYTES <? length comp)%nat
  then Err (CustomError KInvalidInput "path component exceeds 255 bytes")
  else Ok tt.

(** [str::split('/')]: always at least one piece. *)
Fixpoint split_slash (s : bytes) : list bytes :=
  match s with
  | [] => [[]]
  | b :: s' =>
      if bool_decide (b = "/"%byte) then [] :: split_slash s'
      else match split_slash s' with
           | p :: ps => (b :: p) :: ps
           | [] => [[b]]
           end
  end.

Fixpoint validate_components (comps : list bytes) : result unit IoError :=
  match comps with
  | [] => Ok tt
  | comp :: rest =>
      if (length comp =? 0)%nat
      then Err (CustomError KInvalidInput "empty path component in relative path")
      else let? _ := validate_path_component comp in validate_components rest
  end.

Record ValidatedRelativePath : Type := mkValidatedRelativePath { vrp_path : bytes }.

Definition validate_relative_path (path : bytes) : result ValidatedRelativePath IoError :=
  if bool_decide (head path = Some "/"%byte)
  then Err (CustomError KInvalidInput "absolute path not allowed")
  else if (length path =? 0)%nat then Err (CustomError KInvalidInput "empty path")
  else if (MAX_RELATIVE_PATH_BYTES <? length path)%nat
  then Err (CustomError KInvalidInput "relative path exceeds 4095 bytes")
  else
    let? _ := validate_components (split_slash path) in
    Ok (mkValidatedRelativePath path).

Definition ValidatedRelativePath_components (p : ValidatedRelativePath) : list bytes :=
  split_slash (vrp_path p).

(** ** Paths handed to the kernel *)

(** [CPath::from_bytes]: the bytes before the terminating NUL; both the inline
    and the heap form represent the same C string. *)
Definition CPath_from_bytes (bs : bytes) (nul_error : string) : result bytes IoError :=
  if contains x00 bs then Err (CustomError KInvalidInput nul_error) else Ok bs.
Definition cstr_from_name (name : bytes) : result bytes IoError :=
  CPath_from_bytes name "path component contains NUL byte".

(** The loop that finds the divisor of the leading digit; ten rounds are
    enough for a [u32] (see [find_divisor_spec]). *)
Fixpoint find_divisor (fuel : nat) (value divisor : Z) : Z :=
  match fuel with
  | O => divisor
  | S fuel' =>
      if (10 <=? value / divisor)%Z then find_divisor fuel' value (divisor * 10) else divisor
  end.

(** The loop that writes the digits from the leading one down. *)
Fixpoint write_digits (fuel : nat) (value divisor : Z) (offset : nat) (path : bytes) : bytes :=
  match fuel with
  | O => path
  | S fuel' =>
      let path := write_at offset [z2b (48 + (value / divisor) mod 10)] path in
      if (divisor =? 1)%Z then path
      else write_digits fuel' value (divisor / 10) (S offset) path
  end.

Definition PROC_PREFIX : bytes := lit "/proc/self/fd/".
Definition proc_self_fd_path_raw (value : Z) : bytes :=
  let path := write_at 0 PROC_PREFIX (zeros 32) in
  write_digits 10 value (find_divisor 10 value 1) (length PROC_PREFIX) path.

(** The C string a NUL-padded buffer denotes. *)
Fixpoint c_string (buf : bytes) : bytes :=
  match buf with
  | [] => []
  | b :: buf' => if bool_decide (b = x00) then [] else b :: c_string buf'
  end.

(** ** System calls and programs *)

Record Stat : Type := mkStat {
  st_dev : Z; st_ino : Z; st_mode : Z; st_nlink : Z; st_size : Z
}.
(** The zero-initialized buffer the kernel fills in. *)
Definition zeroed_stat : Stat := mkStat 0 0 0 0 0.

Inductive Syscall : Type :=
| SysFsync (fd : Z)
| SysRenameat2 (old_dir : Z) (old_name : bytes) (new_dir : Z) (new_name : bytes) (flags : Z)
| SysRenameat (old_dir : Z) (old_name : bytes) (new_dir : Z) (new_name : bytes)
| SysLinkat (old_dir : Z) (old_path : bytes) (new_dir : Z) (new_name : bytes) (flags : Z)
| SysUnlinkat (dir : Z) (name : bytes) (flags : Z)
| SysFstatat (dir : Z) (name : bytes) (flags : Z)
| SysFstat (fd : Z)
| SysWrite (fd : Z) (data : bytes)
| SysWritev (fd : Z) (iovs : list bytes)
| SysPwrite (fd : Z) (data : bytes) (offset : Z)
| SysPread (fd : Z) (len : nat) (offset : Z)
| SysOpenat (dir : Z) (name : bytes) (flags mode : Z)
| SysOpenat2 (dir : Z) (path : bytes) (flags mode resolve : Z)
| SysDupfd (fd : Z)
| SysMkdirat (dir : Z) (name : bytes) (mode : Z)
| SysOfdSetlk (fd : Z) (lock_type : Z)
| SysClockGettime (clock : Z)
| SysGetrandom (len : nat)
| SysRead (fd : Z) (len : nat)
| SysFdopendir (fd : Z)
| SysReaddir (dir : Z)
| SysLseek (fd : Z) (offset : Z)
| SysFchmodat (dir : Z) (name : bytes) (mode : Z)
| SysStatfs (path : bytes)
| SysInotifyInit (flags : Z)
| SysInotifyAddWatch (fd : Z) (path : bytes) (mask : Z)
| SysPpoll (fd : Z) (tv_sec tv_nsec : Z)
| SysNanosleep (ns : Z).

(** The kernel's answer: an error code, a nonnegative return value, or a
    nonnegative return with the caller's buffer filled in: a stat buffer, the
    bytes read, a time, a directory entry with its offset, or the events of a
    poll.  The end of a directory is a return without an entry. *)
Inductive Answer : Type :=
| Fails (errno : Z)
| Returns (rc : Z)
| Stats (st : Stat)
| Reads (data : bytes)
| Times (tv_sec tv_nsec : Z)
| Entry (d_name : bytes) (d_off : Z)
| Polled (rc revents : Z).

Inductive io (A : Type) : Type :=
| Ret (a : A)
| Sys (c : Syscall) (k : Answer -> io A).
Arguments Ret {A} a.
Arguments Sys {A} c k.

Fixpoint io_bind {A B : Type} (m : io A) (f : A -> io B) : io B :=
  match m with
  | Ret a => f a
  | Sys c k => Sys c (fun r => io_bind (k r) f)
  end.

(** Sequencing, and sequencing with the [?] operator on the result. *)
Notation "'let!' x ':=' m 'in' k" := (io_bind m (fun x => k))
  (at level 10, x pattern, m at level 100, k at level 200,
   format "'[v' 'let!'  x  ':='  m  'in' '//' k ']'") : steadq_scope.
Definition io_try {A B E : Type} (m : io (result A E)) (f : A -> io (result B E)) : io (result B E) :=
  io_bind m (fun r => match r with Ok a => f a | Err e => Ret (Err e) end).
Notation "'let!?' x ':=' m 'in' k" := (io_try m (fun x => k))
  (at level 10, x pattern, m at level 100, k at level 200,
   format "'[v' 'let!?'  x  ':='  m  'in' '//' k ']'") : steadq_scope.
Definition io_map_err {A E F : Type} (f : E -> F) (m : io (result A E)) : io (result A F) :=
  io_bind m (fun r => Ret (map_err f r)).
(** A computation that makes no system call. *)
Definition lift {A E : Type} (r : result A E) : io (result A E) := Ret r.

(** ** Wrappers *)

(** [if rc < 0 { Err(last_os_error()) } else { Ok(()) }] *)
Definition check_rc (r : Answer) : result unit IoError :=
  match r with Fails e => Err (OsError e) | _ => Ok tt end.
Definition check_stat (r : Answer) : result Stat IoError :=
  match r with
  | Fails e => Err (OsError e)
  | Stats st => Ok st
  | _ => Ok zeroed_stat
  end.

Definition syscall (c : Syscall) : io (result unit IoError) := Sys c (fun r => Ret (check_rc r)).

Definition fsync (fd : Z) : io (result unit IoError) := syscall (SysFsync fd).
Definition fsync_dir_fd (fd : Z) : io (result unit IoError) := fsync fd.

Definition RENAME_NOREPLACE : Z := 1.
Definition AT_FDCWD : Z := -100.
Definition AT_EMPTY_PATH : Z := 4096.
Definition AT_SYMLINK_FOLLOW : Z := 1024.
Definition AT_SYMLINK_NOFOLLOW : Z := 256.
Definition AT_REMOVEDIR : Z := 512.
Definition O_CREAT : Z := 64.

Definition renameat2_noreplace (old_dir_fd : Z) (old_name : bytes) (new_dir_fd : Z) (new_name : bytes)
  : io (result unit IoError) :=
  let!? c_old := lift (cstr_from_name old_name) in
  let!? c_new := lift (cstr_from_name new_name) in
  syscall (SysRenameat2 old_dir_fd c_old new_dir_fd c_new RENAME_NOREPLACE).

Definition renameat (old_dir_fd : Z) (old_name : bytes) (new_dir_fd : Z) (new_name : bytes)
  : io (result unit IoError) :=
  let!? c_old := lift (cstr_from_name old_name) in
  let!? c_new := lift (cstr_from_name new_name) in
  syscall (SysRenameat old_dir_fd c_old new_dir_fd c_new).

Definition linkat_empty_path (fd dest_dir_fd : Z) (dest_name : bytes) : io (result unit IoError) :=
  let!? c_dest := lift (cstr_from_name dest_name) in
  syscall (SysLinkat fd [] dest_dir_fd c_dest AT_EMPTY_PATH).

Definition linkat_proc_self_fd (fd dest_dir_fd : Z) (dest_name : bytes) : io (result unit IoError) :=
  let proc_path := proc_self_fd_path_raw (wrap32 fd) in
  let!? c_dest := lift (cstr_from_name dest_name) in
  syscall (SysLinkat AT_FDCWD (c_string proc_path) dest_dir_fd c_dest AT_SYMLINK_FOLLOW).

Definition unlinkat (dir_fd : Z) (name : bytes) : io (result unit IoError) :=
  let!? c_name := lift (cstr_from_name name) in
  syscall (SysUnlinkat dir_fd c_name 0).

Definition unlinkat_dir (dir_fd : Z) (name : bytes) : io (result unit IoError) :=
  let!? c_name := lift (cstr_from_name name) in
  syscall (SysUnlinkat dir_fd c_name AT_REMOVEDIR).

Definition fstatat (dir_fd : Z) (name : bytes) : io (result Stat IoError) :=
  let!? c_name := lift (cstr_from_name name) in
  Sys (SysFstatat dir_fd c_name AT_SYMLINK_NOFOLLOW) (fun r => Ret (check_stat r)).

Definition fstat (fd : Z) : io (result Stat IoError) :=
  Sys (SysFstat fd) (fun r => Ret (check_stat r)).

Inductive PublicationMode : Type := DirectAtEmptyPath | ProcSelfFd | NamedFallback.

(** ** Write loops

    The loops retry, so they take fuel; [None] means it ran out. *)

Definition rc_of (r : Answer) : Z := match r with Returns rc => rc | _ => 0 end.

(** The [while written < buf.len()] loop of [write_all], with the bytes that remain. *)
Fixpoint write_loop (fuel : nat) (fd : Z) (remaining : bytes) : io (option (result unit IoError)) :=
  match remaining with
  | [] => Ret (Some (Ok tt))
  | _ =>
      match fuel with
      | O => Ret None
      | S fuel' =>
          Sys (SysWrite fd remaining) (fun r =>
            match r with
            | Fails e =>
                if bool_decide (kind (OsError e) = KInterrupted) then write_loop fuel' fd remaining
                else Ret (Some (Err (OsError e)))
            | _ =>
                if (rc_of r =? 0)%Z
                then Ret (Some (Err (CustomError KWriteZero "write returned zero bytes (no progress)")))
                else write_loop fuel' fd (drop (Z.to_nat (rc_of r)) remaining)
            end)
      end
  end.
Definition write_all (fuel : nat) (fd : Z) (buf : bytes) : io (option (result unit IoError)) :=
  if (length buf =? 0)%nat then Ret (Some (Ok tt)) else write_loop fuel fd buf.

(** The inner loop of [writev_all]: drop [written] bytes from the front. *)
Fixpoint advance_iovs (written : nat) (iovs : list bytes) : list bytes :=
  match iovs with
  | [] => []
  | iov :: rest =>
      match written with
      | O => iovs
      | _ =>
          if (length iov <=? written)%nat then advance_iovs (written - length iov) rest
          else drop written iov :: rest
      end
  end.

Fixpoint writev_loop (fuel : nat) (fd : Z) (iovs : list bytes) : io (option (result unit IoError)) :=
  match iovs with
  | [] => Ret (Some (Ok tt))
  | _ =>
      match fuel with
      | O => Ret None
      | S fuel' =>
          Sys (SysWritev fd iovs) (fun r =>
            match r with
            | Fails e =>
                if bool_decide (kind (OsError e) = KInterrupted) then writev_loop fuel' fd iovs
                else Ret (Some (Err (OsError e)))
            | _ =>
                if (rc_of r =? 0)%Z
                then Ret (Some (Err (CustomError KWriteZero "writev returned zero bytes (no progress)")))
                else writev_loop fuel' fd (advance_iovs (Z.to_nat (rc_of r)) iovs)
            end)
      end
  end.
Definition writev_all (fuel : nat) (fd : Z) (bufs : list bytes) : io (option (result unit IoError)) :=
  if forallb (fun b => (length b =? 0)%nat) bufs then Ret (Some (Ok tt))
  else writev_loop fuel fd (filter (fun b => b <> []) bufs).

(** [offset as i64] *)
Definition as_i64 (x : Z) : Z := if (x <? 2 ^ 63)%Z then x else (x - 2 ^ 64)%Z.

Definition pwrite (fd : Z) (buf : bytes) (offset : Z) : io (result Z IoError) :=
  Sys (SysPwrite fd buf (as_i64 offset)) (fun r =>
    Ret (match r with Fails e => Err (OsError e) | _ => Ok (rc_of r) end)).

Fixpoint pwrite_loop (fuel : nat) (fd : Z) (remaining : bytes) (current_offset : Z)
  : io (option (result unit IoError)) :=
  match remaining with
  | [] => Ret (Some (Ok tt))
  | _ =>
      match fuel with
      | O => Ret None
      | S fuel' =>
          let! n := pwrite fd remaining current_offset in
          match n with
          | Err e => Ret (Some (Err e))
          | Ok n =>
              if (n =? 0)%Z
              then Ret (Some (Err (CustomError KWriteZero "pwrite returned zero bytes (no progress)")))
              else pwrite_loop fuel' fd (drop (Z.to_nat n) remaining) (wrap64 (current_offset + n))
          end
      end
  end.
Definition pwrite_all (fuel : nat) (fd : Z) (buf : bytes) (offset : Z) := pwrite_loop fuel fd buf offset.

(** ** Executions

    [exec p tr a]: some kernel answers the calls of [p] as recorded in [tr],
    in this order, and [p] then returns [a]. *)

Definition event : Type := Syscall * Answer.

Fixpoint exec {A : Type} (p : io A) (tr : list event) (a : A) : Prop :=
  match p, tr with
  | Ret a', [] => a' = a
  | Sys c k, (c', r) :: tr' => c' = c /\ exec (k r) tr' a
  | _, _ => False
  end.

(** Running a program against a kernel given as a function. *)
Fixpoint run {S A : Type} (kernel : S -> Syscall -> Answer * S) (s : S) (p : io A)
  : list event * A * S :=
  match p with
  | Ret a => ([], a, s)
  | Sys c k =>
      let (r, s1) := kernel s c in
      let '(tr, a, s2) := run kernel s1 (k r) in
      ((c, r) :: tr, a, s2)
  end.

Lemma run_exec {S A} (kernel : S -> Syscall -> Answer * S) (p : io A) s :
  let '(tr, a, _) := run kernel s p in exec p tr a.
Proof.
  revert s. induction p as [a|c k IH]; intros s; cbn [run]; [done|].
  destruct (kernel s c) as [r s1]. specialize (IH r s1). by destruct (run kernel s1 (k r)) as [[tr a] s2].
Qed.

Lemma exec_bind {A B} (m : io A) (f : A -> io B) tr b :
  exec (io_bind m f) tr b <->
  exists t1 t2 a, tr = t1 ++ t2 /\ exec m t1 a /\ exec (f a) t2 b.
Proof.
  revert tr. induction m as [a|c k IH]; intros tr; cbn [io_bind].
  - split; [intros H; by exists [], tr, a|]. intros (t1 & t2 & a' & -> & H1 & H2).
    destruct t1; [|done]. cbn in H1. by subst.
  - destruct tr as [|[c' r] tr]; cbn [exec].
    + split; [done|]. intros (t1 & t2 & a & E & H1 & _). by destruct t1.
    + rewrite IH. split.
      * intros (-> & t1 & t2 & a & -> & H1 & H2). by exists ((c, r) :: t1), t2, a.
      * intros (t1 & t2 & a & E & H1 & H2). destruct t1 as [|[c1 r1] t1]; [done|].
        destruct H1 as [-> H1]. injection E as -> -> ->. split; [done|]. by exists t1, t2, a.
Qed.

Lemma exec_try {A B E} (m : io (result A E)) (f : A -> io (result B E)) tr b :
  exec (io_try m f) tr b <->
  (exists e, exec m tr (Err e) /\ b = Err e) \/
  (exists t1 t2 a, tr = t1 ++ t2 /\ exec m t1 (Ok a) /\ exec (f a) t2 b).
Proof.
  unfold io_try. rewrite exec_bind. split.
  - intros (t1 & t2 & [a|e] & -> & H1 & H2); [right; by eauto 10|]. left.
    destruct t2; [|done]. cbn in H2. subst. rewrite app_nil_r. eauto.
  - intros [(e & H & ->)|(t1 & t2 & a & -> & H1 & H2)].
    + exists tr, [], (Err e). by rewrite app_nil_r.
    + by exists t1, t2, (Ok a).
Qed.

Lemma exec_map_err {A E F} (f : E -> F) (m : io (result A E)) tr b :
  exec (io_map_err f m) tr b <-> exists r, exec m tr r /\ b = map_err f r.
Proof.
  unfold io_map_err. rewrite exec_bind. split.
  - intros (t1 & t2 & r & -> & H1 & H2). destruct t2; [|done]. cbn in H2. rewrite app_nil_r. eauto.
  - intros (r & H & ->). exists tr, [], r. by rewrite app_nil_r.
Qed.

Lemma exec_ret {A} (a b : A) tr : exec (Ret a) tr b <-> tr = [] /\ b = a.
Proof. destruct tr; cbn; naive_solver. Qed.

(** A call that only reports success or failure. *)
Lemma exec_syscall c tr r :
  exec (syscall c) tr r <->
  (exists e, tr = [(c, Fails e)] /\ r = Err (OsError e)) \/
  (exists a, tr = [(c, a)] /\ r = Ok tt /\ forall e, a <> Fails e).
Proof.
  unfold syscall. destruct tr as [|[c' a] tr]; cbn [exec].
  - split; [done|]. intros [(? & ? & _)|(? & ? & _)]; done.
  - destruct tr; [|split; [naive_solver|]; intros [(? & ? & _)|(? & ? & _)]; done].
    destruct a; cbn; naive_solver.
Qed.

(** ** Path validation *)

Definition safe_component (comp : bytes) : Prop :=
  comp <> [] /\ comp <> lit "." /\ comp <> lit ".." /\
  Forall (fun b => is_ascii_graphic b = true /\ b <> "/"%byte) comp /\
  (length comp <= MAX_COMPONENT_BYTES)%nat.

Fixpoint join_slash (comps : list bytes) : bytes :=
  match comps with
  | [] => []
  | [p] => p
  | p :: ps => p ++ "/"%byte :: join_slash ps
  end.

Lemma contains_false b s : contains b s = false <-> Forall (fun c => c <> b) s.
Proof.
  unfold contains. induction s as [|c s IH]; cbn [existsb]; [by split; [constructor|]|].
  rewrite orb_false_iff, Forall_cons, IH, bool_decide_eq_false. done.
Qed.

Lemma validate_path_component_iff comp :
  validate_path_component comp = Ok tt <-> safe_component comp.
Proof.
  unfold validate_path_component, safe_component. split.
  - intros H. rsteps H. breflect. rewrite contains_false in G1. clear G2.
    rewrite forallb_forall in G3. split; [by intros ->|]. split; [done|]. split; [done|].
    split; [|lia]. rewrite Forall_forall in *. intros b Hb. split; [|by apply G1].
    by apply G3, list_elem_of_In.
  - intros (H1 & H2 & H3 & H4 & H5). apply Forall_and in H4 as [H4 H6].
    rewrite (proj2 (Nat.eqb_neq _ _)) by (by intros E%nil_length_inv).
    rewrite !bool_decide_false, (proj2 (contains_false _ _)) by done. cbn [orb].
    rewrite (proj2 (contains_false _ _)).
    2:{ eapply Forall_impl; [exact H4|]. intros b Hb ->. done. }
    rewrite (proj2 (forallb_forall _ _)).
    2:{ rewrite Forall_forall in H4. intros b Hb. by apply H4, list_elem_of_In. }
    by rewrite (proj2 (Nat.ltb_ge _ _)).
Qed.

Lemma split_slash_join comps :
  comps <> [] -> Forall (fun c => Forall (fun b => b <> "/"%byte) c) comps ->
  split_slash (join_slash comps) = comps.
Proof.
  induction comps as [|c comps IH]; [done|]. intros _ Hf. apply Forall_cons in Hf as [Hc Hf].
  assert (Hone : forall s rest, Forall (fun b => b <> "/"%byte) s ->
    split_slash (s ++ "/"%byte :: rest) = s :: split_slash rest).
  { induction s as [|b s IHs]; intros rest Hs; cbn; [by rewrite bool_decide_true|].
    apply Forall_cons in Hs as [Hb Hs]. rewrite bool_decide_false by done. by rewrite IHs. }
  assert (Hlast : forall s, Forall (fun b => b <> "/"%byte) s -> split_slash s = [s]).
  { induction s as [|b s IHs]; intros Hs; [done|]. cbn.
    apply Forall_cons in Hs as [Hb Hs]. rewrite bool_decide_false by done. by rewrite IHs. }
  destruct comps as [|c' comps]; [by apply Hlast|].
  cbn [join_slash]. rewrite Hone by done. f_equal. by apply IH.
Qed.

Lemma join_split_slash s :
  join_slash (split_slash s) = s /\ split_slash s <> [] /\
  Forall (fun c => Forall (fun b => b <> "/"%byte) c) (split_slash s).
Proof.
  induction s as [|b s (IH1 & IH2 & IH3)]; [repeat constructor; done|]. cbn [split_slash].
  case_bool_decide as Hb.
  - subst b. split; [|split; [done|by constructor]].
    destruct (split_slash s) as [|p ps] eqn:E; [done|].
    change (join_slash ([] :: p :: ps)) with ("/"%byte :: join_slash (p :: ps)). by rewrite IH1.
  - destruct (split_slash s) as [|p ps] eqn:E; [done|]. inversion IH3; subst.
    split; [|split; [done|by repeat constructor]].
    destruct ps; cbn in *; congruence.
Qed.

Lemma validate_components_iff comps :
  validate_components comps = Ok tt <-> Forall safe_component comps.
Proof.
  induction comps as [|c comps IH]; cbn [validate_components]; [by split; [constructor|]|].
  rewrite Forall_cons, <- IH, <- validate_path_component_iff.
  destruct (length c =? 0)%nat eqn:E; breflect.
  - split; [done|]. apply nil_length_inv in E. subst. naive_solver.
  - destruct (validate_path_component c) as [[]|]; cbn; naive_solver.
Qed.

Lemma validate_relative_path_iff path v :
  validate_relative_path path = Ok v <->
  vrp_path v = path /\ (length path <= MAX_RELATIVE_PATH_BYTES)%nat /\
  ValidatedRelativePath_components v <> [] /\
  Forall safe_component (ValidatedRelativePath_components v) /\
  path = join_slash (ValidatedRelativePath_components v).
Proof.
  unfold validate_relative_path, ValidatedRelativePath_components. split.
  - intros H. rsteps H. breflect. subst v. destruct t. cbn. apply validate_components_iff in E.
    destruct (join_split_slash path) as (Hj & Hn & _). split; [done|]. split; [lia|]. done.
  - destruct v as [p]. cbn [vrp_path]. intros (-> & Hl & Hn & Hf & Hp).
    assert (Hhd : exists b s, path = b :: s /\ b <> "/"%byte).
    { destruct (split_slash path) as [|c cs]; [done|]. inversion Hf as [|? ? (Hc & _ & _ & Hb & _) _]; subst.
      destruct c as [|b c]; [done|]. inversion Hb as [|? ? [_ Hb'] _]; subst.
      exists b. destruct cs; cbn; eauto. }
    destruct Hhd as (b & s & E & Hb).
    rewrite bool_decide_false by (rewrite E; cbn; congruence).
    rewrite (proj2 (Nat.eqb_neq _ _)) by (by rewrite E).
    rewrite (proj2 (Nat.ltb_ge _ _)) by done.
    by rewrite (proj2 (validate_components_iff _)).
Qed.

(** C38: [validate_relative_path] accepts exactly the slash-separated
    sequences of safe components (nonempty, not a dot component, printable
    ASCII without slash or NUL, at most 255 bytes) of at most 4095 bytes, and
    the accepted path's components are those components. *)
Theorem validated_paths_safe path v :
  validate_relative_path path = Ok v <->
  vrp_path v = path /\ (length path <= MAX_RELATIVE_PATH_BYTES)%nat /\
  ValidatedRelativePath_components v <> [] /\
  Forall safe_component (ValidatedRelativePath_components v) /\
  path = join_slash (ValidatedRelativePath_components v).
Proof. apply validate_relative_path_iff. Qed.

(** ** The /proc path of a descriptor *)

Lemma find_divisor_spec value :
  (0 <= value < 2 ^ 32)%Z ->
  exists k, (k <= 9)%nat /\ find_divisor 10 value 1 = (10 ^ Z.of_nat k)%Z /\
    (value < 10 ^ (Z.of_nat k + 1))%Z /\ (k = 0%nat \/ (10 ^ Z.of_nat k <= value)%Z).
Proof.
  intros Hv.
  assert (Hgen : forall fuel j, (fuel + j = 10)%nat -> (j = 0%nat \/ (10 ^ Z.of_nat j <= value)%Z) ->
    (1 <= fuel)%nat ->
    exists k, (k <= 9)%nat /\ find_divisor fuel value (10 ^ Z.of_nat j) = (10 ^ Z.of_nat k)%Z /\
      (value < 10 ^ (Z.of_nat k + 1))%Z /\ (k = 0%nat \/ (10 ^ Z.of_nat k <= value)%Z)).
  { induction fuel as [|fuel IH]; intros j Hj Hle Hf; [lia|]. cbn [find_divisor].
    pose proof (Z.pow_pos_nonneg 10 (Z.of_nat j) ltac:(lia) ltac:(lia)) as Hp.
    assert (E : (10 ^ (Z.of_nat j + 1) = 10 ^ Z.of_nat j * 10)%Z) by (rewrite Z.pow_add_r; lia).
    destruct (10 <=? value / 10 ^ Z.of_nat j)%Z eqn:G; breflect.
    - assert (Hge : (10 ^ Z.of_nat j * 10 <= value)%Z).
      { pose proof (Z.mul_div_le value (10 ^ Z.of_nat j) Hp). nia. }
      destruct (decide (j = 9%nat)) as [->|Hne]; [cbn in *; lia|].
      replace (10 ^ Z.of_nat j * 10)%Z with (10 ^ Z.of_nat (S j))%Z by (rewrite <- E; f_equal; lia).
      apply IH; [lia| |lia]. right. rewrite Nat2Z.inj_succ. unfold Z.succ. lia.
    - exists j. split; [lia|]. split; [done|]. split; [|done].
      rewrite E.
      pose proof (Z.div_mod value (10 ^ Z.of_nat j)) as Hdm.
      pose proof (Z.mod_pos_bound value (10 ^ Z.of_nat j) Hp). nia. }
  apply (Hgen 10%nat 0%nat); [done|by left|lia].
Qed.

(** The decimal digits of a value, most significant first. *)
Fixpoint digits (k : nat) (value : Z) : bytes :=
  match k with
  | O => []
  | S k' => z2b (48 + (value / 10 ^ Z.of_nat k') mod 10) :: digits k' value
  end.
(** The value a string of decimal digits denotes. *)
Definition decimal_value (s : bytes) : Z := fold_left (fun acc b => acc * 10 + (b2z b - 48))%Z s 0%Z.

Lemma length_digits k v : length (digits k v) = k.
Proof. induction k; cbn; congruence. Qed.

Lemma write_digits_spec k value pre n fuel :
  (k < fuel)%nat -> (S k <= n)%nat ->
  write_digits fuel value (10 ^ Z.of_nat k) (length pre) (pre ++ zeros n)
  = pre ++ digits (S k) value ++ zeros (n - S k).
Proof.
  revert pre n fuel. induction k as [|k IH]; intros pre n fuel Hf Hn; (destruct fuel as [|fuel]; [lia|]);
    cbn [write_digits].
  - rewrite (write_next _ _ _ _ (n - 1)) by (cbn; lia). cbn [Z.of_nat Z.pow Z.eqb Pos.eqb]. cbn [digits].
    by rewrite <- app_assoc.
  - rewrite (write_next _ _ _ _ (n - 1)) by (cbn; lia).
    assert (E : (10 ^ Z.of_nat (S k) = 10 * 10 ^ Z.of_nat k)%Z)
      by (rewrite Nat2Z.inj_succ, Z.pow_succ_r by lia; done).
    pose proof (Z.pow_pos_nonneg 10 (Z.of_nat k) ltac:(lia) ltac:(lia)).
    rewrite (proj2 (Z.eqb_neq _ _)) by lia.
    assert (Hdv : (10 ^ Z.of_nat (S k) / 10 = 10 ^ Z.of_nat k)%Z)
      by (rewrite E, Z.mul_comm, Z.div_mul; lia).
    rewrite Hdv.
    set (d := z2b _). replace (S (length pre)) with (length (pre ++ [d])) by (rewrite length_app; cbn; lia).
    rewrite IH by lia. cbn [digits]. rewrite <- !app_assoc. cbn [app]. do 3 f_equal. f_equal. f_equal. lia.
Qed.

Lemma digit_byte d : (0 <= d < 10)%Z -> b2z (z2b (48 + d)) = (48 + d)%Z /\ z2b (48 + d) <> x00.
Proof.
  intros Hd. assert (E : b2z (z2b (48 + d)) = (48 + d)%Z) by (apply b2z_z2b_small; lia).
  split; [done|]. intros H0. rewrite H0 in E. cbn in E. lia.
Qed.

Lemma decimal_value_digits k value acc :
  fold_left (fun acc b => acc * 10 + (b2z b - 48))%Z (digits k value) acc
  = (acc * 10 ^ Z.of_nat k + value mod 10 ^ Z.of_nat k)%Z.
Proof.
  revert acc. induction k as [|k IH]; intros acc; cbn [digits fold_left].
  - cbn. rewrite Z.mod_1_r. lia.
  - rewrite IH. destruct (digit_byte ((value / 10 ^ Z.of_nat k) mod 10)) as [-> _];
      [apply Z.mod_pos_bound; lia|].
    pose proof (Z.pow_pos_nonneg 10 (Z.of_nat k) ltac:(lia) ltac:(lia)).
    rewrite Nat2Z.inj_succ, Z.pow_succ_r by lia.
    rewrite (Z.mul_comm 10), (Z.rem_mul_r value) by lia. ring.
Qed.

Lemma c_string_app s n : Forall (fun b => b <> x00) s -> c_string (s ++ zeros n) = s.
Proof.
  induction 1 as [|b s Hb Hs IH]; cbn; [by destruct n|]. rewrite bool_decide_false by done. by rewrite IH.
Qed.

Lemma digits_nonzero k value : Forall (fun b => b <> x00) (digits k value).
Proof.
  induction k as [|k IH]; cbn; constructor; [|done]. apply digit_byte, Z.mod_pos_bound. lia.
Qed.

(** The path built for a descriptor is the C string [/proc/self/fd/]
    followed by the descriptor's decimal form without leading zeros, inside the
    32-byte buffer with room for the terminating NUL, for every [u32]. *)
Theorem proc_path_decimal value :
  (0 <= value < 2 ^ 32)%Z ->
  length (proc_self_fd_path_raw value) = 32%nat /\
  exists ds, c_string (proc_self_fd_path_raw value) = PROC_PREFIX ++ ds /\
    decimal_value ds = value /\ (1 <= length ds <= 10)%nat /\
    (head ds = Some "0"%byte -> ds = lit "0").
Proof.
  intros Hv. destruct (find_divisor_spec value Hv) as (k & Hk & Ed & Hub & Hlb).
  assert (Hp : proc_self_fd_path_raw value = PROC_PREFIX ++ digits (S k) value ++ zeros (18 - S k)).
  { unfold proc_self_fd_path_raw. rewrite Ed. change (zeros 32) with ([] ++ zeros 32).
    rewrite (write_next _ _ _ _ 18) by done. rewrite app_nil_l. apply write_digits_spec; lia. }
  split.
  - rewrite Hp, !length_app, length_digits, length_zeros. cbn. lia.
  - exists (digits (S k) value). rewrite Hp, app_assoc, c_string_app.
    2:{ apply Forall_app. split; [by repeat constructor|apply digits_nonzero]. }
    split; [done|].
    assert (Hval : decimal_value (digits (S k) value) = value).
    { unfold decimal_value. rewrite decimal_value_digits, Z.mod_small; [lia|].
      rewrite Nat2Z.inj_succ. unfold Z.succ. lia. }
    split; [done|]. split; [rewrite length_digits; lia|]. cbn [digits head]. intros [= Hz].
    pose proof (Z.pow_pos_nonneg 10 (Z.of_nat k) ltac:(lia) ltac:(lia)).
    assert (Hq : (0 <= value / 10 ^ Z.of_nat k < 10)%Z).
    { split; [apply Z.div_pos; lia|]. apply Z.div_lt_upper_bound; [lia|].
      rewrite Z.mul_comm. rewrite Z.pow_add_r in Hub by lia. lia. }
    rewrite Z.mod_small in Hz by done. pose proof (digit_byte _ Hq) as [E _]. rewrite Hz in E. cbn in E.
    destruct Hlb as [->|Hlb].
    + cbn [digits]. by rewrite Z.mod_small, Hz by done.
    + pose proof (Z.div_le_lower_bound value (10 ^ Z.of_nat k) 1). lia.
Qed.

Lemma proc_path_decimal_witness :
  exists ds, c_string (proc_self_fd_path_raw 4096) = PROC_PREFIX ++ ds /\ decimal_value ds = 4096%Z.
Proof.
  destruct (proc_path_decimal 4096) as [_ (ds & H1 & H2 & _)]; [lia|]. exists ds. split; [exact H1|exact H2].
Defined.

(** ** The write loops *)

(** The bytes a write call hands to the kernel. *)
Definition payload (c : Syscall) : bytes :=
  match c with
  | SysWrite _ data => data
  | SysWritev _ iovs => concat iovs
  | SysPwrite _ data _ => data
  | _ => []
  end.
(** The bytes the kernel accepted in an execution, in order. *)
Definition accepted (ev : event) : bytes :=
  match ev.2 with Returns rc => take (Z.to_nat rc) (payload ev.1) | _ => [] end.
Definition written (tr : list event) : bytes := concat (map accepted tr).
Definition interrupted (ev : event) : bool :=
  match ev.2 with Fails e => (e =? EINTR)%Z | _ => false end.
Definition interrupts (tr : list event) : nat := length (filter (fun ev => interrupted ev = true) tr).

(** What write(2) promises: a count of at most the bytes offered. *)
Definition write_answer_ok (ev : event) : Prop :=
  match ev.2 with
  | Fails _ => True
  | Returns rc => (0 <= rc <= Z.of_nat (length (payload ev.1)))%Z
  | _ => False
  end.

Definition write_outcome (buf : bytes) (fuel : nat) (tr : list event) (r : option (result unit IoError)) : Prop :=
  match r with
  | Some (Ok _) => written tr = buf
  | Some (Err _) => exists rest, rest <> [] /\ written tr ++ rest = buf
  | None => (fuel < length buf + interrupts tr)%nat
  end.

Lemma written_cons ev tr : written (ev :: tr) = accepted ev ++ written tr.
Proof. done. Qed.

Lemma interrupts_cons ev tr :
  interrupts (ev :: tr) = ((if interrupted ev then 1 else 0) + interrupts tr)%nat.
Proof. unfold interrupts. rewrite filter_cons. case_decide; destruct (interrupted ev); cbn; congruence || lia. Qed.

Lemma is_interrupted e : bool_decide (kind (OsError e) = KInterrupted) = (e =? EINTR)%Z.
Proof. cbn. repeat case_match; breflect; subst; done. Qed.

(** One round of a write loop: the bytes accepted, then the rest of the loop. *)
Lemma write_outcome_step c rc buf fuel tr r :
  payload c = buf -> (0 < rc <= Z.of_nat (length buf))%Z ->
  write_outcome (drop (Z.to_nat rc) buf) fuel tr r ->
  write_outcome buf (S fuel) ((c, Returns rc) :: tr) r.
Proof.
  intros Hp Hrc H. unfold write_outcome in *. rewrite written_cons, interrupts_cons.
  cbn [interrupted snd accepted fst]. rewrite Hp. destruct r as [[|]|].
  - by rewrite H, take_drop.
  - destruct H as (rest & Hne & H). exists rest. split; [done|]. by rewrite <- app_assoc, H, take_drop.
  - rewrite length_drop in H. lia.
Qed.

Lemma write_outcome_interrupt c buf fuel tr r :
  write_outcome buf fuel tr r -> write_outcome buf (S fuel) ((c, Fails EINTR) :: tr) r.
Proof.
  unfold write_outcome. rewrite written_cons, interrupts_cons. cbn. destruct r as [[|]|]; try done. lia.
Qed.

Lemma write_outcome_error c a buf fuel e :
  buf <> [] -> accepted (c, a) = [] -> write_outcome buf fuel [(c, a)] (Some (Err e)).
Proof.
  intros Hb Ha. cbn. exists buf. split; [done|]. unfold written. cbn [map concat]. by rewrite Ha.
Qed.

Lemma write_loop_outcome fuel fd buf tr r :
  Forall write_answer_ok tr -> exec (write_loop fuel fd buf) tr r -> write_outcome buf fuel tr r.
Proof.
  revert buf tr. induction fuel as [|fuel IH]; intros buf tr Hok He;
    (destruct buf as [|b buf]; [apply exec_ret in He as [-> ->]; done|]);
    [apply exec_ret in He as [-> ->]; cbn; lia|].
  cbn [write_loop] in He. destruct tr as [|[c a] tr]; [done|]. destruct He as [-> He].
  apply Forall_cons in Hok as [Ha Hok]. set (bb := b :: buf) in *.
  destruct a as [e|rc| | | | |]; [..|done|done|done|done|done].
  - rewrite is_interrupted in He. destruct (e =? EINTR)%Z eqn:E; breflect.
    + subst e. by apply write_outcome_interrupt, IH.
    + apply exec_ret in He as [-> ->]. by apply write_outcome_error.
  - cbn [rc_of] in He. destruct (rc =? 0)%Z eqn:E; breflect.
    + subst rc. apply exec_ret in He as [-> ->]. by apply write_outcome_error.
    + cbn in Ha. apply write_outcome_step; [done|cbn in *; lia|by apply IH].
Qed.

Lemma concat_advance_iovs n iovs : concat (advance_iovs n iovs) = drop n (concat iovs).
Proof.
  revert n. induction iovs as [|iov iovs IH]; intros n; [by destruct n|].
  cbn [advance_iovs]. destruct n as [|n]; [done|].
  destruct (length iov <=? S n)%nat eqn:E; [apply Nat.leb_le in E|apply Nat.leb_gt in E]; cbn [concat].
  - rewrite IH. by rewrite drop_app_ge by lia.
  - by rewrite drop_app_le by lia.
Qed.

Lemma advance_iovs_nonempty n iovs :
  Forall (fun b => b <> []) iovs -> Forall (fun b => b <> []) (advance_iovs n iovs).
Proof.
  revert n. induction iovs as [|iov iovs IH]; intros n Hf; [done|]. cbn [advance_iovs].
  destruct n as [|n]; [done|]. apply Forall_cons in Hf as [Hi Hf].
  destruct (length iov <=? S n)%nat eqn:E; [by apply IH|]. apply Nat.leb_gt in E.
  constructor; [|done]. intros Hd%(f_equal length). rewrite length_drop in Hd. cbn in Hd. lia.
Qed.

Lemma writev_loop_outcome fuel fd iovs tr r :
  Forall (fun b => b <> []) iovs -> Forall write_answer_ok tr ->
  exec (writev_loop fuel fd iovs) tr r -> write_outcome (concat iovs) fuel tr r.
Proof.
  revert iovs tr. induction fuel as [|fuel IH]; intros iovs tr Hne Hok He;
    (destruct iovs as [|iov iovs]; [apply exec_ret in He as [-> ->]; done|]);
    (assert (Hlen : (1 <= length (concat (iov :: iovs)))%nat)
      by (inversion Hne; subst; destruct iov; [done|cbn; lia]));
    [apply exec_ret in He as [-> ->]; unfold write_outcome, interrupts; cbn -[concat] in *; lia|].
  cbn [writev_loop] in He. destruct tr as [|[c a] tr]; [done|]. destruct He as [-> He].
  apply Forall_cons in Hok as [Ha Hok]. set (vv := iov :: iovs) in *.
  assert (Hcne : concat vv <> []) by (intros E; rewrite E in Hlen; cbn in Hlen; lia).
  destruct a as [e|rc| | | | |]; [..|done|done|done|done|done].
  - rewrite is_interrupted in He. destruct (e =? EINTR)%Z eqn:E; breflect.
    + subst e. by apply write_outcome_interrupt, IH.
    + apply exec_ret in He as [-> ->]. by apply write_outcome_error.
  - cbn [rc_of] in He. destruct (rc =? 0)%Z eqn:E; breflect.
    + subst rc. apply exec_ret in He as [-> ->]. by apply write_outcome_error.
    + cbn [write_answer_ok snd fst payload] in Ha. apply write_outcome_step; [done|lia|].
      rewrite <- concat_advance_iovs. apply IH; [by apply advance_iovs_nonempty|done|done].
Qed.

Lemma concat_filter_nonempty bufs : concat (filter (fun b : bytes => b <> []) bufs) = concat bufs.
Proof.
  induction bufs as [|b bufs IH]; [done|]. rewrite filter_cons. case_decide as Hb; cbn [concat].
  - by rewrite IH.
  - by subst.
Qed.

(** The write loops neither lose, repeat nor reorder bytes.  If the
    kernel accepts at most what it is offered, then success means the accepted
    bytes are exactly the buffers in order; failure means they are a proper
    prefix; and the fuel runs out only if the kernel interrupted the loop so
    often that fuel was below the buffer length plus the interruptions. *)
Theorem write_loops_exact fuel fd buf bufs tr r :
  Forall write_answer_ok tr ->
  (exec (write_all fuel fd buf) tr r -> write_outcome buf fuel tr r) /\
  (exec (writev_all fuel fd bufs) tr r -> write_outcome (concat bufs) fuel tr r).
Proof.
  intros Hok. split.
  - unfold write_all. destruct (length buf =? 0)%nat eqn:E; breflect; [|by apply write_loop_outcome].
    apply nil_length_inv in E. subst. intros [-> ->]%exec_ret. done.
  - unfold writev_all. destruct (forallb _ bufs) eqn:E.
    + intros [-> ->]%exec_ret. cbn. induction bufs as [|b bufs IH]; [done|]. cbn [forallb concat] in *.
      breflect. apply nil_length_inv in H. subst. by apply IH.
    + intros He. rewrite <- concat_filter_nonempty. eapply writev_loop_outcome; [|done|exact He].
      apply Forall_forall. intros b Hb. by apply list_elem_of_filter in Hb as [? _].
Qed.

(** A kernel that first interrupts and then accepts one byte at a time. *)
Lemma write_loops_exact_witness :
  written [(SysWritev 5 [[x61]; [x62]], Fails EINTR); (SysWritev 5 [[x61]; [x62]], Returns 1);
           (SysWritev 5 [[x62]], Returns 1)] = [x61; x62].
Proof.
  apply (write_loops_exact 9 5 [] [[x61]; []; [x62]] _ (Some (Ok tt))).
  - repeat constructor; cbn; lia.
  - vm_compute. tauto.
Defined.

(** Consecutive positional writes, starting at [offset]. *)
Fixpoint placed (offset : Z) (tr : list event) : Prop :=
  match tr with
  | [] => True
  | (SysPwrite _ _ o, a) :: tr' =>
      o = offset /\ placed (match a with Returns rc => offset + rc | _ => offset end)%Z tr'
  | _ => False
  end.

Lemma pwrite_loop_outcome fuel fd buf offset tr r :
  (0 <= offset)%Z -> (offset + Z.of_nat (length buf) < 2 ^ 63)%Z -> (length buf <= fuel)%nat ->
  Forall write_answer_ok tr -> exec (pwrite_loop fuel fd buf offset) tr r ->
  r <> None /\ write_outcome buf fuel tr r /\ placed offset tr.
Proof.
  revert buf offset tr. induction fuel as [|fuel IH]; intros buf offset tr Ho Hb Hf Hok He;
    (destruct buf as [|b buf]; [apply exec_ret in He as [-> ->]; done|]); [cbn in Hf; lia|].
  cbn [pwrite_loop pwrite io_bind] in He. destruct tr as [|[c a] tr]; [done|]. destruct He as [-> He].
  apply Forall_cons in Hok as [Ha Hok]. set (bb := b :: buf) in *.
  assert (Has : as_i64 offset = offset) by (unfold as_i64; rewrite (proj2 (Z.ltb_lt _ _)); [done|lia]).
  destruct a as [e|rc| | | | |]; [..|done|done|done|done|done]; cbn [rc_of] in He.
  - apply exec_ret in He as [-> ->]. split; [done|]. split; [by apply write_outcome_error|]. cbn. by rewrite Has.
  - destruct (rc =? 0)%Z eqn:E; breflect.
    + subst rc. apply exec_ret in He as [-> ->]. split; [done|].
      split; [by apply write_outcome_error|]. cbn. by rewrite Has.
    + cbn [write_answer_ok snd fst payload] in Ha.
      assert (Hw : wrap64 (offset + rc) = (offset + rc)%Z) by (apply Z.mod_small; lia).
      rewrite Hw in He. apply IH in He as (Hn & Hout & Hp); [|lia|rewrite length_drop; lia|rewrite length_drop; lia|done].
      split; [done|]. split; [apply write_outcome_step; [done|lia|done]|]. cbn [placed]. by rewrite Has.
Qed.

(** C30: [pwrite_all] terminates within one round per byte and writes
    contiguously: every positional write starts where the accepted bytes end,
    success means the accepted bytes are exactly the buffer, failure that they
    are a proper prefix. *)
Theorem pwrite_all_contiguous fd buf offset tr r :
  (0 <= offset)%Z -> (offset + Z.of_nat (length buf) < 2 ^ 63)%Z -> Forall write_answer_ok tr ->
  exec (pwrite_all (length buf) fd buf offset) tr r ->
  r <> None /\ write_outcome buf (length buf) tr r /\ placed offset tr.
Proof. intros ? ? ? He. eapply pwrite_loop_outcome; eauto. Qed.

Lemma pwrite_all_contiguous_witness :
  written [(SysPwrite 3 [x61; x62; x63] 64, Returns 2); (SysPwrite 3 [x63] 66, Returns 1)]
  = [x61; x62; x63].
Proof.
  apply (pwrite_all_contiguous 3 [x61; x62; x63] 64 _ (Some (Ok tt))).
  - lia.
  - cbn. lia.
  - repeat constructor; cbn; lia.
  - vm_compute. tauto.
Defined.
