(* ===== verification/FsRead.v ===== *)
(** * steadq-fs-linux: opening, reading, locks, clocks and randomness

    Models the rest of [crates/steadq-fs-linux/src/lib.rs] that the queue's
    operations use: descriptor-relative opens, positional reads, directory
    creation, unnamed temporary files, the open-file-description locks, the
    clocks, the random source and the filesystem magics.  Flag values are those
    of Linux on x86-64.

    A call that is retried while the kernel answers EINTR is given twice: as
    the loop of the source, with fuel, and as the single call whose answer is
    that of the last attempt.  [retry_last] relates the two; programs built on
    top use the single call. *)
From stdpp Require Import base numbers list option strings.
From Stdlib Require Import Strings.Byte ZArith.
From S2P Require Import Prelude FsLinux.
Open Scope string_scope.
Open Scope list_scope.

(** ** Opening *)

Definition O_RDONLY : Z := 0.
Definition O_RDWR : Z := 2.
Definition O_EXCL : Z := 128.
Definition O_NONBLOCK : Z := 2048.
Definition O_DIRECTORY : Z := 65536.
Definition O_NOFOLLOW : Z := 131072.
Definition O_CLOEXEC : Z := 524288.

Definition RESOLVE_NO_MAGICLINKS : Z := 2.
Definition RESOLVE_NO_SYMLINKS : Z := 4.
Definition RESOLVE_BENEATH : Z := 8.
Definition RESOLVER_RESOLVE_FLAGS : Z := RESOLVE_NO_MAGICLINKS + RESOLVE_NO_SYMLINKS + RESOLVE_BENEATH.
Definition resolver_open_flags : Z := O_DIRECTORY + O_CLOEXEC.

(** [if fd < 0 { Err(last_os_error()) } else { Ok(fd) }] *)
Definition check_fd (r : Answer) : result Z IoError :=
  match r with Fails e => Err (OsError e) | Returns rc => Ok rc | _ => Ok 0%Z end.

Definition openat (dir_fd : Z) (name : bytes) (flags mode : Z) : io (result Z IoError) :=
  let!? c_name := lift (cstr_from_name name) in
  Sys (SysOpenat dir_fd c_name flags mode) (fun r => Ret (check_fd r)).

Definition open_directory (dir_fd : Z) (name : bytes) : io (result Z IoError) :=
  let!? c_name := lift (cstr_from_name name) in
  Sys (SysOpenat dir_fd c_name (Z.lor (Z.lor (Z.lor O_RDONLY O_DIRECTORY) O_NOFOLLOW) O_CLOEXEC) 0)
    (fun r => Ret (check_fd r)).

Definition open_directory_beneath (root_fd : Z) (relative : ValidatedRelativePath) : io (result Z IoError) :=
  let!? path := lift (cstr_from_name (vrp_path relative)) in
  Sys (SysOpenat2 root_fd path resolver_open_flags 0 RESOLVER_RESOLVE_FLAGS) (fun r => Ret (check_fd r)).

Definition create_exclusive (dir_fd : Z) (name : bytes) (mode : Z) : io (result Z IoError) :=
  openat dir_fd name (Z.lor (Z.lor (Z.lor (Z.lor O_RDWR O_CREAT) O_EXCL) O_NOFOLLOW) O_CLOEXEC) mode.

Definition mkdirat (dir_fd : Z) (name : bytes) (mode : Z) : io (result unit IoError) :=
  let!? c_name := lift (cstr_from_name name) in
  syscall (SysMkdirat dir_fd c_name mode).

Definition mkdirat_eexist_ok (dir_fd : Z) (name : bytes) (mode : Z) : io (result bool IoError) :=
  let! r := mkdirat dir_fd name mode in
  Ret (match r with
       | Ok _ => Ok true
       | Err e => if bool_decide (kind e = KAlreadyExists) then Ok false else Err e
       end).

(** [BorrowedFd::try_clone_to_owned] *)
Definition try_clone_to_owned (fd : Z) : io (result Z IoError) :=
  Sys (SysDupfd fd) (fun r => Ret (check_fd r)).

(** [libc::O_TMPFILE] includes [O_DIRECTORY]. *)
Definition O_TMPFILE : Z := Z.lor 4194304 O_DIRECTORY.
Definition open_tmpfile (dir_fd : Z) : io (result Z IoError) :=
  Sys (SysOpenat dir_fd (lit ".") (Z.lor (Z.lor O_TMPFILE O_RDWR) O_CLOEXEC) 384)
    (fun r => Ret (check_fd r)).

(** ** Positional reads *)

(** The bytes a read delivered into a buffer of length [len]. *)
Definition read_data (len : nat) (r : Answer) : bytes :=
  match r with Reads data => take len data | _ => [] end.
Definition check_read (len : nat) (r : Answer) : result bytes IoError :=
  match r with Fails e => Err (OsError e) | _ => Ok (read_data len r) end.

(** The [loop] around a call that is repeated while it is interrupted. *)
Fixpoint retry_eintr {A : Type} (fuel : nat) (c : Syscall) (check : Answer -> result A IoError)
  : io (option (result A IoError)) :=
  match fuel with
  | O => Ret None
  | S fuel' =>
      Sys c (fun r =>
        match r with
        | Fails e =>
            if bool_decide (kind (OsError e) = KInterrupted) then retry_eintr fuel' c check
            else Ret (Some (Err (OsError e)))
        | _ => Ret (Some (check r))
        end)
  end.
Definition pread_loop (fuel : nat) (fd : Z) (len : nat) (offset : Z) : io (option (result bytes IoError)) :=
  retry_eintr fuel (SysPread fd len (as_i64 offset)) (check_read len).
Definition pread (fd : Z) (len : nat) (offset : Z) : io (result bytes IoError) :=
  Sys (SysPread fd len (as_i64 offset)) (fun r => Ret (check_read len r)).

(** The loop of [pread_exact]; every round that continues has filled at least
    one byte, so as many rounds as bytes are enough. *)
Fixpoint pread_exact_loop (fuel : nat) (fd : Z) (remaining : nat) (cur : Z) : io (result bytes IoError) :=
  match remaining, fuel with
  | O, _ => Ret (Ok [])
  | _, O => Ret (Err (CustomError KUnexpectedEof "pread hit EOF before filling buffer"))
  | _, S fuel' =>
      let!? data := pread fd remaining cur in
      if (length data =? 0)%nat
      then Ret (Err (CustomError KUnexpectedEof "pread hit EOF before filling buffer"))
      else
        let!? rest := pread_exact_loop fuel' fd (remaining - length data)
                        (wrap64 (cur + Z.of_nat (length data))) in
        Ret (Ok (data ++ rest))
  end.
Definition pread_exact (fd : Z) (len : nat) (offset : Z) : io (result bytes IoError) :=
  pread_exact_loop len fd len offset.

(** ** Locks *)

Definition F_RDLCK : Z := 0.
Definition F_WRLCK : Z := 1.

Definition try_ofd_lock (lock_type : Z) (fd : Z) : io (result bool IoError) :=
  Sys (SysOfdSetlk fd lock_type) (fun r =>
    Ret (match r with
         | Fails e =>
             if bool_decide (kind (OsError e) = KWouldBlock) || os_error_in [EAGAIN] (OsError e)
             then Ok false else Err (OsError e)
         | _ => Ok true
         end)).
Definition try_ofd_write_lock (fd : Z) : io (result bool IoError) := try_ofd_lock F_WRLCK fd.
Definition try_ofd_read_lock (fd : Z) : io (result bool IoError) := try_ofd_lock F_RDLCK fd.

(** ** Clocks and randomness *)

Definition CLOCK_REALTIME : Z := 0.
Definition CLOCK_MONOTONIC : Z := 1.
Definition CLOCK_BOOTTIME : Z := 7.

(** [ts.tv_sec as u64 * 1_000_000_000 + ts.tv_nsec as u64]; the times the
    kernel reports are far below the point where the product would overflow. *)
Definition timespec_ns (tv_sec tv_nsec : Z) : Z := wrap64 (wrap64 tv_sec * 1000000000 + wrap64 tv_nsec).
Definition timespec_to_unix_ns (tv_sec tv_nsec : Z) : result Z IoError :=
  if (tv_sec <? 0)%Z || (tv_nsec <? 0)%Z then Err (CustomError KInvalidInput "clock before epoch")
  else Ok (timespec_ns tv_sec tv_nsec).

(** The [timespec] after the call; it was zeroed before. *)
Definition times_of (r : Answer) : Z * Z := match r with Times s n => (s, n) | _ => (0, 0)%Z end.

Definition clock_boottime_ns : io (result Z IoError) :=
  Sys (SysClockGettime CLOCK_BOOTTIME) (fun r =>
    Ret (match r with Fails e => Err (OsError e) | _ => Ok (timespec_ns (times_of r).1 (times_of r).2) end)).
Definition clock_realtime_ns : io (result Z IoError) :=
  Sys (SysClockGettime CLOCK_REALTIME) (fun r =>
    Ret (match r with Fails e => Err (OsError e) | _ => timespec_to_unix_ns (times_of r).1 (times_of r).2 end)).
Definition clock_monotonic_ns : io (result Z IoError) :=
  Sys (SysClockGettime CLOCK_MONOTONIC) (fun r =>
    Ret (match r with Fails e => Err (OsError e) | _ => Ok (timespec_ns (times_of r).1 (times_of r).2) end)).

Definition check_random (r : Answer) : result bytes IoError :=
  match r with
  | Fails e => Err (OsError e)
  | Reads data =>
      if (length data =? 16)%nat then Ok data
      else Err (CustomError KUnexpectedEof "getrandom returned a short read")
  | _ => Err (CustomError KUnexpectedEof "getrandom returned a short read")
  end.
Definition random_loop (fuel : nat) : io (option (result bytes IoError)) :=
  retry_eintr fuel (SysGetrandom 16) check_random.
Definition random_128bit : io (result bytes IoError) :=
  Sys (SysGetrandom 16) (fun r => Ret (check_random r)).

(** ** Filesystem types *)

Definition EXT4_SUPER_MAGIC : Z := 61267.
Definition XFS_SUPER_MAGIC : Z := 1481003842.
Definition BTRFS_SUPER_MAGIC : Z := 2435016766.
Definition F2FS_SUPER_MAGIC : Z := 61453.
Definition F2FS_STATFS_MAGIC_ALT : Z := 4076150800.
Definition ZFS_SUPER_MAGIC : Z := 801189825.
Definition supported_filesystem_name (magic : Z) : option string :=
  if (magic =? EXT4_SUPER_MAGIC)%Z then Some "ext4"
  else if (magic =? XFS_SUPER_MAGIC)%Z then Some "xfs"
  else if (magic =? BTRFS_SUPER_MAGIC)%Z then Some "btrfs"
  else if (magic =? F2FS_SUPER_MAGIC)%Z || (magic =? F2FS_STATFS_MAGIC_ALT)%Z then Some "f2fs"
  else if (magic =? ZFS_SUPER_MAGIC)%Z then Some "zfs"
  else None.

(** ** Interrupted calls *)

#[global] Instance Stat_eq_dec : EqDecision Stat.
Proof. solve_decision. Defined.
#[global] Instance Answer_eq_dec : EqDecision Answer.
Proof. solve_decision. Defined.

Lemma interrupted_iff e : kind (OsError e) = KInterrupted <-> e = EINTR.
Proof.
  unfold kind. repeat (destruct (_ =? _)%Z eqn:?; breflect; subst; try (split; [done|]; intros ->; done)).
  all: try done; split; intros; congruence.
Qed.

(** A loop that ends made some interrupted attempts and then the one whose
    answer it returns: the same result as the single call with that answer. *)
Lemma retry_last {A} fuel c (check : Answer -> result A IoError) tr r :
  (forall e, check (Fails e) = Err (OsError e)) ->
  exec (retry_eintr fuel c check) tr (Some r) <->
  exists n a, (n < fuel)%nat /\ tr = replicate n (c, Fails EINTR) ++ [(c, a)] /\ a <> Fails EINTR /\
    exec (Sys c (fun a => Ret (check a))) [(c, a)] r.
Proof.
  intros Hc. revert tr. induction fuel as [|fuel IH]; intros tr; cbn [retry_eintr].
  { split; [by destruct tr|]. intros (n & a & ? & _). lia. }
  destruct tr as [|[c' a] tr].
  { split; [done|]. intros (n & a & _ & E & _). by destruct n. }
  cbn [exec]. split.
  - intros [-> H]. destruct (decide (a = Fails EINTR)) as [->|Ha].
    + rewrite bool_decide_true in H by (by apply interrupted_iff).
      apply IH in H as (n & a & Hn & -> & Ha & H). exists (S n), a. split; [lia|]. done.
    + exists 0%nat, a. split; [lia|].
      assert (tr = [] /\ r = check a) as [-> ->].
      { destruct a as [e| | | | | |]; try (by apply exec_ret in H as [-> [= ->]]).
        rewrite bool_decide_false in H by (rewrite interrupted_iff; congruence).
        apply exec_ret in H as [-> [= ->]]. by rewrite Hc. }
      done.
  - intros (n & b & Hn & E & Hb & _ & <-). destruct n as [|n]; cbn [replicate app] in E.
    + injection E as -> -> ->. split; [done|].
      destruct b as [e| | | | | |]; try done.
      rewrite bool_decide_false by (rewrite interrupted_iff; congruence). cbn. by rewrite Hc.
    + injection E as -> -> ->. split; [done|].
      rewrite bool_decide_true by (by apply interrupted_iff). apply IH.
      exists n, b. split; [lia|]. done.
Qed.

(** ** Writes without their interrupted attempts

    The write loops of [FsLinux] repeat interrupted calls and take fuel.  The
    forms below leave the interrupted attempts out; every call that succeeds
    writes at least one byte, so as many rounds as bytes are enough.
    [write_settled] and [writev_settled] relate them to the loops. *)

Fixpoint write_rounds (fuel : nat) (fd : Z) (remaining : bytes) : io (result unit IoError) :=
  match remaining, fuel with
  | [], _ => Ret (Ok tt)
  | _, O => Ret (Err (CustomError KWriteZero "write returned zero bytes (no progress)"))
  | _, S fuel' =>
      Sys (SysWrite fd remaining) (fun r =>
        match r with
        | Fails e => Ret (Err (OsError e))
        | _ =>
            if (rc_of r =? 0)%Z
            then Ret (Err (CustomError KWriteZero "write returned zero bytes (no progress)"))
            else write_rounds fuel' fd (drop (Z.to_nat (rc_of r)) remaining)
        end)
  end.
Definition write_all_settled (fd : Z) (buf : bytes) : io (result unit IoError) :=
  write_rounds (length buf) fd buf.

Fixpoint writev_rounds (fuel : nat) (fd : Z) (iovs : list bytes) : io (result unit IoError) :=
  match iovs, fuel with
  | [], _ => Ret (Ok tt)
  | _, O => Ret (Err (CustomError KWriteZero "writev returned zero bytes (no progress)"))
  | _, S fuel' =>
      Sys (SysWritev fd iovs) (fun r =>
        match r with
        | Fails e => Ret (Err (OsError e))
        | _ =>
            if (rc_of r =? 0)%Z
            then Ret (Err (CustomError KWriteZero "writev returned zero bytes (no progress)"))
            else writev_rounds fuel' fd (advance_iovs (Z.to_nat (rc_of r)) iovs)
        end)
  end.
Definition writev_all_settled (fd : Z) (bufs : list bytes) : io (result unit IoError) :=
  if forallb (fun b => (length b =? 0)%nat) bufs then Ret (Ok tt)
  else writev_rounds (length (concat bufs)) fd (filter (fun b => b <> []) bufs).

(** The events other than interrupted attempts. *)
Definition settled (tr : list event) : list event := filter (fun ev => ev.2 <> Fails EINTR) tr.
(** Return values are byte counts. *)
Definition counts_bytes (ev : event) : Prop := (0 <= rc_of ev.2)%Z.

Lemma settled_cons ev tr :
  settled (ev :: tr) = if decide (ev.2 <> Fails EINTR) then ev :: settled tr else settled tr.
Proof. unfold settled. rewrite filter_cons. by repeat case_decide. Qed.

Lemma write_settled_loop fuel n fd buf tr r :
  (length buf <= n)%nat -> exec (write_loop fuel fd buf) tr (Some r) -> Forall counts_bytes tr ->
  exec (write_rounds n fd buf) (settled tr) r.
Proof.
  revert n buf tr. induction fuel as [|fuel IH]; intros n [|b buf] tr Hn H Hc; cbn [write_loop] in H.
  1,3: by apply exec_ret in H as [-> [= ->]]; destruct n.
  - by apply exec_ret in H as [_ ?].
  - destruct n as [|n]; [cbn in Hn; lia|]. destruct tr as [|[c a] tr]; [done|].
    destruct H as [-> H]. apply Forall_cons in Hc as [Ha Hc]. rewrite settled_cons. cbn [snd].
    case_decide as Hd; cycle 1.
    { destruct (decide (a = Fails EINTR)) as [->|]; [|done].
      rewrite bool_decide_true in H by (by apply interrupted_iff). by apply (IH (S n)). }
    cbn [write_rounds exec]. split; [done|].
    destruct a as [e| | | | | |].
    { rewrite bool_decide_false in H by (rewrite interrupted_iff; congruence).
      by apply exec_ret in H as [-> [= ->]]. }
    all: destruct (_ =? 0)%Z eqn:E; [by apply exec_ret in H as [-> [= ->]]|].
    all: unfold counts_bytes in Ha; cbn [rc_of snd] in *; breflect; try lia.
    apply IH; [|done..]. rewrite length_drop. cbn [length] in *. lia.
Qed.

(** A [write_all] that ends is the settled form on the settled trace. *)
Lemma write_settled fuel fd buf tr r :
  exec (write_all fuel fd buf) tr (Some r) -> Forall counts_bytes tr ->
  exec (write_all_settled fd buf) (settled tr) r.
Proof.
  unfold write_all, write_all_settled. destruct (_ =? _)%nat eqn:E; intros H Hc.
  - breflect. apply nil_length_inv in E as ->. by apply exec_ret in H as [-> [= ->]].
  - by eapply write_settled_loop.
Qed.

Lemma writev_settled_loop fuel n fd iovs tr r :
  Forall (fun b => b <> []) iovs -> (length (concat iovs) <= n)%nat ->
  exec (writev_loop fuel fd iovs) tr (Some r) -> Forall counts_bytes tr ->
  exec (writev_rounds n fd iovs) (settled tr) r.
Proof.
  revert n iovs tr. induction fuel as [|fuel IH]; intros n [|b iovs] tr Hf Hn H Hc; cbn [writev_loop] in H.
  1,3: by apply exec_ret in H as [-> [= ->]]; destruct n.
  - by apply exec_ret in H as [_ ?].
  - pose proof Hf as [Hb _]%Forall_cons. cbn [concat] in Hn. rewrite length_app in Hn.
    assert (length b <> 0)%nat by (by intros ?%nil_length_inv).
    destruct n as [|n]; [lia|]. destruct tr as [|[c a] tr]; [done|].
    destruct H as [-> H]. apply Forall_cons in Hc as [Ha Hc]. rewrite settled_cons. cbn [snd].
    case_decide as Hd; cycle 1.
    { destruct (decide (a = Fails EINTR)) as [->|]; [|done].
      rewrite bool_decide_true in H by (by apply interrupted_iff).
      apply (IH (S n)); [done| |done..]. cbn [concat]. rewrite length_app. lia. }
    cbn [writev_rounds exec]. split; [done|].
    destruct a as [e| | | | | |].
    { rewrite bool_decide_false in H by (rewrite interrupted_iff; congruence).
      by apply exec_ret in H as [-> [= ->]]. }
    all: destruct (_ =? 0)%Z eqn:E; [by apply exec_ret in H as [-> [= ->]]|].
    all: unfold counts_bytes in Ha; cbn [rc_of snd] in *; breflect; try lia.
    apply IH; [by apply advance_iovs_nonempty| |done..].
    rewrite concat_advance_iovs, length_drop. cbn [concat]. rewrite length_app. lia.
Qed.

(** A [writev_all] that ends is the settled form on the settled trace. *)
Lemma writev_settled fuel fd bufs tr r :
  exec (writev_all fuel fd bufs) tr (Some r) -> Forall counts_bytes tr ->
  exec (writev_all_settled fd bufs) (settled tr) r.
Proof.
  unfold writev_all, writev_all_settled. destruct (forallb _ _) eqn:E; intros H Hc.
  - by apply exec_ret in H as [-> [= ->]].
  - eapply writev_settled_loop; [|..|done|done].
    + clear. induction bufs as [|b bufs IH]; [constructor|]. rewrite filter_cons. case_decide; [by constructor|done].
    + clear. induction bufs as [|b bufs IH]; [done|]. rewrite filter_cons.
      case_decide; cbn [concat]; rewrite ?length_app; lia.
Qed.

(** A settled write makes write calls only. *)
Lemma write_rounds_calls n fd buf tr r :
  exec (write_rounds n fd buf) tr r -> forall ev, ev ∈ tr -> exists fd' d, ev.1 = SysWrite fd' d.
Proof.
  revert buf tr. induction n as [|n IH]; intros [|b buf] tr He ev Hev; cbn [write_rounds] in He;
    try (apply exec_ret in He as [-> _]; by apply not_elem_of_nil in Hev).
  destruct tr as [|[c a] tr]; [done|]. destruct He as [-> He].
  apply elem_of_cons in Hev as [->|Hev]; [by eexists _, _|].
  destruct a; try (apply exec_ret in He as [-> _]; by apply not_elem_of_nil in Hev).
  all: case_match; try (apply exec_ret in He as [-> _]; by apply not_elem_of_nil in Hev); by eapply IH.
Qed.

(** A settled write that succeeds handed over exactly the buffer. *)
Lemma write_rounds_ok n fd buf tr u :
  Forall write_answer_ok tr -> exec (write_rounds n fd buf) tr (Ok u) ->
  written tr = buf /\ Forall (fun ev => exists d, ev.1 = SysWrite fd d) tr.
Proof.
  revert buf tr. induction n as [|n IH]; intros [|b buf] tr Hok He; cbn [write_rounds] in He;
    try (apply exec_ret in He as [-> E]; [done|done]); try (by apply exec_ret in He as [-> ?]).
  destruct tr as [|[c a] tr]; [done|]. destruct He as [-> He]. apply Forall_cons in Hok as [Ha Hok].
  destruct a as [e|rc| | | | |]; [by apply exec_ret in He as [_ ?]|..|done|done|done|done|done].
  cbn [rc_of] in He. destruct (rc =? 0)%Z eqn:E; breflect; [by apply exec_ret in He as [_ ?]|].
  apply IH in He as [Hw Hf]; [|done]. split; [|by constructor; [eexists|]].
  rewrite written_cons, Hw. cbn [accepted snd fst payload]. by rewrite take_drop.
Qed.
Lemma write_all_settled_ok fd buf tr u :
  Forall write_answer_ok tr -> exec (write_all_settled fd buf) tr (Ok u) ->
  written tr = buf /\ Forall (fun ev => exists d, ev.1 = SysWrite fd d) tr.
Proof. apply write_rounds_ok. Qed.
