(* ===== verification/StateMachine.v ===== *)
(** * The protocol state machine

    Models [crates/steadq-core/src/state_machine.rs]: the tables generated from
    the protocol description, the operation lookup and the legality check.  The
    enum constructors carry a prefix for their type ([Op], [St], [Gen], ...);
    [State] and [Operation] are called [ProtocolState] and [ProtocolOperation],
    the names under which the rest of the crate imports them. *)
From stdpp Require Import base numbers list option strings sets.
From S2P Require Import Prelude.
Open Scope string_scope.
Open Scope list_scope.

Inductive ProtocolOperation : Type :=
| OpEnqueueImmediate
| OpEnqueueDelayed
| OpPromote
| OpClaim
| OpExhaustedReadyCleanup
| OpRenew
| OpAcknowledge
| OpRetryNow
| OpRetryLater
| OpBury
| OpReapExpiredToReady
| OpReapExpiredToDead
| OpQuarantine.

Inductive ProtocolState : Type :=
| StHidden
| StReady
| StLeased
| StDelayed
| StDead
| StReceipt
| StQuarantine
| StActive.

Inductive ObjectKind : Type :=
| KindFullJob
| KindFullReceipt
| KindCompactReceipt
| KindRawObject
| KindWatermarkRecord.

Inductive GenerationChange : Type :=
| GenZero
| GenIncrement
| GenIncrementOrSame.

Inductive AttemptChange : Type :=
| AttZero
| AttIncrement
| AttUnchanged.

Inductive TokenChange : Type :=
| TokNone
| TokNew
| TokSame.

Inductive ReasonClass : Type :=
| ReasonAttemptsExhausted
| ReasonApplicationDefined
| ReasonCorruption.

Inductive ClockRequirement : Type :=
| ClockNone
| ClockAuthenticatedWallFloor
| ClockBoottimeAndAuthenticatedWallFloor
| ClockLeaseExpirationEvidence
| ClockLeaseExpirationEvidenceAndAuthenticatedWallFloor.

Inductive TransitionQualification : Type :=
| QualNone
| QualAttemptsRemaining
| QualAttemptsExhausted
| QualRawBytesPreserved
| QualReceiptBucketEndPlusRetentionNotAfterWallFloor.

Inductive ResolverProbeTopology : Type :=
| ProbeDestinationOnly
| ProbeSourceAndDestination
| ProbeReceiptCandidatesAndSource
| ProbeSourcePresence.

Inductive SyncStep : Type :=
| SyncFile
| SyncDestinationDirectory
| SyncSourceDirectory
| SyncSameOrDestinationDirectory
| SyncSourceDirectoryIfDistinct.

Inductive LinearizationPrimitive : Type :=
| LinPublishNoreplace
| LinRenameNoreplace
| LinRenameReplace
| LinUnlink.

Inductive FailureOutcome : Type :=
| FailNotCommitted
| FailOutcomeUnknown.

Inductive MutationClass : Type :=
| MutNoOverwriteMove
| MutReplacingMove
| MutPublication
| MutUnlink
| MutInPlaceReadOnlyBarrier.

Inductive ExceptionName : Type :=
| ExcReceiptCompaction
| ExcWallWatermarkAdvancement.

Inductive UnlinkName : Type :=
| UnlFullReceiptRetentionDeletion
| UnlCompactReceiptRetentionDeletion.

Inductive SourceAuthentication : Type :=
| AuthNone
| AuthStrictReceipt.

Inductive ReentryName : Type :=
| ReRequeueDead
| ReRequeueQuarantine.

Record TransitionDef : Type := mkTransitionDef {
  td_operation : ProtocolOperation;
  td_source : ProtocolState;
  td_source_object_kind : ObjectKind;
  td_destination : ProtocolState;
  td_destination_object_kind : ObjectKind;
  td_generation_change : GenerationChange;
  td_attempt_change : AttemptChange;
  td_token_change : TokenChange;
  td_reason_class : option ReasonClass;
  td_clock_requirement : ClockRequirement;
  td_required_syncs : list SyncStep;
  td_linearization : LinearizationPrimitive;
  td_before_linearization_failure : FailureOutcome;
  td_after_linearization_failure : FailureOutcome;
  td_resolver_probe_topology : ResolverProbeTopology;
  td_qualification : TransitionQualification
}.

Record ExceptionDef : Type := mkExceptionDef {
  ed_name : ExceptionName;
  ed_description : string;
  ed_source_object_kind : ObjectKind;
  ed_destination_object_kind : ObjectKind;
  ed_clock_requirement : ClockRequirement;
  ed_mutation_class : MutationClass;
  ed_linearization : LinearizationPrimitive;
  ed_required_syncs : list SyncStep;
  ed_before_linearization_failure : FailureOutcome;
  ed_after_linearization_failure : FailureOutcome
}.

Record UnlinkDef : Type := mkUnlinkDef {
  ud_name : UnlinkName;
  ud_description : string;
  ud_source : ProtocolState;
  ud_source_object_kind : ObjectKind;
  ud_source_authentication : SourceAuthentication;
  ud_clock_requirement : ClockRequirement;
  ud_qualification : TransitionQualification;
  ud_mutation_class : MutationClass;
  ud_linearization : LinearizationPrimitive;
  ud_required_syncs : list SyncStep;
  ud_before_linearization_failure : FailureOutcome;
  ud_after_linearization_failure : FailureOutcome;
  ud_resolver_probe_topology : ResolverProbeTopology
}.

Record ReentryDef : Type := mkReentryDef {
  rd_name : ReentryName;
  rd_source : ProtocolState;
  rd_description : string;
  rd_creates_new_identity : bool
}.

Definition TRANSITIONS : list TransitionDef := [
  {| td_operation := OpEnqueueImmediate;
     td_source := StHidden;
     td_source_object_kind := KindFullJob;
     td_destination := StReady;
     td_destination_object_kind := KindFullJob;
     td_generation_change := GenZero;
     td_attempt_change := AttZero;
     td_token_change := TokNone;
     td_reason_class := None;
     td_clock_requirement := ClockAuthenticatedWallFloor;
     td_required_syncs := [SyncFile; SyncDestinationDirectory];
     td_linearization := LinPublishNoreplace;
     td_before_linearization_failure := FailNotCommitted;
     td_after_linearization_failure := FailOutcomeUnknown;
     td_resolver_probe_topology := ProbeDestinationOnly;
     td_qualification := QualNone |};
  {| td_operation := OpEnqueueDelayed;
     td_source := StHidden;
     td_source_object_kind := KindFullJob;
     td_destination := StDelayed;
     td_destination_object_kind := KindFullJob;
     td_generation_change := GenZero;
     td_attempt_change := AttZero;
     td_token_change := TokNone;
     td_reason_class := None;
     td_clock_requirement := ClockAuthenticatedWallFloor;
     td_required_syncs := [SyncFile; SyncDestinationDirectory];
     td_linearization := LinPublishNoreplace;
     td_before_linearization_failure := FailNotCommitted;
     td_after_linearization_failure := FailOutcomeUnknown;
     td_resolver_probe_topology := ProbeDestinationOnly;
     td_qualification := QualNone |};
  {| td_operation := OpPromote;
     td_source := StDelayed;
     td_source_object_kind := KindFullJob;
     td_destination := StReady;
     td_destination_object_kind := KindFullJob;
     td_generation_change := GenIncrement;
     td_attempt_change := AttUnchanged;
     td_token_change := TokNone;
     td_reason_class := None;
     td_clock_requirement := ClockAuthenticatedWallFloor;
     td_required_syncs := [SyncDestinationDirectory; SyncSourceDirectory];
     td_linearization := LinRenameNoreplace;
     td_before_linearization_failure := FailNotCommitted;
     td_after_linearization_failure := FailOutcomeUnknown;
     td_resolver_probe_topology := ProbeSourceAndDestination;
     td_qualification := QualNone |};
  {| td_operation := OpClaim;
     td_source := StReady;
     td_source_object_kind := KindFullJob;
     td_destination := StLeased;
     td_destination_object_kind := KindFullJob;
     td_generation_change := GenIncrement;
     td_attempt_change := AttIncrement;
     td_token_change := TokNew;
     td_reason_class := None;
     td_clock_requirement := ClockBoottimeAndAuthenticatedWallFloor;
     td_required_syncs := [SyncDestinationDirectory; SyncSourceDirectory];
     td_linearization := LinRenameNoreplace;
     td_before_linearization_failure := FailNotCommitted;
     td_after_linearization_failure := FailOutcomeUnknown;
     td_resolver_probe_topology := ProbeSourceAndDestination;
     td_qualification := QualNone |};
  {| td_operation := OpExhaustedReadyCleanup;
     td_source := StReady;
     td_source_object_kind := KindFullJob;
     td_destination := StDead;
     td_destination_object_kind := KindFullJob;
     td_generation_change := GenIncrement;
     td_attempt_change := AttUnchanged;
     td_token_change := TokNone;
     td_reason_class := (Some ReasonAttemptsExhausted);
     td_clock_requirement := ClockAuthenticatedWallFloor;
     td_required_syncs := [SyncDestinationDirectory; SyncSourceDirectory];
     td_linearization := LinRenameNoreplace;
     td_before_linearization_failure := FailNotCommitted;
     td_after_linearization_failure := FailOutcomeUnknown;
     td_resolver_probe_topology := ProbeSourceAndDestination;
     td_qualification := QualNone |};
  {| td_operation := OpRenew;
     td_source := StLeased;
     td_source_object_kind := KindFullJob;
     td_destination := StLeased;
     td_destination_object_kind := KindFullJob;
     td_generation_change := GenIncrement;
     td_attempt_change := AttUnchanged;
     td_token_change := TokSame;
     td_reason_class := None;
     td_clock_requirement := ClockBoottimeAndAuthenticatedWallFloor;
     td_required_syncs := [SyncSameOrDestinationDirectory; SyncSourceDirectoryIfDistinct];
     td_linearization := LinRenameNoreplace;
     td_before_linearization_failure := FailNotCommitted;
     td_after_linearization_failure := FailOutcomeUnknown;
     td_resolver_probe_topology := ProbeSourceAndDestination;
     td_qualification := QualNone |};
  {| td_operation := OpAcknowledge;
     td_source := StLeased;
     td_source_object_kind := KindFullJob;
     td_destination := StReceipt;
     td_destination_object_kind := KindFullReceipt;
     td_generation_change := GenIncrement;
     td_attempt_change := AttUnchanged;
     td_token_change := TokSame;
     td_reason_class := None;
     td_clock_requirement := ClockAuthenticatedWallFloor;
     td_required_syncs := [SyncDestinationDirectory; SyncSourceDirectory];
     td_linearization := LinRenameNoreplace;
     td_before_linearization_failure := FailNotCommitted;
     td_after_linearization_failure := FailOutcomeUnknown;
     td_resolver_probe_topology := ProbeReceiptCandidatesAndSource;
     td_qualification := QualNone |};
  {| td_operation := OpRetryNow;
     td_source := StLeased;
     td_source_object_kind := KindFullJob;
     td_destination := StReady;
     td_destination_object_kind := KindFullJob;
     td_generation_change := GenIncrement;
     td_attempt_change := AttUnchanged;
     td_token_change := TokNone;
     td_reason_class := None;
     td_clock_requirement := ClockNone;
     td_required_syncs := [SyncDestinationDirectory; SyncSourceDirectory];
     td_linearization := LinRenameNoreplace;
     td_before_linearization_failure := FailNotCommitted;
     td_after_linearization_failure := FailOutcomeUnknown;
     td_resolver_probe_topology := ProbeSourceAndDestination;
     td_qualification := QualNone |};
  {| td_operation := OpRetryLater;
     td_source := StLeased;
     td_source_object_kind := KindFullJob;
     td_destination := StDelayed;
     td_destination_object_kind := KindFullJob;
     td_generation_change := GenIncrement;
     td_attempt_change := AttUnchanged;
     td_token_change := TokNone;
     td_reason_class := None;
     td_clock_requirement := ClockAuthenticatedWallFloor;
     td_required_syncs := [SyncDestinationDirectory; SyncSourceDirectory];
     td_linearization := LinRenameNoreplace;
     td_before_linearization_failure := FailNotCommitted;
     td_after_linearization_failure := FailOutcomeUnknown;
     td_resolver_probe_topology := ProbeSourceAndDestination;
     td_qualification := QualNone |};
  {| td_operation := OpBury;
     td_source := StLeased;
     td_source_object_kind := KindFullJob;
     td_destination := StDead;
     td_destination_object_kind := KindFullJob;
     td_generation_change := GenIncrement;
     td_attempt_change := AttUnchanged;
     td_token_change := TokNone;
     td_reason_class := (Some ReasonApplicationDefined);
     td_clock_requirement := ClockAuthenticatedWallFloor;
     td_required_syncs := [SyncDestinationDirectory; SyncSourceDirectory];
     td_linearization := LinRenameNoreplace;
     td_before_linearization_failure := FailNotCommitted;
     td_after_linearization_failure := FailOutcomeUnknown;
     td_resolver_probe_topology := ProbeSourceAndDestination;
     td_qualification := QualNone |};
  {| td_operation := OpReapExpiredToReady;
     td_source := StLeased;
     td_source_object_kind := KindFullJob;
     td_destination := StReady;
     td_destination_object_kind := KindFullJob;
     td_generation_change := GenIncrement;
     td_attempt_change := AttUnchanged;
     td_token_change := TokNone;
     td_reason_class := None;
     td_clock_requirement := ClockLeaseExpirationEvidence;
     td_required_syncs := [SyncDestinationDirectory; SyncSourceDirectory];
     td_linearization := LinRenameNoreplace;
     td_before_linearization_failure := FailNotCommitted;
     td_after_linearization_failure := FailOutcomeUnknown;
     td_resolver_probe_topology := ProbeSourceAndDestination;
     td_qualification := QualAttemptsRemaining |};
  {| td_operation := OpReapExpiredToDead;
     td_source := StLeased;
     td_source_object_kind := KindFullJob;
     td_destination := StDead;
     td_destination_object_kind := KindFullJob;
     td_generation_change := GenIncrement;
     td_attempt_change := AttUnchanged;
     td_token_change := TokNone;
     td_reason_class := (Some ReasonAttemptsExhausted);
     td_clock_requirement := ClockLeaseExpirationEvidenceAndAuthenticatedWallFloor;
     td_required_syncs := [SyncDestinationDirectory; SyncSourceDirectory];
     td_linearization := LinRenameNoreplace;
     td_before_linearization_failure := FailNotCommitted;
     td_after_linearization_failure := FailOutcomeUnknown;
     td_resolver_probe_topology := ProbeSourceAndDestination;
     td_qualification := QualAttemptsExhausted |};
  {| td_operation := OpQuarantine;
     td_source := StActive;
     td_source_object_kind := KindRawObject;
     td_destination := StQuarantine;
     td_destination_object_kind := KindRawObject;
     td_generation_change := GenIncrement;
     td_attempt_change := AttUnchanged;
     td_token_change := TokNone;
     td_reason_class := (Some ReasonCorruption);
     td_clock_requirement := ClockNone;
     td_required_syncs := [SyncDestinationDirectory; SyncSourceDirectory];
     td_linearization := LinRenameNoreplace;
     td_before_linearization_failure := FailNotCommitted;
     td_after_linearization_failure := FailOutcomeUnknown;
     td_resolver_probe_topology := ProbeSourceAndDestination;
     td_qualification := QualRawBytesPreserved |}
].

Definition EXCEPTIONS : list ExceptionDef := [
  {| ed_name := ExcReceiptCompaction;
     ed_description := "Terminal full-job receipt replaced by byte-deterministic compact receipt at same pathname";
     ed_source_object_kind := KindFullReceipt;
     ed_destination_object_kind := KindCompactReceipt;
     ed_clock_requirement := ClockNone;
     ed_mutation_class := MutReplacingMove;
     ed_linearization := LinRenameReplace;
     ed_required_syncs := [SyncFile; SyncSameOrDestinationDirectory];
     ed_before_linearization_failure := FailNotCommitted;
     ed_after_linearization_failure := FailOutcomeUnknown |};
  {| ed_name := ExcWallWatermarkAdvancement;
     ed_description := "Monotone wall-watermark record replaced under exclusive OFD lock";
     ed_source_object_kind := KindWatermarkRecord;
     ed_destination_object_kind := KindWatermarkRecord;
     ed_clock_requirement := ClockAuthenticatedWallFloor;
     ed_mutation_class := MutReplacingMove;
     ed_linearization := LinRenameReplace;
     ed_required_syncs := [SyncFile; SyncSameOrDestinationDirectory];
     ed_before_linearization_failure := FailNotCommitted;
     ed_after_linearization_failure := FailOutcomeUnknown |}
].

Definition UNLINKS : list UnlinkDef := [
  {| ud_name := UnlFullReceiptRetentionDeletion;
     ud_description := "Authenticated retention deletion of an eligible full receipt";
     ud_source := StReceipt;
     ud_source_object_kind := KindFullReceipt;
     ud_source_authentication := AuthStrictReceipt;
     ud_clock_requirement := ClockAuthenticatedWallFloor;
     ud_qualification := QualReceiptBucketEndPlusRetentionNotAfterWallFloor;
     ud_mutation_class := MutUnlink;
     ud_linearization := LinUnlink;
     ud_required_syncs := [SyncSourceDirectory];
     ud_before_linearization_failure := FailNotCommitted;
     ud_after_linearization_failure := FailOutcomeUnknown;
     ud_resolver_probe_topology := ProbeSourcePresence |};
  {| ud_name := UnlCompactReceiptRetentionDeletion;
     ud_description := "Authenticated retention deletion of an eligible compact receipt";
     ud_source := StReceipt;
     ud_source_object_kind := KindCompactReceipt;
     ud_source_authentication := AuthStrictReceipt;
     ud_clock_requirement := ClockAuthenticatedWallFloor;
     ud_qualification := QualReceiptBucketEndPlusRetentionNotAfterWallFloor;
     ud_mutation_class := MutUnlink;
     ud_linearization := LinUnlink;
     ud_required_syncs := [SyncSourceDirectory];
     ud_before_linearization_failure := FailNotCommitted;
     ud_after_linearization_failure := FailOutcomeUnknown;
     ud_resolver_probe_topology := ProbeSourcePresence |}
].

Definition REENTRY : list ReentryDef := [
  {| rd_name := ReRequeueDead;
     rd_source := StDead;
     rd_description := "Verified resubmission: creates new job identity, copies payload and safe metadata, adds old job_id as provenance";
     rd_creates_new_identity := true |};
  {| rd_name := ReRequeueQuarantine;
     rd_source := StQuarantine;
     rd_description := "Verified resubmission after full structural and payload verification: creates new job identity";
     rd_creates_new_identity := true |}
].

#[global] Instance ProtocolOperation_eq_dec : EqDecision ProtocolOperation.
Proof. solve_decision. Defined.
#[global] Instance ProtocolState_eq_dec : EqDecision ProtocolState.
Proof. solve_decision. Defined.
#[global] Instance SyncStep_eq_dec : EqDecision SyncStep.
Proof. solve_decision. Defined.
#[global] Instance ObjectKind_eq_dec : EqDecision ObjectKind.
Proof. solve_decision. Defined.
#[global] Instance TransitionDef_inhabited : Inhabited TransitionDef :=
  populate (mkTransitionDef OpQuarantine StActive KindRawObject StQuarantine KindRawObject GenZero
    AttZero TokNone None ClockNone [] LinUnlink FailNotCommitted FailNotCommitted ProbeSourcePresence
    QualNone).

(** [&TRANSITIONS[i]] *)
Definition transition (operation : ProtocolOperation) : TransitionDef :=
  match operation with
  | OpEnqueueImmediate => TRANSITIONS !!! 0%nat
  | OpEnqueueDelayed => TRANSITIONS !!! 1%nat
  | OpPromote => TRANSITIONS !!! 2%nat
  | OpClaim => TRANSITIONS !!! 3%nat
  | OpExhaustedReadyCleanup => TRANSITIONS !!! 4%nat
  | OpRenew => TRANSITIONS !!! 5%nat
  | OpAcknowledge => TRANSITIONS !!! 6%nat
  | OpRetryNow => TRANSITIONS !!! 7%nat
  | OpRetryLater => TRANSITIONS !!! 8%nat
  | OpBury => TRANSITIONS !!! 9%nat
  | OpReapExpiredToReady => TRANSITIONS !!! 10%nat
  | OpReapExpiredToDead => TRANSITIONS !!! 11%nat
  | OpQuarantine => TRANSITIONS !!! 12%nat
  end.

Definition is_legal_transition (source destination : ProtocolState) : bool :=
  existsb (fun t => bool_decide (td_source t = source) && bool_decide (td_destination t = destination))
    TRANSITIONS.

(** ** The table *)

Definition all_operations : list ProtocolOperation :=
  [OpEnqueueImmediate; OpEnqueueDelayed; OpPromote; OpClaim; OpExhaustedReadyCleanup; OpRenew;
   OpAcknowledge; OpRetryNow; OpRetryLater; OpBury; OpReapExpiredToReady; OpReapExpiredToDead;
   OpQuarantine].

Lemma TRANSITIONS_all : TRANSITIONS = map transition all_operations.
Proof. reflexivity. Qed.

Lemma elem_of_all_operations op : op ∈ all_operations.
Proof. destruct op; repeat constructor. Qed.

Lemma transition_operation op : td_operation (transition op) = op.
Proof. by destruct op. Qed.

Lemma is_legal_transition_iff s d :
  is_legal_transition s d = true <->
  exists op, td_source (transition op) = s /\ td_destination (transition op) = d.
Proof.
  unfold is_legal_transition. rewrite TRANSITIONS_all, existsb_exists. split.
  - intros (t & Ht & Hb). apply in_map_iff in Ht as (op & <- & _). breflect. eauto.
  - intros (op & <- & <-). exists (transition op). split.
    + apply in_map, list_elem_of_In, elem_of_all_operations.
    + by rewrite !bool_decide_true.
Qed.

(** The operation lookup is exact.  The table row of every operation
    carries that operation; every row is reached by exactly one operation; and
    the legality check holds precisely for the source and destination pairs of
    the rows. *)
Theorem transition_table_exact :
  (forall op, td_operation (transition op) = op) /\
  (forall t, t ∈ TRANSITIONS -> exists op, transition op = t /\ forall op', transition op' = t -> op' = op) /\
  (forall s d, is_legal_transition s d = true <->
     exists op, td_source (transition op) = s /\ td_destination (transition op) = d).
Proof.
  split; [exact transition_operation|]. split; [|exact is_legal_transition_iff].
  intros t Ht. rewrite TRANSITIONS_all in Ht. apply list_elem_of_fmap in Ht as (op & -> & _).
  exists op. split; [done|]. intros op' E. apply (f_equal td_operation) in E.
  by rewrite !transition_operation in E.
Qed.

(** States a job never leaves through a transition, and the state no job enters. *)
Definition terminal (s : ProtocolState) : bool :=
  match s with StDead | StReceipt | StQuarantine => true | _ => false end.

(** The protocol's shape, for every operation: terminal states have no
    outgoing transition and nothing returns to [Hidden]; every transition
    reports [NotCommitted] before and [OutcomeUnknown] after its linearization
    point; a directory barrier on the destination always follows; a lease token
    exists exactly in leased and receipt destinations, and is new only for a
    claim; a reason accompanies exactly the dead and quarantine destinations;
    only claims consume an attempt; only enqueues restart the generation and
    only they publish from [Hidden]. *)
Theorem transition_discipline op :
  let t := transition op in
  terminal (td_source t) = false /\ td_destination t <> StHidden /\
  td_before_linearization_failure t = FailNotCommitted /\
  td_after_linearization_failure t = FailOutcomeUnknown /\
  (SyncDestinationDirectory ∈ td_required_syncs t \/
   SyncSameOrDestinationDirectory ∈ td_required_syncs t) /\
  (td_token_change t <> TokNone <-> td_destination t = StLeased \/ td_destination t = StReceipt) /\
  (td_token_change t = TokNew <-> op = OpClaim) /\
  (td_reason_class t <> None <-> td_destination t = StDead \/ td_destination t = StQuarantine) /\
  (td_attempt_change t = AttIncrement <-> op = OpClaim) /\
  (td_generation_change t = GenZero <-> td_source t = StHidden) /\
  (td_linearization t = LinPublishNoreplace <-> td_source t = StHidden) /\
  td_generation_change t <> GenIncrementOrSame.
Proof.
  destruct op; cbn; repeat (split; [first [by auto | by split; naive_solver | set_solver]|]); done.
Qed.

(** The operations outside the transition table are confined.  Replacing
    moves sync the replacement file before its directory and never change an
    object other than a full receipt or the watermark; unlinks apply only to
    receipts, after strict authentication and retention by the wall floor; and
    re-entry starts only from states the table never leaves, always under a new
    job identity. *)
Theorem exceptions_confined :
  (forall e, e ∈ EXCEPTIONS ->
     ed_linearization e = LinRenameReplace /\ ed_mutation_class e = MutReplacingMove /\
     ed_required_syncs e = [SyncFile; SyncSameOrDestinationDirectory] /\
     (ed_source_object_kind e = KindFullReceipt /\ ed_destination_object_kind e = KindCompactReceipt \/
      ed_source_object_kind e = KindWatermarkRecord /\ ed_destination_object_kind e = KindWatermarkRecord) /\
     ed_before_linearization_failure e = FailNotCommitted /\
     ed_after_linearization_failure e = FailOutcomeUnknown) /\
  (forall u, u ∈ UNLINKS ->
     ud_linearization u = LinUnlink /\ ud_source u = StReceipt /\
     ud_source_authentication u = AuthStrictReceipt /\
     ud_clock_requirement u = ClockAuthenticatedWallFloor /\
     ud_qualification u = QualReceiptBucketEndPlusRetentionNotAfterWallFloor /\
     ud_required_syncs u = [SyncSourceDirectory] /\
     ud_before_linearization_failure u = FailNotCommitted /\
     ud_after_linearization_failure u = FailOutcomeUnknown) /\
  (forall r d, r ∈ REENTRY ->
     rd_creates_new_identity r = true /\ is_legal_transition (rd_source r) d = false).
Proof.
  split; [|split].
  - intros e He. repeat (apply elem_of_cons in He as [->|He]; [cbn; tauto|]).
    by apply not_elem_of_nil in He.
  - intros u Hu. repeat (apply elem_of_cons in Hu as [->|Hu]; [cbn; tauto|]).
    by apply not_elem_of_nil in Hu.
  - intros r d Hr. repeat (apply elem_of_cons in Hr as [->|Hr]; [split; [done|by destruct d]|]).
    by apply not_elem_of_nil in Hr.
Qed.
