(* ===== verification/Ticket.v ===== *)
(** * Errors, outcomes and transition tickets

    Models [crates/steadq-core/src/errors.rs]: the error and outcome types, the
    generation and attempt rule [next_common_fields], the transition ticket with
    its validation and JSON form, and the reason codes.  A Rust [String] that
    holds a boot id or hex text is its byte list; error messages are strings.
    The [serde_json] crate is a parameter, with its round trip as a law. *)
From stdpp Require Import base numbers list option strings gmap.
From Stdlib Require Import Strings.Byte ZArith.
From S2P Require Import Prelude Names FsLinux StateMachine.
Open Scope string_scope.
Open Scope list_scope.

(** ** Errors and outcomes *)

Inductive Error : Type :=
| ResourceExhausted
| StateExhausted
| IdentityCollision
| InvalidInput (s : string)
| InvalidTicket (s : string)
| UnsupportedFilesystem
| UnsupportedFormat
| InvalidClock
| MaintenanceBusy
| QueueCorrupt (s : string)
| PayloadCorrupt
| QueuePoisoned (s : string)
| PermissionDenied
| IoFailure (s : string).

(** The derived [Display]. *)
Definition Error_fmt (e : Error) : string :=
  match e with
  | ResourceExhausted => "resource exhausted"
  | StateExhausted => "state exhausted"
  | IdentityCollision => "identity collision"
  | InvalidInput s => "invalid input: " +:+ s
  | InvalidTicket s => "invalid transition ticket: " +:+ s
  | UnsupportedFilesystem => "unsupported filesystem"
  | UnsupportedFormat => "unsupported format"
  | InvalidClock => "invalid clock"
  | MaintenanceBusy => "maintenance busy"
  | QueueCorrupt s => "queue corrupt: " +:+ s
  | PayloadCorrupt => "payload corrupt"
  | QueuePoisoned s => "queue poisoned: " +:+ s
  | PermissionDenied => "permission denied"
  | IoFailure s => "io failure: " +:+ s
  end.

(** [impl From<std::io::Error> for Error]; [display] is the error's [Display]
    text, which comes from the standard library and the C library. *)
Definition Error_from_io (display : IoError -> string) (error : IoError) : Error :=
  if os_error_in [ENOSPC; EDQUOT] error then ResourceExhausted
  else IoFailure (display error).

Inductive PoisonReason : Type :=
| PostLinearizationStateUnknown
| WatermarkAuthorityLost
| InternalInvariantViolation.

Definition PoisonReason_fmt (r : PoisonReason) : string :=
  match r with
  | PostLinearizationStateUnknown => "post-linearization state unknown"
  | WatermarkAuthorityLost => "wall watermark authority lost"
  | InternalInvariantViolation => "internal invariant violation"
  end.

Inductive InitialState : Type := InitialReady | InitialDelayed.

Record EnqueueTicket : Type := mkEnqueueTicket {
  et_job_id : bytes;
  et_envelope_digest : bytes;
  et_expected_initial_state : InitialState;
  et_expected_relative_path : bytes
}.

Definition EnqueueTicket_uncommitted (job_id : bytes) : EnqueueTicket :=
  mkEnqueueTicket job_id (zeros 32) InitialReady [].

Inductive EnqueueOutcome : Type :=
| EnqueueCommitted (t : EnqueueTicket)
| EnqueueDeferred (t : EnqueueTicket)
| EnqueueNotCommitted (t : EnqueueTicket) (e : Error)
| EnqueueOutcomeUnknown (t : EnqueueTicket) (e : Error).

Record LeaseInfo : Type := mkLeaseInfo {
  li_job_id : bytes;
  li_envelope_digest : bytes;
  li_generation : Z;
  li_attempt : Z;
  li_maximum_attempts : Z;
  li_token : bytes;
  li_boot_id : bytes;
  li_expires_boottime_ns : Z;
  li_expires_wall_ns : Z;
  li_content_type : bytes;
  li_payload_length : Z;
  li_payload_digest : bytes;
  li_expected_dev : Z;
  li_expected_inode : Z;
  li_exact_source_path : bytes
}.

(** [u64::saturating_sub] *)
Definition LeaseInfo_remaining_ns (l : LeaseInfo) (current_boottime_ns : Z) : Z :=
  Z.max 0 (li_expires_boottime_ns l - current_boottime_ns).

(** ** Transition tickets *)

Definition TRANSITION_TICKET_SCHEMA : bytes := lit "steadq-transition-ticket".
Definition TRANSITION_TICKET_VERSION : Z := 2.

Inductive TransitionOperation : Type := TClaim | TRenew | TAcknowledge | TRetryNow | TRetryLater | TBury.

Inductive IdentityChangeError : Type := IdentityOverflow | IdentityIndeterminate.

Definition next_common_fields (operation : ProtocolOperation) (source : CommonFields)
  : result CommonFields IdentityChangeError :=
  let definition := transition operation in
  let? generation :=
    match td_generation_change definition with
    | GenZero => Ok 0%Z
    | GenIncrement => ok_or (u64_checked_add (cf_generation source) 1) IdentityOverflow
    | GenIncrementOrSame => Err IdentityIndeterminate
    end in
  let? attempt :=
    match td_attempt_change definition with
    | AttZero => Ok 0%Z
    | AttIncrement => ok_or (u32_checked_add (cf_attempt source) 1) IdentityOverflow
    | AttUnchanged => Ok (cf_attempt source)
    end in
  Ok (mkCommon (cf_job_id source) generation attempt (cf_maximum_attempts source)).

Definition protocol_operation (op : TransitionOperation) : ProtocolOperation :=
  match op with
  | TClaim => OpClaim
  | TRenew => OpRenew
  | TAcknowledge => OpAcknowledge
  | TRetryNow => OpRetryNow
  | TRetryLater => OpRetryLater
  | TBury => OpBury
  end.

Inductive TransitionPhase : Type := Linearized | DestinationDirectoryDurable | SourceDirectoryDurable.

Inductive TicketSource : Type :=
| SrcReady
| SrcLeased (boot_id : bytes) (boottime_deadline_ns wall_deadline_ns : Z).

Definition TicketSource_protocol_state (s : TicketSource) : ProtocolState :=
  match s with SrcReady => StReady | SrcLeased _ _ _ => StLeased end.

Inductive TicketDestination : Type :=
| DstReady
| DstLeased (boot_id : bytes) (boottime_deadline_ns wall_deadline_ns : Z)
| DstDelayed (not_before_ns : Z)
| DstReceipt (terminal_bucket : Z)
| DstDead (terminal_bucket reason : Z).

Definition TicketDestination_protocol_state (d : TicketDestination) : ProtocolState :=
  match d with
  | DstReady => StReady
  | DstLeased _ _ _ => StLeased
  | DstDelayed _ => StDelayed
  | DstReceipt _ => StReceipt
  | DstDead _ _ => StDead
  end.

Record TicketEvidence : Type := mkTicketEvidence {
  te_envelope_digest : bytes;
  te_payload_length : Z
}.

Record TicketIdentity : Type := mkTicketIdentity {
  ti_job_id : bytes;
  ti_generation : Z;
  ti_attempt : Z;
  ti_maximum_attempts : Z;
  ti_lease_token : bytes;
  ti_evidence : TicketEvidence
}.

Record TransitionTicket : Type := mkTransitionTicket {
  tt_queue_id : bytes;
  tt_operation : TransitionOperation;
  tt_phase : TransitionPhase;
  tt_job_id : bytes;
  tt_source_generation : Z;
  tt_source_attempt : Z;
  tt_maximum_attempts : Z;
  tt_lease_token : bytes;
  tt_envelope_digest : bytes;
  tt_payload_length : Z;
  tt_source : TicketSource;
  tt_destination : TicketDestination
}.

Record TicketIdentityWire : Type := mkTicketIdentityWire {
  iw_job_id : bytes;
  iw_generation : Z;
  iw_attempt : Z;
  iw_maximum_attempts : Z;
  iw_lease_token : bytes;
  iw_envelope_digest : bytes;
  iw_payload_length : Z
}.

Record TransitionTicketWire : Type := mkTransitionTicketWire {
  tw_schema : bytes;
  tw_version : Z;
  tw_queue_id : bytes;
  tw_operation : TransitionOperation;
  tw_phase : TransitionPhase;
  tw_source_identity : TicketIdentityWire;
  tw_source : TicketSource;
  tw_destination_derivation : TicketDestination
}.

(** Lease outcomes, renewals, acknowledgements and other transitions. *)
Inductive LeaseOutcome : Type :=
| LeaseLeased (l : LeaseInfo) | LeaseEmpty | LeaseNotCommitted (e : Error)
| LeaseOutcomeUnknown (t : TransitionTicket).
Inductive RenewOutcome : Type :=
| RenewRenewed (l : LeaseInfo) | RenewDeferred (l : LeaseInfo) | RenewLeaseLost
| RenewNotCommitted (e : Error) | RenewOutcomeUnknown (t : TransitionTicket).
Inductive AckOutcome : Type :=
| Acked | AlreadyAcked | AckLeaseLost | AckNotCommitted (e : Error)
| AckOutcomeUnknown (t : TransitionTicket).
Inductive TransitionOutcome : Type :=
| TransitionCommitted | TransitionLeaseLost | TransitionNotCommitted (e : Error)
| TransitionOutcomeUnknown (t : TransitionTicket).

Definition source_boot_id (t : TransitionTicket) : option bytes :=
  match tt_source t with SrcReady => None | SrcLeased boot_id _ _ => Some boot_id end.
Definition destination_boot_id (t : TransitionTicket) : option bytes :=
  match tt_destination t with DstLeased boot_id _ _ => Some boot_id | _ => None end.

Definition with_phase (t : TransitionTicket) (phase : TransitionPhase) : TransitionTicket :=
  mkTransitionTicket (tt_queue_id t) (tt_operation t) phase (tt_job_id t) (tt_source_generation t)
    (tt_source_attempt t) (tt_maximum_attempts t) (tt_lease_token t) (tt_envelope_digest t)
    (tt_payload_length t) (tt_source t) (tt_destination t).

Definition source_common (t : TransitionTicket) : CommonFields :=
  mkCommon (tt_job_id t) (tt_source_generation t) (tt_source_attempt t) (tt_maximum_attempts t).

Definition object_kinds (t : TransitionTicket) : ObjectKind * ObjectKind :=
  let definition := transition (protocol_operation (tt_operation t)) in
  (td_source_object_kind definition, td_destination_object_kind definition).

Definition destination_common (t : TransitionTicket) : result CommonFields Error :=
  map_err (fun error => match error with
    | IdentityOverflow => InvalidTicket "source generation or attempt cannot increment"
    | IdentityIndeterminate => InvalidTicket "ticket operation has an indeterminate generation change"
    end) (next_common_fields (protocol_operation (tt_operation t)) (source_common t)).

(** The loop over the boot ids the ticket carries. *)
Fixpoint check_boot_ids (l : list (option bytes)) : result unit Error :=
  match l with
  | [] => Ok tt
  | None :: l' => check_boot_ids l'
  | Some boot_id :: l' =>
      match boot_id_bytes boot_id with
      | None => Err (InvalidTicket "ticket boot_id is not canonical")
      | Some _ => check_boot_ids l'
      end
  end.

Definition validate (t : TransitionTicket) : result unit Error :=
  if (tt_maximum_attempts t =? 0)%Z
  then Err (InvalidTicket "ticket maximum_attempts must be nonzero")
  else if (tt_maximum_attempts t <? tt_source_attempt t)%Z
  then Err (InvalidTicket "ticket attempt exceeds maximum_attempts")
  else
    let? destination_common := destination_common t in
    let definition := transition (protocol_operation (tt_operation t)) in
    let legal :=
      bool_decide (TicketSource_protocol_state (tt_source t) = td_source definition)
      && bool_decide (TicketDestination_protocol_state (tt_destination t) = td_destination definition)
      && (cf_attempt destination_common <=? tt_maximum_attempts t)%Z in
    if negb legal
    then Err (InvalidTicket "operation does not permit the ticket source and destination")
    else check_boot_ids [source_boot_id t; destination_boot_id t].

Definition validate_for_queue (t : TransitionTicket) (queue_id : bytes) : result unit Error :=
  let? _ := validate t in
  if negb (bool_decide (tt_queue_id t = queue_id))
  then Err (InvalidTicket "ticket belongs to another queue")
  else Ok tt.

Definition TransitionTicket_new (queue_id : bytes) (operation : TransitionOperation)
    (phase : TransitionPhase) (identity : TicketIdentity) (source : TicketSource)
    (destination : TicketDestination) : result TransitionTicket Error :=
  let ticket := mkTransitionTicket queue_id operation phase (ti_job_id identity)
    (ti_generation identity) (ti_attempt identity) (ti_maximum_attempts identity)
    (ti_lease_token identity) (te_envelope_digest (ti_evidence identity))
    (te_payload_length (ti_evidence identity)) source destination in
  let? _ := validate ticket in
  Ok ticket.

(** *** JSON form *)

(** The two [serde_json] functions at the wire type; an error is its text. *)
Class SerdeJson : Type := {
  from_slice : bytes -> result TransitionTicketWire string;
  to_vec_pretty : TransitionTicketWire -> result bytes string
}.
(** Serializing a plain struct of strings, integers and enums succeeds, and
    deserializing the output with the derived [Deserialize] gives it back. *)
Class SerdeJsonLaws `{SerdeJson} : Prop :=
  serde_round_trip w : exists b, to_vec_pretty w = Ok b /\ from_slice b = Ok w.

Section Json.
Context `{SerdeJson}.

Definition from_json (data : bytes) : result TransitionTicket Error :=
  let? wire := map_err (fun error => InvalidTicket ("invalid JSON: " +:+ error)) (from_slice data) in
  if negb (bool_decide (tw_schema wire = TRANSITION_TICKET_SCHEMA))
  then Err (InvalidTicket "invalid schema")
  else if negb (tw_version wire =? TRANSITION_TICKET_VERSION)%Z
  then Err (InvalidTicket "unsupported version")
  else
    let identity := tw_source_identity wire in
    let? queue_id := ok_or (hex_decode_16 (tw_queue_id wire)) (InvalidTicket "invalid queue_id") in
    let? job_id := ok_or (hex_decode_16 (iw_job_id identity)) (InvalidTicket "invalid job_id") in
    let? lease_token :=
      ok_or (hex_decode_16 (iw_lease_token identity)) (InvalidTicket "invalid lease_token") in
    let? envelope_digest :=
      ok_or (hex_decode_32 (iw_envelope_digest identity)) (InvalidTicket "invalid envelope_digest") in
    TransitionTicket_new queue_id (tw_operation wire) (tw_phase wire)
      (mkTicketIdentity job_id (iw_generation identity) (iw_attempt identity)
        (iw_maximum_attempts identity) lease_token
        (mkTicketEvidence envelope_digest (iw_payload_length identity)))
      (tw_source wire) (tw_destination_derivation wire).

Definition ticket_wire (t : TransitionTicket) : TransitionTicketWire :=
  mkTransitionTicketWire TRANSITION_TICKET_SCHEMA TRANSITION_TICKET_VERSION
    (hex_encode (tt_queue_id t)) (tt_operation t) (tt_phase t)
    (mkTicketIdentityWire (hex_encode (tt_job_id t)) (tt_source_generation t) (tt_source_attempt t)
      (tt_maximum_attempts t) (hex_encode (tt_lease_token t)) (hex_encode (tt_envelope_digest t))
      (tt_payload_length t))
    (tt_source t) (tt_destination t).

Definition to_json (t : TransitionTicket) : result bytes Error :=
  map_err (fun error => InvalidTicket ("serialization failed: " +:+ error))
    (to_vec_pretty (ticket_wire t)).

End Json.

(** ** Reason codes and resolutions *)

Inductive DeadReason : Type :=
| DeadUnspecified | ConsumerRejected | UnsupportedContentType | AdministrativeBury
| DeadAttemptsExhausted.

Definition DeadReason_as_u16 (r : DeadReason) : Z :=
  match r with
  | DeadUnspecified => 0 | ConsumerRejected => 1 | UnsupportedContentType => 2
  | AdministrativeBury => 3 | DeadAttemptsExhausted => 4
  end.
Definition DeadReason_from_u16 (v : Z) : option DeadReason :=
  if (v =? 0)%Z then Some DeadUnspecified
  else if (v =? 1)%Z then Some ConsumerRejected
  else if (v =? 2)%Z then Some UnsupportedContentType
  else if (v =? 3)%Z then Some AdministrativeBury
  else if (v =? 4)%Z then Some DeadAttemptsExhausted
  else None.

Inductive QuarantineReason : Type :=
| QEnvelopeCorrupt | QPayloadCorrupt | QFilenameParseFailed | QFilenameTagFailed
| QFilenameHeaderMismatch | QUnsupportedRequiredFeature | QDuplicateStateConflict
| QNonRegularFile | QUnexpectedHardLink | QCrossDeviceObject | QImpossibleStateTransition.

Definition QuarantineReason_as_u16 (r : QuarantineReason) : Z :=
  match r with
  | QEnvelopeCorrupt => 1 | QPayloadCorrupt => 2 | QFilenameParseFailed => 3
  | QFilenameTagFailed => 4 | QFilenameHeaderMismatch => 5 | QUnsupportedRequiredFeature => 6
  | QDuplicateStateConflict => 7 | QNonRegularFile => 8 | QUnexpectedHardLink => 9
  | QCrossDeviceObject => 10 | QImpossibleStateTransition => 11
  end.
Definition QuarantineReason_from_u16 (v : Z) : option QuarantineReason :=
  if (v =? 1)%Z then Some QEnvelopeCorrupt
  else if (v =? 2)%Z then Some QPayloadCorrupt
  else if (v =? 3)%Z then Some QFilenameParseFailed
  else if (v =? 4)%Z then Some QFilenameTagFailed
  else if (v =? 5)%Z then Some QFilenameHeaderMismatch
  else if (v =? 6)%Z then Some QUnsupportedRequiredFeature
  else if (v =? 7)%Z then Some QDuplicateStateConflict
  else if (v =? 8)%Z then Some QNonRegularFile
  else if (v =? 9)%Z then Some QUnexpectedHardLink
  else if (v =? 10)%Z then Some QCrossDeviceObject
  else if (v =? 11)%Z then Some QImpossibleStateTransition
  else None.

Inductive ResolutionOutcome : Type :=
| DestinationObserved | DestinationStabilized | SourceObserved | SourceStabilized
| BothObserved | NeitherObserved | ConflictingObject | ResolutionFailed (e : Error).

Record Snapshot : Type := mkSnapshot {
  sn_job_id : bytes;
  sn_state : bytes;
  sn_generation : Z;
  sn_attempt : Z;
  sn_maximum_attempts : Z;
  sn_shard : Z;
  sn_relative_path : bytes;
  sn_size : Z
}.

(** ** Tickets *)

Definition TransitionTicket_typed (t : TransitionTicket) : Prop :=
  length (tt_queue_id t) = 16%nat /\ length (tt_job_id t) = 16%nat /\
  is_u64 (tt_source_generation t) /\ is_u32 (tt_source_attempt t) /\
  is_u32 (tt_maximum_attempts t) /\ length (tt_lease_token t) = 16%nat /\
  length (tt_envelope_digest t) = 32%nat /\ is_u64 (tt_payload_length t).

(** The source and destination each ticketed operation connects. *)
Definition ticket_shape (op : TransitionOperation) (s : TicketSource) (d : TicketDestination) : Prop :=
  match op, s, d with
  | TClaim, SrcReady, DstLeased _ _ _
  | TRenew, SrcLeased _ _ _, DstLeased _ _ _
  | TAcknowledge, SrcLeased _ _ _, DstReceipt _
  | TRetryNow, SrcLeased _ _ _, DstReady
  | TRetryLater, SrcLeased _ _ _, DstDelayed _
  | TBury, SrcLeased _ _ _, DstDead _ _ => True
  | _, _, _ => False
  end.
Definition attempts_used (op : TransitionOperation) : Z := match op with TClaim => 1 | _ => 0 end.
Definition canonical_boot_id (o : option bytes) : Prop :=
  match o with None => True | Some s => exists b, boot_id_bytes s = Some b end.

Lemma check_boot_ids_iff l : check_boot_ids l = Ok tt <-> Forall canonical_boot_id l.
Proof.
  induction l as [|[s|] l IH]; cbn [check_boot_ids]; [by split; [constructor|]| |].
  - rewrite Forall_cons, <- IH. cbn [canonical_boot_id].
    destruct (boot_id_bytes s) as [b|]; [naive_solver|]. split; [done|]. naive_solver.
  - rewrite Forall_cons, <- IH. cbn [canonical_boot_id]. naive_solver.
Qed.

(** The generation and attempt rule of a row that increments the generation. *)
Lemma next_common_fields_ok op c c' :
  td_source (transition op) <> StHidden ->
  next_common_fields op c = Ok c' <->
  (cf_generation c + 1 <= u64_max)%Z /\
  (op = OpClaim -> (cf_attempt c + 1 <= u32_max)%Z) /\
  c' = mkCommon (cf_job_id c) (cf_generation c + 1)
         (if bool_decide (op = OpClaim) then cf_attempt c + 1 else cf_attempt c)
         (cf_maximum_attempts c).
Proof.
  intros Hs. unfold next_common_fields, u64_checked_add, u32_checked_add.
  destruct op; try done; cbn -[u64_max u32_max];
    case_decide; cbn -[u64_max u32_max]; try naive_solver.
  case_decide; cbn -[u64_max u32_max]; naive_solver.
Qed.

Lemma ticket_operation_source op : td_source (transition (protocol_operation op)) <> StHidden.
Proof. by destruct op. Qed.

Lemma ticket_claims op : protocol_operation op = OpClaim <-> op = TClaim.
Proof. by destruct op. Qed.

Lemma ticket_states_shape op s d :
  TicketSource_protocol_state s = td_source (transition (protocol_operation op)) /\
  TicketDestination_protocol_state d = td_destination (transition (protocol_operation op)) <->
  ticket_shape op s d.
Proof. destruct op, s, d; cbn; naive_solver. Qed.

Lemma destination_common_ok t c :
  destination_common t = Ok c <->
  next_common_fields (protocol_operation (tt_operation t)) (source_common t) = Ok c.
Proof. unfold destination_common. destruct (next_common_fields _ _) as [|[]]; cbn; naive_solver. Qed.

Lemma validate_iff t :
  TransitionTicket_typed t ->
  validate t = Ok tt <->
  (0 < tt_maximum_attempts t)%Z /\
  (tt_source_attempt t + attempts_used (tt_operation t) <= tt_maximum_attempts t)%Z /\
  (tt_source_generation t < u64_max)%Z /\
  ticket_shape (tt_operation t) (tt_source t) (tt_destination t) /\
  canonical_boot_id (source_boot_id t) /\ canonical_boot_id (destination_boot_id t).
Proof.
  intros (_ & _ & Hg & Ha & Hm & _). unfold is_u32, is_u64, u64_max in *.
  rewrite <- ticket_states_shape.
  assert (Hb : check_boot_ids [source_boot_id t; destination_boot_id t] = Ok tt <->
    canonical_boot_id (source_boot_id t) /\ canonical_boot_id (destination_boot_id t)).
  { rewrite check_boot_ids_iff, !Forall_cons. naive_solver. }
  assert (Hu : (tt_source_attempt t + attempts_used (tt_operation t) =
    cf_attempt (mkCommon (tt_job_id t) (tt_source_generation t + 1)
      (if bool_decide (protocol_operation (tt_operation t) = OpClaim)
       then tt_source_attempt t + 1 else tt_source_attempt t) (tt_maximum_attempts t)))%Z).
  { destruct (tt_operation t); cbn [cf_attempt attempts_used protocol_operation];
      first [rewrite bool_decide_true by done | rewrite bool_decide_false by done]; lia. }
  rewrite <- Hb. unfold validate. split.
  - intros H. rsteps H. breflect. apply destination_common_ok, next_common_fields_ok in E as (Hgen & Hatt & ->);
      [|apply ticket_operation_source]. cbn -[u64_max] in Hgen. unfold u64_max in Hgen.
    cbn [source_common cf_job_id cf_generation cf_attempt cf_maximum_attempts] in *.
    split; [lia|]. split; [rewrite Hu; done|]. split; [lia|]. done.
  - intros (Hpos & Hatt & Hgen & [Hs Hd] & Hbs).
    rewrite (proj2 (Z.eqb_neq _ _)) by lia.
    assert (0 <= attempts_used (tt_operation t) <= 1)%Z by (destruct (tt_operation t); cbn; lia).
    rewrite (proj2 (Z.ltb_ge _ _)) by lia.
    rewrite (proj2 (destination_common_ok t (mkCommon (tt_job_id t) (tt_source_generation t + 1)
      (if bool_decide (protocol_operation (tt_operation t) = OpClaim)
       then tt_source_attempt t + 1 else tt_source_attempt t) (tt_maximum_attempts t)))).
    + cbn [rbind]. cbv zeta. rewrite Hs, Hd, !bool_decide_true by done.
      rewrite (proj2 (Z.leb_le _ _)) by (rewrite <- Hu; done). done.
    + apply next_common_fields_ok; [apply ticket_operation_source|]. cbn -[u64_max u32_max].
      unfold u64_max, u32_max. split; [lia|]. split; [|done].
      intros Hc. apply ticket_claims in Hc. rewrite Hc in *. cbn in Hatt. lia.
Qed.

(** A ticket validates exactly when its operation connects its source to
    its destination, the attempt budget is positive and covers the attempt the
    operation consumes, the generation can still advance, and every boot id it
    carries is in canonical form. *)
Theorem ticket_valid_iff t :
  TransitionTicket_typed t ->
  validate t = Ok tt <->
  (0 < tt_maximum_attempts t)%Z /\
  (tt_source_attempt t + attempts_used (tt_operation t) <= tt_maximum_attempts t)%Z /\
  (tt_source_generation t < u64_max)%Z /\
  ticket_shape (tt_operation t) (tt_source t) (tt_destination t) /\
  canonical_boot_id (source_boot_id t) /\ canonical_boot_id (destination_boot_id t).
Proof. apply validate_iff. Qed.

Definition sample_ticket : TransitionTicket :=
  mkTransitionTicket (replicate 16 x11) TClaim Linearized (replicate 16 x22) 7 2 5
    (replicate 16 x33) (replicate 32 x44) 1000 SrcReady
    (DstLeased (lit "00112233-4455-6677-8899-aabbccddeeff") 12 34).

Lemma sample_ticket_typed : TransitionTicket_typed sample_ticket.
Proof. repeat split; cbn; lia. Qed.

Lemma ticket_valid_iff_witness :
  validate sample_ticket = Ok tt <->
  (0 < 5)%Z /\ (2 + 1 <= 5)%Z /\ (7 < u64_max)%Z /\ True /\
  canonical_boot_id None /\ canonical_boot_id (Some (lit "00112233-4455-6677-8899-aabbccddeeff")).
Proof. apply (ticket_valid_iff sample_ticket). exact sample_ticket_typed. Defined.

Lemma new_ok_iff q op ph id s d t :
  TransitionTicket_new q op ph id s d = Ok t <->
  t = mkTransitionTicket q op ph (ti_job_id id) (ti_generation id) (ti_attempt id)
        (ti_maximum_attempts id) (ti_lease_token id) (te_envelope_digest (ti_evidence id))
        (te_payload_length (ti_evidence id)) s d /\ validate t = Ok tt.
Proof.
  unfold TransitionTicket_new. cbv zeta. rewrite rbind_ok_iff. split.
  - intros ([] & Hv & [= <-]). done.
  - intros [-> Hv]. exists tt. done.
Qed.

Lemma hex_decode_encode n bs : length bs = n -> hex_decode_array n (hex_encode bs) = Some bs.
Proof. intros Hl. by apply hex_decode_array_Some. Qed.

(** Tickets survive their JSON form and nothing invalid enters through it:
    a valid ticket serializes to bytes that parse back to the same ticket, and
    whatever [from_json] returns has validated and carries identifiers of the
    right lengths, whose wire form is the one that was parsed. *)
Theorem ticket_json_round_trip `{SerdeJsonLaws} t :
  TransitionTicket_typed t -> validate t = Ok tt ->
  (exists b, to_json t = Ok b /\ from_json b = Ok t) /\
  (forall b t', from_json b = Ok t' ->
     validate t' = Ok tt /\ length (tt_queue_id t') = 16%nat /\ length (tt_job_id t') = 16%nat /\
     length (tt_lease_token t') = 16%nat /\ length (tt_envelope_digest t') = 32%nat /\
     from_slice b = Ok (ticket_wire t')).
Proof.
  intros (Hq & Hj & _ & _ & _ & Hl & He & _) Hv. split.
  - destruct (serde_round_trip (ticket_wire t)) as (b & Eb & Er). exists b.
    unfold to_json, from_json. rewrite Eb, Er. split; [done|]. cbn [map_err rbind ticket_wire
      tw_schema tw_version tw_queue_id tw_source_identity iw_job_id iw_lease_token iw_envelope_digest].
    rewrite bool_decide_true, Z.eqb_refl by done. cbn [negb]. cbv zeta.
    unfold hex_decode_16, hex_decode_32. rewrite !hex_decode_encode by done. cbn [ok_or rbind].
    apply new_ok_iff. split; [by destruct t|done].
  - intros b t' Hf. unfold from_json in Hf. cbv zeta in Hf. rsteps Hf. breflect.
    apply map_err_ok_inv in E.
    apply ok_or_ok_inv, hex_decode_array_Some in E0 as [E0 L0].
    apply ok_or_ok_inv, hex_decode_array_Some in E1 as [E1 L1].
    apply ok_or_ok_inv, hex_decode_array_Some in E2 as [E2 L2].
    apply ok_or_ok_inv, hex_decode_array_Some in E3 as [E3 L3].
    apply new_ok_iff in Hf as [-> Hv']. split; [done|].
    cbn [tt_queue_id tt_job_id tt_lease_token tt_envelope_digest ti_job_id ti_lease_token
      te_envelope_digest ti_evidence]. split; [done|]. split; [done|]. split; [done|]. split; [done|].
    rewrite E. unfold ticket_wire. f_equal. destruct t0 as [? ? ? ? ? [] ? ?]. cbn in *.
    by subst.
Qed.

(** *** A concrete serializer

    Any injective serializer satisfies the laws; this one writes the bits of
    the wire record's code number, one byte per bit. *)
#[global] Instance TransitionOperation_eq_dec : EqDecision TransitionOperation.
Proof. solve_decision. Defined.
#[global] Instance TransitionPhase_eq_dec : EqDecision TransitionPhase.
Proof. solve_decision. Defined.
#[global] Instance TicketSource_eq_dec : EqDecision TicketSource.
Proof. solve_decision. Defined.
#[global] Instance TicketDestination_eq_dec : EqDecision TicketDestination.
Proof. solve_decision. Defined.
#[global] Instance TicketIdentityWire_eq_dec : EqDecision TicketIdentityWire.
Proof. solve_decision. Defined.
#[global] Instance TransitionTicketWire_eq_dec : EqDecision TransitionTicketWire.
Proof. solve_decision. Defined.

#[global] Instance TransitionOperation_countable : Countable TransitionOperation.
Proof.
  refine (inj_countable'
    (fun op => match op with TClaim => 0%nat | TRenew => 1%nat | TAcknowledge => 2%nat
      | TRetryNow => 3%nat | TRetryLater => 4%nat | TBury => 5%nat end)
    (fun n => match n with 0%nat => TClaim | 1%nat => TRenew | 2%nat => TAcknowledge
      | 3%nat => TRetryNow | 4%nat => TRetryLater | _ => TBury end) _); by intros [].
Defined.
#[global] Instance TransitionPhase_countable : Countable TransitionPhase.
Proof.
  refine (inj_countable'
    (fun p => match p with Linearized => 0%nat | DestinationDirectoryDurable => 1%nat
      | SourceDirectoryDurable => 2%nat end)
    (fun n => match n with 0%nat => Linearized | 1%nat => DestinationDirectoryDurable
      | _ => SourceDirectoryDurable end) _); by intros [].
Defined.
#[global] Instance TicketSource_countable : Countable TicketSource.
Proof.
  refine (inj_countable'
    (fun s => match s with SrcReady => None | SrcLeased b x y => Some (b, x, y) end)
    (fun o => match o with None => SrcReady | Some (b, x, y) => SrcLeased b x y end) _); by intros [].
Defined.
#[global] Instance TicketDestination_countable : Countable TicketDestination.
Proof.
  refine (inj_countable'
    (fun d => match d with
      | DstReady => inl (inl None) | DstLeased b x y => inl (inl (Some (b, x, y)))
      | DstDelayed n => inl (inr n) | DstReceipt n => inr (inl n) | DstDead n r => inr (inr (n, r)) end)
    (fun o : (option (bytes * Z * Z) + Z) + (Z + Z * Z) => match o with
      | inl (inl None) => DstReady | inl (inl (Some (b, x, y))) => DstLeased b x y
      | inl (inr n) => DstDelayed n | inr (inl n) => DstReceipt n | inr (inr (n, r)) => DstDead n r end) _); by intros [].
Defined.
#[global] Instance TicketIdentityWire_countable : Countable TicketIdentityWire.
Proof.
  refine (inj_countable'
    (fun w => (iw_job_id w, iw_generation w, iw_attempt w, iw_maximum_attempts w, iw_lease_token w,
      iw_envelope_digest w, iw_payload_length w))
    (fun '(a, b, c, d, e, f, g) => mkTicketIdentityWire a b c d e f g) _); by intros [].
Defined.
#[global] Instance TransitionTicketWire_countable : Countable TransitionTicketWire.
Proof.
  refine (inj_countable'
    (fun w => ((tw_schema w, tw_version w, tw_queue_id w, tw_operation w),
      (tw_phase w, tw_source_identity w, tw_source w, tw_destination_derivation w)))
    (fun '((a, b, c, d), (e, f, g, h)) => mkTransitionTicketWire a b c d e f g h) _); by intros [].
Defined.

Fixpoint bits_of (p : positive) : bytes :=
  match p with xH => [] | xO p' => x00 :: bits_of p' | xI p' => x01 :: bits_of p' end.
Fixpoint of_bits (l : bytes) : positive :=
  match l with [] => xH | b :: l' => if bool_decide (b = x00) then xO (of_bits l') else xI (of_bits l') end.

Lemma of_bits_of p : of_bits (bits_of p) = p.
Proof. induction p as [p IH|p IH|]; cbn; [..|done]; by rewrite IH. Qed.

Definition code_serde : SerdeJson := {|
  from_slice b := ok_or (decode (of_bits b)) "not a code";
  to_vec_pretty w := Ok (bits_of (encode w))
|}.

Lemma code_serde_laws : @SerdeJsonLaws code_serde.
Proof.
  intros w. exists (bits_of (encode w)). split; [done|]. cbn. by rewrite of_bits_of, decode_encode.
Qed.

Lemma ticket_json_round_trip_witness :
  exists b, @to_json code_serde sample_ticket = Ok b /\ @from_json code_serde b = Ok sample_ticket.
Proof.
  apply (@ticket_json_round_trip code_serde code_serde_laws sample_ticket); [exact sample_ticket_typed|].
  vm_compute. reflexivity.
Defined.

(** Dead and quarantine reason codes are exact: a code decodes to a
    reason precisely when it is that reason's code. *)
Theorem reason_codes_exact v d q :
  (DeadReason_from_u16 v = Some d <-> v = DeadReason_as_u16 d) /\
  (QuarantineReason_from_u16 v = Some q <-> v = QuarantineReason_as_u16 q).
Proof.
  unfold DeadReason_from_u16, QuarantineReason_from_u16. split.
  - repeat (case_match; breflect; [subst; split; [by intros [= <-]|by destruct d]|]).
    split; [done|]. intros ->. by destruct d.
  - repeat (case_match; breflect; [subst; split; [by intros [= <-]|by destruct q]|]).
    split; [done|]. intros ->. by destruct q.
Qed.

(** ** The life of a job

    A job as its file name shows it: protocol state, common fields and, while
    leased or acknowledged, the lease token.  A step applies one row of the
    transition table through [next_common_fields]; [Quarantine] moves raw
    objects whose fields cannot be trusted and has no step here. *)

Record JobView : Type := mkJobView {
  jv_state : ProtocolState;
  jv_common : CommonFields;
  jv_token : option bytes
}.

Definition next_token (change : TokenChange) (fresh : bytes) (token : option bytes) : option bytes :=
  match change with
  | TokNone => None
  | TokNew => Some fresh
  | TokSame => token
  end.

Inductive job_step (op : ProtocolOperation) (j : JobView) : JobView -> Prop :=
| job_step_intro fresh c :
    jv_state j = td_source (transition op) ->
    next_common_fields op (jv_common j) = Ok c ->
    (cf_attempt c <= cf_maximum_attempts c)%Z ->
    job_step op j (mkJobView (td_destination (transition op)) c
      (next_token (td_token_change (transition op)) fresh (jv_token j))).

(** Runs of steps, the most recent operation first. *)
Inductive job_run (j0 : JobView) : list ProtocolOperation -> JobView -> Prop :=
| job_run_nil : job_run j0 [] j0
| job_run_step ops op j j' : job_run j0 ops j -> job_step op j j' -> job_run j0 (op :: ops) j'.

Definition claims (ops : list ProtocolOperation) : Z :=
  Z.of_nat (length (filter (fun op => op = OpClaim) ops)).

(** A job before its publication. *)
Definition hidden_job (c : CommonFields) : JobView := mkJobView StHidden c None.

Definition job_inv (c0 : CommonFields) (ops : list ProtocolOperation) (j : JobView) : Prop :=
  match ops with
  | [] => j = hidden_job c0
  | _ =>
      jv_state j <> StHidden /\ jv_state j <> StActive /\
      cf_job_id (jv_common j) = cf_job_id c0 /\
      cf_maximum_attempts (jv_common j) = cf_maximum_attempts c0 /\
      cf_generation (jv_common j) = (Z.of_nat (length ops) - 1)%Z /\
      cf_attempt (jv_common j) = claims ops /\
      (cf_attempt (jv_common j) <= cf_generation (jv_common j))%Z /\
      (cf_attempt (jv_common j) <= cf_maximum_attempts c0)%Z /\
      (jv_token j <> None <-> jv_state j = StLeased \/ jv_state j = StReceipt)
  end.

Lemma claims_cons op ops :
  claims (op :: ops) = ((if bool_decide (op = OpClaim) then 1 else 0) + claims ops)%Z.
Proof.
  unfold claims. rewrite filter_cons. case_decide; [rewrite bool_decide_true by done|rewrite bool_decide_false by done].
  - cbn [length]. lia.
  - lia.
Qed.

Lemma publish_fields op c c' :
  td_source (transition op) = StHidden -> next_common_fields op c = Ok c' ->
  c' = mkCommon (cf_job_id c) 0 0 (cf_maximum_attempts c).
Proof. destruct op; try done; intros _ [= <-]; done. Qed.

Lemma job_inv_step c0 ops op j j' : job_inv c0 ops j -> job_step op j j' -> job_inv c0 (op :: ops) j'.
Proof.
  intros Hinv Hstep. destruct Hstep as [fresh c Hsrc Hnext Hmax].
  cbn [job_inv jv_state jv_common jv_token].
  assert (Hd : td_destination (transition op) <> StHidden /\ td_destination (transition op) <> StActive)
    by (destruct op; done).
  destruct Hd as [Hd1 Hd2]. split; [done|]. split; [done|].
  destruct ops as [|op0 ops].
  - cbn in Hinv. subst j. cbn in Hsrc, Hnext.
    rewrite (publish_fields op c0 c) in * by done. cbn -[claims next_token] in *.
    destruct op; try done; cbn; (split; [done|]); (split; [done|]); (split; [done|]); (split; [done|]);
      (split; [lia|]); (split; [lia|]); naive_solver.
  - destruct Hinv as (Hs1 & Hs2 & Hj & Hm & Hg & Ha & Hle & Hb & Htok).
    apply next_common_fields_ok in Hnext as (_ & _ & ->); [|congruence].
    cbn -[claims next_token length] in *.
    rewrite claims_cons. split; [done|]. split; [done|]. split; [cbn [length] in *; lia|].
    split; [case_bool_decide; lia|]. split; [case_bool_decide; lia|].
    split; [by rewrite <- Hm|].
    destruct op; try done; cbn; try (rewrite Htok, Hsrc; cbn); naive_solver.
Qed.

Lemma job_run_inv c0 ops j : job_run (hidden_job c0) ops j -> job_inv c0 ops j.
Proof. induction 1 as [|ops op j j' Hrun IH Hstep]; [done|]. by eapply job_inv_step. Qed.


Definition ticket_sample_common : CommonFields := mkCommon (replicate 16 x22) 0 0 3.
Definition sample_run_end : JobView :=
  mkJobView StReceipt (mkCommon (replicate 16 x22) 4 2 3) (Some (replicate 16 x07)).

Lemma job_step_to op j fresh c j' :
  jv_state j = td_source (transition op) -> next_common_fields op (jv_common j) = Ok c ->
  (cf_attempt c <= cf_maximum_attempts c)%Z ->
  j' = mkJobView (td_destination (transition op)) c
         (next_token (td_token_change (transition op)) fresh (jv_token j)) ->
  job_step op j j'.
Proof. intros ? ? ? ->. by econstructor. Qed.

Lemma sample_run :
  job_run (hidden_job ticket_sample_common) [OpAcknowledge; OpClaim; OpReapExpiredToReady; OpClaim; OpEnqueueImmediate]
    sample_run_end.
Proof.
  eapply job_run_step; [eapply job_run_step; [eapply job_run_step; [eapply job_run_step;
    [eapply job_run_step; [constructor|]|]|]|]|].
  1-3: eapply (job_step_intro _ _ (replicate 16 x05)); [reflexivity..|vm_compute; discriminate].
  - eapply (job_step_intro _ _ (replicate 16 x07)); [reflexivity..|vm_compute; discriminate].
  - eapply (job_step_to OpAcknowledge _ []); [reflexivity..|vm_compute; discriminate|].
    vm_compute. reflexivity.
Qed.


Lemma job_run_app j0 ops1 j1 ops2 j2 :
  job_run j0 ops1 j1 -> job_run j1 ops2 j2 -> job_run j0 (ops2 ++ ops1) j2.
Proof. intros H1 H2. induction H2 as [|ops op j j' _ IH Hs]; [done|]. by eapply job_run_step. Qed.

(** A published job's names never repeat and terminal states are final:
    every further transition strictly increases the generation, and a dead,
    acknowledged or quarantined job takes no step at all. *)
Theorem job_generation_fresh c0 ops j more j' :
  job_run (hidden_job c0) ops j -> ops <> [] -> job_run j more j' -> more <> [] ->
  (cf_generation (jv_common j) < cf_generation (jv_common j'))%Z /\ terminal (jv_state j) = false.
Proof.
  intros H1 Hne H2 Hmore. split.
  - pose proof (job_run_app _ _ _ _ _ H1 H2) as H. apply job_run_inv in H, H1.
    destruct ops as [|op ops]; [done|]. destruct H1 as (_ & _ & _ & _ & -> & _).
    destruct more as [|op' more]; [done|]. cbn [app job_inv] in H. destruct H as (_ & _ & _ & _ & -> & _).
    cbn [length]. rewrite length_app. cbn [length]. lia.
  - clear H1 Hne. induction H2 as [|ops' op j1 j2 Hrun IH Hstep]; [done|].
    destruct ops' as [|op' ops']; [|by apply IH].
    inversion Hrun; subst. destruct Hstep as [fresh c Hsrc _ _]. rewrite Hsrc. by destruct op.
Qed.

Lemma job_generation_fresh_witness :
  exists j, job_run (hidden_job ticket_sample_common) [OpEnqueueImmediate] j /\
    (cf_generation (jv_common j) < 1)%Z /\ terminal (jv_state j) = false.
Proof.
  exists (mkJobView StReady (mkCommon (replicate 16 x22) 0 0 3) None).
  assert (H : job_run (hidden_job ticket_sample_common) [OpEnqueueImmediate]
    (mkJobView StReady (mkCommon (replicate 16 x22) 0 0 3) None)).
  { eapply job_run_step; [constructor|].
    eapply (job_step_intro OpEnqueueImmediate _ []); [reflexivity..|vm_compute; discriminate]. }
  split; [exact H|].
  eapply (job_generation_fresh ticket_sample_common [OpEnqueueImmediate] _ [OpClaim]
    (mkJobView StLeased (mkCommon (replicate 16 x22) 1 1 3) (Some (replicate 16 x05))) H); [done| |done].
  eapply job_run_step; [constructor|].
  eapply (job_step_intro OpClaim _ (replicate 16 x05)); [reflexivity..|vm_compute; discriminate].
Defined.
