(* ===== verification/Layout.v ===== *)
(** * Physical locations of queue objects

    Models [crates/steadq-core/src/queue/layout.rs]: the typed locations, the
    targets the queue writes to (directory plus filename) and the parser of
    leased paths.  A leased object lives in the ready shard directory of its
    job; its name and tag carry the boot and the lease bucket. *)
From stdpp Require Import base numbers list option strings.
From Stdlib Require Import Strings.Byte ZArith.
From S2P Require Import Prelude Math Names FsLinux StateMachine Ticket.
Open Scope string_scope.
Open Scope list_scope.

(** ** Locations and targets *)

Inductive Location : Type :=
| LocReady (shard : Z)
| LocLeased (boot_id : bytes) (bucket shard : Z)
| LocDelayed (bucket shard : Z)
| LocReceipt (bucket shard : Z)
| LocDead (bucket shard : Z).

Record Target : Type := mkTarget { location : Location; filename : bytes }.

Definition directory (t : Target) : bytes :=
  match location t with
  | LocReady shard => lit "ready/" ++ shard_hex shard
  | LocLeased _ _ shard => lit "ready/" ++ shard_hex shard
  | LocDelayed bucket shard => lit "delayed/" ++ bucket_hex bucket ++ lit "/" ++ shard_hex shard
  | LocReceipt bucket shard => lit "receipts/" ++ bucket_hex bucket ++ lit "/" ++ shard_hex shard
  | LocDead bucket shard => lit "dead/" ++ bucket_hex bucket ++ lit "/" ++ shard_hex shard
  end.

Definition relative_path (t : Target) : bytes := directory t ++ lit "/" ++ filename t.

Definition Target_shard (t : Target) : Z :=
  match location t with
  | LocReady shard | LocLeased _ _ shard | LocDelayed _ shard | LocReceipt _ shard
  | LocDead _ shard => shard
  end.

Definition Target_state (t : Target) : State :=
  match location t with
  | LocReady _ => Ready
  | LocLeased _ _ _ => Leased
  | LocDelayed _ _ => Delayed
  | LocReceipt _ _ => Receipt
  | LocDead _ _ => Dead
  end.

(** ** The layout of a queue *)

Record Layout : Type := mkLayout {
  ly_queue_id : bytes;
  ly_shard_count : Z;
  ly_lease_bucket_width_ns : Z;
  ly_delayed_bucket_width_ns : Z;
  ly_terminal_bucket_width_ns : Z;
  ly_boot_id : bytes
}.

Definition ready_shard_dir (shard : Z) : bytes := lit "ready/" ++ shard_hex shard.
Definition leased_shard_dir (boot_id : bytes) (bucket shard : Z) : bytes :=
  lit "leased/" ++ boot_id ++ lit "/" ++ bucket_hex bucket ++ lit "/" ++ shard_hex shard.
Definition delayed_shard_dir (bucket shard : Z) : bytes :=
  lit "delayed/" ++ bucket_hex bucket ++ lit "/" ++ shard_hex shard.
Definition dead_shard_dir (bucket shard : Z) : bytes :=
  lit "dead/" ++ bucket_hex bucket ++ lit "/" ++ shard_hex shard.
Definition receipt_shard_dir (bucket shard : Z) : bytes :=
  lit "receipts/" ++ bucket_hex bucket ++ lit "/" ++ shard_hex shard.

Section Targets.
Context `{Sha256} (L : Layout).

Definition shard_for (job_id : bytes) : Z := compute_shard (ly_queue_id L) job_id (ly_shard_count L).

Definition Layout_ready (common : CommonFields) : Target :=
  let shard := shard_for (cf_job_id common) in
  mkTarget (LocReady shard) (make_ready_name (ly_queue_id L) (shard_hex shard) common).

Definition Layout_delayed (common : CommonFields) (not_before_ns : Z) : result Target Error :=
  let? (bucket, _) :=
    ok_or (eligibility_bucket_and_ns not_before_ns (ly_delayed_bucket_width_ns L))
      (InvalidInput "eligibility overflow") in
  let shard := shard_for (cf_job_id common) in
  Ok (mkTarget (LocDelayed bucket shard)
        (make_delayed_name (ly_queue_id L) (bucket_hex bucket) (shard_hex shard) common not_before_ns)).

Definition Layout_leased_for_boot (common : CommonFields) (boot_id : bytes)
    (boottime_deadline_ns wall_deadline_ns : Z) (token : bytes) : result Target Error :=
  let? bucket :=
    ok_or (lease_bucket boottime_deadline_ns (ly_lease_bucket_width_ns L)) StateExhausted in
  let shard := shard_for (cf_job_id common) in
  let? filename :=
    ok_or (make_leased_name (ly_queue_id L) boot_id (bucket_hex bucket) (shard_hex shard) common
             boottime_deadline_ns wall_deadline_ns token)
      (InvalidTicket "boot id is not canonical") in
  Ok (mkTarget (LocLeased boot_id bucket shard) filename).

Definition Layout_leased (common : CommonFields) (boottime_deadline_ns wall_deadline_ns : Z)
    (token : bytes) : result Target Error :=
  Layout_leased_for_boot common (ly_boot_id L) boottime_deadline_ns wall_deadline_ns token.

Definition Layout_receipt_in_bucket (common : CommonFields) (token : bytes) (bucket : Z) : Target :=
  let shard := shard_for (cf_job_id common) in
  mkTarget (LocReceipt bucket shard)
    (make_receipt_name (ly_queue_id L) (bucket_hex bucket) (shard_hex shard) common token).
Definition Layout_receipt (common : CommonFields) (token : bytes) (wall_ns : Z) : result Target Error :=
  let? bucket := ok_or (bucket_number wall_ns (ly_terminal_bucket_width_ns L)) StateExhausted in
  Ok (Layout_receipt_in_bucket common token bucket).

Definition Layout_dead_in_bucket (common : CommonFields) (reason bucket : Z) : Target :=
  let shard := shard_for (cf_job_id common) in
  mkTarget (LocDead bucket shard)
    (make_dead_name (ly_queue_id L) (bucket_hex bucket) (shard_hex shard) common reason).
Definition Layout_dead (common : CommonFields) (reason wall_ns : Z) : result Target Error :=
  let? bucket := ok_or (bucket_number wall_ns (ly_terminal_bucket_width_ns L)) StateExhausted in
  Ok (Layout_dead_in_bucket common reason bucket).

Definition is_valid_leased_path_parts (len : nat) (first : bytes) : bool :=
  (len =? 5)%nat && bool_decide (first = lit "leased").
Definition is_shard_in_range (shard count : Z) : bool := (shard <? count)%Z.

Definition parse_leased_path (relative : bytes) : result (Location * bytes) Error :=
  let parts := split_slash relative in
  if (length parts =? 3)%nat && bool_decide (parts !!! 0%nat = lit "ready") then
    let? shard := ok_or (shard_from_hex (parts !!! 1%nat)) (QueueCorrupt "invalid shard hex") in
    if negb (is_shard_in_range shard (ly_shard_count L))
    then Err (QueueCorrupt "shard out of range")
    else
      let filename := parts !!! 2%nat in
      let? parsed := map_err (fun _ => QueueCorrupt "invalid leased path") (parse_leased filename) in
      let? bucket :=
        ok_or (lease_bucket (ln_boottime_deadline_ns parsed) (ly_lease_bucket_width_ns L))
          (QueueCorrupt "invalid lease bucket") in
      Ok (LocLeased (format_boot_id (ln_boot_id parsed)) bucket shard, filename)
  else if negb (is_valid_leased_path_parts (length parts) (parts !!! 0%nat))
  then Err (QueueCorrupt "invalid leased path")
  else
    let boot_id := parts !!! 1%nat in
    if bool_decide (boot_id_bytes boot_id = None) then Err (QueueCorrupt "invalid boot id")
    else
      let? bucket := ok_or (bucket_from_hex (parts !!! 2%nat)) (QueueCorrupt "invalid bucket hex") in
      let? shard := ok_or (shard_from_hex (parts !!! 3%nat)) (QueueCorrupt "invalid shard hex") in
      if negb (is_shard_in_range shard (ly_shard_count L))
      then Err (QueueCorrupt "shard out of range")
      else Ok (LocLeased boot_id bucket shard, parts !!! 4%nat).

End Targets.

(** ** Safety of the path components *)

Definition file_char (b : byte) : Prop := is_ascii_graphic b = true /\ b <> "/"%byte.

Lemma hex_digit_file n : (0 <= n < 16)%Z -> file_char (hex_digit n).
Proof. revert n. apply nibble_ind. repeat (constructor; [by vm_compute|]). constructor. Qed.

Lemma hex_encode_file bs : Forall file_char (hex_encode bs).
Proof.
  induction bs as [|b bs IH]; [constructor|]. rewrite hex_encode_cons. destruct (b2z_nibbles b).
  unfold hex_byte. repeat (constructor; [by apply hex_digit_file|]). done.
Qed.

Lemma fmt_hex_file n v :
  (1 <= n <= 8)%nat -> (0 <= v < 256 ^ Z.of_nat n)%Z -> Forall file_char (fmt_hex (2 * n) v).
Proof. intros. rewrite fmt_hex_to_be by done. apply hex_encode_file. Qed.

Lemma fmt_hex_file_16 v : is_u64 v -> Forall file_char (fmt_hex 16 v).
Proof. intros. apply (fmt_hex_file 8); [lia|done]. Qed.
Lemma fmt_hex_file_8 v : is_u32 v -> Forall file_char (fmt_hex 8 v).
Proof. intros. apply (fmt_hex_file 4); [lia|done]. Qed.
Lemma fmt_hex_file_4 v : is_u16 v -> Forall file_char (fmt_hex 4 v).
Proof. intros. apply (fmt_hex_file 2); [lia|done]. Qed.

Create HintDb file_chars.
#[export] Hint Resolve hex_encode_file fmt_hex_file_16 fmt_hex_file_8 fmt_hex_file_4 : file_chars.

Lemma lit_file s : forallb (fun b => is_ascii_graphic b && negb (bool_decide (b = "/"%byte))) (lit s) = true ->
  Forall file_char (lit s).
Proof.
  rewrite forallb_forall, Forall_forall. intros Hf b Hb. apply list_elem_of_In in Hb.
  specialize (Hf b Hb). breflect. by split.
Qed.
#[export] Hint Extern 1 (Forall file_char (lit _)) => (apply lit_file; reflexivity) : file_chars.
Ltac file_chars :=
  repeat match goal with
    | |- Forall _ (_ ++ _) => apply Forall_app; split
    | |- Forall _ (_ :: _) => apply Forall_cons; split; [by vm_compute|]
    end; auto with file_chars.

Lemma base_name_file c : CommonFields_wf c -> Forall file_char (base_name c).
Proof. intros (? & ? & ? & ?). unfold base_name. rewrite ?push_hex_app. file_chars. Qed.
#[export] Hint Resolve base_name_file : file_chars.

Lemma tagged_file base tag ext :
  Forall file_char base -> Forall file_char ext -> Forall file_char (tagged_filename base tag ext).
Proof. intros. unfold tagged_filename. rewrite ?push_hex_app. file_chars. Qed.

(** A name of at least three bytes made of file characters is a safe component. *)
Lemma safe_file s n :
  Forall file_char s -> length s = n -> (3 <= n <= 255)%nat -> safe_component s.
Proof.
  intros Hf Hl Hn. split; [by intros ->; cbn in Hl; lia|].
  split; [by intros ->; cbn in Hl; lia|]. split; [by intros ->; cbn in Hl; lia|].
  split; [done|]. unfold MAX_COMPONENT_BYTES. lia.
Qed.

Lemma shard_hex_safe s : is_u16 s -> safe_component (shard_hex s).
Proof.
  intros Hs. apply (safe_file _ 4); [by auto with file_chars| |lia].
  by apply (length_fmt_hex 2); [lia|].
Qed.
Lemma bucket_hex_safe b : is_u64 b -> safe_component (bucket_hex b).
Proof.
  intros Hs. apply (safe_file _ 16); [by auto with file_chars| |lia].
  by apply (length_fmt_hex 8); [lia|].
Qed.

(** Every name a job-name parser accepts is a safe component. *)
Lemma ready_name_safe s n : parse_ready s = Ok n -> safe_component s.
Proof.
  intros [(Hc & Ht) ->]%parse_ready_iff. eapply safe_file; [apply tagged_file; file_chars| |].
  - by apply (name_lengths _ 0 0 (replicate 16 x00) 0 0 (replicate 16 x00)).
  - lia.
Qed.
Lemma delayed_name_safe s n : parse_delayed s = Ok n -> safe_component s.
Proof.
  intros [(Hc & Hn & Ht) ->]%parse_delayed_iff. eapply safe_file; [apply tagged_file; file_chars| |].
  - by apply (name_lengths _ _ 0 (replicate 16 x00) 0 0 (replicate 16 x00)).
  - lia.
Qed.
Lemma dead_name_safe s n : parse_dead s = Ok n -> safe_component s.
Proof.
  intros [(Hc & Hr & Ht) ->]%parse_dead_iff. eapply safe_file; [apply tagged_file; file_chars| |].
  - by apply (name_lengths _ 0 _ (replicate 16 x00) 0 0 (replicate 16 x00)).
  - lia.
Qed.
Lemma receipt_name_safe s n : parse_receipt s = Ok n -> safe_component s.
Proof.
  intros [(Hc & Hk & Ht) ->]%parse_receipt_iff. eapply safe_file.
  - apply tagged_file; rewrite ?push_hex_app; file_chars.
  - by apply (name_lengths _ 0 0 (replicate 16 x00) 0 0 _).
  - lia.
Qed.
Lemma leased_name_safe s n : parse_leased s = Ok n -> safe_component s /\ length s = 196%nat.
Proof.
  intros [(Hc & Ho & Hb & Hw & Hk & Ht) ->]%parse_leased_iff.
  assert (Hl : length (leased_filename (ln_common n) (ln_boot_id n) (ln_boottime_deadline_ns n)
    (ln_wall_deadline_ns n) (ln_token n) (ln_tag n)) = 196%nat) by (by apply (name_lengths _ 0 0)).
  split; [|done]. eapply safe_file; [|exact Hl|lia].
  apply tagged_file; rewrite ?push_hex_app; file_chars.
Qed.

Section Sound.
Context `{Sha256Spec}.

(** What a layout taken from a valid FORMAT record satisfies. *)
Definition Layout_wf (L : Layout) : Prop :=
  (exists k, (0 <= k <= 12)%Z /\ ly_shard_count L = (2 ^ k)%Z) /\
  (0 < ly_lease_bucket_width_ns L)%Z /\ (0 < ly_delayed_bucket_width_ns L)%Z /\
  (0 < ly_terminal_bucket_width_ns L)%Z.

(** The targets the queue builds, with the identity they carry. *)
Inductive built (L : Layout) : Target -> CommonFields -> Prop :=
| built_ready c : CommonFields_wf c -> built L (Layout_ready L c) c
| built_delayed c nb t :
    CommonFields_wf c -> is_u64 nb -> Layout_delayed L c nb = Ok t -> built L t c
| built_leased c boot bdl wdl tok t :
    CommonFields_wf c -> is_u64 bdl -> is_u64 wdl -> length tok = 16%nat ->
    Layout_leased_for_boot L c boot bdl wdl tok = Ok t -> built L t c
| built_receipt c tok b :
    CommonFields_wf c -> length tok = 16%nat -> is_u64 b ->
    built L (Layout_receipt_in_bucket L c tok b) c
| built_dead c reason b :
    CommonFields_wf c -> is_u16 reason -> is_u64 b -> built L (Layout_dead_in_bucket L c reason b) c.

Definition location_components (l : Location) : list bytes :=
  match l with
  | LocReady sh | LocLeased _ _ sh => [lit "ready"; shard_hex sh]
  | LocDelayed b sh => [lit "delayed"; bucket_hex b; shard_hex sh]
  | LocReceipt b sh => [lit "receipts"; bucket_hex b; shard_hex sh]
  | LocDead b sh => [lit "dead"; bucket_hex b; shard_hex sh]
  end.

(** The filename parses under the location's kind, carries the identity, and
    its tag authenticates there. *)
Definition authentic (L : Layout) (t : Target) (c : CommonFields) : Prop :=
  let q := ly_queue_id L in
  match location t with
  | LocReady sh =>
      exists n, parse_ready (filename t) = Ok n /\ rn_common n = c /\
        ReadyName_authenticate_tag n q (shard_hex sh) = true
  | LocLeased boot b sh =>
      exists n, parse_leased (filename t) = Ok n /\ ln_common n = c /\
        boot_id_bytes boot = Some (ln_boot_id n) /\
        lease_bucket (ln_boottime_deadline_ns n) (ly_lease_bucket_width_ns L) = Some b /\
        LeasedName_authenticate_tag n q boot (bucket_hex b) (shard_hex sh) = true
  | LocDelayed b sh =>
      exists n, parse_delayed (filename t) = Ok n /\ dn_common n = c /\
        (dn_not_before_ns n <= b * ly_delayed_bucket_width_ns L
           < dn_not_before_ns n + ly_delayed_bucket_width_ns L)%Z /\
        DelayedName_authenticate_tag n q (bucket_hex b) (shard_hex sh) = true
  | LocReceipt b sh =>
      exists n, parse_receipt (filename t) = Ok n /\ tn_common n = c /\
        ReceiptName_authenticate_tag n q (bucket_hex b) (shard_hex sh) = true
  | LocDead b sh =>
      exists n, parse_dead (filename t) = Ok n /\ xn_common n = c /\
        DeadName_authenticate_tag n q (bucket_hex b) (shard_hex sh) = true
  end.

Lemma shard_for_range L j :
  Layout_wf L -> (0 <= shard_for L j < ly_shard_count L)%Z /\ is_u16 (shard_for L j).
Proof.
  intros ((k & Hk & E) & _). unfold shard_for. rewrite E.
  pose proof (compute_shard_range (ly_queue_id L) j k ltac:(lia)).
  assert (2 ^ k <= 2 ^ 12)%Z by (apply Z.pow_le_mono_r; lia). unfold is_u16. lia.
Qed.

Lemma bucket_number_u64 t w b : is_u64 t -> bucket_number t w = Some b -> (0 < w)%Z -> is_u64 b.
Proof.
  unfold bucket_number, is_u64. intros Ht Hb Hw. destruct (w =? 0)%Z; [done|]. injection Hb as <-.
  split; [apply Z.div_pos; lia|]. apply Z.div_lt_upper_bound; nia.
Qed.

Lemma eligibility_bounds nb w b ns :
  is_u64 nb -> (0 < w)%Z -> eligibility_bucket_and_ns nb w = Some (b, ns) ->
  (nb <= b * w < nb + w)%Z /\ is_u64 b.
Proof.
  intros Hn Hw. unfold eligibility_bucket_and_ns. rewrite bind_Some. intros (b' & Hb & Hm).
  apply bind_Some in Hm as (m & Hm & [= -> ->]). apply ceiling_bucket_Some in Hb; [|done..].
  apply checked_mul_u64_Some in Hm as [-> Hm]. split; [done|]. unfold is_u64, u64_max in *. nia.
Qed.

Lemma Layout_delayed_ok L c nb t :
  Layout_delayed L c nb = Ok t ->
  exists b ns, eligibility_bucket_and_ns nb (ly_delayed_bucket_width_ns L) = Some (b, ns) /\
    t = mkTarget (LocDelayed b (shard_for L (cf_job_id c)))
          (make_delayed_name (ly_queue_id L) (bucket_hex b) (shard_hex (shard_for L (cf_job_id c))) c nb).
Proof.
  unfold Layout_delayed. destruct (eligibility_bucket_and_ns _ _) as [[b ns]|]; [|done].
  intros [= <-]. by exists b, ns.
Qed.

Lemma Layout_leased_ok L c boot bdl wdl tok t :
  Layout_leased_for_boot L c boot bdl wdl tok = Ok t ->
  exists b fn boot_bytes, lease_bucket bdl (ly_lease_bucket_width_ns L) = Some b /\
    boot_id_bytes boot = Some boot_bytes /\
    make_leased_name (ly_queue_id L) boot (bucket_hex b) (shard_hex (shard_for L (cf_job_id c))) c bdl wdl tok
      = Some fn /\
    t = mkTarget (LocLeased boot b (shard_for L (cf_job_id c))) fn.
Proof.
  unfold Layout_leased_for_boot. destruct (lease_bucket _ _) as [b|]; [|done]. cbn [ok_or rbind].
  destruct (make_leased_name _ _ _ _ _ _ _ _) as [fn|] eqn:E; [|done]. intros [= <-].
  destruct (boot_id_bytes boot) as [bb|] eqn:Eb; [by exists b, fn, bb|].
  unfold make_leased_name in E. by rewrite Eb in E.
Qed.

(** Everything a built target promises about its name. *)
Lemma built_authentic L t c : Layout_wf L -> built L t c -> authentic L t c.
Proof.
  intros (_ & Hlw & Hdw & _) [c0 Hc|c0 nb t0 Hc Hnb E|c0 boot bdl wdl tok t0 Hc Hb Hw Ht E|c0 tok b Hc Ht Hb
    |c0 reason b Hc Hr Hb]; unfold authentic.
  - by apply make_ready_ok.
  - apply Layout_delayed_ok in E as (b & ns & Hel & ->). cbn [location filename].
    apply eligibility_bounds in Hel as [Hbnd _]; [|done..].
    destruct (make_delayed_ok (ly_queue_id L) (bucket_hex b) (shard_hex (shard_for L (cf_job_id c0))) c0 nb)
      as (n & H1 & H2 & H3 & H4); [done..|]. exists n. by rewrite H3.
  - apply Layout_leased_ok in E as (b & fn & bb & Hbk & Hbb & Hfn & ->). cbn [location filename].
    destruct (make_leased_ok (ly_queue_id L) boot bb (bucket_hex b) (shard_hex (shard_for L (cf_job_id c0)))
      c0 bdl wdl tok) as (s & n & E & H1 & H2 & H3 & H4 & H5 & H6 & H7); [done..|].
    rewrite Hfn in E. injection E as <-. exists n. by rewrite H3, H4.
  - destruct (make_receipt_ok (ly_queue_id L) (bucket_hex b) (shard_hex (shard_for L (cf_job_id c0))) c0 tok)
      as (n & H1 & H2 & H3 & H4); [done..|]. by exists n.
  - destruct (make_dead_ok (ly_queue_id L) (bucket_hex b) (shard_hex (shard_for L (cf_job_id c0))) c0 reason)
      as (n & H1 & H2 & H3 & H4); [done..|]. by exists n.
Qed.

Lemma directory_components t : directory t = join_slash (location_components (location t)).
Proof. by destruct t as [[] ?]. Qed.

Lemma authentic_safe L t c : authentic L t c -> safe_component (filename t).
Proof.
  unfold authentic. destruct (location t); intros (n & Hn & _);
    eauto using ready_name_safe, delayed_name_safe, dead_name_safe, receipt_name_safe.
  by eapply leased_name_safe.
Qed.

(** Locations whose numbers fit their fixed-width names. *)
Definition location_ok (l : Location) : Prop :=
  match l with
  | LocReady sh | LocLeased _ _ sh => is_u16 sh
  | LocDelayed b sh | LocReceipt b sh | LocDead b sh => is_u64 b /\ is_u16 sh
  end.

Lemma location_ok_safe l : location_ok l -> Forall safe_component (location_components l).
Proof.
  assert (Hroot : Forall safe_component [lit "ready"; lit "delayed"; lit "receipts"; lit "dead"]).
  { repeat constructor; try done; by vm_compute; lia. }
  rewrite !Forall_cons in Hroot. destruct Hroot as (Hr1 & Hr2 & Hr3 & Hr4 & _).
  destruct l; cbn [location_components location_ok]; intros; split_hyps;
    repeat (apply Forall_cons; split); auto using bucket_hex_safe, shard_hex_safe.
Qed.

Lemma built_location L t c :
  Layout_wf L -> built L t c -> location_ok (location t) /\ Target_shard t = shard_for L (cf_job_id c).
Proof.
  intros HL Hbuilt. pose proof HL as (_ & _ & Hdw & _).
  pose proof (fun j => proj2 (shard_for_range L j HL)) as Hsh.
  destruct Hbuilt as [c0 Hc|c0 nb t0 Hc Hnb E|c0 boot bdl wdl tok t0 Hc Hb Hw Ht E|c0 tok b Hc Ht Hb
    |c0 reason b Hc Hr Hb]; try (split; [cbn; auto|done]).
  - apply Layout_delayed_ok in E as (b & ns & Hel & ->).
    apply eligibility_bounds in Hel as [_ Hu]; [|done..]. split; [cbn; auto|done].
  - apply Layout_leased_ok in E as (b & fn & bb & _ & _ & _ & ->). split; [cbn; auto|done].
Qed.

Lemma relative_path_components t :
  relative_path t = join_slash (location_components (location t) ++ [filename t]).
Proof. destruct t as [[] fn]; unfold relative_path, directory; cbn -[shard_hex bucket_hex]; by rewrite <- ?app_assoc. Qed.

(** A safe join splits back and validates. *)
Lemma safe_join_valid comps :
  comps <> [] -> Forall safe_component comps -> (length (join_slash comps) <= MAX_RELATIVE_PATH_BYTES)%nat ->
  exists v, validate_relative_path (join_slash comps) = Ok v /\ vrp_path v = join_slash comps /\
    ValidatedRelativePath_components v = comps.
Proof.
  intros Hne Hs Hl.
  assert (Hsplit : split_slash (join_slash comps) = comps).
  { apply split_slash_join; [done|]. eapply Forall_impl; [exact Hs|].
    intros x (_ & _ & _ & Hx & _). eapply Forall_impl; [exact Hx|]. by intros b [_ ?]. }
  exists (mkValidatedRelativePath (join_slash comps)).
  split; [|split; [done|exact Hsplit]]. apply validate_relative_path_iff.
  unfold ValidatedRelativePath_components. cbn [vrp_path]. by rewrite Hsplit.
Qed.
Lemma length_join_slash comps :
  Forall safe_component comps -> (length (join_slash comps) <= 256 * length comps)%nat.
Proof.
  induction 1 as [|x xs (_ & _ & _ & _ & Hx) Hxs IH]; [done|]. unfold MAX_COMPONENT_BYTES in Hx.
  destruct xs; cbn [join_slash length] in *; len.
Qed.

Lemma built_path L t c :
  Layout_wf L -> built L t c ->
  (exists v, validate_relative_path (relative_path t) = Ok v /\ vrp_path v = relative_path t /\
     ValidatedRelativePath_components v = location_components (location t) ++ [filename t]) /\
  split_slash (relative_path t) = location_components (location t) ++ [filename t].
Proof.
  intros HL Hb. pose proof (built_authentic _ _ _ HL Hb) as Ha.
  destruct (built_location _ _ _ HL Hb) as [Hl _].
  assert (Hs : Forall safe_component (location_components (location t) ++ [filename t])).
  { apply Forall_app. split; [by apply location_ok_safe|]. constructor; [by eapply authentic_safe|done]. }
  destruct (safe_join_valid (location_components (location t) ++ [filename t])) as (v & H1 & H2 & H3);
    [by destruct (location t)|done| |].
  { etrans; [by apply length_join_slash|]. rewrite length_app. unfold MAX_RELATIVE_PATH_BYTES.
    destruct (location t); cbn [location_components length]; lia. }
  rewrite relative_path_components. split; [by exists v|].
  unfold ValidatedRelativePath_components in H3. by rewrite H2 in H3.
Qed.

Lemma u16_hex_inj x y : is_u16 x -> is_u16 y -> shard_hex x = shard_hex y -> x = y.
Proof. intros. by apply (fmt_hex_inj 2); [lia|..]. Qed.
Lemma u64_hex_inj x y : is_u64 x -> is_u64 y -> bucket_hex x = bucket_hex y -> x = y.
Proof. intros. by apply (fmt_hex_inj 8); [lia|..]. Qed.

Lemma ready_not_leased s n n' : parse_ready s = Ok n -> parse_leased s = Ok n' -> False.
Proof.
  intros [(Hc & Ht) Hs]%parse_ready_iff Hl. apply leased_name_safe in Hl as [_ Hl].
  destruct (name_lengths (rn_common n) 0 0 (replicate 16 x00) 0 0 (replicate 16 x00) (rn_tag n))
    as [H1 _]; try done. rewrite Hs in Hl. congruence.
Qed.

Lemma shard_from_hex_Some s sh : shard_from_hex s = Some sh <-> s = shard_hex sh /\ is_u16 sh.
Proof. apply hex_decode_u16_Some. Qed.
Lemma bucket_from_hex_Some s b : bucket_from_hex s = Some b <-> s = bucket_hex b /\ is_u64 b.
Proof.
  unfold bucket_from_hex. destruct (length s =? 16)%nat eqn:E; cbn [negb]; [apply hex_decode_u64_Some|].
  breflect. split; [done|]. intros [-> Hb]. destruct E. by apply (length_fmt_hex 8); [lia|].
Qed.

(** What the parser of leased paths accepts, component by component. *)
Lemma parse_leased_path_iff L p l fn :
  parse_leased_path L p = Ok (l, fn) <->
  exists boot b sh, l = LocLeased boot b sh /\ is_u16 sh /\ (sh < ly_shard_count L)%Z /\
    ((split_slash p = [lit "ready"; shard_hex sh; fn] /\
      exists n, parse_leased fn = Ok n /\ boot = format_boot_id (ln_boot_id n) /\
        lease_bucket (ln_boottime_deadline_ns n) (ly_lease_bucket_width_ns L) = Some b) \/
     (split_slash p = [lit "leased"; boot; bucket_hex b; shard_hex sh; fn] /\
      (exists bb, boot_id_bytes boot = Some bb) /\ is_u64 b)).
Proof.
  unfold parse_leased_path, is_valid_leased_path_parts, is_shard_in_range.
  destruct (split_slash p) as [|p0 parts] eqn:Ep; [by destruct (join_split_slash p) as (_ & ? & _)|].
  split.
  - destruct ((length (p0 :: parts) =? 3)%nat && _) eqn:G; intros H1.
    + breflect. destruct parts as [|p1 [|p2 [|]]]; try done. cbn in *. subst p0. rsteps H1. breflect.
      apply ok_or_ok_inv, shard_from_hex_Some in E as [-> Hs]. apply map_err_ok_inv in E0.
      apply ok_or_ok_inv in E1. simplify_eq. eexists _, _, _. split; [done|]. split; [done|]. split; [done|].
      left. split; [done|]. eauto.
    + clear G. rsteps H1. breflect.
      destruct parts as [|p1 [|p2 [|p3 [|p4 [|]]]]]; try done. cbn in *. subst p0.
      apply ok_or_ok_inv, bucket_from_hex_Some in E as [-> Hb].
      apply ok_or_ok_inv, shard_from_hex_Some in E0 as [-> Hs]. simplify_eq.
      eexists _, _, _. split; [done|]. split; [done|]. split; [done|].
      right. split; [done|]. split; [|done]. by apply not_eq_None_Some.
  - intros (boot & b & sh & -> & Hs & Hr & [(E & n & Hn & -> & Hb)|(E & (bb & Hbb) & Hb)]);
      injection E as -> ->; cbn [length Nat.eqb andb].
    + rewrite bool_decide_true by done. cbn.
      rewrite (proj2 (shard_from_hex_Some _ sh)) by done. cbn [ok_or rbind].
      rewrite (proj2 (Z.ltb_lt _ _)) by done. cbn [negb]. rewrite Hn. cbn [map_err rbind]. by rewrite Hb.
    + rewrite bool_decide_true by done. cbn -[bucket_hex shard_hex].
      rewrite Hbb, bool_decide_false by done. rewrite (proj2 (bucket_from_hex_Some _ b)) by done.
      cbn [ok_or rbind]. rewrite (proj2 (shard_from_hex_Some _ sh)) by done. cbn [ok_or rbind].
      by rewrite (proj2 (Z.ltb_lt _ _)).
Qed.
(** Every target the queue builds is a safe path that names what it holds.
    Its relative path validates, with the state, bucket and shard directories
    and the filename as its components; the shard is the job's; the filename
    parses under the location's kind, carries the identity it was built from
    and authenticates in that directory; and the path of a lease reads back. *)
Theorem layout_targets_sound L t c :
  Layout_wf L -> built L t c ->
  (exists v, validate_relative_path (relative_path t) = Ok v /\ vrp_path v = relative_path t /\
     ValidatedRelativePath_components v = location_components (location t) ++ [filename t]) /\
  Target_shard t = shard_for L (cf_job_id c) /\ (0 <= Target_shard t < ly_shard_count L)%Z /\
  authentic L t c /\
  (forall boot b sh, location t = LocLeased boot b sh ->
     parse_leased_path L (relative_path t) = Ok (location t, filename t)).
Proof.
  intros HL Hb. destruct (built_path _ _ _ HL Hb) as [Hv Hsplit].
  destruct (built_location _ _ _ HL Hb) as [Hlo Hsh]. pose proof (built_authentic _ _ _ HL Hb) as Ha.
  destruct (shard_for_range L (cf_job_id c) HL) as [Hr _].
  split; [done|]. split; [done|]. split; [by rewrite Hsh|]. split; [done|].
  intros boot b sh E. rewrite E. apply parse_leased_path_iff. exists boot, b, sh.
  unfold authentic in Ha. rewrite E in Ha, Hlo, Hsplit. destruct Ha as (n & Hn & _ & Hboot & Hbk & _).
  split; [done|]. split; [done|]. unfold Target_shard in Hsh. rewrite E in Hsh. split; [by rewrite Hsh; apply Hr|].
  left. split; [exact Hsplit|]. exists n. split; [done|]. split; [|done].
  by apply boot_id_bytes_iff in Hboot as [_ ->].
Qed.

(** The location and the name determine the identity and each other. *)
Lemma authentic_det L t c c' :
  authentic L t c -> authentic L t c' -> c = c'.
Proof. unfold authentic. destruct (location t); intros (n & Hn & <- & _) (n' & Hn' & <- & _); congruence. Qed.

(** A relative path determines the target and its identity. *)
Lemma built_path_inj L t c t' c' :
  Layout_wf L -> built L t c -> built L t' c' -> relative_path t = relative_path t' -> t = t' /\ c = c'.
Proof.
  intros HL Hb Hb' Hp.
  destruct (built_path _ _ _ HL Hb) as [_ Hs]. destruct (built_path _ _ _ HL Hb') as [_ Hs'].
  rewrite Hp, Hs' in Hs. apply app_inj_tail in Hs as [Hloc Hfn].
  destruct (built_location _ _ _ HL Hb) as [Hlo _]. destruct (built_location _ _ _ HL Hb') as [Hlo' _].
  pose proof (built_authentic _ _ _ HL Hb) as Ha. pose proof (built_authentic _ _ _ HL Hb') as Ha'.
  enough (t = t') as -> by (split; [done|by eapply authentic_det]).
  destruct t as [l fn], t' as [l' fn']. cbn [filename location] in *. subst fn'. f_equal.
  unfold authentic in Ha, Ha'.
  destruct l, l'; cbn [location location_components location_ok filename] in *; split_hyps;
    try done; injection Hloc; intros; repeat match goal with
    | E : shard_hex ?x = shard_hex ?y |- _ => apply u16_hex_inj in E; [subst|done..]
    | E : bucket_hex ?x = bucket_hex ?y |- _ => apply u64_hex_inj in E; [subst|done..]
    end; try done; destruct Ha as (n & Hn & _ & Ha), Ha' as (n' & Hn' & _ & Ha').
  - by destruct (ready_not_leased _ _ _ Hn Hn').
  - by destruct (ready_not_leased _ _ _ Hn' Hn).
  - rewrite Hn in Hn'. injection Hn' as <-. destruct Ha as (B1 & K1 & _), Ha' as (B2 & K2 & _).
    rewrite K1 in K2. injection K2 as <-. apply boot_id_bytes_iff in B1 as [_ ->].
    by apply boot_id_bytes_iff in B2 as [_ ->].
Qed.

(** A relative path belongs to one identity: two targets the queue builds
    that share a path are the same target, for the same job, generation and
    attempt. *)
Theorem layout_path_identity L t c t' c' :
  Layout_wf L -> built L t c -> built L t' c' -> relative_path t = relative_path t' -> t = t' /\ c = c'.
Proof. apply built_path_inj. Qed.

(** The parser of leased paths accepts exactly the current form (a leased
    name in the ready shard directory, whose lease bucket exists) and the legacy
    form (boot, bucket and shard directories in canonical spelling), with a
    shard of the queue, and returns the location they spell. *)
Theorem leased_path_exact L p l fn :
  parse_leased_path L p = Ok (l, fn) <->
  exists boot b sh, l = LocLeased boot b sh /\ is_u16 sh /\ (sh < ly_shard_count L)%Z /\
    ((split_slash p = [lit "ready"; shard_hex sh; fn] /\
      exists n, parse_leased fn = Ok n /\ boot = format_boot_id (ln_boot_id n) /\
        lease_bucket (ln_boottime_deadline_ns n) (ly_lease_bucket_width_ns L) = Some b) \/
     (split_slash p = [lit "leased"; boot; bucket_hex b; shard_hex sh; fn] /\
      (exists bb, boot_id_bytes boot = Some bb) /\ is_u64 b)).
Proof. apply parse_leased_path_iff. Qed.

End Sound.

(** ** Witnesses *)

Definition sample_layout : Layout :=
  mkLayout (replicate 16 x42) 64 10000000000 10000000000 3600000000000
    (lit "01234567-89ab-cdef-0123-456789abcdef").
Lemma sample_layout_wf : Layout_wf sample_layout.
Proof. split; [exists 6%Z; done|done]. Qed.

Definition sample_leased_target : Target :=
  match @Layout_leased checksum256 sample_layout sample_common 25000000000 1000 (replicate 16 x33) with
  | Ok t => t
  | Err _ => mkTarget (LocReady 0) []
  end.

Lemma sample_leased_built : @built checksum256 sample_layout sample_leased_target sample_common.
Proof.
  apply (built_leased _ _ (ly_boot_id sample_layout) 25000000000 1000 (replicate 16 x33));
    [exact sample_common_wf|done|done|done|vm_compute; reflexivity].
Qed.

Lemma layout_targets_sound_witness :
  Target_shard sample_leased_target = 38%Z /\
  @parse_leased_path sample_layout (relative_path sample_leased_target)
    = Ok (location sample_leased_target, filename sample_leased_target).
Proof.
  split; [vm_compute; reflexivity|].
  destruct (@layout_targets_sound checksum256 checksum256_spec sample_layout sample_leased_target
    sample_common sample_layout_wf sample_leased_built) as (_ & _ & _ & _ & Hread).
  apply (Hread (ly_boot_id sample_layout) 2%Z 38%Z). vm_compute. reflexivity.
Defined.

Lemma layout_path_identity_witness :
  relative_path (@Layout_ready checksum256 sample_layout sample_common)
    <> relative_path sample_leased_target.
Proof.
  intros E.
  apply (@layout_path_identity checksum256 checksum256_spec sample_layout
    (@Layout_ready checksum256 sample_layout sample_common) sample_common
    sample_leased_target sample_common sample_layout_wf
    (built_ready _ _ sample_common_wf) sample_leased_built) in E as [E _].
  vm_compute in E. discriminate E.
Defined.
