(* ===== verification/Engine.v ===== *)
(** * The durable move engine

    Models [crates/steadq-core/src/queue/engine.rs]: the no-replace move in its
    strict, witnessed and deferred forms, publication of an unnamed temporary
    file with its two link strategies, verified unlink and directory removal,
    verified replacement, and the dirty-directory set.  Programs are [io] trees
    over the calls of [FsLinux]; directory file descriptors are their raw
    numbers. *)
From stdpp Require Import base numbers list option strings gmap.
From Stdlib Require Import Strings.Byte ZArith.
From S2P Require Import Prelude FsLinux.
Open Scope string_scope.
Open Scope list_scope.

(** ** Phases and failures *)

Inductive MovePhase : Type :=
| EnsureDest | PreRename | Rename | DestinationIdentity | PostLinearization | DestFsync | SourceFsync.

Record MoveIdentity : Type := mkMoveIdentity { mi_device : Z; mi_inode : Z }.

Inductive DirectoryDurability : Type := Strict | Deferred.

Record MoveOptions : Type := mkMoveOptions {
  source_identity : option MoveIdentity;
  directory_durability : DirectoryDurability
}.

Definition S_IFMT : Z := 61440.
Definition S_IFREG : Z := 32768.
Definition is_regular (st : Stat) : bool := (Z.land (st_mode st) S_IFMT =? S_IFREG)%Z.

Definition MoveIdentity_matches (id : MoveIdentity) (st : Stat) : bool :=
  is_regular st && (st_nlink st =? 1)%Z && (0 <=? st_size st)%Z
  && (st_dev st =? mi_device id)%Z && (st_ino st =? mi_inode id)%Z.

Record MovedObject : Type := mkMovedObject { mo_device : Z; mo_inode : Z; mo_size : Z }.

Inductive MoveFailure : Type :=
| MoveNotCommitted (phase : MovePhase) (source : IoError)
| MoveOutcomeUnknown (phase : MovePhase) (source : IoError)
| MoveAlreadyExists
| MoveSourceMissing.

Inductive TmpfilePublishPhase : Type := SourceIdentity | FileFsync | Link | DestinationFsync.
Inductive TmpfilePublishOutcome : Type := Published (mode : PublicationMode) | Unsupported.
Inductive TmpfilePublishFailure : Type :=
| PublishNotCommitted (phase : TmpfilePublishPhase) (source : IoError)
| PublishOutcomeUnknown (phase : TmpfilePublishPhase) (source : IoError)
| PublishAlreadyExists.

Inductive UnlinkPhase : Type := Unlink | DirectoryFsync.
Inductive UnlinkFailure : Type :=
| UnlinkNotCommitted (phase : UnlinkPhase) (source : IoError)
| UnlinkOutcomeUnknown (phase : UnlinkPhase) (source : IoError)
| UnlinkSourceMissing.

Inductive RemoveDirectoryPhase : Type := Remove | ParentFsync.
Inductive RemoveDirectoryFailure : Type :=
| RemoveNotCommitted (phase : RemoveDirectoryPhase) (source : IoError)
| RemoveOutcomeUnknown (phase : RemoveDirectoryPhase) (source : IoError)
| RemoveSourceMissing
| RemoveNotEmpty.

Inductive ReplacePhase : Type :=
| ReplaceDestinationIdentity | ReplaceRename | ReplaceDirectoryIdentity | ReplaceDestinationFsync
| ReplaceSourceFsync.
Inductive ReplaceFailure : Type :=
| ReplaceNotCommitted (phase : ReplacePhase) (source : IoError)
| ReplaceOutcomeUnknown (phase : ReplacePhase) (source : IoError)
| ReplaceSourceMissing
| ReplaceDestinationChanged.

Record ReplaceIdentity : Type := mkReplaceIdentity { ri_device : Z; ri_inode : Z }.
Definition ReplaceIdentity_matches (id : ReplaceIdentity) (st : Stat) : bool :=
  (st_dev st =? ri_device id)%Z && (st_ino st =? ri_inode id)%Z.

Definition MoveFailure_is_outcome_unknown (f : MoveFailure) : bool :=
  match f with MoveOutcomeUnknown _ _ => true | _ => false end.
Definition MoveFailure_phase (f : MoveFailure) : option MovePhase :=
  match f with MoveNotCommitted phase _ | MoveOutcomeUnknown phase _ => Some phase | _ => None end.
Definition UnlinkFailure_is_outcome_unknown (f : UnlinkFailure) : bool :=
  match f with UnlinkOutcomeUnknown _ _ => true | _ => false end.
Definition RemoveDirectoryFailure_is_outcome_unknown (f : RemoveDirectoryFailure) : bool :=
  match f with RemoveOutcomeUnknown _ _ => true | _ => false end.
Definition ReplaceFailure_is_outcome_unknown (f : ReplaceFailure) : bool :=
  match f with ReplaceOutcomeUnknown _ _ => true | _ => false end.

Definition is_already_exists_io_kind (k : ErrorKind) : bool := bool_decide (k = KAlreadyExists).
Definition is_not_found_io_kind (k : ErrorKind) : bool := bool_decide (k = KNotFound).

(** ** Moves *)

Definition same_directory (source destination : Z) : io bool :=
  if (source =? destination)%Z then Ret true
  else
    let! s := fstat source in
    let! d := fstat destination in
    Ret (match s, d with
         | Ok s, Ok d => (st_dev s =? st_dev d)%Z && (st_ino s =? st_ino d)%Z
         | _, _ => false
         end).

(** The identity check on the destination right after the rename. *)
Definition authenticate_destination (dest_dir_fd : Z) (dest_name : bytes)
    (source_identity : option MoveIdentity) : io (result (option MovedObject) MoveFailure) :=
  match source_identity with
  | None => Ret (Ok None)
  | Some id =>
      let! st := fstatat dest_dir_fd dest_name in
      Ret (match st with
           | Ok st =>
               if MoveIdentity_matches id st
               then Ok (Some (mkMovedObject (st_dev st) (st_ino st) (Z.max (st_size st) 0)))
               else Err (MoveOutcomeUnknown DestinationIdentity
                      (CustomError KOther "destination identity changed after rename"))
           | Err e => Err (MoveOutcomeUnknown DestinationIdentity e)
           end)
  end.

(** The classification of a failed no-replace rename. *)
Definition classify_rename (e : IoError) : MoveFailure :=
  if is_already_exists_io_kind (kind e) then MoveAlreadyExists
  else if is_not_found_io_kind (kind e) then MoveSourceMissing
  else MoveNotCommitted Rename e.

(** The directory barriers after linearization. *)
Definition move_barriers {T : Type} (src_dir_fd dest_dir_fd : Z) (options : MoveOptions) (output : T)
  : io (result T MoveFailure) :=
  match directory_durability options with
  | Deferred => Ret (Ok output)
  | Strict =>
      let!? _ := io_map_err (MoveOutcomeUnknown DestFsync) (fsync_dir_fd dest_dir_fd) in
      let! same :=
        (if source_identity options is Some _ then same_directory src_dir_fd dest_dir_fd else Ret false) in
      if (same : bool) then Ret (Ok output)
      else
        let!? _ := io_map_err (MoveOutcomeUnknown SourceFsync) (fsync_dir_fd src_dir_fd) in
        Ret (Ok output)
  end.

Definition move_noreplace {T : Type} (src_dir_fd : Z) (src_name : bytes) (dest_dir_fd : Z)
    (dest_name : bytes) (options : MoveOptions)
    (after_linearization : option MovedObject -> io (result T IoError)) : io (result T MoveFailure) :=
  let!? _ := io_map_err classify_rename
    (renameat2_noreplace src_dir_fd src_name dest_dir_fd dest_name) in
  let!? moved := authenticate_destination dest_dir_fd dest_name (source_identity options) in
  let!? output := io_map_err (MoveOutcomeUnknown PostLinearization) (after_linearization moved) in
  move_barriers src_dir_fd dest_dir_fd options output.

Definition move_verified_noreplace (src_dir_fd : Z) (src_name : bytes) (dest_dir_fd : Z)
    (dest_name : bytes) : io (result unit MoveFailure) :=
  move_noreplace src_dir_fd src_name dest_dir_fd dest_name (mkMoveOptions None Strict)
    (fun _ => Ret (Ok tt)).

(** [moved.expect(...)] cannot fail: a witnessed move authenticates its
    destination; [None] is mapped to an arbitrary object. *)
Definition expect_moved (moved : option MovedObject) : MovedObject :=
  default (mkMovedObject 0 0 0) moved.
Definition with_moved {T : Type} (after : MovedObject -> io (result T IoError))
    (moved : option MovedObject) : io (result (MovedObject * T) IoError) :=
  let!? output := after (expect_moved moved) in
  Ret (Ok (expect_moved moved, output)).

Definition move_witnessed_noreplace_with {T : Type} (src_dir_fd : Z) (src_name : bytes)
    (dest_dir_fd : Z) (dest_name : bytes) (identity : MoveIdentity)
    (after_linearization : MovedObject -> io (result T IoError))
  : io (result (MovedObject * T) MoveFailure) :=
  move_noreplace src_dir_fd src_name dest_dir_fd dest_name (mkMoveOptions (Some identity) Strict)
    (with_moved after_linearization).

Definition move_witnessed_noreplace (src_dir_fd : Z) (src_name : bytes) (dest_dir_fd : Z)
    (dest_name : bytes) (identity : MoveIdentity) : io (result unit MoveFailure) :=
  let!? _ := move_witnessed_noreplace_with src_dir_fd src_name dest_dir_fd dest_name identity
    (fun _ => Ret (Ok tt)) in
  Ret (Ok tt).

Definition move_witnessed_noreplace_io (src_dir_fd : Z) (src_name : bytes) (dest_dir_fd : Z)
    (dest_name : bytes) (identity : MoveIdentity) : io (result unit MoveFailure) :=
  move_noreplace src_dir_fd src_name dest_dir_fd dest_name (mkMoveOptions (Some identity) Strict)
    (fun _ => Ret (Ok tt)).

Definition move_witnessed_noreplace_deferred {T : Type} (src_dir_fd : Z) (src_name : bytes)
    (dest_dir_fd : Z) (dest_name : bytes) (identity : MoveIdentity)
    (after_linearization : MovedObject -> io (result T IoError))
  : io (result (MovedObject * T) MoveFailure) :=
  move_noreplace src_dir_fd src_name dest_dir_fd dest_name (mkMoveOptions (Some identity) Deferred)
    (with_moved after_linearization).

(** [move_noreplace] with a callback that writes to a variable it captured:
    the variable keeps what the callback wrote, also when a barrier fails. *)
Definition move_noreplace_capturing {T S : Type} (src_dir_fd : Z) (src_name : bytes) (dest_dir_fd : Z)
    (dest_name : bytes) (options : MoveOptions) (captured : S)
    (after_linearization : option MovedObject -> io (result T IoError * S)) : io (result T MoveFailure * S) :=
  let! renamed := io_map_err classify_rename
    (renameat2_noreplace src_dir_fd src_name dest_dir_fd dest_name) in
  match renamed with
  | Err failure => Ret (Err failure, captured)
  | Ok _ =>
      let! moved := authenticate_destination dest_dir_fd dest_name (source_identity options) in
      match moved with
      | Err failure => Ret (Err failure, captured)
      | Ok moved =>
          let! (output, captured) := after_linearization moved in
          match output with
          | Err e => Ret (Err (MoveOutcomeUnknown PostLinearization e), captured)
          | Ok output =>
              let! r := move_barriers src_dir_fd dest_dir_fd options output in
              Ret (r, captured)
          end
      end
  end.

(** ** Publication of an unnamed temporary file *)

Definition is_tmpfile_open_unsupported (e : IoError) : bool := os_error_in [EISDIR; ENOENT; EOPNOTSUPP] e.
Definition is_direct_link_unsupported (e : IoError) : bool := os_error_in [EINVAL; ENOENT; EOPNOTSUPP] e.
Definition is_proc_link_unsupported (e : IoError) : bool := os_error_in [EINVAL; ENOSYS; EOPNOTSUPP] e.

Definition unnamed_file_identity (st : Stat) : result MoveIdentity IoError :=
  if is_regular st && (st_nlink st =? 0)%Z && (0 <=? st_size st)%Z
  then Ok (mkMoveIdentity (st_dev st) (st_ino st))
  else Err (CustomError KInvalidData "temporary publication source is not an unnamed regular file").

Inductive LinkStrategyAttempt : Type := AttemptPublished (mode : PublicationMode) | TryNext | AttemptUnsupported.

Definition try_direct_tmpfile_link (tmpfile_fd destination_directory_fd : Z) (destination_name : bytes)
  : io (result LinkStrategyAttempt TmpfilePublishFailure) :=
  let! r := linkat_empty_path tmpfile_fd destination_directory_fd destination_name in
  Ret (match r with
       | Ok _ => Ok (AttemptPublished DirectAtEmptyPath)
       | Err error =>
           if is_already_exists_io_kind (kind error) then Err PublishAlreadyExists
           else if os_error_in [ENOSYS] error then Ok AttemptUnsupported
           else if is_direct_link_unsupported error then Ok TryNext
           else Err (PublishNotCommitted Link error)
       end).

Definition try_proc_tmpfile_link (tmpfile_fd destination_directory_fd : Z) (destination_name : bytes)
  : io (result LinkStrategyAttempt TmpfilePublishFailure) :=
  let! r := linkat_proc_self_fd tmpfile_fd destination_directory_fd destination_name in
  match r with
  | Ok _ => Ret (Ok (AttemptPublished ProcSelfFd))
  | Err error =>
      if is_already_exists_io_kind (kind error) then Ret (Err PublishAlreadyExists)
      else if os_error_in [ENOENT] error then
        let!? destination := io_map_err (PublishNotCommitted Link) (fstat destination_directory_fd) in
        if (st_nlink destination =? 0)%Z then Ret (Err (PublishNotCommitted Link error))
        else Ret (Ok TryNext)
      else if is_proc_link_unsupported error then Ret (Ok TryNext)
      else Ret (Err (PublishNotCommitted Link error))
  end.

Definition link_tmpfile_noreplace (tmpfile_fd destination_directory_fd : Z) (destination_name : bytes)
    (preferred : option PublicationMode) : io (result (option PublicationMode) TmpfilePublishFailure) :=
  let proc_first := match preferred with Some ProcSelfFd => true | _ => false end in
  let!? first :=
    (if proc_first then try_proc_tmpfile_link tmpfile_fd destination_directory_fd destination_name
     else try_direct_tmpfile_link tmpfile_fd destination_directory_fd destination_name) in
  match first with
  | AttemptPublished mode => Ret (Ok (Some mode))
  | AttemptUnsupported => Ret (Ok None)
  | TryNext =>
      let!? second :=
        (if proc_first then try_direct_tmpfile_link tmpfile_fd destination_directory_fd destination_name
         else try_proc_tmpfile_link tmpfile_fd destination_directory_fd destination_name) in
      match second with
      | AttemptPublished mode => Ret (Ok (Some mode))
      | TryNext | AttemptUnsupported => Ret (Ok None)
      end
  end.

Definition publish_tmpfile_noreplace_impl (tmpfile_fd destination_directory_fd : Z)
    (destination_name : bytes) (preferred : option PublicationMode) (sync_destination : bool)
  : io (result TmpfilePublishOutcome TmpfilePublishFailure) :=
  let!? source_stat := io_map_err (PublishNotCommitted SourceIdentity) (fstat tmpfile_fd) in
  let!? _ := lift (map_err (PublishNotCommitted SourceIdentity) (unnamed_file_identity source_stat)) in
  let!? _ := io_map_err (PublishNotCommitted FileFsync) (fsync tmpfile_fd) in
  let!? mode := link_tmpfile_noreplace tmpfile_fd destination_directory_fd destination_name preferred in
  match mode with
  | None => Ret (Ok Unsupported)
  | Some mode =>
      let!? _ :=
        (if sync_destination
         then io_map_err (PublishOutcomeUnknown DestinationFsync) (fsync_dir_fd destination_directory_fd)
         else Ret (Ok tt)) in
      Ret (Ok (Published mode))
  end.

Definition publish_tmpfile_noreplace_with_mode (tmpfile_fd destination_directory_fd : Z)
    (destination_name : bytes) (preferred : option PublicationMode) :=
  publish_tmpfile_noreplace_impl tmpfile_fd destination_directory_fd destination_name preferred true.
Definition publish_tmpfile_noreplace_deferred_with_mode (tmpfile_fd destination_directory_fd : Z)
    (destination_name : bytes) (preferred : option PublicationMode) :=
  publish_tmpfile_noreplace_impl tmpfile_fd destination_directory_fd destination_name preferred false.

(** ** Removal and replacement *)

Definition unlink_verified (directory_fd : Z) (name : bytes) : io (result unit UnlinkFailure) :=
  let!? _ := io_map_err (fun error =>
    if is_not_found_io_kind (kind error) then UnlinkSourceMissing
    else UnlinkNotCommitted Unlink error) (unlinkat directory_fd name) in
  io_map_err (UnlinkOutcomeUnknown DirectoryFsync) (fsync_dir_fd directory_fd).

Definition is_directory_not_empty (e : IoError) : bool := os_error_in [ENOTEMPTY; EEXIST] e.

Definition remove_empty_directory_verified (parent_directory_fd : Z) (name : bytes)
  : io (result unit RemoveDirectoryFailure) :=
  let!? _ := io_map_err (fun error =>
    if is_not_found_io_kind (kind error) then RemoveSourceMissing
    else if is_directory_not_empty error then RemoveNotEmpty
    else RemoveNotCommitted Remove error) (unlinkat_dir parent_directory_fd name) in
  io_map_err (RemoveOutcomeUnknown ParentFsync) (fsync_dir_fd parent_directory_fd).

Definition check_replace_destination (dest_dir_fd : Z) (dest_name : bytes)
    (expected_destination : option ReplaceIdentity) : io (result unit ReplaceFailure) :=
  match expected_destination with
  | None => Ret (Ok tt)
  | Some expected =>
      let!? destination := io_map_err (ReplaceNotCommitted ReplaceDestinationIdentity)
        (fstatat dest_dir_fd dest_name) in
      if negb (ReplaceIdentity_matches expected destination) then Ret (Err ReplaceDestinationChanged)
      else Ret (Ok tt)
  end.

Definition replace_verified (src_dir_fd : Z) (src_name : bytes) (dest_dir_fd : Z) (dest_name : bytes)
    (expected_destination : option ReplaceIdentity) : io (result unit ReplaceFailure) :=
  let!? _ := check_replace_destination dest_dir_fd dest_name expected_destination in
  let!? _ := io_map_err (fun error =>
    if is_not_found_io_kind (kind error) then ReplaceSourceMissing
    else ReplaceNotCommitted ReplaceRename error)
    (renameat src_dir_fd src_name dest_dir_fd dest_name) in
  if (src_dir_fd =? dest_dir_fd)%Z
  then io_map_err (ReplaceOutcomeUnknown ReplaceDestinationFsync) (fsync_dir_fd dest_dir_fd)
  else
    let!? src_stat := io_map_err (ReplaceOutcomeUnknown ReplaceDirectoryIdentity) (fstat src_dir_fd) in
    let!? dest_stat := io_map_err (ReplaceOutcomeUnknown ReplaceDirectoryIdentity) (fstat dest_dir_fd) in
    if (st_dev src_stat =? st_dev dest_stat)%Z && (st_ino src_stat =? st_ino dest_stat)%Z
    then io_map_err (ReplaceOutcomeUnknown ReplaceDestinationFsync) (fsync_dir_fd dest_dir_fd)
    else
      let!? _ := io_map_err (ReplaceOutcomeUnknown ReplaceDestinationFsync) (fsync_dir_fd dest_dir_fd) in
      io_map_err (ReplaceOutcomeUnknown ReplaceSourceFsync) (fsync_dir_fd src_dir_fd).

(** ** Dirty directories *)

Record DirtySet : Type := mkDirtySet {
  dirs : gmap (Z * Z) Z;
  pending_dirs : gset bytes
}.

Definition DirtySet_new : DirtySet := mkDirtySet ∅ ∅.
Definition DirtySet_is_empty (s : DirtySet) : bool := bool_decide (dirs s = ∅).
Definition DirtySet_clear (s : DirtySet) : DirtySet := mkDirtySet ∅ ∅.

(** [record_with]: the directory's identity is the key, a duplicate of the
    descriptor the value; a known identity is left alone. *)
Definition DirtySet_record_with (s : DirtySet) (fd : Z) (clone_fd : Z -> io (result Z IoError))
  : io (result unit IoError * DirtySet) :=
  let! st := fstat fd in
  match st with
  | Err e => Ret (Err e, s)
  | Ok st =>
      let key := (st_dev st, st_ino st) in
      match dirs s !! key with
      | Some _ => Ret (Ok tt, s)
      | None =>
          let! c := clone_fd fd in
          match c with
          | Err e => Ret (Err e, s)
          | Ok c => Ret (Ok tt, mkDirtySet (<[key := c]> (dirs s)) (pending_dirs s))
          end
      end
  end.

(** The loop of [sync_all] over the descriptors, in the order the hash map
    yields them; [first_err] is the error remembered so far. *)
Fixpoint sync_fds (fds : list Z) (first_err : option IoError) : io (result unit IoError) :=
  match fds with
  | [] => Ret (match first_err with Some e => Err e | None => Ok tt end)
  | fd :: rest =>
      let! r := fsync_dir_fd fd in
      match r with
      | Err error => sync_fds rest (match first_err with None => Some error | _ => first_err end)
      | Ok _ => sync_fds rest first_err
      end
  end.
Definition DirtySet_values (s : DirtySet) : list Z := (map_to_list (dirs s)).*2.
(** [values] is the iteration order of the hash map: any permutation of its values. *)
Definition DirtySet_sync_all (values : list Z) : io (result unit IoError) := sync_fds values None.

(** ** What an execution commits *)

Definition failed (a : Answer) : bool := match a with Fails _ => true | _ => false end.
(** The calls that change a directory; an open does when it may create. *)
Definition mutates (c : Syscall) : bool :=
  match c with
  | SysRenameat2 _ _ _ _ _ | SysRenameat _ _ _ _ | SysLinkat _ _ _ _ _ | SysUnlinkat _ _ _
  | SysMkdirat _ _ _ => true
  | SysOpenat _ _ flags _ => negb (Z.land flags O_CREAT =? 0)%Z
  | _ => false
  end.
Definition commits (tr : list event) : nat :=
  length (filter (fun ev => mutates ev.1 && negb (failed ev.2) = true) tr).

Lemma commits_app t1 t2 : commits (t1 ++ t2) = (commits t1 + commits t2)%nat.
Proof. unfold commits. by rewrite filter_app, length_app. Qed.

Lemma commits_one c a : commits [(c, a)] = if mutates c && negb (failed a) then 1%nat else 0%nat.
Proof. unfold commits. rewrite filter_cons. cbn. case_decide; destruct (mutates c && negb (failed a)); done. Qed.

Lemma commits_cons c a tr :
  commits ((c, a) :: tr) = ((if mutates c && negb (failed a) then 1 else 0) + commits tr)%nat.
Proof. change ((c, a) :: tr) with ([(c, a)] ++ tr). by rewrite commits_app, commits_one. Qed.

(** Invert an execution through the sequencing combinators. *)
Ltac io_inv H :=
  lazymatch type of H with
  | exec (io_try _ _) _ _ =>
      let e := fresh "e" in let t1 := fresh "t" in let t2 := fresh "t" in let x := fresh "x" in
      let H1 := fresh "H" in let H2 := fresh "H" in
      apply exec_try in H as [(e & H1 & ->)|(t1 & t2 & x & -> & H1 & H2)];
      [io_inv H1 | io_inv H1; io_inv H2]
  | exec (io_map_err _ _) _ _ =>
      let r := fresh "r" in let H1 := fresh "H" in let E := fresh "E" in
      apply exec_map_err in H as (r & H1 & E); io_inv H1
  | exec (io_bind _ _) _ _ =>
      let t1 := fresh "t" in let t2 := fresh "t" in let x := fresh "x" in
      let H1 := fresh "H" in let H2 := fresh "H" in
      apply exec_bind in H as (t1 & t2 & x & -> & H1 & H2); io_inv H1; io_inv H2
  | exec (Ret _) _ _ => apply exec_ret in H as [-> ->]
  | exec (lift _) _ _ => apply exec_ret in H as [-> ?]
  | _ => idtac
  end.

(** A call with checked names: nothing, or the one call. *)
Definition one_call (c : Syscall) (tr : list event) (r : result unit IoError) : Prop :=
  (tr = [] /\ exists m, r = Err (CustomError KInvalidInput m)) \/
  (exists e, tr = [(c, Fails e)] /\ r = Err (OsError e)) \/
  (exists a, tr = [(c, a)] /\ r = Ok tt /\ failed a = false).

Lemma one_call_syscall c tr r : exec (syscall c) tr r -> one_call c tr r.
Proof.
  intros [(e & -> & ->)|(a & -> & -> & Ha)]%exec_syscall; right; [left; by eauto|right].
  exists a. split; [done|]. split; [done|]. destruct a as [e| | | | | |]; [by destruct (Ha e)|done..].
Qed.

Lemma cstr_from_name_cases name :
  (cstr_from_name name = Ok name /\ contains x00 name = false) \/
  cstr_from_name name = Err (CustomError KInvalidInput "path component contains NUL byte").
Proof. unfold cstr_from_name, CPath_from_bytes. destruct (contains x00 name); auto. Qed.

(** Strip the name checks in front of a call. *)
Lemma one_call_name {name : bytes} {k : bytes -> io (result unit IoError)} {c tr r} :
  (forall tr r, exec (k name) tr r -> one_call c tr r) ->
  exec (io_try (lift (cstr_from_name name)) k) tr r -> one_call c tr r.
Proof.
  intros Hk H. apply exec_try in H as [(e & H1 & ->)|(t1 & t2 & x & -> & H1 & H2)];
    apply exec_ret in H1 as [-> E].
  - left. destruct (cstr_from_name_cases name) as [[E' _]|E']; rewrite E' in E; [done|].
    injection E as ->. eauto.
  - destruct (cstr_from_name_cases name) as [[E' _]|E']; rewrite E' in E; [|done].
    injection E as ->. by apply Hk.
Qed.

Lemma exec_renameat2 d1 n1 d2 n2 tr r :
  exec (renameat2_noreplace d1 n1 d2 n2) tr r -> one_call (SysRenameat2 d1 n1 d2 n2 RENAME_NOREPLACE) tr r.
Proof. apply one_call_name. intros ? ?. apply one_call_name. intros ? ?. apply one_call_syscall. Qed.
Lemma exec_renameat d1 n1 d2 n2 tr r :
  exec (renameat d1 n1 d2 n2) tr r -> one_call (SysRenameat d1 n1 d2 n2) tr r.
Proof. apply one_call_name. intros ? ?. apply one_call_name. intros ? ?. apply one_call_syscall. Qed.
Lemma exec_linkat_empty fd d n tr r :
  exec (linkat_empty_path fd d n) tr r -> one_call (SysLinkat fd [] d n AT_EMPTY_PATH) tr r.
Proof. apply one_call_name. intros ? ?. apply one_call_syscall. Qed.
Lemma exec_linkat_proc fd d n tr r :
  exec (linkat_proc_self_fd fd d n) tr r ->
  one_call (SysLinkat AT_FDCWD (c_string (proc_self_fd_path_raw (wrap32 fd))) d n AT_SYMLINK_FOLLOW) tr r.
Proof. apply one_call_name. intros ? ?. apply one_call_syscall. Qed.
Lemma exec_unlinkat d n tr r : exec (unlinkat d n) tr r -> one_call (SysUnlinkat d n 0) tr r.
Proof. apply one_call_name. intros ? ?. apply one_call_syscall. Qed.
Lemma exec_unlinkat_dir d n tr r :
  exec (unlinkat_dir d n) tr r -> one_call (SysUnlinkat d n AT_REMOVEDIR) tr r.
Proof. apply one_call_name. intros ? ?. apply one_call_syscall. Qed.
Lemma exec_fsync fd tr r : exec (fsync_dir_fd fd) tr r -> one_call (SysFsync fd) tr r.
Proof. apply one_call_syscall. Qed.

Lemma one_call_commits c tr r :
  one_call c tr r -> commits tr = if mutates c && is_ok r then 1%nat else 0%nat.
Proof.
  intros [(-> & m & ->)|[(e & -> & ->)|(a & -> & -> & Ha)]]; rewrite ?commits_one, ?Ha; cbn.
  - by rewrite andb_false_r.
  - by rewrite andb_false_r.
  - by rewrite !andb_true_r.
Qed.

Lemma exec_fstat fd tr r :
  exec (fstat fd) tr r -> exists a, tr = [(SysFstat fd, a)] /\ r = check_stat a.
Proof. destruct tr as [|[c a] tr]; [done|]. intros [-> [-> ->]%exec_ret]. eauto. Qed.

Lemma exec_fstatat d n tr r :
  exec (fstatat d n) tr r ->
  (tr = [] /\ r = Err (CustomError KInvalidInput "path component contains NUL byte")) \/
  exists a, tr = [(SysFstatat d n AT_SYMLINK_NOFOLLOW, a)] /\ r = check_stat a.
Proof.
  intros H. apply exec_try in H as [(e & H1 & ->)|(t1 & t2 & x & -> & H1 & H2)];
    apply exec_ret in H1 as [-> E]; destruct (cstr_from_name_cases n) as [[E' _]|E']; rewrite E' in E; try done.
  - injection E as ->. by left.
  - injection E as ->. right. destruct t2 as [|[c a] t2]; [done|]. destruct H2 as [-> H2].
    apply exec_ret in H2 as [-> ->]. eauto.
Qed.

Lemma fsync_commits fd tr r : exec (fsync_dir_fd fd) tr r -> commits tr = 0%nat.
Proof. intros H%exec_fsync%one_call_commits. done. Qed.
Lemma fstat_commits fd tr r : exec (fstat fd) tr r -> commits tr = 0%nat.
Proof. intros (a & -> & _)%exec_fstat. apply commits_one. Qed.
Lemma fstatat_commits d n tr r : exec (fstatat d n) tr r -> commits tr = 0%nat.
Proof. intros [[-> _]|(a & -> & _)]%exec_fstatat; [done|apply commits_one]. Qed.

Lemma same_directory_commits s d tr r : exec (same_directory s d) tr r -> commits tr = 0%nat.
Proof.
  unfold same_directory. destruct (s =? d)%Z; intros H; io_inv H; [done|].
  rewrite !commits_app. by rewrite (fstat_commits _ _ _ H0), (fstat_commits _ _ _ H).
Qed.

Lemma authenticate_commits d n id tr r :
  exec (authenticate_destination d n id) tr r -> commits tr = 0%nat.
Proof.
  destruct id as [id|]; cbn [authenticate_destination]; intros H; io_inv H; [|done].
  rewrite commits_app, (fstatat_commits _ _ _ _ H0). done.
Qed.

(** The only failures past the rename are unknown outcomes. *)
Lemma authenticate_unknown d n id tr f :
  exec (authenticate_destination d n id) tr (Err f) -> MoveFailure_is_outcome_unknown f = true.
Proof.
  destruct id as [id|]; intros H.
  - apply exec_bind in H as (t1 & t2 & x & _ & _ & [_ E]%exec_ret). by destruct x; [case_match|]; simplify_eq.
  - by apply exec_ret in H as [_ ?].
Qed.

Lemma barriers_outcome {T} s d opts (out : T) tr r :
  exec (move_barriers s d opts out) tr r ->
  commits tr = 0%nat /\ (r = Ok out \/ exists f, r = Err f /\ MoveFailure_is_outcome_unknown f = true).
Proof.
  unfold move_barriers. destruct (directory_durability opts); intros H.
  2:{ apply exec_ret in H as [-> ->]. auto. }
  apply exec_try in H as [(e & H & ->)|(t1 & t2 & x & -> & H1 & H)].
  { apply exec_map_err in H as (r & H & E). split; [by eapply fsync_commits|].
    destruct r; [done|]. injection E as ->. eauto. }
  apply exec_map_err in H1 as (r1 & H1 & _).
  apply exec_bind in H as (t3 & t4 & same & -> & Hs & H).
  rewrite !commits_app, (fsync_commits _ _ _ H1).
  assert (Hs0 : commits t3 = 0%nat).
  { destruct (source_identity opts); [by eapply same_directory_commits|by apply exec_ret in Hs as [-> _]]. }
  rewrite Hs0. destruct same; [apply exec_ret in H as [-> ->]; auto|].
  apply exec_try in H as [(e & H & ->)|(t5 & t6 & y & -> & H5 & H)].
  { apply exec_map_err in H as (r & H & E). split; [by rewrite (fsync_commits _ _ _ H)|].
    destruct r; [done|]. injection E as ->. eauto. }
  apply exec_map_err in H5 as (r5 & H5 & _). apply exec_ret in H as [-> ->].
  rewrite app_nil_r, (fsync_commits _ _ _ H5). auto.
Qed.

(** A callback that makes no directory change of its own. *)
Definition quiet {X T : Type} (after : X -> io (result T IoError)) : Prop :=
  forall x tr r, exec (after x) tr r -> commits tr = 0%nat.

Definition move_commits {T} (r : result T MoveFailure) : nat :=
  match r with
  | Ok _ => 1
  | Err f => if MoveFailure_is_outcome_unknown f then 1 else 0
  end.

Lemma classify_rename_committed e : MoveFailure_is_outcome_unknown (classify_rename e) = false.
Proof. unfold classify_rename. by repeat case_match. Qed.

Lemma move_noreplace_commits {T} sd sn dd dn opts (after : option MovedObject -> io (result T IoError)) tr r :
  quiet after -> exec (move_noreplace sd sn dd dn opts after) tr r -> commits tr = move_commits r.
Proof.
  intros Hq H. unfold move_noreplace in H.
  apply exec_try in H as [(e & H & ->)|(t1 & t2 & x & -> & H1 & H)].
  { apply exec_map_err in H as (r & H & E). apply exec_renameat2, one_call_commits in H. rewrite H.
    destruct r as [|e0]; [done|]. injection E as ->. cbn. by rewrite classify_rename_committed. }
  apply exec_map_err in H1 as ([[]|] & H1 & E1); [|done]. apply exec_renameat2, one_call_commits in H1.
  rewrite commits_app, H1. cbn [mutates is_ok andb].
  apply exec_try in H as [(e & H & ->)|(t3 & t4 & moved & -> & H3 & H)].
  { rewrite (authenticate_commits _ _ _ _ _ H). apply authenticate_unknown in H. cbn. by rewrite H. }
  rewrite commits_app, (authenticate_commits _ _ _ _ _ H3).
  apply exec_try in H as [(e & H & ->)|(t5 & t6 & out & -> & H5 & H)].
  { apply exec_map_err in H as (r & H & E). rewrite (Hq _ _ _ H). destruct r; [done|]. by injection E as ->. }
  apply exec_map_err in H5 as (r5 & H5 & _). rewrite commits_app, (Hq _ _ _ H5).
  apply barriers_outcome in H as [-> [->|(f & -> & Hf)]]; cbn; [done|by rewrite Hf].
Qed.

(** Apart from the captured variable it is [move_noreplace]. *)
Lemma capturing_exec {T S} sd sn dd dn opts (s0 : S) (after : option MovedObject -> io (result T IoError * S)) tr x :
  exec (move_noreplace_capturing sd sn dd dn opts s0 after) tr x ->
  exec (move_noreplace sd sn dd dn opts (fun m => let! y := after m in Ret y.1)) tr x.1.
Proof.
  unfold move_noreplace_capturing, move_noreplace. intros (t1 & t2 & r & -> & H1 & H2)%exec_bind.
  apply exec_try. destruct r as [u|f]; [right|left; apply exec_ret in H2 as [-> ->]; rewrite app_nil_r; by exists f].
  apply exec_bind in H2 as (t3 & t4 & m & -> & H3 & H4). eexists _, _, u. split; [done|]. split; [done|].
  apply exec_try. destruct m as [m|f]; [right|left; apply exec_ret in H4 as [-> ->]; rewrite app_nil_r; by exists f].
  apply exec_bind in H4 as (t5 & t6 & [o s] & -> & H5 & H6). eexists _, _, m. split; [done|]. split; [done|].
  assert (Ha : exec (io_map_err (MoveOutcomeUnknown PostLinearization) (let! y := after m in Ret y.1)) t5
    (map_err (MoveOutcomeUnknown PostLinearization) o)).
  { apply exec_bind. exists t5, [], o. rewrite app_nil_r. split; [done|]. split; [|done].
    apply exec_bind. exists t5, [], (o, s). by rewrite app_nil_r. }
  apply exec_try. destruct o as [o|e].
  - right. apply exec_bind in H6 as (t7 & t8 & r & -> & H7 & H8). apply exec_ret in H8 as [-> ->].
    rewrite app_nil_r. by eexists _, _, o.
  - left. apply exec_ret in H6 as [-> ->]. rewrite app_nil_r. by eexists.
Qed.

Lemma quiet_ret {X T} (t : T) : quiet (fun _ : X => Ret (Ok t)).
Proof. by intros x tr r [-> _]%exec_ret. Qed.

Lemma quiet_with_moved {T} (after : MovedObject -> io (result T IoError)) :
  quiet after -> quiet (with_moved after).
Proof.
  intros Hq x tr r H. apply exec_try in H as [(e & H & _)|(t1 & t2 & y & -> & H1 & [-> _]%exec_ret)];
    [by eapply Hq|]. rewrite app_nil_r. by eapply Hq.
Qed.

Definition publish_commits (r : result TmpfilePublishOutcome TmpfilePublishFailure) : nat :=
  match r with
  | Ok (Published _) | Err (PublishOutcomeUnknown _ _) => 1
  | _ => 0
  end.
Definition attempt_commits (r : result LinkStrategyAttempt TmpfilePublishFailure) : nat :=
  match r with Ok (AttemptPublished _) | Err (PublishOutcomeUnknown _ _) => 1 | _ => 0 end.

Lemma direct_link_commits fd d n tr r :
  exec (try_direct_tmpfile_link fd d n) tr r -> commits tr = attempt_commits r.
Proof.
  intros H. apply exec_bind in H as (t1 & t2 & x & -> & H1 & [-> ->]%exec_ret). rewrite app_nil_r.
  apply exec_linkat_empty, one_call_commits in H1. rewrite H1. destruct x; cbn; [done|]. by repeat case_match.
Qed.

Lemma proc_link_commits fd d n tr r :
  exec (try_proc_tmpfile_link fd d n) tr r -> commits tr = attempt_commits r.
Proof.
  intros H. apply exec_bind in H as (t1 & t2 & x & -> & H1 & H).
  apply exec_linkat_proc, one_call_commits in H1. rewrite commits_app, H1. cbn [mutates andb].
  destruct x as [|e]; cbn [is_ok]; [by apply exec_ret in H as [-> ->]|].
  destruct (is_already_exists_io_kind _); [by apply exec_ret in H as [-> ->]|].
  destruct (os_error_in [ENOENT] e).
  - apply exec_try in H as [(e' & H & ->)|(t3 & t4 & st & -> & H3 & H)].
    + apply exec_map_err in H as (r & H & E). rewrite (fstat_commits _ _ _ H). destruct r; [done|].
      by injection E as ->.
    + apply exec_map_err in H3 as (r3 & H3 & _). rewrite commits_app, (fstat_commits _ _ _ H3).
      destruct (_ =? _)%Z; by apply exec_ret in H as [-> ->].
  - destruct (is_proc_link_unsupported e); by apply exec_ret in H as [-> ->].
Qed.

Lemma link_commits fd d n pref tr r :
  exec (link_tmpfile_noreplace fd d n pref) tr r ->
  commits tr = match r with Ok (Some _) | Err (PublishOutcomeUnknown _ _) => 1%nat | _ => 0%nat end /\
  (forall f, r = Err f -> publish_commits (Err f) = 0%nat).
Proof.
  unfold link_tmpfile_noreplace. cbv zeta.
  set (pf := match pref with Some ProcSelfFd => true | _ => false end). clearbody pf.
  assert (Ha : forall b tr r, exec (if b : bool then try_proc_tmpfile_link fd d n else try_direct_tmpfile_link fd d n) tr r ->
    commits tr = attempt_commits r /\ forall f, r = Err f -> attempt_commits (Err f) = 0%nat).
  { intros b tr' r' H. split; [destruct b; [by apply proc_link_commits in H|by apply direct_link_commits in H]|].
    intros f ->. destruct b.
    - apply exec_bind in H as (t1 & t2 & [x|e] & _ & _ & H); [by apply exec_ret in H as [_ ?]|].
      repeat case_match; try (apply exec_ret in H as [_ ?]; by simplify_eq).
      apply exec_try in H as [(e' & H & E)|(t3 & t4 & st & _ & _ & H)].
      + apply exec_map_err in H as ([|] & _ & E'); cbn in E'; by simplify_eq.
      + case_match; apply exec_ret in H as [_ ?]; by simplify_eq.
    - apply exec_bind in H as (t1 & t2 & [x|e] & _ & _ & [_ H]%exec_ret); repeat case_match; by simplify_eq. }
  intros H. apply exec_try in H as [(e & H & ->)|(t1 & t2 & first & -> & H1 & H)].
  { destruct (Ha _ _ _ H) as [-> He]. specialize (He e eq_refl). split; [by destruct e|].
    intros f [= <-]. by destruct e. }
  destruct (Ha _ _ _ H1) as [E1 _]. rewrite commits_app, E1.
  destruct first as [m| |]; cbn [attempt_commits];
    [by apply exec_ret in H as [-> ->]| |by apply exec_ret in H as [-> ->]].
  replace (if pf then _ else _) with (if negb pf then try_proc_tmpfile_link fd d n else try_direct_tmpfile_link fd d n)
    in H by (by destruct pf).
  apply exec_try in H as [(e & H & ->)|(t3 & t4 & second & -> & H3 & H)].
  { destruct (Ha _ _ _ H) as [-> He]. specialize (He e eq_refl). split; [by destruct e|].
    intros f [= <-]. by destruct e. }
  destruct (Ha _ _ _ H3) as [E3 _]. rewrite commits_app, E3.
  destruct second as [m| |]; by apply exec_ret in H as [-> ->].
Qed.

Lemma publish_impl_commits fd d n pref sync tr r :
  exec (publish_tmpfile_noreplace_impl fd d n pref sync) tr r -> commits tr = publish_commits r.
Proof.
  unfold publish_tmpfile_noreplace_impl. intros H.
  apply exec_try in H as [(e & H & ->)|(t1 & t2 & st & -> & H1 & H)].
  { apply exec_map_err in H as (r & H & E). rewrite (fstat_commits _ _ _ H). destruct r; [done|]. by injection E as ->. }
  apply exec_map_err in H1 as (r1 & H1 & _). rewrite commits_app, (fstat_commits _ _ _ H1).
  apply exec_try in H as [(e & [-> E]%exec_ret & ->)|(t3 & t4 & id & -> & [-> _]%exec_ret & H)].
  { destruct (unnamed_file_identity st); [done|]. by injection E as ->. }
  apply exec_try in H as [(e & H & ->)|(t5 & t6 & u & -> & H5 & H)].
  { apply exec_map_err in H as (r & H & E). cbn [app]. rewrite (fsync_commits fd _ r H). destruct r; [done|]. by injection E as ->. }
  apply exec_map_err in H5 as (r5 & H5 & _). cbn [app]. rewrite commits_app, (fsync_commits fd _ r5 H5).
  apply exec_try in H as [(e & H & ->)|(t7 & t8 & mode & -> & H7 & H)].
  { destruct (link_commits _ _ _ _ _ _ H) as [-> He]. specialize (He e eq_refl). by destruct e. }
  destruct (link_commits _ _ _ _ _ _ H7) as [E7 _]. rewrite commits_app, E7.
  destruct mode as [m|]; [|by apply exec_ret in H as [-> ->]].
  apply exec_try in H as [(e & H & ->)|(t9 & t10 & v & -> & H9 & [-> ->]%exec_ret)].
  - destruct sync; [|by apply exec_ret in H as [_ ?]].
    apply exec_map_err in H as (r & H & E). rewrite (fsync_commits _ _ _ H). destruct r; [done|]. by injection E as ->.
  - rewrite app_nil_r. destruct sync; [|by apply exec_ret in H9 as [-> _]].
    apply exec_map_err in H9 as (r9 & H9 & _). by rewrite (fsync_commits _ _ _ H9).
Qed.

Definition unlink_commits (r : result unit UnlinkFailure) : nat :=
  match r with Ok _ => 1 | Err f => if UnlinkFailure_is_outcome_unknown f then 1 else 0 end.
Definition remove_commits (r : result unit RemoveDirectoryFailure) : nat :=
  match r with Ok _ => 1 | Err f => if RemoveDirectoryFailure_is_outcome_unknown f then 1 else 0 end.
Definition replace_commits (r : result unit ReplaceFailure) : nat :=
  match r with Ok _ => 1 | Err f => if ReplaceFailure_is_outcome_unknown f then 1 else 0 end.

Lemma unlink_verified_commits d n tr r :
  exec (unlink_verified d n) tr r -> commits tr = unlink_commits r.
Proof.
  intros H. apply exec_try in H as [(e & H & ->)|(t1 & t2 & x & -> & H1 & H)].
  - apply exec_map_err in H as (r & H & E). apply exec_unlinkat, one_call_commits in H. rewrite H.
    destruct r; [done|]. injection E as ->. by destruct (is_not_found_io_kind _).
  - apply exec_map_err in H1 as ([u|] & H1 & E1); [|done]. apply exec_unlinkat, one_call_commits in H1.
    apply exec_map_err in H as (r2 & H & ->). rewrite commits_app, H1, (fsync_commits _ _ _ H). by destruct r2.
Qed.

Lemma remove_verified_commits d n tr r :
  exec (remove_empty_directory_verified d n) tr r -> commits tr = remove_commits r.
Proof.
  intros H. apply exec_try in H as [(e & H & ->)|(t1 & t2 & x & -> & H1 & H)].
  - apply exec_map_err in H as (r & H & E). apply exec_unlinkat_dir, one_call_commits in H. rewrite H.
    destruct r; [done|]. injection E as ->.
    destruct (is_not_found_io_kind _); [done|]. by destruct (is_directory_not_empty _).
  - apply exec_map_err in H1 as ([u|] & H1 & E1); [|done]. apply exec_unlinkat_dir, one_call_commits in H1.
    apply exec_map_err in H as (r2 & H & ->). rewrite commits_app, H1, (fsync_commits _ _ _ H). by destruct r2.
Qed.

Lemma check_replace_commits d n ex tr r :
  exec (check_replace_destination d n ex) tr r ->
  commits tr = 0%nat /\ (r = Ok tt \/ exists f, r = Err f /\ ReplaceFailure_is_outcome_unknown f = false).
Proof.
  destruct ex as [id|]; cbn [check_replace_destination]; intros H.
  - apply exec_try in H as [(e & H & ->)|(t1 & t2 & st & -> & H1 & H)].
    + apply exec_map_err in H as (r & H & E). split; [by eapply fstatat_commits|]. destruct r; [done|].
      injection E as ->. eauto.
    + apply exec_map_err in H1 as (r1 & H1 & _). rewrite commits_app, (fstatat_commits _ _ _ _ H1).
      case_match; apply exec_ret in H as [-> ->]; cbn; eauto.
  - apply exec_ret in H as [-> ->]. auto.
Qed.

(** The barriers of a replacement commit nothing and fail as unknown outcomes. *)
Lemma replace_fsync_outcome (ph : ReplacePhase) fd tr r :
  exec (io_map_err (ReplaceOutcomeUnknown ph) (fsync_dir_fd fd)) tr r ->
  commits tr = 0%nat /\ replace_commits r = 1%nat.
Proof. intros (r1 & H & ->)%exec_map_err. split; [by eapply fsync_commits|]. by destruct r1. Qed.

Lemma replace_verified_commits sd sn dd dn ex tr r :
  exec (replace_verified sd sn dd dn ex) tr r -> commits tr = replace_commits r.
Proof.
  intros H. apply exec_try in H as [(e & H & ->)|(t1 & t2 & x & -> & H1 & H)].
  { apply check_replace_commits in H as [-> [?|(f & [= ->] & Hf)]]; [done|]. cbn. by rewrite Hf. }
  apply check_replace_commits in H1 as [H1 _]. rewrite commits_app, H1. cbn [Nat.add].
  apply exec_try in H as [(e & H & ->)|(t3 & t4 & y & -> & H3 & H)].
  { apply exec_map_err in H as (r & H & E). apply exec_renameat, one_call_commits in H. rewrite H.
    destruct r; [done|]. injection E as ->. by destruct (is_not_found_io_kind _). }
  apply exec_map_err in H3 as ([u|] & H3 & E3); [|done]. apply exec_renameat, one_call_commits in H3.
  rewrite commits_app, H3. cbn [mutates is_ok andb].
  destruct (sd =? dd)%Z; [by apply replace_fsync_outcome in H as [-> ->]|].
  apply exec_try in H as [(e & H & ->)|(t5 & t6 & s & -> & H5 & H)].
  { apply exec_map_err in H as (r & H & E). rewrite (fstat_commits _ _ _ H). destruct r; [done|]. by injection E as ->. }
  apply exec_map_err in H5 as (r5 & H5 & _). rewrite commits_app, (fstat_commits _ _ _ H5).
  apply exec_try in H as [(e & H & ->)|(t7 & t8 & d & -> & H7 & H)].
  { apply exec_map_err in H as (r & H & E). rewrite (fstat_commits _ _ _ H). destruct r; [done|]. by injection E as ->. }
  apply exec_map_err in H7 as (r7 & H7 & _). rewrite commits_app, (fstat_commits _ _ _ H7).
  destruct ((_ =? _)%Z && (_ =? _)%Z); [by apply replace_fsync_outcome in H as [-> ->]|].
  apply exec_try in H as [(e & H & ->)|(t9 & t10 & v & -> & H9 & H)].
  { by apply replace_fsync_outcome in H as [-> ->]. }
  apply exec_map_err in H9 as (r9 & H9 & _). rewrite commits_app, (fsync_commits _ _ _ H9).
  by apply replace_fsync_outcome in H as [-> ->].
Qed.

(** ** Properties *)

(** C2: the engine never misreports a directory change.  In every execution
    of a move, a publication, an unlink, a directory removal or a replacement,
    whatever the kernel answers, the number of successful directory-changing
    calls is exactly one when the operation succeeds or reports an unknown
    outcome, and zero when it reports that nothing was committed, that the
    destination exists, that the source is missing, or that publication is
    unsupported. *)
Theorem engine_outcomes_truthful {T} sd sn dd dn opts (after : option MovedObject -> io (result T IoError))
    fd pref sync ex tr :
  quiet after ->
  (forall r, exec (move_noreplace sd sn dd dn opts after) tr r -> commits tr = move_commits r) /\
  (forall r, exec (publish_tmpfile_noreplace_impl fd dd dn pref sync) tr r -> commits tr = publish_commits r) /\
  (forall r, exec (unlink_verified dd dn) tr r -> commits tr = unlink_commits r) /\
  (forall r, exec (remove_empty_directory_verified dd dn) tr r -> commits tr = remove_commits r) /\
  (forall r, exec (replace_verified sd sn dd dn ex) tr r -> commits tr = replace_commits r).
Proof.
  intros Hq. split; [|split; [|split; [|split]]]; intros r H.
  - by eapply move_noreplace_commits.
  - by eapply publish_impl_commits.
  - by eapply unlink_verified_commits.
  - by eapply remove_verified_commits.
  - by eapply replace_verified_commits.
Qed.

(** A rename that succeeds and a destination barrier that fails. *)
Definition sample_unknown_trace : list event :=
  [(SysRenameat2 3 [x61] 4 [x62] RENAME_NOREPLACE, Returns 0); (SysFsync 4, Fails 5)].

Lemma engine_outcomes_truthful_witness :
  commits sample_unknown_trace
  = @move_commits unit (Err (MoveOutcomeUnknown DestFsync (OsError 5))).
Proof.
  apply (engine_outcomes_truthful 3 [x61] 4 [x62] (mkMoveOptions None Strict) (fun _ => Ret (Ok tt))
    9 None true None sample_unknown_trace (quiet_ret tt)).
  vm_compute. tauto.
Defined.

(** The source directory's entry is settled by [t]: either its own barrier
    succeeded, or the two directories are the same. *)
Definition source_settled (sd dd : Z) (t : list event) : Prop :=
  (exists t' a, t = t' ++ [(SysFsync sd, a)] /\ failed a = false) \/
  (sd = dd /\ t = []) \/
  (exists a1 a2 s d, t = [(SysFstat sd, a1); (SysFstat dd, a2)] /\ check_stat a1 = Ok s /\
     check_stat a2 = Ok d /\ st_dev s = st_dev d /\ st_ino s = st_ino d).

Lemma one_call_ok c tr : one_call c tr (Ok tt) -> exists a, tr = [(c, a)] /\ failed a = false.
Proof. intros [(_ & m & ?)|[(e & _ & ?)|(a & -> & _ & Ha)]]; [done..|eauto]. Qed.

Lemma fsync_ok fd tr x : exec (fsync_dir_fd fd) tr (Ok x) -> exists a, tr = [(SysFsync fd, a)] /\ failed a = false.
Proof. destruct x. intros H%exec_fsync. by apply one_call_ok. Qed.

Lemma exec_map_err_ok {A E F} (f : E -> F) (m : io (result A E)) tr x :
  exec (io_map_err f m) tr (Ok x) -> exec m tr (Ok x).
Proof. intros ([y|] & H & E0)%exec_map_err; [by injection E0 as ->|done]. Qed.

Lemma same_directory_true sd dd tr :
  exec (same_directory sd dd) tr true -> source_settled sd dd tr.
Proof.
  unfold same_directory. destruct (sd =? dd)%Z eqn:E; breflect.
  - intros [-> _]%exec_ret. subst. by right; left.
  - intros H. apply exec_bind in H as (t1 & t2 & s & -> & (a1 & -> & ->)%exec_fstat & H).
    apply exec_bind in H as (t3 & t4 & d & -> & (a2 & -> & ->)%exec_fstat & [-> Hb]%exec_ret).
    destruct (check_stat a1) as [s|] eqn:E1; [|done]. destruct (check_stat a2) as [d|] eqn:E2; [|done].
    symmetry in Hb. breflect. right; right. exists a1, a2, s, d. done.
Qed.

Lemma strict_barriers_ok {T} sd dd ident (out x : T) tr :
  exec (move_barriers sd dd (mkMoveOptions ident Strict) out) tr (Ok x) ->
  exists a t, tr = (SysFsync dd, a) :: t /\ failed a = false /\ source_settled sd dd t.
Proof.
  cbn [move_barriers directory_durability source_identity]. intros H.
  apply exec_try in H as [(e & _ & ?)|(t1 & t2 & u & -> & H1 & H)]; [done|].
  apply exec_map_err_ok in H1. apply fsync_ok in H1 as (a & -> & Ha).
  exists a, t2. split; [done|]. split; [done|].
  apply exec_bind in H as (t3 & t4 & same & -> & Hs & H). destruct same.
  - apply exec_ret in H as [-> _]. rewrite app_nil_r.
    destruct ident; [by apply same_directory_true|by apply exec_ret in Hs as [_ ?]].
  - apply exec_try in H as [(e & _ & ?)|(t5 & t6 & v & -> & H5 & [-> _]%exec_ret)]; [done|].
    apply exec_map_err_ok in H5. apply fsync_ok in H5 as (a2 & -> & Ha2).
    left. exists t3, a2. by rewrite app_nil_r.
Qed.

Lemma strict_move_trace {T} sd sn dd dn ident (after : option MovedObject -> io (result T IoError)) out tr :
  quiet after -> exec (move_noreplace sd sn dd dn (mkMoveOptions ident Strict) after) tr (Ok out) ->
  exists a0 t1 a1 t2,
    tr = (SysRenameat2 sd sn dd dn RENAME_NOREPLACE, a0) :: t1 ++ (SysFsync dd, a1) :: t2 /\
    failed a0 = false /\ commits t1 = 0%nat /\ failed a1 = false /\ source_settled sd dd t2.
Proof.
  intros Hq H. unfold move_noreplace in H.
  apply exec_try in H as [(e & _ & ?)|(t1 & t2 & u & -> & H1 & H)]; [done|].
  apply exec_map_err in H1 as ([[]|] & H1 & E1); [|done].
  apply exec_renameat2, one_call_ok in H1 as (a0 & -> & Ha0).
  apply exec_try in H as [(e & _ & ?)|(t3 & t4 & moved & -> & H3 & H)]; [done|].
  apply exec_try in H as [(e & _ & ?)|(t5 & t6 & out' & -> & H5 & H)]; [done|].
  apply exec_map_err in H5 as (r5 & H5 & _).
  apply strict_barriers_ok in H as (a1 & t & -> & Ha1 & Hs).
  exists a0, (t3 ++ t5), a1, t. split; [by rewrite <- !app_assoc|]. split; [done|].
  split; [by rewrite commits_app, (authenticate_commits _ _ _ _ _ H3), (Hq _ _ _ H5)|]. done.
Qed.

(** C5: barriers come in protocol order.  A strict move that succeeds
    performed its rename, then a successful barrier on the destination
    directory, then either a successful barrier on the source directory or
    established that both are the same directory.  A strict publication that
    succeeds synced the file's content before the link that named it, and the
    destination directory after. *)
Theorem strict_barrier_order {T} sd sn dd dn ident (after : option MovedObject -> io (result T IoError))
    fd pref out mode tr :
  quiet after ->
  (exec (move_noreplace sd sn dd dn (mkMoveOptions ident Strict) after) tr (Ok out) ->
   exists a0 t1 a1 t2,
     tr = (SysRenameat2 sd sn dd dn RENAME_NOREPLACE, a0) :: t1 ++ (SysFsync dd, a1) :: t2 /\
     failed a0 = false /\ commits t1 = 0%nat /\ failed a1 = false /\ source_settled sd dd t2) /\
  (exec (publish_tmpfile_noreplace_with_mode fd dd dn pref) tr (Ok (Published mode)) ->
   exists t0 af tl ad,
     tr = t0 ++ (SysFsync fd, af) :: tl ++ [(SysFsync dd, ad)] /\
     commits t0 = 0%nat /\ failed af = false /\ commits tl = 1%nat /\ failed ad = false).
Proof.
  intros Hq. split; [by apply strict_move_trace|].
  unfold publish_tmpfile_noreplace_with_mode, publish_tmpfile_noreplace_impl. intros H.
  apply exec_try in H as [(e & _ & ?)|(t1 & t2 & st & -> & H1 & H)]; [done|].
  apply exec_map_err in H1 as (r1 & H1 & _).
  apply exec_try in H as [(e & _ & ?)|(t3 & t4 & id & -> & [-> _]%exec_ret & H)]; [done|].
  apply exec_try in H as [(e & _ & ?)|(t5 & t6 & u & -> & H5 & H)]; [done|].
  apply exec_map_err_ok in H5.
  apply (fsync_ok fd) in H5 as (af & -> & Haf).
  apply exec_try in H as [(e & _ & ?)|(t7 & t8 & m & -> & H7 & H)]; [done|].
  destruct m as [m|]; [|by apply exec_ret in H as [_ ?]].
  apply exec_try in H as [(e & _ & ?)|(t9 & t10 & v & -> & H9 & [-> _]%exec_ret)]; [done|].
  apply exec_map_err_ok in H9. apply fsync_ok in H9 as (ad & -> & Had).
  exists t1, af, t7, ad. split; [by rewrite app_nil_r|]. split; [by eapply fstat_commits|].
  split; [done|]. split; [|done]. by destruct (link_commits _ _ _ _ _ _ H7) as [-> _].
Qed.

Definition sample_move_trace : list event :=
  [(SysRenameat2 3 [x61] 4 [x62] RENAME_NOREPLACE, Returns 0); (SysFsync 4, Returns 0);
   (SysFsync 3, Returns 0)].

Lemma strict_barrier_order_witness :
  exists a0 t1 a1 t2,
    sample_move_trace = (SysRenameat2 3 [x61] 4 [x62] RENAME_NOREPLACE, a0) :: t1 ++ (SysFsync 4, a1) :: t2 /\
    failed a0 = false /\ commits t1 = 0%nat /\ failed a1 = false /\ source_settled 3 4 t2.
Proof.
  apply (strict_barrier_order 3 [x61] 4 [x62] None (fun _ => Ret (Ok tt)) 9 None tt NamedFallback
    sample_move_trace (quiet_ret tt)).
  vm_compute. tauto.
Defined.

(** ** Dirty directories *)

(** The error of the first failed barrier. *)
Fixpoint first_failure (tr : list event) : option IoError :=
  match tr with
  | [] => None
  | (_, Fails e) :: _ => Some (OsError e)
  | _ :: tr' => first_failure tr'
  end.

Lemma sync_fds_outcome fds first tr r :
  exec (sync_fds fds first) tr r ->
  map fst tr = map SysFsync fds /\
  r = match first with
      | Some e => Err e
      | None => match first_failure tr with Some e => Err e | None => Ok tt end
      end.
Proof.
  revert first tr. induction fds as [|fd fds IH]; intros first tr; cbn [sync_fds].
  - intros [-> ->]%exec_ret. by destruct first.
  - intros H. apply exec_bind in H as (t1 & t2 & x & -> & H1 & H).
    apply exec_syscall in H1 as [(e & -> & ->)|(a & -> & -> & Ha)].
    + apply IH in H as [E ->]. cbn. rewrite E. by destruct first.
    + apply IH in H as [E ->]. cbn. rewrite E. destruct a as [e| | | | | |]; [by destruct (Ha e)|done..].
Qed.

(** What recording a directory does. *)
Lemma record_with_outcome s fd clone tr r s' :
  exec (DirtySet_record_with s fd clone) tr (r, s') ->
  dirs s ⊆ dirs s' /\ pending_dirs s' = pending_dirs s /\
  match r with
  | Err _ => s' = s
  | Ok _ => exists a st t, tr = (SysFstat fd, a) :: t /\ check_stat a = Ok st /\
      is_Some (dirs s' !! (st_dev st, st_ino st)) /\
      (is_Some (dirs s !! (st_dev st, st_ino st)) -> s' = s) /\
      delete (st_dev st, st_ino st) (dirs s') = delete (st_dev st, st_ino st) (dirs s)
  end.
Proof.
  intros H. apply exec_bind in H as (t1 & t2 & x & -> & (a & -> & ->)%exec_fstat & H).
  destruct (check_stat a) as [st|e] eqn:Ea; [|by apply exec_ret in H as [-> [= -> ->]]].
  cbv zeta in H. destruct (dirs s !! (st_dev st, st_ino st)) as [v|] eqn:Ek.
  - apply exec_ret in H as [-> [= -> ->]]. split; [done|]. split; [done|]. exists a, st, []. rewrite Ek. naive_solver.
  - apply exec_bind in H as (t3 & t4 & c & -> & H3 & H).
    destruct c as [c|e]; apply exec_ret in H as [-> [= -> ->]]; [|done]. cbn [dirs pending_dirs].
    split; [by apply insert_subseteq|]. split; [done|]. exists a, st, (t3 ++ []). split; [done|]. split; [done|].
    rewrite lookup_insert_eq. split; [done|]. split; [rewrite Ek; by intros [? ?]|]. by rewrite delete_insert_eq.
Qed.

(** C36: [sync_all] attempts every recorded directory exactly once, whatever
    the iteration order of the hash map and whichever barriers fail; it
    succeeds exactly when all of them did and otherwise reports the first
    error.  Recording a directory keeps one descriptor per directory identity:
    it adds the identity the kernel reports or leaves the set unchanged, and a
    set that records a known identity stays as it was. *)
Theorem dirty_set_exact s fds tr r fd clone tr' r' s' :
  fds ≡ₚ DirtySet_values s ->
  (exec (DirtySet_sync_all fds) tr r ->
   map fst tr = map SysFsync fds /\ length tr = size (dirs s) /\
   r = match first_failure tr with Some e => Err e | None => Ok tt end) /\
  (exec (DirtySet_record_with s fd clone) tr' (r', s') ->
   match r' with
   | Err _ => s' = s
   | Ok _ => exists a st t, tr' = (SysFstat fd, a) :: t /\ check_stat a = Ok st /\
       is_Some (dirs s' !! (st_dev st, st_ino st)) /\ pending_dirs s' = pending_dirs s /\
       (is_Some (dirs s !! (st_dev st, st_ino st)) -> s' = s) /\
       delete (st_dev st, st_ino st) (dirs s') = delete (st_dev st, st_ino st) (dirs s)
   end).
Proof.
  intros Hp. split.
  - intros [E ->]%sync_fds_outcome. split; [done|]. split; [|done].
    apply (f_equal length) in E. rewrite !length_map, Hp in E. unfold DirtySet_values in E.
    by rewrite length_fmap, length_map_to_list in E.
  - intros (_ & Hpd & H)%record_with_outcome. destruct r'; [|done]. naive_solver.
Qed.

Definition sample_dirty : DirtySet :=
  mkDirtySet (<[(1, 2)%Z := 6%Z]> (<[(1, 3)%Z := 7%Z]> ∅)) ∅.
Definition sample_sync_trace : list event := [(SysFsync 7, Fails 5); (SysFsync 6, Returns 0)].

Lemma dirty_set_exact_witness :
  map fst sample_sync_trace = map SysFsync [7; 6]%Z /\
  length sample_sync_trace = size (dirs sample_dirty) /\
  Err (OsError 5)
  = match first_failure sample_sync_trace with Some e => Err e | None => Ok tt end.
Proof.
  eapply (dirty_set_exact sample_dirty [7; 6]%Z sample_sync_trace (Err (OsError 5)) 0
    (fun _ => Ret (Ok 0%Z)) [] (Ok tt) DirtySet_new).
  - replace (DirtySet_values sample_dirty) with [7; 6]%Z by (vm_compute; reflexivity).
    reflexivity.
  - vm_compute. tauto.
Defined.
