(* ===== verification/Durability.v ===== *)
(** * Durability of engine operations

    The kernel is code outside the repository: it appears as a transition
    system with the facts about rename(2), fsync(2) and fstat(2) that the move
    engine relies on.  Directory entries have a cached value, which running
    processes see, and a value on disk, which survives a crash.  The theorems
    compose the executions of [Engine] with any such kernel; an in-memory
    kernel shows the interface can be met. *)
From stdpp Require Import base numbers list option strings gmap.
From Stdlib Require Import Strings.Byte ZArith.
From S2P Require Import Prelude FsLinux Engine.

(** ** The kernel interface *)

(** A directory is named by its device and inode numbers. *)
Abbreviation dir_id := (Z * Z)%type.

Class Kernel (W : Type) : Type := {
  kstep : W -> Syscall -> Answer -> W -> Prop;
  dir_of : W -> Z -> option dir_id;
  cached : W -> dir_id -> bytes -> option Z;
  on_disk : W -> dir_id -> bytes -> option Z
}.

Class KernelLaws (W : Type) `{Kernel W} : Prop := {
  (** An open descriptor keeps naming its directory. *)
  kl_fds w c a w' fd D : kstep w c a w' -> dir_of w fd = Some D -> dir_of w' fd = Some D;
  (** Calls that fail, or that are not directory operations, change no entry. *)
  kl_unchanged w c a w' D n :
    kstep w c a w' -> mutates c && negb (failed a) = false -> cached w' D n = cached w D n;
  (** A successful no-replace rename moves one entry to a free name. *)
  kl_rename w d1 n1 d2 n2 a w' :
    kstep w (SysRenameat2 d1 n1 d2 n2 RENAME_NOREPLACE) a w' -> failed a = false ->
    exists D1 D2 i, dir_of w d1 = Some D1 /\ dir_of w d2 = Some D2 /\
      cached w D1 n1 = Some i /\ cached w D2 n2 = None /\
      cached w' D2 n2 = Some i /\ cached w' D1 n1 = None /\
      forall D n, (D, n) <> (D1, n1) -> (D, n) <> (D2, n2) -> cached w' D n = cached w D n;
  (** A successful unlink removes one entry. *)
  kl_unlink w d n flags a w' :
    kstep w (SysUnlinkat d n flags) a w' -> failed a = false ->
    exists D, dir_of w d = Some D /\ cached w' D n = None /\
      forall D' n', (D', n') <> (D, n) -> cached w' D' n' = cached w D' n';
  (** After a successful fsync of a directory its entries are on disk. *)
  kl_fsync w fd a w' D n :
    kstep w (SysFsync fd) a w' -> failed a = false -> dir_of w fd = Some D ->
    on_disk w' D n = cached w' D n;
  (** The disk changes only by writing back cached entries. *)
  kl_writeback w c a w' D n :
    kstep w c a w' ->
    on_disk w' D n = on_disk w D n \/ on_disk w' D n = cached w D n \/ on_disk w' D n = cached w' D n;
  (** fstat reports the identity of an open directory. *)
  kl_fstat w fd a w' st D :
    kstep w (SysFstat fd) a w' -> check_stat a = Ok st -> dir_of w fd = Some D ->
    D = (st_dev st, st_ino st)
}.

(** The states a kernel passes through while answering a trace. *)
Inductive kruns {W : Type} `{Kernel W} : W -> list event -> W -> Prop :=
| kruns_nil w : kruns w [] w
| kruns_cons w c a w1 tr w2 : kstep w c a w1 -> kruns w1 tr w2 -> kruns w ((c, a) :: tr) w2.

Section Durability.
Context {W : Type} `{KernelLaws W}.
Implicit Types w : W.

Lemma kruns_app w t1 t2 w2 :
  kruns w (t1 ++ t2) w2 <-> exists w1, kruns w t1 w1 /\ kruns w1 t2 w2.
Proof.
  revert w. induction t1 as [|[c a] t1 IH]; intros w; cbn [app].
  - split; [intros; exists w; split; [constructor|done]|]. intros (w1 & H1 & H2). by inversion H1; subst.
  - split.
    + intros Hr. inversion Hr as [|? ? ? w1 ? ? Hs Hr']; subst. apply IH in Hr' as (w3 & ? & ?).
      exists w3. split; [by econstructor|done].
    + intros (w1 & H1 & H2). inversion H1 as [|? ? ? w3 ? ? Hs Hr']; subst.
      econstructor; [done|]. apply IH. eauto.
Qed.

Lemma kruns_one w c a w2 : kruns w [(c, a)] w2 -> kstep w c a w2.
Proof. intros Hr. inversion Hr as [|? ? ? w1 ? ? Hs Hr']; subst. by inversion Hr'; subst. Qed.

Definition synced w (D : dir_id) : Prop := forall n, on_disk w D n = cached w D n.

(** A run without a successful directory change: entries and descriptors are
    as before, and what was synced stays synced. *)
Lemma quiet_run w tr w' :
  kruns w tr w' -> commits tr = 0%nat ->
  (forall D n, cached w' D n = cached w D n) /\
  (forall fd D, dir_of w fd = Some D -> dir_of w' fd = Some D) /\
  (forall D, synced w D -> synced w' D).
Proof.
  induction 1 as [w|w c a w1 tr w2 Hs Hr IH]; intros Hc; [done|].
  rewrite commits_cons in Hc.
  destruct (mutates c && negb (failed a)) eqn:Hm; [lia|].
  destruct (IH Hc) as (IH1 & IH2 & IH3).
  assert (Hcache : forall D n, cached w1 D n = cached w D n) by (intros; by eapply kl_unchanged).
  split; [intros; by rewrite IH1|]. split; [eauto using kl_fds|].
  intros D HD. apply IH3. intros n. destruct (kl_writeback _ _ _ _ D n Hs) as [E|[E|E]]; rewrite E.
  - by rewrite HD, Hcache.
  - by rewrite Hcache.
  - done.
Qed.

(** A successful barrier syncs its directory and keeps the entries. *)
Lemma fsync_run w fd a w' D :
  kstep w (SysFsync fd) a w' -> failed a = false -> dir_of w fd = Some D ->
  synced w' D /\ (forall D n, cached w' D n = cached w D n) /\
  (forall fd D, dir_of w fd = Some D -> dir_of w' fd = Some D).
Proof.
  intros Hs Ha HD. split; [intros n; by eapply kl_fsync|].
  split; intros; [by eapply kl_unchanged|by eapply kl_fds].
Qed.

Lemma commits_settled sd dd t : source_settled sd dd t -> commits t = 0%nat \/
  exists t' a, t = t' ++ [(SysFsync sd, a)] /\ failed a = false.
Proof. intros [?|[[_ ->]|(a1 & a2 & s & d & -> & _)]]; [by right|by left|left; done]. Qed.

(** What the barriers after the destination's establish for both directories. *)
Lemma settled_run w t w' sd dd S D :
  kruns w t w' -> source_settled sd dd t -> commits t = 0%nat ->
  dir_of w sd = Some S -> dir_of w dd = Some D -> synced w D ->
  (forall D n, cached w' D n = cached w D n) /\ synced w' D /\ synced w' S.
Proof.
  intros Hr Hs Hc HS HD Hsync. destruct (quiet_run _ _ _ Hr Hc) as (H1 & H2 & H3).
  split; [done|]. split; [by apply H3|].
  destruct Hs as [(t' & a & -> & Ha)|[[-> ->]|(a1 & a2 & s & d & -> & E1 & E2 & Ed & Ei)]].
  - rewrite commits_app in Hc. apply kruns_app in Hr as (w1 & Hr1 & Hr2%kruns_one).
    destruct (quiet_run _ _ _ Hr1) as (_ & H5 & _); [lia|].
    destruct (fsync_run _ _ _ _ S Hr2 Ha) as [Hsy _]; [by apply H5|done].
  - rewrite HS in HD. injection HD as ->. by apply H3.
  - inversion Hr as [|? ? ? w1 ? ? Hs1 Hr1]; subst. apply kruns_one in Hr1.
    pose proof (kl_fstat _ _ _ _ _ _ Hs1 E1 HS) as ->.
    pose proof (kl_fds _ _ _ _ dd _ Hs1 HD) as HD1.
    pose proof (kl_fstat _ _ _ _ _ _ Hr1 E2 HD1) as ->. rewrite Ed, Ei. by apply H3.
Qed.

(** C1: a strict move that reports success is durable, and one that reports
    no commit changed nothing.  After success the object that was at the source
    is on disk at the destination name and gone from the source name, in both
    the cached and the on-disk view, and no other entry was touched; after a
    failure other than an unknown outcome every entry is as before. *)
Theorem strict_move_durable {T} sd sn dd dn ident (after : option MovedObject -> io (result T IoError))
    tr r w w' S D :
  quiet after -> exec (move_noreplace sd sn dd dn (mkMoveOptions ident Strict) after) tr r ->
  kruns w tr w' -> dir_of w sd = Some S -> dir_of w dd = Some D ->
  match r with
  | Ok _ =>
      exists i, cached w S sn = Some i /\ cached w D dn = None /\
        on_disk w' D dn = Some i /\ on_disk w' S sn = None /\
        cached w' D dn = Some i /\ cached w' S sn = None /\
        forall E n, (E, n) <> (S, sn) -> (E, n) <> (D, dn) -> cached w' E n = cached w E n
  | Err f => MoveFailure_is_outcome_unknown f = false -> forall E n, cached w' E n = cached w E n
  end.
Proof.
  intros Hq He Hr HS HD. pose proof (move_noreplace_commits _ _ _ _ _ _ _ _ Hq He) as Hc.
  destruct r as [out|f].
  - apply strict_move_trace in He as (a0 & t1 & a1 & t2 & -> & Ha0 & Hc1 & Ha1 & Hset); [|done].
    assert (Hc2 : commits t2 = 0%nat).
    { rewrite commits_cons, commits_app, commits_cons, Ha0, Ha1 in Hc.
      cbn in Hc. lia. }
    inversion Hr as [|? ? ? w1 ? ? Hs1 Hr1]; subst.
    apply kruns_app in Hr1 as (w2 & Hr1 & Hr2). inversion Hr2 as [|? ? ? w3 ? ? Hs3 Hr3]; subst.
    destruct (kl_rename _ _ _ _ _ _ _ Hs1 Ha0) as (S' & D' & i & HS' & HD' & Hi & Hn & Hd & Hgone & Hframe).
    rewrite HS in HS'. rewrite HD in HD'. injection HS' as <-. injection HD' as <-.
    destruct (quiet_run _ _ _ Hr1 Hc1) as (Q1 & Q2 & _).
    assert (Hfd2 : forall fd E, dir_of w fd = Some E -> dir_of w2 fd = Some E)
      by (intros; eapply Q2, kl_fds; eauto).
    destruct (fsync_run _ _ _ _ D Hs3 Ha1) as (Y1 & Y2 & Y3); [by apply Hfd2|].
    destruct (settled_run _ _ _ _ _ S D Hr3 Hset Hc2) as (Z1 & Z2 & Z3); [by auto..|].
    assert (Hcache : forall E n, cached w' E n = cached w1 E n) by (intros; by rewrite Z1, Y2, Q1).
    exists i. rewrite Z2, Z3, !Hcache. split; [done|]. split; [done|]. split; [done|]. split; [done|].
    split; [done|]. split; [done|]. intros E n H1 H2. rewrite Hcache. by apply Hframe.
  - intros Hf. cbn in Hc. rewrite Hf in Hc. by apply (quiet_run _ _ _ Hr Hc).
Qed.

End Durability.

(** ** An in-memory kernel *)

Record MemFs : Type := mkMemFs {
  m_fds : Z -> option dir_id;
  m_cache : dir_id -> bytes -> option Z;
  m_disk : dir_id -> bytes -> option Z
}.

Definition mem_step (w : MemFs) (c : Syscall) (a : Answer) (w' : MemFs) : Prop :=
  if failed a then w' = w
  else
    match c with
    | SysFsync fd =>
        exists D, m_fds w fd = Some D /\
          w' = mkMemFs (m_fds w) (m_cache w)
                 (fun E n => if decide (E = D) then m_cache w E n else m_disk w E n)
    | SysRenameat2 d1 n1 d2 n2 _ =>
        exists D1 D2 i, m_fds w d1 = Some D1 /\ m_fds w d2 = Some D2 /\
          m_cache w D1 n1 = Some i /\ m_cache w D2 n2 = None /\
          w' = mkMemFs (m_fds w)
                 (fun E n => if decide ((E, n) = (D2, n2)) then Some i
                             else if decide ((E, n) = (D1, n1)) then None else m_cache w E n)
                 (m_disk w)
    | SysUnlinkat d n _ =>
        exists D, m_fds w d = Some D /\
          w' = mkMemFs (m_fds w)
                 (fun E n' => if decide ((E, n') = (D, n)) then None else m_cache w E n') (m_disk w)
    | SysFstat fd =>
        exists st, a = Stats st /\ m_fds w fd = Some (st_dev st, st_ino st) /\ w' = w
    | SysRenameat _ _ _ _ | SysLinkat _ _ _ _ _ => False
    | _ => w' = w
    end.

#[export] Instance mem_kernel : Kernel MemFs := {|
  kstep := mem_step; dir_of := m_fds; cached := m_cache; on_disk := m_disk
|}.

(** Case analysis on one step of the in-memory kernel. *)
Ltac mem_cases Hs c a :=
  cbn [kstep mem_kernel dir_of cached on_disk] in *; unfold mem_step in Hs;
  destruct (failed a) eqn:?; [subst|destruct c]; try done;
  repeat match goal with H : exists _, _ |- _ => destruct H end; split_hyps; subst; try done.

#[export] Instance mem_kernel_laws : KernelLaws MemFs.
Proof.
  split.
  - intros w c a w' fd D Hs HD. mem_cases Hs c a.
  - intros w c a w' D n Hs Hm. mem_cases Hs c a.
  - intros w d1 n1 d2 n2 a w' Hs Ha. cbn [kstep mem_kernel dir_of cached on_disk] in *.
    unfold mem_step in Hs. rewrite Ha in Hs. destruct Hs as (D1 & D2 & i & H1 & H2 & H3 & H4 & ->).
    exists D1, D2, i. cbn. rewrite !decide_True by done.
    rewrite (decide_False (P := (D1, n1) = (D2, n2))) by (intros [= -> ->]; congruence).
    do 5 (split; [done|]). split; [by rewrite decide_True|]. intros D n Hn1 Hn2. by rewrite !decide_False.
  - intros w d n flags a w' Hs Ha. cbn [kstep mem_kernel dir_of cached on_disk] in *.
    unfold mem_step in Hs. rewrite Ha in Hs. destruct Hs as (D & H1 & ->).
    exists D. cbn. rewrite decide_True by done. do 2 (split; [done|]). intros D' n' Hn. by rewrite decide_False.
  - intros w fd a w' D n Hs Ha HD. cbn [kstep mem_kernel dir_of cached on_disk] in *.
    unfold mem_step in Hs. rewrite Ha in Hs. destruct Hs as (D' & H1 & ->). rewrite HD in H1.
    injection H1 as <-. cbn. by rewrite decide_True.
  - intros w c a w' D n Hs. mem_cases Hs c a; cbn; auto. case_decide; auto.
  - intros w fd a w' st D Hs Hst HD. cbn [kstep mem_kernel dir_of] in *. unfold mem_step in Hs.
    destruct a; cbn in Hst; [done|..]; cbn [failed] in Hs; destruct Hs as (st1 & E & H1 & ->);
      simplify_eq. done.
Qed.

Definition sample_fs : MemFs :=
  mkMemFs (fun fd => if decide (fd = 3%Z) then Some (1, 10)%Z else if decide (fd = 4%Z) then Some (1, 20)%Z else None)
    (fun D n => if decide ((D, n) = ((1, 10)%Z, [x61])) then Some 99%Z else None)
    (fun D n => if decide ((D, n) = ((1, 10)%Z, [x61])) then Some 99%Z else None).

Lemma strict_move_durable_witness :
  exists w', kruns sample_fs sample_move_trace w' /\
    exists i, cached sample_fs (1, 10)%Z [x61] = Some i /\ cached sample_fs (1, 20)%Z [x62] = None /\
      on_disk w' (1, 20)%Z [x62] = Some i /\ on_disk w' (1, 10)%Z [x61] = None /\
      cached w' (1, 20)%Z [x62] = Some i /\ cached w' (1, 10)%Z [x61] = None /\
      forall E n, (E, n) <> ((1, 10)%Z, [x61]) -> (E, n) <> ((1, 20)%Z, [x62]) ->
        cached w' E n = cached sample_fs E n.
Proof.
  assert (Hr : exists w', kruns sample_fs sample_move_trace w').
  { eexists. unfold sample_move_trace.
    eapply kruns_cons; [exists (1, 10)%Z, (1, 20)%Z, 99%Z; repeat split|].
    eapply kruns_cons; [exists (1, 20)%Z; repeat split|].
    eapply kruns_cons; [exists (1, 10)%Z; repeat split|]. apply kruns_nil. }
  destruct Hr as [w' Hr]. exists w'. split; [exact Hr|].
  apply (strict_move_durable 3 [x61] 4 [x62] None (fun _ => Ret (Ok tt)) sample_move_trace (Ok tt)
    sample_fs w' (1, 10)%Z (1, 20)%Z (quiet_ret tt)); [|exact Hr|reflexivity|reflexivity].
  vm_compute. tauto.
Defined.

Section Unlink.
Context {W : Type} `{KernelLaws W}.

(** A verified unlink that reports success removed exactly the named
    entry and the removal is on disk; one that reports no commit, or a missing
    source, changed nothing. *)
Theorem unlink_durable d n tr r (w w' : W) D :
  exec (unlink_verified d n) tr r -> kruns w tr w' -> dir_of w d = Some D ->
  match r with
  | Ok _ => on_disk w' D n = None /\ cached w' D n = None /\
      forall E m, (E, m) <> (D, n) -> cached w' E m = cached w E m
  | Err f => UnlinkFailure_is_outcome_unknown f = false -> forall E m, cached w' E m = cached w E m
  end.
Proof.
  intros He Hr HD. pose proof (unlink_verified_commits _ _ _ _ He) as Hc. destruct r as [u|f].
  - apply exec_try in He as [(e & _ & ?)|(t1 & t2 & x & -> & H1 & H2)]; [done|].
    apply exec_map_err_ok in H1. destruct x. apply exec_unlinkat, one_call_ok in H1 as (a1 & -> & Ha1).
    apply exec_map_err_ok, fsync_ok in H2 as (a2 & -> & Ha2).
    inversion Hr as [|? ? ? w1 ? ? Hs1 Hr1]; subst. apply kruns_one in Hr1.
    destruct (kl_unlink _ _ _ _ _ _ Hs1 Ha1) as (D' & HD' & Hgone & Hframe).
    rewrite HD in HD'. injection HD' as <-.
    destruct (fsync_run _ _ _ _ D Hr1 Ha2) as (Hsy & Hcache & _); [by eapply kl_fds|].
    rewrite Hsy, Hcache. split; [done|]. split; [done|]. intros E m Hne. rewrite Hcache. by apply Hframe.
  - intros Hf. cbn in Hc. rewrite Hf in Hc. by apply (quiet_run _ _ _ Hr Hc).
Qed.

End Unlink.

Definition sample_unlink_trace : list event :=
  [(SysUnlinkat 3 [x61] 0, Returns 0); (SysFsync 3, Returns 0)].

Lemma unlink_durable_witness :
  exists w', kruns sample_fs sample_unlink_trace w' /\
    on_disk w' (1, 10)%Z [x61] = None /\ cached w' (1, 10)%Z [x61] = None /\
    forall E m, (E, m) <> ((1, 10)%Z, [x61]) -> cached w' E m = cached sample_fs E m.
Proof.
  assert (Hr : exists w', kruns sample_fs sample_unlink_trace w').
  { eexists. unfold sample_unlink_trace.
    eapply kruns_cons; [exists (1, 10)%Z; repeat split|].
    eapply kruns_cons; [exists (1, 10)%Z; repeat split|]. apply kruns_nil. }
  destruct Hr as [w' Hr]. exists w'. split; [exact Hr|].
  apply (unlink_durable 3 [x61] sample_unlink_trace (Ok tt) sample_fs w' (1, 10)%Z);
    [|exact Hr|reflexivity]. vm_compute. tauto.
Defined.
