(* ===== verification/Logic.v ===== *)
(** * A program logic for system-call programs

    Two judgements on the programs of [FsLinux].  [wp ok p Q]: in every
    execution of [p] whose kernel answers satisfy [ok], the trace and the
    result satisfy [Q].  [counts sel p Q]: in every execution, the number of
    successful calls that [sel] selects, together with the result, satisfies
    [Q].  The rules follow the sequencing combinators, so a handler is verified
    by walking through it; the tactic [walk] does that, and the hint databases
    [silent] and [counts] hold the specifications of the operations met on the
    way. *)
From stdpp Require Import base numbers list option strings.
From Stdlib Require Import Strings.Byte ZArith.
From S2P Require Import Prelude FsLinux FsRead Engine.
Open Scope list_scope.

(** A run against a concrete kernel is an execution. *)
Lemma exec_run {S A} (kernel : S -> Syscall -> Answer * S) (p : io A) s :
  exec p (run kernel s p).1.1 (run kernel s p).1.2.
Proof. pose proof (run_exec kernel p s) as H. by destruct (run kernel s p) as [[tr a] s']. Qed.
Lemma exec_run_pair {S A B} (kernel : S -> Syscall -> Answer * S) (p : io (A * B)) s :
  exec p (run kernel s p).1.1 ((run kernel s p).1.2.1, (run kernel s p).1.2.2).
Proof. rewrite <- surjective_pairing. apply exec_run. Qed.

(** ** Executions under assumptions on the kernel *)

Definition wp {A : Type} (ok : event -> Prop) (p : io A) (Q : list event -> A -> Prop) : Prop :=
  forall tr a, exec p tr a -> Forall ok tr -> Q tr a.

Section Wp.
Context {ok : event -> Prop}.

Lemma wp_ret {A} (a : A) (Q : list event -> A -> Prop) : Q [] a -> wp ok (Ret a) Q.
Proof. by intros ? tr b [-> ->]%exec_ret _. Qed.

Lemma wp_sys {A} c (k : Answer -> io A) (Q : list event -> A -> Prop) :
  (forall r, ok (c, r) -> wp ok (k r) (fun tr => Q ((c, r) :: tr))) -> wp ok (Sys c k) Q.
Proof.
  intros Hk [|[c' r] tr] a; [done|]. intros [-> Ha] [Hr Htr]%Forall_cons. by apply Hk.
Qed.

Lemma wp_bind {A B} (m : io A) (f : A -> io B) (Q : list event -> B -> Prop) :
  wp ok m (fun t1 a => wp ok (f a) (fun t2 => Q (t1 ++ t2))) -> wp ok (io_bind m f) Q.
Proof.
  intros H tr b (t1 & t2 & a & -> & H1 & H2)%exec_bind [F1 F2]%Forall_app.
  exact (H t1 a H1 F1 t2 b H2 F2).
Qed.

Lemma wp_try {A B E} (m : io (result A E)) (f : A -> io (result B E)) (Q : list event -> result B E -> Prop) :
  wp ok m (fun t1 r => match r with
    | Ok a => wp ok (f a) (fun t2 => Q (t1 ++ t2))
    | Err e => Q t1 (Err e)
    end) -> wp ok (io_try m f) Q.
Proof.
  intros H tr b Hb F. apply exec_try in Hb as [(e & H1 & ->)|(t1 & t2 & a & -> & H1 & H2)].
  - exact (H tr (Err e) H1 F).
  - apply Forall_app in F as [F1 F2]. exact (H t1 (Ok a) H1 F1 t2 b H2 F2).
Qed.

Lemma wp_map_err {A E F} (f : E -> F) (m : io (result A E)) (Q : list event -> result A F -> Prop) :
  wp ok m (fun tr r => Q tr (map_err f r)) -> wp ok (io_map_err f m) Q.
Proof. intros H tr b (r & Hr & ->)%exec_map_err. by apply H. Qed.

Lemma wp_mono {A} (p : io A) (Q R : list event -> A -> Prop) :
  wp ok p Q -> (forall tr a, Q tr a -> R tr a) -> wp ok p R.
Proof. intros H HQ tr a Ha F. apply HQ, (H tr a Ha F). Qed.

End Wp.

(** ** Counting the calls that took effect *)

Definition took_effect (sel : Syscall -> bool) (ev : event) : bool := sel ev.1 && negb (failed ev.2).
Definition tally (sel : Syscall -> bool) (tr : list event) : nat :=
  length (filter (fun ev => took_effect sel ev = true) tr).

Definition counts {A : Type} (sel : Syscall -> bool) (p : io A) (Q : nat -> A -> Prop) : Prop :=
  forall tr a, exec p tr a -> Q (tally sel tr) a.
(** None of the selected calls can take effect. *)
Definition silent {A : Type} (sel : Syscall -> bool) (p : io A) : Prop :=
  counts sel p (fun n _ => n = 0%nat).

Section Counts.
Context {sel : Syscall -> bool}.

Lemma tally_app t1 t2 : tally sel (t1 ++ t2) = (tally sel t1 + tally sel t2)%nat.
Proof. unfold tally. by rewrite filter_app, length_app. Qed.

Lemma tally_cons c r tr :
  tally sel ((c, r) :: tr) = ((if sel c && negb (failed r) then 1 else 0) + tally sel tr)%nat.
Proof.
  change ((c, r) :: tr) with ([(c, r)] ++ tr). rewrite tally_app. f_equal.
  unfold tally. rewrite filter_cons. unfold took_effect. cbn [fst snd].
  case_decide as H; by destruct (sel c && negb (failed r)).
Qed.

Lemma counts_ret {A} (a : A) (Q : nat -> A -> Prop) : Q 0%nat a -> counts sel (Ret a) Q.
Proof. by intros ? tr b [-> ->]%exec_ret. Qed.

Lemma counts_sys {A} c (k : Answer -> io A) (Q : nat -> A -> Prop) :
  (forall r, counts sel (k r) (fun n => Q ((if sel c && negb (failed r) then 1 else 0) + n)%nat)) ->
  counts sel (Sys c k) Q.
Proof. intros Hk [|[c' r] tr] a; [done|]. intros [-> Ha]. rewrite tally_cons. by apply Hk. Qed.

Lemma counts_bind {A B} (m : io A) (f : A -> io B) (Q : nat -> B -> Prop) :
  counts sel m (fun n a => counts sel (f a) (fun k => Q (n + k)%nat)) -> counts sel (io_bind m f) Q.
Proof.
  intros H tr b (t1 & t2 & a & -> & H1 & H2)%exec_bind. rewrite tally_app.
  exact (H t1 a H1 t2 b H2).
Qed.

Lemma counts_try {A B E} (m : io (result A E)) (f : A -> io (result B E)) (Q : nat -> result B E -> Prop) :
  counts sel m (fun n r => match r with
    | Ok a => counts sel (f a) (fun k => Q (n + k)%nat)
    | Err e => Q n (Err e)
    end) -> counts sel (io_try m f) Q.
Proof.
  intros H tr b Hb. apply exec_try in Hb as [(e & H1 & ->)|(t1 & t2 & a & -> & H1 & H2)].
  - exact (H tr (Err e) H1).
  - rewrite tally_app. exact (H t1 (Ok a) H1 t2 b H2).
Qed.

Lemma counts_map_err {A E F} (f : E -> F) (m : io (result A E)) (Q : nat -> result A F -> Prop) :
  counts sel m (fun n r => Q n (map_err f r)) -> counts sel (io_map_err f m) Q.
Proof. intros H tr b (r & Hr & ->)%exec_map_err. by apply H. Qed.

Lemma counts_lift {A E} (r : result A E) (Q : nat -> result A E -> Prop) :
  Q 0%nat r -> counts sel (lift r) Q.
Proof. apply counts_ret. Qed.

Lemma counts_mono {A} (p : io A) (Q R : nat -> A -> Prop) :
  counts sel p Q -> (forall n a, Q n a -> R n a) -> counts sel p R.
Proof. intros H HQ tr a Ha. apply HQ, (H tr a Ha). Qed.

Lemma counts_silent {A} (p : io A) (Q : nat -> A -> Prop) :
  silent sel p -> (forall a, Q 0%nat a) -> counts sel p Q.
Proof. intros H HQ. eapply counts_mono; [exact H|]. intros n a ->. apply HQ. Qed.

Lemma silent_sys {A} c (k : Answer -> io A) :
  sel c = false -> (forall r, silent sel (k r)) -> silent sel (Sys c k).
Proof. intros Hc Hk. apply counts_sys. intros r. rewrite Hc. apply Hk. Qed.

Lemma silent_ret {A} (a : A) : silent sel (Ret a).
Proof. by apply counts_ret. Qed.

Lemma silent_bind {A B} (m : io A) (f : A -> io B) :
  silent sel m -> (forall a, silent sel (f a)) -> silent sel (io_bind m f).
Proof. intros Hm Hf. apply counts_bind, counts_silent; [done|]. intros a. apply Hf. Qed.

Lemma silent_try {A B E} (m : io (result A E)) (f : A -> io (result B E)) :
  silent sel m -> (forall a, silent sel (f a)) -> silent sel (io_try m f).
Proof. intros Hm Hf. apply counts_try, counts_silent; [done|]. intros [a|e]; [apply Hf|done]. Qed.

Lemma silent_map_err {A E F} (f : E -> F) (m : io (result A E)) :
  silent sel m -> silent sel (io_map_err f m).
Proof. intros Hm. by apply counts_map_err. Qed.

Lemma silent_lift {A E} (r : result A E) : silent sel (lift r).
Proof. by apply counts_ret. Qed.

Lemma silent_syscall c : sel c = false -> silent sel (syscall c).
Proof. intros Hc. apply silent_sys; [done|]. intros r. apply silent_ret. Qed.

End Counts.

(** ** Selectors *)

(** The calls that give a job object its place: the no-replace rename and the
    link of an unnamed file. *)
Definition places (c : Syscall) : bool :=
  match c with SysRenameat2 _ _ _ _ _ | SysLinkat _ _ _ _ _ => true | _ => false end.
(** Placements under any other name. *)
Definition places_other (name : bytes) (c : Syscall) : bool :=
  match c with
  | SysRenameat2 _ _ _ n _ | SysLinkat _ _ _ n _ => negb (bool_decide (n = name))
  | _ => false
  end.

(** Everything but reading: directory changes, writes and syncs; and the same
    without the syncs. *)
Definition alters (c : Syscall) : bool :=
  mutates c || match c with SysWrite _ _ | SysWritev _ _ | SysPwrite _ _ _ | SysFchmodat _ _ _ => true | _ => false end.
Definition acts (c : Syscall) : bool :=
  alters c || match c with SysFsync _ => true | _ => false end.

(** A selector that ignores reads, one that ignores syncs, one of calls that
    change directories, and one of placements. *)
Class Acting (sel : Syscall -> bool) : Prop := acting c : sel c = true -> acts c = true.
Class Unsynced (sel : Syscall -> bool) : Prop := unsynced fd : sel (SysFsync fd) = false.
Class Changing (sel : Syscall -> bool) : Prop := changing c : sel c = true -> mutates c = true.
Class Placing (sel : Syscall -> bool) : Prop := placing c : sel c = true -> places c = true.
#[export] Instance mutates_changing : Changing mutates.
Proof. by intros c. Qed.
#[export] Instance places_placing : Placing places.
Proof. by intros []. Qed.
#[export] Instance places_other_placing name : Placing (places_other name).
Proof. by intros []. Qed.
#[export] Instance placing_changing sel : Placing sel -> Changing sel.
Proof. intros Hp c Hc%Hp. by destruct c. Qed.

#[export] Instance changing_acting sel : Changing sel -> Acting sel.
Proof. intros Hp c Hc%Hp. unfold acts, alters. by rewrite Hc. Qed.
#[export] Instance changing_unsynced sel : Changing sel -> Unsynced sel.
Proof. intros Hp fd. destruct (sel (SysFsync fd)) eqn:E; [|done]. by apply Hp in E. Qed.
#[export] Instance acts_acting : Acting acts.
Proof. by intros c. Qed.
#[export] Instance alters_acting : Acting alters.
Proof. intros c Hc. unfold acts. by rewrite Hc. Qed.
#[export] Instance alters_unsynced : Unsynced alters.
Proof. done. Qed.

Lemma not_acting {sel} `{!Acting sel} c : acts c = false -> sel c = false.
Proof. intros H. destruct (sel c) eqn:E; [|done]. by rewrite (acting c E) in H. Qed.
Lemma not_changing {sel} `{!Changing sel} c : mutates c = false -> sel c = false.
Proof. intros H. destruct (sel c) eqn:E; [|done]. by rewrite (changing c E) in H. Qed.
Lemma not_placing {sel} `{!Placing sel} c : places c = false -> sel c = false.
Proof. intros H. destruct (sel c) eqn:E; [|done]. by rewrite (placing c E) in H. Qed.

(** A call that the selector cannot select. *)
Ltac unselected :=
  first [ reflexivity | apply not_acting; reflexivity | apply not_changing; reflexivity | apply not_placing; reflexivity ].

Create HintDb silent.
#[export] Hint Resolve silent_ret silent_lift silent_map_err : silent.
#[export] Hint Opaque silent : silent.

(** Prove that a program is silent by following its structure; a call is
    silent when the selector evaluates to false on it. *)
Ltac silent_step :=
  lazymatch goal with
  | |- silent _ (Ret _) => apply silent_ret
  | |- silent _ (lift _) => apply silent_lift
  | |- silent _ (io_try _ _) => apply silent_try; [|intros ?]
  | |- silent _ (io_bind _ _) => apply silent_bind; [|intros ?]
  | |- silent _ (io_map_err _ _) => apply silent_map_err
  | |- silent _ (Sys _ _) => apply silent_sys; [unselected|intros ?]
  | |- silent _ (syscall _) => apply silent_syscall; unselected
  | |- silent _ (match ?x with _ => _ end) => destruct x
  | |- silent _ (let x := _ in _) => cbv zeta
  | |- silent _ _ => solve [auto 2 with silent nocore]
  end.
Ltac silence := intros; repeat silent_step.

(** Walk through a program under [counts]: silent operations are skipped, the
    others are met with their specification from the database [counts]. *)
Create HintDb counts.
Ltac walk_step :=
  lazymatch goal with
  | |- counts _ (Ret _) _ => apply counts_ret
  | |- counts _ (lift _) _ => apply counts_lift
  | |- counts _ (io_try _ _) _ => apply counts_try
  | |- counts _ (io_bind _ _) _ => apply counts_bind
  | |- counts _ (io_map_err _ _) _ => apply counts_map_err
  | |- counts _ (match ?x with _ => _ end) _ => destruct x eqn:?
  | |- counts _ _ _ =>
      first [ apply counts_silent; [solve [auto 2 with silent nocore]|]
            | eapply counts_mono; [solve [eauto 2 with counts nocore]|] ]
  end.

(** ** The wrappers of the filesystem layer *)

Section Wrappers.
Context {sel : Syscall -> bool} `{!Acting sel}.

Lemma silent_call {A} c (k : Answer -> io A) :
  acts c = false -> (forall r, silent sel (k r)) -> silent sel (Sys c k).
Proof. intros H. apply silent_sys, not_acting, H. Qed.

Lemma silent_fsync `{!Unsynced sel} fd : silent sel (fsync fd).
Proof. apply silent_syscall, unsynced. Qed.
Lemma silent_fsync_dir_fd `{!Unsynced sel} fd : silent sel (fsync_dir_fd fd).
Proof. apply silent_fsync. Qed.
Lemma silent_fstat fd : silent sel (fstat fd).
Proof. apply silent_call; [done|]. silence. Qed.
Lemma silent_fstatat d n : silent sel (fstatat d n).
Proof. apply silent_try; [silence|]. intros a. apply silent_call; [done|]. silence. Qed.
Lemma silent_open_directory d n : silent sel (open_directory d n).
Proof. apply silent_try; [silence|]. intros a. apply silent_call; [done|]. silence. Qed.
Lemma silent_open_directory_beneath d p : silent sel (open_directory_beneath d p).
Proof. apply silent_try; [silence|]. intros a. apply silent_call; [done|]. silence. Qed.
Lemma silent_openat d n flags mode :
  Z.land flags O_CREAT = 0%Z -> silent sel (openat d n flags mode).
Proof.
  intros Hf. apply silent_try; [silence|]. intros a. apply silent_call; [|silence]. unfold acts, alters, mutates. by rewrite Hf.
Qed.
Lemma silent_dup fd : silent sel (try_clone_to_owned fd).
Proof. apply silent_call; [done|]. silence. Qed.
Lemma silent_pread fd len off : silent sel (pread fd len off).
Proof. apply silent_call; [done|]. silence. Qed.
Lemma silent_pread_exact_loop fuel fd rem cur : silent sel (pread_exact_loop fuel fd rem cur).
Proof.
  revert rem cur. induction fuel as [|fuel IH]; intros [|rem] cur; cbn [pread_exact_loop]; try apply silent_ret.
  apply silent_try; [apply silent_pread|]. intros data. destruct (_ =? _)%nat; [apply silent_ret|].
  apply silent_try; [apply IH|]. silence.
Qed.
Lemma silent_pread_exact fd len off : silent sel (pread_exact fd len off).
Proof. apply silent_pread_exact_loop. Qed.
Lemma silent_ofd_lock ty fd : silent sel (try_ofd_lock ty fd).
Proof. apply silent_call; [done|]. silence. Qed.
Lemma silent_boottime : silent sel clock_boottime_ns.
Proof. apply silent_call; [done|]. silence. Qed.
Lemma silent_realtime : silent sel clock_realtime_ns.
Proof. apply silent_call; [done|]. silence. Qed.
Lemma silent_monotonic : silent sel clock_monotonic_ns.
Proof. apply silent_call; [done|]. silence. Qed.
Lemma silent_random : silent sel random_128bit.
Proof. apply silent_call; [done|]. silence. Qed.

End Wrappers.

#[export] Hint Resolve silent_fsync silent_fsync_dir_fd silent_fstat silent_fstatat
  silent_open_directory silent_open_directory_beneath silent_dup silent_pread silent_pread_exact
  silent_boottime silent_realtime silent_monotonic silent_random : silent.
#[export] Hint Extern 1 (silent _ (try_ofd_write_lock _)) => apply silent_ofd_lock : silent.
#[export] Hint Extern 1 (silent _ (try_ofd_read_lock _)) => apply silent_ofd_lock : silent.
#[export] Hint Extern 2 (silent _ (openat _ _ _ _)) => apply silent_openat; reflexivity : silent.
#[export] Hint Extern 2 (Changing _) => typeclasses eauto : silent.
#[export] Hint Extern 2 (Acting _) => typeclasses eauto : silent.
#[export] Hint Extern 2 (Unsynced _) => typeclasses eauto : silent.

(** Directories, temporary files, removals and replacements place no job. *)
Section PlacingWrappers.
Context {sel : Syscall -> bool} `{!Placing sel}.

Lemma silent_openat_places d n flags mode : silent sel (openat d n flags mode).
Proof. unfold openat. silence. Qed.
Lemma silent_create_exclusive d n mode : silent sel (create_exclusive d n mode).
Proof. apply silent_openat_places. Qed.
Lemma silent_mkdirat d n mode : silent sel (mkdirat d n mode).
Proof. unfold mkdirat. silence. Qed.
Lemma silent_mkdirat_eexist_ok d n mode : silent sel (mkdirat_eexist_ok d n mode).
Proof. apply silent_bind; [apply silent_mkdirat|]. silence. Qed.
Lemma silent_unlinkat d n : silent sel (unlinkat d n).
Proof. unfold unlinkat. silence. Qed.
Lemma silent_renameat d1 n1 d2 n2 : silent sel (renameat d1 n1 d2 n2).
Proof. unfold renameat. silence. Qed.
Lemma silent_open_tmpfile d : silent sel (open_tmpfile d).
Proof. unfold open_tmpfile. silence. Qed.

End PlacingWrappers.
#[export] Hint Resolve silent_openat_places silent_create_exclusive silent_mkdirat silent_mkdirat_eexist_ok
  silent_unlinkat silent_renameat silent_open_tmpfile : silent.
#[export] Hint Extern 2 (Placing _) => typeclasses eauto : silent.

(** ** The engine *)

Section EngineCounts.
Context {sel : Syscall -> bool} `{!Changing sel}.

Lemma silent_same_directory s d : silent sel (same_directory s d).
Proof. unfold same_directory. silence. Qed.
Lemma silent_authenticate d n id : silent sel (authenticate_destination d n id).
Proof. unfold authenticate_destination. silence. Qed.
End EngineCounts.
#[export] Hint Resolve silent_same_directory silent_authenticate : silent.

Section EnginePlacing.
Context {sel : Syscall -> bool} `{!Placing sel}.

Lemma silent_replace sd sn dd dn ex : silent sel (replace_verified sd sn dd dn ex).
Proof. unfold replace_verified, check_replace_destination. silence. Qed.
Lemma silent_unlink_verified d n : silent sel (unlink_verified d n).
Proof. unfold unlink_verified. silence. Qed.

(** A call with checked names counts when it is selected and succeeds. *)
Lemma one_call_counts c (p : io (result unit IoError)) :
  (forall tr r, exec p tr r -> one_call c tr r) ->
  counts sel p (fun n r => n = if sel c && is_ok r then 1%nat else 0%nat).
Proof.
  intros Hp tr r H%Hp. destruct H as [(-> & m & ->)|[(e & -> & ->)|(a & -> & -> & Ha)]].
  - by rewrite andb_false_r.
  - rewrite tally_cons. cbn. by rewrite !andb_false_r.
  - rewrite tally_cons, Ha. cbn. by destruct (sel c).
Qed.

(** A move places its object exactly when it succeeds or its outcome is unknown. *)
Lemma move_places {T} sd sn dd dn opts (after : option MovedObject -> io (result T IoError)) :
  (forall m, silent sel (after m)) ->
  counts sel (move_noreplace sd sn dd dn opts after) (fun n r =>
    n = if sel (SysRenameat2 sd sn dd dn RENAME_NOREPLACE) then move_commits r else 0%nat).
Proof.
  intros Hq. unfold move_noreplace.
  apply counts_try, counts_map_err. eapply counts_mono; [apply one_call_counts, exec_renameat2|].
  intros n [u|e] ->; cbn [map_err is_ok]; rewrite ?andb_true_r, ?andb_false_r.
  2:{ cbn. rewrite classify_rename_committed. by case_match. }
  apply counts_try. intros t1 moved Hm.
  rewrite (silent_authenticate _ _ _ _ _ Hm). destruct moved as [moved|f].
  2:{ apply authenticate_unknown in Hm. cbn. rewrite Hm. by case_match. }
  apply counts_try, counts_map_err, counts_silent; [apply Hq|]. intros [out|e]; [|cbn; by case_match].
  intros t2 b Hb. cbn [map_err]. pose proof (barriers_outcome _ _ _ _ _ _ Hb) as [_ Hr].
  assert (tally sel t2 = 0%nat) as ->.
  { revert Hb. generalize t2 b. change (silent sel (move_barriers sd dd opts out)). unfold move_barriers. silence. }
  destruct Hr as [->|(f & -> & Hf)]; cbn; rewrite ?Hf; by case_match.
Qed.

(** The calls that link an unnamed file under a name. *)
Definition link_calls (fd dd : Z) (dn : bytes) : list Syscall :=
  [SysLinkat fd [] dd dn AT_EMPTY_PATH;
   SysLinkat AT_FDCWD (c_string (proc_self_fd_path_raw (wrap32 fd))) dd dn AT_SYMLINK_FOLLOW].

Lemma attempt_places fd dd dn (proc selected : bool) :
  Forall (fun c => sel c = selected) (link_calls fd dd dn) ->
  counts sel (if proc then try_proc_tmpfile_link fd dd dn else try_direct_tmpfile_link fd dd dn)
    (fun n r => n = (if selected then attempt_commits r else 0%nat) /\
       match r with Err (PublishOutcomeUnknown _ _) => False | _ => True end).
Proof.
  intros Hs. apply Forall_cons in Hs as [Hd Hs]. apply Forall_cons in Hs as [Hp _].
  destruct proc; [unfold try_proc_tmpfile_link|unfold try_direct_tmpfile_link]; apply counts_bind.
  - eapply counts_mono; [apply one_call_counts, exec_linkat_proc|]. rewrite Hp.
    intros n [u|e] ->; cbn [is_ok]; rewrite ?andb_true_r, ?andb_false_r; [by apply counts_ret; destruct selected|].
    destruct (is_already_exists_io_kind _); [by apply counts_ret; destruct selected|].
    destruct (os_error_in [ENOENT] e).
    + apply counts_try, counts_map_err, counts_silent; [auto with silent|]. intros [st|e'];
        [|by destruct selected]. cbn [map_err]. case_match; apply counts_ret; by destruct selected.
    + destruct (is_proc_link_unsupported e); apply counts_ret; by destruct selected.
  - eapply counts_mono; [apply one_call_counts, exec_linkat_empty|]. rewrite Hd.
    intros n [u|e] ->; cbn [is_ok]; rewrite ?andb_true_r, ?andb_false_r; apply counts_ret; [by destruct selected|].
    repeat case_match; by destruct selected.
Qed.

Lemma link_places fd dd dn pref (selected : bool) :
  Forall (fun c => sel c = selected) (link_calls fd dd dn) ->
  counts sel (link_tmpfile_noreplace fd dd dn pref) (fun n r =>
    n = (match r with Ok (Some _) => if selected then 1 else 0 | _ => 0 end)%nat /\
    match r with Err (PublishOutcomeUnknown _ _) => False | _ => True end).
Proof.
  intros Hs. unfold link_tmpfile_noreplace. cbv zeta.
  set (pf := match pref with Some ProcSelfFd => true | _ => false end). clearbody pf.
  apply counts_try. eapply counts_mono; [apply attempt_places, Hs|]. intros n [[m| |]|f] [-> Hf].
  - apply counts_ret. by destruct selected.
  - apply counts_try.
    replace (if pf then try_direct_tmpfile_link fd dd dn else _)
      with (if negb pf then try_proc_tmpfile_link fd dd dn else try_direct_tmpfile_link fd dd dn) by (by destruct pf).
    eapply counts_mono; [apply attempt_places, Hs|]. intros k [[m| |]|f] [-> Hf'].
    1-3: apply counts_ret; by destruct selected.
    destruct f; try done; by destruct selected.
  - apply counts_ret. by destruct selected.
  - destruct f; try done; by destruct selected.
Qed.

(** A publication places its file exactly when it is published or its outcome
    is unknown. *)
Lemma publish_places fd dd dn pref sync (selected : bool) :
  Forall (fun c => sel c = selected) (link_calls fd dd dn) ->
  counts sel (publish_tmpfile_noreplace_impl fd dd dn pref sync)
    (fun n r => n = if selected then publish_commits r else 0%nat).
Proof.
  intros Hs. unfold publish_tmpfile_noreplace_impl.
  apply counts_try, counts_map_err, counts_silent; [auto with silent|]. intros [st|e]; [|by destruct selected].
  apply counts_try, counts_lift. destruct (unnamed_file_identity st) as [id|e]; [|by destruct selected].
  apply counts_try, counts_map_err, counts_silent; [auto with silent|]. intros [u|e]; [|by destruct selected].
  apply counts_try. eapply counts_mono; [apply link_places, Hs|]. intros n [[m|]|f] [-> Hf].
  - apply counts_try. destruct sync.
    + apply counts_map_err, counts_silent; [auto with silent|].
      intros [v|e]; [apply counts_ret|]; by destruct selected.
    + apply counts_ret. apply counts_ret. by destruct selected.
  - apply counts_ret. by destruct selected.
  - destruct f; try done; by destruct selected.
Qed.

End EnginePlacing.
#[export] Hint Resolve silent_replace silent_unlink_verified : silent.
