(* ===== verification/FsDir.v ===== *)
(** * steadq-fs-linux: directory streams, waits and probes

    Models the directory enumeration of [crates/steadq-fs-linux/src/lib.rs]
    ([DirectoryStream] and the bounded readers built on it), the remaining
    wrappers and capability probes of that file, and the wake hints of
    [crates/steadq-fs-linux/src/inotify.rs].

    A directory is read until the kernel reports its end, so the readers take
    fuel; [None] means it ran out.  One unit of fuel pays for one entry:
    [enumeration_exact] shows that running out takes as many entries as there
    was fuel. *)
From stdpp Require Import base numbers list option strings.
From Stdlib Require Import Strings.Byte ZArith.
From S2P Require Import Prelude Names FsLinux FsRead Engine Logic.
Open Scope string_scope.
Open Scope list_scope.

Definition cstr_from_bytes (bs : bytes) : result bytes IoError := CPath_from_bytes bs "path contains NUL byte".

(** ** Entry names *)

Definition is_ascii (name : bytes) : bool := forallb (fun b => (b2z b <? 128)%Z) name.
(** [DirEntryName::as_ascii_str]: ASCII bytes are valid UTF-8. *)
Definition as_ascii_str (name : bytes) : option bytes := if is_ascii name then Some name else None.
Definition is_dot (name : bytes) : bool := bool_decide (name = lit ".") || bool_decide (name = lit "..").

(** ** Streams *)

Record DirectoryStream : Type := mkDirectoryStream { ds_dir : Z; ds_position : Z }.

Definition reopen_directory (dir_fd : Z) : io (result Z IoError) := open_directory dir_fd (lit ".").

Definition DirectoryStream_from_owned_at (fd position : Z) : io (result DirectoryStream IoError) :=
  let!? _ := syscall (SysFdopendir fd) in
  Ret (Ok (mkDirectoryStream fd position)).
Definition DirectoryStream_from_owned (fd : Z) : io (result DirectoryStream IoError) :=
  DirectoryStream_from_owned_at fd 0.
Definition DirectoryStream_open (dir_fd : Z) : io (result DirectoryStream IoError) :=
  let!? fd := reopen_directory dir_fd in
  DirectoryStream_from_owned fd.
Definition DirectoryStream_open_at (dir_fd position : Z) : io (result DirectoryStream IoError) :=
  let!? fd := reopen_directory dir_fd in
  let!? _ := syscall (SysLseek fd position) in
  DirectoryStream_from_owned_at fd position.

(** One [readdir]: a null result with errno zero is the end. *)
Definition next_raw (s : DirectoryStream) : io (result (option bytes) IoError * DirectoryStream) :=
  Sys (SysReaddir (ds_dir s)) (fun r =>
    Ret (match r with
         | Fails e => (Err (OsError e), s)
         | Entry name off => (Ok (Some name), mkDirectoryStream (ds_dir s) off)
         | _ => (Ok None, s)
         end)).

Fixpoint next_entry (fuel : nat) (s : DirectoryStream)
  : io (option (result (option bytes) IoError) * DirectoryStream) :=
  match fuel with
  | O => Ret (None, s)
  | S fuel' =>
      let! (r, s) := next_raw s in
      match r with
      | Ok (Some name) => if is_dot name then next_entry fuel' s else Ret (Some (Ok (Some name)), s)
      | r => Ret (Some r, s)
      end
  end.

(** ** Bounded enumeration *)

Record DirectoryEnumerationProgress : Type := mkProgress { entries_read : Z; name_bytes_read : Z }.
Definition no_progress : DirectoryEnumerationProgress := mkProgress 0 0.
Record DirectoryEnumeration : Type := mkDirectoryEnumeration {
  de_entries : list bytes; de_progress : DirectoryEnumerationProgress }.

Inductive DirectoryEnumerationProgressError : Type :=
| EnumCancelled (progress : DirectoryEnumerationProgress)
| EnumCancellationCheck (error : IoError) (progress : DirectoryEnumerationProgress)
| EnumIo (error : IoError) (progress : DirectoryEnumerationProgress).

Definition progress_of (e : DirectoryEnumerationProgressError) : DirectoryEnumerationProgress :=
  match e with EnumCancelled p | EnumCancellationCheck _ p | EnumIo _ p => p end.
Definition into_io_error (e : DirectoryEnumerationProgressError) : IoError :=
  match e with
  | EnumCancelled _ => CustomError KInterrupted "directory enumeration cancelled unexpectedly"
  | EnumCancellationCheck error _ | EnumIo error _ => error
  end.

Definition usize_saturating_add (a b : Z) : Z := Z.min (a + b) u64_max.

(** One more entry: its name is accounted for, then the bounds are checked. *)
Definition count_entry (p : DirectoryEnumerationProgress) (name : bytes) : DirectoryEnumerationProgress :=
  mkProgress (usize_saturating_add (entries_read p) 1)
    (usize_saturating_add (name_bytes_read p) (Z.of_nat (length name))).
Definition accept_entry (max_entries max_name_bytes held_bytes : Z) (entries : list bytes) (name : bytes)
  : result Z IoError :=
  match u64_checked_add held_bytes (Z.of_nat (length name)) with
  | None => Err (CustomError KFileTooLarge "directory entry byte count overflow")
  | Some next =>
      if (max_entries <=? Z.of_nat (length entries))%Z || (max_name_bytes <? next)%Z
      then Err (CustomError KFileTooLarge "directory exceeds configured recovery scan bound")
      else Ok next
  end.

(** The loop of [read_dir_entry_names_impl]; [entries] is the vector built so
    far and [held] its byte count. *)
Fixpoint enumerate_loop (fuel : nat) (s : DirectoryStream) (max_entries max_name_bytes : Z)
    (should_stop : io (result bool IoError)) (entries : list bytes) (held : Z) (p : DirectoryEnumerationProgress)
  : io (option (result DirectoryEnumeration DirectoryEnumerationProgressError)) :=
  let! stop := should_stop in
  match stop with
  | Ok true => Ret (Some (Err (EnumCancelled p)))
  | Err error => Ret (Some (Err (EnumCancellationCheck error p)))
  | Ok false =>
      let! (r, s) := next_raw s in
      match r with
      | Err error => Ret (Some (Err (EnumIo error p)))
      | Ok None => Ret (Some (Ok (mkDirectoryEnumeration entries p)))
      | Ok (Some name) =>
          match fuel with
          | O => Ret None
          | S fuel' =>
              if is_dot name
              then enumerate_loop fuel' s max_entries max_name_bytes should_stop entries held p
              else
                let p := count_entry p name in
                match accept_entry max_entries max_name_bytes held entries name with
                | Err error => Ret (Some (Err (EnumIo error p)))
                | Ok next =>
                    enumerate_loop fuel' s max_entries max_name_bytes should_stop (entries ++ [name]) next p
                end
          end
      end
  end.

Definition read_dir_entry_names_impl (fuel : nat) (dir_fd max_entries max_name_bytes : Z)
    (should_stop : io (result bool IoError))
  : io (option (result DirectoryEnumeration DirectoryEnumerationProgressError)) :=
  let! s := DirectoryStream_from_owned dir_fd in
  match s with
  | Err error => Ret (Some (Err (EnumIo error no_progress)))
  | Ok s => enumerate_loop fuel s max_entries max_name_bytes should_stop [] 0 no_progress
  end.

(** Without bounds and without cancellation. *)
Definition read_dir_entries (fuel : nat) (dir_fd : Z) : io (option (result (list bytes) IoError)) :=
  let! fd := reopen_directory dir_fd in
  match fd with
  | Err error => Ret (Some (Err error))
  | Ok fd =>
      let! r := read_dir_entry_names_impl fuel fd u64_max u64_max (Ret (Ok false)) in
      Ret (match r with
           | Some (Ok e) => Some (Ok (de_entries e))
           | Some (Err e) => Some (Err (into_io_error e))
           | None => None
           end)
  end.

Definition read_dir_entries_bounded_until_with_progress (fuel : nat) (dir_fd max_entries max_name_bytes : Z)
    (should_stop : io (result bool IoError))
  : io (option (result DirectoryEnumeration DirectoryEnumerationProgressError)) :=
  let! fd := reopen_directory dir_fd in
  match fd with
  | Err error => Ret (Some (Err (EnumIo error no_progress)))
  | Ok fd => read_dir_entry_names_impl fuel fd max_entries max_name_bytes should_stop
  end.

(** ** Other wrappers *)

(** [libc::open] on a path is the call relative to the working directory. *)
Definition open_dir_absolute (path : bytes) : io (result Z IoError) :=
  let!? c_path := lift (cstr_from_bytes path) in
  Sys (SysOpenat AT_FDCWD c_path (Z.lor (Z.lor (Z.lor O_RDONLY O_DIRECTORY) O_NOFOLLOW) O_CLOEXEC) 0)
    (fun r => Ret (check_fd r)).

Definition read_loop (fuel : nat) (fd : Z) (len : nat) : io (option (result bytes IoError)) :=
  retry_eintr fuel (SysRead fd len) (check_read len).
Definition read (fd : Z) (len : nat) : io (result bytes IoError) :=
  Sys (SysRead fd len) (fun r => Ret (check_read len r)).

Definition fchmodat (dir_fd : Z) (name : bytes) (mode : Z) : io (result unit IoError) :=
  let!? c_name := lift (cstr_from_name name) in
  syscall (SysFchmodat dir_fd c_name mode).

(** The answer to [statfs] carries the [f_type] field of the buffer. *)
Definition fs_type_magic (path : bytes) : io (result Z IoError) :=
  let!? c_path := lift (cstr_from_bytes path) in
  Sys (SysStatfs c_path) (fun r => Ret (check_fd r)).

(** ** Capability probes *)

(** [let _ = m;] *)
Definition ignore {A : Type} (m : io A) : io unit := let! _ := m in Ret tt.

Definition probe_publication_mode (dir_fd : Z) : io (result PublicationMode IoError) :=
  let! tmp := open_tmpfile dir_fd in
  match tmp with
  | Err _ => Ret (Ok NamedFallback)
  | Ok tmp =>
      let!? _ := write_all_settled tmp (lit "x") in
      let!? rand := random_128bit in
      let name := lit ".pubprobe-" ++ hex_encode rand in
      let! direct := linkat_empty_path tmp dir_fd name in
      match direct with
      | Ok _ => let! _ := ignore (unlinkat dir_fd name) in Ret (Ok DirectAtEmptyPath)
      | Err _ =>
          let! proc := linkat_proc_self_fd tmp dir_fd name in
          match proc with
          | Ok _ => let! _ := ignore (unlinkat dir_fd name) in Ret (Ok ProcSelfFd)
          | Err _ => Ret (Ok NamedFallback)
          end
      end
  end.

Definition probe_rename_noreplace (dir_fd : Z) : io (result bool IoError) :=
  let!? rand1 := random_128bit in
  let!? rand2 := random_128bit in
  let n1 := lit ".rnprobe1-" ++ hex_encode rand1 in
  let n2 := lit ".rnprobe2-" ++ hex_encode rand2 in
  let!? _ := create_exclusive dir_fd n1 384 in
  let! f2 := create_exclusive dir_fd n2 384 in
  match f2 with
  | Err error => let! _ := ignore (unlinkat dir_fd n1) in Ret (Err error)
  | Ok _ =>
      let! result := renameat2_noreplace dir_fd n1 dir_fd n2 in
      let works := match result with Err e => os_error_in [EEXIST] e | Ok _ => false end in
      let! _ := ignore (unlinkat dir_fd n1) in
      let! _ := ignore (unlinkat dir_fd n2) in
      Ret (Ok works)
  end.

Definition probe_dir_fsync (dir_fd : Z) : io (result bool IoError) :=
  let! r := fsync_dir_fd dir_fd in Ret (Ok (is_ok r)).

(** ** Wake hints *)

Definition IN_NONBLOCK : Z := O_NONBLOCK.
Definition IN_CLOEXEC : Z := O_CLOEXEC.
Definition IN_MOVED_TO : Z := 128.
Definition IN_CREATE : Z := 256.
Definition IN_Q_OVERFLOW : Z := 16384.
Definition POLLIN : Z := 1.

Definition ppoll_woke (rc revents : Z) : bool := (0 <? rc)%Z && negb (Z.land revents POLLIN =? 0)%Z.

Definition inotify_init : io (result Z IoError) :=
  Sys (SysInotifyInit (Z.lor IN_NONBLOCK IN_CLOEXEC)) (fun r => Ret (check_fd r)).

Definition add_appear_watch (fd : Z) (path : bytes) : io (result unit IoError) :=
  let!? c_path := lift (cstr_from_bytes path) in
  syscall (SysInotifyAddWatch fd c_path (Z.lor (Z.lor IN_MOVED_TO IN_CREATE) IN_Q_OVERFLOW)).

(** The loop ends with the first read that fails or delivers nothing. *)
Fixpoint drain (fuel : nat) (fd : Z) : io (option unit) :=
  match fuel with
  | O => Ret None
  | S fuel' =>
      Sys (SysRead fd 4096) (fun r =>
        match check_read 4096 r with
        | Ok (_ :: _) => drain fuel' fd
        | _ => Ret (Some tt)
        end)
  end.

(** The poll descriptor after the call; it was zeroed before. *)
Definition polled (r : Answer) : Z * Z :=
  match r with Polled rc revents => (rc, revents) | Returns rc => (rc, 0%Z) | _ => (0, 0)%Z end.

Definition wait_readable (fuel : nat) (fd timeout_ns : Z) : io (option (result bool IoError)) :=
  Sys (SysPpoll fd (timeout_ns / 1000000000) (timeout_ns mod 1000000000)) (fun r =>
    match r with
    | Fails e =>
        if bool_decide (kind (OsError e) = KInterrupted) then Ret (Some (Ok false))
        else Ret (Some (Err (OsError e)))
    | _ =>
        if ppoll_woke (polled r).1 (polled r).2 then
          let! d := drain fuel fd in
          Ret (match d with Some _ => Some (Ok true) | None => None end)
        else Ret (Some (Ok false))
    end).

(** ** What an enumeration reports *)

(** The names the kernel served, in order, and those that are entries of the queue. *)
Definition raw_names (tr : list event) : list bytes :=
  omap (fun ev => match ev with (SysReaddir _, Entry name _) => Some name | _ => None end) tr.
Definition entry_names (names : list bytes) : list bytes := filter (fun name => is_dot name = false) names.
Definition name_bytes (names : list bytes) : Z := Z.of_nat (length (concat names)).

(** A program that reads no directory. *)
Definition reads_no_directory {A : Type} (m : io A) : Prop := forall tr a, exec m tr a -> raw_names tr = [].

Lemma raw_names_app t1 t2 : raw_names (t1 ++ t2) = raw_names t1 ++ raw_names t2.
Proof. apply omap_app. Qed.
Lemma entry_names_cons name names :
  entry_names (name :: names) = if is_dot name then entry_names names else name :: entry_names names.
Proof. unfold entry_names. rewrite filter_cons. by destruct (is_dot name). Qed.
Lemma name_bytes_app l1 l2 : name_bytes (l1 ++ l2) = (name_bytes l1 + name_bytes l2)%Z.
Proof. unfold name_bytes. rewrite concat_app, length_app. lia. Qed.

(** What one [readdir] can do. *)
Lemma exec_next_raw s tr x :
  exec (next_raw s) tr x ->
  (raw_names tr = [] /\ (x.1 = Ok None \/ exists e, x.1 = Err (OsError e))) \/
  (exists name, raw_names tr = [name] /\ x.1 = Ok (Some name)).
Proof.
  unfold next_raw. destruct tr as [|[c a] tr]; [done|]. cbn [exec]. intros [-> H].
  apply exec_ret in H as [-> ->]. destruct a; cbn; eauto.
Qed.

(** Accepted entries stay within the bounds; a refused one exceeds them. *)
Lemma accept_entry_spec me mb entries name :
  (mb <= u64_max)%Z -> (Z.of_nat (length entries) <= me)%Z -> (name_bytes entries <= mb)%Z ->
  match accept_entry me mb (name_bytes entries) entries name with
  | Ok next => next = name_bytes (entries ++ [name]) /\ (Z.of_nat (length (entries ++ [name])) <= me)%Z /\ (next <= mb)%Z
  | Err _ => (me < Z.of_nat (length (entries ++ [name])))%Z \/ (mb < name_bytes (entries ++ [name]))%Z
  end.
Proof.
  intros Hmb Hl Hb. rewrite length_app, name_bytes_app.
  assert (name_bytes [name] = Z.of_nat (length name)) as -> by (unfold name_bytes; cbn; by rewrite app_nil_r).
  cbn [length]. unfold accept_entry, u64_checked_add. case_decide; [|lia].
  destruct (_ <=? _)%Z eqn:E1; cbn [orb]; breflect; [lia|].
  destruct (_ <? _)%Z eqn:E2; breflect; lia.
Qed.

(** The report of an enumeration that has taken in [names]. *)
Definition reports_names (me mb : Z) (fuel raws : nat) (names : list bytes)
    (r : option (result DirectoryEnumeration DirectoryEnumerationProgressError)) : Prop :=
  match r with
  | None => (fuel < raws)%nat
  | Some (Ok e) => de_entries e = names /\ de_progress e = fold_left count_entry names no_progress /\
      (Z.of_nat (length names) <= me)%Z /\ (name_bytes names <= mb)%Z
  | Some (Err e) => progress_of e = fold_left count_entry names no_progress /\
      (forall message p, e = EnumIo (CustomError KFileTooLarge message) p ->
         (me < Z.of_nat (length names))%Z \/ (mb < name_bytes names)%Z)
  end.

Lemma enumerate_loop_reports me mb stop :
  (mb <= u64_max)%Z -> reads_no_directory stop ->
  forall fuel s entries tr r,
  (Z.of_nat (length entries) <= me)%Z -> (name_bytes entries <= mb)%Z ->
  exec (enumerate_loop fuel s me mb stop entries (name_bytes entries) (fold_left count_entry entries no_progress)) tr r ->
  reports_names me mb fuel (length (raw_names tr)) (entries ++ entry_names (raw_names tr)) r.
Proof.
  intros Hmb Hstop. induction fuel as [|fuel IH]; intros s entries tr r Hl Hb H; cbn [enumerate_loop] in H;
    apply exec_bind in H as (t1 & t2 & b & -> & H1 & H2); rewrite raw_names_app, (Hstop _ _ H1); cbn [app];
    destruct b as [[]|e];
    try (apply exec_ret in H2 as [-> ->]; cbn; rewrite app_nil_r; by split);
    apply exec_bind in H2 as (t3 & t4 & [n s'] & -> & H3 & H4); rewrite raw_names_app;
    destruct (exec_next_raw _ _ _ H3) as [[-> [Hn|[e Hn]]]|(name & -> & Hn)]; cbn [fst] in Hn; subst n;
    try (apply exec_ret in H4 as [-> ->]; cbn; rewrite app_nil_r; by repeat split).
  - apply exec_ret in H4 as [-> ->]. cbn. lia.
  - cbn [app length]. rewrite entry_names_cons. destruct (is_dot name).
    { eapply IH in H4; [|done..]. destruct r as [[]|]; cbn in *; [done..|lia]. }
    cbv zeta in H4. pose proof (accept_entry_spec me mb entries name Hmb Hl Hb) as Ha.
    rewrite <- (fold_left_app _ entries [name]) in H4 || change (count_entry (fold_left count_entry entries no_progress) name)
      with (fold_left count_entry [name] (fold_left count_entry entries no_progress)) in H4; rewrite <- fold_left_app in H4.
    rewrite cons_middle, app_assoc.
    destruct (accept_entry _ _ _ _ _) as [next|e].
    + destruct Ha as (-> & Hl' & Hb'). eapply IH in H4; [|done..]. destruct r as [[]|]; cbn in *; [done..|lia].
    + apply exec_ret in H4 as [-> ->]. cbn. rewrite app_nil_r. split; [done|]. intros _ _ _. exact Ha.
Qed.

(** A bounded directory enumeration reports exactly what it read.
    Whenever [read_dir_entry_names_impl] succeeds, its entries are the names
    the kernel served, in order and without the two dot entries, and both
    bounds hold; whether it succeeds or fails, its progress counts exactly the
    entries served; it refuses a directory only when a bound is exceeded; and
    it runs out of fuel only after more entries than fuel. *)
Theorem enumeration_exact fuel fd me mb stop tr r :
  (0 <= me)%Z -> (0 <= mb <= u64_max)%Z -> reads_no_directory stop ->
  exec (read_dir_entry_names_impl fuel fd me mb stop) tr r ->
  reports_names me mb fuel (length (raw_names tr)) (entry_names (raw_names tr)) r.
Proof.
  intros Hme Hmb Hstop (t1 & t2 & s & -> & H1 & H2)%exec_bind.
  assert (raw_names t1 = [] /\ forall e, s = Err e -> exists code, e = OsError code) as [Ht He].
  { destruct t1 as [|[c a] t1]; [done|]. destruct H1 as [-> H1]. cbn in H1.
    destruct a; apply exec_ret in H1 as [-> ->]; (split; [done|]); naive_solver. }
  rewrite raw_names_app, Ht. cbn [app]. destruct s as [s|e].
  - eapply (enumerate_loop_reports me mb stop (proj2 Hmb) Hstop fuel s []); [..|exact H2]; unfold name_bytes; cbn; lia.
  - apply exec_ret in H2 as [-> ->]. destruct (He e eq_refl) as [code ->]. by split.
Qed.

(** ** The readers place and change nothing *)

Section Streams.
Context {sel : Syscall -> bool} `{!Acting sel}.

Lemma silent_stream_from d p : silent sel (DirectoryStream_from_owned_at d p).
Proof. unfold DirectoryStream_from_owned_at. silence. Qed.
Lemma silent_stream_open d : silent sel (DirectoryStream_open d).
Proof. unfold DirectoryStream_open, DirectoryStream_from_owned, reopen_directory. silence. apply silent_stream_from. Qed.
Lemma silent_stream_open_at d p : silent sel (DirectoryStream_open_at d p).
Proof. unfold DirectoryStream_open_at, reopen_directory. silence. apply silent_stream_from. Qed.
Lemma silent_next_raw s : silent sel (next_raw s).
Proof. unfold next_raw. silence. Qed.
Lemma silent_next_entry fuel s : silent sel (next_entry fuel s).
Proof.
  revert s. induction fuel as [|fuel IH]; intros s; cbn [next_entry]; [silence|].
  apply silent_bind; [apply silent_next_raw|]. intros [[[name|]|e] s']; silence.
Qed.
Lemma silent_enumerate fuel s me mb stop entries held p :
  silent sel stop -> silent sel (enumerate_loop fuel s me mb stop entries held p).
Proof.
  intros Hs. revert s entries held p. induction fuel as [|fuel IH]; intros s entries held p; cbn [enumerate_loop];
    (apply silent_bind; [exact Hs|]); intros [[]|e]; silence; apply silent_next_raw.
Qed.
Lemma silent_read_dir_entry_names fuel d me mb stop :
  silent sel stop -> silent sel (read_dir_entry_names_impl fuel d me mb stop).
Proof.
  intros Hs. unfold read_dir_entry_names_impl, DirectoryStream_from_owned. silence; [apply silent_stream_from|].
  by apply silent_enumerate.
Qed.
Lemma silent_read_dir_entries fuel d : silent sel (read_dir_entries fuel d).
Proof. unfold read_dir_entries, reopen_directory. silence. apply silent_read_dir_entry_names. silence. Qed.
Lemma silent_read_dir_bounded fuel d me mb stop :
  silent sel stop -> silent sel (read_dir_entries_bounded_until_with_progress fuel d me mb stop).
Proof.
  intros Hs. unfold read_dir_entries_bounded_until_with_progress, reopen_directory. silence.
  by apply silent_read_dir_entry_names.
Qed.
Lemma silent_inotify_init : silent sel inotify_init.
Proof. unfold inotify_init. silence. Qed.
Lemma silent_add_watch d p : silent sel (add_appear_watch d p).
Proof. unfold add_appear_watch. silence. Qed.
Lemma silent_drain fuel d : silent sel (drain fuel d).
Proof. induction fuel as [|fuel IH]; cbn [drain]; silence. Qed.
Lemma silent_wait fuel d t : silent sel (wait_readable fuel d t).
Proof. unfold wait_readable. silence; apply silent_drain. Qed.
Lemma silent_read d len : silent sel (read d len).
Proof. unfold read. silence. Qed.

End Streams.
#[export] Hint Resolve silent_stream_open silent_stream_open_at silent_next_entry silent_read_dir_entries
  silent_inotify_init silent_add_watch silent_wait silent_read : silent.

(** A directory of three served entries. *)
Definition sample_directory (s : list bytes) (c : Syscall) : Answer * list bytes :=
  match c, s with
  | SysReaddir _, name :: s' => (Entry name 1, s')
  | _, _ => (Returns 0, s)
  end.
Definition sample_enumeration :=
  run sample_directory [lit "."; lit "ab"; lit "c"] (read_dir_entry_names_impl 5 7 2 3 (Ret (Ok false))).

Lemma enumeration_exact_witness :
  sample_enumeration.1.2 = Some (Ok (mkDirectoryEnumeration [lit "ab"; lit "c"] (mkProgress 2 3))) /\
  reports_names 2 3 5 (length (raw_names sample_enumeration.1.1)) (entry_names (raw_names sample_enumeration.1.1))
    sample_enumeration.1.2.
Proof.
  split; [vm_compute; reflexivity|].
  apply (enumeration_exact 5 7 2 3 (Ret (Ok false))); [done|unfold u64_max; lia|by intros tr a [-> _]%exec_ret|].
  apply exec_run.
Defined.
