(* ===== verification/Verified.v ===== *)
(** * The object verifier

    Models [crates/steadq-core/src/queue/verified.rs]: verification of a job
    envelope, of its payload and of receipts on an open descriptor, by
    positional reads.  The incremental hasher is the byte string it was fed;
    finalizing it is the digest of that string.  [verification_exact] relates
    the streaming verification of a file to [ValidatedEnvelope_from_bytes] on
    its content. *)
From stdpp Require Import base numbers list option strings.
From Stdlib Require Import Strings.Byte ZArith.
From S2P Require Import Prelude Math Names Format Cbor FsLinux FsRead Ticket Engine Logic.
Open Scope string_scope.
Open Scope list_scope.

(** ** Message texts

    The [Display] texts that end up inside error messages.  No decision of the
    code depends on them, so they are left abstract. *)
Class Texts : Type := {
  io_text : IoError -> string;
  header_text : HeaderError -> string;
  receipt_text : ReceiptError -> string;
  parse_text : ParseError -> string;
  retry_text : RetryError -> string;
  watermark_text : WatermarkError -> string;
  extension_text : CborError -> string;
  publish_phase_text : TmpfilePublishPhase -> string;
  move_phase_text : MovePhase -> string;
  format_text : FormatError -> string;
  bytes_text : bytes -> string;
  number_text : Z -> string;
  hex_text : Z -> string
}.
Definition sample_texts : Texts :=
  {| io_text := fun _ => "io"; header_text := fun _ => "header"; receipt_text := fun _ => "receipt";
     parse_text := fun _ => "name"; retry_text := fun _ => "retry";
     watermark_text := fun _ => "watermark"; extension_text := fun _ => "extension";
     publish_phase_text := fun _ => "phase"; move_phase_text := fun _ => "phase"; bytes_text := fun _ => "text";
     number_text := fun _ => "n"; hex_text := fun _ => "0x"; format_text := fun _ => "format" |}.

(** ** Errors and results *)

Inductive VerificationError : Type :=
| VerifyIo (s : string)
| VerifyCorrupt (s : string)
| VerifyPayloadCorrupt.

Definition Error_from_verification (e : VerificationError) : Error :=
  match e with
  | VerifyIo s => IoFailure s
  | VerifyCorrupt s => QueueCorrupt s
  | VerifyPayloadCorrupt => PayloadCorrupt
  end.

Record VerifiedJob : Type := mkVerifiedJob {
  vj_fd : Z;
  vj_header : FixedHeader;
  vj_extension : bytes;
  vj_device : Z;
  vj_inode : Z;
  vj_size : Z
}.
Definition VerifiedJob_identity_matches (j : VerifiedJob) (st : Stat) : bool :=
  (st_dev st =? vj_device j)%Z && (st_ino st =? vj_inode j)%Z.

Record ReceiptContext : Type := mkReceiptContext {
  rc_queue_id : bytes;
  rc_shard_count : Z;
  rc_terminal_bucket_width_ns : Z;
  rc_max_payload_length : Z;
  rc_bucket : bytes;
  rc_shard : bytes;
  rc_filename : bytes
}.

Record ExpectedReceipt : Type := mkExpectedReceipt {
  er_common : CommonFields;
  er_token : bytes;
  er_envelope_digest : bytes;
  er_payload_length : Z
}.

Inductive VerifiedReceiptKind : Type := ReceiptFull (j : VerifiedJob) | ReceiptCompact.

Record VerifiedReceipt : Type := mkVerifiedReceipt {
  vr_name : ReceiptName;
  vr_bucket_number : Z;
  vr_kind : VerifiedReceiptKind;
  vr_device : Z;
  vr_inode : Z
}.

(** ** Predicates *)

Definition is_payload_digest_match (header : FixedHeader) (computed : bytes) : bool :=
  bool_decide (fh_payload_digest header = computed).
Definition is_extension_too_large (ext_len : Z) : bool := (65536 <? ext_len)%Z.
Definition is_extension_present (ext_len : Z) : bool := (0 <? ext_len)%Z.
Definition is_size_mismatch (expected actual : Z) : bool := negb (expected =? actual)%Z.

Definition receipt_read_open_flags : Z := O_RDONLY + O_CLOEXEC + O_NOFOLLOW + O_NONBLOCK.
Definition receipt_write_open_flags : Z := O_RDWR + O_CLOEXEC + O_NOFOLLOW.
Definition receipt_path_identity_matches (st : Stat) (expected_device expected_inode : Z) : bool :=
  (st_dev st =? expected_device)%Z && (st_ino st =? expected_inode)%Z.

Definition receipt_attempt_is_valid (attempt maximum_attempts : Z) : bool :=
  if (maximum_attempts =? 0)%Z then false
  else if (attempt =? 0)%Z then false
  else (attempt <=? maximum_attempts)%Z.

Definition is_compact_receipt (file_size : Z) (record : bytes) : bool :=
  if negb (file_size =? Z.of_nat COMPACT_RECEIPT_SIZE)%Z then false
  else bool_decide (slice 0 (length RECEIPT_MAGIC) record = RECEIPT_MAGIC).

Definition payload_length_is_allowed (payload_length maximum : Z) : bool := (payload_length <=? maximum)%Z.

Definition compact_path_fields_match (compact : CompactReceipt) (name : ReceiptName) (bucket_start : Z) : bool :=
  bool_decide (cr_job_id compact = cf_job_id (tn_common name))
  && bool_decide (cr_lease_token compact = tn_token name)
  && (cr_final_attempt compact =? cf_attempt (tn_common name))%Z
  && (cr_receipt_bucket_start_unix_ns compact =? bucket_start)%Z.

Definition expected_name_matches (name : ReceiptName) (expected : ExpectedReceipt) : bool :=
  bool_decide (tn_common name = er_common expected) && bool_decide (tn_token name = er_token expected).

Definition compact_evidence_matches (compact : CompactReceipt) (expected : ExpectedReceipt) : bool :=
  bool_decide (cr_envelope_digest compact = er_envelope_digest expected)
  && (cr_original_payload_length compact =? er_payload_length expected)%Z.

Definition full_path_fields_match (header : FixedHeader) (name : ReceiptName) : bool :=
  bool_decide (fh_job_id header = cf_job_id (tn_common name))
  && (fh_maximum_attempts header =? cf_maximum_attempts (tn_common name))%Z.

Definition full_evidence_matches (header : FixedHeader) (expected : ExpectedReceipt) : bool :=
  bool_decide (fh_envelope_digest header = er_envelope_digest expected)
  && (fh_payload_length header =? er_payload_length expected)%Z.

Section Verify.
Context `{Sha256} {T : Texts}.

Definition file_size (st : Stat) : result Z VerificationError :=
  if (st_size st <? 0)%Z
  then Err (VerifyCorrupt ("negative file size: " +:+ number_text (st_size st)))
  else Ok (st_size st).

Definition checked_total_size (ext_len payload_length : Z) : result Z VerificationError :=
  let? header_ext := ok_or (u64_checked_add 128 ext_len) (VerifyCorrupt "size overflow") in
  ok_or (u64_checked_add header_ext payload_length) (VerifyCorrupt "size overflow").

(** A short read means the object is truncated. *)
Definition read_error (error : IoError) : VerificationError :=
  if bool_decide (kind error = KUnexpectedEof)
  then VerifyCorrupt "object is shorter than its envelope"
  else VerifyIo (io_text error).

Definition read_and_verify_header (fd : Z) : io (result FixedHeader VerificationError) :=
  let!? header_buf := io_map_err read_error (pread_exact fd 128 0) in
  let!? header := lift (map_err (fun e => VerifyCorrupt ("header decode: " +:+ header_text e))
    (FixedHeader_decode header_buf)) in
  if is_extension_too_large (fh_extension_header_length header)
  then Ret (Err (VerifyCorrupt "extension header too large"))
  else Ret (Ok header).

Definition read_extension (fd ext_len : Z) : io (result bytes VerificationError) :=
  if is_extension_present ext_len
  then io_map_err read_error (pread_exact fd (Z.to_nat ext_len) 128)
  else Ret (Ok (zeros (Z.to_nat ext_len))).

Definition verify_size (fd : Z) (header : FixedHeader) (ext_len : Z) : io (result Stat VerificationError) :=
  let!? file_stat := io_map_err (fun e => VerifyIo (io_text e)) (fstat fd) in
  let!? actual_size := lift (file_size file_stat) in
  let!? expected_size := lift (checked_total_size ext_len (fh_payload_length header)) in
  if is_size_mismatch expected_size actual_size
  then Ret (Err (VerifyCorrupt ("file size mismatch: expected " +:+ number_text expected_size
         +:+ ", got " +:+ number_text (st_size file_stat))))
  else Ret (Ok file_stat).

(** The [while remaining > 0] loop; [hashed] is what the hasher was fed.  A
    round that continues consumed at least one byte, so as many rounds as bytes
    are enough. *)
Fixpoint payload_loop (fuel : nat) (fd : Z) (buf_len remaining : nat) (offset : Z) (hashed : bytes)
  : io (result bytes VerificationError) :=
  match remaining, fuel with
  | O, _ => Ret (Ok hashed)
  | _, O => Ret (Err (VerifyCorrupt "unexpected EOF"))
  | _, S fuel' =>
      let to_read := Nat.min remaining buf_len in
      let!? data := io_map_err (fun e => VerifyIo (io_text e)) (pread fd to_read offset) in
      if (length data =? 0)%nat then Ret (Err (VerifyCorrupt "unexpected EOF"))
      else payload_loop fuel' fd buf_len (remaining - length data)
             (wrap64 (offset + Z.of_nat (length data))) (hashed ++ data)
  end.

(** [remaining.clamp(1, 65536)] *)
Definition buffer_size (remaining : nat) : nat := Nat.max 1 (Nat.min remaining (Z.to_nat 65536)).

Definition verify_payload (fd : Z) (header : FixedHeader) (ext_len : Z) : io (result unit VerificationError) :=
  let data_offset := (128 + ext_len)%Z in
  let remaining := Z.to_nat (fh_payload_length header) in
  let!? hashed := payload_loop remaining fd (buffer_size remaining) remaining data_offset [] in
  if negb (is_payload_digest_match header (sha256 hashed)) then Ret (Err VerifyPayloadCorrupt)
  else Ret (Ok tt).

Definition verify_envelope_on_fd (fd : Z) : io (result VerifiedJob VerificationError) :=
  let!? owned := io_map_err (fun e => VerifyIo (io_text e)) (try_clone_to_owned fd) in
  let!? header := read_and_verify_header fd in
  let!? st := verify_size fd header (fh_extension_header_length header) in
  let!? ext := read_extension fd (fh_extension_header_length header) in
  if negb (verify_envelope_digest header ext)
  then Ret (Err (VerifyCorrupt "envelope digest mismatch"))
  else
    let!? size := lift (file_size st) in
    Ret (Ok (mkVerifiedJob owned header ext (st_dev st) (st_ino st) size)).

Definition verify_job_on_fd (fd : Z) : io (result VerifiedJob VerificationError) :=
  let!? job := verify_envelope_on_fd fd in
  let!? _ := verify_payload fd (vj_header job) (Z.of_nat (length (vj_extension job))) in
  Ret (Ok job).

(** *** Receipts *)

(** The checks on the receipt's name and place, up to the expected identity. *)
Definition check_receipt_place (context : ReceiptContext) (expected : option ExpectedReceipt)
  : result (ReceiptName * Z * Z) VerificationError :=
  let? name := map_err (fun e => VerifyCorrupt ("receipt filename: " +:+ parse_text e))
    (parse_receipt (rc_filename context)) in
  if negb (receipt_attempt_is_valid (cf_attempt (tn_common name)) (cf_maximum_attempts (tn_common name)))
  then Err (VerifyCorrupt "receipt attempt fields are invalid")
  else if negb (ReceiptName_authenticate_tag name (rc_queue_id context) (rc_bucket context) (rc_shard context))
  then Err (VerifyCorrupt "receipt name tag mismatch")
  else
    let? path_shard := ok_or (shard_from_hex (rc_shard context)) (VerifyCorrupt "receipt shard is invalid") in
    let expected_shard :=
      compute_shard (rc_queue_id context) (cf_job_id (tn_common name)) (rc_shard_count context) in
    if negb (path_shard =? expected_shard)%Z
    then Err (VerifyCorrupt "receipt shard placement mismatch")
    else
      let? bucket_number :=
        ok_or (bucket_from_hex (rc_bucket context)) (VerifyCorrupt "receipt bucket is invalid") in
      let? bucket_start :=
        ok_or (u64_checked_mul bucket_number (rc_terminal_bucket_width_ns context))
          (VerifyCorrupt "receipt bucket start overflows") in
      if (if expected is Some e then negb (expected_name_matches name e) else false)
      then Err (VerifyCorrupt "receipt operation identity mismatch")
      else Ok (name, bucket_number, bucket_start).

(** The two wire forms of a receipt. *)
Definition verify_compact (context : ReceiptContext) (expected : option ExpectedReceipt)
    (name : ReceiptName) (bucket_start : Z) (record : bytes) : result VerifiedReceiptKind VerificationError :=
  let? compact := map_err (fun e => VerifyCorrupt ("compact receipt decode: " +:+ receipt_text e))
    (CompactReceipt_decode record) in
  if negb (compact_path_fields_match compact name bucket_start)
  then Err (VerifyCorrupt "compact receipt semantics do not match its path")
  else if negb (payload_length_is_allowed (cr_original_payload_length compact) (rc_max_payload_length context))
  then Err (VerifyCorrupt "compact receipt payload length exceeds queue limit")
  else if (if expected is Some e then negb (compact_evidence_matches compact e) else false)
  then Err (VerifyCorrupt "compact receipt evidence mismatch")
  else Ok ReceiptCompact.

Definition verify_full (fd : Z) (context : ReceiptContext) (expected : option ExpectedReceipt)
    (name : ReceiptName) : io (result VerifiedReceiptKind VerificationError) :=
  let!? job := verify_envelope_on_fd fd in
  if negb (full_path_fields_match (vj_header job) name)
  then Ret (Err (VerifyCorrupt "full receipt header does not match its path"))
  else if negb (payload_length_is_allowed (fh_payload_length (vj_header job)) (rc_max_payload_length context))
  then Ret (Err (VerifyCorrupt "full receipt payload length exceeds queue limit"))
  else if (if expected is Some e then negb (full_evidence_matches (vj_header job) e) else false)
  then Ret (Err (VerifyCorrupt "full receipt evidence mismatch"))
  else
    let!? _ := verify_payload fd (vj_header job) (Z.of_nat (length (vj_extension job))) in
    Ret (Ok (ReceiptFull job)).

Definition verify_receipt_on_fd (fd : Z) (context : ReceiptContext) (expected : option ExpectedReceipt)
  : io (result VerifiedReceipt VerificationError) :=
  let!? st := io_map_err (fun e => VerifyIo (io_text e)) (fstat fd) in
  if negb (is_regular st) then Ret (Err (VerifyCorrupt "receipt is not a regular file"))
  else if negb (st_nlink st =? 1)%Z
  then Ret (Err (VerifyCorrupt ("receipt link count is " +:+ number_text (st_nlink st) +:+ ", expected 1")))
  else if (st_size st <? 0)%Z then Ret (Err (VerifyCorrupt "receipt has a negative file size"))
  else
    let!? (name, bucket_number, bucket_start) := lift (check_receipt_place context expected) in
    let!? record := io_map_err (fun error =>
        if bool_decide (kind error = KUnexpectedEof)
        then VerifyCorrupt "receipt is shorter than its fixed record"
        else VerifyIo (io_text error)) (pread_exact fd COMPACT_RECEIPT_SIZE 0) in
    let!? kind :=
      (if is_compact_receipt (st_size st) record
       then lift (verify_compact context expected name bucket_start record)
       else verify_full fd context expected name) in
    Ret (Ok (mkVerifiedReceipt name bucket_number kind (st_dev st) (st_ino st))).

End Verify.

(** ** Verification changes nothing *)

Section Silent.
Context `{Sha256} {T : Texts} {sel : Syscall -> bool} `{!Acting sel}.

Lemma silent_payload_loop fuel fd n rem off h : silent sel (payload_loop fuel fd n rem off h).
Proof.
  revert rem off h. induction fuel as [|fuel IH]; intros [|rem] off h; cbn [payload_loop]; try apply silent_ret.
  silence.
Qed.
Lemma silent_verify_payload fd h e : silent sel (verify_payload fd h e).
Proof. unfold verify_payload. apply silent_try; [apply silent_payload_loop|silence]. Qed.
Lemma silent_verify_envelope fd : silent sel (verify_envelope_on_fd fd).
Proof. unfold verify_envelope_on_fd, read_and_verify_header, verify_size, read_extension. silence. Qed.
Lemma silent_verify_job fd : silent sel (verify_job_on_fd fd).
Proof.
  unfold verify_job_on_fd. apply silent_try; [apply silent_verify_envelope|intros j].
  apply silent_try; [apply silent_verify_payload|silence].
Qed.
Lemma silent_verify_receipt fd c e : silent sel (verify_receipt_on_fd fd c e).
Proof.
  unfold verify_receipt_on_fd, verify_full. silence; (apply silent_verify_envelope || apply silent_verify_payload).
Qed.
End Silent.
#[export] Hint Resolve silent_verify_payload silent_verify_envelope silent_verify_job silent_verify_receipt : silent.

(** ** Reading a file *)

(** The answers about descriptor [fd] are those of a regular file with the
    given content: a read returns a prefix of what follows the offset, empty
    only at the end, and a stat reports the length.  Any call may fail. *)
Definition serves (fd : Z) (content : bytes) (ev : event) : Prop :=
  match ev with
  | (SysPread f len off, a) =>
      f = fd ->
      match a with
      | Fails _ => True
      | Reads data =>
          data = take (length data) (drop (Z.to_nat off) content) /\ (length data <= len)%nat /\
          (data = [] -> len = 0%nat \/ (length content <= Z.to_nat off)%nat)
      | _ => False
      end
  | (SysFstat f, a) =>
      f = fd ->
      match a with
      | Fails _ => True
      | Stats st => st_size st = Z.of_nat (length content)
      | _ => False
      end
  | _ => True
  end.
Definition some_failed (tr : list event) : Prop := Exists (fun ev => failed ev.2 = true) tr.

Lemma some_failed_app t1 t2 : some_failed (t1 ++ t2) <-> some_failed t1 \/ some_failed t2.
Proof. apply Exists_app. Qed.
Lemma some_failed_one c e : some_failed [(c, Fails e)].
Proof. by constructor. Qed.

(** [a..b] of a list by splitting at the end of the first read. *)
Lemma slice_read off k len (data content : bytes) :
  data = take (length data) (drop off content) -> k = length data -> (k <= len)%nat ->
  slice off (off + len) content = data ++ slice (off + k) (off + k + (len - k)) content.
Proof.
  intros Hd -> Hk. unfold slice. replace (off + len - off)%nat with len by lia.
  replace (off + length data + (len - length data) - (off + length data))%nat with (len - length data)%nat by lia.
  rewrite <- drop_drop.
  rewrite <- (take_drop (length data) (drop off content)) at 1. rewrite <- Hd.
  by rewrite take_app_ge by lia.
Qed.

Section Reading.
Context (fd : Z) (content : bytes).

Lemma wp_pread len (off : nat) :
  (Z.of_nat off < 2 ^ 63)%Z ->
  wp (serves fd content) (pread fd len (Z.of_nat off)) (fun tr r =>
    match r with
    | Ok data =>
        data = take (length data) (drop off content) /\ (length data <= len)%nat /\
        (data = [] -> len = 0%nat \/ (length content <= off)%nat)
    | Err e => some_failed tr /\ kind e <> KUnexpectedEof
    end).
Proof.
  intros Ho. apply wp_sys. intros r Hr. apply wp_ret. unfold as_i64 in *.
  destruct (_ <? _)%Z eqn:E; breflect; [|lia]. cbn in Hr. specialize (Hr eq_refl).
  destruct r as [e| | |data| | |]; [|done..| |done|done|done].
  - split; [apply some_failed_one|]. unfold check_read, kind. by repeat case_match.
  - unfold check_read, read_data. rewrite Nat2Z.id in Hr. destruct Hr as (Hd & Hl & He).
    by rewrite take_ge by lia.
Qed.

(** An error of a sequence of reads is a failed call or the end of the file. *)
Definition read_fault (tr : list event) (short : Prop) (e : IoError) : Prop :=
  if bool_decide (kind e = KUnexpectedEof) then short else some_failed tr.

Lemma wp_pread_exact_loop fuel len (off : nat) :
  (len <= fuel)%nat -> (Z.of_nat (off + len) < 2 ^ 63)%Z ->
  wp (serves fd content) (pread_exact_loop fuel fd len (Z.of_nat off)) (fun tr r =>
    match r with
    | Ok data => data = slice off (off + len) content /\ length data = len
    | Err e => read_fault tr (length content < off + len)%nat e
    end).
Proof.
  revert len off. induction fuel as [|fuel IH]; intros [|len] off Hf Ho; cbn [pread_exact_loop]; try lia.
  - apply wp_ret. split; [|done]. unfold slice. by rewrite Nat.add_0_r, Nat.sub_diag.
  - apply wp_ret. split; [|done]. unfold slice. by rewrite Nat.add_0_r, Nat.sub_diag.
  - apply wp_try. eapply wp_mono; [apply wp_pread; lia|]. intros t1 [data|e].
    2:{ intros [Hs Hk]. unfold read_fault. by rewrite bool_decide_false. }
    intros (Hd & Hl & He). destruct (_ =? _)%nat eqn:E; breflect.
    { apply wp_ret. unfold read_fault. rewrite bool_decide_true by done.
      destruct (He (nil_length_inv _ E)); lia. }
    apply wp_try. replace (wrap64 _) with (Z.of_nat (off + length data)) by
      (unfold wrap64; rewrite Z.mod_small by lia; lia).
    eapply wp_mono; [apply IH; lia|]. intros t2 [rest|e].
    + intros [-> Hr]. apply wp_ret. split; [|rewrite length_app, Hr; lia].
      symmetry. by apply (slice_read _ _ (S len)).
    + unfold read_fault. case_bool_decide; [lia|]. rewrite some_failed_app. auto.
Qed.

Lemma wp_pread_exact len (off : nat) :
  (Z.of_nat (off + len) < 2 ^ 63)%Z ->
  wp (serves fd content) (pread_exact fd len (Z.of_nat off)) (fun tr r =>
    match r with
    | Ok data => data = slice off (off + len) content /\ length data = len
    | Err e => read_fault tr (length content < off + len)%nat e
    end).
Proof. intros. by apply wp_pread_exact_loop. Qed.

Section Payload.
Context `{Sha256} {T : Texts}.

Lemma wp_payload_loop fuel buf_len len (off : nat) hashed :
  (len <= fuel)%nat -> (0 < buf_len)%nat -> (Z.of_nat (off + len) < 2 ^ 63)%Z ->
  wp (serves fd content) (payload_loop fuel fd buf_len len (Z.of_nat off) hashed) (fun tr r =>
    match r with
    | Ok h => h = hashed ++ slice off (off + len) content /\ (off + len <= length content \/ len = 0)%nat
    | Err (VerifyIo _) => some_failed tr
    | Err _ => (length content < off + len)%nat
    end).
Proof.
  revert len off hashed. induction fuel as [|fuel IH]; intros [|len] off hashed Hf Hb Ho;
    cbn [payload_loop]; try lia.
  - apply wp_ret. split; [|lia]. unfold slice. rewrite Nat.add_0_r, Nat.sub_diag. by rewrite app_nil_r.
  - apply wp_ret. split; [|lia]. unfold slice. rewrite Nat.add_0_r, Nat.sub_diag. by rewrite app_nil_r.
  - cbv zeta. apply wp_try, wp_map_err. eapply wp_mono; [apply wp_pread; lia|]. intros t1 [data|e]; cbn [map_err].
    2:{ by intros [Hs _]. }
    intros (Hd & Hl & He). destruct (_ =? _)%nat eqn:E; breflect.
    { apply wp_ret. destruct (He (nil_length_inv _ E)); lia. }
    replace (wrap64 _) with (Z.of_nat (off + length data)) by
      (unfold wrap64; rewrite Z.mod_small by lia; lia).
    eapply wp_mono; [apply IH; lia|]. intros t2 [h|[]].
    + intros [-> Hr]. split.
      * rewrite <- app_assoc. f_equal. symmetry. apply slice_read; [done..|lia].
      * destruct Hr; [lia|]. left.
        assert (length (take (length data) (drop off content)) = length data) as Hx by congruence.
        rewrite length_take, length_drop in Hx. lia.
    + rewrite some_failed_app. auto.
    + lia.
    + lia.
Qed.

End Payload.
End Reading.

(** ** Verification decides what the envelope decoder decides *)

Section Exact.
Context `{Sha256Spec} {T : Texts}.

(** What the in-memory validator checks, clause by clause. *)
Definition envelope_checks (content : bytes) (vp : bool) (ve : ValidatedEnvelope) : Prop :=
  let h := ve_header ve in
  let e := Z.to_nat (fh_extension_header_length h) in
  (128 <= length content)%nat /\ FixedHeader_decode (slice 0 128 content) = Ok h /\
  Z.of_nat (length content) = (128 + fh_extension_header_length h + fh_payload_length h)%Z /\
  ve_extension ve = slice 128 (128 + e) content /\ ve_payload ve = drop (128 + e) content /\
  verify_envelope_digest h (ve_extension ve) = true /\
  (vp = true -> payload_digest (ve_payload ve) = fh_payload_digest h).

Lemma decoded_header_bounds buf h :
  FixedHeader_decode buf = Ok h ->
  (0 <= fh_extension_header_length h <= 65536)%Z /\ (0 <= fh_payload_length h < 2 ^ 40)%Z.
Proof.
  intros [(Ht & _ & _ & _ & Hp & He) _]%FixedHeader_decode_iff.
  unfold MAX_PAYLOAD_LENGTH, MAX_EXTENSION_HEADER_LENGTH in *.
  assert (0 <= fh_payload_length h)%Z by apply Ht.
  assert (0 <= fh_extension_header_length h)%Z by apply Ht. lia.
Qed.

Lemma from_bytes_checks content vp ve :
  ValidatedEnvelope_from_bytes content vp = Ok ve <-> envelope_checks content vp ve.
Proof.
  unfold ValidatedEnvelope_from_bytes, envelope_checks, FIXED_HEADER_SIZE. cbv zeta. split.
  - intros Hd. rsteps Hd. apply map_err_ok_inv in E.
    apply ok_or_ok_inv, usize_checked_add_ok in E0 as [_ ->].
    apply ok_or_ok_inv, usize_checked_add_ok in E1 as [_ ->].
    destruct (negb (_ =? _)%Z) eqn:G0; [by case_match|]. rsteps Hd. subst ve. breflect. cbn.
    split; [done|]. split; [done|]. split; [lia|]. do 2 (split; [done|]). split; [done|].
    intros ->. cbn in G2. by breflect.
  - destruct ve as [h ext payload]. cbn [ve_header ve_extension ve_payload].
    intros (Hl & Hd & Ht & -> & -> & Hg & Hp). pose proof (decoded_header_bounds _ _ Hd) as [He Hpl].
    destruct (_ <? _)%nat eqn:G; breflect; [lia|]. rewrite Hd. cbn [map_err rbind].
    rewrite usize_checked_add_fits by (unfold u64_max; lia). cbn [ok_or rbind].
    rewrite usize_checked_add_fits by (unfold u64_max; lia). cbn [ok_or rbind].
    rewrite Ht, Z.eqb_refl, Hg. cbn [negb]. destruct vp; cbn [andb]; [|done].
    by rewrite bool_decide_true by auto.
Qed.

(** Verification of a file with the given content: a result is [good], a
    failed call is reported as such, and any other verdict means the content is
    [bad]. *)
Definition judges {A : Type} (fd : Z) (content : bytes) (p : io (result A VerificationError))
    (good : A -> Prop) (bad : Prop) : Prop :=
  wp (serves fd content) p (fun tr r =>
    match r with
    | Ok a => good a
    | Err (VerifyIo _) => some_failed tr
    | Err _ => bad
    end).

Section Judges.
Context (fd : Z) (content : bytes).

Lemma judges_try {A B} (m : io (result A VerificationError)) (f : A -> io (result B VerificationError)) G1 G2 bad :
  judges fd content m G1 bad -> (forall a, G1 a -> judges fd content (f a) G2 bad) ->
  judges fd content (io_try m f) G2 bad.
Proof.
  intros Hm Hf. apply wp_try. eapply wp_mono; [exact Hm|]. intros t1 [a|e]; [|by destruct e].
  intros Ha. eapply wp_mono; [exact (Hf a Ha)|]. intros t2 [b|[]]; try done.
  rewrite some_failed_app. auto.
Qed.

Lemma judges_ok {A} (a : A) (good : A -> Prop) bad : good a -> judges fd content (Ret (Ok a)) good bad.
Proof. intros. by apply wp_ret. Qed.
Lemma judges_bad {A} (e : VerificationError) (good : A -> Prop) (bad : Prop) :
  (forall s, e <> VerifyIo s) -> bad -> judges fd content (Ret (Err e)) good bad.
Proof. intros He Hb. apply wp_ret. destruct e as [s| |]; [by destruct (He s)|done..]. Qed.

Lemma judges_lift {A} (r : result A VerificationError) (good : A -> Prop) bad :
  match r with Ok a => good a | Err (VerifyIo _) => False | Err _ => bad end ->
  judges fd content (lift r) good bad.
Proof. intros Hr. apply wp_ret. by destruct r as [|[]]. Qed.

(** A read of [len] bytes at [off], for which the content must be long enough. *)
Lemma judges_read len (off : nat) (bad : Prop) :
  (Z.of_nat (off + len) < 2 ^ 63)%Z -> ((length content < off + len)%nat -> bad) ->
  judges fd content (io_map_err read_error (pread_exact fd len (Z.of_nat off)))
    (fun data => data = slice off (off + len) content /\ length data = len) bad.
Proof.
  intros Ho Hb. apply wp_map_err. eapply wp_mono; [by apply wp_pread_exact|]. intros tr [data|e]; [done|].
  unfold read_fault, read_error. cbn [map_err]. case_bool_decide; auto.
Qed.

Lemma judges_fstat (bad : Prop) :
  judges fd content (io_map_err (fun e => VerifyIo (io_text e)) (fstat fd))
    (fun st => st_size st = Z.of_nat (length content)) bad.
Proof.
  apply wp_map_err, wp_sys. intros r Hr. apply wp_ret. specialize (Hr eq_refl).
  destruct r; cbn in *; [apply some_failed_one|done..].
Qed.

Lemma judges_clone (bad : Prop) :
  judges fd content (io_map_err (fun e => VerifyIo (io_text e)) (try_clone_to_owned fd)) (fun _ => True) bad.
Proof. apply wp_map_err, wp_sys. intros r _. apply wp_ret. destruct r; cbn; [apply some_failed_one|done..]. Qed.

End Judges.

Definition rejected (vp : bool) (content : bytes) : Prop := forall ve, ~ envelope_checks content vp ve.

Lemma rejected_true content : rejected false content -> rejected true content.
Proof. intros Hr ve (?&?&?&?&?&?&_). apply (Hr ve). by repeat split. Qed.

Lemma header_judged fd content :
  judges fd content (read_and_verify_header fd)
    (fun h => (128 <= length content)%nat /\ FixedHeader_decode (slice 0 128 content) = Ok h) (rejected false content).
Proof.
  unfold read_and_verify_header. eapply judges_try.
  { apply (judges_read fd content 128 0); [lia|]. intros Hs ve (? & _). lia. }
  intros buf [-> Hl]. change (0 + 128)%nat with 128%nat in *.
  rewrite length_slice' in Hl. eapply judges_try with (G1 := fun h => FixedHeader_decode (slice 0 128 content) = Ok h).
  { apply judges_lift. destruct (FixedHeader_decode _) as [h|he] eqn:Hd; [done|]. cbn.
    intros ve (_ & Hd' & _). congruence. }
  intros h Hd. pose proof (decoded_header_bounds _ _ Hd) as [He _].
  unfold is_extension_too_large. destruct (_ <? _)%Z eqn:Hx; breflect; [lia|]. apply judges_ok. split; [lia|done].
Qed.

Lemma size_judged fd content h :
  FixedHeader_decode (slice 0 128 content) = Ok h ->
  judges fd content (verify_size fd h (fh_extension_header_length h))
    (fun st => st_size st = Z.of_nat (length content) /\
       Z.of_nat (length content) = (128 + fh_extension_header_length h + fh_payload_length h)%Z)
    (rejected false content).
Proof.
  intros Hd. pose proof (decoded_header_bounds _ _ Hd) as [He Hp].
  unfold verify_size. eapply judges_try; [apply judges_fstat|]. intros st Hst.
  unfold file_size. rewrite Hst. destruct (_ <? _)%Z eqn:E; breflect; [lia|].
  eapply judges_try; [by apply judges_lift with (good := eq (Z.of_nat (length content)))|]. intros ? <-.
  unfold checked_total_size, u64_checked_add. rewrite decide_True by (unfold u64_max; lia). cbn [ok_or rbind].
  rewrite decide_True by (unfold u64_max; lia). cbn [ok_or].
  eapply judges_try; [by apply judges_lift with (good := eq (128 + fh_extension_header_length h + fh_payload_length h)%Z)|].
  intros ? <-. unfold is_size_mismatch. destruct (_ =? _)%Z eqn:Ht; breflect; cbn [negb].
  - by apply judges_ok.
  - apply judges_bad; [done|]. intros ve (_ & Hd' & Ht' & _). simplify_eq. congruence.
Qed.

Lemma extension_judged fd content (e : Z) :
  (0 <= e <= 65536)%Z -> (128 + Z.to_nat e <= length content)%nat ->
  judges fd content (read_extension fd e) (eq (slice 128 (128 + Z.to_nat e) content)) (rejected false content).
Proof.
  intros He Hl. unfold read_extension, is_extension_present. destruct (_ <? _)%Z eqn:Hx; breflect.
  - eapply wp_mono; [apply (judges_read fd content (Z.to_nat e) 128); [lia|]; intros Hs; lia|].
    intros tr [x|[]]; [|done..]. by intros [-> _].
  - apply judges_ok. replace e with 0%Z by lia. by unfold slice.
Qed.

Lemma envelope_judged fd content :
  judges fd content (verify_envelope_on_fd fd)
    (fun job => exists payload, envelope_checks content false
       (mkValidatedEnvelope (vj_header job) (vj_extension job) payload) /\
       vj_size job = Z.of_nat (length content))
    (rejected false content).
Proof.
  unfold verify_envelope_on_fd. eapply judges_try; [apply judges_clone|]. intros owned _.
  eapply judges_try; [apply header_judged|]. intros h [Hl Hd].
  eapply judges_try; [by apply size_judged|]. intros st [Hs Ht].
  pose proof (decoded_header_bounds _ _ Hd) as [He Hp].
  eapply judges_try; [apply extension_judged; lia|]. intros ? <-.
  destruct (verify_envelope_digest _ _) eqn:Hv; cbn [negb].
  2:{ apply judges_bad; [done|]. intros ve (_ & Hd' & _ & Hx & _ & Hg & _). simplify_eq. congruence. }
  eapply judges_try with (G1 := eq (Z.of_nat (length content))).
  { apply judges_lift. unfold file_size. rewrite Hs. by destruct (_ <? _)%Z eqn:E; breflect; [lia|]. }
  intros ? <-. apply judges_ok. cbn [vj_header vj_extension vj_size].
  exists (drop (128 + Z.to_nat (fh_extension_header_length h)) content). done.
Qed.

Lemma payload_judged fd content vp ve :
  envelope_checks content vp ve ->
  judges fd content (verify_payload fd (ve_header ve) (Z.of_nat (length (ve_extension ve))))
    (fun _ => payload_digest (ve_payload ve) = fh_payload_digest (ve_header ve)) (rejected true content).
Proof.
  intros (Hl & Hd & Ht & He & Hp & Hg & _). destruct ve as [h ext payload]. cbn [ve_header ve_extension ve_payload] in *.
  subst ext payload. pose proof (decoded_header_bounds _ _ Hd) as [Hb1 Hb2].
  unfold verify_payload. cbv zeta. rewrite length_slice by lia.
  replace (128 + Z.of_nat _)%Z with (Z.of_nat (128 + Z.to_nat (fh_extension_header_length h))) by lia.
  eapply judges_try with (G1 := eq (drop (128 + Z.to_nat (fh_extension_header_length h)) content)).
  { eapply wp_mono; [apply wp_payload_loop; unfold buffer_size; lia|]. intros tr [x|[]]; [|done|lia..].
    intros [-> _]. cbn [app]. unfold slice. symmetry. apply take_ge. rewrite length_drop. lia. }
  intros ? <-. unfold is_payload_digest_match. case_bool_decide as Hx; cbn [negb].
  - by apply judges_ok.
  - apply judges_bad; [done|]. intros ve (_ & Hd' & _ & _ & Hp' & _ & Hpd). apply Hx.
    rewrite Hd in Hd'. injection Hd' as Hd'. rewrite Hd', <- Hpd, Hp' by done. by rewrite <- Hd'.
Qed.

(** A whole-file decoding decides what streaming verification reports. *)
Lemma verify_job_judged fd content :
  judges fd content (verify_job_on_fd fd) (fun job => exists payload,
      ValidatedEnvelope_from_bytes content true
      = Ok (mkValidatedEnvelope (vj_header job) (vj_extension job) payload) /\
      vj_size job = Z.of_nat (length content))
    (forall ve, ValidatedEnvelope_from_bytes content true <> Ok ve).
Proof.
  assert (judges fd content (verify_job_on_fd fd) (fun job => exists payload,
    envelope_checks content true (mkValidatedEnvelope (vj_header job) (vj_extension job) payload) /\
    vj_size job = Z.of_nat (length content)) (rejected true content)) as Hj.
  { unfold verify_job_on_fd. eapply judges_try.
    { eapply wp_mono; [apply envelope_judged|]. intros t [job|[]]; [exact id|done|apply rejected_true..]. }
    intros job (payload & Hc & Hsz). eapply judges_try; [by apply (payload_judged _ _ _ _ Hc)|].
    intros ? Hp. apply judges_ok. exists payload. split; [|done].
    destruct Hc as (?&?&?&?&?&?&_). by repeat split. }
  eapply wp_mono; [exact Hj|]. intros tr [job|[]].
  - intros (payload & Hc & Hsz). exists payload. by rewrite from_bytes_checks.
  - done.
  - intros Hr ve Hv. by apply (Hr ve), from_bytes_checks.
  - intros Hr ve Hv. by apply (Hr ve), from_bytes_checks.
Qed.

(** C28: streaming verification is equivalent to decoding the whole file.  On
    a descriptor whose reads and stats are those of a file with content
    [content], in whatever portions the reads come, [verify_job_on_fd] accepts
    only when [ValidatedEnvelope::from_bytes] accepts the content with both
    digests checked, and returns that header and extension; it reports
    corruption only when [from_bytes] rejects the content; and it reports an
    I/O error only when a system call failed. *)
Theorem verification_exact fd content tr r :
  exec (verify_job_on_fd fd) tr r -> Forall (serves fd content) tr ->
  match r with
  | Ok job => exists payload,
      ValidatedEnvelope_from_bytes content true
      = Ok (mkValidatedEnvelope (vj_header job) (vj_extension job) payload) /\
      vj_size job = Z.of_nat (length content)
  | Err (VerifyIo _) => some_failed tr
  | Err _ => forall ve, ValidatedEnvelope_from_bytes content true <> Ok ve
  end.
Proof. intros He Hs. exact (verify_job_judged fd content tr r He Hs). Qed.

(** ** Receipts *)

(** What an accepted receipt is: a name that parses, is tagged for its place
    and shard and is the expected one, over a compact record that repeats it or
    a complete, uncorrupted job of that identity. *)
Definition receipt_evidence (content : bytes) (context : ReceiptContext) (expected : option ExpectedReceipt)
    (vr : VerifiedReceipt) : Prop :=
  let name := vr_name vr in
  parse_receipt (rc_filename context) = Ok name /\
  ReceiptName_authenticate_tag name (rc_queue_id context) (rc_bucket context) (rc_shard context) = true /\
  shard_from_hex (rc_shard context)
  = Some (compute_shard (rc_queue_id context) (cf_job_id (tn_common name)) (rc_shard_count context)) /\
  (1 <= cf_attempt (tn_common name) <= cf_maximum_attempts (tn_common name))%Z /\
  (forall e, expected = Some e -> tn_common name = er_common e /\ tn_token name = er_token e) /\
  match vr_kind vr with
  | ReceiptCompact => exists c, CompactReceipt_decode content = Ok c /\
      cr_job_id c = cf_job_id (tn_common name) /\ cr_lease_token c = tn_token name /\
      (forall e, expected = Some e ->
         cr_envelope_digest c = er_envelope_digest e /\ cr_original_payload_length c = er_payload_length e)
  | ReceiptFull job => exists payload,
      ValidatedEnvelope_from_bytes content true
      = Ok (mkValidatedEnvelope (vj_header job) (vj_extension job) payload) /\
      fh_job_id (vj_header job) = cf_job_id (tn_common name) /\
      (forall e, expected = Some e ->
         fh_envelope_digest (vj_header job) = er_envelope_digest e /\
         fh_payload_length (vj_header job) = er_payload_length e)
  end.

Lemma receipt_place_checked context expected name bucket start :
  check_receipt_place context expected = Ok (name, bucket, start) ->
  parse_receipt (rc_filename context) = Ok name /\
  ReceiptName_authenticate_tag name (rc_queue_id context) (rc_bucket context) (rc_shard context) = true /\
  shard_from_hex (rc_shard context)
  = Some (compute_shard (rc_queue_id context) (cf_job_id (tn_common name)) (rc_shard_count context)) /\
  (cf_maximum_attempts (tn_common name) <> 0 /\ cf_attempt (tn_common name) <> 0 /\
   cf_attempt (tn_common name) <= cf_maximum_attempts (tn_common name))%Z /\
  (forall e, expected = Some e -> tn_common name = er_common e /\ tn_token name = er_token e).
Proof.
  unfold check_receipt_place. cbv zeta. intros Hc. rsteps Hc. simplify_eq.
  apply map_err_ok_inv in E. apply ok_or_ok_inv in E0. breflect. subst.
  split; [done|]. split; [done|]. split; [done|]. split.
  - unfold receipt_attempt_is_valid in G. repeat case_match; breflect; try done.
  - intros e ->. unfold expected_name_matches in G2. by breflect.
Qed.

(** Acceptance only: what holds of every accepted value. *)
Definition accepts {A : Type} (fd : Z) (content : bytes) (p : io (result A VerificationError))
    (good : A -> Prop) : Prop :=
  wp (serves fd content) p (fun _ r => match r with Ok a => good a | Err _ => True end).

Lemma judges_accepts {A} fd content (p : io (result A VerificationError)) G bad :
  judges fd content p G bad -> accepts fd content p G.
Proof. intros Hp. eapply wp_mono; [exact Hp|]. by intros tr [|[]]. Qed.
Lemma accepts_try {A B} fd content (m : io (result A VerificationError)) (f : A -> io (result B VerificationError)) G1 G2 :
  accepts fd content m G1 -> (forall a, G1 a -> accepts fd content (f a) G2) ->
  accepts fd content (io_try m f) G2.
Proof.
  intros Hm Hf. apply wp_try. eapply wp_mono; [exact Hm|]. intros t1 [a|e]; [|done].
  intros Ha. eapply wp_mono; [exact (Hf a Ha)|]. done.
Qed.
Lemma accepts_ret {A} fd content (r : result A VerificationError) (good : A -> Prop) :
  (forall a, r = Ok a -> good a) -> accepts fd content (Ret r) good.
Proof. intros Hr. apply wp_ret. destruct r; [by apply Hr|done]. Qed.
Lemma accepts_err {A} fd content e (good : A -> Prop) : accepts fd content (Ret (Err e)) good.
Proof. by apply wp_ret. Qed.
Lemma accepts_read {F} fd content (f : IoError -> F) len (off : nat) :
  (Z.of_nat (off + len) < 2 ^ 63)%Z ->
  wp (serves fd content) (io_map_err f (pread_exact fd len (Z.of_nat off))) (fun _ r =>
    match r with Ok data => data = slice off (off + len) content /\ length data = len | Err _ => True end).
Proof. intros Ho. apply wp_map_err. eapply wp_mono; [by apply wp_pread_exact|]. by intros tr [|]. Qed.

Lemma compact_judged content context expected name start k :
  verify_compact context expected name start content = Ok k ->
  k = ReceiptCompact /\ exists c, CompactReceipt_decode content = Ok c /\
      cr_job_id c = cf_job_id (tn_common name) /\ cr_lease_token c = tn_token name /\
      (forall e, expected = Some e ->
         cr_envelope_digest c = er_envelope_digest e /\ cr_original_payload_length c = er_payload_length e).
Proof.
  unfold verify_compact. intros Hk. rsteps Hk. apply map_err_ok_inv in E. split; [done|]. exists t.
  unfold compact_path_fields_match in G. breflect. do 3 (split; [done|]).
  intros e ->. unfold compact_evidence_matches in G1. by breflect.
Qed.

Lemma full_judged fd content context expected name :
  accepts fd content (verify_full fd context expected name) (fun k => exists job payload,
    k = ReceiptFull job /\
    ValidatedEnvelope_from_bytes content true
      = Ok (mkValidatedEnvelope (vj_header job) (vj_extension job) payload) /\
    fh_job_id (vj_header job) = cf_job_id (tn_common name) /\
    (forall e, expected = Some e ->
       fh_envelope_digest (vj_header job) = er_envelope_digest e /\
       fh_payload_length (vj_header job) = er_payload_length e)).
Proof.
  unfold verify_full. eapply accepts_try; [eapply judges_accepts, envelope_judged|]. intros job (payload & Hc & _).
  destruct (full_path_fields_match _ _) eqn:E1; cbn [negb]; [|apply accepts_err].
  destruct (payload_length_is_allowed _ _) eqn:E2; cbn [negb]; [|apply accepts_err].
  destruct (if expected is Some e then _ else _) eqn:E3; [apply accepts_err|].
  eapply accepts_try; [by eapply judges_accepts, (payload_judged _ _ _ _ Hc)|]. intros ? Hp.
  apply accepts_ret. intros k [= <-]. exists job, payload. unfold full_path_fields_match, full_evidence_matches in *.
  split; [done|]. split; [|split; [by breflect|intros e ->; by breflect]].
  apply from_bytes_checks. destruct Hc as (?&?&?&?&?&?&_). by repeat split.
Qed.

(** Every accepted receipt is evidence. *)
Lemma verify_receipt_accepts fd content context expected :
  accepts fd content (verify_receipt_on_fd fd context expected) (receipt_evidence content context expected).
Proof.
  unfold verify_receipt_on_fd. eapply accepts_try; [eapply judges_accepts, (judges_fstat _ _ True)|]. intros st Hst.
  destruct (is_regular st); cbn [negb]; [|apply accepts_err].
  destruct (_ =? 1)%Z; cbn [negb]; [|apply accepts_err].
  destruct (_ <? 0)%Z; [apply accepts_err|].
  eapply accepts_try with (G1 := fun x => check_receipt_place context expected = Ok x);
    [by apply accepts_ret|]. intros [[name bucket] start] Hplace.
  apply receipt_place_checked in Hplace as (Hn & Ht & Hsh & (Ha1 & Ha2 & Ha3) & Hexp).
  assert (1 <= cf_attempt (tn_common name))%Z as Ha.
  { apply parse_receipt_iff in Hn as [((_ & _ & [? _] & _) & _) _]. lia. }
  eapply accepts_try; [apply (accepts_read fd content _ 128 0); lia|]. intros record [-> Hl].
  rewrite length_slice' in Hl.
  eapply accepts_try with (G1 := fun k => forall d i b, receipt_evidence content context expected
    (mkVerifiedReceipt name b k d i)).
  2:{ intros k Hk. apply accepts_ret. intros ? [= <-]. apply Hk. }
  destruct (is_compact_receipt _ _) eqn:Hc.
  - apply accepts_ret. intros k Hk d i b.
    assert (length content = 128%nat) as Hlen.
    { unfold is_compact_receipt in Hc. rewrite Hst in Hc. case_match; breflect; [done|].
      unfold COMPACT_RECEIPT_SIZE in *. lia. }
    rewrite slice_all in Hk by done. apply compact_judged in Hk as (-> & Hk). repeat split; try done; apply Hexp; done.
  - eapply wp_mono; [apply full_judged|]. intros t [k|]; [|done].
    intros (job & payload & -> & Hk) d i b. repeat split; try done; try (by apply Hexp). by exists payload.
Qed.

(** An accepted receipt is evidence of that acknowledgement.  When
    [verify_receipt_on_fd] accepts a file, its name parses, carries a valid
    attempt, is tagged for the bucket and shard it was found in and lies in its
    job's shard; the file is either a compact record repeating job and token or
    a complete job envelope whose both digests match; and when a particular
    acknowledgement is expected, identity, token, envelope digest and payload
    length are those expected. *)
Theorem receipt_acceptance_sound fd content context expected tr vr :
  exec (verify_receipt_on_fd fd context expected) tr (Ok vr) -> Forall (serves fd content) tr ->
  receipt_evidence content context expected vr.
Proof. intros He Hs. exact (verify_receipt_accepts fd content context expected tr (Ok vr) He Hs). Qed.

End Exact.

(** ** Examples *)

(** A file in memory: reads deliver at most two bytes short of the request. *)
Definition sample_file_kernel (content : bytes) (s : unit) (c : Syscall) : Answer * unit :=
  (match c with
   | SysPread _ len off => Reads (take (Nat.min len (Nat.max 1 (len - 2))) (drop (Z.to_nat off) content))
   | SysFstat _ => Stats (mkStat 1 7 33188 1 (Z.of_nat (length content)))
   | _ => Returns 9
   end, s).

Lemma sample_kernel_serves {A} fd content (p : io A) :
  Forall (serves fd content) (run (sample_file_kernel content) tt p).1.1.
Proof.
  induction p as [a|c k IH]; cbn [run]; [constructor|].
  destruct (sample_file_kernel content tt c) as [r []] eqn:E.
  specialize (IH r). destruct (run _ tt (k r)) as [[tr a] u]. constructor; [|exact IH]. clear IH.
  injection E as <-. destruct c as [| | | | | | | | | |f len off| | | | | | | | | | | | | | | | |]; try done. intros _. cbn.
  set (n := Nat.min len _). set (l := drop _ content). assert (n <= len)%nat by (subst n; lia).
  split; [|split].
  - rewrite length_take. destruct (decide (n <= length l)%nat); [by rewrite Nat.min_l by lia|].
    by rewrite Nat.min_r, !take_ge by lia.
  - rewrite length_take. lia.
  - intros E%(f_equal length). rewrite length_take in E. cbn in E. subst n l. rewrite length_drop in E. lia.
Qed.

Definition sample_job_header : FixedHeader :=
  with_envelope_digest sample_header
    (default [] (@envelope_digest checksum256 sample_header [xa1; x01])).
Definition sample_job_file : bytes :=
  match FixedHeader_encode sample_job_header [xa1; x01] with
  | Ok hb => hb ++ [xa1; x01] ++ [x61; x62; x63]
  | Err _ => []
  end.
Definition sample_verify_run :=
  run (sample_file_kernel sample_job_file) tt (@verify_job_on_fd checksum256 sample_texts 3).

Lemma verification_exact_witness :
  exists payload,
    @ValidatedEnvelope_from_bytes checksum256 sample_job_file true
    = Ok (mkValidatedEnvelope sample_job_header [xa1; x01] payload) /\ 133%Z = Z.of_nat (length sample_job_file).
Proof.
  refine (@verification_exact checksum256 sample_texts 3 sample_job_file
    sample_verify_run.1.1 (Ok (mkVerifiedJob 9 sample_job_header [xa1; x01] 1 7 133)) _ _).
  - vm_compute. repeat split.
  - apply sample_kernel_serves.
Defined.

(** A compact receipt of the sample job in terminal bucket 5. *)
Definition sample_receipt_context : ReceiptContext :=
  let shard := shard_hex (@compute_shard checksum256 (zeros 16) (cf_job_id sample_common) 256) in
  mkReceiptContext (zeros 16) 256 60000000000 1048576 (bucket_hex 5) shard
    (@make_receipt_name checksum256 (zeros 16) (bucket_hex 5) shard sample_common (replicate 16 x0c)).
Definition sample_compact : CompactReceipt :=
  mkCompactReceipt (cf_job_id sample_common) (replicate 32 x2b) 1 (replicate 16 x0c) 300000000000 12.
Definition sample_expected : ExpectedReceipt :=
  mkExpectedReceipt sample_common (replicate 16 x0c) (replicate 32 x2b) 12.
Definition sample_receipt_run :=
  run (sample_file_kernel (@CompactReceipt_encode checksum256 sample_compact)) tt
    (@verify_receipt_on_fd checksum256 sample_texts 3 sample_receipt_context (Some sample_expected)).
Definition sample_verified_receipt : VerifiedReceipt :=
  match sample_receipt_run.1.2 with
  | Ok vr => vr
  | Err _ => mkVerifiedReceipt (mkReceiptName sample_common [] []) 0 ReceiptCompact 0 0
  end.

Lemma receipt_acceptance_sound_witness :
  @receipt_evidence checksum256 (@CompactReceipt_encode checksum256 sample_compact)
    sample_receipt_context (Some sample_expected) sample_verified_receipt.
Proof.
  refine (@receipt_acceptance_sound checksum256 sample_texts 3 _ _ _ sample_receipt_run.1.1 _ _ _).
  - vm_compute. repeat split.
  - apply sample_kernel_serves.
Defined.
