(* ===== verification/Queue.v ===== *)
(** * The queue handle

    Models the shared part of [crates/steadq-core/src/queue/]: the creation and
    open options ([options.rs]), the recovery cursor's data ([cursors.rs]), the
    handle [Queue] with its poisoning rule and the helpers of [mod.rs].

    A method of the handle is an [op]: it takes the handle together with the
    dirty set its caller passed, if any, makes system calls, and returns its
    result with both updated.  The [RefCell] fields are ordinary fields here.
    Descriptors are raw numbers; closing them is left out. *)
From stdpp Require Import base numbers list option strings gmap.
From Stdlib Require Import Strings.Byte ZArith.
From S2P Require Import Prelude Math Names Format FsLinux FsRead StateMachine Ticket Layout Engine Logic Verified.
Open Scope string_scope.
Open Scope list_scope.

(** ** Options *)

Record CreateOptions : Type := mkCreateOptions {
  co_shard_count : Z;
  co_lease_bucket_width_ns : Z;
  co_delayed_bucket_width_ns : Z;
  co_terminal_bucket_width_ns : Z;
  co_max_payload_length : Z
}.
Definition CreateOptions_default : CreateOptions :=
  mkCreateOptions 64 10000000000 10000000000 3600000000000 MAX_PAYLOAD_LENGTH.

Definition validate_create_options (opts : CreateOptions) : result unit Error :=
  let n := co_shard_count opts in
  let terminal := co_terminal_bucket_width_ns opts in
  if (n =? 0)%Z || negb (is_power_of_two n) || (4096 <? n)%Z then Err (InvalidInput "invalid shard count")
  else if (co_lease_bucket_width_ns opts =? 0)%Z
  then Err (InvalidInput "lease bucket width must be non-zero")
  else if (co_delayed_bucket_width_ns opts =? 0)%Z
  then Err (InvalidInput "delayed bucket width must be non-zero")
  else if (terminal =? 0)%Z then Err (InvalidInput "terminal bucket width must be non-zero")
  else if negb ((60000000000 <=? terminal)%Z && (terminal <=? 86400000000000)%Z)
  then Err (InvalidInput "invalid terminal bucket width")
  else if negb (terminal mod co_delayed_bucket_width_ns opts =? 0)%Z
  then Err (InvalidInput "delayed bucket width must divide terminal bucket width")
  else if (MAX_PAYLOAD_LENGTH <? co_max_payload_length opts)%Z
  then Err (InvalidInput "payload limit exceeds maximum")
  else Ok tt.

Definition MIN_LEASE_DURATION_NS : Z := 1000000000.
Definition MAX_LEASE_DURATION_NS : Z := 604800000000000.
Definition lease_duration_is_valid (duration_ns : Z) : bool :=
  (MIN_LEASE_DURATION_NS <=? duration_ns)%Z && (duration_ns <=? MAX_LEASE_DURATION_NS)%Z.
Definition payload_length_is_valid (payload_length maximum : Z) : bool := (payload_length <=? maximum)%Z.

Record OpenOptions : Type := mkOpenOptions {
  allow_unsupported_fs : bool;
  receipt_retention_ns : Z;
  temporary_file_ttl_ns : Z;
  oo_deferred_dir_sync : bool
}.
Definition OpenOptions_default : OpenOptions :=
  mkOpenOptions false (7 * 24 * 60 * 60 * 1000000000) (24 * 60 * 60 * 1000000000) false.

(** ** Recovery cursor data *)

Record ThreeLevelCursor : Type := mkThreeLevelCursor {
  t3_first : bytes; t3_second : bytes; t3_resume_after : bytes }.
Record FourLevelCursor : Type := mkFourLevelCursor {
  t4_first : bytes; t4_second : bytes; t4_third : bytes; t4_resume_after : bytes }.

(** [(a, b, ...) <= (c, d, ...)]: the lexicographic order on tuples of slices. *)
Fixpoint tuple_leb (x y : list bytes) : bool :=
  match x, y with
  | a :: x', b :: y' => bytes_ltb a b || (bool_decide (a = b) && tuple_leb x' y')
  | [], _ => true
  | _ :: _, [] => false
  end.
Definition ThreeLevelCursor_should_skip (c : ThreeLevelCursor) (first second entry : bytes) : bool :=
  tuple_leb [first; second; entry] [t3_first c; t3_second c; t3_resume_after c].
Definition FourLevelCursor_should_skip (c : FourLevelCursor) (first second third entry : bytes) : bool :=
  tuple_leb [first; second; third; entry] [t4_first c; t4_second c; t4_third c; t4_resume_after c].

Inductive RecoveryPhase : Type :=
| ReapLeases | PromoteDelayed | CleanupTemp | CompactReceipts | DeleteReceipts.
Inductive RecoveryHierarchyRetryKind : Type := RetryOpen | RetryEnumerate.
Record RecoveryHierarchyRetry : Type := mkRecoveryHierarchyRetry {
  rr_phase : RecoveryPhase;
  rr_kind : RecoveryHierarchyRetryKind;
  rr_components : list bytes
}.
Record RecoveryCursor : Type := mkRecoveryCursor {
  rk_phase : RecoveryPhase;
  rk_reap_leases : option FourLevelCursor;
  rk_reap_colocated_shard : option Z;
  rk_reap_colocated_position : option Z;
  rk_promote_delayed : option ThreeLevelCursor;
  rk_cleanup_temp : option ThreeLevelCursor;
  rk_compact_receipts : option ThreeLevelCursor;
  rk_delete_receipts : option ThreeLevelCursor;
  rk_hierarchy_retries : list RecoveryHierarchyRetry;
  rk_hierarchy_retry_frontiers : list RecoveryHierarchyRetry;
  rk_hierarchy_retry_overflow : list RecoveryPhase
}.
Definition RecoveryCursor_default : RecoveryCursor :=
  mkRecoveryCursor ReapLeases None None None None None None None [] [] [].

(** ** The handle *)

Record WallFloor : Type := mkWallFloor {
  unix_ns : Z;
  watermark_bucket : Z;
  watermark_sequence : Z
}.

(** The fields set at open and never written again. *)
Record QueueConfig : Type := mkQueueConfig {
  root_fd : Z;
  root_path : bytes;
  format : FormatRecord;
  boot_id : bytes;
  q_boot_id_bytes : bytes;
  worker_nonce : bytes;
  options : OpenOptions;
  maint_lock_fd : option Z;
  deferred_dir_sync : bool
}.
Record Queue : Type := mkQueue {
  config : QueueConfig;
  poisoned : option PoisonReason;
  scan_round : Z;
  ready_shard_hint : option Z;
  recovery_cursor : RecoveryCursor;
  cached_wall_floor : option WallFloor;
  cached_watermark_fd : option Z;
  known_dirs : gset bytes;
  cached_dest_fd : option (bytes * Z);
  publication_mode : option PublicationMode;
  dirty : DirtySet;
  ready_watch : option Z;
  ready_watch_attempted : bool
}.

Definition set_poisoned (x : option PoisonReason) (q : Queue) : Queue :=
  mkQueue (config q) x (scan_round q) (ready_shard_hint q) (recovery_cursor q) (cached_wall_floor q)
    (cached_watermark_fd q) (known_dirs q) (cached_dest_fd q) (publication_mode q) (dirty q)
    (ready_watch q) (ready_watch_attempted q).
Definition set_ready_shard_hint (x : option Z) (q : Queue) : Queue :=
  mkQueue (config q) (poisoned q) (scan_round q) x (recovery_cursor q) (cached_wall_floor q)
    (cached_watermark_fd q) (known_dirs q) (cached_dest_fd q) (publication_mode q) (dirty q)
    (ready_watch q) (ready_watch_attempted q).
Definition set_cached_wall_floor (x : option WallFloor) (q : Queue) : Queue :=
  mkQueue (config q) (poisoned q) (scan_round q) (ready_shard_hint q) (recovery_cursor q) x
    (cached_watermark_fd q) (known_dirs q) (cached_dest_fd q) (publication_mode q) (dirty q)
    (ready_watch q) (ready_watch_attempted q).
Definition set_cached_watermark_fd (x : option Z) (q : Queue) : Queue :=
  mkQueue (config q) (poisoned q) (scan_round q) (ready_shard_hint q) (recovery_cursor q) (cached_wall_floor q)
    x (known_dirs q) (cached_dest_fd q) (publication_mode q) (dirty q)
    (ready_watch q) (ready_watch_attempted q).
Definition set_known_dirs (x : gset bytes) (q : Queue) : Queue :=
  mkQueue (config q) (poisoned q) (scan_round q) (ready_shard_hint q) (recovery_cursor q) (cached_wall_floor q)
    (cached_watermark_fd q) x (cached_dest_fd q) (publication_mode q) (dirty q)
    (ready_watch q) (ready_watch_attempted q).
Definition set_cached_dest_fd (x : option (bytes * Z)) (q : Queue) : Queue :=
  mkQueue (config q) (poisoned q) (scan_round q) (ready_shard_hint q) (recovery_cursor q) (cached_wall_floor q)
    (cached_watermark_fd q) (known_dirs q) x (publication_mode q) (dirty q)
    (ready_watch q) (ready_watch_attempted q).
Definition set_publication_mode (x : option PublicationMode) (q : Queue) : Queue :=
  mkQueue (config q) (poisoned q) (scan_round q) (ready_shard_hint q) (recovery_cursor q) (cached_wall_floor q)
    (cached_watermark_fd q) (known_dirs q) (cached_dest_fd q) x (dirty q)
    (ready_watch q) (ready_watch_attempted q).
Definition set_dirty (x : DirtySet) (q : Queue) : Queue :=
  mkQueue (config q) (poisoned q) (scan_round q) (ready_shard_hint q) (recovery_cursor q) (cached_wall_floor q)
    (cached_watermark_fd q) (known_dirs q) (cached_dest_fd q) (publication_mode q) x
    (ready_watch q) (ready_watch_attempted q).
Definition set_scan_round (x : Z) (q : Queue) : Queue :=
  mkQueue (config q) (poisoned q) x (ready_shard_hint q) (recovery_cursor q) (cached_wall_floor q)
    (cached_watermark_fd q) (known_dirs q) (cached_dest_fd q) (publication_mode q) (dirty q)
    (ready_watch q) (ready_watch_attempted q).
Definition set_ready_watch (x : option Z) (q : Queue) : Queue :=
  mkQueue (config q) (poisoned q) (scan_round q) (ready_shard_hint q) (recovery_cursor q) (cached_wall_floor q)
    (cached_watermark_fd q) (known_dirs q) (cached_dest_fd q) (publication_mode q) (dirty q)
    x (ready_watch_attempted q).
Definition set_ready_watch_attempted (x : bool) (q : Queue) : Queue :=
  mkQueue (config q) (poisoned q) (scan_round q) (ready_shard_hint q) (recovery_cursor q) (cached_wall_floor q)
    (cached_watermark_fd q) (known_dirs q) (cached_dest_fd q) (publication_mode q) (dirty q)
    (ready_watch q) x.

(** ** Methods as programs on the handle *)

(** The handle and the dirty set passed by the caller, if any. *)
Record Ctx : Type := mkCtx { handle : Queue; dirty_arg : option DirtySet }.

Definition op (A : Type) : Type := Ctx -> io (A * Ctx).
Definition op_ret {A : Type} (a : A) : op A := fun cx => Ret (a, cx).
Definition op_bind {A B : Type} (m : op A) (f : A -> op B) : op B :=
  fun cx => io_bind (m cx) (fun x => f x.1 x.2).
(** [match m { Ok(x) => x, Err(e) => return f(e) }], and [?] when [f] builds an [Err]. *)
Definition op_or {A E R : Type} (m : op (result A E)) (f : E -> R) (k : A -> op R) : op R :=
  op_bind m (fun r => match r with Ok a => k a | Err e => op_ret (f e) end).
Definition call {A : Type} (p : io A) : op A := fun cx => io_bind p (fun a => Ret (a, cx)).
Definition gets {A : Type} (f : Queue -> A) : op A := fun cx => Ret (f (handle cx), cx).
Definition modify (f : Queue -> Queue) : op unit := fun cx => Ret (tt, mkCtx (f (handle cx)) (dirty_arg cx)).

(** [match dirty { Some(_) => m, None => m' }] *)
Definition by_dirty {A : Type} (m m' : op A) : op A :=
  fun cx => match dirty_arg cx with Some _ => m cx | None => m' cx end.

Notation "'let*' x ':=' m 'in' k" := (op_bind m (fun x => k))
  (at level 10, x pattern, m at level 100, k at level 200,
   format "'[v' 'let*'  x  ':='  m  'in' '//' k ']'") : steadq_scope.
Notation "'let*?' x ':=' m 'else' f 'in' k" := (op_or m f (fun x => k))
  (at level 10, x pattern, m at level 100, f at level 100, k at level 200,
   format "'[v' 'let*?'  x  ':='  m  'else'  f  'in' '//' k ']'") : steadq_scope.

(** Run a method without a dirty set, or with the handle's own. *)
Definition strictly {A : Type} (m : op A) (q : Queue) : io (A * Queue) :=
  let! x := m (mkCtx q None) in Ret (x.1, handle x.2).
Definition deferring {A : Type} (m : op A) (q : Queue) : io (A * Queue) :=
  let! x := m (mkCtx (set_dirty DirtySet_new q) (Some (dirty q))) in
  Ret (x.1, set_dirty (default DirtySet_new (dirty_arg x.2)) (handle x.2)).

Definition check_not_poisoned : op (result unit Error) :=
  gets (fun q => match poisoned q with
                 | Some reason => Err (QueuePoisoned (PoisonReason_fmt reason))
                 | None => Ok tt
                 end).
(** [get_or_insert]: the first reason wins. *)
Definition poison (reason : PoisonReason) : op unit :=
  modify (fun q => set_poisoned (Some (default reason (poisoned q))) q).

Definition queue_id (q : Queue) : bytes := fr_queue_id (format (config q)).
Definition layout (q : Queue) : Layout :=
  let f := format (config q) in
  mkLayout (fr_queue_id f) (fr_shard_count f) (fr_lease_bucket_width_ns f) (fr_delayed_bucket_width_ns f)
    (fr_terminal_bucket_width_ns f) (boot_id (config q)).

(** ** Witnesses and classifications *)

Record ClaimSourceWitness : Type := mkClaimSourceWitness {
  cw_file_fd : Z; cw_device : Z; cw_inode : Z; cw_evidence : TicketEvidence }.
Record LeasedSourceWitness : Type := mkLeasedSourceWitness {
  lw_directory_fd : Z; lw_name : bytes; lw_file_fd : Z; lw_device : Z; lw_inode : Z }.

Inductive LeasedMoveOutcome : Type :=
| MoveCommitted
| MoveUnknown (phase : TransitionPhase)
| SourceGone
| SourceChanged
| Collision
| MoveFailed (e : Error).

Inductive WitnessPathObservation : Type := ObsMatch | ObsGone | ObsMismatch.
Inductive LeaseDirectoryOpenFailure : Type := LeaseDirGone | LeaseDirInvalid | LeaseDirIo.
Inductive PresenceFailure : Type := PresenceAbsent | PresenceIo.

Definition identity_matches (device inode expected_device expected_inode : Z) : bool :=
  (device =? expected_device)%Z && (inode =? expected_inode)%Z.
Definition is_singly_linked_regular (st : Stat) : bool := is_regular st && (st_nlink st =? 1)%Z.
Definition stat_matches_witness (st : Stat) (device inode : Z) : bool :=
  is_singly_linked_regular st && identity_matches (st_dev st) (st_ino st) device inode.

Definition lock_open_flags (access : Z) : Z := access + O_CLOEXEC + O_NOFOLLOW.
Definition resolver_file_open_flags : Z := O_NOFOLLOW + O_CLOEXEC + O_NONBLOCK.

Definition classify_lease_directory_open_failure (e : IoError) : LeaseDirectoryOpenFailure :=
  if os_error_in [ENOENT] e then LeaseDirGone
  else if os_error_in [ENOTDIR] e then LeaseDirInvalid
  else LeaseDirIo.
Definition classify_presence_failure (e : IoError) : PresenceFailure :=
  if os_error_in [ENOENT] e then PresenceAbsent else PresenceIo.

Definition ticket_phase_for_move_outcome_unknown (phase : MovePhase) : TransitionPhase :=
  match phase with
  | SourceFsync => DestinationDirectoryDurable
  | _ => Linearized
  end.

Definition lease_common (l : LeaseInfo) : CommonFields :=
  mkCommon (li_job_id l) (li_generation l) (li_attempt l) (li_maximum_attempts l).

Definition next_identity (operation : ProtocolOperation) (source : CommonFields) : result CommonFields Error :=
  map_err (fun error => match error with
    | IdentityOverflow => StateExhausted
    | IdentityIndeterminate => InvalidInput "operation has an indeterminate generation change"
    end) (next_common_fields operation source).

Inductive RetryTiming : Type :=
| Immediate
| Delayed (not_before_ns : Z) (wall_floor : WallFloor).

Definition preferred_publication_mode (filesystem_type : Z) : option PublicationMode :=
  if (filesystem_type =? ZFS_SUPER_MAGIC)%Z then Some NamedFallback else None.

Definition STATE_DIRECTORIES : list bytes :=
  [lit "control"; lit "ready"; lit "leased"; lit "delayed"; lit "receipts"; lit "dead";
   lit "quarantine"; lit "tmp"].
Definition init_synced_directories (f : FormatRecord) : gset bytes :=
  list_to_set (STATE_DIRECTORIES
    ++ map (fun shard => lit "ready/" ++ shard_hex (Z.of_nat shard)) (seq 0 (Z.to_nat (fr_shard_count f)))).

Definition open_relative (root_fd : Z) (relative : bytes) : io (result Z IoError) :=
  let!? relative := lift (validate_relative_path relative) in
  open_directory_beneath root_fd relative.

Section Helpers.
Context {T : Texts}.

Definition Error_of_io (e : IoError) : Error := Error_from_io io_text e.

Definition classify_filesystem_type (observation : result Z IoError) (allow_unsupported : bool)
  : result (option Z) Error :=
  match observation with
  | Ok filesystem_type =>
      if allow_unsupported || bool_decide (is_Some (supported_filesystem_name filesystem_type))
      then Ok (Some filesystem_type)
      else Err UnsupportedFilesystem
  | Err e => if allow_unsupported then Ok None else Err (Error_of_io e)
  end.

Definition observe_witness_path (directory_fd : Z) (name : bytes) (device inode : Z)
  : io (result WitnessPathObservation Error) :=
  let! r := fstatat directory_fd name in
  Ret (match r with
       | Ok st => if stat_matches_witness st device inode then Ok ObsMatch else Ok ObsMismatch
       | Err e => if os_error_in [ENOENT] e then Ok ObsGone else Err (Error_of_io e)
       end).

(** [DirtySet::record] *)
Definition DirtySet_record (s : DirtySet) (fd : Z) : io (result unit IoError * DirtySet) :=
  DirtySet_record_with s fd (fun fd =>
    io_map_err (fun e => CustomError KOther (io_text e)) (try_clone_to_owned fd)).
(** Recording in the dirty set the caller passed. *)
Definition record_arg (fd : Z) : op (result unit IoError) :=
  fun cx =>
    match dirty_arg cx with
    | None => Ret (Ok tt, cx)
    | Some d =>
        let! x := DirtySet_record d fd in
        Ret (x.1, mkCtx (handle cx) (Some x.2))
    end.

(** *** Payload readers *)

Record VerifiedPayloadReader : Type := mkVerifiedPayloadReader {
  pr_file_fd : Z; pr_payload_start : Z; pr_payload_len : Z }.

Definition read_at (r : VerifiedPayloadReader) (buf_len offset : Z) : io (result bytes Error) :=
  if (pr_payload_len r <=? offset)%Z || (buf_len =? 0)%Z then Ret (Ok [])
  else
    let to_read := Z.to_nat (Z.min buf_len (pr_payload_len r - offset)) in
    let abs_offset := wrap64 (pr_payload_start r + offset) in
    let!? data := io_map_err Error_of_io (pread (pr_file_fd r) to_read abs_offset) in
    if (length data =? 0)%nat then Ret (Err (QueueCorrupt "unexpected EOF during payload read"))
    else Ret (Ok data).

End Helpers.

(** ** Evolution of the handle *)

(** A dirty set is passed on as long as there is one, and directories are
    only ever added to it. *)
Definition grows (d d' : option DirtySet) : Prop :=
  match d, d' with
  | Some d, Some d' => dirs d ⊆ dirs d' /\ pending_dirs d ⊆ pending_dirs d'
  | None, None => True
  | _, _ => False
  end.
#[export] Instance grows_preorder : PreOrder grows.
Proof.
  split.
  - intros [d|]; cbn; done.
  - intros [a|] [b|] [c|]; cbn; try done. intros [H1 H2] [H3 H4]. split; by etrans.
Qed.

(** What every method outside recovery respects: the configuration is fixed, a
    poisoned handle keeps its reason, the dirty set grows, and the recovery
    cursor stays as it is. *)
Definition evolves (cx cx' : Ctx) : Prop :=
  config (handle cx') = config (handle cx) /\
  (poisoned (handle cx) <> None -> poisoned (handle cx') = poisoned (handle cx)) /\
  grows (dirty_arg cx) (dirty_arg cx') /\
  recovery_cursor (handle cx') = recovery_cursor (handle cx).
#[export] Instance evolves_preorder : PreOrder evolves.
Proof.
  split.
  - intros cx. done.
  - intros a b c (H1 & H2 & H3 & C1) (H4 & H5 & H6 & C2). split; [congruence|].
    split; [|split; [by etrans|congruence]]. intros Hp. rewrite <- H2 by done. apply H5. by rewrite H2.
Qed.

(** [runs sel m cx Q]: in every execution of [m] from [cx], the number of
    selected calls that took effect, the result and the final context satisfy
    [Q]. *)
Definition runs {A : Type} (sel : Syscall -> bool) (m : op A) (cx : Ctx) (Q : nat -> A -> Ctx -> Prop) : Prop :=
  counts sel (m cx) (fun n x => Q n x.1 x.2).

Section Runs.
Context {sel : Syscall -> bool}.

Lemma runs_ret {A} (a : A) cx (Q : nat -> A -> Ctx -> Prop) : Q 0%nat a cx -> runs sel (op_ret a) cx Q.
Proof. intros H. unfold runs. by apply counts_ret. Qed.
Lemma runs_gets {A} (f : Queue -> A) cx (Q : nat -> A -> Ctx -> Prop) :
  Q 0%nat (f (handle cx)) cx -> runs sel (gets f) cx Q.
Proof. intros H. unfold runs. by apply counts_ret. Qed.
Lemma runs_modify f cx (Q : nat -> unit -> Ctx -> Prop) :
  Q 0%nat tt (mkCtx (f (handle cx)) (dirty_arg cx)) -> runs sel (modify f) cx Q.
Proof. intros H. unfold runs. by apply counts_ret. Qed.
Lemma runs_bind {A B} (m : op A) (f : A -> op B) cx (Q : nat -> B -> Ctx -> Prop) :
  runs sel m cx (fun n a cx' => runs sel (f a) cx' (fun k => Q (n + k)%nat)) -> runs sel (op_bind m f) cx Q.
Proof. intros H. unfold runs, op_bind. apply counts_bind. exact H. Qed.
Lemma runs_mono {A} (m : op A) cx (Q R : nat -> A -> Ctx -> Prop) :
  runs sel m cx Q -> (forall n a cx', Q n a cx' -> R n a cx') -> runs sel m cx R.
Proof. intros H HQ. eapply counts_mono; [exact H|]. intros n [a cx']. apply HQ. Qed.
Lemma runs_or {A E R} (m : op (result A E)) (f : E -> R) (k : A -> op R) cx (Q : nat -> R -> Ctx -> Prop) :
  runs sel m cx (fun n r cx' => match r with
    | Ok a => runs sel (k a) cx' (fun k => Q (n + k)%nat)
    | Err e => Q n (f e) cx'
    end) -> runs sel (op_or m f k) cx Q.
Proof.
  intros H. apply runs_bind. eapply runs_mono; [exact H|]. intros n [a|e] cx'; [done|].
  intros HQ. apply runs_ret. by rewrite Nat.add_0_r.
Qed.
Lemma runs_call {A} (p : io A) cx (Q : nat -> A -> Ctx -> Prop) :
  counts sel p (fun n a => Q n a cx) -> runs sel (call p) cx Q.
Proof.
  intros H. unfold runs, call. apply counts_bind. eapply counts_mono; [exact H|].
  intros n a HQ. apply counts_ret. cbn. by rewrite Nat.add_0_r.
Qed.
Lemma runs_call_silent {A} (p : io A) cx (Q : nat -> A -> Ctx -> Prop) :
  silent sel p -> (forall a, Q 0%nat a cx) -> runs sel (call p) cx Q.
Proof. intros Hp HQ. by apply runs_call, counts_silent. Qed.

Lemma runs_by_dirty {A} (m m' : op A) cx (Q : nat -> A -> Ctx -> Prop) :
  runs sel m cx Q -> runs sel m' cx Q -> runs sel (by_dirty m m') cx Q.
Proof. intros H1 H2. unfold runs, by_dirty in *. by destruct (dirty_arg cx). Qed.

End Runs.

(** A method that places no job and changes the context only as [R] allows. *)
Definition keeps {A : Type} (R : Ctx -> Ctx -> Prop) (m : op A) : Prop :=
  forall sel, Placing sel -> forall cx, runs sel m cx (fun n _ cx' => n = 0%nat /\ R cx cx').
Abbreviation calm := (keeps evolves).

Lemma runs_keeps {A} {sel : Syscall -> bool} `{!Placing sel} R (m : op A) cx (Q : nat -> A -> Ctx -> Prop) :
  keeps R m -> (forall a cx', R cx cx' -> Q 0%nat a cx') -> runs sel m cx Q.
Proof. intros H HQ. eapply runs_mono; [by apply H|]. intros n a cx' [-> He]. by apply HQ. Qed.
Lemma runs_keeps_result {A} {sel : Syscall -> bool} `{!Placing sel} R (m : op A) cx
    (Q : nat -> A -> Ctx -> Prop) (P : A -> Prop) :
  keeps R m -> runs sel m cx (fun _ a _ => P a) -> (forall a cx', R cx cx' -> P a -> Q 0%nat a cx') ->
  runs sel m cx Q.
Proof.
  intros Hk Hp HQ tr x Hx. destruct (Hk sel _ cx tr x Hx) as [-> HR]. apply HQ; [done|]. exact (Hp tr x Hx).
Qed.
Lemma keeps_weaken {A} (R S : Ctx -> Ctx -> Prop) (m : op A) :
  keeps R m -> (forall cx cx', R cx cx' -> S cx cx') -> keeps S m.
Proof. intros Hm HRS sel Hsel cx. eapply runs_keeps; [exact Hm|]. auto. Qed.

Section Keeps.
Context {R : Ctx -> Ctx -> Prop} `{!PreOrder R}.

Lemma keeps_ret {A} (a : A) : keeps R (op_ret a).
Proof. intros sel Hs cx. apply runs_ret. done. Qed.
Lemma keeps_gets {A} (f : Queue -> A) : keeps R (gets f).
Proof. intros sel Hs cx. apply runs_gets. done. Qed.
Lemma keeps_modify f : (forall q d, R (mkCtx q d) (mkCtx (f q) d)) -> keeps R (modify f).
Proof. intros Hf sel Hs [q d]. apply runs_modify. split; [done|]. apply Hf. Qed.
Lemma keeps_bind {A B} (m : op A) (f : A -> op B) : keeps R m -> (forall a, keeps R (f a)) -> keeps R (op_bind m f).
Proof.
  intros Hm Hf sel Hs cx. eapply runs_bind, runs_keeps; [done|]. intros a cx1 H1.
  eapply runs_mono; [by apply Hf|]. intros n b cx2 [-> H2]. split; [done|by etrans].
Qed.
Lemma keeps_or {A E B} (m : op (result A E)) (f : E -> B) (k : A -> op B) :
  keeps R m -> (forall a, keeps R (k a)) -> keeps R (op_or m f k).
Proof. intros Hm Hk. apply keeps_bind; [done|]. intros [a|e]; [apply Hk|apply keeps_ret]. Qed.
Lemma keeps_call {A} (p : io A) : (forall sel, Placing sel -> silent sel p) -> keeps R (call p).
Proof. intros Hp sel Hs cx. apply runs_call_silent; [by apply Hp|done]. Qed.

Lemma keeps_by_dirty {A} (m m' : op A) : keeps R m -> keeps R m' -> keeps R (by_dirty m m').
Proof. intros H1 H2 sel Hs [q [d|]]; [by apply H1|by apply H2]. Qed.

End Keeps.

Lemma calm_poison r : calm (poison r).
Proof. apply keeps_modify. intros q d. split; [done|]. split; [|done]. cbn. by destruct (poisoned q). Qed.
Lemma keeps_check R `{!PreOrder R} : keeps R check_not_poisoned.
Proof. apply keeps_gets. Qed.

Create HintDb keeps.
#[export] Hint Resolve calm_poison keeps_check : keeps.
#[export] Hint Extern 2 (PreOrder _) => typeclasses eauto : keeps.

(** Prove that a method keeps to a relation by following its structure. *)
Ltac keeps_step :=
  lazymatch goal with
  | |- keeps _ (op_ret _) => apply keeps_ret
  | |- keeps _ (gets _) => apply keeps_gets
  | |- keeps _ (op_bind _ _) => apply keeps_bind; [|intros ?]
  | |- keeps _ (op_or _ _ _) => apply keeps_or; [|intros ?]
  | |- keeps _ (call _) => apply keeps_call; intros ? ?; silence
  | |- keeps _ (by_dirty _ _) => apply keeps_by_dirty
  | |- keeps _ (modify _) => apply keeps_modify; solve [intros ? ?; done]
  | |- keeps _ (match ?x with _ => _ end) => destruct x
  | |- keeps _ (let x := _ in _) => cbv zeta
  | |- keeps _ _ => solve [auto 2 with keeps nocore]
  end.
Ltac keeping := intros; repeat keeps_step.

(** [leaves m cx Q]: whatever calls that place nothing came before, every
    execution of [m] from [cx] ends with a whole trace, a result and a context
    that satisfy [Q]. *)
Definition leaves {A : Type} (m : op A) (cx : Ctx) (Q : list event -> A -> Ctx -> Prop) : Prop :=
  forall t0 tr x, tally places t0 = 0%nat -> exec (m cx) tr x -> Q (t0 ++ tr) x.1 x.2.

Lemma leaves_ret {A} (a : A) cx (Q : list event -> A -> Ctx -> Prop) :
  (forall tr, tally places tr = 0%nat -> Q tr a cx) -> leaves (op_ret a) cx Q.
Proof. intros HQ t0 tr x H0 [-> ->]%exec_ret. rewrite app_nil_r. by apply HQ. Qed.
Lemma leaves_bind {A B} (m : op A) (f : A -> op B) cx (Q : list event -> B -> Ctx -> Prop) :
  calm m -> (forall a cx', evolves cx cx' -> leaves (f a) cx' Q) -> leaves (op_bind m f) cx Q.
Proof.
  intros Hm Hf t0 tr x H0 (t1 & t2 & [a cx'] & -> & H1 & H2)%exec_bind.
  destruct (Hm places _ cx t1 _ H1) as [Hn He]. rewrite app_assoc. apply (Hf a cx' He); [|done].
  by rewrite tally_app, H0, Hn.
Qed.
Lemma leaves_bind_gets {A B} (g : Queue -> A) (f : A -> op B) cx (Q : list event -> B -> Ctx -> Prop) :
  leaves (f (g (handle cx))) cx Q -> leaves (op_bind (gets g) f) cx Q.
Proof.
  intros Hf t0 tr x H0 (t1 & t2 & y & -> & H1 & H2)%exec_bind. apply exec_ret in H1 as [-> ->]. by apply Hf.
Qed.
Lemma leaves_or {A E R} (m : op (result A E)) (f : E -> R) (k : A -> op R) cx (Q : list event -> R -> Ctx -> Prop) :
  calm m -> (forall e cx' tr, evolves cx cx' -> tally places tr = 0%nat -> Q tr (f e) cx') ->
  (forall a cx', evolves cx cx' -> leaves (k a) cx' Q) -> leaves (op_or m f k) cx Q.
Proof. intros Hm He Hk. apply leaves_bind; [done|]. intros [a|e] cx' H'; [by apply Hk|apply leaves_ret; eauto]. Qed.
Lemma leaves_or_ret {A E R} (r : result A E) (f : E -> R) (k : A -> op R) cx (Q : list event -> R -> Ctx -> Prop) :
  (forall e tr, tally places tr = 0%nat -> Q tr (f e) cx) ->
  (forall a, r = Ok a -> leaves (k a) cx Q) -> leaves (op_or (op_ret r) f k) cx Q.
Proof.
  intros He Hk t0 tr x H0 (t1 & t2 & y & -> & H1 & H2)%exec_bind. apply exec_ret in H1 as [-> ->]. cbn [fst snd] in H2.
  destruct r as [a|e]; [by apply (Hk a)|]. apply exec_ret in H2 as [-> ->]. cbn. rewrite app_nil_r. by apply He.
Qed.
Lemma leaves_mono {A} (m : op A) cx (P Q : list event -> A -> Ctx -> Prop) :
  leaves m cx P -> (forall tr a cx', P tr a cx' -> Q tr a cx') -> leaves m cx Q.
Proof. intros Hm HPQ t0 tr x H0 Hx. by apply HPQ, Hm. Qed.
Lemma leaves_calm {A} (m : op A) cx (Q : list event -> A -> Ctx -> Prop) :
  calm m -> (forall tr a cx', evolves cx cx' -> tally places tr = 0%nat -> Q tr a cx') -> leaves m cx Q.
Proof.
  intros Hm HQ t0 tr x H0 Hx. destruct (Hm places _ cx tr _ Hx) as [Hn He]. apply HQ; [done|].
  by rewrite tally_app, H0, Hn.
Qed.

(** [traces m cx Q]: in every execution of [m] from [cx] the trace, the result
    and the final context satisfy [Q]. *)
Definition traces {A : Type} (m : op A) (cx : Ctx) (Q : list event -> A -> Ctx -> Prop) : Prop :=
  forall tr x, exec (m cx) tr x -> Q tr x.1 x.2.

Lemma traces_ret {A} (a : A) cx (Q : list event -> A -> Ctx -> Prop) : Q [] a cx -> traces (op_ret a) cx Q.
Proof. intros HQ tr x [-> ->]%exec_ret. exact HQ. Qed.
Lemma traces_bind {A B} (m : op A) (f : A -> op B) cx (Q : list event -> B -> Ctx -> Prop) :
  traces m cx (fun t1 a cx1 => traces (f a) cx1 (fun t2 => Q (t1 ++ t2))) -> traces (op_bind m f) cx Q.
Proof. intros Hm tr x (t1 & t2 & y & -> & H1 & H2)%exec_bind. exact (Hm t1 y H1 t2 x H2). Qed.
Lemma traces_or {A B E} (m : op (result A E)) (f : E -> B) (k : A -> op B) cx (Q : list event -> B -> Ctx -> Prop) :
  traces m cx (fun t1 r cx1 => match r with
    | Ok a => traces (k a) cx1 (fun t2 => Q (t1 ++ t2))
    | Err e => Q t1 (f e) cx1
    end) -> traces (op_or m f k) cx Q.
Proof.
  intros Hm. apply traces_bind. intros tr x Hx. specialize (Hm tr x Hx). destruct x.1; [done|].
  apply traces_ret. by rewrite app_nil_r.
Qed.
Lemma traces_gets {A} (f : Queue -> A) cx (Q : list event -> A -> Ctx -> Prop) :
  Q [] (f (handle cx)) cx -> traces (gets f) cx Q.
Proof. intros HQ tr x [-> ->]%exec_ret. exact HQ. Qed.
Lemma traces_modify f cx (Q : list event -> unit -> Ctx -> Prop) :
  Q [] tt (mkCtx (f (handle cx)) (dirty_arg cx)) -> traces (modify f) cx Q.
Proof. intros HQ tr x [-> ->]%exec_ret. exact HQ. Qed.
Lemma traces_call {A} (p : io A) cx (Q : list event -> A -> Ctx -> Prop) :
  (forall tr a, exec p tr a -> Q tr a cx) -> traces (call p) cx Q.
Proof.
  intros HQ tr x (t1 & t2 & a & -> & H1 & [-> ->]%exec_ret)%exec_bind. rewrite app_nil_r. by apply HQ.
Qed.
Lemma traces_by_dirty {A} (m m' : op A) cx (Q : list event -> A -> Ctx -> Prop) :
  (is_Some (dirty_arg cx) -> traces m cx Q) -> (dirty_arg cx = None -> traces m' cx Q) -> traces (by_dirty m m') cx Q.
Proof. intros H1 H2. unfold traces, by_dirty in *. destruct (dirty_arg cx); auto. Qed.
Lemma traces_mono {A} (m : op A) cx (P Q : list event -> A -> Ctx -> Prop) :
  traces m cx P -> (forall tr a cx', P tr a cx' -> Q tr a cx') -> traces m cx Q.
Proof. intros HP HPQ tr x Hx. by apply HPQ, HP. Qed.


(** Selecting fewer placements counts fewer. *)
Lemma tally_placing (sel : Syscall -> bool) `{!Placing sel} tr : tally places tr = 0%nat -> tally sel tr = 0%nat.
Proof.
  induction tr as [|[c r] tr IH]; [done|]. rewrite !tally_cons. intros H.
  destruct (sel c) eqn:Es; cbn [andb]; [rewrite (placing c Es) in H; cbn [andb] in H|]; destruct (negb _); try apply IH; lia.
Qed.

Lemma layout_of_config q q' : config q' = config q -> layout q' = layout q.
Proof. unfold layout. by intros ->. Qed.

Section HelperSpecs.
Context {T : Texts}.

Lemma silent_open_relative {sel : Syscall -> bool} `{!Acting sel} fd p : silent sel (open_relative fd p).
Proof. unfold open_relative. silence. Qed.
Lemma silent_observe {sel : Syscall -> bool} `{!Acting sel} d n dev ino :
  silent sel (observe_witness_path d n dev ino).
Proof. unfold observe_witness_path. silence. Qed.
Lemma silent_record {sel : Syscall -> bool} `{!Acting sel} s fd : silent sel (DirtySet_record s fd).
Proof. unfold DirtySet_record, DirtySet_record_with. silence. Qed.
(** Recording adds the directory whose identity the kernel reports. *)
Definition records (fd : Z) (tr : list event) (d : option DirtySet) : Prop :=
  match d with
  | Some d => exists a st, (SysFstat fd, a) ∈ tr /\ check_stat a = Ok st /\ is_Some (dirs d !! (st_dev st, st_ino st))
  | None => True
  end.
Lemma record_arg_records fd cx :
  traces (record_arg fd) cx (fun tr r cx' => handle cx' = handle cx /\ evolves cx cx' /\
    (is_ok r = true -> records fd tr (dirty_arg cx'))).
Proof.
  intros tr x Hx. destruct cx as [q [d|]]; unfold record_arg in Hx; cbn [dirty_arg] in Hx.
  - apply exec_bind in Hx as (t1 & t2 & [r d'] & -> & H1 & H2). apply exec_ret in H2 as [-> ->]. rewrite app_nil_r.
    apply record_with_outcome in H1 as (Hs & Hp & H1). split; [done|]. split.
    { split; [done|]. split; [done|]. cbn. by rewrite Hp. }
    intros Hr. destruct r; [|done]. destruct H1 as (a & st & t2 & -> & Ha & Hk & _). exists a, st. split; [|done].
    apply list_elem_of_here.
  - apply exec_ret in Hx as [-> ->]. done.
Qed.
Lemma calm_record_arg fd : calm (record_arg fd).
Proof.
  intros sel Hs cx tr x Hx. split; [|by destruct (record_arg_records fd cx tr x Hx) as (_ & He & _)]. revert tr x Hx.
  change (silent sel (record_arg fd cx)). unfold record_arg. destruct (dirty_arg cx); silence. apply silent_record; apply _.
Qed.
End HelperSpecs.
#[export] Hint Resolve silent_open_relative silent_observe silent_record : silent.
#[export] Hint Resolve calm_record_arg : keeps.

(** *** Directories that await their barrier *)

(** The directories whose entries a placement changes. *)
Definition place_dirs (c : Syscall) : list Z :=
  match c with
  | SysRenameat2 src_dir _ dst_dir _ _ => [src_dir; dst_dir]
  | SysLinkat _ _ dst_dir _ _ => [dst_dir]
  | _ => []
  end.
Definition elsewhere (sel : Syscall -> bool) (fds : list Z) (c : Syscall) : bool :=
  sel c && negb (forallb (fun fd => bool_decide (fd ∈ fds)) (place_dirs c)).
#[export] Instance elsewhere_placing sel fds : Placing sel -> Placing (elsewhere sel fds).
Proof. intros Hs c Hc. apply Hs. unfold elsewhere in Hc. by destruct (sel c). Qed.

(** Every selected placement of the trace changed only directories that the
    dirty set holds. *)
Definition recorded (sel : Syscall -> bool) (tr : list event) (d : option DirtySet) : Prop :=
  exists fds, tally (elsewhere sel fds) tr = 0%nat /\ Forall (fun fd => records fd tr d) fds.

Lemma records_mono fd t0 t1 t2 d d' : grows d d' -> records fd t1 d -> records fd (t0 ++ t1 ++ t2) d'.
Proof.
  destruct d as [d|], d' as [d'|]; try done. intros [Hd _] (a & st & Hi & Ha & [c Hc]). exists a, st.
  split; [rewrite !elem_of_app; tauto|]. split; [done|]. exists c. by eapply lookup_weaken.
Qed.
Lemma tally_elsewhere sel fds tr : tally sel tr = 0%nat -> tally (elsewhere sel fds) tr = 0%nat.
Proof.
  induction tr as [|[c a] tr IH]; [done|]. rewrite !tally_cons. unfold elsewhere at 1.
  destruct (sel c); cbn [andb]; [|exact IH]. destruct (negb (failed a)); [lia|]. by rewrite andb_false_r.
Qed.
Lemma recorded_mono sel t0 t1 t2 d d' :
  grows d d' -> tally sel t0 = 0%nat -> tally sel t2 = 0%nat -> recorded sel t1 d -> recorded sel (t0 ++ t1 ++ t2) d'.
Proof.
  intros Hg H0 H2 (fds & Ht & Hf). exists fds. split; [|eapply Forall_impl; [exact Hf|intros fd; by apply records_mono]].
  by rewrite !tally_app, Ht, !tally_elsewhere.
Qed.
Lemma recorded_nothing sel tr d : tally sel tr = 0%nat -> recorded sel tr d.
Proof. intros Ht. exists []. split; [by apply tally_elsewhere|constructor]. Qed.
Lemma recorded_none sel tr : recorded sel tr None.
Proof.
  exists (flat_map (fun e => place_dirs e.1) tr). split; [|by apply Forall_true].
  set (all := flat_map _ _). assert (Hall : forall e, e ∈ tr -> forall fd, fd ∈ place_dirs e.1 -> fd ∈ all).
  { intros e He fd Hfd. apply list_elem_of_In, in_flat_map. exists e. by rewrite <- !list_elem_of_In. }
  clearbody all. induction tr as [|[c a] tr IH]; [done|]. rewrite tally_cons, IH by (intros; eapply Hall; [by right|done]).
  unfold elsewhere. assert (forallb (fun fd => bool_decide (fd ∈ all)) (place_dirs c) = true) as ->.
  { apply forallb_forall. intros fd Hfd%list_elem_of_In. apply bool_decide_eq_true, (Hall (c, a)); [by left|done]. }
  by rewrite andb_false_r.
Qed.
(** Two directories recorded in turn after the placements. *)
Lemma recorded_pair sel t0 t1 t2 fd1 fd2 d d' :
  tally (elsewhere sel [fd1; fd2]) t0 = 0%nat -> tally sel t1 = 0%nat -> tally sel t2 = 0%nat ->
  records fd1 t1 d -> grows d d' -> records fd2 t2 d' -> recorded sel (t0 ++ t1 ++ t2) d'.
Proof.
  intros H0 H1 H2 Hr1 Hg Hr2. exists [fd1; fd2]. split; [by rewrite !tally_app, H0, !tally_elsewhere|].
  repeat constructor; [by eapply records_mono|].
  rewrite <- (app_nil_r t2), app_assoc. by apply (records_mono _ _ _ _ d').
Qed.

(** ** Properties *)

(** The options check decides exactly what the FORMAT record accepts.
    [validate_create_options], which runs before init touches the filesystem,
    accepts options exactly when [FormatRecord::new] accepts the same
    parameters, so no accepted option fails later and none is refused that the
    record would allow. *)
Theorem create_options_match_format opts qid created :
  is_ok (validate_create_options opts) =
  is_ok (FormatRecord_new qid created (co_shard_count opts) (co_lease_bucket_width_ns opts)
           (co_delayed_bucket_width_ns opts) (co_terminal_bucket_width_ns opts) (co_max_payload_length opts)).
Proof.
  unfold validate_create_options, FormatRecord_new, check_format_parameters. cbv zeta.
  destruct (_ || (4096 <? _)%Z); [done|].
  destruct (co_lease_bucket_width_ns opts =? 0)%Z; [done|].
  destruct (co_delayed_bucket_width_ns opts =? 0)%Z; [done|]. cbn [orb].
  destruct (co_terminal_bucket_width_ns opts =? 0)%Z eqn:E; [apply Z.eqb_eq in E; by rewrite E|].
  destruct (negb (_ && _)); [done|]. destruct (negb _); [done|]. by destruct (_ <? _)%Z.
Qed.

(** ** A sample handle *)

Definition sample_config : QueueConfig :=
  mkQueueConfig 3 (lit "/q") sample_format (lit "00112233-4455-6677-8899-aabbccddeeff")
    (replicate 16 x01) (replicate 16 x02) OpenOptions_default None false.
Definition sample_queue : Queue :=
  mkQueue sample_config None 0 None RecoveryCursor_default None None ∅
    None None DirtySet_new None false.

(** A small kernel that obliges: files are known by name and descriptor, other
    descriptors are directories, and every mutation succeeds without changing
    what is known. *)
Record SampleFile : Type := mkSampleFile { sf_name : bytes; sf_fd : Z; sf_links : Z; sf_content : bytes }.
Definition sample_stat (f : SampleFile) : Stat :=
  mkStat 1 (sf_fd f) 33188 (sf_links f) (Z.of_nat (length (sf_content f))).
Definition sample_disk (files : list SampleFile) (s : unit) (c : Syscall) : Answer * unit :=
  let named name := List.find (fun f => bool_decide (sf_name f = name)) files in
  let held fd := List.find (fun f => (sf_fd f =? fd)%Z) files in
  (match c with
   | SysOpenat _ name flags _ =>
       match named name with
       | Some f => Returns (sf_fd f)
       | None => if (Z.land flags (O_DIRECTORY + O_CREAT) =? 0)%Z then Fails ENOENT else Returns 7
       end
   | SysOpenat2 _ _ _ _ _ | SysDupfd _ => Returns 7
   | SysFstat fd => Stats (match held fd with Some f => sample_stat f | None => mkStat 1 fd 16877 2 4096 end)
   | SysFstatat _ name _ => match named name with Some f => Stats (sample_stat f) | None => Fails ENOENT end
   | SysWrite _ d | SysPwrite _ d _ => Returns (Z.of_nat (length d))
   | SysWritev _ l => Returns (Z.of_nat (length (concat l)))
   | SysPread fd len off =>
       Reads (match held fd with Some f => take len (drop (Z.to_nat off) (sf_content f)) | None => [] end)
   | SysClockGettime _ => Times 1700000000 700
   | SysGetrandom n => Reads (replicate n x5a)
   | _ => Returns 0
   end, s).
