(* ===== verification/Watermark.v ===== *)
(** * The wall-clock watermark

    Models [crates/steadq-core/src/queue/watermark.rs]: optimistic reads of the
    shared watermark record, the wall floor computed from it, and its advance
    under the write lock. *)
From stdpp Require Import base numbers list option strings gmap.
From Stdlib Require Import Strings.Byte ZArith.
From S2P Require Import Prelude Math Names Format FsLinux FsRead StateMachine Ticket Layout Engine Logic Verified Queue.
Open Scope string_scope.
Open Scope list_scope.

Inductive WatermarkReadError : Type :=
| WatermarkNotFound
| WatermarkTruncated (s : string)
| WatermarkCorrupt (s : string)
| WatermarkIo (s : string).

Inductive WatermarkSnapshot : Type := SnapshotCurrent (w : WatermarkRecord) | SnapshotReplaced.

Definition WATERMARK_READ_ATTEMPTS : nat := 8.

Definition watermark_open_is_not_found (e : IoError) : bool := bool_decide (kind e = KNotFound).
Definition watermark_open_flags : Z := O_NOFOLLOW + O_CLOEXEC.
Definition watermark_should_advance (observed_bucket stored_bucket : Z) : bool :=
  (stored_bucket <? observed_bucket)%Z.

Definition watermark_path_matches_opened (opened current : Stat) : result bool WatermarkReadError :=
  if negb (is_regular current) then Err (WatermarkCorrupt "watermark is not a regular file")
  else if (st_nlink current =? 0)%Z then Ok false
  else if negb (st_nlink current =? 1)%Z
  then Err (WatermarkCorrupt "watermark is not a singly-linked regular file")
  else Ok (identity_matches (st_dev current) (st_ino current) (st_dev opened) (st_ino opened)).

Definition WATERMARK_NAME : bytes := lit "wall-watermark".
Definition CONTROL_DIR : bytes := lit "control".

Section Watermark.
Context `{Sha256} {T : Texts}.

Definition read_opened_wall_watermark (control_fd data_fd : Z)
  : io (result WatermarkSnapshot WatermarkReadError) :=
  let!? st := io_map_err (fun e => WatermarkIo (io_text e)) (fstat data_fd) in
  if negb (is_regular st) then Ret (Err (WatermarkCorrupt "watermark is not a regular file"))
  else if (st_nlink st =? 0)%Z then Ret (Ok SnapshotReplaced)
  else if negb (st_nlink st =? 1)%Z
  then Ret (Err (WatermarkCorrupt "watermark is not a singly-linked regular file"))
  else if (st_size st <? Z.of_nat WATERMARK_SIZE)%Z
  then Ret (Err (WatermarkTruncated ("expected " +:+ number_text (Z.of_nat WATERMARK_SIZE)
         +:+ " bytes, found " +:+ number_text (st_size st))))
  else if negb (st_size st =? Z.of_nat WATERMARK_SIZE)%Z
  then Ret (Err (WatermarkCorrupt ("expected " +:+ number_text (Z.of_nat WATERMARK_SIZE)
         +:+ " bytes, found " +:+ number_text (st_size st))))
  else
    let!? buf := io_map_err (fun error =>
        if bool_decide (kind error = KUnexpectedEof) then WatermarkTruncated (io_text error)
        else WatermarkIo (io_text error)) (pread_exact data_fd WATERMARK_SIZE 0) in
    let!? watermark := lift (map_err (fun e => WatermarkCorrupt (watermark_text e)) (WatermarkRecord_decode buf)) in
    let!? current := io_map_err (fun error =>
        if watermark_open_is_not_found error then WatermarkNotFound else WatermarkIo (io_text error))
      (fstatat control_fd WATERMARK_NAME) in
    let!? matches := lift (watermark_path_matches_opened st current) in
    if negb matches then Ret (Ok SnapshotReplaced) else Ret (Ok (SnapshotCurrent watermark)).

(** The [for _ in 0..attempts] loop. *)
Fixpoint read_attempts (attempts : nat) (control_fd : Z)
  : op (result (option WatermarkRecord) WatermarkReadError) :=
  match attempts with
  | O => op_ret (Ok None)
  | S attempts' =>
      let open_current :=
        let* r := call (openat control_fd WATERMARK_NAME watermark_open_flags 0) in
        match r with
        | Err e =>
            op_ret (Err (if watermark_open_is_not_found e then WatermarkNotFound else WatermarkIo (io_text e)))
        | Ok data =>
            let*? snapshot := call (read_opened_wall_watermark control_fd data) else Err in
            match snapshot with
            | SnapshotCurrent watermark =>
                let* _ := modify (set_cached_watermark_fd (Some data)) in
                op_ret (Ok (Some watermark))
            | SnapshotReplaced => read_attempts attempts' control_fd
            end
        end in
      let* cached := gets cached_watermark_fd in
      match cached with
      | None => open_current
      | Some data =>
          let*? snapshot := call (read_opened_wall_watermark control_fd data) else Err in
          match snapshot with
          | SnapshotCurrent watermark => op_ret (Ok (Some watermark))
          | SnapshotReplaced =>
              let* _ := modify (set_cached_watermark_fd None) in
              open_current
          end
      end
  end.

Definition try_read_wall_watermark (attempts : nat)
  : op (result (option WatermarkRecord) WatermarkReadError) :=
  let* root := gets (fun q => root_fd (config q)) in
  let*? control_fd := call (open_directory root CONTROL_DIR) else (fun e => Err (WatermarkIo (io_text e))) in
  read_attempts attempts control_fd.

Definition read_wall_watermark : op (result WatermarkRecord WatermarkReadError) :=
  let*? watermark := try_read_wall_watermark WATERMARK_READ_ATTEMPTS else Err in
  op_ret (match watermark with
          | Some w => Ok w
          | None => Err (WatermarkIo ("wall watermark changed during " +:+
              number_text (Z.of_nat WATERMARK_READ_ATTEMPTS) +:+ " consecutive reads"))
          end).

Definition watermark_read_failure (e : WatermarkReadError) : Error :=
  match e with
  | WatermarkNotFound => QueueCorrupt "wall watermark missing"
  | WatermarkTruncated msg => QueueCorrupt ("watermark truncated: " +:+ msg)
  | WatermarkCorrupt msg => QueueCorrupt ("watermark corrupt: " +:+ msg)
  | WatermarkIo msg => IoFailure msg
  end.

Definition delayed_width (q : Queue) : Z := fr_delayed_bucket_width_ns (format (config q)).

Definition authenticated_wall_floor_with_attempts (attempts : nat) : op (result WallFloor Error) :=
  let*? read := try_read_wall_watermark attempts else (fun e => Err (watermark_read_failure e)) in
  match read with
  | None => op_ret (Err MaintenanceBusy)
  | Some watermark =>
      let*? clock := call clock_realtime_ns else (fun e => Err (IoFailure ("CLOCK_REALTIME: " +:+ io_text e))) in
      let* width := gets delayed_width in
      let*? unix_ns := op_ret (ok_or (effective_wall_floor clock (wm_highest_observed_bucket watermark) width)
          (QueueCorrupt "watermark computation overflow")) else Err in
      op_ret (Ok (mkWallFloor unix_ns (wm_highest_observed_bucket watermark) (wm_sequence watermark)))
  end.
Definition authenticated_wall_floor : op (result WallFloor Error) :=
  authenticated_wall_floor_with_attempts WATERMARK_READ_ATTEMPTS.

(** The record as a fresh temporary file, renamed over the watermark. *)
Definition replace_watermark (control_fd : Z) (tmp_name wm_bytes : bytes) : io (result unit Error) :=
  let!? tmp_fd := io_map_err Error_of_io (create_exclusive control_fd tmp_name 384) in
  let! written :=
    (let!? _ := write_all_settled tmp_fd wm_bytes in
     let!? _ := fsync tmp_fd in
     renameat control_fd tmp_name control_fd WATERMARK_NAME) in
  match written with
  | Err error =>
      let! _ := unlinkat control_fd tmp_name in
      Ret (Err (Error_of_io error))
  | Ok _ =>
      io_map_err (fun e => IoFailure ("watermark directory fsync: " +:+ io_text e)) (fsync_dir_fd control_fd)
  end.

Definition advance_wall_watermark_locked (observed : WallFloor) (control_fd : Z) : op (result WallFloor Error) :=
  let* width := gets delayed_width in
  let*? observed_bucket := op_ret (ok_or (bucket_number (unix_ns observed) width) StateExhausted) else Err in
  let*? wm := read_wall_watermark else (fun e => Err (watermark_read_failure e)) in
  if negb (watermark_should_advance observed_bucket (wm_highest_observed_bucket wm)) then
    let*? durable_ns :=
      op_ret (ok_or (u64_checked_mul (wm_highest_observed_bucket wm) width) StateExhausted) else Err in
    op_ret (Ok (mkWallFloor (Z.max (unix_ns observed) durable_ns) (wm_highest_observed_bucket wm) (wm_sequence wm)))
  else
    let*? new_seq := op_ret (ok_or (u64_checked_add (wm_sequence wm) 1) StateExhausted) else Err in
    let wm_bytes := WatermarkRecord_encode (mkWatermarkRecord observed_bucket new_seq) in
    let*? random := call random_128bit else (fun e => Err (Error_of_io e)) in
    let tmp_name := lit ".wm.adv." ++ hex_encode random in
    let*? _ := call (replace_watermark control_fd tmp_name wm_bytes) else Err in
    op_ret (Ok (mkWallFloor (unix_ns observed) observed_bucket new_seq)).

Definition with_wall_watermark_write_lock {A : Type} (action : Z -> op (result A Error)) : op (result A Error) :=
  let* root := gets (fun q => root_fd (config q)) in
  let*? control_fd := call (open_directory root CONTROL_DIR) else (fun e => Err (Error_of_io e)) in
  let*? lock_fd := call (openat control_fd (lit "wall-watermark.lock") (lock_open_flags O_RDWR) 384)
    else (fun e => Err (Error_of_io e)) in
  let*? locked := call (try_ofd_write_lock lock_fd) else (fun e => Err (Error_of_io e)) in
  if negb locked then op_ret (Err MaintenanceBusy) else action control_fd.

Definition stabilized_wall_floor : op (result WallFloor Error) :=
  with_wall_watermark_write_lock (fun control_fd =>
    let*? observed := authenticated_wall_floor else Err in
    let* width := gets delayed_width in
    let*? observed_bucket := op_ret (ok_or (bucket_number (unix_ns observed) width) StateExhausted) else Err in
    if negb (watermark_should_advance observed_bucket (watermark_bucket observed)) then op_ret (Ok observed)
    else advance_wall_watermark_locked observed control_fd).

(** [MaintenanceBusy | ResourceExhausted] *)
Definition is_transient (e : Error) : bool :=
  match e with MaintenanceBusy | ResourceExhausted => true | _ => false end.
(** Report an error, poisoning the handle unless it is transient. *)
Definition fail_watermark (e : Error) : op (result WallFloor Error) :=
  if is_transient e then op_ret (Err e)
  else let* _ := poison WatermarkAuthorityLost in op_ret (Err e).

Definition stabilize_floor : op (result WallFloor Error) :=
  let* r := stabilized_wall_floor in
  match r with
  | Ok floor => let* _ := modify (set_cached_wall_floor (Some floor)) in op_ret (Ok floor)
  | Err e => fail_watermark e
  end.

Definition wall_floor_for_mutation_with_attempts (attempts : nat) : op (result WallFloor Error) :=
  let* cache := gets cached_wall_floor in
  match cache with
  | None => stabilize_floor
  | Some cached =>
      let* r := authenticated_wall_floor_with_attempts attempts in
      match r with
      | Err error => fail_watermark error
      | Ok authenticated =>
          let* width := gets delayed_width in
          let*? observed_bucket :=
            op_ret (ok_or (bucket_number (unix_ns authenticated) width) StateExhausted) else Err in
          if (observed_bucket =? watermark_bucket authenticated)%Z
             && (watermark_bucket cached =? watermark_bucket authenticated)%Z
             && (watermark_sequence cached =? watermark_sequence authenticated)%Z
          then
            let floor := mkWallFloor (Z.max (unix_ns cached) (unix_ns authenticated))
                           (watermark_bucket authenticated) (watermark_sequence authenticated) in
            let* _ := modify (set_cached_wall_floor (Some floor)) in
            op_ret (Ok floor)
          else stabilize_floor
      end
  end.
Definition wall_floor_for_mutation : op (result WallFloor Error) :=
  wall_floor_for_mutation_with_attempts WATERMARK_READ_ATTEMPTS.
Definition effective_wall_floor_ns_checked : op (result Z Error) :=
  let*? floor := authenticated_wall_floor else Err in op_ret (Ok (unix_ns floor)).

End Watermark.

(** ** What watermark operations touch *)

(** Only the cached watermark descriptor may differ. *)
Definition touches_watermark_fd (cx cx' : Ctx) : Prop :=
  exists x, cx' = mkCtx (set_cached_watermark_fd x (handle cx)) (dirty_arg cx).
#[export] Instance touches_watermark_fd_preorder : PreOrder touches_watermark_fd.
Proof.
  split.
  - intros [q d]. exists (cached_watermark_fd q). by destruct q.
  - intros a b c [x ->] [y ->]. by exists y.
Qed.
Lemma touches_evolves cx cx' : touches_watermark_fd cx cx' -> evolves cx cx'.
Proof. by intros [x ->]. Qed.

Lemma silent_write_rounds {sel : Syscall -> bool} `{!Changing sel} n fd buf : silent sel (write_rounds n fd buf).
Proof.
  revert buf. induction n as [|n IH]; intros [|b buf]; cbn [write_rounds]; try apply silent_ret.
  apply silent_sys; [by apply not_changing|]. intros r. destruct r; try apply silent_ret; (case_match; [apply silent_ret|apply IH]).
Qed.
Lemma silent_write_all {sel : Syscall -> bool} `{!Changing sel} fd buf : silent sel (write_all_settled fd buf).
Proof. apply silent_write_rounds. Qed.
#[export] Hint Resolve silent_write_all : silent.

Section WatermarkSpecs.
Context `{Sha256} {T : Texts}.

Lemma silent_read_opened {sel : Syscall -> bool} `{!Acting sel} c d : silent sel (read_opened_wall_watermark c d).
Proof. unfold read_opened_wall_watermark. silence. Qed.
Lemma silent_replace_watermark {sel : Syscall -> bool} `{!Placing sel} c n b : silent sel (replace_watermark c n b).
Proof. unfold replace_watermark. silence. Qed.
#[local] Hint Resolve silent_read_opened silent_replace_watermark : silent.

Lemma keeps_watermark_fd x : keeps touches_watermark_fd (modify (set_cached_watermark_fd x)).
Proof. apply keeps_modify. intros q d. by exists x. Qed.
#[local] Hint Resolve keeps_watermark_fd : keeps.

Lemma keeps_read_attempts n c : keeps touches_watermark_fd (read_attempts n c).
Proof.
  induction n as [|n IH]; cbn [read_attempts]; [keeping|]. cbv zeta.
  assert (keeps touches_watermark_fd
    (let* r := call (openat c WATERMARK_NAME watermark_open_flags 0) in
     match r with
     | Err e => op_ret (Err (if watermark_open_is_not_found e then WatermarkNotFound else WatermarkIo (io_text e)))
     | Ok data =>
         let*? snapshot := call (read_opened_wall_watermark c data) else Err in
         match snapshot with
         | SnapshotCurrent watermark =>
             let* _ := modify (set_cached_watermark_fd (Some data)) in op_ret (Ok (Some watermark))
         | SnapshotReplaced => read_attempts n c
         end
     end)) as Hopen by (keeping; apply keeps_watermark_fd).
  apply keeps_bind; [keeping|]. intros [data|]; [|exact Hopen].
  apply keeps_or; [keeping|]. intros [w|]; [keeping|]. apply keeps_bind; [apply keeps_watermark_fd|]. done.
Qed.
#[local] Hint Resolve keeps_read_attempts : keeps.
Lemma keeps_authenticated n : keeps touches_watermark_fd (authenticated_wall_floor_with_attempts n).
Proof. unfold authenticated_wall_floor_with_attempts, try_read_wall_watermark. keeping. Qed.
Lemma keeps_read_watermark : keeps touches_watermark_fd read_wall_watermark.
Proof. unfold read_wall_watermark, try_read_wall_watermark. keeping. Qed.
#[local] Hint Resolve keeps_authenticated keeps_read_watermark : keeps.
Lemma keeps_advance o c : keeps touches_watermark_fd (advance_wall_watermark_locked o c).
Proof. unfold advance_wall_watermark_locked. keeping. Qed.
#[local] Hint Resolve keeps_advance : keeps.
Lemma keeps_stabilized : keeps touches_watermark_fd stabilized_wall_floor.
Proof. unfold stabilized_wall_floor, with_wall_watermark_write_lock, authenticated_wall_floor. keeping. Qed.

Lemma calm_wall_floor : calm wall_floor_for_mutation.
Proof.
  assert (Hs : calm stabilized_wall_floor) by (eapply keeps_weaken; [apply keeps_stabilized|apply touches_evolves]).
  assert (Ha : forall n, calm (authenticated_wall_floor_with_attempts n))
    by (intros n; eapply keeps_weaken; [apply keeps_authenticated|apply touches_evolves]).
  unfold wall_floor_for_mutation, wall_floor_for_mutation_with_attempts, stabilize_floor, fail_watermark.
  keeping; done.
Qed.

(** ** The floor is covered by the watermark *)

(** The floor lies inside the bucket of the watermark it was computed with. *)
Definition covered (width : Z) (f : WallFloor) : Prop :=
  (watermark_bucket f * width <= unix_ns f < (watermark_bucket f + 1) * width)%Z.

Lemma covered_bucket w t : (0 < w)%Z -> (t / w * w <= t < (t / w + 1) * w)%Z.
Proof. intros. pose proof (Z.div_mod t w). pose proof (Z.mod_pos_bound t w). lia. Qed.

(** An authenticated floor is at or after its watermark. *)
Lemma authenticated_after {sel : Syscall -> bool} `{!Placing sel} n cx :
  runs sel (authenticated_wall_floor_with_attempts n) cx (fun _ r _ =>
    match r with
    | Ok f => (watermark_bucket f * delayed_width (handle cx) <= unix_ns f)%Z
    | Err _ => True
    end).
Proof.
  unfold authenticated_wall_floor_with_attempts. apply runs_or.
  assert (Hk : keeps touches_watermark_fd (try_read_wall_watermark n)) by (unfold try_read_wall_watermark; keeping).
  eapply runs_keeps; [exact Hk|]. intros [[w|]|e] cx1 [x ->]; [|by apply runs_ret|done].
  apply runs_or, runs_call, counts_silent; [auto with silent|]. intros [clock|e]; [|done].
  apply runs_bind, runs_gets, runs_or, runs_ret. cbn [handle].
  destruct (effective_wall_floor _ _ _) as [u|] eqn:E; cbn [ok_or]; [|done]. apply runs_ret. cbn.
  unfold effective_wall_floor in E. case_match; [done|].
  apply bind_Some in E as (m & Hm & [= <-]). unfold checked_mul_u64, u64_checked_mul in Hm.
  case_decide; [|done]. injection Hm as <-. unfold delayed_width in *. cbn in *. lia.
Qed.

Lemma advance_covered {sel : Syscall -> bool} `{!Placing sel} o c cx :
  (0 < delayed_width (handle cx))%Z ->
  runs sel (advance_wall_watermark_locked o c) cx (fun _ r _ =>
    match r with Ok f => covered (delayed_width (handle cx)) f | Err _ => True end).
Proof.
  intros Hw. set (w := delayed_width (handle cx)) in *. unfold advance_wall_watermark_locked.
  apply runs_bind, runs_gets, runs_or, runs_ret. fold w.
  unfold bucket_number. destruct (w =? 0)%Z eqn:E; breflect; [done|]. cbn [ok_or].
  apply runs_or. eapply runs_keeps; [apply keeps_read_watermark|]. intros [wm|e] cx1 [x ->]; [|done].
  pose proof (covered_bucket w (unix_ns o) Hw) as Hb. unfold watermark_should_advance.
  destruct (_ <? _)%Z eqn:Hadv; breflect; cbn [negb]; apply runs_or, runs_ret.
  - destruct (u64_checked_add _ _) as [seq|]; cbn [ok_or]; [|done].
    apply runs_or, runs_call, counts_silent; [auto with silent|]. intros [rnd|e]; [|done].
    apply runs_or, runs_call, counts_silent; [apply silent_replace_watermark|]. intros [[]|e]; [|done].
    by apply runs_ret.
  - destruct (u64_checked_mul _ _) as [d|] eqn:Hm; cbn [ok_or]; [|done]. apply runs_ret.
    unfold u64_checked_mul in Hm. case_decide; [|done]. injection Hm as <-. unfold covered. cbn. nia.
Qed.

Lemma stabilized_covered {sel : Syscall -> bool} `{!Placing sel} cx :
  (0 < delayed_width (handle cx))%Z ->
  runs sel stabilized_wall_floor cx (fun _ r _ =>
    match r with Ok f => covered (delayed_width (handle cx)) f | Err _ => True end).
Proof.
  intros Hw. unfold stabilized_wall_floor, with_wall_watermark_write_lock.
  apply runs_bind, runs_gets.
  apply runs_or, runs_call, counts_silent; [auto with silent|]. intros [c|e]; [|done].
  apply runs_or, runs_call, counts_silent; [auto with silent|]. intros [l|e]; [|done].
  apply runs_or, runs_call, counts_silent; [auto with silent|]. intros [[]|e]; [|by apply runs_ret|done].
  cbn [negb]. apply runs_or.
  eapply runs_keeps_result; [apply keeps_authenticated|apply authenticated_after|].
  intros [o|e] cx1 [x ->]; [|done]. intros Ho. apply runs_bind, runs_gets, runs_or, runs_ret.
  assert (Hw1 : delayed_width (handle (mkCtx (set_cached_watermark_fd x (handle cx)) (dirty_arg cx)))
    = delayed_width (handle cx)) by done.
  rewrite Hw1. unfold bucket_number. destruct (_ =? 0)%Z eqn:E; breflect; [done|]. cbn [ok_or].
  pose proof (covered_bucket _ (unix_ns o) Hw) as Hb. unfold watermark_should_advance.
  destruct (_ <? _)%Z eqn:Hadv; breflect; cbn [negb].
  - rewrite <- Hw1. apply advance_covered. by rewrite Hw1.
  - apply runs_ret. unfold covered. nia.
Qed.

(** A floor is a time since the epoch, whatever was cached. *)
Definition after_epoch {E : Type} (r : result WallFloor E) : Prop :=
  match r with Ok f => (0 <= unix_ns f)%Z | Err _ => True end.

Lemma timespec_ns_range s n : (0 <= timespec_ns s n <= u64_max)%Z.
Proof.
  unfold timespec_ns, wrap64, u64_max.
  match goal with |- context [Z.modulo ?a ?b] => pose proof (Z.mod_pos_bound a b ltac:(done)) end. lia.
Qed.
Lemma clock_realtime_nonneg tr t : exec clock_realtime_ns tr (Ok t) -> (0 <= t)%Z.
Proof.
  unfold clock_realtime_ns. destruct tr as [|[c a] tr]; [done|]. intros [_ H1]. cbn in H1.
  apply exec_ret in H1 as [_ H1]. unfold timespec_to_unix_ns in H1.
  destruct a; try done; case_match; try done; injection H1 as ->; apply timespec_ns_range.
Qed.
Lemma authenticated_after_epoch {sel : Syscall -> bool} `{!Placing sel} n cx :
  runs sel (authenticated_wall_floor_with_attempts n) cx (fun _ r _ => after_epoch r).
Proof.
  unfold authenticated_wall_floor_with_attempts. apply runs_or.
  assert (Hk : keeps touches_watermark_fd (try_read_wall_watermark n)) by (unfold try_read_wall_watermark; keeping).
  eapply runs_keeps; [exact Hk|]. intros [[w|]|e] cx1 [x ->]; [|by apply runs_ret|done].
  apply runs_or, runs_call. intros tr [clock|e] Hclock; [|done]. apply clock_realtime_nonneg in Hclock.
  apply runs_bind, runs_gets, runs_or, runs_ret.
  destruct (effective_wall_floor _ _ _) as [u|] eqn:E; cbn [ok_or]; [|done]. apply runs_ret. cbn.
  unfold effective_wall_floor in E. case_match; [done|]. apply bind_Some in E as (m & _ & [= <-]). lia.
Qed.
Lemma advance_after_epoch {sel : Syscall -> bool} `{!Placing sel} o c cx :
  (0 <= unix_ns o)%Z -> runs sel (advance_wall_watermark_locked o c) cx (fun _ r _ => after_epoch r).
Proof.
  intros Ho. unfold advance_wall_watermark_locked. apply runs_bind, runs_gets, runs_or, runs_ret.
  destruct (bucket_number _ _) as [b|]; cbn [ok_or]; [|done].
  apply runs_or. eapply runs_keeps; [apply keeps_read_watermark|]. intros [wm|e] cx1 [x ->]; [|done].
  destruct (negb _); apply runs_or, runs_ret.
  - destruct (u64_checked_mul _ _) as [d|]; cbn [ok_or]; [|done]. apply runs_ret. cbn. lia.
  - destruct (u64_checked_add _ _) as [seq|]; cbn [ok_or]; [|done].
    apply runs_or, runs_call, counts_silent; [auto with silent|]. intros [rnd|e]; [|done].
    apply runs_or, runs_call, counts_silent; [apply silent_replace_watermark|]. intros [[]|e]; [|done].
    by apply runs_ret.
Qed.
Lemma stabilize_after_epoch {sel : Syscall -> bool} `{!Placing sel} cx :
  runs sel stabilize_floor cx (fun _ r _ => after_epoch r).
Proof.
  unfold stabilize_floor. apply runs_bind.
  eapply runs_mono with (Q := fun _ r _ => after_epoch r).
  2:{ intros n [f|e] cx1 Hf; [by apply runs_bind, runs_modify, runs_ret|].
      unfold fail_watermark. destruct (is_transient e); [|apply runs_bind, runs_modify]; by apply runs_ret. }
  unfold stabilized_wall_floor, with_wall_watermark_write_lock. apply runs_bind, runs_gets.
  do 3 (apply runs_or, runs_call, counts_silent; [auto with silent|]; intros [?|?]; [|done]).
  case_match; [by apply runs_ret|]. apply runs_or.
  eapply runs_mono; [apply authenticated_after_epoch|]. intros n [o|e] cx1 Ho; [|done].
  apply runs_bind, runs_gets, runs_or, runs_ret. destruct (bucket_number _ _); cbn [ok_or]; [|done].
  case_match; [by apply runs_ret|]. by apply advance_after_epoch.
Qed.
Lemma wall_floor_after_epoch {sel : Syscall -> bool} `{!Placing sel} cx :
  runs sel wall_floor_for_mutation cx (fun _ r _ => after_epoch r).
Proof.
  unfold wall_floor_for_mutation, wall_floor_for_mutation_with_attempts. apply runs_bind, runs_gets.
  destruct (cached_wall_floor _) as [c|]; [|apply stabilize_after_epoch]. apply runs_bind.
  eapply runs_mono; [apply authenticated_after_epoch|]. intros n [a|e] cx1 Ha.
  - apply runs_bind, runs_gets, runs_or, runs_ret. destruct (bucket_number _ _); cbn [ok_or]; [|done].
    case_match; [|apply stabilize_after_epoch]. apply runs_bind, runs_modify, runs_ret. cbn in *. lia.
  - unfold fail_watermark. destruct (is_transient e); [|apply runs_bind, runs_modify]; by apply runs_ret.
Qed.

Definition floor_cached (cx : Ctx) : Prop :=
  forall f, cached_wall_floor (handle cx) = Some f -> covered (delayed_width (handle cx)) f.

(** The outcome contract of [wall_floor_for_mutation]. *)
Definition floor_outcome (cx : Ctx) (n : nat) (r : result WallFloor Error) (cx' : Ctx) : Prop :=
  n = 0%nat /\ config (handle cx') = config (handle cx) /\ floor_cached cx' /\
  match r with
  | Ok f => covered (delayed_width (handle cx)) f /\ cached_wall_floor (handle cx') = Some f /\
      poisoned (handle cx') = poisoned (handle cx)
  | Err e =>
      poisoned (handle cx')
      = if is_transient e then poisoned (handle cx)
        else Some (default WatermarkAuthorityLost (poisoned (handle cx)))
  end.

Lemma floor_failure {sel : Syscall -> bool} `{!Placing sel} cx cx1 e :
  touches_watermark_fd cx cx1 -> floor_cached cx -> runs sel (fail_watermark e) cx1 (floor_outcome cx).
Proof.
  intros [x ->] Hc. unfold fail_watermark. destruct (is_transient e) eqn:E.
  - apply runs_ret. do 3 (split; [done|]). by rewrite E.
  - apply runs_bind, runs_modify, runs_ret. do 3 (split; [done|]). by rewrite E.
Qed.

Lemma stabilize_floor_outcome {sel : Syscall -> bool} `{!Placing sel} cx cx1 :
  (0 < delayed_width (handle cx))%Z -> touches_watermark_fd cx cx1 -> floor_cached cx ->
  runs sel stabilize_floor cx1 (floor_outcome cx).
Proof.
  intros Hw [x ->] Hc. unfold stabilize_floor. apply runs_bind.
  eapply runs_keeps_result; [apply keeps_stabilized|by apply stabilized_covered|].
  intros [f|e] cx2 [y ->]; cbn [handle dirty_arg].
  - intros Hf. apply runs_bind, runs_modify, runs_ret. cbn [Nat.add].
    split; [done|]. split; [done|]. split; [|done]. intros f' [= <-]. exact Hf.
  - intros _. eapply runs_mono; [apply (floor_failure cx); [by exists y|done]|]. done.
Qed.


(** A watermark record is replaced only by a complete, durable one.  When
    [replace_watermark] succeeds, it created a fresh temporary file, wrote
    exactly the encoded record to it, synced the file, renamed it over the
    watermark and synced the directory, in this order and with every call
    successful. *)
Theorem watermark_replacement_ordered control_fd tmp_name wm_bytes tr u :
  (forall ev, ev ∈ tr -> (exists fd d, ev.1 = SysWrite fd d) -> write_answer_ok ev) ->
  exec (replace_watermark control_fd tmp_name wm_bytes) tr (Ok u) ->
  exists flags ac tmp tw af ar ad,
    tr = (SysOpenat control_fd tmp_name flags 384, ac) :: tw ++
         [(SysFsync tmp, af); (SysRenameat control_fd tmp_name control_fd WATERMARK_NAME, ar); (SysFsync control_fd, ad)] /\
    Z.land flags O_EXCL <> 0%Z /\ check_fd ac = Ok tmp /\ written tw = wm_bytes /\
    Forall (fun ev => exists d, ev.1 = SysWrite tmp d) tw /\
    failed af = false /\ failed ar = false /\ failed ad = false.
Proof.
  intros Hok Hx. unfold replace_watermark in Hx.
  apply exec_try in Hx as [(e & _ & ?)|(t1 & t2 & tmp & -> & H1 & Hx)]; [done|].
  apply exec_map_err_ok in H1. unfold create_exclusive, openat in H1.
  apply exec_try in H1 as [(e & _ & ?)|(s1 & s2 & c_name & -> & [-> Hc]%exec_ret & H1)]; [done|].
  destruct (cstr_from_name_cases tmp_name) as [[E _]|E]; rewrite E in Hc; [injection Hc as ->|done].
  destruct s2 as [|[c ac] s2]; [done|]. destruct H1 as [-> [-> Hfd]%exec_ret].
  apply exec_bind in Hx as (t3 & t4 & [[]|e] & -> & H3 & Hx).
  2:{ apply exec_bind in Hx as (t5 & t6 & x & _ & _ & [_ ?]%exec_ret). done. }
  apply exec_try in H3 as [(e & _ & ?)|(tw & t5 & [] & -> & Hw & H3)]; [done|].
  apply exec_try in H3 as [(e & _ & ?)|(tf & tn & [] & -> & Hf & Hn)]; [done|].
  apply (fsync_ok tmp) in Hf as (af & -> & Haf).
  apply exec_renameat, one_call_ok in Hn as (ar & -> & Har).
  apply exec_map_err_ok, fsync_ok in Hx as (ad & -> & Had).
  assert (Hwrites : forall ev, ev ∈ tw -> exists fd d, ev.1 = SysWrite fd d) by (by eapply write_rounds_calls).
  apply write_all_settled_ok in Hw as [Hw Hf].
  2:{ apply Forall_forall. intros ev Hev. apply Hok; [|by apply Hwrites]. rewrite !elem_of_app. auto. }
  eexists _, ac, tmp, tw, af, ar, ad. split; [by rewrite <- !app_assoc|]. split; [done|]. done.
Qed.

End WatermarkSpecs.

(** ** Examples *)

(** A handle that has just read its floor from a watermark in bucket 1700000000. *)
Definition sample_floor_ctx : Ctx :=
  mkCtx (set_cached_wall_floor (Some (mkWallFloor 1700000000000000500 1700000000 9)) sample_queue) None.


Definition sample_replace_trace : list event :=
  [(SysOpenat 5 (lit ".wm") (Z.lor (Z.lor (Z.lor (Z.lor O_RDWR O_CREAT) O_EXCL) O_NOFOLLOW) O_CLOEXEC) 384, Returns 8);
   (SysWrite 8 [x61; x62], Returns 1); (SysWrite 8 [x62], Returns 1); (SysFsync 8, Returns 0);
   (SysRenameat 5 (lit ".wm") 5 WATERMARK_NAME, Returns 0); (SysFsync 5, Returns 0)].

Lemma watermark_replacement_ordered_witness :
  exists flags ac tmp tw af ar ad,
    sample_replace_trace = (SysOpenat 5 (lit ".wm") flags 384, ac) :: tw ++
      [(SysFsync tmp, af); (SysRenameat 5 (lit ".wm") 5 WATERMARK_NAME, ar); (SysFsync 5, ad)] /\
    Z.land flags O_EXCL <> 0%Z /\ check_fd ac = Ok tmp /\ written tw = [x61; x62] /\
    Forall (fun ev => exists d, ev.1 = SysWrite tmp d) tw /\
    failed af = false /\ failed ar = false /\ failed ad = false.
Proof.
  apply (@watermark_replacement_ordered sample_texts 5 (lit ".wm") [x61; x62] sample_replace_trace tt).
  - intros ev Hev (fd & d & E). unfold sample_replace_trace in Hev.
    repeat (apply elem_of_cons in Hev as [->|Hev]; [cbn in *; first [discriminate|lia]|]).
    by apply not_elem_of_nil in Hev.
  - vm_compute. tauto.
Defined.
