(* ===== verification/Publish.v ===== *)
(** * Publication of jobs

    Models [crates/steadq-core/src/queue/publish.rs]: directory creation with
    its barriers, the prepared envelope, publication through an unnamed
    temporary file or the named fallback, and [sync].  Streaming
    publication is in [Stream].  The temporary-file guard of the named fallback is an
    explicit unlink at the exit of the guarded body.  The iteration order of a
    dirty set is a parameter, [sync_order]. *)
From stdpp Require Import base numbers list option strings gmap.
From Stdlib Require Import Strings.Byte ZArith.
From S2P Require Import Prelude Math Names Format Cbor FsLinux FsRead StateMachine Ticket Layout Engine Logic Verified Queue Watermark.
Open Scope string_scope.
Open Scope list_scope.

Record EnqueueInput : Type := mkEnqueueInput {
  ei_maximum_attempts : Z;
  ei_content_type : bytes;
  ei_metadata : list (bytes * MetadataValue);
  ei_producer_id : option bytes;
  ei_trace_context : option bytes;
  ei_initial_not_before : option Z;
  ei_payload : bytes
}.

Record PreparedEnqueue : Type := mkPreparedEnqueue {
  pe_ticket : EnqueueTicket;
  pe_header : FixedHeader;
  pe_ext_bytes : bytes;
  pe_payload : bytes;
  pe_dest_dir : bytes;
  pe_filename : bytes;
  pe_ready_shard_hint : option Z
}.

(** [str::rsplit_once('/')] and [rsplit('/').next()] *)
Definition rsplit_once (s : bytes) : option (bytes * bytes) :=
  match reverse (split_slash s) with
  | name :: dir :: front => Some (join_slash (reverse (dir :: front)), name)
  | _ => None
  end.
Example rsplit_once_path : rsplit_once (lit "a/b/c") = Some (lit "a/b", lit "c").
Proof. reflexivity. Qed.
Definition last_component (s : bytes) : bytes := default (lit "0000") (last (split_slash s)).

Definition sharded_bucket_parent (relative : bytes) (shard_count : Z) : option bytes :=
  '(bucket, shard_name) ← rsplit_once relative;
  if bool_decide (bucket = lit "ready") then None
  else
    shard ← shard_from_hex shard_name;
    if (shard <? shard_count)%Z then Some bucket else None.

(** ** Errors *)

Inductive PublishError : Type :=
| PubNotCommitted (e : Error)
| PubOutcomeUnknown (e : Error)
| PubOutcomeUnknownPublished (envelope_digest : bytes) (e : Error).

(** The iteration order of the hash map behind a dirty set. *)
Class SyncOrder : Type := sync_order : DirtySet -> list Z.
Class SyncOrderLaws `{SyncOrder} : Prop := sync_order_perm s : sync_order s ≡ₚ DirtySet_values s.

Section Publish.
Context `{Sha256} {T : Texts}.

Definition with_published_digest (e : PublishError) (envelope_digest : bytes) : PublishError :=
  match e with
  | PubOutcomeUnknown error => PubOutcomeUnknownPublished envelope_digest error
  | other => other
  end.

(** The phase prefixed to an I/O message. *)
Definition at_publish_phase (phase : TmpfilePublishPhase) (source : IoError) : Error :=
  match Error_of_io source with
  | IoFailure message =>
      IoFailure ("temporary-file publication failed at " +:+ publish_phase_text phase +:+ ": " +:+ message)
  | classified => classified
  end.
Definition classify_tmpfile (failure : TmpfilePublishFailure) : PublishError :=
  match failure with
  | PublishAlreadyExists => PubNotCommitted IdentityCollision
  | PublishNotCommitted phase source => PubNotCommitted (at_publish_phase phase source)
  | PublishOutcomeUnknown phase source => PubOutcomeUnknown (at_publish_phase phase source)
  end.
Definition from_move_failure (failure : MoveFailure) : PublishError :=
  match failure with
  | MoveAlreadyExists => PubNotCommitted IdentityCollision
  | MoveSourceMissing => PubNotCommitted (IoFailure "temporary publication source missing")
  | MoveNotCommitted _ source => PubNotCommitted (Error_of_io source)
  | MoveOutcomeUnknown _ source => PubOutcomeUnknown (Error_of_io source)
  end.
Definition classify_write (e : IoError) : PublishError := PubNotCommitted (Error_of_io e).
Definition classify_pre_pub_fsync (e : IoError) : PublishError := PubNotCommitted (Error_of_io e).

(** ** Directories *)

Definition dir_is_known (relative : bytes) : op bool :=
  fun cx =>
    Ret (bool_decide (relative ∈ known_dirs (handle cx)) ||
         (if dirty_arg cx is Some set then bool_decide (relative ∈ pending_dirs set) else false), cx).

(** [set.pending_dirs.extend(children)] on the passed set *)
Definition extend_pending (children : list bytes) : op unit :=
  fun cx =>
    Ret (tt, mkCtx (handle cx)
      (option_map (fun d => mkDirtySet (dirs d) (list_to_set children ∪ pending_dirs d)) (dirty_arg cx))).

Definition sync_parent_of (parent : Z) (children : list bytes) : op (result unit IoError) :=
  by_dirty
    (let*? _ := record_arg parent else Err in
     let* _ := extend_pending children in
     op_ret (Ok tt))
    (let*? _ := call (fsync_dir_fd parent) else Err in
     let* _ := modify (fun q => set_known_dirs (list_to_set children ∪ known_dirs q) q) in
     op_ret (Ok tt)).

(** The loop over the components; [prefix] are those already opened. *)
Fixpoint ensure_components (comps prefix : list bytes) (parent : Z) : op (result unit IoError) :=
  match comps with
  | [] => op_ret (Ok tt)
  | comp :: rest =>
      let path := join_slash (prefix ++ [comp]) in
      let* known := dir_is_known path in
      let*? _ := (if known then op_ret (Ok true) else call (mkdirat_eexist_ok parent comp 448)) else Err in
      let*? child := call (open_directory parent comp) else Err in
      let*? _ := (if known then op_ret (Ok tt) else sync_parent_of parent [path]) else Err in
      ensure_components rest (prefix ++ [comp]) child
  end.

Definition shard_count (q : Queue) : Z := fr_shard_count (format (config q)).

(** [0..shard_count] *)
Definition shards (count : Z) : list Z := map Z.of_nat (seq 0 (Z.to_nat count)).

Fixpoint make_shards (bucket_fd : Z) (l : list Z) : io (result unit IoError) :=
  match l with
  | [] => Ret (Ok tt)
  | shard :: l' =>
      let!? _ := mkdirat_eexist_ok bucket_fd (shard_hex shard) 448 in
      make_shards bucket_fd l'
  end.

(** [ensure_sharded_bucket_with_dirty], given the call that ensures the bucket. *)
Definition ensure_sharded_bucket (ensure_bucket : op (result unit IoError)) (bucket : bytes)
  : op (result unit IoError) :=
  let*? _ := ensure_bucket else Err in
  let* root := gets (fun q => root_fd (config q)) in
  let*? bucket_fd := call (open_relative root bucket) else Err in
  let* count := gets shard_count in
  let*? _ := call (make_shards bucket_fd (shards count)) else Err in
  sync_parent_of bucket_fd (map (fun shard => bucket ++ lit "/" ++ shard_hex shard) (shards count)).

(** A sharded bucket is shorter than the path that names a shard in it, so
    the length of the path bounds the recursion (see [ensure_dir_terminates]). *)
Fixpoint ensure_dir_rec (fuel : nat) (relative : bytes) : op (result unit IoError) :=
  let* known := dir_is_known relative in
  if known then op_ret (Ok tt)
  else
    let* count := gets shard_count in
    match sharded_bucket_parent relative count, fuel with
    | Some bucket, S fuel' => ensure_sharded_bucket (ensure_dir_rec fuel' bucket) bucket
    | Some _, O => op_ret (Ok tt)
    | None, _ =>
        let* root := gets (fun q => root_fd (config q)) in
        ensure_components (filter (fun c => c <> []) (split_slash relative)) [] root
    end.
Definition ensure_dir_with_dirty (relative : bytes) : op (result unit IoError) :=
  ensure_dir_rec (length relative) relative.
(** [ensure_dir]: always strict. *)
Definition ensure_dir (relative : bytes) : op (result unit IoError) :=
  fun cx =>
    let! x := ensure_dir_with_dirty relative (mkCtx (handle cx) None) in
    Ret (x.1, mkCtx (handle x.2) (dirty_arg cx)).

(** ** Barriers *)

Section Sync.
Context {O : SyncOrder}.

Definition sync_dirty (d : DirtySet) (q : Queue) : io (result unit IoError * DirtySet * Queue) :=
  let! r := DirtySet_sync_all (sync_order d) in
  Ret (match r with
       | Err e => (Err e, d, q)
       | Ok _ => (Ok tt, DirtySet_clear d, set_known_dirs (pending_dirs d ∪ known_dirs q) q)
       end).

(** The directories [sync] visits when it does not defer. *)
Fixpoint sync_states (root : Z) (l : list bytes) : io (result unit IoError) :=
  match l with
  | [] => Ret (Ok tt)
  | dir :: l' =>
      let! r := open_relative root dir in
      match r with
      | Ok fd => let!? _ := fsync_dir_fd fd in sync_states root l'
      | Err _ => sync_states root l'
      end
  end.
Definition sync (q : Queue) : io (result unit IoError * Queue) :=
  if deferred_dir_sync (config q) then
    if DirtySet_is_empty (dirty q) then Ret (Ok tt, q)
    else
      let! x := sync_dirty (dirty q) q in
      Ret (x.1.1, set_dirty x.1.2 x.2)
  else
    let! r :=
      (let!? _ := sync_states (root_fd (config q))
         [lit "ready"; lit "leased"; lit "delayed"; lit "dead"; lit "receipts"; lit "quarantine"; lit "control"] in
       fsync_dir_fd (root_fd (config q))) in
    Ret (r, q).

End Sync.

(** ** Temporary files *)

(** [TempGuard]: the body reports whether the guard is still armed. *)
Definition with_guard {A : Type} (dir_fd : Z) (name : bytes) (body : op (A * bool)) : op A :=
  let* x := body in
  if (x.2 : bool) then let* _ := call (unlinkat dir_fd name) in op_ret x.1 else op_ret x.1.

Definition open_or_cache_dir (relative : bytes) : op (result Z IoError) :=
  let clone fd := io_map_err (fun e => CustomError KOther (io_text e)) (try_clone_to_owned fd) in
  let open_fresh :=
    let* root := gets (fun q => root_fd (config q)) in
    let*? fd := call (open_relative root relative) else Err in
    let*? copy := call (clone fd) else Err in
    let* _ := modify (set_cached_dest_fd (Some (relative, copy))) in
    op_ret (Ok fd) in
  let* cached := gets cached_dest_fd in
  match cached with
  | Some (cached_path, cached_fd) =>
      if bool_decide (cached_path = relative) then call (clone cached_fd) else open_fresh
  | None => open_fresh
  end.

Definition not_committed_io {A : Type} (e : IoError) : result A PublishError := Err (PubNotCommitted (Error_of_io e)).

(** The three writes of an envelope into a named temporary file, up to its sync. *)
Definition write_envelope (fd : Z) (header : FixedHeader) (ext_bytes payload : bytes)
  : io (result Stat PublishError) :=
  let!? header_bytes := lift (map_err (fun e => PubNotCommitted (InvalidInput (header_text e)))
    (FixedHeader_encode header ext_bytes)) in
  let!? _ := io_map_err classify_write (write_all_settled fd header_bytes) in
  let!? _ := io_map_err classify_write (write_all_settled fd ext_bytes) in
  let!? _ := io_map_err classify_write (write_all_settled fd payload) in
  let!? _ := io_map_err classify_pre_pub_fsync (fsync fd) in
  io_map_err classify_write (fstat fd).

(** The rename of a named temporary file into place, with the guard's state. *)
Definition publish_named (tmp_dir_fd : Z) (temp_name : bytes) (dest_fd : Z) (dest_name : bytes)
    (identity : MoveIdentity) : op (result unit PublishError * bool) :=
  by_dirty
    (let* r := call (move_witnessed_noreplace_deferred tmp_dir_fd temp_name dest_fd dest_name identity
                       (fun _ => Ret (Ok tt))) in
     match r with
     | Ok _ =>
         let*? _ := record_arg tmp_dir_fd else (fun e => (Err (PubOutcomeUnknown (Error_of_io e)), false)) in
         let*? _ := record_arg dest_fd else (fun e => (Err (PubOutcomeUnknown (Error_of_io e)), false)) in
         op_ret (Ok tt, false)
     | Err failure =>
         op_ret (Err (from_move_failure failure), negb (MoveFailure_is_outcome_unknown failure))
     end)
    (let* r := call (move_witnessed_noreplace_io tmp_dir_fd temp_name dest_fd dest_name identity) in
     op_ret (match r with
             | Ok _ => (Ok tt, false)
             | Err failure => (Err (from_move_failure failure), negb (MoveFailure_is_outcome_unknown failure))
             end)).

Definition named_fallback_with_dirty (dest_dir_relative : bytes) (dest_fd : Z) (dest_name : bytes)
    (header : FixedHeader) (ext_bytes payload : bytes) : op (result unit PublishError) :=
  let* boot := gets (fun q => boot_id (config q)) in
  let tmp_dir := lit "tmp/" ++ boot ++ lit "/" ++ last_component dest_dir_relative in
  let*? _ := ensure_dir_with_dirty tmp_dir else not_committed_io in
  let* root := gets (fun q => root_fd (config q)) in
  let*? tmp_dir_fd := call (open_relative root tmp_dir) else not_committed_io in
  let*? boottime := call clock_boottime_ns else not_committed_io in
  let*? random := call random_128bit else not_committed_io in
  let temp_name := temp_filename boottime random in
  let*? tmp_file := call (create_exclusive tmp_dir_fd temp_name 384) else not_committed_io in
  with_guard tmp_dir_fd temp_name (
    let*? temp_stat := call (write_envelope tmp_file header ext_bytes payload) else (fun e => (Err e, true)) in
    publish_named tmp_dir_fd temp_name dest_fd dest_name (mkMoveIdentity (st_dev temp_stat) (st_ino temp_stat))).

(** The branch of [write_and_publish_with_dirty] that holds an unnamed
    temporary file; [fallback] is the named fallback. *)
Definition publish_from_tmpfile (tmp_fd dest_fd : Z) (dest_name : bytes) (header : FixedHeader)
    (ext_bytes payload : bytes) (preferred : option PublicationMode) (fallback : op (result unit PublishError))
  : op (result unit PublishError) :=
  let*? header_bytes := op_ret (map_err (fun e => PubNotCommitted (InvalidInput (header_text e)))
    (FixedHeader_encode header ext_bytes)) else Err in
  let*? _ := call (writev_all_settled tmp_fd [header_bytes; ext_bytes; payload])
    else (fun e => Err (classify_write e)) in
  let* outcome := by_dirty
    (call (publish_tmpfile_noreplace_deferred_with_mode tmp_fd dest_fd dest_name preferred))
    (call (publish_tmpfile_noreplace_with_mode tmp_fd dest_fd dest_name preferred)) in
  match outcome with
  | Ok (Published mode) =>
      let* _ := modify (set_publication_mode (Some mode)) in
      let*? _ := record_arg dest_fd else (fun e => Err (PubOutcomeUnknown (Error_of_io e))) in
      op_ret (Ok tt)
  | Ok Unsupported =>
      let* _ := modify (set_publication_mode (Some NamedFallback)) in
      fallback
  | Err failure => op_ret (Err (classify_tmpfile failure))
  end.

Definition write_and_publish_with_dirty (dest_dir_relative dest_name : bytes) (header : FixedHeader)
    (ext_bytes payload : bytes) : op (result unit PublishError) :=
  let*? _ := ensure_dir_with_dirty dest_dir_relative else not_committed_io in
  let*? dest_fd := open_or_cache_dir dest_dir_relative else not_committed_io in
  let fallback := named_fallback_with_dirty dest_dir_relative dest_fd dest_name header ext_bytes payload in
  let* mode := gets publication_mode in
  match mode with
  | Some NamedFallback => fallback
  | _ =>
      let* tmp := call (open_tmpfile dest_fd) in
      match tmp with
      | Ok tmp_fd => publish_from_tmpfile tmp_fd dest_fd dest_name header ext_bytes payload mode fallback
      | Err e =>
          if is_tmpfile_open_unsupported e then
            let* _ := modify (set_publication_mode (Some NamedFallback)) in
            fallback
          else op_ret (Err (classify_write e))
      end
  end.

(** ** Enqueue *)

(** The extension header and its limits. *)
Definition enqueue_extension (job : EnqueueInput) : ExtensionHeader :=
  mkExtensionHeader (ei_initial_not_before job) (ei_content_type job) (ei_metadata job)
    (ei_producer_id job) (ei_trace_context job).

(** The sealed header of a job, from its extension bytes. *)
Definition enqueue_header (job : EnqueueInput) (job_id : bytes) (created_at : Z) (ext_bytes : bytes)
  : option FixedHeader :=
  let header := mkFixedHeader FORMAT_MINOR (wrap32 (Z.of_nat (length ext_bytes)))
    (Z.of_nat (length (ei_payload job))) 0 DIGEST_ALGORITHM_SHA256 job_id (ei_maximum_attempts job)
    created_at (payload_digest (ei_payload job)) (zeros 32) in
  env_dig ← envelope_digest header ext_bytes;
  Some (with_envelope_digest header env_dig).

(** The initial state and its target. *)
Definition enqueue_target (L : Layout) (job : EnqueueInput) (common : CommonFields) (initial_state : InitialState)
  : result Target Error :=
  match initial_state with
  | InitialReady => Ok (Layout_ready L common)
  | InitialDelayed =>
      match ei_initial_not_before job with
      | None => Err (QueueCorrupt "delayed enqueue lost its deadline")
      | Some not_before_ns => Layout_delayed L common not_before_ns
      end
  end.

Definition prepare_enqueue (job : EnqueueInput) : op (result PreparedEnqueue (EnqueueTicket * Error)) :=
  let uncommitted {A} job_id (e : Error) : result A (EnqueueTicket * Error) :=
    Err (EnqueueTicket_uncommitted job_id, e) in
  let*? _ := check_not_poisoned else (fun e => uncommitted (zeros 16) e) in
  let*? job_id := call random_128bit else (fun e => uncommitted (zeros 16) (Error_of_io e)) in
  let*? wall_floor := wall_floor_for_mutation else (fun e => uncommitted job_id e) in
  let created_at := unix_ns wall_floor in
  if (ei_maximum_attempts job =? 0)%Z
  then op_ret (uncommitted job_id (InvalidInput "maximum_attempts must be >= 1"))
  else
    let*? ext_bytes := op_ret (ExtensionHeader_encode (enqueue_extension job))
      else (fun e => uncommitted job_id (InvalidInput (extension_text e))) in
    let* q := gets id in
    let f := format (config q) in
    if (Z.min (fr_max_payload_length f) MAX_PAYLOAD_LENGTH <? Z.of_nat (length (ei_payload job)))%Z
    then op_ret (uncommitted job_id (InvalidInput "payload exceeds limit"))
    else
      let*? header := op_ret (ok_or (enqueue_header job job_id created_at ext_bytes) tt)
        else (fun _ => uncommitted job_id (InvalidInput "extension length mismatch")) in
      let sealed state path := mkEnqueueTicket job_id (fh_envelope_digest header) state path in
      let delayed := match ei_initial_not_before job with Some nb => (created_at <? nb)%Z | None => false end in
      let overflow :=
        match ei_initial_not_before job with
        | Some nb => delayed && bool_decide (eligibility_bucket_and_ns nb (fr_delayed_bucket_width_ns f) = None)
        | None => false
        end in
      if overflow
      then op_ret (Err (sealed InitialReady [], InvalidInput "eligibility overflow"))
      else
        let initial_state := if delayed then InitialDelayed else InitialReady in
        let enqueue_op := match initial_state with
                          | InitialReady => OpEnqueueImmediate
                          | InitialDelayed => OpEnqueueDelayed
                          end in
        let origin := mkCommon job_id 0 0 (ei_maximum_attempts job) in
        let*? common := op_ret (next_identity enqueue_op origin) else (fun e => uncommitted job_id e) in
        let*? target := op_ret (enqueue_target (layout q) job common initial_state)
          else (fun e => Err (sealed initial_state [], e)) in
        let ticket := sealed initial_state (relative_path target) in
        let ready_shard_hint :=
          match initial_state with
          | InitialReady => Some (compute_shard (fr_queue_id f) job_id (fr_shard_count f))
          | InitialDelayed => None
          end in
        op_ret (Ok (mkPreparedEnqueue ticket header ext_bytes (ei_payload job) (directory target)
                      (filename target) ready_shard_hint)).

Definition enqueue_with_dirty (job : EnqueueInput) : op EnqueueOutcome :=
  let*? prepared := prepare_enqueue job else (fun x => EnqueueNotCommitted x.1 x.2) in
  let* result := write_and_publish_with_dirty (pe_dest_dir prepared) (pe_filename prepared)
    (pe_header prepared) (pe_ext_bytes prepared) (pe_payload prepared) in
  match result with
  | Ok _ =>
      let* _ :=
        (match pe_ready_shard_hint prepared with
         | Some shard => modify (set_ready_shard_hint (Some shard))
         | None => op_ret tt
         end) in
      op_ret (EnqueueCommitted (pe_ticket prepared))
  | Err (PubNotCommitted e) => op_ret (EnqueueNotCommitted (pe_ticket prepared) e)
  | Err (PubOutcomeUnknown e) =>
      let* _ := poison PostLinearizationStateUnknown in
      op_ret (EnqueueOutcomeUnknown (pe_ticket prepared) e)
  | Err (PubOutcomeUnknownPublished envelope_digest error) =>
      let* _ := poison PostLinearizationStateUnknown in
      let t := pe_ticket prepared in
      op_ret (EnqueueOutcomeUnknown
        (mkEnqueueTicket (et_job_id t) envelope_digest (et_expected_initial_state t) (et_expected_relative_path t))
        error)
  end.

Definition enqueue (job : EnqueueInput) (q : Queue) : io (EnqueueOutcome * Queue) :=
  if deferred_dir_sync (config q) then
    let! x := deferring (enqueue_with_dirty job) q in
    Ret (match x.1 with EnqueueCommitted ticket => EnqueueDeferred ticket | outcome => outcome end, x.2)
  else strictly (enqueue_with_dirty job) q.

End Publish.

(** ** What publication touches *)

Lemma silent_writev_rounds {sel : Syscall -> bool} `{!Changing sel} n fd l : silent sel (writev_rounds n fd l).
Proof.
  revert l. induction n as [|n IH]; intros [|b l]; cbn [writev_rounds]; try apply silent_ret.
  apply silent_sys; [by apply not_changing|]. intros r. destruct r; try apply silent_ret; (case_match; [apply silent_ret|apply IH]).
Qed.
Lemma silent_writev_all {sel : Syscall -> bool} `{!Changing sel} fd l : silent sel (writev_all_settled fd l).
Proof. unfold writev_all_settled. case_match; [apply silent_ret|apply silent_writev_rounds]. Qed.

Section PublishSpecs.
Context `{Sha256} {T : Texts}.

Lemma calm_dir_is_known r : calm (dir_is_known r).
Proof. intros sel Hs cx. unfold runs, dir_is_known. by apply counts_ret. Qed.
Lemma calm_extend_pending l : calm (extend_pending l).
Proof.
  intros sel Hs [q [d|]]; unfold runs, extend_pending; apply counts_ret; (split; [done|]); [|done].
  split; [done|]. split; [done|]. cbn. set_solver.
Qed.
Lemma calm_wall : calm wall_floor_for_mutation.
Proof. apply calm_wall_floor. Qed.
#[local] Hint Resolve calm_dir_is_known calm_extend_pending calm_wall : keeps.
Lemma calm_sync_parent_of p l : calm (sync_parent_of p l).
Proof. unfold sync_parent_of. keeping. Qed.
#[local] Hint Resolve calm_sync_parent_of : keeps.
Lemma calm_ensure_components comps prefix parent : calm (ensure_components comps prefix parent).
Proof. revert prefix parent. induction comps as [|c comps IH]; intros prefix parent; cbn [ensure_components]; keeping. Qed.
Lemma silent_make_shards {sel : Syscall -> bool} `{!Placing sel} fd l : silent sel (make_shards fd l).
Proof. induction l as [|s l IH]; cbn [make_shards]; [silence|]. apply silent_try; [auto with silent|done]. Qed.
#[local] Hint Resolve calm_ensure_components : keeps.
#[local] Hint Resolve silent_make_shards : silent.
Lemma calm_ensure_dir_rec fuel r : calm (ensure_dir_rec fuel r).
Proof.
  revert r. induction fuel as [|fuel IH]; intros r; cbn [ensure_dir_rec]; unfold ensure_sharded_bucket; keeping.
Qed.
Lemma calm_ensure_dir_with_dirty r : calm (ensure_dir_with_dirty r).
Proof. apply calm_ensure_dir_rec. Qed.
Lemma calm_ensure_dir r : calm (ensure_dir r).
Proof.
  intros sel Hs [q d]. unfold runs, ensure_dir. apply counts_bind.
  eapply counts_mono; [apply (calm_ensure_dir_with_dirty r sel Hs (mkCtx q None))|].
  intros n [x [q' d']] [-> (H1 & H2 & _ & H3)]. by apply counts_ret.
Qed.
Lemma calm_open_or_cache_dir r : calm (open_or_cache_dir r).
Proof. unfold open_or_cache_dir. keeping. Qed.

End PublishSpecs.
#[export] Hint Resolve calm_wall calm_ensure_dir_with_dirty calm_ensure_dir calm_open_or_cache_dir : keeps.

(** ** The recursion on sharded buckets *)

Lemma join_slash_snoc comps name :
  comps <> [] -> join_slash (comps ++ [name]) = join_slash comps ++ "/"%byte :: name.
Proof.
  induction comps as [|c [|d comps] IH]; intros Hne; [done|done|].
  change (c ++ "/"%byte :: join_slash ((d :: comps) ++ [name]) = (c ++ "/"%byte :: join_slash (d :: comps)) ++ "/"%byte :: name).
  rewrite IH by done. by rewrite <- app_assoc.
Qed.

Lemma rsplit_once_Some s d n : rsplit_once s = Some (d, n) -> s = d ++ "/"%byte :: n.
Proof.
  unfold rsplit_once. destruct (reverse (split_slash s)) as [|name [|dir front]] eqn:E; try done.
  intros [= <- <-]. apply (f_equal reverse) in E. rewrite reverse_involutive, reverse_cons in E.
  destruct (join_split_slash s) as [<- _]. rewrite E at 1. apply join_slash_snoc.
  rewrite reverse_cons. by destruct (reverse front).
Qed.

Lemma sharded_bucket_shorter r count bucket :
  sharded_bucket_parent r count = Some bucket -> (length bucket < length r)%nat.
Proof.
  unfold sharded_bucket_parent. destruct (rsplit_once r) as [[d n]|] eqn:E; [|done]. cbn [mbind option_bind].
  apply rsplit_once_Some in E as ->. case_bool_decide; [done|].
  destruct (shard_from_hex n) as [sh|]; [|done]. cbn [mbind option_bind]. destruct (_ <? _)%Z; [|done].
  intros [= <-]. rewrite length_app. cbn. lia.
Qed.

(** Directory creation terminates.  The recursion from a shard directory to
    its bucket ends within as many steps as the path has bytes: any larger
    bound makes the same calls, from every handle. *)
Theorem ensure_dir_terminates {T : Texts} fuel relative cx :
  (length relative <= fuel)%nat ->
  ensure_dir_rec fuel relative cx = ensure_dir_with_dirty relative cx.
Proof.
  unfold ensure_dir_with_dirty. generalize (Nat.le_refl (length relative)).
  generalize (length relative) at 2 4 as g. revert relative cx.
  induction fuel as [|fuel IH]; intros relative cx g Hg Hf.
  { destruct g; [done|]. destruct relative; [|cbn in Hf; lia]. cbn. unfold op_bind. cbn. by destruct (_ || _). }
  assert (Hstep : forall k, ensure_dir_rec k relative cx =
    if bool_decide (relative ∈ known_dirs (handle cx)) ||
         (if dirty_arg cx is Some set then bool_decide (relative ∈ pending_dirs set) else false)
    then Ret (Ok tt, cx)
    else match sharded_bucket_parent relative (shard_count (handle cx)), k with
    | Some bucket, S k' => ensure_sharded_bucket (ensure_dir_rec k' bucket) bucket cx
    | Some _, O => Ret (Ok tt, cx)
    | None, _ => ensure_components (filter (fun c => c <> []) (split_slash relative)) [] (root_fd (config (handle cx))) cx
    end).
  { intros k. destruct k; cbn [ensure_dir_rec]; unfold op_bind, dir_is_known, gets; cbn [io_bind fst snd];
      (destruct (_ || _); [done|]); cbn [io_bind fst snd]; by destruct (sharded_bucket_parent _ _). }
  rewrite !Hstep. destruct (_ || _); [done|].
  destruct (sharded_bucket_parent _ _) as [bucket|] eqn:Eb; [|done]. apply sharded_bucket_shorter in Eb.
  destruct g as [|g]; [lia|].
  unfold ensure_sharded_bucket, op_or, op_bind. f_equal. apply IH; lia.
Qed.

(** ** How many jobs a publication places *)

(** The name a placement uses. *)
Definition placed_name (c : Syscall) : option bytes :=
  match c with SysRenameat2 _ _ _ n _ | SysLinkat _ _ _ n _ => Some n | _ => None end.
(** The selector treats every placement under [name] alike. *)
Definition picks (sel : Syscall -> bool) (name : bytes) (selected : bool) : Prop :=
  forall c, placed_name c = Some name -> sel c = selected.

Lemma picks_places name : picks places name true.
Proof. by intros []. Qed.
Lemma picks_other name : picks (places_other name) name false.
Proof. intros []; cbn; try done; intros [= ->]; by rewrite bool_decide_true. Qed.

Definition pub_places {A : Type} (r : result A PublishError) : nat :=
  match r with Err (PubNotCommitted _) => 0 | _ => 1 end.

(** One placement exactly when [selected] and the operation says so. *)
Definition placing_outcome {A : Type} (selected : bool) (count : A -> nat) (cx : Ctx)
    (n : nat) (a : A) (cx' : Ctx) : Prop :=
  n = (if selected then count a else 0%nat) /\ evolves cx cx'.

Section PublishCounts.
Context `{Sha256} {T : Texts} {sel : Syscall -> bool} `{!Placing sel} {selected : bool}.

Lemma move_named_places {A} sd sn dd dn opts (after : option MovedObject -> io (result A IoError)) :
  picks sel dn selected -> (forall m, silent sel (after m)) ->
  counts sel (move_noreplace sd sn dd dn opts after) (fun n r => n = if selected then move_commits r else 0%nat).
Proof. intros Hp Ha. eapply counts_mono; [by apply move_places|]. intros n r ->. rewrite (Hp _ (eq_refl : placed_name (SysRenameat2 _ _ _ _ _) = _)). done. Qed.

Lemma from_move_failure_places f :
  pub_places (A:=unit) (Err (from_move_failure f)) = move_commits (T:=unit) (Err f).
Proof. by destruct f. Qed.

Lemma publish_named_places td tn dd dn id cx :
  picks sel dn selected ->
  runs sel (publish_named td tn dd dn id) cx (placing_outcome selected (fun x => pub_places x.1) cx).
Proof.
  intros Hp. unfold publish_named. apply runs_by_dirty; apply runs_bind, runs_call.
  - eapply counts_mono; [apply move_named_places; [exact Hp|]; intros m; unfold with_moved; silence|].
    intros n [x|f] ->.
    + apply runs_or. eapply runs_keeps; [apply calm_record_arg|]. intros [u|e] cx1 H1;
        [|split; [by destruct selected|done]].
      apply runs_or. eapply runs_keeps; [apply calm_record_arg|]. intros [v|e] cx2 H2.
      * apply runs_ret. split; [by destruct selected|by etrans].
      * split; [by destruct selected|by etrans].
    + apply runs_ret. split; [|done]. cbn [fst]. rewrite from_move_failure_places. by destruct selected; rewrite Nat.add_0_r.
  - eapply counts_mono; [apply move_named_places; [exact Hp|silence]|].
    intros n [x|f] ->; apply runs_ret; (split; [|done]); cbn [fst]; rewrite ?from_move_failure_places;
      by destruct selected; rewrite Nat.add_0_r.
Qed.

Lemma with_guard_places {A} d n (body : op (A * bool)) cx (Q : nat -> A -> Ctx -> Prop) :
  runs sel body cx (fun k x cx' => Q k x.1 cx') -> runs sel (with_guard d n body) cx Q.
Proof.
  intros Hb. unfold with_guard. apply runs_bind. eapply runs_mono; [exact Hb|]. intros k [a b] cx' HQ. cbn [fst snd] in *.
  destruct b; [apply runs_bind, runs_call_silent; [auto with silent|]; intros ?|]; apply runs_ret; by rewrite ?Nat.add_0_r.
Qed.

(** Writing the envelope places nothing and fails as not committed. *)
Lemma write_envelope_counts fd h e p :
  counts sel (write_envelope fd h e p) (fun n r =>
    n = 0%nat /\ match r with Err err => pub_places (A:=unit) (Err err) = 0%nat | Ok _ => True end).
Proof.
  unfold write_envelope. apply counts_try, counts_lift. destruct (FixedHeader_encode h e) as [hb|he]; [|done].
  cbn [map_err].
  do 4 (apply counts_try, counts_map_err, counts_silent; [auto with silent|]; intros [?|err]; cbn [map_err]; [|done]).
  apply counts_map_err, counts_silent; [auto with silent|]. by intros [st|err].
Qed.

Ltac not_placed := split; [by destruct selected|by repeat (done || etrans)].

Lemma named_fallback_places dir dd dn h e p cx :
  picks sel dn selected ->
  runs sel (named_fallback_with_dirty dir dd dn h e p) cx (placing_outcome selected pub_places cx).
Proof.
  intros Hp. unfold named_fallback_with_dirty. apply runs_bind, runs_gets. cbv zeta.
  apply runs_or. eapply runs_keeps; [apply calm_ensure_dir_with_dirty|]. intros [[]|err] cx1 H1; [|not_placed].
  apply runs_bind, runs_gets.
  do 4 (apply runs_or, runs_call_silent; [auto with silent|]; intros [?|err]; [|not_placed]).
  apply with_guard_places, runs_or, runs_call. eapply counts_mono; [apply write_envelope_counts|].
  intros n [st|err] [-> Hr].
  - eapply runs_mono; [by apply publish_named_places|].
    intros n x cx2 [-> H2]. split; [by destruct selected|by etrans].
  - split; [|done]. cbn [fst]. destruct err; try done. by destruct selected.
Qed.

Lemma picks_links fd dd dn : picks sel dn selected -> Forall (fun c => sel c = selected) (link_calls fd dd dn).
Proof. intros Hp. repeat constructor; by apply Hp. Qed.

Lemma publish_from_tmpfile_places tmp dd dn h e p pref (fallback : op (result unit PublishError)) cx cx0 :
  picks sel dn selected -> evolves cx0 cx ->
  (forall cx', evolves cx0 cx' -> runs sel fallback cx' (placing_outcome selected pub_places cx0)) ->
  runs sel (publish_from_tmpfile tmp dd dn h e p pref fallback) cx (placing_outcome selected pub_places cx0).
Proof.
  intros Hp H0 Hfb. unfold publish_from_tmpfile.
  apply runs_or, runs_ret. destruct (FixedHeader_encode h e) as [hb|he]; cbn [map_err]; [|not_placed].
  apply runs_or, runs_call_silent; [apply silent_writev_all; apply _|]. intros [[]|err]; [|not_placed].
  apply runs_bind.
  assert (Hpub : forall sync, counts sel (publish_tmpfile_noreplace_impl tmp dd dn pref sync)
    (fun n r => n = if selected then publish_commits r else 0%nat)) by (intros; by apply publish_places, picks_links).
  eapply runs_mono with (Q := fun n r cx' => n = (if selected then publish_commits r else 0%nat) /\ cx' = cx).
  { apply runs_by_dirty; apply runs_call; (eapply counts_mono; [apply Hpub|]); done. }
  intros n [[mode|]|f] cx' [-> ->].
  - apply runs_bind, runs_modify, runs_or. eapply runs_keeps; [apply calm_record_arg|]. intros [[]|err] cx' H'.
    + apply runs_ret. split; [by destruct selected|]. etrans; [|exact H']. done.
    + split; [by destruct selected|]. etrans; [|exact H']. done.
  - apply runs_bind, runs_modify. eapply runs_mono; [apply Hfb; done|]. intros n r cx' [-> H']. not_placed.
  - apply runs_ret. destruct f; not_placed.
Qed.

Lemma write_and_publish_places dir dn h e p cx :
  picks sel dn selected ->
  runs sel (write_and_publish_with_dirty dir dn h e p) cx (placing_outcome selected pub_places cx).
Proof.
  intros Hp. unfold write_and_publish_with_dirty. cbv zeta.
  apply runs_or. eapply runs_keeps; [apply calm_ensure_dir_with_dirty|]. intros [[]|err] cx1 H1; [|not_placed].
  apply runs_or. eapply runs_keeps; [apply calm_open_or_cache_dir|]. intros [dd|err] cx2 H2; [|not_placed].
  assert (H02 : evolves cx cx2) by (by etrans).
  assert (Hfb : forall cx', evolves cx cx' ->
    runs sel (named_fallback_with_dirty dir dd dn h e p) cx' (placing_outcome selected pub_places cx)).
  { intros cx' H'. eapply runs_mono; [by apply named_fallback_places|]. intros n r cx3 [-> H3]. split; [done|by etrans]. }
  apply runs_bind, runs_gets. generalize (publication_mode (handle cx2)). intros mode.
  assert (Hopen : runs sel (let* tmp := call (open_tmpfile dd) in
      match tmp with
      | Ok tmp_fd => publish_from_tmpfile tmp_fd dd dn h e p mode (named_fallback_with_dirty dir dd dn h e p)
      | Err err => if is_tmpfile_open_unsupported err
          then let* _ := modify (set_publication_mode (Some NamedFallback)) in named_fallback_with_dirty dir dd dn h e p
          else op_ret (Err (classify_write err))
      end) cx2 (placing_outcome selected pub_places cx)).
  { apply runs_bind, runs_call_silent; [auto with silent|]. intros [tmp|err].
    - by apply publish_from_tmpfile_places.
    - case_match; [|apply runs_ret; not_placed]. apply runs_bind, runs_modify. eapply runs_mono; [by apply Hfb|]. done. }
  destruct mode as [[]|]; first [eapply runs_mono; [exact Hopen|done] | eapply runs_mono; [by apply Hfb|done]].
Qed.
End PublishCounts.

(** ** Enqueue *)

Section EnqueueSpecs.
Context `{Sha256} {T : Texts}.

Lemma calm_prepare_enqueue job : calm (prepare_enqueue job).
Proof. unfold prepare_enqueue. keeping. Qed.

(** What a prepared job says: its ticket, its destination and its envelope all
    describe the same job. *)
Definition prepared_for (q : Queue) (job : EnqueueInput) (p : PreparedEnqueue) : Prop :=
  let t := pe_ticket p in
  exists common target created_at,
    next_identity (match et_expected_initial_state t with
                   | InitialReady => OpEnqueueImmediate
                   | InitialDelayed => OpEnqueueDelayed
                   end) (mkCommon (et_job_id t) 0 0 (ei_maximum_attempts job)) = Ok common /\
    enqueue_target (layout q) job common (et_expected_initial_state t) = Ok target /\
    et_expected_relative_path t = relative_path target /\
    pe_dest_dir p = directory target /\ pe_filename p = filename target /\
    ExtensionHeader_encode (enqueue_extension job) = Ok (pe_ext_bytes p) /\
    enqueue_header job (et_job_id t) created_at (pe_ext_bytes p) = Some (pe_header p) /\
    et_envelope_digest t = fh_envelope_digest (pe_header p) /\
    pe_payload p = ei_payload job /\
    (Z.of_nat (length (ei_payload job)) <= fr_max_payload_length (format (config q)))%Z.

Lemma prepare_enqueue_result {sel : Syscall -> bool} `{!Placing sel} job cx :
  runs sel (prepare_enqueue job) cx (fun _ r _ =>
    match r with Ok p => poisoned (handle cx) = None /\ prepared_for (handle cx) job p | Err _ => True end).
Proof.
  unfold prepare_enqueue. apply runs_or, runs_gets. destruct (poisoned (handle cx)) eqn:Ep; [done|].
  apply runs_or, runs_call_silent; [auto with silent|]. intros [job_id|e]; [|done].
  apply runs_or. eapply runs_keeps; [apply calm_wall|]. intros [w|e] cx' Hcx; [|done].
  destruct (ei_maximum_attempts job =? 0)%Z; [by apply runs_ret|].
  apply runs_or, runs_ret. destruct (ExtensionHeader_encode _) as [ext|e] eqn:Ex; [|done].
  apply runs_bind, runs_gets. cbv zeta. cbn [id].
  destruct (_ <? Z.of_nat (length (ei_payload job)))%Z eqn:El; [by apply runs_ret|].
  apply runs_or, runs_ret. destruct (enqueue_header _ _ _ _) as [h|] eqn:Eh; [cbn [ok_or]|done].
  case_match; [by apply runs_ret|].
  match goal with |- context [if ?d then InitialDelayed else InitialReady] =>
    generalize (if d then InitialDelayed else InitialReady); intros st end.
  apply runs_or, runs_ret. destruct (next_identity _ _) as [common|e] eqn:En; [|done].
  apply runs_or, runs_ret. destruct (enqueue_target _ _ _ _) as [target|e] eqn:Et; [|done].
  apply runs_ret. split; [done|]. destruct Hcx as (Hc & _ & _).
  exists common, target, (unix_ns w). cbn. split_and!; try done; [|breflect].
  - rewrite <- Et. unfold layout. by rewrite Hc.
  - rewrite <- Hc. lia.
Qed.

(** A handle that is poisoned refuses without a system call. *)
Lemma prepare_enqueue_poisoned job cx reason :
  poisoned (handle cx) = Some reason ->
  prepare_enqueue job cx =
    Ret (Err (EnqueueTicket_uncommitted (zeros 16), QueuePoisoned (PoisonReason_fmt reason)), cx).
Proof. intros Hp. unfold prepare_enqueue, op_or, op_bind, check_not_poisoned, gets. by rewrite Hp. Qed.

End EnqueueSpecs.
#[export] Hint Resolve calm_prepare_enqueue : keeps.

(** The placements an outcome admits to. *)
Definition enqueue_places (o : EnqueueOutcome) : nat :=
  match o with EnqueueNotCommitted _ _ => 0 | _ => 1 end.
Definition enqueue_unknown (o : EnqueueOutcome) : bool :=
  match o with EnqueueOutcomeUnknown _ _ => true | _ => false end.
Definition enqueue_ticket (o : EnqueueOutcome) : EnqueueTicket :=
  match o with
  | EnqueueCommitted t | EnqueueDeferred t | EnqueueNotCommitted t _ | EnqueueOutcomeUnknown t _ => t
  end.

(** The ticket names the job's own target, and every placement in the trace
    went to that target's filename. *)
Definition placed_as_ticketed `{Sha256} (q : Queue) (job : EnqueueInput) (t : EnqueueTicket) (tr : list event) : Prop :=
  exists common target,
    cf_job_id common = et_job_id t /\ cf_maximum_attempts common = ei_maximum_attempts job /\
    cf_generation common = 0%Z /\ cf_attempt common = 0%Z /\
    enqueue_target (layout q) job common (et_expected_initial_state t) = Ok target /\
    et_expected_relative_path t = relative_path target /\
    tally (places_other (filename target)) tr = 0%nat.

Section EnqueueOutcomes.
Context `{Sha256} {T : Texts}.

Lemma enqueue_identity op job_id m common :
  op = OpEnqueueImmediate \/ op = OpEnqueueDelayed ->
  next_identity op (mkCommon job_id 0 0 m) = Ok common -> common = mkCommon job_id 0 0 m.
Proof. intros [-> | ->] [= <-]; done. Qed.

(** What an enqueue that ran from [cx] reports. *)
Definition enqueue_report (job : EnqueueInput) (cx : Ctx) (tr : list event) (out : EnqueueOutcome) (cx' : Ctx) : Prop :=
  tally places tr = enqueue_places out /\ evolves cx cx' /\
  (enqueue_unknown out = true -> poisoned (handle cx') <> None) /\
  (enqueue_places out = 1%nat -> placed_as_ticketed (handle cx) job (enqueue_ticket out) tr) /\
  (poisoned (handle cx) <> None -> tr = [] /\ enqueue_places out = 0%nat).

Lemma enqueue_with_dirty_report job cx tr out cx' :
  exec (enqueue_with_dirty job cx) tr (out, cx') -> enqueue_report job cx tr out cx'.
Proof.
  intros (t1 & t2 & [r cx1] & -> & H1 & H2)%exec_bind. cbn [fst snd] in H2.
  destruct (calm_prepare_enqueue job places _ cx t1 _ H1) as [Hn1 He1]. cbn [fst snd] in Hn1, He1.
  pose proof (prepare_enqueue_result (sel:=places) job cx t1 _ H1) as Hr. cbn [fst snd] in Hr.
  unfold enqueue_report. rewrite tally_app, Hn1. destruct r as [p|[t e]].
  2:{ apply exec_ret in H2 as [-> [= -> ->]]. cbn. split_and!; try done.
      intros Hp. destruct (poisoned (handle cx)) as [reason|] eqn:Ep; [|done].
      rewrite (prepare_enqueue_poisoned _ _ _ Ep) in H1. by apply exec_ret in H1 as [-> _]. }
  destruct Hr as [Hp Hprep]. apply exec_bind in H2 as (t3 & t4 & [w cx2] & -> & H3 & H4). cbn [fst snd] in H4.
  destruct (write_and_publish_places _ _ _ _ _ _ (picks_places (pe_filename p)) t3 _ H3) as [Hw He2].
  destruct (write_and_publish_places _ _ _ _ _ _ (picks_other (pe_filename p)) t3 _ H3) as [Hw' _].
  cbn [fst snd] in *. assert (He : evolves cx cx2) by (by etrans).
  assert (t4 = [] /\ enqueue_places out = pub_places w /\ evolves cx cx' /\
    (enqueue_unknown out = true -> poisoned (handle cx') <> None) /\
    et_job_id (enqueue_ticket out) = et_job_id (pe_ticket p) /\
    et_expected_initial_state (enqueue_ticket out) = et_expected_initial_state (pe_ticket p) /\
    et_expected_relative_path (enqueue_ticket out) = et_expected_relative_path (pe_ticket p))
    as (-> & Hout & He' & Hu & Ht1 & Ht2 & Ht3).
  { assert (Hpo : evolves cx2 (mkCtx (set_poisoned (Some (default PostLinearizationStateUnknown (poisoned (handle cx2))))
      (handle cx2)) (dirty_arg cx2))).
    { split; [done|]. split; [|done]. cbn. by destruct (poisoned (handle cx2)). }
    destruct w as [[]|[]];
      [destruct (pe_ready_shard_hint p)|..]; apply exec_ret in H4 as [-> [= -> ->]]; cbn; split_and!; try done;
      by etrans. }
  rewrite app_nil_r, Hw, Hout. split_and!; [done|done|done| |by rewrite Hp].
  intros _. destruct Hprep as (common & target & created & Hid & Htg & Hpath & _ & Hfn & _).
  apply enqueue_identity in Hid as ->; [|destruct (et_expected_initial_state _); auto].
  exists (mkCommon (et_job_id (pe_ticket p)) 0 0 (ei_maximum_attempts job)), target. rewrite Ht1, Ht2, Ht3.
  split_and!; try done. rewrite <- Hfn, tally_app, Hw', Nat.add_0_r. by destruct (calm_prepare_enqueue job _ (places_other_placing (pe_filename p)) cx t1 _ H1) as [-> _].
Qed.

(** What an execution of [enqueue] did, by its outcome. *)
Lemma enqueue_facts job q tr out q' :
  exec (enqueue job q) tr (out, q') ->
  tally places tr = enqueue_places out /\
  (enqueue_places out = 1%nat -> placed_as_ticketed q job (enqueue_ticket out) tr) /\
  (enqueue_unknown out = true -> poisoned q' <> None) /\
  config q' = config q /\
  (poisoned q <> None -> tr = [] /\ enqueue_places out = 0%nat /\ poisoned q' = poisoned q).
Proof.
  unfold enqueue. destruct (deferred_dir_sync (config q)).
  - intros (t1 & t2 & [o q1] & -> & H1 & H2)%exec_bind. cbn [fst snd] in H2.
    apply exec_bind in H1 as (t3 & t4 & [o' cx'] & -> & H1 & H3). cbn [fst snd] in H3.
    apply exec_ret in H3 as [-> [= -> ->]]. apply exec_ret in H2 as [-> [= -> ->]]. rewrite !app_nil_r.
    destruct (enqueue_with_dirty_report _ _ _ _ _ H1) as (Hn & He & Hu & Ht & Hp).
    destruct He as (Hc & Hk & _). cbn in *.
    destruct o'; cbn in *; split_and!; try done; intros Hq; destruct (Hp Hq); auto.
  - intros (t3 & t4 & [o' cx'] & -> & H1 & H3)%exec_bind. cbn [fst snd] in H3.
    apply exec_ret in H3 as [-> [= -> ->]]. rewrite !app_nil_r.
    destruct (enqueue_with_dirty_report _ _ _ _ _ H1) as (Hn & He & Hu & Ht & Hp).
    destruct He as (Hc & Hk & _). cbn in *. split_and!; try done. intros Hq. destruct (Hp Hq). auto.
Qed.


End EnqueueOutcomes.

(** ** Examples *)

(** A queue whose watermark covers the sample clock, and a job. *)
Definition sample_control : list SampleFile :=
  [mkSampleFile WATERMARK_NAME 8 1 (@WatermarkRecord_encode checksum256 (mkWatermarkRecord 1700000000 4));
   mkSampleFile (lit "wall-watermark.lock") 9 1 []].
Definition sample_job : EnqueueInput :=
  mkEnqueueInput 3 (lit "text/plain") [] None None None (lit "payload").
Definition sample_enqueue_run :=
  run (sample_disk (mkSampleFile (lit ".") 6 0 [] :: sample_control)) tt
    (@enqueue checksum256 sample_texts sample_job sample_queue).


Lemma ensure_dir_terminates_witness :
  sharded_bucket_parent (lit "delayed/000000000a21fe80/0002") 256 = Some (lit "delayed/000000000a21fe80") /\
  @ensure_dir_rec sample_texts 100 (lit "delayed/000000000a21fe80/0002") (mkCtx sample_queue None) =
  @ensure_dir_with_dirty sample_texts (lit "delayed/000000000a21fe80/0002") (mkCtx sample_queue None).
Proof. split; [reflexivity|]. apply (@ensure_dir_terminates sample_texts 100). cbn. lia. Defined.
