(* ===== verification/Stream.v ===== *)
(** * Streaming publication

    Models the streaming half of [crates/steadq-core/src/queue/publish.rs]:
    [enqueue_streaming], which writes a placeholder header, streams the payload
    of unknown length while hashing it, and then writes the real header in
    front of it; and the named fallbacks for filesystems without unnamed
    temporary files.

    The reader is code of the caller: a state with a function that answers a
    request for at most so many bytes.  A reader may report an interruption any
    number of times, so the loop over it takes fuel; [None] means it ran out. *)
From stdpp Require Import base numbers list option strings gmap.
From Stdlib Require Import Strings.Byte ZArith.
From S2P Require Import Prelude Math Names Format Cbor FsLinux FsRead StateMachine Ticket Layout Engine Logic Verified Queue Watermark Publish.
Open Scope string_scope.
Open Scope list_scope.

Class Reader (R : Type) : Type := reader_read : R -> nat -> result bytes IoError * R.
(** The contract of [std::io::Read]: at most as many bytes as there is room for. *)
Class ReaderLaws (R : Type) `{Reader R} : Prop :=
  reader_bounded (r : R) n data r' : reader_read r n = (Ok data, r') -> (length data <= n)%nat.

(** [fs::pwrite_all] makes progress in every round. *)
Definition pwrite_all_settled (fd : Z) (buf : bytes) (offset : Z) : io (result unit IoError) :=
  let! r := pwrite_all (length buf) fd buf offset in
  Ret (default (Err (CustomError KWriteZero "pwrite returned zero bytes (no progress)")) r).

Section Stream.
Context `{Sha256} {T : Texts} {R : Type} `{Reader R}.

(** ** The payload *)

Definition STREAM_BUFFER : Z := 65536.

(** The loop over the reader; [hashed] are the bytes the hasher has seen. *)
Fixpoint stream_chunks (fuel : nat) (fd limit : Z) (reader : R) (total : Z) (hashed : bytes)
  : io (option (result (Z * bytes) PublishError)) :=
  match fuel with
  | O => Ret None
  | S fuel' =>
      let to_read := Z.to_nat (Z.min STREAM_BUFFER (limit - total + 1)) in
      match reader_read reader to_read with
      | (Err error, reader) =>
          if bool_decide (kind error = KInterrupted) then stream_chunks fuel' fd limit reader total hashed
          else Ret (Some (not_committed_io error))
      | (Ok [], _) => Ret (Some (Ok (total, payload_digest hashed)))
      | (Ok data, reader) =>
          let total := (total + Z.of_nat (length data))%Z in
          if (limit <? total)%Z then Ret (Some (Err (PubNotCommitted (InvalidInput "payload exceeds limit"))))
          else
            let! w := io_map_err classify_write (write_all_settled fd data) in
            match w with
            | Err e => Ret (Some (Err e))
            | Ok _ => stream_chunks fuel' fd limit reader total (hashed ++ data)
            end
      end
  end.

Definition stream_limit (q : Queue) : Z := Z.min (fr_max_payload_length (format (config q))) MAX_PAYLOAD_LENGTH.
Definition stream_payload_to_fd (fuel : nat) (q : Queue) (fd : Z) (ext_bytes : bytes) (reader : R)
  : io (option (result (Z * bytes) PublishError)) :=
  let! placed :=
    (let!? _ := io_map_err classify_write (write_all_settled fd (zeros 128)) in
     io_map_err classify_write (write_all_settled fd ext_bytes)) in
  match placed with
  | Err e => Ret (Some (Err e))
  | Ok _ => stream_chunks fuel fd (stream_limit q) reader 0 []
  end.

(** The real header with its digest, and its encoding. *)
Definition stream_header (job_id : bytes) (maximum_attempts created_at : Z) (ext_bytes : bytes)
    (payload_len : Z) (payload_digest : bytes) : result (FixedHeader * bytes) PublishError :=
  let header := mkFixedHeader FORMAT_MINOR (wrap32 (Z.of_nat (length ext_bytes))) payload_len 0
    DIGEST_ALGORITHM_SHA256 job_id maximum_attempts created_at payload_digest (zeros 32) in
  let? env_dig := ok_or (envelope_digest header ext_bytes)
    (PubNotCommitted (InvalidInput "extension length mismatch")) in
  let header := with_envelope_digest header env_dig in
  let? header_bytes := map_err (fun e => PubNotCommitted (InvalidInput (header_text e)))
    (FixedHeader_encode header ext_bytes) in
  Ok (header, header_bytes).

(** ** Named temporary files *)

(** The move of the named file into place, with the guard's state. *)
Definition finish_named_stream_publish (tmp_dir_fd : Z) (temp_name : bytes) (dest_fd : Z) (dest_name : bytes)
    (identity : MoveIdentity) (envelope_digest : bytes) : op (result bytes PublishError * bool) :=
  let failed failure :=
    (Err (with_published_digest (from_move_failure failure) envelope_digest),
     negb (MoveFailure_is_outcome_unknown failure)) in
  by_dirty
    (let* r := call (move_witnessed_noreplace_deferred tmp_dir_fd temp_name dest_fd dest_name identity
                       (fun _ => Ret (Ok tt))) in
     match r with
     | Ok _ =>
         let unrecorded e := (Err (PubOutcomeUnknownPublished envelope_digest (Error_of_io e)), false) in
         let*? _ := record_arg tmp_dir_fd else unrecorded in
         let*? _ := record_arg dest_fd else unrecorded in
         op_ret (Ok envelope_digest, false)
     | Err failure => op_ret (failed failure)
     end)
    (let* r := call (move_witnessed_noreplace_io tmp_dir_fd temp_name dest_fd dest_name identity) in
     op_ret (match r with Ok _ => (Ok envelope_digest, false) | Err failure => failed failure end)).

(** A named temporary file for a job of the directory, with its guard; [body]
    gets the directory, the name and the file. *)
Definition with_stream_temp {A : Type} (dest_dir_relative : bytes)
    (body : Z -> bytes -> Z -> op (option (result A PublishError) * bool)) : op (option (result A PublishError)) :=
  let early e := Some (not_committed_io e) in
  let* boot := gets (fun q => boot_id (config q)) in
  let tmp_shard_dir := lit "tmp/" ++ boot ++ lit "/" ++ last_component dest_dir_relative in
  let*? _ := ensure_dir_with_dirty tmp_shard_dir else early in
  let* root := gets (fun q => root_fd (config q)) in
  let*? tmp_dir_fd := call (open_relative root tmp_shard_dir) else early in
  let*? boottime := call clock_boottime_ns else early in
  let*? random := call random_128bit else early in
  let temp_name := temp_filename boottime random in
  let*? tmp_file := call (create_exclusive tmp_dir_fd temp_name 384) else early in
  with_guard tmp_dir_fd temp_name (body tmp_dir_fd temp_name tmp_file).

(** A result that cannot run out of fuel, with the state of the guard. *)
Definition in_time {A : Type} (x : A * bool) : option A * bool := (Some x.1, x.2).

(** The sync and the identity of the finished file, then the move. *)
Definition finish_temp (tmp_dir_fd : Z) (temp_name : bytes) (tmp_file dest_fd : Z) (dest_name envelope_digest : bytes)
  : op (option (result bytes PublishError) * bool) :=
  let*? temp_stat := call (let!? _ := io_map_err classify_pre_pub_fsync (fsync tmp_file) in
                           io_map_err classify_write (fstat tmp_file)) else (fun e => (Some (Err e), true)) in
  let* x := finish_named_stream_publish tmp_dir_fd temp_name dest_fd dest_name
    (mkMoveIdentity (st_dev temp_stat) (st_ino temp_stat)) envelope_digest in
  op_ret (in_time x).

(** The copy of the payload out of the unnamed file; it ends early when the
    file does. *)
Fixpoint copy_payload (fuel : nat) (tmpfile_fd tmp_file data_offset copied payload_len : Z) : io (result unit PublishError) :=
  match fuel with
  | O => Ret (Ok tt)
  | S fuel' =>
      if (copied <? payload_len)%Z then
        let to_read := Z.to_nat (Z.min STREAM_BUFFER (payload_len - copied)) in
        let!? data := io_map_err (fun e => PubNotCommitted (Error_of_io e)) (pread tmpfile_fd to_read (data_offset + copied)) in
        match data with
        | [] => Ret (Ok tt)
        | _ =>
            let!? _ := io_map_err classify_write (write_all_settled tmp_file data) in
            copy_payload fuel' tmpfile_fd tmp_file data_offset (copied + Z.of_nat (length data)) payload_len
        end
      else Ret (Ok tt)
  end.
Definition named_fallback_streaming (dest_dir_relative : bytes) (dest_fd : Z) (dest_name : bytes) (header : FixedHeader)
    (ext_bytes : bytes) (tmpfile_fd payload_len : Z) : op (option (result bytes PublishError)) :=
  with_stream_temp dest_dir_relative (fun tmp_dir_fd temp_name tmp_file =>
    let*? _ := call (
      let!? header_bytes := lift (map_err (fun e => PubNotCommitted (InvalidInput (header_text e)))
        (FixedHeader_encode header ext_bytes)) in
      let!? _ := io_map_err classify_write (write_all_settled tmp_file header_bytes) in
      let!? _ := io_map_err classify_write (write_all_settled tmp_file ext_bytes) in
      copy_payload (Z.to_nat payload_len) tmpfile_fd tmp_file (128 + Z.of_nat (length ext_bytes)) 0 payload_len)
      else (fun e => (Some (Err e), true)) in
    finish_temp tmp_dir_fd temp_name tmp_file dest_fd dest_name (fh_envelope_digest header)).

Definition named_fallback_streaming_init (fuel : nat) (dest_dir_relative : bytes) (dest_fd : Z) (dest_name job_id : bytes)
    (maximum_attempts created_at : Z) (ext_bytes : bytes) (reader : R) : op (option (result bytes PublishError)) :=
  with_stream_temp dest_dir_relative (fun tmp_dir_fd temp_name tmp_file =>
    let* q := gets id in
    let* streamed := call (stream_payload_to_fd fuel q tmp_file ext_bytes reader) in
    match streamed with
    | None => op_ret (None, false)
    | Some (Err e) => op_ret (Some (Err e), true)
    | Some (Ok (payload_len, payload_digest)) =>
        let*? (header, header_bytes) := op_ret (stream_header job_id maximum_attempts created_at ext_bytes payload_len payload_digest)
          else (fun e => (Some (Err e), true)) in
        let*? _ := call (pwrite_all_settled tmp_file header_bytes 0) else (fun e => (Some (Err (classify_write e)), true)) in
        finish_temp tmp_dir_fd temp_name tmp_file dest_fd dest_name (fh_envelope_digest header)
    end).

(** ** Unnamed temporary files *)

(** The publication of a complete unnamed file; [fallback] copies it into a
    named one. *)
Definition publish_streamed (tmp_fd dest_fd : Z) (dest_name env_dig : bytes) (preferred : option PublicationMode)
    (fallback : op (option (result bytes PublishError))) : op (option (result bytes PublishError)) :=
  let* outcome := by_dirty
    (call (publish_tmpfile_noreplace_deferred_with_mode tmp_fd dest_fd dest_name preferred))
    (call (publish_tmpfile_noreplace_with_mode tmp_fd dest_fd dest_name preferred)) in
  match outcome with
  | Ok (Published mode) =>
      let* _ := modify (set_publication_mode (Some mode)) in
      let*? _ := record_arg dest_fd else (fun e => Some (Err (PubOutcomeUnknownPublished env_dig (Error_of_io e)))) in
      op_ret (Some (Ok env_dig))
  | Ok Unsupported =>
      let* _ := modify (set_publication_mode (Some NamedFallback)) in
      fallback
  | Err failure => op_ret (Some (Err (with_published_digest (classify_tmpfile failure) env_dig)))
  end.

(** The branch that holds an unnamed temporary file. *)
Definition stream_into_tmpfile (fuel : nat) (tmp_fd : Z) (dest_dir_relative : bytes) (dest_fd : Z) (dest_name job_id : bytes)
    (maximum_attempts created_at : Z) (ext_bytes : bytes) (reader : R) (preferred : option PublicationMode)
  : op (option (result bytes PublishError)) :=
  let* q := gets id in
  let* streamed := call (stream_payload_to_fd fuel q tmp_fd ext_bytes reader) in
  match streamed with
  | None => op_ret None
  | Some (Err e) => op_ret (Some (Err e))
  | Some (Ok (payload_len, payload_digest)) =>
      let*? (header, header_bytes) := op_ret (stream_header job_id maximum_attempts created_at ext_bytes payload_len payload_digest)
        else (fun e => Some (Err e)) in
      let*? _ := call (pwrite_all_settled tmp_fd header_bytes 0) else (fun e => Some (Err (classify_write e))) in
      publish_streamed tmp_fd dest_fd dest_name (fh_envelope_digest header) preferred
        (named_fallback_streaming dest_dir_relative dest_fd dest_name header ext_bytes tmp_fd payload_len)
  end.

Definition stream_and_publish (fuel : nat) (dest_dir_relative dest_name job_id : bytes) (maximum_attempts created_at : Z)
    (ext_bytes : bytes) (reader : R) : op (option (result bytes PublishError)) :=
  let*? _ := ensure_dir_with_dirty dest_dir_relative else (fun e => Some (not_committed_io e)) in
  let* root := gets (fun q => root_fd (config q)) in
  let*? dest_fd := call (open_relative root dest_dir_relative) else (fun e => Some (not_committed_io e)) in
  let fallback :=
    named_fallback_streaming_init fuel dest_dir_relative dest_fd dest_name job_id maximum_attempts created_at ext_bytes reader in
  let* mode := gets publication_mode in
  match mode with
  | Some NamedFallback => fallback
  | _ =>
      let* tmp := call (open_tmpfile dest_fd) in
      match tmp with
      | Ok tmp_fd =>
          stream_into_tmpfile fuel tmp_fd dest_dir_relative dest_fd dest_name job_id maximum_attempts created_at ext_bytes reader mode
      | Err e =>
          if is_tmpfile_open_unsupported e then
            let* _ := modify (set_publication_mode (Some NamedFallback)) in
            fallback
          else op_ret (Some (Err (classify_write e)))
      end
  end.

(** ** Enqueue *)

(** [stream_and_publish] with the handle's own dirty set, or with none. *)
Definition with_own_dirty {A : Type} (m : op A) : op A :=
  fun cx =>
    let! x := (if deferred_dir_sync (config (handle cx)) then deferring m (handle cx) else strictly m (handle cx)) in
    Ret (x.1, mkCtx x.2 (dirty_arg cx)).

(** The job and its destination, before the payload is read. *)
Record PreparedStream : Type := mkPreparedStream {
  ps_job_id : bytes;
  ps_created_at : Z;
  ps_ext_bytes : bytes;
  ps_state : InitialState;
  ps_target : Target
}.
Definition prepare_stream (job : EnqueueInput) : op (result PreparedStream (EnqueueTicket * Error)) :=
  let uncommitted {A} job_id (e : Error) : result A (EnqueueTicket * Error) := Err (EnqueueTicket_uncommitted job_id, e) in
  let*? _ := check_not_poisoned else (fun e => uncommitted (zeros 16) e) in
  if (ei_maximum_attempts job =? 0)%Z
  then op_ret (uncommitted (zeros 16) (InvalidInput "maximum_attempts must be >= 1"))
  else
    let*? wall_floor := wall_floor_for_mutation else (fun e => uncommitted (zeros 16) e) in
    let created_at := unix_ns wall_floor in
    let*? job_id := call random_128bit else (fun e => uncommitted (zeros 16) (Error_of_io e)) in
    let*? ext_bytes := op_ret (ExtensionHeader_encode (enqueue_extension job))
      else (fun e => uncommitted job_id (InvalidInput (extension_text e))) in
    let initial_state :=
      match ei_initial_not_before job with
      | Some nb => if (created_at <? nb)%Z then InitialDelayed else InitialReady
      | None => InitialReady
      end in
    let enqueue_op := match initial_state with
                      | InitialReady => OpEnqueueImmediate
                      | InitialDelayed => OpEnqueueDelayed
                      end in
    let origin := mkCommon job_id 0 0 (ei_maximum_attempts job) in
    let*? common := op_ret (next_identity enqueue_op origin) else (fun e => uncommitted job_id e) in
    let* q := gets id in
    let*? target := op_ret (enqueue_target (layout q) job common initial_state) else (fun e => uncommitted job_id e) in
    op_ret (Ok (mkPreparedStream job_id created_at ext_bytes initial_state target)).

(** The arguments of [enqueue_streaming] are the fields of [job] but its
    payload, and the reader. *)
Definition enqueue_streaming (fuel : nat) (job : EnqueueInput) (reader : R) : op (option EnqueueOutcome) :=
  let*? p := prepare_stream job else (fun x => Some (EnqueueNotCommitted x.1 x.2)) in
  let* result := with_own_dirty (stream_and_publish fuel (directory (ps_target p)) (filename (ps_target p)) (ps_job_id p)
    (ei_maximum_attempts job) (ps_created_at p) (ps_ext_bytes p) reader) in
  let ticket env_dig := mkEnqueueTicket (ps_job_id p) env_dig (ps_state p) (relative_path (ps_target p)) in
  match result with
  | None => op_ret None
  | Some (Err (PubNotCommitted e)) => op_ret (Some (EnqueueNotCommitted (ticket (zeros 32)) e))
  | Some (Err (PubOutcomeUnknown e)) =>
      let* _ := poison PostLinearizationStateUnknown in
      op_ret (Some (EnqueueOutcomeUnknown (ticket (zeros 32)) e))
  | Some (Err (PubOutcomeUnknownPublished envelope_digest error)) =>
      let* _ := poison PostLinearizationStateUnknown in
      op_ret (Some (EnqueueOutcomeUnknown (ticket envelope_digest) error))
  | Some (Ok env_dig) =>
      let* deferred := gets (fun q => deferred_dir_sync (config q)) in
      op_ret (Some (if deferred then EnqueueDeferred (ticket env_dig) else EnqueueCommitted (ticket env_dig)))
  end.
End Stream.

(** ** How many jobs a stream places *)

Definition stream_places {A : Type} (r : option (result A PublishError)) : nat :=
  match r with Some r => pub_places r | None => 0 end.
Lemma published_digest_places {A} (e : PublishError) d :
  pub_places (A:=A) (Err (with_published_digest e d)) = pub_places (A:=A) (Err e).
Proof. by destruct e. Qed.

Lemma silent_pwrite_loop {sel : Syscall -> bool} `{!Changing sel} n fd buf off : silent sel (pwrite_loop n fd buf off).
Proof.
  revert buf off. induction n as [|n IH]; intros [|b buf] off; cbn [pwrite_loop]; try apply silent_ret.
  apply silent_bind; [unfold pwrite; apply silent_sys; [by apply not_changing|]; silence|]. intros [m|e]; [|silence]. case_match; [silence|apply IH].
Qed.
Lemma silent_pwrite_all {sel : Syscall -> bool} `{!Changing sel} fd buf off : silent sel (pwrite_all_settled fd buf off).
Proof. unfold pwrite_all_settled. silence. apply silent_pwrite_loop. Qed.
#[export] Hint Resolve silent_pwrite_all : silent.

Section StreamCounts.
Context `{Sha256} {T : Texts} {R : Type} `{Reader R} {sel : Syscall -> bool} `{!Placing sel} {selected : bool}.

(** Nothing is placed while the payload is read, and a failure is not committed. *)
Definition unplaced {A : Type} (n : nat) (r : result A PublishError) : Prop :=
  n = 0%nat /\ match r with Err (PubNotCommitted _) | Ok _ => True | Err _ => False end.
Lemma unplaced_write {A} (m : io (result A IoError)) : silent sel m -> counts sel (io_map_err classify_write m) unplaced.
Proof. intros Hm. apply counts_map_err, counts_silent; [done|]. by intros []. Qed.
Lemma stream_chunks_unplaced fuel fd limit reader total hashed :
  counts sel (stream_chunks fuel fd limit reader total hashed) (fun n r => n = 0%nat /\ forall x, r = Some x -> unplaced n x).
Proof.
  revert reader total hashed. induction fuel as [|fuel IH]; intros reader total hashed; cbn [stream_chunks]; [by apply counts_ret|].
  destruct (reader_read reader _) as [[[|b data]|e] reader'].
  - apply counts_ret. split; [done|]. by intros x [= <-].
  - case_match; [apply counts_ret; split; [done|]; by intros x [= <-]|].
    apply counts_bind. eapply counts_mono; [apply unplaced_write; auto with silent|].
    intros n [[]|err] [-> Hu]; [apply IH|]. apply counts_ret. split; [done|]. by intros x [= <-].
  - case_match; [apply IH|]. apply counts_ret. split; [done|]. by intros x [= <-].
Qed.
Lemma stream_payload_unplaced fuel q fd ext reader :
  counts sel (stream_payload_to_fd fuel q fd ext reader) (fun n r => n = 0%nat /\ forall x, r = Some x -> unplaced n x).
Proof.
  unfold stream_payload_to_fd. apply counts_bind, counts_try.
  eapply counts_mono; [apply unplaced_write; auto with silent|]. intros n [[]|e] [-> Hu].
  2:{ apply counts_ret. split; [done|]. by intros x [= <-]. }
  eapply counts_mono; [apply unplaced_write; auto with silent|]. intros n [[]|e] [-> Hu'].
  - apply stream_chunks_unplaced.
  - apply counts_ret. split; [done|]. by intros x [= <-].
Qed.
Lemma copy_payload_unplaced fuel tf f off copied len : counts sel (copy_payload fuel tf f off copied len) unplaced.
Proof.
  revert copied. induction fuel as [|fuel IH]; intros copied; cbn [copy_payload]; [by apply counts_ret|].
  case_match; [|by apply counts_ret]. apply counts_try, counts_map_err, counts_silent; [auto with silent|].
  intros [[|b data]|e]; cbn [map_err]; [by apply counts_ret| |done].
  apply counts_try. eapply counts_mono; [apply unplaced_write; auto with silent|]. intros n [[]|err] [-> Hu]; [apply IH|done].
Qed.

Ltac not_placed := split; [by destruct selected|by repeat (done || etrans)].

Lemma finish_named_places td tn dd dn id dig cx :
  picks sel dn selected ->
  runs sel (finish_named_stream_publish td tn dd dn id dig) cx (placing_outcome selected (fun x => pub_places x.1) cx).
Proof.
  intros Hp. unfold finish_named_stream_publish. cbv zeta. apply runs_by_dirty; apply runs_bind, runs_call.
  - eapply counts_mono; [apply (move_named_places (selected:=selected)); [exact Hp|]; intros m; unfold with_moved; silence|].
    intros n [x|f] ->.
    + apply runs_or. eapply runs_keeps; [apply calm_record_arg|]. intros [u|e] cx1 H1; [|split; [by destruct selected|done]].
      apply runs_or. eapply runs_keeps; [apply calm_record_arg|]. intros [v|e] cx2 H2.
      * apply runs_ret. split; [by destruct selected|by etrans].
      * split; [by destruct selected|by etrans].
    + apply runs_ret. split; [|done]. cbn [fst]. rewrite published_digest_places.
      destruct f; cbn; by destruct selected.
  - eapply counts_mono; [apply (move_named_places (selected:=selected)); [exact Hp|silence]|].
    intros n [x|f] ->; apply runs_ret; (split; [|done]); cbn [fst]; [by destruct selected|].
    rewrite published_digest_places. destruct f; cbn; by destruct selected.
Qed.
Lemma finish_temp_places td tn f dd dn dig cx :
  picks sel dn selected ->
  runs sel (finish_temp td tn f dd dn dig) cx (placing_outcome selected (fun x => stream_places x.1) cx).
Proof.
  intros Hp. unfold finish_temp. apply runs_or, runs_call. apply counts_try, counts_map_err, counts_silent; [auto with silent|].
  intros [[]|e]; cbn [map_err]; [|split; [by destruct selected|done]].
  eapply counts_mono; [apply unplaced_write; auto with silent|]. intros n [st|e] [-> Hu].
  - apply runs_bind. eapply runs_mono; [by apply finish_named_places|]. intros n x cx' [-> Hc]. apply runs_ret.
    split; [by rewrite Nat.add_0_r|done].
  - destruct e; try done. split; [by destruct selected|done].
Qed.
Lemma with_stream_temp_places {A} dir (body : Z -> bytes -> Z -> op (option (result A PublishError) * bool)) cx :
  (forall td tn f cx', runs sel (body td tn f) cx' (placing_outcome selected (fun x => stream_places x.1) cx')) ->
  runs sel (with_stream_temp dir body) cx (placing_outcome selected stream_places cx).
Proof.
  intros Hb. unfold with_stream_temp. cbv zeta. apply runs_bind, runs_gets.
  apply runs_or. eapply runs_keeps; [apply calm_ensure_dir_with_dirty|]. intros [[]|err] cx1 H1; [|not_placed].
  apply runs_bind, runs_gets.
  do 4 (apply runs_or, runs_call_silent; [auto with silent|]; intros [?|err]; [|not_placed]).
  apply with_guard_places. eapply runs_mono; [apply Hb|]. intros n x cx2 [-> H2]. split; [done|by etrans].
Qed.
Lemma fallback_streaming_places dir dd dn h e tf len cx :
  picks sel dn selected ->
  runs sel (named_fallback_streaming dir dd dn h e tf len) cx (placing_outcome selected stream_places cx).
Proof.
  intros Hp. apply with_stream_temp_places. intros td tn f cx'. apply runs_or, runs_call.
  apply counts_try, counts_lift. destruct (FixedHeader_encode h e) as [hb|he]; cbn [map_err]; [|split; [by destruct selected|done]].
  do 2 (apply counts_try; eapply counts_mono; [apply unplaced_write; auto with silent|]; intros ? [[]|[]] [-> ?];
    [|split; [by destruct selected|done]|done..]).
  eapply counts_mono; [apply copy_payload_unplaced|]. intros n [[]|[]] [-> ?]; [|split; [by destruct selected|done]|done..].
  by apply finish_temp_places.
Qed.
Lemma stream_header_error job m created ext len dig e :
  stream_header job m created ext len dig = Err e -> exists e', e = PubNotCommitted e'.
Proof.
  unfold stream_header. destruct (envelope_digest _ _) as [d|]; cbn [ok_or rbind]; [|intros [= <-]; by eexists].
  destruct (FixedHeader_encode _ _); cbn; [done|]. intros [= <-]. by eexists.
Qed.
Lemma fallback_init_places fuel dir dd dn job m created e reader cx :
  picks sel dn selected ->
  runs sel (named_fallback_streaming_init fuel dir dd dn job m created e reader) cx (placing_outcome selected stream_places cx).
Proof.
  intros Hp. apply with_stream_temp_places. intros td tn f cx'. apply runs_bind, runs_gets, runs_bind, runs_call.
  eapply counts_mono; [apply stream_payload_unplaced|]. intros n [[[len dig]|err]|] [-> Hu].
  - apply runs_or, runs_ret. destruct (stream_header _ _ _ _ _ _) as [[h hb]|err] eqn:Eh.
    + apply runs_or, runs_call_silent; [auto with silent|]. intros [[]|err]; [|split; [by destruct selected|done]].
      by apply finish_temp_places.
    + apply stream_header_error in Eh as [err' ->]. split; [by destruct selected|done].
  - apply runs_ret. destruct (Hu _ eq_refl) as [_ Hn]. destruct err; try done. split; [by destruct selected|done].
  - apply runs_ret. split; [by destruct selected|done].
Qed.

Lemma publish_streamed_places tmp dd dn dig pref fallback cx cx0 :
  picks sel dn selected -> evolves cx0 cx ->
  (forall cx', evolves cx0 cx' -> runs sel fallback cx' (placing_outcome selected stream_places cx0)) ->
  runs sel (publish_streamed tmp dd dn dig pref fallback) cx (placing_outcome selected stream_places cx0).
Proof.
  intros Hp H1 Hfb. unfold publish_streamed. apply runs_bind.
  assert (Hpub : forall sync, counts sel (publish_tmpfile_noreplace_impl tmp dd dn pref sync)
    (fun n r => n = if selected then publish_commits r else 0%nat)) by (intros; by apply publish_places, picks_links).
  eapply runs_mono with (Q := fun n r cx' => n = (if selected then publish_commits r else 0%nat) /\ cx' = cx).
  { apply runs_by_dirty; apply runs_call; (eapply counts_mono; [apply Hpub|]); done. }
  intros n [[mode|]|f] cx' [-> ->].
  - apply runs_bind, runs_modify, runs_or. eapply runs_keeps; [apply calm_record_arg|]. intros [[]|err] cx' H'.
    + apply runs_ret. split; [by destruct selected|]. etrans; [|exact H']. done.
    + split; [by destruct selected|]. etrans; [|exact H']. done.
  - apply runs_bind, runs_modify. eapply runs_mono; [apply Hfb; done|]. intros n r cx' [-> H']. not_placed.
  - apply runs_ret. split; [|done]. cbn [stream_places]. rewrite published_digest_places. destruct f; by destruct selected.
Qed.
Lemma stream_into_tmpfile_places fuel tmp dir dd dn job m created e reader pref cx cx0 :
  picks sel dn selected -> evolves cx0 cx ->
  runs sel (stream_into_tmpfile fuel tmp dir dd dn job m created e reader pref) cx (placing_outcome selected stream_places cx0).
Proof.
  intros Hp H1. unfold stream_into_tmpfile. apply runs_bind, runs_gets, runs_bind, runs_call.
  eapply counts_mono; [apply stream_payload_unplaced|]. intros n [[[len dig]|err]|] [-> Hu].
  - apply runs_or, runs_ret. destruct (stream_header _ _ _ _ _ _) as [[h hb]|err] eqn:Eh.
    + apply runs_or, runs_call_silent; [auto with silent|]. intros [[]|err]; [|not_placed].
      apply publish_streamed_places; [done|done|]. intros cx' H'.
      eapply runs_mono; [by apply fallback_streaming_places|]. intros n r cx2 [-> H2]. split; [done|by etrans].
    + apply stream_header_error in Eh as [err' ->]. not_placed.
  - apply runs_ret. destruct (Hu _ eq_refl) as [_ Hn]. destruct err; try done. not_placed.
  - apply runs_ret. not_placed.
Qed.
Lemma stream_and_publish_places fuel dir dn job m created e reader cx :
  picks sel dn selected ->
  runs sel (stream_and_publish fuel dir dn job m created e reader) cx (placing_outcome selected stream_places cx).
Proof.
  intros Hp. unfold stream_and_publish. cbv zeta.
  apply runs_or. eapply runs_keeps; [apply calm_ensure_dir_with_dirty|]. intros [[]|err] cx1 H1; [|not_placed].
  apply runs_bind, runs_gets. apply runs_or, runs_call_silent; [auto with silent|]. intros [dd|err]; [|not_placed].
  assert (Hfb : forall cx', evolves cx cx' -> runs sel (named_fallback_streaming_init fuel dir dd dn job m created e reader) cx'
    (placing_outcome selected stream_places cx)).
  { intros cx' H'. eapply runs_mono; [by apply fallback_init_places|]. intros n r cx3 [-> H3]. split; [done|by etrans]. }
  apply runs_bind, runs_gets. generalize (publication_mode (handle cx1)). intros mode.
  set (unnamed := let* tmp := call (open_tmpfile dd) in _).
  assert (Hopen : runs sel unnamed cx1 (placing_outcome selected stream_places cx)).
  { apply runs_bind, runs_call_silent; [auto with silent|]. intros [tmp|err].
    - by apply stream_into_tmpfile_places.
    - case_match; [|apply runs_ret; not_placed]. apply runs_bind, runs_modify. eapply runs_mono; [by apply Hfb|]. done. }
  destruct mode as [[]|]; first [eapply runs_mono; [exact Hopen|done] | eapply runs_mono; [by apply Hfb|done]].
Qed.
End StreamCounts.

(** ** Enqueue *)

Section StreamOutcomes.
Context `{Sha256} {T : Texts} {R : Type} `{Reader R}.

Lemma with_own_dirty_places {A} {sel : Syscall -> bool} `{!Placing sel} {selected : bool} (count : A -> nat) (m : op A) cx :
  (forall cx', runs sel m cx' (placing_outcome selected count cx')) ->
  runs sel (with_own_dirty m) cx (placing_outcome selected count cx).
Proof.
  intros Hm. unfold runs, with_own_dirty. apply counts_bind. destruct (deferred_dir_sync _).
  - apply counts_bind. eapply counts_mono; [apply Hm|]. intros n [a cx'] [-> He]. apply counts_ret, counts_ret. cbn [fst snd].
    rewrite !Nat.add_0_r. split; [done|]. destruct He as (Hc & Hp & _ & Hr). by repeat split.
  - apply counts_bind. eapply counts_mono; [apply Hm|]. intros n [a cx'] [-> He]. apply counts_ret, counts_ret. cbn [fst snd].
    rewrite !Nat.add_0_r. split; [done|]. destruct He as (Hc & Hp & _ & Hr). by repeat split.
Qed.

Lemma calm_prepare_stream job : calm (prepare_stream job).
Proof. unfold prepare_stream. keeping. Qed.
(** The prepared job is the job asked for, of generation zero, at its target. *)
Definition stream_for (q : Queue) (job : EnqueueInput) (p : PreparedStream) : Prop :=
  enqueue_target (layout q) job (mkCommon (ps_job_id p) 0 0 (ei_maximum_attempts job)) (ps_state p) = Ok (ps_target p) /\
  ExtensionHeader_encode (enqueue_extension job) = Ok (ps_ext_bytes p).
Lemma prepare_stream_result {sel : Syscall -> bool} `{!Placing sel} job cx :
  runs sel (prepare_stream job) cx (fun _ r _ =>
    match r with Ok p => poisoned (handle cx) = None /\ stream_for (handle cx) job p | Err _ => True end).
Proof.
  unfold prepare_stream. apply runs_or, runs_gets. destruct (poisoned (handle cx)) eqn:Ep; [done|].
  destruct (ei_maximum_attempts job =? 0)%Z; [by apply runs_ret|].
  apply runs_or. eapply runs_keeps; [apply calm_wall|]. intros [w|e] cx' Hcx; [|done].
  apply runs_or, runs_call_silent; [auto with silent|]. intros [job_id|e]; [|done].
  apply runs_or, runs_ret. destruct (ExtensionHeader_encode _) as [ext|e] eqn:Ex; [|done]. cbv zeta.
  set (st := match ei_initial_not_before job with Some _ => _ | None => _ end). clearbody st.
  apply runs_or, runs_ret. destruct (next_identity _ _) as [common|e] eqn:En; [|done].
  apply enqueue_identity in En as ->; [|destruct st; auto].
  apply runs_bind, runs_gets. cbn [id]. apply runs_or, runs_ret. destruct (enqueue_target _ _ _ _) as [target|e] eqn:Et; [|done].
  apply runs_ret. split; [done|]. destruct Hcx as (Hc & _ & _). split; [|done]. cbn. rewrite <- Et. unfold layout. by rewrite Hc.
Qed.
Lemma prepare_stream_poisoned job cx reason :
  poisoned (handle cx) = Some reason ->
  prepare_stream job cx = Ret (Err (EnqueueTicket_uncommitted (zeros 16), QueuePoisoned (PoisonReason_fmt reason)), cx).
Proof. intros Hp. unfold prepare_stream, op_or, op_bind, check_not_poisoned, gets. by rewrite Hp. Qed.

End StreamOutcomes.

(** ** The streamed file is the buffered one *)

(** What a file holds after the calls of a trace: writes append, positional
    writes replace bytes it has. *)
Definition file_step (fd : Z) (content : bytes) (ev : event) : bytes :=
  match ev with
  | (SysWrite fd' data, Returns n) => if (fd' =? fd)%Z then content ++ take (Z.to_nat n) data else content
  | (SysPwrite fd' data off, Returns n) =>
      if (fd' =? fd)%Z then
        take (Z.to_nat off) content ++ take (Z.to_nat n) data ++ drop (Z.to_nat off + Z.to_nat n) content
      else content
  | _ => content
  end.
Definition file_after (fd : Z) (tr : list event) (content : bytes) : bytes := foldl (file_step fd) content tr.

Lemma file_after_app fd t1 t2 content : file_after fd (t1 ++ t2) content = file_after fd t2 (file_after fd t1 content).
Proof. apply foldl_app. Qed.

Lemma written_file fd tr content :
  Forall write_answer_ok tr -> Forall (fun ev => exists d, ev.1 = SysWrite fd d) tr ->
  file_after fd tr content = content ++ written tr.
Proof.
  revert content. induction tr as [|[c a] tr IH]; intros content Hok Hw.
  - unfold written. cbn. by rewrite app_nil_r.
  - apply Forall_cons in Hok as [Ha Hok], Hw as [[d E] Hw]. cbn in E. subst c.
    rewrite written_cons. change (file_after fd ((SysWrite fd d, a) :: tr) content)
      with (file_after fd tr (file_step fd content (SysWrite fd d, a))).
    rewrite IH by done. destruct a as [e|n| | | | |]; cbn in Ha; try done; cbn [file_step accepted snd fst payload].
    by rewrite Z.eqb_refl, <- app_assoc.
Qed.
Lemma write_all_file fd buf tr content u :
  Forall write_answer_ok tr -> exec (write_all_settled fd buf) tr (Ok u) -> file_after fd tr content = content ++ buf.
Proof. intros Hok Hx. destruct (write_all_settled_ok _ _ _ _ Hok Hx) as [<- Hw]. by apply written_file. Qed.

Lemma pwrite_file n fd buf off tr content :
  (length buf <= n)%nat -> (off + length buf <= length content)%nat -> (Z.of_nat (length content) < 2 ^ 63)%Z ->
  Forall write_answer_ok tr -> exec (pwrite_loop n fd buf (Z.of_nat off)) tr (Some (Ok tt)) ->
  file_after fd tr content = take off content ++ buf ++ drop (off + length buf) content.
Proof.
  revert buf off tr content. induction n as [|n IH]; intros [|b buf] off tr content Hn Hl Hb Hok Hx; cbn [pwrite_loop] in Hx;
    try (apply exec_ret in Hx as [-> E]; cbn [length] in *; rewrite ?Nat.add_0_r; cbn; try done; by rewrite take_drop).
  cbn [pwrite io_bind] in Hx. destruct tr as [|[c a] tr]; [done|]. destruct Hx as [-> Hx].
  apply Forall_cons in Hok as [Ha Hok]. destruct a as [e|m| | | | |]; cbn in Ha; try done; [by apply exec_ret in Hx as [_ ?]|].
  cbn [rc_of io_bind] in Hx. destruct (m =? 0)%Z eqn:Em; [by apply exec_ret in Hx as [_ ?]|]. breflect.
  change (file_after fd ((SysPwrite fd (b :: buf) (as_i64 (Z.of_nat off)), Returns m) :: tr) content)
    with (file_after fd tr (file_step fd content (SysPwrite fd (b :: buf) (as_i64 (Z.of_nat off)), Returns m))).
  cbn [file_step]. rewrite Z.eqb_refl. unfold as_i64. cbn [length] in *.
  destruct (Z.of_nat off <? 2 ^ 63)%Z eqn:Eo; breflect; [|lia]. rewrite Nat2Z.id. set (k := Z.to_nat m).
  assert (Hk : (1 <= k <= S (length buf))%nat) by lia.
  replace (wrap64 (Z.of_nat off + m)) with (Z.of_nat (off + k)) in Hx by (unfold wrap64; rewrite Z.mod_small; lia).
  fold k in Hx.
  set (content' := take off content ++ take k (b :: buf) ++ drop (off + k) content) in *.
  assert (L0 : length (take off content) = off) by (rewrite length_take; lia).
  assert (L1 : length (take k (b :: buf)) = k) by (rewrite length_take; cbn; lia).
  assert (Lc : length content' = length content) by (unfold content'; rewrite !length_app, L0, L1, length_drop; lia).
  assert (Ht : take (off + k) content' = take off content ++ take k (b :: buf)).
  { unfold content'. rewrite app_assoc. rewrite <- L0 at 1. rewrite <- L1 at 1. rewrite <- length_app. apply take_app_length. }
  assert (Hd : drop (off + k) content' = drop (off + k) content).
  { unfold content'. rewrite app_assoc. rewrite <- L0 at 1. rewrite <- L1 at 1. rewrite <- length_app. apply drop_app_length. }
  rewrite (IH (drop k (b :: buf)) (off + k)%nat tr content'); [|rewrite length_drop; cbn [length]; lia..|lia|done|done].
  assert (Hd2 : forall j, drop (j + (off + k)) content' = drop (j + (off + k)) content) by (intros j; by rewrite <- !(skipn_skipn j), Hd).
  rewrite Ht, length_drop. cbn [length]. rewrite (Nat.add_comm (off + k)), Hd2.
  rewrite <- app_assoc. f_equal. rewrite app_assoc, take_drop. f_equal. f_equal. lia.
Qed.

(** What a reader delivers until it ends. *)
Inductive reads {R : Type} `{Reader R} : R -> bytes -> Prop :=
| reads_end r n r' : reader_read r n = (Ok [], r') -> reads r []
| reads_chunk r n data r' rest :
    data <> [] -> reader_read r n = (Ok data, r') -> reads r' rest -> reads r (data ++ rest)
| reads_again r n e r' rest : kind e = KInterrupted -> reader_read r n = (Err e, r') -> reads r' rest -> reads r rest.

Section StreamedFile.
Context `{Sha256Spec} {T : Texts} {R : Type} `{Reader R}.

Lemma stream_chunks_file fuel fd limit reader total hashed tr len dig content :
  Forall write_answer_ok tr -> total = Z.of_nat (length hashed) ->
  exec (stream_chunks fuel fd limit reader total hashed) tr (Some (Ok (len, dig))) -> (total <= limit)%Z ->
  exists payload, reads reader payload /\ file_after fd tr content = content ++ payload /\
    len = Z.of_nat (length (hashed ++ payload)) /\ dig = payload_digest (hashed ++ payload) /\ (len <= limit)%Z.
Proof.
  revert reader total hashed tr content. induction fuel as [|fuel IH]; intros reader total hashed tr content Hok -> Hx Hlim;
    cbn [stream_chunks] in Hx; [by apply exec_ret in Hx as [_ ?]|].
  destruct (reader_read reader _) as [[[|b data]|e] reader'] eqn:Er.
  - apply exec_ret in Hx as [-> [= -> ->]]. exists []. rewrite !app_nil_r. split; [by eapply reads_end|done].
  - destruct (limit <? _)%Z eqn:El; breflect; [by apply exec_ret in Hx as [_ ?]|].
    apply exec_bind in Hx as (t1 & t2 & [[]|e] & -> & Hw & Hx); [|by apply exec_ret in Hx as [_ ?]].
    apply exec_map_err_ok in Hw. apply Forall_app in Hok as [Hok1 Hok2].
    assert (Et : (Z.of_nat (length hashed) + Z.of_nat (length (b :: data)) = Z.of_nat (length (hashed ++ b :: data)))%Z)
      by (rewrite length_app; lia).
    destruct (IH _ _ _ _ (content ++ b :: data) Hok2 Et Hx) as (rest & Hr & Hf & Hl & Hd & Hb); [done|].
    exists ((b :: data) ++ rest). split; [by eapply reads_chunk|].
    rewrite file_after_app, (write_all_file _ _ _ _ _ Hok1 Hw), Hf, <- !app_assoc. rewrite <- !app_assoc in Hl, Hd. done.
  - case_bool_decide as Ek; [|by apply exec_ret in Hx as [_ ?]].
    destruct (IH _ _ _ _ content Hok eq_refl Hx Hlim) as (rest & Hr & HH). exists rest. split; [by eapply reads_again|done].
Qed.
Lemma two_writes_file fd a b tr :
  Forall write_answer_ok tr ->
  exec (let!? _ := io_map_err classify_write (write_all_settled fd a) in io_map_err classify_write (write_all_settled fd b)) tr (Ok tt) ->
  file_after fd tr [] = a ++ b.
Proof.
  intros Hok Hp. apply exec_try in Hp as [(e & _ & ?)|(t3 & t4 & [] & -> & H3%exec_map_err_ok & H4%exec_map_err_ok)]; [done|].
  apply Forall_app in Hok as [Hok3 Hok4].
  by rewrite file_after_app, (write_all_file _ _ _ [] _ Hok3 H3), (write_all_file _ _ _ _ _ Hok4 H4).
Qed.
Lemma stream_payload_file fuel q fd ext reader tr len dig :
  Forall write_answer_ok tr -> (0 <= stream_limit q)%Z ->
  exec (stream_payload_to_fd fuel q fd ext reader) tr (Some (Ok (len, dig))) ->
  exists payload, reads reader payload /\ file_after fd tr [] = zeros 128 ++ ext ++ payload /\
    len = Z.of_nat (length payload) /\ dig = payload_digest payload /\ (len <= stream_limit q)%Z.
Proof.
  unfold stream_payload_to_fd. generalize (zeros 128). intros z.
  intros Hok Hq (t1 & t2 & [[]|e] & -> & Hp & H2)%exec_bind; [|by apply exec_ret in H2 as [_ ?]].
  apply Forall_app in Hok as [Hok1 Hok2].
  destruct (stream_chunks_file fuel fd (stream_limit q) reader 0 [] t2 len dig (z ++ ext) Hok2 eq_refl H2 Hq) as (payload & Hr & Hf & HH).
  exists payload. split; [done|]. split; [|done].
  by rewrite file_after_app, (two_writes_file _ _ _ _ Hok1 Hp), Hf, <- app_assoc.
Qed.

Lemma header_in_front fd hb z rest tr :
  length hb = length z -> (Z.of_nat (length (z ++ rest)) < 2 ^ 63)%Z -> Forall write_answer_ok tr ->
  exec (pwrite_all_settled fd hb 0) tr (Ok tt) -> file_after fd tr (z ++ rest) = hb ++ rest.
Proof.
  intros Hl Hb Hok (t1 & t2 & r & -> & Hx & [-> Hr]%exec_ret)%exec_bind. rewrite app_nil_r in Hok |- *.
  assert (r = Some (Ok tt)) as -> by (destruct r as [[[]|]|]; done).
  rewrite (pwrite_file (length hb) fd hb 0 t1 (z ++ rest) (le_n _)); [|rewrite length_app; lia|done|done|exact Hx].
  cbn [take app Nat.add]. rewrite Hl. by rewrite drop_app_length.
Qed.
(** The header that a stream seals. *)
Lemma stream_header_sealed job_id m created ext len dig header hb :
  length job_id = 16%nat -> is_u32 m -> is_u64 created -> (0 <= len <= MAX_PAYLOAD_LENGTH)%Z -> length dig = 32%nat ->
  stream_header job_id m created ext len dig = Ok (header, hb) ->
  length hb = 128%nat /\ FixedHeader_encode header ext = Ok hb /\
  exists d, envelope_digest (mkFixedHeader FORMAT_MINOR (wrap32 (Z.of_nat (length ext))) len 0
    DIGEST_ALGORITHM_SHA256 job_id m created dig (zeros 32)) ext = Some d /\
    header = with_envelope_digest (mkFixedHeader FORMAT_MINOR (wrap32 (Z.of_nat (length ext))) len 0
    DIGEST_ALGORITHM_SHA256 job_id m created dig (zeros 32)) d.
Proof.
  intros Hj Hm Hc Hl Hd Hh. unfold stream_header in Hh. destruct (envelope_digest _ _) as [d|] eqn:Ed; cbn [ok_or rbind] in Hh; [|done].
  destruct (FixedHeader_encode _ _) as [hb'|] eqn:Ee; cbn in Hh; [|done]. injection Hh as <- <-.
  split; [|split; [done|by exists d]].
  assert (Ld : length d = 32%nat).
  { unfold envelope_digest in Ed. repeat case_match; try done. injection Ed as <-. apply sha256_length. }
  match type of Ee with FixedHeader_encode ?h _ = _ => assert (Ht : FixedHeader_typed h) end.
  { unfold FixedHeader_typed, MAX_PAYLOAD_LENGTH, is_u64 in *. cbn -[length is_u16 is_u32 is_u8 wrap32 zeros].
    split_and!; try done; try lia. apply Z.mod_pos_bound. lia. }
  rewrite FixedHeader_encode_layout in Ee by exact Ht. case_match; [|done]. injection Ee as <-. by apply length_header_body.
Qed.

End StreamedFile.

(** ** Sample streams *)

(** A reader over chunks, one of which may be an interruption. *)
Definition sample_reader : Reader (list (option bytes)) := fun chunks n =>
  match chunks with
  | [] => (Ok [], [])
  | None :: chunks => (Err (OsError EINTR), chunks)
  | Some data :: chunks => (Ok (take n data), chunks)
  end.
Definition sample_chunks : list (option bytes) := [Some (lit "pay"); None; Some (lit "load")].
Definition sample_stream :=
  run (sample_disk (mkSampleFile (lit ".") 6 0 [] :: sample_control)) tt
    (strictly (@enqueue_streaming checksum256 sample_texts _ sample_reader 9 sample_job sample_chunks) sample_queue).
Lemma sample_stream_exec :
  exec (strictly (@enqueue_streaming checksum256 sample_texts _ sample_reader 9 sample_job sample_chunks) sample_queue)
    sample_stream.1.1 (sample_stream.1.2.1, sample_stream.1.2.2).
Proof. unfold sample_stream. apply exec_run_pair. Qed.

Definition sample_ext : bytes := match ExtensionHeader_encode (enqueue_extension sample_job) with Ok b => b | Err _ => [] end.
Definition sample_streamed :=
  run (sample_disk []) tt (@stream_payload_to_fd checksum256 sample_texts _ sample_reader 9 sample_queue 7 sample_ext sample_chunks).
Definition sample_sealed : FixedHeader * bytes :=
  match @stream_header checksum256 sample_texts (replicate 16 x2a) 3 1700000000 sample_ext 7
          (@payload_digest checksum256 (lit "payload")) with Ok x => x | Err _ => (sample_header, []) end.
Definition sample_fronted := run (sample_disk []) tt (pwrite_all_settled 7 sample_sealed.2 0).
Definition write_answer_okb (ev : event) : bool :=
  match ev.2 with
  | Fails _ => true
  | Returns rc => (0 <=? rc)%Z && (rc <=? Z.of_nat (length (payload ev.1)))%Z
  | _ => false
  end.
Lemma write_answers_ok tr : forallb write_answer_okb tr = true -> Forall write_answer_ok tr.
Proof.
  rewrite forallb_forall, Forall_forall. intros Hall [c a] Hin. generalize (Hall _ (proj1 (list_elem_of_In _ _) Hin)). clear Hall Hin. unfold write_answer_okb, write_answer_ok. cbn [fst snd].
  destruct a; try done. rewrite andb_true_iff, !Z.leb_le. done.
Qed.
