(* ===== verification/Resolve.v ===== *)
(** * Resolution of indeterminate transitions

    Models [crates/steadq-core/src/queue/resolve.rs]: the paths a ticket stands
    for, the authentication of the objects found there, the classification of
    what was observed and the optional stabilization.  [verify_shard_placement]
    is from [inspect.rs]. *)
From stdpp Require Import base numbers list option strings gmap.
From Stdlib Require Import Strings.Byte ZArith.
From S2P Require Import Prelude Math Names Format Cbor FsLinux FsRead StateMachine Ticket Layout Engine Logic Verified Queue Watermark Publish.
Open Scope string_scope.
Open Scope list_scope.

Record ResolvedObject : Type := mkResolvedObject {
  ro_directory_fd : Z;
  ro_directory_device : Z;
  ro_directory_inode : Z;
  ro_file_fd : Z;
  ro_device : Z;
  ro_inode : Z
}.
Inductive ResolveObj : Type :=
| ObjAbsent
| ObjMatch (o : ResolvedObject)
| ObjConflict
| ObjError (e : Error).
Inductive ResolverObjectVerifier : Type := VerifierJob | VerifierReceipt.
Inductive ResolverObjectOpenFailure : Type := ResolverAbsent | ResolverConflict | ResolverIo.

Definition resolver_error_is_not_found (e : IoError) : bool := os_error_in [ENOENT] e.

Definition resolver_object_verifier (object_kind : ObjectKind) (state_directory : bytes)
  : option ResolverObjectVerifier :=
  let among l := bool_decide (state_directory ∈ map lit l) in
  match object_kind with
  | KindFullJob => if among ["ready"; "leased"; "delayed"; "dead"] then Some VerifierJob else None
  | KindFullReceipt | KindCompactReceipt => if among ["receipts"] then Some VerifierReceipt else None
  | KindRawObject | KindWatermarkRecord => None
  end.

Definition resolved_identity_matches (st : Stat) (expected_device expected_inode : Z) : bool :=
  is_regular st && identity_matches (st_dev st) (st_ino st) expected_device expected_inode.

Definition classify_resolver_object_open_failure (e : IoError) : ResolverObjectOpenFailure :=
  if os_error_in [ENOENT] e then ResolverAbsent
  else if os_error_in [ELOOP] e then ResolverConflict
  else ResolverIo.

Record ResolvePath : Type := mkResolvePath {
  rp_directory : ValidatedRelativePath;
  rp_name : bytes;
  rp_parts : list bytes
}.

Section Resolve.
Context `{Sha256} {T : Texts}.

Definition ResolvePath_new (path : bytes) : result ResolvePath Error :=
  let invalid e := InvalidInput (io_text e) in
  let? relative := map_err invalid (validate_relative_path path) in
  let? (directory, name) := ok_or (rsplit_once (vrp_path relative))
    (InvalidInput "ticket path has no parent directory") in
  let? directory := map_err invalid (validate_relative_path directory) in
  Ok (mkResolvePath directory name (ValidatedRelativePath_components relative)).

(** ** The paths of a ticket *)

Definition ticket_source_target (L : Layout) (ticket : TransitionTicket) : result Target Error :=
  match tt_source ticket with
  | SrcReady => Ok (Layout_ready L (source_common ticket))
  | SrcLeased boot boottime_deadline_ns wall_deadline_ns =>
      Layout_leased_for_boot L (source_common ticket) boot boottime_deadline_ns wall_deadline_ns
        (tt_lease_token ticket)
  end.
Definition ticket_destination_target (L : Layout) (ticket : TransitionTicket) (common : CommonFields)
  : result Target Error :=
  match tt_destination ticket with
  | DstReady => Ok (Layout_ready L common)
  | DstLeased boot boottime_deadline_ns wall_deadline_ns =>
      Layout_leased_for_boot L common boot boottime_deadline_ns wall_deadline_ns (tt_lease_token ticket)
  | DstDelayed not_before_ns => Layout_delayed L common not_before_ns
  | DstReceipt terminal_bucket => Ok (Layout_receipt_in_bucket L common (tt_lease_token ticket) terminal_bucket)
  | DstDead terminal_bucket reason => Ok (Layout_dead_in_bucket L common reason terminal_bucket)
  end.
(** The source and destination of a ticket that is valid for this queue. *)
Definition transition_targets (q : Queue) (ticket : TransitionTicket) : result (Target * Target) Error :=
  let? _ := validate_for_queue ticket (queue_id q) in
  let? common := destination_common ticket in
  let? source := ticket_source_target (layout q) ticket in
  let? destination := ticket_destination_target (layout q) ticket common in
  Ok (source, destination).
Definition transition_ticket_paths (q : Queue) (ticket : TransitionTicket) : result (bytes * bytes) Error :=
  let? (source, destination) := transition_targets q ticket in
  Ok (relative_path source, relative_path destination).

(** ** Authentication of an observed object *)

Definition verify_shard_placement (q : Queue) (shard job_id : bytes) : bool :=
  match shard_from_hex shard with
  | Some s => (s =? compute_shard (queue_id q) job_id (shard_count q))%Z
  | None => false
  end.

(** The match on the state directory: the filename carries the expected
    identity, authenticates in its directory and lies in the job's shard. *)
Definition resolved_name_matches (q : Queue) (ticket : TransitionTicket) (expected : CommonFields)
    (parts : list bytes) (name : bytes) : bool :=
  let qid := queue_id q in
  let is_expected common := bool_decide (common = expected) in
  let has_token token := bool_decide (token = tt_lease_token ticket) in
  let placed shard := verify_shard_placement q shard (tt_job_id ticket) in
  match parts with
  | [state; shard; _] =>
      bool_decide (state = lit "ready") &&
      match parse_ready name, parse_leased name with
      | Ok p, _ => is_expected (rn_common p) && ReadyName_authenticate_tag p qid shard && placed shard
      | Err _, Ok p =>
          is_expected (ln_common p) && has_token (ln_token p) &&
          match lease_bucket (ln_boottime_deadline_ns p) (fr_lease_bucket_width_ns (format (config q))) with
          | None => false
          | Some bucket =>
              LeasedName_authenticate_tag p qid (format_boot_id (ln_boot_id p)) (bucket_hex bucket) shard
              && placed shard
          end
      | Err _, Err _ => false
      end
  | [state; bucket; shard; _] =>
      if bool_decide (state = lit "delayed") then
        match parse_delayed name with
        | Ok p => is_expected (dn_common p) && DelayedName_authenticate_tag p qid bucket shard && placed shard
        | Err _ => false
        end
      else if bool_decide (state = lit "dead") then
        match parse_dead name with
        | Ok p => is_expected (xn_common p) && DeadName_authenticate_tag p qid bucket shard && placed shard
        | Err _ => false
        end
      else false
  | [state; boot; bucket; shard; _] =>
      bool_decide (state = lit "leased") &&
      match parse_leased name with
      | Ok p => is_expected (ln_common p) && has_token (ln_token p) &&
          LeasedName_authenticate_tag p qid boot bucket shard && placed shard
      | Err _ => false
      end
  | _ => false
  end.

Definition resolved_header_matches (ticket : TransitionTicket) (expected : CommonFields) (header : FixedHeader) : bool :=
  bool_decide (fh_job_id header = tt_job_id ticket) &&
  (fh_maximum_attempts header =? cf_maximum_attempts expected)%Z &&
  bool_decide (fh_envelope_digest header = tt_envelope_digest ticket) &&
  (fh_payload_length header =? tt_payload_length ticket)%Z.

(** The verdict of the verifier on the opened object. *)
Definition resolve_verified (q : Queue) (path : ResolvePath) (ticket : TransitionTicket) (expected : CommonFields)
    (verifier : ResolverObjectVerifier) (file_fd : Z) (object : ResolvedObject) : io ResolveObj :=
  let verdict {A} (r : result A VerificationError) (ok : A -> bool) : ResolveObj :=
    match r with
    | Ok a => if ok a then ObjMatch object else ObjConflict
    | Err (VerifyIo error) => ObjError (IoFailure error)
    | Err (VerifyCorrupt _) | Err VerifyPayloadCorrupt => ObjConflict
    end in
  match verifier with
  | VerifierReceipt =>
      match rp_parts path with
      | [_; bucket; shard; _] =>
          let f := format (config q) in
          let! r := verify_receipt_on_fd file_fd
            (mkReceiptContext (fr_queue_id f) (fr_shard_count f) (fr_terminal_bucket_width_ns f)
               (fr_max_payload_length f) bucket shard (rp_name path))
            (Some (mkExpectedReceipt expected (tt_lease_token ticket) (tt_envelope_digest ticket)
                     (tt_payload_length ticket))) in
          Ret (verdict r (fun _ => true))
      | _ => Ret ObjConflict
      end
  | VerifierJob =>
      let! r := verify_job_on_fd file_fd in
      Ret (verdict r (fun verified =>
        resolved_header_matches ticket expected (vj_header verified) &&
        resolved_name_matches q ticket expected (rp_parts path) (rp_name path)))
  end.

Definition resolve_check_object (q : Queue) (path : ResolvePath) (ticket : TransitionTicket)
    (expected_common : CommonFields) (object_kind : ObjectKind) : io ResolveObj :=
  match resolver_object_verifier object_kind (rp_parts path !!! 0%nat) with
  | None => Ret ObjConflict
  | Some verifier =>
      let! dir := open_directory_beneath (root_fd (config q)) (rp_directory path) in
      match dir with
      | Err error =>
          Ret (match classify_presence_failure error with
               | PresenceAbsent => ObjAbsent
               | PresenceIo => ObjError (Error_of_io error)
               end)
      | Ok dir_fd =>
          let! dstat := fstat dir_fd in
          match dstat with
          | Err error => Ret (ObjError (Error_of_io error))
          | Ok directory_stat =>
              let! file := openat dir_fd (rp_name path) resolver_file_open_flags 0 in
              match file with
              | Err error =>
                  Ret (match classify_resolver_object_open_failure error with
                       | ResolverAbsent => ObjAbsent
                       | ResolverConflict => ObjConflict
                       | ResolverIo => ObjError (Error_of_io error)
                       end)
              | Ok file_fd =>
                  let! fst := fstat file_fd in
                  match fst with
                  | Err error => Ret (ObjError (Error_of_io error))
                  | Ok st =>
                      if negb (is_singly_linked_regular st) then Ret ObjConflict
                      else
                        let! header := pread_exact file_fd FIXED_HEADER_SIZE 0 in
                        match header with
                        | Err error =>
                            Ret (if bool_decide (kind error = KUnexpectedEof) then ObjConflict
                                 else ObjError (Error_of_io error))
                        | Ok _ =>
                            resolve_verified q path ticket expected_common verifier file_fd
                              (mkResolvedObject dir_fd (st_dev directory_stat) (st_ino directory_stat)
                                 file_fd (st_dev st) (st_ino st))
                        end
                  end
              end
          end
      end
  end.

Definition stabilize_object (q : Queue) (path : ResolvePath) (object : ResolvedObject) : io (result bool Error) :=
  let!? _ := io_map_err Error_of_io (fsync (ro_file_fd object)) in
  let!? _ := io_map_err Error_of_io (fsync_dir_fd (ro_directory_fd object)) in
  let! dir := open_directory_beneath (root_fd (config q)) (rp_directory path) in
  match dir with
  | Err error => Ret (if resolver_error_is_not_found error then Ok false else Err (Error_of_io error))
  | Ok current_directory =>
      let!? dstat := io_map_err Error_of_io (fstat current_directory) in
      if negb (identity_matches (st_dev dstat) (st_ino dstat) (ro_directory_device object) (ro_directory_inode object))
      then Ret (Ok false)
      else
        let! current := fstatat current_directory (rp_name path) in
        Ret (match current with
             | Err error => if resolver_error_is_not_found error then Ok false else Err (Error_of_io error)
             | Ok current => Ok (resolved_identity_matches current (ro_device object) (ro_inode object))
             end)
  end.

Definition stabilized (q : Queue) (path : ResolvePath) (object : ResolvedObject) (stabilize : bool)
    (observed settled : ResolutionOutcome) : io ResolutionOutcome :=
  if stabilize then
    let! r := stabilize_object q path object in
    Ret (match r with
         | Ok true => settled
         | Ok false => ConflictingObject
         | Err error => ResolutionFailed error
         end)
  else Ret observed.

Definition resolve (q : Queue) (ticket : TransitionTicket) (stabilize : bool) : io ResolutionOutcome :=
  let prepared :=
    let? (source_relative_path, destination_relative_path) := transition_ticket_paths q ticket in
    let? source_path := ResolvePath_new source_relative_path in
    let? destination_path := ResolvePath_new destination_relative_path in
    let? destination_common := destination_common ticket in
    Ok (source_path, destination_path, destination_common) in
  match prepared with
  | Err error => Ret (ResolutionFailed error)
  | Ok (source_path, destination_path, destination_common) =>
      let (source_object_kind, destination_object_kind) := object_kinds ticket in
      let! src_result := resolve_check_object q source_path ticket (source_common ticket) source_object_kind in
      let! dest_result := resolve_check_object q destination_path ticket destination_common destination_object_kind in
      match src_result, dest_result with
      | ObjMatch source, ObjAbsent => stabilized q source_path source stabilize SourceObserved SourceStabilized
      | ObjAbsent, ObjMatch destination =>
          stabilized q destination_path destination stabilize DestinationObserved DestinationStabilized
      | ObjAbsent, ObjAbsent => Ret NeitherObserved
      | ObjMatch _, ObjMatch _ => Ret BothObserved
      | ObjConflict, _ | _, ObjConflict => Ret ConflictingObject
      | ObjError e, _ | _, ObjError e => Ret (ResolutionFailed e)
      end
  end.

End Resolve.

(** ** The resolver looks where the transition moved *)

(** The numbers in a ticket's endpoints fit their types. *)
Definition ticket_endpoints_typed (t : TransitionTicket) : Prop :=
  match tt_source t with SrcReady => True | SrcLeased _ b w => is_u64 b /\ is_u64 w end /\
  match tt_destination t with
  | DstReady => True
  | DstLeased _ b w => is_u64 b /\ is_u64 w
  | DstDelayed nb => is_u64 nb
  | DstReceipt b => is_u64 b
  | DstDead b r => is_u64 b /\ is_u16 r
  end.

(** A target as the resolver meets it: its path splits into directory and
    name, its state directory suits its object kind, and a job's name passes
    the resolver's checks. *)
Definition recognised `{Sha256} {T : Texts} (q : Queue) (ticket : TransitionTicket) (common : CommonFields) (object_kind : ObjectKind)
    (t : Target) : Prop :=
  exists p, ResolvePath_new (relative_path t) = Ok p /\ rp_name p = filename t /\
    vrp_path (rp_directory p) = directory t /\
    match resolver_object_verifier object_kind (rp_parts p !!! 0%nat) with
    | Some VerifierJob => resolved_name_matches q ticket common (rp_parts p) (rp_name p) = true
    | Some VerifierReceipt => exists bucket shard, rp_parts p = [lit "receipts"; bucket; shard; filename t]
    | None => False
    end.

Section Recognised.
Context `{Sha256Spec} {T : Texts}.

Lemma placement_of_job q j :
  Layout_wf (layout q) -> verify_shard_placement q (shard_hex (shard_for (layout q) j)) j = true.
Proof.
  intros HL. destruct (shard_for_range (layout q) j HL) as [_ Hu]. unfold verify_shard_placement.
  rewrite (proj2 (shard_from_hex_Some _ _)) by (by split). by rewrite Z.eqb_refl.
Qed.

Lemma built_resolve_path L t c :
  Layout_wf L -> built L t c ->
  exists p, ResolvePath_new (relative_path t) = Ok p /\ rp_name p = filename t /\
    vrp_path (rp_directory p) = directory t /\ rp_parts p = location_components (location t) ++ [filename t].
Proof.
  intros HL Hb. destruct (built_path _ _ _ HL Hb) as ((v & Hv & Hp & Hc) & Hsplit).
  destruct (built_location _ _ _ HL Hb) as [Hl _].
  unfold ResolvePath_new. rewrite Hv. cbn [map_err rbind]. rewrite Hp.
  assert (rsplit_once (relative_path t) = Some (directory t, filename t)) as ->.
  { unfold rsplit_once. rewrite Hsplit, reverse_app. rewrite directory_components.
    by destruct (location t). }
  cbn [ok_or rbind]. destruct (safe_join_valid (location_components (location t))) as (d & Hd & Hdp & _).
  - by destruct (location t).
  - by apply location_ok_safe.
  - etrans; [by apply length_join_slash, location_ok_safe|].
    unfold MAX_RELATIVE_PATH_BYTES. destruct (location t); cbn [location_components length]; lia.
  - rewrite directory_components, Hd. cbn [map_err rbind]. eexists. split; [done|]. by rewrite <- Hc.
Qed.

(** The names of jobs the queue builds pass the resolver's checks. *)
Lemma built_name_matches q ticket t c :
  Layout_wf (layout q) -> built (layout q) t c -> cf_job_id c = tt_job_id ticket ->
  (forall n, Target_state t = Leased -> parse_leased (filename t) = Ok n -> ln_token n = tt_lease_token ticket) ->
  Target_state t <> Receipt ->
  resolved_name_matches q ticket c (location_components (location t) ++ [filename t]) (filename t) = true.
Proof.
  intros HL Hb Hj Htok Hrec. pose proof (built_authentic _ _ _ HL Hb) as Ha.
  destruct (built_location _ _ _ HL Hb) as [_ Hsh]. pose proof (placement_of_job q (cf_job_id c) HL) as Hpl.
  unfold authentic, Target_shard, Target_state in *. rewrite <- Hsh, Hj in Hpl.
  destruct (location t) as [sh|boot b sh|b sh|b sh|b sh]; [..|done|]; destruct Ha as (n & Hn & Hc & Ha);
    cbn [location_components app resolved_name_matches]; unfold resolved_name_matches;
    change (queue_id q) with (ly_queue_id (layout q)).
  - rewrite Hn, Hc, !bool_decide_true, Ha, Hpl by done. done.
  - destruct (parse_ready (filename t)) eqn:Er; [by destruct (ready_not_leased _ _ _ Er Hn)|].
    destruct Ha as (Hboot & Hbk & Ha). apply boot_id_bytes_iff in Hboot as [_ ->].
    rewrite Hn, Hc, (Htok n) by done. rewrite !bool_decide_true by done. cbn [andb].
    change (fr_lease_bucket_width_ns _) with (ly_lease_bucket_width_ns (layout q)). by rewrite Hbk, Ha, Hpl.
  - destruct Ha as [_ Ha]. by rewrite bool_decide_true, Hn, Hc, bool_decide_true, Ha, Hpl by done.
  - rewrite bool_decide_false by done. by rewrite bool_decide_true, Hn, Hc, bool_decide_true, Ha, Hpl by done.
Qed.

Lemma ticket_common_wf t :
  TransitionTicket_typed t -> CommonFields_wf (source_common t) /\
  (forall c, destination_common t = Ok c -> CommonFields_wf c /\ cf_job_id c = tt_job_id t /\ c <> source_common t).
Proof.
  intros (_ & Hj & Hg & Ha & Hm & _). split; [done|]. intros c Hc.
  apply destination_common_ok, next_common_fields_ok in Hc as (Hg' & Ha' & ->); [|apply ticket_operation_source].
  cbn [source_common cf_job_id cf_generation cf_attempt cf_maximum_attempts] in *.
  unfold CommonFields_wf, is_u64, is_u32 in *. cbn. split; [|split; [done|]].
  - unfold u64_max, u32_max in *. case_bool_decide as E; [specialize (Ha' E)|]; split_and!; lia.
  - intros [= E]. lia.
Qed.

Lemma leased_target_token L c boot bdl wdl tok t n :
  CommonFields_wf c -> is_u64 bdl -> is_u64 wdl -> length tok = 16%nat ->
  Layout_leased_for_boot L c boot bdl wdl tok = Ok t -> parse_leased (filename t) = Ok n -> ln_token n = tok.
Proof.
  intros Hc Hb Hw Ht E Hn. apply Layout_leased_ok in E as (b & fn & bb & _ & Hbb & Hfn & ->). cbn [filename] in Hn.
  destruct (make_leased_ok (ly_queue_id L) boot bb (bucket_hex b) (shard_hex (shard_for L (cf_job_id c)))
    c bdl wdl tok) as (s & n' & E & H1 & _ & _ & _ & _ & H2 & _); [done..|].
  rewrite Hfn in E. injection E as <-. rewrite Hn in H1. by injection H1 as ->.
Qed.

Lemma source_target_built L t s :
  TransitionTicket_typed t -> ticket_endpoints_typed t -> ticket_source_target L t = Ok s ->
  built L s (source_common t) /\
  (forall n, Target_state s = Leased -> parse_leased (filename s) = Ok n -> ln_token n = tt_lease_token t) /\
  (Target_state s = match tt_source t with SrcReady => Ready | SrcLeased _ _ _ => Leased end).
Proof.
  intros Ht [He _]. destruct (ticket_common_wf t Ht) as [Hc _]. destruct Ht as (_ & _ & _ & _ & _ & Htok & _).
  unfold ticket_source_target. destruct (tt_source t) as [|boot b w].
  - intros [= <-]. split; [by constructor|]. done.
  - destruct He as [Hb Hw]. intros E. split; [exact (built_leased _ _ _ _ _ _ _ Hc Hb Hw Htok E)|]. split.
    + intros n _ Hn. exact (leased_target_token _ _ _ _ _ _ _ _ Hc Hb Hw Htok E Hn).
    + by apply Layout_leased_ok in E as (? & ? & ? & _ & _ & _ & ->).
Qed.

Lemma destination_target_built L t c d :
  TransitionTicket_typed t -> ticket_endpoints_typed t -> destination_common t = Ok c ->
  ticket_destination_target L t c = Ok d ->
  built L d c /\
  (forall n, Target_state d = Leased -> parse_leased (filename d) = Ok n -> ln_token n = tt_lease_token t) /\
  Target_state d = match tt_destination t with
    | DstReady => Ready | DstLeased _ _ _ => Leased | DstDelayed _ => Names.Delayed
    | DstReceipt _ => Receipt | DstDead _ _ => Dead
    end.
Proof.
  intros Ht [_ He] Hd. destruct (ticket_common_wf t Ht) as [_ Hc]. destruct (Hc c Hd) as (Hwf & _ & _).
  destruct Ht as (_ & _ & _ & _ & _ & Htok & _).
  unfold ticket_destination_target. destruct (tt_destination t) as [|boot b w|nb|b|b r].
  - intros [= <-]. split; [by constructor|]. done.
  - destruct He as [Hb Hw]. intros E. split; [exact (built_leased _ _ _ _ _ _ _ Hwf Hb Hw Htok E)|]. split.
    + intros n _ Hn. exact (leased_target_token _ _ _ _ _ _ _ _ Hwf Hb Hw Htok E Hn).
    + by apply Layout_leased_ok in E as (? & ? & ? & _ & _ & _ & ->).
  - intros E. split; [by eapply built_delayed|]. by apply Layout_delayed_ok in E as (? & ? & _ & ->).
  - intros [= <-]. split; [by constructor|]. done.
  - intros [= <-]. destruct He. split; [by constructor|]. done.
Qed.

(** Resolution looks exactly where the transition moved.  The two paths of a
    ticket valid for this queue differ; each is a well-formed path whose state
    directory suits the object kind the protocol gives that end; and the names
    of the jobs there pass the resolver's own identity, token, tag and shard
    checks, so an object left by the transition is never refused for its name. *)
Theorem ticket_paths_recognised q t s d :
  Layout_wf (layout q) -> TransitionTicket_typed t -> ticket_endpoints_typed t ->
  transition_targets q t = Ok (s, d) ->
  transition_ticket_paths q t = Ok (relative_path s, relative_path d) /\
  relative_path s <> relative_path d /\
  recognised q t (source_common t) (object_kinds t).1 s /\
  exists common, destination_common t = Ok common /\ recognised q t common (object_kinds t).2 d.
Proof.
  intros HL Ht He Htg. unfold transition_ticket_paths. rewrite Htg. cbn [rbind]. split; [done|].
  unfold transition_targets in Htg. rsteps Htg. simplify_eq.
  destruct (source_target_built _ _ _ Ht He E1) as (Hs & Hst & Hss).
  destruct (destination_target_built _ _ _ _ Ht He E0 E2) as (Hd & Hdt & Hds).
  destruct (ticket_common_wf t Ht) as [_ Hc]. destruct (Hc _ E0) as (_ & Hj & Hne).
  unfold validate_for_queue in E. rsteps E. destruct t2. apply validate_iff in E3 as (_ & _ & _ & Hshape & _); [|done].
  split; [|split].
  - intros Hp. apply Hne. by destruct (built_path_inj _ _ _ _ _ HL Hs Hd Hp) as [_ Hcc].
  - destruct (built_resolve_path _ _ _ HL Hs) as (p & Hp & Hn & Hdir & Hparts). exists p. split_and!; try done.
    pose proof (built_name_matches q t s _ HL Hs eq_refl Hst) as Hm. rewrite Hparts, Hn.
    unfold object_kinds, Target_state, ticket_shape in *.
    destruct (tt_operation t), (tt_source t), (location s); try done; by apply Hm.
  - exists t1. split; [done|].
    destruct (built_resolve_path _ _ _ HL Hd) as (p & Hp & Hn & Hdir & Hparts). exists p. split_and!; try done.
    pose proof (built_name_matches q t d _ HL Hd Hj Hdt) as Hm. rewrite Hparts, Hn.
    unfold object_kinds, Target_state, ticket_shape in *.
    destruct (tt_operation t), (tt_source t), (tt_destination t), (location d); try done;
      first [by apply Hm | by eexists _, _].
Qed.

End Recognised.

(** ** What a resolution is evidence of *)

Section Evidence.
Context `{Sha256Spec} {T : Texts}.

Lemma silent_check_object {sel : Syscall -> bool} `{!Acting sel} q p t c k : silent sel (resolve_check_object q p t c k).
Proof. unfold resolve_check_object, resolve_verified. silence. Qed.
#[local] Hint Resolve silent_check_object : silent.

(** The content of a file proves the presence of the object a ticket expects. *)
Definition proves_object (q : Queue) (path : ResolvePath) (ticket : TransitionTicket) (expected : CommonFields)
    (content : bytes) : Prop :=
  (exists ve, ValidatedEnvelope_from_bytes content true = Ok ve /\
     resolved_header_matches ticket expected (ve_header ve) = true /\
     resolved_name_matches q ticket expected (rp_parts path) (rp_name path) = true) \/
  (exists bucket shard vr, rp_parts path !! 1%nat = Some bucket /\ rp_parts path !! 2%nat = Some shard /\
     let f := format (config q) in
     receipt_evidence content
       (mkReceiptContext (fr_queue_id f) (fr_shard_count f) (fr_terminal_bucket_width_ns f)
          (fr_max_payload_length f) bucket shard (rp_name path))
       (Some (mkExpectedReceipt expected (tt_lease_token ticket) (tt_envelope_digest ticket)
                (tt_payload_length ticket))) vr).

Lemma resolve_verified_proves q p t c v fd o content :
  wp (serves fd content) (resolve_verified q p t c v fd o) (fun _ r =>
    match r with ObjMatch o' => o' = o /\ proves_object q p t c content | _ => True end).
Proof.
  unfold resolve_verified. cbv zeta. destruct v.
  - apply wp_bind. eapply wp_mono; [apply verify_job_judged|]. intros tr [job|[]] Hv; apply wp_ret; try done.
    destruct (_ && _) eqn:E; [|done]. apply andb_true_iff in E as [E1 E2]. split; [done|].
    left. destruct Hv as (payload & Hv & _). by eexists.
  - destruct (rp_parts p) as [|p0 [|bucket [|shard [|p3 [|]]]]] eqn:Ep; try by apply wp_ret.
    apply wp_bind. eapply wp_mono; [apply verify_receipt_accepts|]. intros tr [vr|[]] Hv; apply wp_ret; try done.
    split; [done|]. right. exists bucket, shard, vr. by rewrite Ep.
Qed.

(** The file an observed object was read from holds what the ticket expects. *)
Lemma check_object_proves q p t c k tr o content :
  exec (resolve_check_object q p t c k) tr (ObjMatch o) ->
  Forall (serves (ro_file_fd o) content) tr -> proves_object q p t c content.
Proof.
  unfold resolve_check_object. destruct (resolver_object_verifier _ _) as [v|]; [|by intros [_ ?]%exec_ret].
  intros (t1 & t2 & dir & -> & _ & H1)%exec_bind. destruct dir as [dir_fd|e];
    [|apply exec_ret in H1 as [_ H1]; by destruct (classify_presence_failure e)].
  apply exec_bind in H1 as (t3 & t4 & dst & -> & _ & H1). destruct dst as [dst|e]; [|by apply exec_ret in H1 as [_ ?]].
  apply exec_bind in H1 as (t5 & t6 & file & -> & _ & H1). destruct file as [file_fd|e];
    [|apply exec_ret in H1 as [_ H1]; by destruct (classify_resolver_object_open_failure e)].
  apply exec_bind in H1 as (t7 & t8 & st & -> & _ & H1). destruct st as [st|e]; [|by apply exec_ret in H1 as [_ ?]].
  destruct (is_singly_linked_regular st); cbn [negb] in H1; [|by apply exec_ret in H1 as [_ ?]].
  apply exec_bind in H1 as (t9 & t10 & hd & -> & _ & H1). destruct hd as [hd|e];
    [|apply exec_ret in H1 as [_ H1]; by destruct (bool_decide _)].
  rewrite !Forall_app. intros (_ & _ & _ & _ & _ & Hs).
  assert (ro_file_fd o = file_fd) as Efd.
  { unfold resolve_verified in H1. cbv zeta in H1. destruct v.
    - apply exec_bind in H1 as (u1 & u2 & r & -> & _ & H1). apply exec_ret in H1 as [_ H1].
      destruct r as [a|[]]; [destruct (_ && _)|..]; try done. by injection H1 as ->.
    - destruct (rp_parts p) as [|? [|? [|? [|? [|]]]]]; try by apply exec_ret in H1 as [_ ?].
      apply exec_bind in H1 as (u1 & u2 & r & -> & _ & H1). apply exec_ret in H1 as [_ H1].
      destruct r as [a|[]]; try done. by injection H1 as ->. }
  rewrite Efd in Hs. exact (proj2 (resolve_verified_proves _ _ _ _ _ _ _ _ _ _ H1 Hs)).
Qed.

(** The path and identity a ticket expects at its destination or source. *)
Definition ticket_end (q : Queue) (t : TransitionTicket) (destination : bool) (path : ResolvePath)
    (expected : CommonFields) : Prop :=
  exists s d, transition_ticket_paths q t = Ok (s, d) /\
    ResolvePath_new (if destination then d else s) = Ok path /\
    (if destination then destination_common t = Ok expected else expected = source_common t).

(** The object found at one end, and whether it was made durable. *)
Definition finding (q : Queue) (t : TransitionTicket) (tr : list event) (destination durable : bool) : Prop :=
  exists path expected o, ticket_end q t destination path expected /\
    (forall content, Forall (serves (ro_file_fd o) content) tr -> proves_object q path t expected content) /\
    (durable = true -> exists t1 a b t2, tr = t1 ++ [(SysFsync (ro_file_fd o), a); (SysFsync (ro_directory_fd o), b)] ++ t2 /\
       failed a = false /\ failed b = false).

Lemma stabilize_synced q p o tr :
  exec (stabilize_object q p o) tr (Ok true) ->
  exists a b t2, tr = [(SysFsync (ro_file_fd o), a); (SysFsync (ro_directory_fd o), b)] ++ t2 /\
    failed a = false /\ failed b = false.
Proof.
  intros Hx. apply exec_try in Hx as [(e & _ & ?)|(t1 & t2 & u & -> & H1 & Hx)]; [done|].
  apply exec_map_err_ok in H1. apply fsync_ok in H1 as (a & -> & Ha).
  apply exec_try in Hx as [(e & _ & ?)|(t3 & t4 & v & -> & H2 & _)]; [done|].
  apply exec_map_err_ok in H2. apply fsync_ok in H2 as (b & -> & Hb). by exists a, b, t4.
Qed.

Lemma silent_stabilize q p o : silent alters (stabilize_object q p o).
Proof. unfold stabilize_object. silence. Qed.
#[local] Hint Resolve silent_stabilize : silent.


End Evidence.

(** ** Examples *)

(** A lease on the sample job, and the ticket of its acknowledgement. *)
Definition sample_lease_common : CommonFields := mkCommon (replicate 16 x2a) 4 1 5.
Definition sample_lease_target : Target :=
  match @Layout_leased checksum256 (layout sample_queue) sample_lease_common 5000000000 1700000005000000000
          (replicate 16 x0c) with
  | Ok t => t
  | Err _ => mkTarget (LocReady 0) []
  end.
Definition sample_lease : LeaseInfo :=
  mkLeaseInfo (replicate 16 x2a) (fh_envelope_digest sample_job_header) 4 1 5 (replicate 16 x0c)
    (boot_id sample_config) 5000000000 1700000005000000000 [] 3 (fh_payload_digest sample_job_header) 1 10
    (relative_path sample_lease_target).
Definition sample_ack_ticket : TransitionTicket :=
  mkTransitionTicket (queue_id sample_queue) TAcknowledge Linearized (replicate 16 x2a) 4 1 5 (replicate 16 x0c)
    (fh_envelope_digest sample_job_header) 3 (SrcLeased (boot_id sample_config) 5000000000 1700000005000000000)
    (DstReceipt 28333333).
Definition sample_ack_target : Target :=
  @Layout_receipt_in_bucket checksum256 (layout sample_queue) (mkCommon (replicate 16 x2a) 5 1 5) (replicate 16 x0c) 28333333.

Lemma ticket_paths_recognised_witness :
  relative_path sample_lease_target <> relative_path sample_ack_target /\
  @recognised checksum256 sample_texts sample_queue sample_ack_ticket sample_lease_common KindFullJob sample_lease_target.
Proof.
  destruct (@ticket_paths_recognised checksum256 checksum256_spec sample_texts sample_queue sample_ack_ticket
    sample_lease_target sample_ack_target) as (_ & Hne & Hs & _).
  - split; [exists 8%Z; vm_compute; split; [split; discriminate|reflexivity]|vm_compute; auto].
  - split_and!; vm_compute; split_and?; try reflexivity; discriminate.
  - split_and!; vm_compute; split_and?; try reflexivity; discriminate.
  - vm_compute. reflexivity.
  - exact (conj Hne Hs).
Defined.

(** The lease is still there and the receipt is not. *)
Definition sample_resolve_run :=
  run (sample_disk [mkSampleFile (filename sample_lease_target) 10 1 sample_job_file]) tt
    (@resolve checksum256 sample_texts sample_queue sample_ack_ticket true).
