(* ===== verification/Consumer.v ===== *)
(** * Settling leases

    Models [crates/steadq-core/src/queue/consumer.rs] (acknowledge, retry, bury,
    renew and the moves of leased objects) and the parts of
    [crates/steadq-core/src/queue/inspect.rs] it uses: verification of a leased
    payload, the quarantine of a corrupt lease, payload readers and the probe
    for an existing receipt. *)
From stdpp Require Import base numbers list option strings gmap.
From Stdlib Require Import Strings.Byte ZArith.
From S2P Require Import Prelude Math Names Format Cbor FsLinux FsRead StateMachine Ticket Layout Engine Logic Verified Queue Watermark Publish Resolve.
Open Scope string_scope.
Open Scope list_scope.

Definition is_expected_dev_zero (dev : Z) : bool := (dev =? 0)%Z.
Definition is_expected_inode_zero (ino : Z) : bool := (ino =? 0)%Z.
Definition shard_matches (path computed : Z) : bool := (path =? computed)%Z.

(** The first check that fails, with its message. *)
Fixpoint corrupt_if (checks : list (bool * string)) : result unit Error :=
  match checks with
  | [] => Ok tt
  | (true, message) :: _ => Err (QueueCorrupt message)
  | (false, _) :: checks' => corrupt_if checks'
  end.

Section Consumer.
Context `{Sha256} {T : Texts}.

(** ** The current lease *)

(** The checks on the path of a lease, before anything is opened: its boot,
    bucket, shard, directory and filename. *)
Definition check_lease_path (q : Queue) (lease : LeaseInfo) : result (bytes * Z * Z * bytes * bytes) Error :=
  if is_expected_dev_zero (li_expected_dev lease)
  then Err (QueueCorrupt "expected_dev is zero (forgeable handle)")
  else if is_expected_inode_zero (li_expected_inode lease)
  then Err (QueueCorrupt "expected_inode is zero (forgeable handle)")
  else
    let? (loc, src_name) := parse_leased_path (layout q) (li_exact_source_path lease) in
    match loc with
    | LocLeased lease_boot path_bucket path_shard =>
        if negb (bool_decide (lease_boot = boot_id (config q)))
        then Err (InvalidInput ("source boot_id '" +:+ bytes_text lease_boot +:+
               "' does not match queue boot_id '" +:+ bytes_text (boot_id (config q)) +:+ "'"))
        else if negb (bool_decide (lease_boot = li_boot_id lease))
        then Err (QueueCorrupt "source boot_id does not match lease handle")
        else
          let computed_shard := compute_shard (queue_id q) (li_job_id lease) (shard_count q) in
          if negb (shard_matches path_shard computed_shard)
          then Err (QueueCorrupt ("source shard " +:+ number_text path_shard +:+
                 " does not match queue-derived shard " +:+ number_text computed_shard))
          else
            let? (src_dir, _) := ok_or (rsplit_once (li_exact_source_path lease)) (QueueCorrupt "invalid leased path") in
            Ok (lease_boot, path_bucket, path_shard, src_dir, src_name)
    | _ => Err (QueueCorrupt "parse_leased_path always returns Leased")
    end.

(** The checks of the filename against the handle and the path. *)
Definition check_lease_name (q : Queue) (lease : LeaseInfo) (lease_boot : bytes) (path_bucket path_shard : Z)
    (src_name : bytes) : result unit Error :=
  let? parsed := map_err (fun _ => QueueCorrupt "source filename is not a valid leased name") (parse_leased src_name) in
  let common := ln_common parsed in
  let? _ := corrupt_if
    [(negb (bool_decide (cf_job_id common = li_job_id lease)), "source job_id mismatch");
     (negb (cf_generation common =? li_generation lease)%Z, "source generation mismatch");
     (negb (cf_attempt common =? li_attempt lease)%Z, "source attempt mismatch");
     (negb (cf_maximum_attempts common =? li_maximum_attempts lease)%Z, "source max_attempts mismatch");
     (negb (bool_decide (ln_token parsed = li_token lease)), "source token mismatch");
     (negb (ln_boottime_deadline_ns parsed =? li_expires_boottime_ns lease)%Z, "source boottime deadline mismatch");
     (negb (ln_wall_deadline_ns parsed =? li_expires_wall_ns lease)%Z, "source wall deadline mismatch")] in
  let? expected_bucket := ok_or (lease_bucket (ln_boottime_deadline_ns parsed)
    (fr_lease_bucket_width_ns (format (config q)))) StateExhausted in
  corrupt_if
    [(negb (path_bucket =? expected_bucket)%Z, "source lease bucket mismatch");
     (negb (LeasedName_authenticate_tag parsed (queue_id q) lease_boot (bucket_hex path_bucket) (shard_hex path_shard)),
      "source name tag mismatch")].

(** The checks of the opened object: its header and extension against the
    handle, and its exact size. *)
Definition check_lease_header (lease : LeaseInfo) (header : FixedHeader) : result unit Error :=
  corrupt_if
    [(negb (bool_decide (fh_job_id header = li_job_id lease)), "header job_id does not match handle");
     (negb (fh_maximum_attempts header =? li_maximum_attempts lease)%Z,
      "header maximum_attempts " +:+ number_text (fh_maximum_attempts header) +:+ " does not match handle "
        +:+ number_text (li_maximum_attempts lease));
     (negb (bool_decide (fh_envelope_digest header = li_envelope_digest lease)),
      "envelope digest does not match handle");
     (negb (fh_payload_length header =? li_payload_length lease)%Z, "payload length does not match handle");
     (negb (bool_decide (fh_payload_digest header = li_payload_digest lease)),
      "payload digest does not match handle")].

Definition check_lease_object (lease : LeaseInfo) (file_fd : Z) (opened : Stat) : io (result unit Error) :=
  let!? header_buf := io_map_err Error_of_io (pread_exact file_fd FIXED_HEADER_SIZE 0) in
  let!? header := lift (map_err (fun e => QueueCorrupt ("header decode: " +:+ header_text e))
    (FixedHeader_decode header_buf)) in
  let!? _ := lift (check_lease_header lease header) in
  let ext_len := fh_extension_header_length header in
  if is_extension_too_large ext_len then Ret (Err (QueueCorrupt "extension header too large"))
  else
    let!? ext_buf := (if is_extension_present ext_len
      then io_map_err Error_of_io (pread_exact file_fd (Z.to_nat ext_len) 128)
      else Ret (Ok (zeros (Z.to_nat ext_len)))) in
    if negb (verify_envelope_digest header ext_buf) then Ret (Err (QueueCorrupt "envelope digest mismatch"))
    else if (st_size opened <? 0)%Z then Ret (Err (QueueCorrupt "negative file size"))
    else
      let!? expected_size := lift (ok_or
        (s ← u64_checked_add 128 ext_len; u64_checked_add s (fh_payload_length header))
        (QueueCorrupt "size overflow")) in
      lift (corrupt_if [(negb (st_size opened =? expected_size)%Z,
        "source file size mismatch: expected " +:+ number_text expected_size +:+ ", got "
          +:+ number_text (st_size opened))]).

Definition open_and_validate_current_lease (q : Queue) (lease : LeaseInfo)
  : io (result (option LeasedSourceWitness) Error) :=
  let!? (lease_boot, path_bucket, path_shard, src_dir, src_name) := lift (check_lease_path q lease) in
  let! dir := open_relative (root_fd (config q)) src_dir in
  match dir with
  | Err error =>
      Ret (match classify_lease_directory_open_failure error with
           | LeaseDirGone => Ok None
           | LeaseDirInvalid => Err (QueueCorrupt "intermediate lease path component is not a directory")
           | LeaseDirIo => Err (Error_of_io error)
           end)
  | Ok src_dir_fd =>
      let! src := fstatat src_dir_fd src_name in
      match src with
      | Err error =>
          Ret (match classify_presence_failure error with
               | PresenceAbsent => Ok None
               | PresenceIo => Err (Error_of_io error)
               end)
      | Ok src_stat =>
          if negb (is_singly_linked_regular src_stat)
          then Ret (Err (QueueCorrupt "source is not a singly-linked regular file"))
          else
            let!? _ := lift (check_lease_name q lease lease_boot path_bucket path_shard src_name) in
            let!? file_fd := io_map_err Error_of_io (openat src_dir_fd src_name resolver_file_open_flags 0) in
            let!? opened := io_map_err Error_of_io (fstat file_fd) in
            if negb (stat_matches_witness opened (li_expected_dev lease) (li_expected_inode lease))
            then Ret (Err (QueueCorrupt "opened source identity does not match lease handle"))
            else if negb (stat_matches_witness src_stat (st_dev opened) (st_ino opened))
            then Ret (Err (QueueCorrupt "source path changed while opening lease"))
            else
              let!? _ := check_lease_object lease file_fd opened in
              Ret (Ok (Some (mkLeasedSourceWitness src_dir_fd src_name file_fd (st_dev opened) (st_ino opened))))
      end
  end.

(** ** Payloads *)

Definition verify_payload_on_fd (fd : Z) : io (result unit Error) :=
  let!? _ := io_map_err Error_from_verification (verify_job_on_fd fd) in Ret (Ok tt).
(** The method of the same name in [inspect.rs]. *)
Definition Queue_verify_envelope_on_fd (fd : Z) : io (result VerifiedJob Error) :=
  io_map_err Error_from_verification (verify_envelope_on_fd fd).

Definition verify_lease_payload (q : Queue) (lease : LeaseInfo) : io (result unit Error) :=
  let!? source := open_and_validate_current_lease q lease in
  match source with
  | Some source => verify_payload_on_fd (lw_file_fd source)
  | None => Ret (Err (QueueCorrupt "lease source not found"))
  end.

Definition before_rename {A : Type} (e : IoError) : result A MoveFailure := Err (MoveNotCommitted PreRename e).

Definition quarantine_corrupt_lease (leased_dir_fd : Z) (leased_name : bytes) (held_fd : Z)
  : op (result unit MoveFailure) :=
  let*? held_stat := call (fstat held_fd) else before_rename in
  let*? name_stat := call (fstatat leased_dir_fd leased_name) else before_rename in
  if negb (st_dev held_stat =? st_dev name_stat)%Z || negb (st_ino held_stat =? st_ino name_stat)%Z
  then op_ret (Err MoveSourceMissing)
  else
    let source_identity := mkMoveIdentity (st_dev held_stat) (st_ino held_stat) in
    let*? qid := call random_128bit else before_rename in
    let q_name := quarantine_filename qid (QuarantineReason_as_u16 QPayloadCorrupt) in
    let*? _ := ensure_dir (lit "quarantine") else before_rename in
    let* root := gets (fun q => root_fd (config q)) in
    let*? q_dir_fd := call (open_relative root (lit "quarantine")) else before_rename in
    call (move_witnessed_noreplace leased_dir_fd leased_name q_dir_fd q_name source_identity).

Definition payload_reader (file_fd : Z) (header : FixedHeader) : VerifiedPayloadReader :=
  mkVerifiedPayloadReader file_fd (128 + fh_extension_header_length header) (fh_payload_length header).

Definition open_verified_payload_reader (lease : LeaseInfo)
  : op (result (option VerifiedPayloadReader) Error) :=
  let* q := gets id in
  let*? source := call (open_and_validate_current_lease q lease) else Err in
  match source with
  | None => op_ret (Ok None)
  | Some source =>
      let* verified := call (io_map_err Error_from_verification (verify_job_on_fd (lw_file_fd source))) in
      match verified with
      | Ok verified => op_ret (Ok (Some (payload_reader (lw_file_fd source) (vj_header verified))))
      | Err PayloadCorrupt =>
          let* moved := quarantine_corrupt_lease (lw_directory_fd source) (lw_name source) (lw_file_fd source) in
          op_ret (Err (match moved with
                       | Err (MoveOutcomeUnknown phase detail) =>
                           QueueCorrupt ("payload is corrupt and quarantine is indeterminate at "
                             +:+ move_phase_text phase +:+ ": " +:+ io_text detail)
                       | _ => PayloadCorrupt
                       end))
      | Err e => op_ret (Err e)
      end
  end.

(** ** Receipts of a lease *)

Definition receipt_context (q : Queue) (bucket shard filename : bytes) : ReceiptContext :=
  let f := format (config q) in
  mkReceiptContext (fr_queue_id f) (fr_shard_count f) (fr_terminal_bucket_width_ns f) (fr_max_payload_length f)
    bucket shard filename.

Definition expected_receipt (lease : LeaseInfo) (common : CommonFields) : ExpectedReceipt :=
  mkExpectedReceipt common (li_token lease) (li_envelope_digest lease) (li_payload_length lease).

Definition receipt_is_authentic (q : Queue) (lease : LeaseInfo) (dir name : bytes) : io bool :=
  match next_identity OpAcknowledge (lease_common lease) with
  | Err _ => Ret false
  | Ok common =>
      let! dir_fd := open_relative (root_fd (config q)) dir in
      match dir_fd, split_slash dir with
      | Ok dir_fd, [_; bucket; shard] =>
          let! file_fd := openat dir_fd name receipt_read_open_flags 0 in
          match file_fd with
          | Err _ => Ret false
          | Ok file_fd =>
              let! r := verify_receipt_on_fd file_fd (receipt_context q bucket shard name)
                (Some (expected_receipt lease common)) in
              Ret (is_ok r)
          end
      | _, _ => Ret false
      end
  end.

Definition absent (e : IoError) : bool := bool_decide (kind e = KNotFound).

(** The body of the loop over buckets: the answer it settles, if any. *)
Definition probe_receipt (q : Queue) (lease : LeaseInfo) (common : CommonFields) (bucket_num : Z)
  : io (option (result bool Error)) :=
  let bucket_str := bucket_hex bucket_num in
  let shard_str := shard_hex (compute_shard (queue_id q) (li_job_id lease) (shard_count q)) in
  let receipt_name := make_receipt_name (queue_id q) bucket_str shard_str common (li_token lease) in
  let failed error := if absent error then None else Some (Err (Error_of_io error)) in
  let! dir_fd := open_relative (root_fd (config q)) (lit "receipts/" ++ bucket_str ++ lit "/" ++ shard_str) in
  match dir_fd with
  | Err error => Ret (failed error)
  | Ok dir_fd =>
      let! file_fd := openat dir_fd receipt_name receipt_read_open_flags 0 in
      match file_fd with
      | Err error => Ret (failed error)
      | Ok file_fd =>
          let! r := verify_receipt_on_fd file_fd (receipt_context q bucket_str shard_str receipt_name)
            (Some (expected_receipt lease common)) in
          Ret (match r with
               | Ok _ => Some (Ok true)
               | Err (VerifyIo message) => Some (Err (IoFailure message))
               | Err _ => None
               end)
      end
  end.
Fixpoint probe_receipts (q : Queue) (lease : LeaseInfo) (common : CommonFields) (buckets : list Z)
  : io (result bool Error) :=
  match buckets with
  | [] => Ret (Ok false)
  | bucket_num :: buckets' =>
      let! r := probe_receipt q lease common bucket_num in
      match r with Some r => Ret r | None => probe_receipts q lease common buckets' end
  end.

(** [first..=last] *)
Definition inclusive_range (first last : Z) : list Z :=
  map (fun i => (first + Z.of_nat i)%Z) (seq 0 (Z.to_nat (last + 1 - first))).

(** The buckets a duplicate acknowledgement is looked for in. *)
Definition retained_buckets (q : Queue) (wall_floor : WallFloor) : option (list Z) :=
  let width := fr_terminal_bucket_width_ns (format (config q)) in
  now_bucket ← bucket_number (unix_ns wall_floor) width;
  retention_buckets ← ceiling_bucket (receipt_retention_ns (options (config q))) width;
  Some (inclusive_range (Z.max 0 (now_bucket - wrap64 (retention_buckets + 2))) now_bucket).

Definition check_duplicate_ack_bounded (q : Queue) (lease : LeaseInfo) (wall_floor : WallFloor)
  : io (result bool Error) :=
  match retained_buckets q wall_floor, next_identity OpAcknowledge (lease_common lease) with
  | Some buckets, Ok receipt_common => probe_receipts q lease receipt_common buckets
  | _, _ => Ret (Ok false)
  end.

Definition duplicate_ack_outcome (lease : LeaseInfo) (wall_floor : WallFloor) : op AckOutcome :=
  let* q := gets id in
  let* r := call (check_duplicate_ack_bounded q lease wall_floor) in
  op_ret (match r with
          | Ok true => AlreadyAcked
          | Ok false => AckLeaseLost
          | Err error => AckNotCommitted error
          end).

(** ** Moves of a leased object *)

Definition observe_leased_source_path (source : LeasedSourceWitness) : io (result WitnessPathObservation Error) :=
  observe_witness_path (lw_directory_fd source) (lw_name source) (lw_device source) (lw_inode source).

Definition leased_move_outcome (r : result unit MoveFailure) : LeasedMoveOutcome :=
  match r with
  | Ok _ => MoveCommitted
  | Err MoveSourceMissing => SourceGone
  | Err MoveAlreadyExists => Collision
  | Err (MoveNotCommitted _ source) => MoveFailed (Error_of_io source)
  | Err (MoveOutcomeUnknown phase _) => MoveUnknown (ticket_phase_for_move_outcome_unknown phase)
  end.

Definition execute_leased_move_with_dirty (source : LeasedSourceWitness) (destination_directory_fd : Z)
    (destination_name : bytes) : op LeasedMoveOutcome :=
  let* observed := call (observe_leased_source_path source) in
  match observed with
  | Err error => op_ret (MoveFailed error)
  | Ok ObsGone => op_ret SourceGone
  | Ok ObsMismatch => op_ret SourceChanged
  | Ok ObsMatch =>
      let identity := mkMoveIdentity (lw_device source) (lw_inode source) in
      let* r := by_dirty
        (call (let!? _ := move_witnessed_noreplace_deferred (lw_directory_fd source) (lw_name source)
                 destination_directory_fd destination_name identity (fun _ => Ret (Ok tt)) in Ret (Ok tt)))
        (call (move_witnessed_noreplace (lw_directory_fd source) (lw_name source)
                 destination_directory_fd destination_name identity)) in
      match leased_move_outcome r with
      | MoveCommitted =>
          let*? _ := record_arg (lw_directory_fd source) else (fun _ => MoveUnknown DestinationDirectoryDurable) in
          let*? _ := record_arg destination_directory_fd else (fun _ => MoveUnknown DestinationDirectoryDurable) in
          op_ret MoveCommitted
      | outcome => op_ret outcome
      end
  end.

Definition transition_ticket_for_lease (q : Queue) (lease : LeaseInfo) (operation : TransitionOperation)
    (destination : TicketDestination) : result TransitionTicket Error :=
  TransitionTicket_new (queue_id q) operation Linearized
    (mkTicketIdentity (li_job_id lease) (li_generation lease) (li_attempt lease) (li_maximum_attempts lease)
       (li_token lease) (mkTicketEvidence (li_envelope_digest lease) (li_payload_length lease)))
    (SrcLeased (li_boot_id lease) (li_expires_boottime_ns lease) (li_expires_wall_ns lease))
    destination.

(** Reporting a failed validation: corruption poisons the handle. *)
Definition refuse_invalid {A : Type} (f : Error -> A) (e : Error) : op A :=
  match e with
  | QueueCorrupt _ =>
      let* _ := poison InternalInvariantViolation in
      op_ret (f e)
  | _ => op_ret (f e)
  end.

Definition move_leased_with_dirty (lease : LeaseInfo) (dest_dir dest_name : bytes) (ticket : TransitionTicket)
  : op TransitionOutcome :=
  let*? _ := ensure_dir_with_dirty dest_dir else (fun e => TransitionNotCommitted (Error_of_io e)) in
  let* q := gets id in
  let*? dest_dir_fd := call (open_relative (root_fd (config q)) dest_dir)
    else (fun e => TransitionNotCommitted (Error_of_io e)) in
  let* source := call (open_and_validate_current_lease q lease) in
  match source with
  | Err e => refuse_invalid TransitionNotCommitted e
  | Ok None => op_ret TransitionLeaseLost
  | Ok (Some source) =>
      let* moved := execute_leased_move_with_dirty source dest_dir_fd dest_name in
      match moved with
      | MoveCommitted => op_ret TransitionCommitted
      | MoveUnknown phase =>
          let* _ := poison PostLinearizationStateUnknown in
          op_ret (TransitionOutcomeUnknown (with_phase ticket phase))
      | SourceGone => op_ret TransitionLeaseLost
      | SourceChanged =>
          let* _ := poison InternalInvariantViolation in
          op_ret (TransitionNotCommitted (QueueCorrupt "leased source identity changed before transition"))
      | Collision => op_ret (TransitionNotCommitted (QueueCorrupt "destination exists"))
      | MoveFailed error => op_ret (TransitionNotCommitted error)
      end
  end.
(** [move_leased]: strict. *)
Definition move_leased (lease : LeaseInfo) (dest_dir dest_name : bytes) (ticket : TransitionTicket)
  : op TransitionOutcome :=
  fun cx =>
    let! x := move_leased_with_dirty lease dest_dir dest_name ticket (mkCtx (handle cx) None) in
    Ret (x.1, mkCtx (handle x.2) (dirty_arg cx)).

(** ** Acknowledge *)

Definition terminal_width (q : Queue) : Z := fr_terminal_bucket_width_ns (format (config q)).

(** The outcome of the move that acknowledges. *)
Definition settle_ack (lease : LeaseInfo) (wall_floor : WallFloor) (receipt_dir receipt_name : bytes)
    (ticket : TransitionTicket) (moved : LeasedMoveOutcome) : op AckOutcome :=
  match moved with
  | MoveCommitted => op_ret Acked
  | MoveUnknown phase =>
      let* _ := poison PostLinearizationStateUnknown in
      op_ret (AckOutcomeUnknown (with_phase ticket phase))
  | Collision =>
      let* q := gets id in
      let* authentic := call (receipt_is_authentic q lease receipt_dir receipt_name) in
      let* _ := poison InternalInvariantViolation in
      op_ret (AckNotCommitted (QueueCorrupt
        (if (authentic : bool) then "source lease and receipt both exist" else "conflicting object at receipt path")))
  | SourceGone => duplicate_ack_outcome lease wall_floor
  | SourceChanged =>
      let* _ := poison InternalInvariantViolation in
      op_ret (AckNotCommitted (QueueCorrupt "leased source identity changed before acknowledgment"))
  | MoveFailed error => op_ret (AckNotCommitted error)
  end.

(** From the opened receipt directory on: validate, verify the payload, move. *)
Definition ack_source (lease : LeaseInfo) (wall_floor : WallFloor) (receipt_dir receipt_name : bytes)
    (receipt_dir_fd : Z) (ticket : TransitionTicket) : op AckOutcome :=
  let* q := gets id in
  let* source := call (open_and_validate_current_lease q lease) in
  match source with
  | Err e => refuse_invalid AckNotCommitted e
  | Ok None => duplicate_ack_outcome lease wall_floor
  | Ok (Some source) =>
      let* verified := call (verify_payload_on_fd (lw_file_fd source)) in
      match verified with
      | Err e =>
          let* _ :=
            (match e with
             | PayloadCorrupt | QueueCorrupt _ => poison InternalInvariantViolation
             | _ => op_ret tt
             end) in
          op_ret (AckNotCommitted e)
      | Ok _ =>
          let* moved := execute_leased_move_with_dirty source receipt_dir_fd receipt_name in
          settle_ack lease wall_floor receipt_dir receipt_name ticket moved
      end
  end.

Definition ack_inner_with_dirty (lease : LeaseInfo) : op AckOutcome :=
  let*? _ := check_not_poisoned else AckNotCommitted in
  let*? wall_floor := wall_floor_for_mutation else AckNotCommitted in
  let*? receipt_common := op_ret (next_identity OpAcknowledge (lease_common lease)) else AckNotCommitted in
  let* q := gets id in
  let*? terminal_bucket := op_ret (ok_or (bucket_number (unix_ns wall_floor) (terminal_width q)) StateExhausted)
    else AckNotCommitted in
  let target := Layout_receipt_in_bucket (layout q) receipt_common (li_token lease) terminal_bucket in
  let receipt_dir := directory target in
  let*? ticket := op_ret (transition_ticket_for_lease q lease TAcknowledge (DstReceipt terminal_bucket))
    else AckNotCommitted in
  let*? _ := ensure_dir_with_dirty receipt_dir else (fun e => AckNotCommitted (Error_of_io e)) in
  let*? receipt_dir_fd := call (open_relative (root_fd (config q)) receipt_dir)
    else (fun e => AckNotCommitted (Error_of_io e)) in
  ack_source lease wall_floor receipt_dir (filename target) receipt_dir_fd ticket.

Definition ack (lease : LeaseInfo) : Queue -> io (AckOutcome * Queue) := strictly (ack_inner_with_dirty lease).

(** ** Bury and retry *)

Definition bury_with_wall_floor (lease : LeaseInfo) (reason : DeadReason) (wall_floor : WallFloor)
  : op TransitionOutcome :=
  let*? common := op_ret (next_identity OpBury (lease_common lease)) else TransitionNotCommitted in
  let* q := gets id in
  let*? terminal_bucket := op_ret (ok_or (bucket_number (unix_ns wall_floor) (terminal_width q)) StateExhausted)
    else TransitionNotCommitted in
  let target := Layout_dead_in_bucket (layout q) common (DeadReason_as_u16 reason) terminal_bucket in
  let*? ticket := op_ret (transition_ticket_for_lease q lease TBury
      (DstDead terminal_bucket (DeadReason_as_u16 reason))) else TransitionNotCommitted in
  move_leased lease (directory target) (filename target) ticket.

Definition bury_internal (lease : LeaseInfo) (reason : DeadReason) : op TransitionOutcome :=
  let*? wall_floor := wall_floor_for_mutation else TransitionNotCommitted in
  bury_with_wall_floor lease reason wall_floor.

Definition bury (lease : LeaseInfo) (reason : DeadReason) : Queue -> io (TransitionOutcome * Queue) :=
  strictly (
    let*? _ := check_not_poisoned else TransitionNotCommitted in
    bury_internal lease reason).

(** A deadline at or before the floor is an immediate retry. *)
Definition retry_deadline (timing : RetryTiming) : option Z * option WallFloor :=
  match timing with
  | Immediate => (None, None)
  | Delayed not_before_ns wall_floor =>
      if (not_before_ns <=? unix_ns wall_floor)%Z then (None, Some wall_floor)
      else (Some not_before_ns, Some wall_floor)
  end.

(** The destination of a retry: its target, operation and ticket destination. *)
Definition retry_destination (q : Queue) (lease : LeaseInfo) (delayed_ns : option Z)
  : result (Target * TransitionOperation * TicketDestination) Error :=
  match delayed_ns with
  | Some nb =>
      let? common := next_identity OpRetryLater (lease_common lease) in
      let? target := Layout_delayed (layout q) common nb in
      Ok (target, TRetryLater, DstDelayed nb)
  | None =>
      let? common := next_identity OpRetryNow (lease_common lease) in
      Ok (Layout_ready (layout q) common, TRetryNow, DstReady)
  end.

Definition retry (lease : LeaseInfo) (timing : RetryTiming) : op TransitionOutcome :=
  let*? _ := check_not_poisoned else TransitionNotCommitted in
  let (delayed_ns, wall_floor) := retry_deadline timing in
  if (li_maximum_attempts lease <=? li_attempt lease)%Z then
    let*? wall_floor := (match wall_floor with
                         | Some floor => op_ret (Ok floor)
                         | None => wall_floor_for_mutation
                         end) else TransitionNotCommitted in
    bury_with_wall_floor lease DeadAttemptsExhausted wall_floor
  else
    let* q := gets id in
    let*? (target, operation, destination) := op_ret (retry_destination q lease delayed_ns)
      else TransitionNotCommitted in
    let*? ticket := op_ret (transition_ticket_for_lease q lease operation destination)
      else TransitionNotCommitted in
    move_leased lease (directory target) (filename target) ticket.

Definition retry_now_op (lease : LeaseInfo) : op TransitionOutcome := retry lease Immediate.
Definition retry_now (lease : LeaseInfo) : Queue -> io (TransitionOutcome * Queue) := strictly (retry_now_op lease).

Definition retry_at (lease : LeaseInfo) (not_before_ns : Z) : Queue -> io (TransitionOutcome * Queue) :=
  strictly (
    let*? wall_floor := wall_floor_for_mutation else TransitionNotCommitted in
    retry lease (Delayed not_before_ns wall_floor)).

(** Retry after a duration, from the wall floor. *)
Definition retry_after_op (lease : LeaseInfo) (duration_ns : Z) : op TransitionOutcome :=
  let*? wall_floor := wall_floor_for_mutation else TransitionNotCommitted in
  let*? deadline := op_ret (ok_or (retry_wall_deadline (unix_ns wall_floor) duration_ns)
    (InvalidInput "deadline overflow")) else TransitionNotCommitted in
  retry lease (Delayed deadline wall_floor).
Definition retry_after (lease : LeaseInfo) (duration_ns : Z) : Queue -> io (TransitionOutcome * Queue) :=
  strictly (retry_after_op lease duration_ns).

Definition retry_with_policy (lease : LeaseInfo) (policy : RetryPolicy) : Queue -> io (TransitionOutcome * Queue) :=
  strictly (
    let invalid e := TransitionNotCommitted (InvalidInput (retry_text e)) in
    let*? _ := op_ret (RetryPolicy_validate policy) else invalid in
    let* q := gets id in
    let*? delay_ms := op_ret (retry_delay_ms (queue_id q) (li_job_id lease) (li_attempt lease) policy)
      else invalid in
    if (delay_ms =? 0)%Z then retry_now_op lease
    else
      let*? delay_ns := op_ret (ok_or (checked_mul_u64 delay_ms 1000000) (InvalidInput "delay overflow"))
        else TransitionNotCommitted in
      retry_after_op lease delay_ns).

(** ** Renew *)

Definition renewed_lease (lease : LeaseInfo) (common : CommonFields) (boottime_dl wall_dl : Z) (target : Target)
  : LeaseInfo :=
  mkLeaseInfo (li_job_id lease) (li_envelope_digest lease) (cf_generation common) (li_attempt lease)
    (li_maximum_attempts lease) (li_token lease) (li_boot_id lease) boottime_dl wall_dl (li_content_type lease)
    (li_payload_length lease) (li_payload_digest lease) (li_expected_dev lease) (li_expected_inode lease)
    (directory target ++ lit "/" ++ filename target).

Definition renew_with_dirty (lease : LeaseInfo) (lease_duration_ns : Z) : op RenewOutcome :=
  let*? _ := check_not_poisoned else RenewNotCommitted in
  if negb (lease_duration_is_valid lease_duration_ns)
  then op_ret (RenewNotCommitted (InvalidInput "lease duration must be 1s to 7d"))
  else
    let*? boottime_now := call clock_boottime_ns else (fun e => RenewNotCommitted (Error_of_io e)) in
    let*? wall_floor := wall_floor_for_mutation else RenewNotCommitted in
    let*? new_boottime_dl := op_ret (ok_or (u64_checked_add boottime_now lease_duration_ns)
      (InvalidInput "deadline overflow")) else RenewNotCommitted in
    let*? new_wall_dl := op_ret (ok_or (u64_checked_add (unix_ns wall_floor) lease_duration_ns)
      (InvalidInput "deadline overflow")) else RenewNotCommitted in
    let*? common := op_ret (next_identity OpRenew (lease_common lease)) else RenewNotCommitted in
    let* q := gets id in
    let*? target := op_ret (Layout_leased (layout q) common new_boottime_dl new_wall_dl (li_token lease))
      else RenewNotCommitted in
    let*? ticket := op_ret (transition_ticket_for_lease q lease TRenew
        (DstLeased (boot_id (config q)) new_boottime_dl new_wall_dl)) else RenewNotCommitted in
    let* moved := move_leased_with_dirty lease (directory target) (filename target) ticket in
    op_ret (match moved with
            | TransitionCommitted => RenewRenewed (renewed_lease lease common new_boottime_dl new_wall_dl target)
            | TransitionLeaseLost => RenewLeaseLost
            | TransitionNotCommitted e => RenewNotCommitted e
            | TransitionOutcomeUnknown t => RenewOutcomeUnknown t
            end).

Definition renew (lease : LeaseInfo) (lease_duration_ns : Z) (q : Queue) : io (RenewOutcome * Queue) :=
  if deferred_dir_sync (config q) then
    let! x := deferring (renew_with_dirty lease lease_duration_ns) q in
    Ret (match x.1 with RenewRenewed info => RenewDeferred info | outcome => outcome end, x.2)
  else strictly (renew_with_dirty lease lease_duration_ns) q.

End Consumer.

(** ** How many objects a settlement moves *)

Definition leased_places (o : LeasedMoveOutcome) : nat :=
  match o with MoveCommitted | MoveUnknown _ => 1 | _ => 0 end.
Definition transition_places (o : TransitionOutcome) : nat :=
  match o with TransitionCommitted | TransitionOutcomeUnknown _ => 1 | _ => 0 end.
Definition ack_places (o : AckOutcome) : nat :=
  match o with Acked | AckOutcomeUnknown _ => 1 | _ => 0 end.
Definition renew_places (o : RenewOutcome) : nat :=
  match o with RenewRenewed _ | RenewDeferred _ | RenewOutcomeUnknown _ => 1 | _ => 0 end.

Definition transition_ticket_of (o : TransitionOutcome) : option TransitionTicket :=
  match o with TransitionOutcomeUnknown t => Some t | _ => None end.
Definition ack_ticket_of (o : AckOutcome) : option TransitionTicket :=
  match o with AckOutcomeUnknown t => Some t | _ => None end.
Definition renew_ticket_of (o : RenewOutcome) : option TransitionTicket :=
  match o with RenewOutcomeUnknown t => Some t | _ => None end.

(** Placements other than a rename from [src] to [dst]. *)
Definition moves_other (src dst : bytes) (c : Syscall) : bool :=
  match c with
  | SysRenameat2 _ n _ m _ => negb (bool_decide (n = src) && bool_decide (m = dst))
  | SysLinkat _ _ _ _ _ => true
  | _ => false
  end.
#[export] Instance moves_other_placing src dst : Placing (moves_other src dst).
Proof. by intros []. Qed.

Section Moves.
Context `{Sha256} {T : Texts}.

Lemma silent_check_lease {sel : Syscall -> bool} `{!Acting sel} q l : silent sel (open_and_validate_current_lease q l).
Proof. unfold open_and_validate_current_lease, check_lease_object. silence. Qed.
Lemma silent_verify_payload_on_fd {sel : Syscall -> bool} `{!Acting sel} fd : silent sel (verify_payload_on_fd fd).
Proof. unfold verify_payload_on_fd. silence. Qed.
Lemma silent_receipt_is_authentic {sel : Syscall -> bool} `{!Acting sel} q l d n : silent sel (receipt_is_authentic q l d n).
Proof. unfold receipt_is_authentic. silence. Qed.
Lemma silent_probe_receipts {sel : Syscall -> bool} `{!Acting sel} q l c b : silent sel (probe_receipts q l c b).
Proof.
  induction b as [|b bs IH]; cbn [probe_receipts]; [silence|]. apply silent_bind.
  - unfold probe_receipt. silence.
  - intros [r|]; [silence|exact IH].
Qed.
Lemma silent_duplicate {sel : Syscall -> bool} `{!Acting sel} q l w : silent sel (check_duplicate_ack_bounded q l w).
Proof. unfold check_duplicate_ack_bounded. repeat case_match; first [apply silent_probe_receipts|silence]. Qed.

(** What a validated lease is: the name is the one in the handle's path, the
    open object has the handle's identity, and its content was checked last. *)
Lemma validated_lease q lease tr w :
  exec (open_and_validate_current_lease q lease) tr (Ok (Some w)) ->
  lw_name w = last_component (li_exact_source_path lease) /\
  exists t1 t2 opened, tr = t1 ++ t2 /\ exec (check_lease_object lease (lw_file_fd w) opened) t2 (Ok tt) /\
    stat_matches_witness opened (li_expected_dev lease) (li_expected_inode lease) = true /\
    lw_device w = st_dev opened /\ lw_inode w = st_ino opened.
Proof.
  intros Hx. apply exec_try in Hx as [(e & _ & ?)|(t1 & t2 & x & -> & Hp & Hx)]; [done|].
  destruct x as [[[[boot b] sh] dir] name]. apply exec_ret in Hp as [_ Hp]. symmetry in Hp.
  assert (name = last_component (li_exact_source_path lease)) as ->.
  { unfold check_lease_path in Hp. do 2 (case_match; [done|]).
    destruct (parse_leased_path _ _) as [[loc fn]|] eqn:Ep; [|done]. cbn [rbind] in Hp.
    destruct loc as [|lb pb ps| | |]; try done. do 3 (case_match; [done|]).
    destruct (rsplit_once _) as [[]|]; [|done]. cbn [ok_or rbind] in Hp. injection Hp as _ _ _ _ <-.
    apply parse_leased_path_iff in Ep as (? & ? & ? & _ & _ & _ & [[Es _]|[Es _]]);
      unfold last_component; by rewrite Es. }
  apply exec_bind in Hx as (t3 & t4 & dir_r & -> & _ & Hx). destruct dir_r as [dfd|e];
    [|apply exec_ret in Hx as [_ Hx]; by destruct (classify_lease_directory_open_failure e)].
  apply exec_bind in Hx as (t5 & t6 & st & -> & _ & Hx). destruct st as [st|e];
    [|apply exec_ret in Hx as [_ Hx]; by destruct (classify_presence_failure e)].
  destruct (is_singly_linked_regular st); cbn [negb] in Hx; [|by apply exec_ret in Hx as [_ ?]].
  apply exec_try in Hx as [(e & _ & ?)|(t7 & t8 & u & -> & _ & Hx)]; [done|].
  apply exec_try in Hx as [(e & _ & ?)|(t9 & t10 & fd & -> & _ & Hx)]; [done|].
  apply exec_try in Hx as [(e & _ & ?)|(t11 & t12 & op & -> & _ & Hx)]; [done|].
  destruct (stat_matches_witness op _ _) eqn:Hw; cbn [negb] in Hx; [|by apply exec_ret in Hx as [_ ?]].
  destruct (stat_matches_witness st _ _); cbn [negb] in Hx; [|by apply exec_ret in Hx as [_ ?]].
  apply exec_try in Hx as [(e & _ & ?)|(t13 & t14 & [] & -> & Hc & Hx)]; [done|].
  apply exec_ret in Hx as [-> Hx]. injection Hx as ->. split; [done|].
  exists (t1 ++ t3 ++ t5 ++ t7 ++ t9 ++ t11), t13, op. split; [by rewrite app_nil_r, !app_assoc|done].
Qed.
Lemma lease_source_name q lease tr w :
  exec (open_and_validate_current_lease q lease) tr (Ok (Some w)) ->
  lw_name w = last_component (li_exact_source_path lease).
Proof. intros Hx. by apply validated_lease in Hx as [? _]. Qed.

End Moves.
#[export] Hint Resolve silent_check_lease silent_verify_payload_on_fd silent_receipt_is_authentic silent_duplicate : silent.

Section MoveCounts.
Context `{Sha256} {T : Texts} {sel : Syscall -> bool} `{!Placing sel} {selected : bool}.

(** The selector treats every rename between two names alike. *)
Definition picks_move (src dst : bytes) : Prop :=
  forall sd dd, sel (SysRenameat2 sd src dd dst RENAME_NOREPLACE) = selected.

Lemma move_io_places {A} sd sn dd dn opts (after : option MovedObject -> io (result A IoError)) :
  picks_move sn dn -> (forall m, silent sel (after m)) ->
  counts sel (move_noreplace sd sn dd dn opts after) (fun n r => n = if selected then move_commits r else 0%nat).
Proof. intros Hp Ha. eapply counts_mono; [by apply move_places|]. intros n r ->. by rewrite Hp. Qed.

(** A witnessed move whose result is dropped, with a hook that places nothing. *)
Lemma move_unit_places {A} (p : io (result A MoveFailure)) :
  counts sel p (fun n r => n = if selected then move_commits r else 0%nat) ->
  counts sel (io_try p (fun _ => Ret (Ok tt))) (fun n r => n = if selected then move_commits r else 0%nat).
Proof.
  intros Hp. apply counts_try. eapply counts_mono; [exact Hp|]. intros n [a|f] ->; [|done].
  apply counts_ret. by rewrite Nat.add_0_r.
Qed.

Lemma leased_outcome_places r : leased_places (leased_move_outcome r) = move_commits r.
Proof. destruct r as [[]|[]]; done. Qed.

Lemma execute_places source dd dn cx :
  picks_move (lw_name source) dn ->
  runs sel (execute_leased_move_with_dirty source dd dn) cx (placing_outcome selected leased_places cx).
Proof.
  intros Hp. unfold execute_leased_move_with_dirty, observe_leased_source_path.
  apply runs_bind, runs_call_silent; [auto with silent|].
  intros [[]|e]; try (apply runs_ret; split; [by destruct selected|done]). cbv zeta. apply runs_bind.
  eapply runs_mono with (Q := fun n r cx' => n = (if selected then move_commits r else 0%nat) /\ cx' = cx).
  { apply runs_by_dirty; apply runs_call; 
      (eapply counts_mono with (Q := fun n r => n = if selected then move_commits r else 0%nat); [|done]);
      apply move_unit_places, move_io_places; try done; unfold with_moved; silence. }
  intros n r cx' [-> ->]. rewrite <- leased_outcome_places.
  destruct (leased_move_outcome r) eqn:Er;
    try (apply runs_ret; split; [by destruct selected|done]).
  apply runs_or. eapply runs_keeps; [apply calm_record_arg|]. intros [[]|e] cx1 H1;
    [|split; [by destruct selected|done]].
  apply runs_or. eapply runs_keeps; [apply calm_record_arg|]. intros [[]|e] cx2 H2;
    [apply runs_ret|]; (split; [by destruct selected|by etrans]).
Qed.

Lemma calm_refuse {A} (f : Error -> A) e : calm (refuse_invalid f e).
Proof. unfold refuse_invalid. keeping. Qed.

(** What a move reports: the number of placements it admits to, and the ticket
    of an indeterminate move. *)
Definition move_report {A : Type} (count : A -> nat) (ticket_of : A -> option TransitionTicket)
    (ticket : TransitionTicket) (cx : Ctx) (n : nat) (o : A) (cx' : Ctx) : Prop :=
  n = (if selected then count o else 0%nat) /\ evolves cx cx' /\
  (forall t, ticket_of o = Some t ->
     count o = 1%nat /\ poisoned (handle cx') <> None /\ exists phase, t = with_phase ticket phase).

Lemma poisoned_evolves r cx :
  evolves cx (mkCtx (set_poisoned (Some (default r (poisoned (handle cx)))) (handle cx)) (dirty_arg cx)).
Proof. split; [done|]. split; [|done]. cbn. by destruct (poisoned (handle cx)). Qed.

Lemma report_nothing {A} (count : A -> nat) ticket_of ticket cx n o cx' :
  count o = 0%nat -> ticket_of o = None -> n = 0%nat -> evolves cx cx' ->
  move_report count ticket_of ticket cx n o cx'.
Proof. intros Hc Ht -> He. split; [rewrite Hc; by destruct selected|]. split; [done|]. by rewrite Ht. Qed.
Lemma report_committed {A} (count : A -> nat) ticket_of ticket cx n o cx' :
  count o = 1%nat -> ticket_of o = None -> n = (if selected then 1 else 0)%nat -> evolves cx cx' ->
  move_report count ticket_of ticket cx n o cx'.
Proof. intros Hc Ht -> He. split; [rewrite Hc; by destruct selected|]. split; [done|]. by rewrite Ht. Qed.
Lemma report_unknown {A} (count : A -> nat) ticket_of ticket phase cx n o cx' r :
  count o = 1%nat -> ticket_of o = Some (with_phase ticket phase) -> n = (if selected then 1 else 0)%nat ->
  evolves cx cx' ->
  move_report count ticket_of ticket cx n o
    (mkCtx (set_poisoned (Some (default r (poisoned (handle cx')))) (handle cx')) (dirty_arg cx')).
Proof.
  intros Hc Ht -> He. split; [rewrite Hc; by destruct selected|]. split; [etrans; [exact He|apply poisoned_evolves]|].
  intros t E. rewrite Ht in E. injection E as <-. split; [done|]. split; [done|]. by eexists.
Qed.

(** A refusal places nothing and reports the error. *)
Lemma refuse_reports {A} (f : Error -> A) e count ticket_of ticket cx cx1 :
  (forall e, count (f e) = 0%nat) -> (forall e, ticket_of (f e) = None) -> evolves cx cx1 ->
  runs sel (refuse_invalid f e) cx1 (move_report count ticket_of ticket cx).
Proof.
  intros Hc Ht He. unfold refuse_invalid.
  destruct e; apply runs_ret; apply report_nothing; try done. etrans; [exact He|apply poisoned_evolves].
Qed.

Lemma move_leased_places lease dir dn ticket cx :
  picks_move (last_component (li_exact_source_path lease)) dn ->
  runs sel (move_leased_with_dirty lease dir dn ticket) cx
    (move_report transition_places transition_ticket_of ticket cx).
Proof.
  intros Hp. unfold move_leased_with_dirty.
  apply runs_or. eapply runs_keeps; [apply calm_ensure_dir_with_dirty|]. intros [[]|e] cx1 H1; [|by apply report_nothing].
  apply runs_bind, runs_gets. cbn [id].
  apply runs_or, runs_call_silent; [auto with silent|]. intros [dd|e]; [|by apply report_nothing].
  apply runs_bind, runs_call. intros tr [[w|]|e] Hx; rewrite (silent_check_lease _ _ _ _ Hx).
  - apply lease_source_name in Hx. rewrite <- Hx in Hp. apply runs_bind.
    eapply runs_mono; [by apply execute_places|]. intros n o cx2 [-> H2].
    assert (H12 : evolves cx cx2) by (by etrans).
    destruct o; cbn [leased_places]; try (apply runs_ret; apply report_nothing; by try destruct selected).
    + apply runs_ret, report_committed; try done; by destruct selected.
    + apply runs_bind, runs_modify, runs_ret. eapply report_unknown; try done; by destruct selected.
    + apply runs_bind, runs_modify, runs_ret, report_nothing; try done; try by destruct selected.
      etrans; [exact H12|apply poisoned_evolves].
  - by apply runs_ret, report_nothing.
  - by apply refuse_reports.
Qed.

Lemma calm_duplicate lease floor : calm (duplicate_ack_outcome lease floor).
Proof. unfold duplicate_ack_outcome. keeping. Qed.
Lemma duplicate_reports lease floor ticket cx cx1 :
  evolves cx cx1 ->
  runs sel (duplicate_ack_outcome lease floor) cx1 (move_report ack_places ack_ticket_of ticket cx).
Proof.
  intros He. unfold duplicate_ack_outcome. apply runs_bind, runs_gets, runs_bind, runs_call_silent; [auto with silent|].
  intros [[]|e]; by apply runs_ret, report_nothing.
Qed.

Lemma ack_source_places lease floor dir dn dd ticket cx :
  picks_move (last_component (li_exact_source_path lease)) dn ->
  runs sel (ack_source lease floor dir dn dd ticket) cx (move_report ack_places ack_ticket_of ticket cx).
Proof.
  intros Hp. unfold ack_source, settle_ack. apply runs_bind, runs_gets, runs_bind, runs_call. cbn [id].
  intros tr [[w|]|e] Hx; rewrite (silent_check_lease _ _ _ _ Hx).
  - apply lease_source_name in Hx. rewrite <- Hx in Hp.
    apply runs_bind, runs_call_silent; [auto with silent|]. intros [[]|e].
    2:{ apply runs_bind. eapply runs_keeps with (R := evolves); [destruct e; keeping|]. intros [] cx1 H1.
        by apply runs_ret, report_nothing. }
    apply runs_bind. eapply runs_mono; [by apply execute_places|]. intros n o cx2 [-> H2].
    destruct o; cbn [leased_places].
    + apply runs_ret, report_committed; try done; by destruct selected.
    + apply runs_bind, runs_modify, runs_ret. eapply report_unknown; try done; by destruct selected.
    + eapply runs_mono; [by apply duplicate_reports|]. intros n a cx3 Hr. by destruct selected.
    + apply runs_bind, runs_modify, runs_ret, report_nothing; try done; try by destruct selected.
      etrans; [exact H2|apply poisoned_evolves].
    + apply runs_bind, runs_gets, runs_bind, runs_call_silent; [auto with silent|]. intros auth.
      apply runs_bind, runs_modify, runs_ret, report_nothing; try done; try by destruct selected.
      etrans; [exact H2|apply poisoned_evolves].
    + apply runs_ret, report_nothing; try done; by destruct selected.
  - by apply duplicate_reports.
  - by apply refuse_reports.
Qed.

End MoveCounts.

(** ** Settlements *)

(** The placements of [tr] moved the lease, from the name in the handle's path,
    to the destination that the ticket of operation [op] names; a reported
    ticket is that ticket. *)
Definition settled_as `{Sha256} (q : Queue) (lease : LeaseInfo) (op : TransitionOperation) (tr : list event)
    (reported : option TransitionTicket) : Prop :=
  exists d t common dst,
    transition_ticket_for_lease q lease op d = Ok t /\
    destination_common t = Ok common /\
    ticket_destination_target (layout q) t common = Ok dst /\
    tally (moves_other (last_component (li_exact_source_path lease)) (filename dst)) tr = 0%nat /\
    (forall t', reported = Some t' -> exists phase, t' = with_phase t phase).

(** What a settlement that started in [cx] reports, with the number of moves
    it admits to and the ticket it hands out. *)
Definition settlement `{Sha256} (lease : LeaseInfo) (ops : list TransitionOperation) (cx : Ctx) (tr : list event)
    (moved : nat) (reported : option TransitionTicket) (cx' : Ctx) : Prop :=
  tally places tr = moved /\ evolves cx cx' /\
  (is_Some reported -> moved = 1%nat /\ poisoned (handle cx') <> None) /\
  (moved = 1%nat -> exists op, op ∈ ops /\ settled_as (handle cx) lease op tr reported).

Section Settlements.
Context `{Sha256} {T : Texts}.

Lemma settlement_nothing lease ops cx tr cx' :
  evolves cx cx' -> tally places tr = 0%nat -> settlement lease ops cx tr 0 None cx'.
Proof. intros He H0. split; [done|]. split; [done|]. split; [by intros []|done]. Qed.

(** The destination a ticket names, once it could be made. *)
Definition names_destination (q : Queue) (lease : LeaseInfo) (op : TransitionOperation) (t : TransitionTicket)
    (dst : Target) : Prop :=
  exists d common, transition_ticket_for_lease q lease op d = Ok t /\
    destination_common t = Ok common /\ ticket_destination_target (layout q) t common = Ok dst.

(** A method that reports its moves truthfully under every selector settles. *)
Lemma reports_settle {A} (m : op A) count ticket_of lease cx0 cx op ops t dst :
  (forall sel selected, Placing sel ->
     @picks_move sel selected (last_component (li_exact_source_path lease)) (filename dst) ->
     runs sel m cx (@move_report selected A count ticket_of t cx)) ->
  evolves cx0 cx -> names_destination (handle cx0) lease op t dst -> op ∈ ops ->
  leaves m cx (fun tr o cx' => settlement lease ops cx0 tr (count o) (ticket_of o) cx').
Proof.
  intros Hm He (d & common & Ht & Hc & Hd) Hop t0 tr [o cx'] H0 Hx. cbn [fst snd].
  set (src := last_component (li_exact_source_path lease)) in *.
  destruct (Hm places true _ (fun _ _ => eq_refl) tr _ Hx) as (Hn & He' & Hu). cbn [fst snd] in Hn, He', Hu.
  destruct (Hm (moves_other src (filename dst)) false _) with (2 := Hx) as (Hn' & _ & _).
  { intros sd dd. cbn. by rewrite !bool_decide_true. }
  split; [by rewrite tally_app, H0, Hn|]. split; [by etrans|]. split.
  - intros [t' E]. destruct (Hu t' E) as (? & ? & _). done.
  - intros _. exists op. split; [done|]. exists d, t, common, dst. do 3 (split; [done|]). split.
    + fold src. by rewrite tally_app, Hn', (tally_placing _ _ H0).
    + intros t' E. by destruct (Hu t' E) as (_ & _ & ?).
Qed.

Lemma move_leased_settles lease cx0 cx op ops t dst :
  evolves cx0 cx -> names_destination (handle cx0) lease op t dst -> op ∈ ops ->
  leaves (move_leased_with_dirty lease (directory dst) (filename dst) t) cx (fun tr o cx' =>
    settlement lease ops cx0 tr (transition_places o) (transition_ticket_of o) cx').
Proof. apply reports_settle. intros sel selected Hsel. apply move_leased_places. Qed.

Lemma move_leased_strict_settles lease cx0 cx op ops t dst :
  evolves cx0 cx -> names_destination (handle cx0) lease op t dst -> op ∈ ops ->
  leaves (move_leased lease (directory dst) (filename dst) t) cx (fun tr o cx' =>
    settlement lease ops cx0 tr (transition_places o) (transition_ticket_of o) cx').
Proof.
  intros He Hn Hop t0 tr [o cx'] H0 (t1 & t2 & [o' cx1] & -> & H1 & H2)%exec_bind.
  apply exec_ret in H2 as [-> [= -> ->]]. rewrite app_nil_r. cbn [fst snd].
  assert (He' : evolves (mkCtx (handle cx0) None) (mkCtx (handle cx) None)) by (by destruct He as (? & ? & _ & ?)).
  destruct (move_leased_settles lease (mkCtx (handle cx0) None) (mkCtx (handle cx) None) op ops t dst He' Hn Hop t0 t1 _ H0 H1)
    as (Hs1 & (Hc & Hp & _ & Hk) & Hs3 & Hs4). split; [done|]. split; [|done].
  split; [done|]. split; [done|]. destruct He as (_ & _ & ? & _). by split.
Qed.

(** A ticket names the target the operation computed from the same identity. *)
Lemma named_destination q q' lease op d t common dst :
  config q' = config q ->
  transition_ticket_for_lease q' lease op d = Ok t ->
  next_identity (protocol_operation op) (lease_common lease) = Ok common ->
  (forall t, tt_destination t = d -> tt_lease_token t = li_token lease ->
     ticket_destination_target (layout q') t common = Ok dst) ->
  names_destination q lease op t dst.
Proof.
  intros Hc Ht Hi Hd. exists d, common. rewrite (layout_of_config _ _ Hc) in Hd.
  unfold transition_ticket_for_lease, queue_id in *. rewrite Hc in Ht. split; [done|].
  unfold TransitionTicket_new in Ht. rsteps Ht. subst t. split; [|by apply Hd].
  apply destination_common_ok. unfold next_identity in Hi. cbn [source_common tt_operation].
  unfold lease_common in Hi. unfold source_common. cbn.
  by destruct (next_common_fields _ _) as [|[]]; cbn in Hi; simplify_eq.
Qed.

Definition settles_lease (lease : LeaseInfo) (ops : list TransitionOperation) (cx : Ctx) (m : op TransitionOutcome)
    (cx1 : Ctx) : Prop :=
  leaves m cx1 (fun tr o cx' => settlement lease ops cx tr (transition_places o) (transition_ticket_of o) cx').

Ltac nothing := intros; apply settlement_nothing; [by repeat (done || etrans)|done].

Lemma bury_settles lease reason floor cx cx1 :
  evolves cx cx1 -> settles_lease lease [TBury; TRetryNow; TRetryLater] cx (bury_with_wall_floor lease reason floor) cx1.
Proof.
  intros He. unfold settles_lease, bury_with_wall_floor. apply leaves_or_ret; [nothing|]. intros common Hi.
  apply leaves_bind_gets. cbn [id]. apply leaves_or_ret; [nothing|]. intros bucket Hb.
  apply leaves_or_ret; [nothing|]. intros t Ht.
  apply move_leased_strict_settles with (op := TBury); [done| |set_solver].
  eapply named_destination; [apply He|exact Ht|exact Hi|]. intros t' Hd Htok.
  unfold ticket_destination_target. by rewrite Hd.
Qed.

Lemma retry_settles lease timing cx cx1 :
  evolves cx cx1 -> settles_lease lease [TBury; TRetryNow; TRetryLater] cx (retry lease timing) cx1.
Proof.
  intros He. unfold settles_lease, retry. apply leaves_or; [apply keeps_check; apply _|nothing|].
  intros [] cx2 H2. assert (H12 : evolves cx cx2) by (by etrans).
  destruct (retry_deadline timing) as [delayed floor].
  destruct (_ <=? _)%Z.
  - apply leaves_or; [destruct floor; [apply keeps_ret; apply _|apply calm_wall]|nothing|].
    intros w cx3 H3. apply bury_settles. by etrans.
  - apply leaves_bind_gets. cbn [id]. apply leaves_or_ret; [nothing|]. intros [[target op] d] Hdst.
    apply leaves_or_ret; [nothing|]. intros t Ht. unfold retry_destination in Hdst.
    destruct delayed as [nb|]; rsteps Hdst; simplify_eq;
      (eapply move_leased_strict_settles; [done| |];
        [eapply named_destination; [apply H12|exact Ht|exact E|]; intros t' Hd Htok;
          unfold ticket_destination_target; by rewrite Hd
        |set_solver]).
Qed.

Lemma retry_after_settles lease d cx :
  settles_lease lease [TBury; TRetryNow; TRetryLater] cx (retry_after_op lease d) cx.
Proof.
  unfold settles_lease, retry_after_op. apply leaves_or; [apply calm_wall|nothing|]. intros w cx1 H1.
  apply leaves_or_ret; [nothing|]. intros dl _. by apply retry_settles.
Qed.

Lemma renew_settles lease d cx :
  leaves (renew_with_dirty lease d) cx (fun tr o cx' =>
    settlement lease [TRenew] cx tr (renew_places o) (renew_ticket_of o) cx').
Proof.
  unfold renew_with_dirty. apply leaves_or; [apply keeps_check; apply _|nothing|]. intros [] cx1 H1.
  destruct (negb _); [apply leaves_ret; nothing|].
  apply leaves_or; [apply keeps_call; silence|nothing|]. intros boot cx2 H2.
  apply leaves_or; [apply calm_wall|nothing|]. intros w cx3 H3.
  assert (H13 : evolves cx cx3) by (by do 2 (etrans; [done|])).
  do 2 (apply leaves_or_ret; [nothing|]; intros ? _). apply leaves_or_ret; [nothing|]. intros common Hi.
  apply leaves_bind_gets. cbn [id]. apply leaves_or_ret; [nothing|]. intros target Htg.
  apply leaves_or_ret; [nothing|]. intros t Ht.
  intros t0 tr [o cx'] H0 (t1 & t2 & [o' cx4] & -> & Hx & Hy)%exec_bind.
  apply exec_ret in Hy as [-> [= -> ->]]. rewrite app_nil_r. cbn [fst snd].
  assert (Hn : names_destination (handle cx) lease TRenew t target).
  { eapply named_destination; [apply H13|exact Ht|exact Hi|]. intros t' Hd Htok.
    unfold ticket_destination_target. rewrite Hd, Htok. exact Htg. }
  pose proof (move_leased_settles lease cx cx3 TRenew [TRenew] t target H13 Hn ltac:(set_solver) t0 t1 _ H0 Hx) as Hs.
  by destruct o'.
Qed.

Lemma ack_settles lease cx :
  leaves (ack_inner_with_dirty lease) cx (fun tr o cx' =>
    settlement lease [TAcknowledge] cx tr (ack_places o) (ack_ticket_of o) cx').
Proof.
  unfold ack_inner_with_dirty. apply leaves_or; [apply keeps_check; apply _|nothing|]. intros [] cx1 H1.
  apply leaves_or; [apply calm_wall|nothing|]. intros w cx2 H2.
  apply leaves_or_ret; [nothing|]. intros common Hi. apply leaves_bind_gets. cbn [id].
  apply leaves_or_ret; [nothing|]. intros bucket Hb. cbv zeta. apply leaves_or_ret; [nothing|]. intros t Ht.
  set (target := Layout_receipt_in_bucket _ _ _ _).
  assert (Hn : names_destination (handle cx) lease TAcknowledge t target).
  { eapply named_destination; [|exact Ht|exact Hi|].
    - destruct H1 as (E1 & _), H2 as (E2 & _). congruence.
    - intros t' Hd Htok. unfold ticket_destination_target. by rewrite Hd, Htok. }
  clearbody target. apply leaves_or; [apply calm_ensure_dir_with_dirty|nothing|]. intros [] cx3 H3.
  apply leaves_or; [apply keeps_call; silence|nothing|]. intros dd cx4 H4.
  eapply reports_settle; [|by do 3 (etrans; [done|])|exact Hn|set_solver].
  intros sel selected Hsel. apply ack_source_places.
Qed.

(** *** Content checks *)

Lemma corrupt_if_ok checks : corrupt_if checks = Ok tt -> Forall (fun x => x.1 = false) checks.
Proof. induction checks as [|[[] m] checks IH]; cbn; [constructor|done|]. intros Hc. constructor; [done|by apply IH]. Qed.

(** The header in the object is the one the handle describes. *)
Definition header_is_lease (lease : LeaseInfo) (h : FixedHeader) : Prop :=
  fh_job_id h = li_job_id lease /\ fh_maximum_attempts h = li_maximum_attempts lease /\
  fh_envelope_digest h = li_envelope_digest lease /\ fh_payload_length h = li_payload_length lease /\
  fh_payload_digest h = li_payload_digest lease.

Lemma check_lease_header_ok lease h : check_lease_header lease h = Ok tt -> header_is_lease lease h.
Proof.
  unfold check_lease_header. intros Hc%corrupt_if_ok. rewrite !Forall_cons in Hc. cbn [fst] in Hc.
  destruct Hc as (H1 & H2 & H3 & H4 & H5 & _). by breflect.
Qed.

Lemma lease_object_header lease fd opened content :
  wp (serves fd content) (check_lease_object lease fd opened) (fun _ r =>
    r = Ok tt -> exists h, FixedHeader_decode (slice 0 128 content) = Ok h /\ header_is_lease lease h).
Proof.
  unfold check_lease_object. apply wp_try. eapply wp_mono; [apply (accepts_read fd content _ 128 0); lia|].
  intros t1 [data|e]; [|done]. intros [-> _]. change (0 + 128)%nat with 128%nat.
  apply wp_try, wp_ret. destruct (FixedHeader_decode _) as [h|e] eqn:Hd; [cbn [map_err]|done].
  apply wp_try, wp_ret. destruct (check_lease_header lease h) as [[]|e] eqn:Hc; [|done].
  apply check_lease_header_ok in Hc. intros tr r Hx Hf _. by exists h.
Qed.

End Settlements.

(** ** Acknowledged means verified *)

Section Verified.
Context `{Sha256Spec} {T : Texts}.

Lemma ack_source_verified lease floor dir dn dd ticket cx tr cx' :
  exec (ack_source lease floor dir dn dd ticket cx) tr (Acked, cx') ->
  exists fd t1 t2, tr = t1 ++ t2 /\ tally places t1 = 0%nat /\
    forall content, Forall (serves fd content) t1 ->
      exists ve, ValidatedEnvelope_from_bytes content true = Ok ve /\ header_is_lease lease (ve_header ve).
Proof.
  unfold ack_source. intros (t1 & t2 & x & -> & H1 & Hx)%exec_bind. apply exec_ret in H1 as [-> ->]. cbn [fst snd id app] in Hx.
  apply exec_bind in Hx as (t3 & t4 & y & -> & H3 & Hx). apply exec_bind in H3 as (t5 & t6 & r & -> & H3 & Hy).
  apply exec_ret in Hy as [-> ->]. cbn [fst snd] in Hx. rewrite app_nil_r.
  destruct r as [[w|]|e].
  2:{ apply exec_bind in Hx as (? & ? & z & -> & Hz & Hx). apply exec_ret in Hz as [-> ->].
      apply exec_bind in Hx as (? & ? & z & -> & _ & Hx). apply exec_ret in Hx as [_ Hx].
      by destruct z as [[[]|] ?]. }
  2:{ destruct e; by apply exec_ret in Hx as [_ ?]. }
  apply exec_bind in Hx as (t7 & t8 & z & -> & H7 & Hx). apply exec_bind in H7 as (t9 & t10 & v & -> & H7 & Hy).
  apply exec_ret in Hy as [-> ->]. cbn [fst snd] in Hx. rewrite app_nil_r.
  destruct v as [[]|e].
  2:{ apply exec_bind in Hx as (? & ? & ? & _ & _ & Hx). by apply exec_ret in Hx as [_ ?]. }
  exists (lw_file_fd w), (t5 ++ t9), t8. split; [by rewrite <- app_assoc|]. split.
  { rewrite tally_app, (silent_check_lease _ _ _ _ H3), (silent_verify_payload_on_fd _ _ _ H7). done. }
  intros content [Hs1 Hs2]%Forall_app.
  apply validated_lease in H3 as (_ & u1 & u2 & opened & -> & Hc & _). apply Forall_app in Hs1 as [_ Hs1].
  destruct (lease_object_header _ _ _ _ _ _ Hc Hs1 eq_refl) as (h & Hd & Hh).
  apply exec_try in H7 as [(e & _ & ?)|(v1 & v2 & job & -> & Hv & _)]; [done|]. apply Forall_app in Hs2 as [Hs2 _].
  apply exec_map_err_ok in Hv. destruct (verify_job_judged _ _ _ _ Hv Hs2) as (payload & Hj & _).
  eexists. split; [exact Hj|]. apply from_bytes_checks in Hj as (_ & Hd' & _). rewrite Hd in Hd'. injection Hd' as <-. exact Hh.
Qed.

(** Before the only placement in the trace, the object was read through one
    descriptor and its content is the complete job the handle describes. *)
Definition verified_before_move (lease : LeaseInfo) (tr : list event) : Prop :=
  exists fd t1 t2, tr = t1 ++ t2 /\ tally places t1 = 0%nat /\
    forall content, Forall (serves fd content) t1 ->
      exists ve, ValidatedEnvelope_from_bytes content true = Ok ve /\ header_is_lease lease (ve_header ve).

Lemma ack_verifies lease cx :
  leaves (ack_inner_with_dirty lease) cx (fun tr o _ => o = Acked -> verified_before_move lease tr).
Proof.
  unfold ack_inner_with_dirty. apply leaves_or; [apply keeps_check; apply _|done|]. intros [] cx1 _.
  apply leaves_or; [apply calm_wall|done|]. intros w cx2 _. apply leaves_or_ret; [done|]. intros common _.
  apply leaves_bind_gets. apply leaves_or_ret; [done|]. intros bucket _. apply leaves_or_ret; [done|]. intros t _.
  apply leaves_or; [apply calm_ensure_dir_with_dirty|done|]. intros [] cx3 _.
  apply leaves_or; [apply keeps_call; silence|done|]. intros dd cx4 _.
  intros t0 tr [o cx'] H0' Hx. cbn [fst snd]. intros ->.
  apply ack_source_verified in Hx as (fd & t1 & t2 & -> & Hq & Hv).
  exists fd, (t0 ++ t1), t2. split; [by rewrite app_assoc|]. split; [by rewrite tally_app, H0'|].
  intros content [_ Hs]%Forall_app. by apply Hv.
Qed.

(** A poisoned handle refuses before any call. *)
Lemma poisoned_refuses {R} (f : Error -> R) (k : unit -> op R) cx tr x :
  poisoned (handle cx) <> None ->
  exec (op_or check_not_poisoned f k cx) tr x ->
  exists reason, tr = [] /\ x = (f (QueuePoisoned (PoisonReason_fmt reason)), cx).
Proof.
  intros Hp (t1 & t2 & y & -> & H1 & H2)%exec_bind. apply exec_ret in H1 as [-> ->]. cbn [fst snd] in H2.
  destruct (poisoned (handle cx)) as [reason|]; [|done]. apply exec_ret in H2 as [-> ->]. by exists reason.
Qed.


End Verified.

(** ** Retry, bury and renew *)

(** The public operations that move a lease back or to the dead letters. *)
Inductive LeaseTransition : Type :=
| LtRetryNow
| LtRetryAt (not_before_ns : Z)
| LtRetryAfter (duration_ns : Z)
| LtRetryWithPolicy (policy : RetryPolicy)
| LtBury (reason : DeadReason).

Section Transitions.
Context `{Sha256} {T : Texts}.

Definition perform (lt : LeaseTransition) (lease : LeaseInfo) : Queue -> io (TransitionOutcome * Queue) :=
  match lt with
  | LtRetryNow => retry_now lease
  | LtRetryAt not_before_ns => retry_at lease not_before_ns
  | LtRetryAfter duration_ns => retry_after lease duration_ns
  | LtRetryWithPolicy policy => retry_with_policy lease policy
  | LtBury reason => bury lease reason
  end.

Lemma strictly_settles lease ops (m : op TransitionOutcome) q tr out q' :
  settles_lease lease ops (mkCtx q None) m (mkCtx q None) ->
  exec (strictly m q) tr (out, q') ->
  settlement lease ops (mkCtx q None) tr (transition_places out) (transition_ticket_of out) (mkCtx q' None).
Proof.
  intros Hm (t1 & t2 & [o cx'] & -> & H1 & H2)%exec_bind. apply exec_ret in H2 as [-> [= -> ->]]. rewrite app_nil_r.
  destruct (Hm [] t1 _ eq_refl H1) as (Hn & (Hc & Hp & _ & Hk) & Hr & Hs). do 2 (split; [done|]). by split.
Qed.

Lemma perform_settles lt lease q tr out q' :
  exec (perform lt lease q) tr (out, q') ->
  settlement lease [TBury; TRetryNow; TRetryLater] (mkCtx q None) tr (transition_places out)
    (transition_ticket_of out) (mkCtx q' None).
Proof.
  destruct lt; cbn [perform]; apply strictly_settles; unfold settles_lease.
  - by apply retry_settles.
  - apply leaves_or; [apply calm_wall|intros; by apply settlement_nothing|]. intros w cx1 H1. by apply retry_settles.
  - apply retry_after_settles.
  - apply leaves_or_ret; [intros; by apply settlement_nothing|]. intros _ _. apply leaves_bind_gets.
    apply leaves_or_ret; [intros; by apply settlement_nothing|]. intros d _.
    destruct (d =? 0)%Z; [by apply retry_settles|].
    apply leaves_or_ret; [intros; by apply settlement_nothing|]. intros n _. apply retry_after_settles.
  - apply leaves_or; [apply keeps_check; apply _|intros; by apply settlement_nothing|]. intros [] cx1 H1.
    apply leaves_or; [apply calm_wall|intros; apply settlement_nothing; [by etrans|done]|].
    intros w cx2 H2. apply bury_settles. by etrans.
Qed.

(** Every path of a transition on a poisoned handle ends in a refusal. *)
Lemma poisoned_retry lease timing q cx :
  poisoned q <> None -> evolves (mkCtx q None) cx ->
  leaves (retry lease timing) cx (fun _ o _ => transition_places o = 0%nat).
Proof.
  intros Hp (_ & He & _) t0 tr x _ Hx. assert (Hc : poisoned (handle cx) <> None) by (by rewrite He).
  by destruct (poisoned_refuses _ _ _ _ _ Hc Hx) as (reason & _ & ->).
Qed.
Lemma perform_poisoned lt lease q tr out q' :
  poisoned q <> None -> exec (perform lt lease q) tr (out, q') -> transition_places out = 0%nat.
Proof.
  intros Hp Hx.
  assert (Hm : forall m : op TransitionOutcome, leaves m (mkCtx q None) (fun _ o _ => transition_places o = 0%nat) ->
    exec (strictly m q) tr (out, q') -> transition_places out = 0%nat).
  { intros m Hm (t1 & t2 & [o cx'] & -> & H1 & H2)%exec_bind. apply exec_ret in H2 as [_ [= -> _]].
    exact (Hm [] t1 _ eq_refl H1). }
  destruct lt; cbn [perform] in Hx; refine (Hm _ _ Hx).
  - by apply poisoned_retry with q.
  - apply leaves_or; [apply calm_wall|done|]. intros w cx1 H1. by apply poisoned_retry with q.
  - apply leaves_or; [apply calm_wall|done|]. intros w cx1 H1. apply leaves_or_ret; [done|]. intros dl _.
    by apply poisoned_retry with q.
  - apply leaves_or_ret; [done|]. intros _ _. apply leaves_bind_gets. apply leaves_or_ret; [done|]. intros d _.
    destruct (d =? 0)%Z; [by apply poisoned_retry with q|]. apply leaves_or_ret; [done|]. intros n _.
    apply leaves_or; [apply calm_wall|done|]. intros w cx1 H1. apply leaves_or_ret; [done|]. intros dl _.
    by apply poisoned_retry with q.
  - intros t0 t1 x _ H1. by destruct (poisoned_refuses _ _ (mkCtx q None) _ _ Hp H1) as (reason0 & _ & ->).
Qed.


Lemma renew_reports lease d cx :
  leaves (renew_with_dirty lease d) cx (fun tr o _ =>
    forall info, o = RenewRenewed info \/ o = RenewDeferred info -> exists common dst b w,
      next_identity OpRenew (lease_common lease) = Ok common /\
      Layout_leased (layout (handle cx)) common b w (li_token lease) = Ok dst /\
      info = renewed_lease lease common b w dst /\
      tally (moves_other (last_component (li_exact_source_path lease)) (filename dst)) tr = 0%nat).
Proof.
  unfold renew_with_dirty. apply leaves_or; [apply keeps_check; apply _|naive_solver|]. intros [] cx1 H1.
  destruct (negb _); [apply leaves_ret; naive_solver|].
  apply leaves_or; [apply keeps_call; silence|naive_solver|]. intros boot cx2 H2.
  apply leaves_or; [apply calm_wall|naive_solver|]. intros w cx3 H3.
  apply leaves_or_ret; [naive_solver|]; intros b Hb. apply leaves_or_ret; [naive_solver|]; intros wd Hw.
  apply leaves_or_ret; [naive_solver|]. intros common Hi.
  apply leaves_bind_gets. cbn [id]. apply leaves_or_ret; [naive_solver|]. intros target Htg.
  apply leaves_or_ret; [naive_solver|]. intros t Ht.
  intros t0 tr [o cx'] H0 (t1 & t2 & [o' cx4] & -> & Hx & Hy)%exec_bind.
  apply exec_ret in Hy as [-> [= -> ->]]. rewrite app_nil_r. cbn [fst snd]. intros info E.
  destruct o'; destruct E; simplify_eq. exists common, target, b, wd. split; [done|]. split.
  { rewrite <- Htg. f_equal. symmetry. apply layout_of_config.
    destruct H1 as (E1 & _), H2 as (E2 & _), H3 as (E3 & _). congruence. }
  split; [done|]. set (src := last_component _).
  destruct (move_leased_places (sel:=moves_other src (filename target)) (selected:=false) lease (directory target)
    (filename target) t cx3) with (2 := Hx) as (Hn & _).
  { intros sd dd. cbn. by rewrite !bool_decide_true. }
  by rewrite tally_app, Hn, (tally_placing _ _ H0).
Qed.

(** What an execution of [renew] did, by its outcome. *)
Lemma renew_facts lease d q tr out q' :
  exec (renew lease d q) tr (out, q') ->
  tally places tr = renew_places out /\
  (renew_places out = 1%nat -> settled_as q lease TRenew tr (renew_ticket_of out)) /\
  (forall info, out = RenewRenewed info \/ out = RenewDeferred info -> exists common dst b w,
     next_identity OpRenew (lease_common lease) = Ok common /\
     Layout_leased (layout q) common b w (li_token lease) = Ok dst /\
     info = renewed_lease lease common b w dst /\ li_exact_source_path info = relative_path dst /\
     tally (moves_other (last_component (li_exact_source_path lease)) (filename dst)) tr = 0%nat) /\
  (is_Some (renew_ticket_of out) -> poisoned q' <> None) /\ config q' = config q.
Proof.
  assert (Hop : forall op, op ∈ [TRenew] -> op = TRenew) by set_solver.
  assert (Hcore : forall cx t o cx', handle cx = set_dirty (dirty (handle cx)) q ->
    exec (renew_with_dirty lease d cx) t (o, cx') ->
    tally places t = renew_places o /\
    (renew_places o = 1%nat -> settled_as q lease TRenew t (renew_ticket_of o)) /\
    (forall info, o = RenewRenewed info \/ o = RenewDeferred info -> exists common dst b w,
      next_identity OpRenew (lease_common lease) = Ok common /\
      Layout_leased (layout q) common b w (li_token lease) = Ok dst /\
      info = renewed_lease lease common b w dst /\ li_exact_source_path info = relative_path dst /\
      tally (moves_other (last_component (li_exact_source_path lease)) (filename dst)) t = 0%nat) /\
    (is_Some (renew_ticket_of o) -> poisoned (handle cx') <> None) /\ config (handle cx') = config q).
  { intros [q0 d0] t o cx' Hq H1. cbn [handle] in Hq.
    destruct (renew_settles _ _ _ [] t _ eq_refl H1) as (Hn & (Hc & _ & _) & Hr & Hs).
    pose proof (renew_reports _ _ _ [] t _ eq_refl H1) as Hi. cbn [fst snd handle app] in *. rewrite Hq in Hc, Hs, Hi.
    split; [done|]. split; [intros E; by destruct (Hs E) as (op & ->%Hop & ?)|]. split; [|by split; [intros [_ ?]%Hr|]].
    intros info Hinfo. destruct (Hi _ Hinfo) as (common & dst & b & w & ? & ? & -> & ?). by exists common, dst, b, w. }
  unfold renew. destruct (deferred_dir_sync (config q)).
  - intros (t1 & t2 & [o q1] & -> & H1 & H2)%exec_bind. cbn [fst snd] in H2.
    apply exec_bind in H1 as (t3 & t4 & [o' cx'] & -> & H1 & H3). cbn [fst snd] in H3.
    apply exec_ret in H3 as [-> [= -> ->]]. apply exec_ret in H2 as [-> [= -> ->]]. rewrite !app_nil_r.
    destruct (Hcore (mkCtx (set_dirty DirtySet_new q) (Some (dirty q))) _ _ _ eq_refl H1) as (Hn & Hs & Hi & Hu & Hc).
    destruct o'; (do 2 (split; [done|])); (split; [|done]); intros info' [E|E]; simplify_eq; by apply Hi; auto.
  - intros (t3 & t4 & [o' cx'] & -> & H1 & H3)%exec_bind. cbn [fst snd] in H3.
    apply exec_ret in H3 as [-> [= -> ->]]. rewrite !app_nil_r.
    apply (Hcore (mkCtx q None)); [by destruct q|done].
Qed.


End Transitions.

(** ** Examples *)

Definition knowing (t : Target) : Queue := set_known_dirs {[ directory t ]} sample_queue.

(** A kernel that holds the leased object under its name and under [dst]. *)
Definition sample_lease_disk (dst : bytes) : unit -> Syscall -> Answer * unit :=
  sample_disk (mkSampleFile (filename sample_lease_target) 10 1 sample_job_file
               :: mkSampleFile dst 10 1 sample_job_file :: sample_control).

Definition sample_ack_run :=
  run (sample_lease_disk (filename sample_ack_target)) tt (@ack checksum256 sample_texts sample_lease (knowing sample_ack_target)).

(** A retry whose destination directory cannot be made durable. *)
Definition sample_retry_target : Target :=
  @Layout_ready checksum256 (layout sample_queue) (mkCommon (replicate 16 x2a) 5 1 5).
Definition failing_dir_sync (s : unit) (c : Syscall) : Answer * unit :=
  match c with
  | SysFsync fd => (if (fd =? 7)%Z then Fails 5 else Returns 0, s)
  | _ => sample_lease_disk (filename sample_retry_target) s c
  end.
Definition sample_retry_run :=
  run failing_dir_sync tt (@perform checksum256 sample_texts LtRetryNow sample_lease (knowing sample_retry_target)).

(** A renewal for ten seconds. *)
Definition sample_renew_target : Target :=
  match @Layout_leased checksum256 (layout sample_queue) (mkCommon (replicate 16 x2a) 5 1 5)
          1700000010000000700 1700000010000000700 (replicate 16 x0c) with
  | Ok t => t
  | Err _ => mkTarget (LocReady 0) []
  end.
Definition sample_renew_run :=
  run (sample_lease_disk (filename sample_renew_target)) tt
    (@renew checksum256 sample_texts sample_lease 10000000000 sample_queue).
