(* ===== verification/Quarantine.v ===== *)
(** * Quarantine

    Models the quarantine operations of [crates/steadq-core/src/quarantine.rs]:
    the publication of a corrupt object under a fresh quarantine name, and the
    administrative listing, lookup and removal.  The fsck walk of the same file
    is in [Fsck].

    Directories are read with fuel; see [FsDir]. *)
From stdpp Require Import base numbers list option strings gmap.
From Stdlib Require Import Strings.Byte ZArith.
From S2P Require Import Prelude Math Names Format FsLinux FsRead FsDir StateMachine Ticket Layout Engine Logic Verified Queue Watermark Publish.
Open Scope string_scope.
Open Scope list_scope.

Definition QUARANTINE_NAME_ATTEMPTS : Z := 8.
Definition MAX_QUARANTINE_LIST_DEPTH : nat := 2.

Definition quarantine_destination_collision (failure : MoveFailure) : bool :=
  match failure with MoveAlreadyExists => true | _ => false end.

Inductive QuarantinePreparePhase : Type :=
| QpAttemptBudget | QpEnsureDirectory | QpOpenDirectory | QpRandomName | QpSourceLock | QpSourceIdentity.

Inductive QuarantinePublishFailure : Type :=
| QfPreparation (phase : QuarantinePreparePhase) (source : IoError) (attempts_consumed : Z)
| QfMove (quarantine_id quarantine_name : bytes) (failure : MoveFailure) (attempts_consumed : Z)
| QfCollisionExhausted (attempts : Z) (last_quarantine_id last_quarantine_name : bytes)
| QfBudgetExhausted (attempts : Z) (last_quarantine_id last_quarantine_name : bytes).

Definition QuarantinePublishFailure_attempts_consumed (f : QuarantinePublishFailure) : Z :=
  match f with
  | QfPreparation _ _ attempts | QfMove _ _ _ attempts
  | QfCollisionExhausted attempts _ _ | QfBudgetExhausted attempts _ _ => attempts
  end.

Record QuarantinePublication : Type := mkQuarantinePublication {
  qp_quarantine_id : bytes; qp_quarantine_name : bytes; qp_attempts_consumed : Z }.

Record QuarantineEntry : Type := mkQuarantineEntry {
  qe_quarantine_id : bytes; qe_reason : Z; qe_filename : bytes; qe_relative_path : bytes }.

Section Quarantine.
Context {T : Texts}.

(** ** Publication *)

Definition prepare_phase_text (phase : QuarantinePreparePhase) : string :=
  match phase with
  | QpAttemptBudget => "AttemptBudget" | QpEnsureDirectory => "EnsureDirectory"
  | QpOpenDirectory => "OpenDirectory" | QpRandomName => "RandomName"
  | QpSourceLock => "SourceLock" | QpSourceIdentity => "SourceIdentity"
  end.
Definition QuarantinePublishFailure_fmt (f : QuarantinePublishFailure) : string :=
  match f with
  | QfPreparation phase source _ =>
      "quarantine not committed at phase=" +:+ prepare_phase_text phase +:+ ": " +:+ io_text source
  | QfMove id name failure _ =>
      let named := " id=" +:+ bytes_text (hex_encode id) +:+ " name=" +:+ bytes_text name in
      match failure with
      | MoveNotCommitted phase source =>
          "quarantine not committed" +:+ named +:+ " phase=" +:+ move_phase_text phase +:+ ": " +:+ io_text source
      | MoveOutcomeUnknown phase source =>
          "quarantine outcome unknown" +:+ named +:+ " phase=" +:+ move_phase_text phase +:+ ": " +:+ io_text source
      | MoveAlreadyExists => "quarantine destination collision" +:+ named
      | MoveSourceMissing => "quarantine source missing" +:+ named
      end
  | QfCollisionExhausted attempts id name =>
      "quarantine destination collision after " +:+ number_text attempts +:+ " attempts last_id="
        +:+ bytes_text (hex_encode id) +:+ " last_name=" +:+ bytes_text name
  | QfBudgetExhausted attempts id name =>
      "quarantine retry budget exhausted after " +:+ number_text attempts +:+ " attempts last_id="
        +:+ bytes_text (hex_encode id) +:+ " last_name=" +:+ bytes_text name
  end.

Definition not_prepared {A : Type} (phase : QuarantinePreparePhase) (attempts : Z) (source : IoError)
  : result A QuarantinePublishFailure :=
  Err (QfPreparation phase source attempts).

(** The loop over names: this is attempt number [attempts], and [later] more
    are allowed, so the limit is reached when [later] is zero. *)
Fixpoint try_quarantine_names (later : nat) (attempts limit : Z) (src_dir_fd : Z) (filename : bytes)
    (reason : QuarantineReason) (quarantine_dir : Z) (next_id : io (result bytes IoError))
  : io (result QuarantinePublication QuarantinePublishFailure) :=
  let! id := next_id in
  match id with
  | Err error => Ret (not_prepared QpRandomName (attempts - 1) error)
  | Ok quarantine_id =>
      let quarantine_name := quarantine_filename quarantine_id (QuarantineReason_as_u16 reason) in
      let! moved := move_verified_noreplace src_dir_fd filename quarantine_dir quarantine_name in
      match moved with
      | Ok _ => Ret (Ok (mkQuarantinePublication quarantine_id quarantine_name attempts))
      | Err failure =>
          if quarantine_destination_collision failure then
            match later with
            | O =>
                Ret (Err ((if (limit =? QUARANTINE_NAME_ATTEMPTS)%Z then QfCollisionExhausted else QfBudgetExhausted)
                            attempts quarantine_id quarantine_name))
            | S later' =>
                try_quarantine_names later' (attempts + 1) limit src_dir_fd filename reason quarantine_dir next_id
            end
          else Ret (Err (QfMove quarantine_id quarantine_name failure attempts))
      end
  end.

Definition publish_quarantine_object_with_ids (src_dir_fd : Z) (filename : bytes) (reason : QuarantineReason)
    (max_move_attempts : Z) (next_id : io (result bytes IoError))
  : op (result QuarantinePublication QuarantinePublishFailure) :=
  let attempt_limit := Z.min max_move_attempts QUARANTINE_NAME_ATTEMPTS in
  if (attempt_limit =? 0)%Z
  then op_ret (not_prepared QpAttemptBudget 0 (CustomError KOther "no quarantine move attempt budget remains"))
  else
    let*? _ := ensure_dir (lit "quarantine") else not_prepared QpEnsureDirectory 0 in
    let* root := gets (fun q => root_fd (config q)) in
    let*? quarantine_dir := call (open_relative root (lit "quarantine")) else not_prepared QpOpenDirectory 0 in
    call (try_quarantine_names (Z.to_nat (attempt_limit - 1)) 1 attempt_limit src_dir_fd filename reason
            quarantine_dir next_id).

Definition publish_quarantine_object (src_dir_fd : Z) (filename : bytes) (reason : QuarantineReason)
  : op (result QuarantinePublication QuarantinePublishFailure) :=
  publish_quarantine_object_with_ids src_dir_fd filename reason QUARANTINE_NAME_ATTEMPTS random_128bit.

(** ** Listing and removal *)

Definition quarantine_list_skips (error : IoError) : bool := os_error_in [ENOTDIR; ELOOP; ENOENT] error.

(** The loop over one directory; [descend] lists a child directory, when the
    depth allows it. *)
Fixpoint collect_entries (fuel : nat) (s : DirectoryStream) (dir_fd : Z) (relative_dir : bytes)
    (descend : option (Z -> bytes -> list QuarantineEntry -> io (option (result (list QuarantineEntry) IoError))))
    (out : list QuarantineEntry) : io (option (result (list QuarantineEntry) IoError)) :=
  match fuel with
  | O => Ret None
  | S fuel' =>
      let! (entry, s) := next_entry fuel s in
      match entry with
      | None => Ret None
      | Some (Err error) => Ret (Some (Err error))
      | Some (Ok None) => Ret (Some (Ok out))
      | Some (Ok (Some entry)) =>
          let continue := collect_entries fuel' s dir_fd relative_dir descend in
          match as_ascii_str entry with
          | None => continue out
          | Some name =>
              match parse_quarantine name, descend with
              | Ok parsed, _ =>
                  continue (out ++ [mkQuarantineEntry (qn_quarantine_id parsed) (qn_reason parsed) name
                                      (relative_dir ++ lit "/" ++ name)])
              | Err _, None => continue out
              | Err _, Some descend =>
                  let! child := open_directory dir_fd name in
                  match child with
                  | Ok child_fd =>
                      let! r := descend child_fd (relative_dir ++ lit "/" ++ name) out in
                      match r with
                      | Some (Ok out) => continue out
                      | r => Ret r
                      end
                  | Err error => if quarantine_list_skips error then continue out else Ret (Some (Err error))
                  end
              end
          end
      end
  end.

Fixpoint collect_quarantine_entries (fuel depth : nat) (dir_fd : Z) (relative_dir : bytes)
    (out : list QuarantineEntry) : io (option (result (list QuarantineEntry) IoError)) :=
  let! s := DirectoryStream_open dir_fd in
  match s with
  | Err error => Ret (Some (Err error))
  | Ok s =>
      collect_entries fuel s dir_fd relative_dir
        (match depth with O => None | S depth' => Some (collect_quarantine_entries fuel depth') end) out
  end.

Definition list_quarantine (fuel : nat) (q : Queue) : io (option (result (list QuarantineEntry) IoError)) :=
  let! fd := open_directory (root_fd (config q)) (lit "quarantine") in
  match fd with
  | Ok fd => collect_quarantine_entries fuel MAX_QUARANTINE_LIST_DEPTH fd (lit "quarantine") []
  | Err error => Ret (Some (if bool_decide (kind error = KNotFound) then Ok [] else Err error))
  end.

Definition find_quarantine (fuel : nat) (q : Queue) (quarantine_id : bytes)
  : io (option (result (option QuarantineEntry) IoError)) :=
  let! entries := list_quarantine fuel q in
  Ret (match entries with
       | Some (Ok entries) =>
           Some (Ok (List.find (fun e => bool_decide (qe_quarantine_id e = quarantine_id)) entries))
       | Some (Err error) => Some (Err error)
       | None => None
       end).

Definition open_quarantine_parent (q : Queue) (entry : QuarantineEntry) : io (result (Z * bytes) IoError) :=
  let!? (dir_rel, name) := lift (ok_or (rsplit_once (qe_relative_path entry))
    (CustomError KInvalidData "invalid quarantine path")) in
  let!? fd := open_relative (root_fd (config q)) dir_rel in
  Ret (Ok (fd, name)).

(** [{phase:?}] *)
Definition unlink_phase_text (phase : UnlinkPhase) : string :=
  match phase with Unlink => "Unlink" | DirectoryFsync => "DirectoryFsync" end.

(** The removal once the object is found. *)
Definition remove_quarantine_entry (q : Queue) (entry : QuarantineEntry) : io (result bool IoError) :=
  let!? (dir_fd, name) := open_quarantine_parent q entry in
  let! r := unlink_verified dir_fd name in
  Ret (match r with
       | Ok _ => Ok true
       | Err UnlinkSourceMissing => Ok false
       | Err (UnlinkNotCommitted phase source) =>
           Err (CustomError (kind source) ("quarantine removal not committed at phase=" +:+ unlink_phase_text phase
                  +:+ ": " +:+ io_text source))
       | Err (UnlinkOutcomeUnknown phase source) =>
           Err (CustomError (kind source) ("quarantine removal outcome unknown at phase=" +:+ unlink_phase_text phase
                  +:+ ": " +:+ io_text source))
       end).
Definition remove_quarantine (fuel : nat) (q : Queue) (quarantine_id : bytes) : io (option (result bool IoError)) :=
  let! entry := find_quarantine fuel q quarantine_id in
  match entry with
  | Some (Ok (Some entry)) => let! r := remove_quarantine_entry q entry in Ret (Some r)
  | Some (Ok None) => Ret (Some (Ok false))
  | Some (Err error) => Ret (Some (Err error))
  | None => Ret None
  end.

End Quarantine.

(** ** What a publication moves *)

(** The rename a publication performs, without replacing anything. *)
Definition quarantine_rename (src_dir_fd : Z) (filename : bytes) (quarantine_dir : Z) (name : bytes) : Syscall :=
  SysRenameat2 src_dir_fd filename quarantine_dir name RENAME_NOREPLACE.

(** The name under which a publication may have placed the object. *)
Definition quarantined_as (r : result QuarantinePublication QuarantinePublishFailure) : option bytes :=
  match r with
  | Ok p => Some (qp_quarantine_name p)
  | Err (QfMove _ name (MoveOutcomeUnknown _ _) _) => Some name
  | Err _ => None
  end.

(** The reported name belongs to the reported identifier and reason, and the
    attempts stay within the limit. *)
Definition quarantine_report_wf (reason : QuarantineReason) (limit : Z)
    (r : result QuarantinePublication QuarantinePublishFailure) : Prop :=
  match r with
  | Ok p => qp_quarantine_name p = quarantine_filename (qp_quarantine_id p) (QuarantineReason_as_u16 reason) /\
      (1 <= qp_attempts_consumed p <= limit)%Z
  | Err f =>
      (0 <= QuarantinePublishFailure_attempts_consumed f <= limit)%Z /\
      match f with
      | QfMove id name _ attempts | QfCollisionExhausted attempts id name | QfBudgetExhausted attempts id name =>
          name = quarantine_filename id (QuarantineReason_as_u16 reason) /\ (1 <= attempts)%Z
      | QfPreparation _ _ _ => True
      end
  end.

Section QuarantineCounts.
Context {T : Texts} {sel : Syscall -> bool} `{!Placing sel}.

Lemma try_names_places later attempts limit d f reason qd next :
  silent sel next -> (1 <= attempts)%Z -> (attempts + Z.of_nat later = limit)%Z ->
  counts sel (try_quarantine_names later attempts limit d f reason qd next) (fun n r =>
    n = (if quarantined_as r is Some name then if sel (quarantine_rename d f qd name) then 1 else 0 else 0)%nat /\
    quarantine_report_wf reason limit r).
Proof.
  intros Hn. revert attempts. induction later as [|later IH]; intros attempts Ha Hl; cbn [try_quarantine_names];
    (apply counts_bind, counts_silent; [exact Hn|]); (intros [id|e]; [|apply counts_ret; cbn; (split; [done|]); lia]);
    cbv zeta; apply counts_bind; (eapply counts_mono; [apply move_places; silence|]);
    intros n [u|failure] ->; try (apply counts_ret; cbn; rewrite Nat.add_0_r; split; [done|]; split; [done|lia]);
    (destruct (quarantine_destination_collision failure) eqn:Hc;
      [|apply counts_ret; destruct failure; cbn in *; rewrite ?Nat.add_0_r; split; try done;
        try (by case_match); split; try done; lia]);
    destruct failure; try done; cbn [move_commits MoveFailure_is_outcome_unknown].
  - apply counts_ret. destruct (_ =? _)%Z; cbn; (split; [by case_match|]); split; try done; lia.
  - eapply counts_mono; [apply IH; lia|]. intros n r [-> Hr]. split; [by case_match|done].
Qed.

Lemma publish_quarantine_places d f reason limit next cx :
  (0 <= limit)%Z -> silent sel next ->
  runs sel (publish_quarantine_object_with_ids d f reason limit next) cx (fun n r cx' =>
    (exists qd, n = (if quarantined_as r is Some name then if sel (quarantine_rename d f qd name) then 1 else 0 else 0)%nat) /\
    quarantine_report_wf reason (Z.min limit QUARANTINE_NAME_ATTEMPTS) r /\ evolves cx cx').
Proof.
  intros Hl Hn. unfold publish_quarantine_object_with_ids. cbv zeta.
  assert (Hm : (0 <= Z.min limit QUARANTINE_NAME_ATTEMPTS)%Z) by (unfold QUARANTINE_NAME_ATTEMPTS; lia).
  destruct (_ =? _)%Z eqn:E; breflect.
  { apply runs_ret. split; [by exists 0%Z|]. split; [|done]. cbn. lia. }
  apply runs_or. eapply runs_keeps; [auto with keeps|]. intros [u|e] cx1 He1.
  2:{ split; [by exists 0%Z|]. split; [|done]. cbn. lia. }
  apply runs_bind, runs_gets. apply runs_or, runs_call_silent; [auto with silent|]. intros [qd|e].
  2:{ split; [by exists 0%Z|]. split; [|done]. cbn. lia. }
  apply runs_call. eapply counts_mono; [apply try_names_places; [exact Hn|lia..]|].
  intros n r [-> Hr]. split; [by exists qd|]. split; [|done]. exact Hr.
Qed.

End QuarantineCounts.

(** Placements other than the rename, from [d], of [f] to [name] without replacing. *)
Definition strays (d : Z) (f name : bytes) (c : Syscall) : bool :=
  match c with
  | SysRenameat2 d' f' _ name' flags =>
      negb ((d' =? d)%Z && bool_decide (f' = f) && bool_decide (name' = name) && (flags =? RENAME_NOREPLACE)%Z)
  | SysLinkat _ _ _ _ _ => true
  | _ => false
  end.
#[export] Instance strays_placing d f name : Placing (strays d f name).
Proof. by intros []. Qed.

(** A quarantine is reported as it happened, and overwrites nothing.
    In every execution of [publish_quarantine_object] the object was moved
    exactly once if the publication is reported as done or indeterminate, and
    not at all otherwise; the only placement is the non-replacing rename of
    this object to the reported name; that name carries the reported
    identifier and reason; and at most eight names were tried. *)
Theorem quarantine_publication_truthful {T : Texts} d f reason cx tr r cx' :
  exec (publish_quarantine_object d f reason cx) tr (r, cx') ->
  tally places tr = (if quarantined_as r is Some _ then 1 else 0)%nat /\
  (forall name, quarantined_as r = Some name -> tally (strays d f name) tr = 0%nat) /\
  quarantine_report_wf reason QUARANTINE_NAME_ATTEMPTS r /\ evolves cx cx'.
Proof.
  intros Hx.
  assert (Hs : forall sel, Placing sel -> silent sel random_128bit) by (intros; auto with silent).
  pose proof (publish_quarantine_places (sel := places) d f reason QUARANTINE_NAME_ATTEMPTS random_128bit cx
    ltac:(done) (Hs _ _) tr _ Hx) as ([qd Hn] & Hw & He).
  split; [exact Hn|]. split; [|done]. intros name Hname.
  destruct (publish_quarantine_places (sel := strays d f name) d f reason QUARANTINE_NAME_ATTEMPTS random_128bit cx
    ltac:(done) (Hs _ _) tr _ Hx) as ([qd' ->] & _). cbn [fst]. rewrite Hname. unfold quarantine_rename, strays.
  by rewrite !Z.eqb_refl, !bool_decide_true.
Qed.

(** ** Administration *)

Section Administration.
Context {T : Texts} {sel : Syscall -> bool} `{!Acting sel}.

Lemma silent_collect_entries fuel s d rel descend out :
  (forall g, descend = Some g -> forall fd p o, silent sel (g fd p o)) ->
  silent sel (collect_entries fuel s d rel descend out).
Proof.
  intros Hd. revert s out. induction fuel as [|fuel IH]; intros s out; cbn [collect_entries]; [silence|].
  apply silent_bind; [auto with silent|]. intros [[[[entry|]|e]|] s']; silence. by apply Hd.
Qed.
Lemma silent_collect fuel depth d rel out : silent sel (collect_quarantine_entries fuel depth d rel out).
Proof.
  revert d rel out. induction depth as [|depth IH]; intros d rel out; cbn [collect_quarantine_entries]; silence;
    apply silent_collect_entries; [done|]. intros g [= <-]. apply IH.
Qed.
Lemma silent_list_quarantine fuel q : silent sel (list_quarantine fuel q).
Proof. unfold list_quarantine. silence. apply silent_collect. Qed.
Lemma silent_find_quarantine fuel q id : silent sel (find_quarantine fuel q id).
Proof. unfold find_quarantine. silence. apply silent_list_quarantine. Qed.

End Administration.

(** Looking up the parent directory of an entry changes nothing. *)
Lemma silent_open_parent {sel : Syscall -> bool} `{!Acting sel} {T : Texts} q e : silent sel (open_quarantine_parent q e).
Proof. unfold open_quarantine_parent. silence. Qed.

(** ** A sample publication *)

Definition quarantine_sample : Queue := set_known_dirs {[ lit "quarantine" ]} sample_queue.
Definition sample_quarantine_run :=
  run (sample_disk []) tt (@publish_quarantine_object sample_texts 9 (lit "bad.sqj") QEnvelopeCorrupt
    (mkCtx quarantine_sample None)).
Lemma quarantine_publication_truthful_witness :
  quarantined_as sample_quarantine_run.1.2.1 = Some (quarantine_filename (replicate 16 x5a) 1) /\
  tally (strays 9 (lit "bad.sqj") (quarantine_filename (replicate 16 x5a) 1)) sample_quarantine_run.1.1 = 0%nat.
Proof.
  assert (Hout : quarantined_as sample_quarantine_run.1.2.1 = Some (quarantine_filename (replicate 16 x5a) 1))
    by (vm_compute; reflexivity).
  split; [exact Hout|].
  apply (@quarantine_publication_truthful sample_texts 9 (lit "bad.sqj") QEnvelopeCorrupt (mkCtx quarantine_sample None)
    sample_quarantine_run.1.1 sample_quarantine_run.1.2.1 sample_quarantine_run.1.2.2); [|exact Hout].
  unfold sample_quarantine_run. apply exec_run_pair.
Defined.
