(* ===== verification/Lease.v ===== *)
(** * Leasing

    Models [crates/steadq-core/src/queue/lease.rs]: the scan of the ready
    shards, the claim of a job with its ticket, the checks and the payload
    verification before delivery, the dead-lettering of exhausted jobs, the
    quarantine of corrupt ones, and the bounded wait around the scan.

    The scan reads directories until they end and the wait repeats the scan, so
    both take fuel; [None] means it ran out.  The loop bodies return [Ok] with
    the scan's state to continue and [Err] with an outcome to return. *)
From stdpp Require Import base numbers list option strings gmap.
From Stdlib Require Import Strings.Byte ZArith.
From S2P Require Import Prelude Math Names Format Cbor FsLinux FsRead FsDir StateMachine Ticket Layout Engine Logic Verified Queue Watermark Publish Resolve Consumer Quarantine.
Open Scope string_scope.
Open Scope list_scope.

(** [str::ends_with] *)
Definition ends_with (suffix name : bytes) : bool :=
  bool_decide (drop (length name - length suffix) name = suffix).

(** [S_IFMT] and [S_IFREG] *)
Definition corrupt_ready_reason (st : Stat) : QuarantineReason :=
  if negb (is_regular st) then QNonRegularFile
  else if negb (st_nlink st =? 1)%Z then QUnexpectedHardLink
  else QEnvelopeCorrupt.

Inductive DeadLetterFailure : Type :=
| DeadInvalid (e : Error)
| DeadMove (f : MoveFailure).

(** What a scan has observed: a failure that makes "empty" untrue, and the
    wall floor once it was read. *)
Record ScanState : Type := mkScanState { scan_had_error : bool; scan_floor : option WallFloor }.
Definition with_error (st : ScanState) : ScanState := mkScanState true (scan_floor st).
Definition with_floor (floor : WallFloor) (st : ScanState) : ScanState := mkScanState (scan_had_error st) (Some floor).

(** The outcome of a lease and, when it is [Leased], the payload reader. *)
Definition Claimed : Type := LeaseOutcome * option VerifiedPayloadReader.

Section Lease.
Context `{Sha256} {T : Texts}.

Definition refuse {A : Type} (e : Error) : result A Claimed := Err (LeaseNotCommitted e, None).
Definition refuse_io {A : Type} (e : IoError) : result A Claimed := refuse (Error_of_io e).
Definition indeterminate {A : Type} (ticket : TransitionTicket) (phase : TransitionPhase) : op (result A Claimed) :=
  let* _ := poison PostLinearizationStateUnknown in
  op_ret (Err (LeaseOutcomeUnknown (with_phase ticket phase), None)).
(** [continue], with or without noting an error. *)
Definition continue (st : ScanState) : op (result ScanState Claimed) := op_ret (Ok st).

(** ** Checks on the claimed object *)

(** [.ok()?]: an error of the call is [None]. *)
Definition or_none {A E : Type} (m : io (result A E)) : io (result A unit) := io_map_err (fun _ => tt) m.
Definition require (b : bool) : result unit unit := if b then Ok tt else Err tt.

(** [None] is [Err tt]. *)
Definition validate_claimed_object (q : Queue) (file size : Z) (common : CommonFields)
  : io (result (FixedHeader * bytes) unit) :=
  let!? header_buf := or_none (pread_exact file 128 0) in
  let!? header := or_none (lift (FixedHeader_decode header_buf)) in
  let!? _ := lift (require (bool_decide (fh_job_id header = cf_job_id common) &&
                            (fh_maximum_attempts header =? cf_maximum_attempts common)%Z)) in
  let ext_len := fh_extension_header_length header in
  let!? _ := lift (require (negb (is_extension_too_large ext_len))) in
  let!? ext_buf := or_none (pread_exact file (Z.to_nat ext_len) 128) in
  let!? _ := lift (require (verify_envelope_digest header ext_buf)) in
  let!? total := or_none (lift (checked_total_size ext_len (fh_payload_length header))) in
  let!? _ := lift (require (total =? size)%Z) in
  let!? _ := lift (require (payload_length_is_valid (fh_payload_length header)
                              (fr_max_payload_length (format (config q))))) in
  if is_extension_present ext_len then
    let!? ext := or_none (lift (ExtensionHeader_decode ext_buf)) in
    Ret (Ok (header, content_type ext))
  else Ret (Ok (header, [])).

Definition claim_transition_ticket (q : Queue) (source : CommonFields) (lease_token : bytes)
    (evidence : TicketEvidence) (boottime_deadline_ns wall_deadline_ns : Z) : result TransitionTicket Error :=
  TransitionTicket_new (queue_id q) TClaim Linearized
    (mkTicketIdentity (cf_job_id source) (cf_generation source) (cf_attempt source) (cf_maximum_attempts source)
       lease_token evidence)
    SrcReady (DstLeased (boot_id (config q)) boottime_deadline_ns wall_deadline_ns).

Definition read_claim_ticket_evidence (file_fd : Z) (expected_job_id : bytes) (expected_maximum_attempts : Z)
  : io (result TicketEvidence Error) :=
  let!? verified := io_map_err Error_from_verification (verify_envelope_on_fd file_fd) in
  let header := vj_header verified in
  if negb (bool_decide (fh_job_id header = expected_job_id)) then Ret (Err (QueueCorrupt "header job_id mismatch"))
  else if negb (fh_maximum_attempts header =? expected_maximum_attempts)%Z
  then Ret (Err (QueueCorrupt "header maximum_attempts mismatch"))
  else Ret (Ok (mkTicketEvidence (fh_envelope_digest header) (fh_payload_length header))).

Definition open_claim_source (directory_fd : Z) (name expected_job_id : bytes) (expected_maximum_attempts : Z)
  : io (result (option ClaimSourceWitness) Error) :=
  let! file := openat directory_fd name resolver_file_open_flags 0 in
  match file with
  | Err error => Ret (if os_error_in [ENOENT] error then Ok None else Err (Error_of_io error))
  | Ok file =>
      let!? stat := io_map_err Error_of_io (fstat file) in
      if negb (is_singly_linked_regular stat)
      then Ret (Err (QueueCorrupt "ready source is not a singly-linked regular file"))
      else
        let!? evidence := read_claim_ticket_evidence file expected_job_id expected_maximum_attempts in
        Ret (Ok (Some (mkClaimSourceWitness file (st_dev stat) (st_ino stat) evidence)))
  end.

(** ** Exhausted jobs *)

Definition dead_not_committed (phase : MovePhase) (source : IoError) : result unit DeadLetterFailure :=
  Err (DeadMove (MoveNotCommitted phase source)).

Definition move_to_dead (ready_dir ready_name : bytes) (common : CommonFields) (reason : DeadReason)
    (wall_floor : WallFloor) : op (result unit DeadLetterFailure) :=
  let invalid e := Err (DeadInvalid e) in
  let* q := gets id in
  let*? terminal_bucket := op_ret (ok_or (bucket_number (unix_ns wall_floor) (terminal_width q)) StateExhausted)
    else invalid in
  let*? dead_common := op_ret (next_identity OpExhaustedReadyCleanup common) else invalid in
  let target := Layout_dead_in_bucket (layout q) dead_common (DeadReason_as_u16 reason) terminal_bucket in
  let dead_dir := directory target in
  let*? _ := ensure_dir dead_dir else dead_not_committed EnsureDest in
  let*? dead_dir_fd := call (open_relative (root_fd (config q)) dead_dir) else dead_not_committed EnsureDest in
  let*? ready_dir_fd := call (open_relative (root_fd (config q)) ready_dir) else dead_not_committed PreRename in
  let* moved := call (move_verified_noreplace ready_dir_fd ready_name dead_dir_fd (filename target)) in
  op_ret (match moved with
          | Ok _ | Err MoveSourceMissing => Ok tt
          | Err failure => Err (DeadMove failure)
          end).

(** What the scan does about the outcome of the dead-letter move: [Ok] is [continue]. *)
Definition settle_dead_letter (moved : result unit DeadLetterFailure) : op (result unit Claimed) :=
  match moved with
  | Ok _ => op_ret (Ok tt)
  | Err (DeadInvalid error) => op_ret (refuse error)
  | Err (DeadMove MoveSourceMissing) => op_ret (Ok tt)
  | Err (DeadMove MoveAlreadyExists) =>
      let* _ := poison InternalInvariantViolation in
      op_ret (refuse IdentityCollision)
  | Err (DeadMove (MoveNotCommitted phase source)) =>
      op_ret (refuse (match Error_of_io source with
                      | IoFailure message =>
                          IoFailure ("dead-letter move failed at " +:+ move_phase_text phase +:+ ": " +:+ message)
                      | classified => classified
                      end))
  | Err (DeadMove (MoveOutcomeUnknown phase source)) =>
      let* _ := poison PostLinearizationStateUnknown in
      op_ret (refuse (IoFailure ("dead-letter move indeterminate at " +:+ move_phase_text phase +:+ ": "
                                   +:+ io_text source)))
  end.

(** The floor read once per scan. *)
Definition floor_of_scan (st : ScanState) : op (result WallFloor Error) :=
  match scan_floor st with
  | Some floor => op_ret (Ok floor)
  | None => wall_floor_for_mutation
  end.

(** ** Corrupt jobs *)

Definition set_aside_corrupt (shard_fd : Z) (entry : bytes) (st : ScanState) : op (result ScanState Claimed) :=
  let* stat := call (fstatat shard_fd entry) in
  let reason := match stat with Ok stat => corrupt_ready_reason stat | Err _ => QEnvelopeCorrupt end in
  let* published := publish_quarantine_object shard_fd entry reason in
  match published with
  | Ok _ | Err (QfMove _ _ MoveSourceMissing _) => continue st
  | Err (QfMove _ _ (MoveOutcomeUnknown phase source) _) =>
      let* _ := poison PostLinearizationStateUnknown in
      op_ret (refuse (IoFailure ("corrupt ready object quarantine indeterminate at " +:+ move_phase_text phase
                                   +:+ ": " +:+ io_text source)))
  | Err _ => continue (with_error st)
  end.

(** ** The claim *)

(** A job about to be claimed: where it was found, what its name says, and
    the lease it would become. *)
Record Candidate : Type := mkCandidate {
  ca_shard_fd : Z;
  ca_entry : bytes;
  ca_common : CommonFields;
  ca_token : bytes;
  ca_boottime_deadline : Z;
  ca_wall_deadline : Z;
  ca_leased_common : CommonFields;
  ca_target : Target;
  ca_leased_dir_fd : Z
}.

(** The callback after the rename: the evidence is read again and the ticket
    the caller holds is replaced. *)
Definition refresh_ticket (q : Queue) (c : Candidate) (source : ClaimSourceWitness) (claim_ticket : TransitionTicket)
    (moved : option MovedObject) : io (result MovedObject IoError * TransitionTicket) :=
  let! evidence := read_claim_ticket_evidence (cw_file_fd source) (cf_job_id (ca_common c))
    (cf_maximum_attempts (ca_common c)) in
  Ret (match evidence with
       | Err error => (Err (CustomError KOther (Error_fmt error)), claim_ticket)
       | Ok evidence =>
           match claim_transition_ticket q (ca_common c) (ca_token c) evidence (ca_boottime_deadline c)
                   (ca_wall_deadline c) with
           | Err error => (Err (CustomError KOther (Error_fmt error)), claim_ticket)
           | Ok ticket => (Ok (expect_moved moved), ticket)
           end
       end).

(** The rename with its durability, and the ticket it leaves. *)
Definition claim_rename (q : Queue) (c : Candidate) (source : ClaimSourceWitness) (claim_ticket : TransitionTicket)
    (durability : DirectoryDurability) : io (result MovedObject MoveFailure * TransitionTicket) :=
  move_noreplace_capturing (ca_shard_fd c) (ca_entry c) (ca_leased_dir_fd c) (filename (ca_target c))
    (mkMoveOptions (Some (mkMoveIdentity (cw_device source) (cw_inode source))) durability) claim_ticket
    (refresh_ticket q c source claim_ticket).

(** A payload that does not match its digest is quarantined, not delivered. *)
Definition reject_payload (c : Candidate) (source : ClaimSourceWitness) (claim_ticket : TransitionTicket) (e : Error)
  : op (result ScanState Claimed) :=
  match e with
  | PayloadCorrupt =>
      let* moved := quarantine_corrupt_lease (ca_leased_dir_fd c) (filename (ca_target c)) (cw_file_fd source) in
      match moved with
      | Ok _ => op_ret (refuse PayloadCorrupt)
      | Err failure =>
          indeterminate claim_ticket (match MoveFailure_phase failure with
                                      | None => SourceDirectoryDurable
                                      | Some phase => ticket_phase_for_move_outcome_unknown phase
                                      end)
      end
  | _ => indeterminate claim_ticket SourceDirectoryDurable
  end.

Definition claimed_lease (q : Queue) (c : Candidate) (header : FixedHeader) (content_type : bytes) (moved : MovedObject)
  : LeaseInfo :=
  mkLeaseInfo (cf_job_id (ca_common c)) (fh_envelope_digest header) (cf_generation (ca_leased_common c))
    (cf_attempt (ca_leased_common c)) (cf_maximum_attempts (ca_common c)) (ca_token c) (boot_id (config q))
    (ca_boottime_deadline c) (ca_wall_deadline c) content_type (fh_payload_length header) (fh_payload_digest header)
    (mo_device moved) (mo_inode moved) (directory (ca_target c) ++ lit "/" ++ filename (ca_target c)).

(** After the claim is committed: nothing here may read as "empty". *)
Definition deliver (c : Candidate) (source : ClaimSourceWitness) (claim_ticket : TransitionTicket) (moved : MovedObject)
  : op (result ScanState Claimed) :=
  let* q := gets id in
  let* validated := call (validate_claimed_object q (cw_file_fd source) (mo_size moved) (ca_common c)) in
  match validated with
  | Err _ => indeterminate claim_ticket SourceDirectoryDurable
  | Ok (header, content_type) =>
      let* verified := call (verify_payload_on_fd (cw_file_fd source)) in
      match verified with
      | Err e => reject_payload c source claim_ticket e
      | Ok _ =>
          op_ret (Err (LeaseLeased (claimed_lease q c header content_type moved),
                       Some (payload_reader (cw_file_fd source) header)))
      end
  end.

(** The outcome of the rename. *)
Definition settle_claim (c : Candidate) (source : ClaimSourceWitness) (claim_ticket : TransitionTicket)
    (moved : result MovedObject MoveFailure) (st : ScanState) : op (result ScanState Claimed) :=
  match moved with
  | Ok moved => deliver c source claim_ticket moved
  | Err MoveSourceMissing => continue st
  | Err (MoveOutcomeUnknown phase _) => indeterminate claim_ticket (ticket_phase_for_move_outcome_unknown phase)
  | Err (MoveNotCommitted _ error) =>
      match Error_of_io error with
      | ResourceExhausted => op_ret (refuse ResourceExhausted)
      | _ => continue (with_error st)
      end
  | Err MoveAlreadyExists => continue (with_error st)
  end.

(** Deferred when a dirty set was passed: both directories are recorded
    before anything else happens. *)
Definition perform_claim (c : Candidate) (source : ClaimSourceWitness) (claim_ticket : TransitionTicket)
    (st : ScanState) : op (result ScanState Claimed) :=
  let* q := gets id in
  by_dirty
    (let* (moved, claim_ticket) := call (claim_rename q c source claim_ticket Deferred) in
     match moved with
     | Ok _ =>
         let* r1 := record_arg (ca_shard_fd c) in
         let* r2 := (match r1 with Ok _ => record_arg (ca_leased_dir_fd c) | Err e => op_ret (Err e) end) in
         match r2 with
         | Ok _ => settle_claim c source claim_ticket moved st
         | Err _ => indeterminate claim_ticket DestinationDirectoryDurable
         end
     | Err _ => settle_claim c source claim_ticket moved st
     end)
    (let* (moved, claim_ticket) := call (claim_rename q c source claim_ticket Strict) in
     settle_claim c source claim_ticket moved st).

(** From the opened leased directory on. *)
Definition claim_in (c : Candidate) (st : ScanState) : op (result ScanState Claimed) :=
  let* source := call (open_claim_source (ca_shard_fd c) (ca_entry c) (cf_job_id (ca_common c))
    (cf_maximum_attempts (ca_common c))) in
  match source with
  | Ok None => continue st
  | Err (IoFailure _) => continue (with_error st)
  | Err (QueueCorrupt _) => set_aside_corrupt (ca_shard_fd c) (ca_entry c) st
  | Err error => op_ret (refuse error)
  | Ok (Some source) =>
      let* q := gets id in
      let*? claim_ticket := op_ret (claim_transition_ticket q (ca_common c) (ca_token c) (cw_evidence source)
        (ca_boottime_deadline c) (ca_wall_deadline c)) else refuse in
      let* observed := call (observe_witness_path (ca_shard_fd c) (ca_entry c) (cw_device source) (cw_inode source)) in
      match observed with
      | Ok ObsMatch => perform_claim c source claim_ticket st
      | Ok ObsGone => continue st
      | Ok ObsMismatch => op_ret (refuse (QueueCorrupt "ready source identity changed before claim"))
      | Err _ => continue (with_error st)
      end
  end.

(** From the lease token on: the deadlines, the next identity, the target and
    its directory. *)
Definition claim_as (shard_fd : Z) (entry : bytes) (common : CommonFields) (lease_duration_ns boottime_claim wall_claim : Z)
    (lease_token : bytes) (st : ScanState) : op (result ScanState Claimed) :=
  match u64_checked_add boottime_claim lease_duration_ns, u64_checked_add wall_claim lease_duration_ns,
        next_identity OpClaim common with
  | Some boottime_deadline, Some wall_deadline, Ok leased_common =>
      let* q := gets id in
      match Layout_leased_for_boot (layout q) leased_common (boot_id (config q)) boottime_deadline wall_deadline
              lease_token with
      | Err _ => continue (with_error st)
      | Ok target =>
          let* ensured := ensure_dir_with_dirty (directory target) in
          match ensured with
          | Err e =>
              match Error_of_io e with
              | ResourceExhausted => op_ret (refuse ResourceExhausted)
              | _ => continue (with_error st)
              end
          | Ok _ =>
              let* opened := call (open_relative (root_fd (config q)) (directory target)) in
              match opened with
              | Ok leased_dir_fd =>
                  claim_in (mkCandidate shard_fd entry common lease_token boottime_deadline wall_deadline
                              leased_common target leased_dir_fd) st
              | Err error =>
                  match classify_lease_directory_open_failure error with
                  | LeaseDirGone => continue st
                  | LeaseDirInvalid | LeaseDirIo => continue (with_error st)
                  end
              end
          end
      end
  | _, _, _ => continue st
  end.

(** ** The scan *)

(** The ready name an entry is, when it belongs in this shard. *)
Definition recognise_entry (q : Queue) (shard : Z) (entry : bytes) : option ReadyName :=
  if negb (ends_with (lit ".sqj") entry) then None
  else
    match parse_ready entry with
    | Err _ => None
    | Ok parsed =>
        if negb (ReadyName_authenticate_tag parsed (queue_id q) (shard_hex shard)) then None
        else if negb (compute_shard (queue_id q) (cf_job_id (rn_common parsed)) (shard_count q) =? shard)%Z then None
        else Some parsed
    end.

(** The body of the loop over entries. *)
Definition consider_entry (lease_duration_ns shard shard_fd : Z) (ready_dir raw : bytes) (st : ScanState)
  : op (result ScanState Claimed) :=
  match as_ascii_str raw with
  | None => continue (with_error st)
  | Some entry =>
      let* q := gets id in
      match recognise_entry q shard entry with
      | None => continue st
      | Some parsed =>
          let common := rn_common parsed in
          if (cf_maximum_attempts common <=? cf_attempt common)%Z then
            let*? floor := floor_of_scan st else refuse in
            let st := with_floor floor st in
            let* moved := move_to_dead ready_dir entry common DeadAttemptsExhausted floor in
            let*? _ := settle_dead_letter moved else Err in
            continue st
          else
            let*? boottime_claim := call clock_boottime_ns else refuse_io in
            let*? floor := floor_of_scan st else refuse in
            let st := with_floor floor st in
            let*? lease_token := call random_128bit else refuse_io in
            claim_as shard_fd entry common lease_duration_ns boottime_claim (unix_ns floor) lease_token st
      end
  end.

Fixpoint scan_entries (fuel : nat) (lease_duration_ns shard shard_fd : Z) (ready_dir : bytes) (entries : DirectoryStream)
    (st : ScanState) : op (option (result ScanState Claimed)) :=
  match fuel with
  | O => op_ret None
  | S fuel' =>
      let* (entry, entries) := call (next_entry fuel entries) in
      match entry with
      | None => op_ret None
      | Some (Ok None) => op_ret (Some (Ok st))
      | Some (Err _) => op_ret (Some (Ok (with_error st)))
      | Some (Ok (Some entry)) =>
          let* r := consider_entry lease_duration_ns shard shard_fd ready_dir entry st in
          match r with
          | Ok st => scan_entries fuel' lease_duration_ns shard shard_fd ready_dir entries st
          | Err claimed => op_ret (Some (Err claimed))
          end
      end
  end.

Definition scan_shard (fuel : nat) (lease_duration_ns shard : Z) (st : ScanState) : op (option (result ScanState Claimed)) :=
  let ready_dir := ready_shard_dir shard in
  let* root := gets (fun q => root_fd (config q)) in
  let* opened := call (open_relative root ready_dir) in
  match opened with
  | Err _ => op_ret (Some (Ok (with_error st)))
  | Ok shard_fd =>
      let* entries := call (DirectoryStream_open shard_fd) in
      match entries with
      | Err _ => op_ret (Some (Ok (with_error st)))
      | Ok entries => scan_entries fuel lease_duration_ns shard shard_fd ready_dir entries st
      end
  end.

Fixpoint scan_shards (fuel : nat) (lease_duration_ns : Z) (order : list Z) (st : ScanState)
  : op (option (result ScanState Claimed)) :=
  match order with
  | [] => op_ret (Some (Ok st))
  | shard :: order' =>
      let* r := scan_shard fuel lease_duration_ns shard st in
      match r with
      | Some (Ok st) => scan_shards fuel lease_duration_ns order' st
      | r => op_ret r
      end
  end.

Definition scan_order (start stride count : Z) : list Z := map (fun i => shard_at start stride i count) (shards count).

(** Taking the hint and advancing the round. *)
Definition next_scan : op (list Z) :=
  let* q := gets id in
  let (scheduled_start, stride) :=
    shard_scan_params (queue_id q) (q_boot_id_bytes (config q)) (worker_nonce (config q)) (scan_round q) (shard_count q) in
  let* _ := modify (fun q => set_scan_round (wrap64 (scan_round q + 1)) q) in
  let start := default scheduled_start (ready_shard_hint q) in
  let* _ := modify (set_ready_shard_hint None) in
  op_ret (scan_order start stride (shard_count q)).

Definition lease_once_with_dirty (fuel : nat) (lease_duration_ns : Z) : op (option Claimed) :=
  let*? _ := check_not_poisoned else (fun e => Some (LeaseNotCommitted e, None)) in
  if negb (lease_duration_is_valid lease_duration_ns)
  then op_ret (Some (LeaseNotCommitted (InvalidInput "lease duration must be 1s to 7d"), None))
  else
    let* order := next_scan in
    let* r := scan_shards fuel lease_duration_ns order (mkScanState false None) in
    op_ret (match r with
            | None => None
            | Some (Err claimed) => Some claimed
            | Some (Ok st) =>
                Some (if scan_had_error st then LeaseNotCommitted (IoFailure "scan completed with errors") else LeaseEmpty,
                      None)
            end).

(** ** The bounded wait *)

(** [Path::join] with a relative path. *)
Definition path_join (base relative : bytes) : bytes :=
  if bool_decide (last base = Some "/"%byte) || (length base =? 0)%nat then base ++ relative
  else base ++ lit "/" ++ relative.

Fixpoint watch_shards (fd : Z) (ready : bytes) (l : list Z) : io bool :=
  match l with
  | [] => Ret true
  | shard :: l' =>
      let! r := add_appear_watch fd (path_join ready (shard_hex shard)) in
      match r with Ok _ => watch_shards fd ready l' | Err _ => Ret false end
  end.

Definition ensure_ready_watch : op unit :=
  let* attempted := gets ready_watch_attempted in
  if (attempted : bool) then op_ret tt
  else
    let* _ := modify (set_ready_watch_attempted true) in
    let* fd := call inotify_init in
    match fd with
    | Err _ => op_ret tt
    | Ok fd =>
        let* q := gets id in
        let* watching := call (watch_shards fd (path_join (root_path (config q)) (lit "ready")) (shards (shard_count q))) in
        if (watching : bool) then modify (set_ready_watch (Some fd)) else op_ret tt
    end.

(** [Instant::now] and [thread::sleep] *)
Definition instant_now : io Z :=
  Sys (SysClockGettime CLOCK_MONOTONIC) (fun r => Ret (timespec_ns (times_of r).1 (times_of r).2)).
Definition thread_sleep (ns : Z) : io unit := Sys (SysNanosleep ns) (fun _ => Ret tt).

(** One nap: an event in a ready shard may cut it short. *)
Definition nap_once (fuel : nat) (nap : Z) : op (option unit) :=
  let* watch := gets ready_watch in
  match watch with
  | Some fd =>
      let* r := call (wait_readable fuel fd nap) in
      match r with
      | None => op_ret None
      | Some (Ok _) => op_ret (Some tt)
      | Some (Err _) =>
          let* _ := modify (set_ready_watch None) in
          let* _ := call (thread_sleep nap) in
          op_ret (Some tt)
      end
  | None =>
      let* _ := ensure_ready_watch in
      let* _ := call (thread_sleep nap) in
      op_ret (Some tt)
  end.

Definition MAX_BACKOFF_NS : Z := 10000000.
Definition FIRST_BACKOFF_NS : Z := 50000.

Definition is_retryable (o : LeaseOutcome) : bool :=
  match o with LeaseEmpty | LeaseNotCommitted MaintenanceBusy => true | _ => false end.

Fixpoint lease_rounds (fuel : nat) (max_wait_ns lease_duration_ns started backoff : Z) : op (option Claimed) :=
  match fuel with
  | O => op_ret None
  | S fuel' =>
      let* r := lease_once_with_dirty fuel lease_duration_ns in
      match r with
      | None => op_ret None
      | Some claimed =>
          if (max_wait_ns =? 0)%Z || negb (is_retryable claimed.1) then op_ret (Some claimed)
          else
            let* now := call instant_now in
            let elapsed := Z.max 0 (now - started) in
            if (max_wait_ns <=? elapsed)%Z then op_ret (Some claimed)
            else
              let nap := Z.min backoff (Z.max 0 (max_wait_ns - elapsed)) in
              let* napped := nap_once fuel nap in
              match napped with
              | None => op_ret None
              | Some _ =>
                  lease_rounds fuel' max_wait_ns lease_duration_ns started (Z.min (backoff * 2) MAX_BACKOFF_NS)
              end
      end
  end.
Definition lease_inner_with_dirty (fuel : nat) (max_wait_ns lease_duration_ns : Z) : op (option Claimed) :=
  let* started := call instant_now in
  lease_rounds fuel max_wait_ns lease_duration_ns started FIRST_BACKOFF_NS.

Definition lease_with_payload (fuel : nat) (max_wait_ns lease_duration_ns : Z) : Queue -> io (option Claimed * Queue) :=
  strictly (lease_inner_with_dirty fuel max_wait_ns lease_duration_ns).
Definition lease (fuel : nat) (max_wait_ns lease_duration_ns : Z) (q : Queue) : io (option LeaseOutcome * Queue) :=
  let! x := lease_with_payload fuel max_wait_ns lease_duration_ns q in
  Ret (option_map fst x.1, x.2).

End Lease.

(** ** Which placements claim a job *)

(** A placement under the name of a lease. *)
Definition claims (c : Syscall) : bool :=
  match placed_name c with Some name => is_ok (parse_leased name) | None => false end.
(** A claim other than the rename of [src] to [dst] that replaces nothing. *)
Definition claims_other (src dst : bytes) (c : Syscall) : bool :=
  claims c && negb (match c with
                    | SysRenameat2 _ n _ m flags =>
                        bool_decide (n = src) && bool_decide (m = dst) && (flags =? RENAME_NOREPLACE)%Z
                    | _ => false
                    end).

Class Claiming (sel : Syscall -> bool) : Prop := claiming c : sel c = true -> claims c = true.
#[export] Instance claims_claiming : Claiming claims.
Proof. by intros c. Qed.
#[export] Instance claims_other_claiming src dst : Claiming (claims_other src dst).
Proof. intros c. unfold claims_other. by destruct (claims c). Qed.
#[export] Instance claiming_placing sel : Claiming sel -> Placing sel.
Proof. intros Hc c Hs%Hc. by destruct c. Qed.

Definition unclaimed (tr : list event) : Prop := forall sel, Claiming sel -> tally sel tr = 0%nat.
(** The trace claims exactly once, by renaming [src] to [dst]. *)
Definition claimed_once (src dst : bytes) (tr : list event) : Prop :=
  tally claims tr = 1%nat /\ tally (claims_other src dst) tr = 0%nat.

Lemma unclaimed_nil : unclaimed [].
Proof. by intros sel _. Qed.
Lemma unclaimed_app t1 t2 : unclaimed t1 -> unclaimed t2 -> unclaimed (t1 ++ t2).
Proof. intros H1 H2 sel Hs. by rewrite tally_app, H1, H2. Qed.
Lemma claimed_before src dst t1 t2 : unclaimed t1 -> claimed_once src dst t2 -> claimed_once src dst (t1 ++ t2).
Proof. intros H1 [H2 H3]. split; rewrite tally_app, H1 by apply _; by cbn. Qed.
Lemma claimed_after src dst t1 t2 : claimed_once src dst t1 -> unclaimed t2 -> claimed_once src dst (t1 ++ t2).
Proof. intros [H2 H3] H1. split; rewrite tally_app, (H1 _ _); by rewrite Nat.add_0_r. Qed.

(** Names of dead and quarantined objects are not names of leases. *)
Lemma dead_not_leased name n : parse_dead name = Ok n -> is_ok (parse_leased name) = false.
Proof.
  intros Hd. destruct (parse_leased name) as [l|e] eqn:Hl; [|done].
  enough (Leased = Dead) by done. apply (name_kinds_unique name); unfold name_kinds; rewrite Hd, Hl; cbn [is_ok];
    rewrite !in_app_iff; cbn [In]; tauto.
Qed.
Lemma quarantine_not_leased id reason : is_ok (parse_leased (quarantine_filename id reason)) = false.
Proof.
  destruct (parse_leased _) as [l|e] eqn:Hl; [|done]. apply parse_leased_iff in Hl as [_ Hl]. rewrite leased_filename_parts in Hl.
  unfold quarantine_filename in Hl. rewrite !app_assoc in Hl.
  apply app_inj_2 in Hl as [_ Hl]; done.
Qed.

Lemma next_identity_wf op c c' :
  td_source (transition op) <> StHidden -> CommonFields_wf c -> next_identity op c = Ok c' -> CommonFields_wf c'.
Proof.
  intros Hs Hc Hn. unfold next_identity in Hn. destruct (next_common_fields op c) as [d|e] eqn:E; [|done].
  injection Hn as <-. apply next_common_fields_ok in E as (Hg & Ha & ->); [|done].
  unfold CommonFields_wf, is_u64, is_u32, u64_max, u32_max in *. cbn.
  case_bool_decide as Ho; [specialize (Ha Ho)|]; split_and!; lia.
Qed.

(** ** The pieces of a scan *)

Section Pieces.
Context `{Sha256Spec} {T : Texts}.

(** A method that claims nothing, whatever it moves. *)
Definition claims_nothing {A : Type} (m : op A) (cx : Ctx) : Prop :=
  forall sel, Claiming sel -> runs sel m cx (fun n _ cx' => n = 0%nat /\ evolves cx cx').

Lemma traces_nothing {A} (m : op A) cx (Q : list event -> A -> Ctx -> Prop) :
  claims_nothing m cx -> (forall tr a cx', unclaimed tr -> evolves cx cx' -> Q tr a cx') -> traces m cx Q.
Proof.
  intros Hm HQ tr [a cx'] Hx. apply HQ.
  - intros sel Hs. by apply (Hm sel Hs tr _ Hx).
  - apply (Hm claims _ tr _ Hx).
Qed.
Lemma calm_nothing {A} (m : op A) cx : calm m -> claims_nothing m cx.
Proof. intros Hm sel Hs. apply (Hm sel _ cx). Qed.
Lemma traces_calm {A} (m : op A) cx (Q : list event -> A -> Ctx -> Prop) :
  calm m -> (forall tr a cx', unclaimed tr -> evolves cx cx' -> Q tr a cx') -> traces m cx Q.
Proof. intros Hm. apply traces_nothing. by apply calm_nothing. Qed.
Lemma traces_silent {A} (p : io A) cx (Q : list event -> A -> Ctx -> Prop) :
  (forall sel, Placing sel -> silent sel p) -> (forall tr a, unclaimed tr -> exec p tr a -> Q tr a cx) ->
  traces (call p) cx Q.
Proof. intros Hp HQ. apply traces_call. intros tr a Hx. apply HQ; [|done]. intros sel Hs. by apply (Hp sel _ tr a). Qed.

Lemma claiming_false {sel} `{!Claiming sel} c : claims c = false -> sel c = false.
Proof. intros Hc. destruct (sel c) eqn:E; [|done]. by rewrite (claiming c E) in Hc. Qed.

(** Dead letters and quarantined objects. *)
Lemma move_to_dead_nothing dir name common reason floor cx :
  CommonFields_wf common -> claims_nothing (move_to_dead dir name common reason floor) cx.
Proof.
  intros Hc sel Hs. unfold move_to_dead. apply runs_bind, runs_gets. cbn [id].
  apply runs_or, runs_ret. destruct (bucket_number _ _) as [b|]; cbn [ok_or]; [|done].
  apply runs_or, runs_ret. destruct (next_identity _ _) as [dead|] eqn:En; [|done].
  apply next_identity_wf in En; [|done..].
  apply runs_or. eapply runs_keeps; [apply calm_ensure_dir|]. intros [u|e] cx1 H1; [|done].
  do 2 (apply runs_or, runs_call_silent; [auto with silent|]; intros [?|?]; [|done]).
  apply runs_bind, runs_call. eapply counts_mono; [apply move_places; silence|]. intros n r ->.
  apply runs_ret. split; [|done]. rewrite claiming_false; [done|]. unfold claims. cbn [placed_name].
  destruct (make_dead_ok (queue_id (handle cx)) (bucket_hex b) (shard_hex (shard_for (layout (handle cx)) (cf_job_id dead)))
    dead (DeadReason_as_u16 reason) En) as (dn & Hdn & _); [by destruct reason|].
  by apply dead_not_leased in Hdn.
Qed.
Lemma quarantine_nothing d f reason cx : claims_nothing (publish_quarantine_object d f reason) cx.
Proof.
  intros sel Hs. eapply runs_mono; [apply publish_quarantine_places; [done|auto with silent]|].
  intros n r cx' ([qd ->] & Hw & He). split; [|done]. destruct (quarantined_as r) as [name|] eqn:Eq; [|done].
  rewrite claiming_false; [done|]. unfold claims, quarantine_rename. cbn [placed_name].
  assert (exists id, name = quarantine_filename id (QuarantineReason_as_u16 reason)) as [id ->].
  { destruct r as [p|[| ? ? [] | |]]; cbn [quarantined_as] in Eq, Hw; try done; injection Eq as <-.
    all: naive_solver. }
  apply quarantine_not_leased.
Qed.
Lemma quarantine_lease_nothing d f fd cx : claims_nothing (quarantine_corrupt_lease d f fd) cx.
Proof.
  intros sel Hs. unfold quarantine_corrupt_lease.
  do 2 (apply runs_or, runs_call_silent; [auto with silent|]; intros [?|?]; [|done]).
  case_match; [by apply runs_ret|].
  apply runs_or, runs_call_silent; [auto with silent|]. intros [id|e]; [|done].
  apply runs_or. eapply runs_keeps; [apply calm_ensure_dir|]. intros [u|e] cx1 He1; [|done].
  apply runs_bind, runs_gets. apply runs_or, runs_call_silent; [auto with silent|]. intros [qd|e]; [|done].
  apply runs_call. eapply counts_mono with (Q := fun n _ => n = 0%nat); [|by intros n r ->].
  apply (@move_unit_places sel false), (@move_io_places sel _ false); [|unfold with_moved; silence].
  intros sd dd. apply claiming_false, quarantine_not_leased.
Qed.

End Pieces.

(** ** The report of a scan *)

Section Report.
Context `{Sha256Spec} {T : Texts}.

(** A ready name that belongs in its shard and has attempts left, and the
    lease it becomes. *)
Definition candidate (q : Queue) (c : Candidate) : Prop :=
  (exists shard parsed, recognise_entry q shard (ca_entry c) = Some parsed /\ ca_common c = rn_common parsed) /\
  (cf_attempt (ca_common c) < cf_maximum_attempts (ca_common c))%Z /\
  next_identity OpClaim (ca_common c) = Ok (ca_leased_common c) /\
  Layout_leased_for_boot (layout q) (ca_leased_common c) (boot_id (config q)) (ca_boottime_deadline c)
    (ca_wall_deadline c) (ca_token c) = Ok (ca_target c) /\
  is_u64 (ca_boottime_deadline c) /\ is_u64 (ca_wall_deadline c) /\ length (ca_token c) = 16%nat.

(** The lease is the claimed job at its new place, and its content was read
    last: it is a complete job, both digests matching, that the lease describes. *)
Definition delivered (q : Queue) (c : Candidate) (tr : list event) (l : LeaseInfo) (reader : option VerifiedPayloadReader)
  : Prop :=
  exists fd header ct moved t1 t2, tr = t1 ++ t2 /\
    l = claimed_lease q c header ct moved /\ reader = Some (payload_reader fd header) /\
    forall content, Forall (serves fd content) t2 ->
      exists ve, ValidatedEnvelope_from_bytes content true = Ok ve /\ ve_header ve = header /\ header_is_lease l header.

(** A ticket for this claim. *)
Definition ticketed (q : Queue) (c : Candidate) (t : TransitionTicket) : Prop :=
  exists evidence t0 phase,
    claim_transition_ticket q (ca_common c) (ca_token c) evidence (ca_boottime_deadline c) (ca_wall_deadline c) = Ok t0 /\
    t = with_phase t0 phase.

Definition claim_outcome (q : Queue) (tr : list event) (o : Claimed) (cx' : Ctx) : Prop :=
  match o with
  | (LeaseLeased l, reader) =>
      exists c, candidate q c /\ claimed_once (ca_entry c) (filename (ca_target c)) tr /\ delivered q c tr l reader /\
        recorded claims tr (dirty_arg cx')
  | (LeaseOutcomeUnknown t, None) =>
      exists c, candidate q c /\ claimed_once (ca_entry c) (filename (ca_target c)) tr /\ ticketed q c t /\
        poisoned (handle cx') <> None
  | (LeaseNotCommitted PayloadCorrupt, None) => (tally claims tr <= 1)%nat
  | (LeaseNotCommitted _, None) | (LeaseEmpty, None) => unclaimed tr
  | _ => False
  end.
(** The floor of a scan is a time since the epoch once it is read. *)
Definition floor_ok (st : ScanState) : Prop := forall f, scan_floor st = Some f -> (0 <= unix_ns f)%Z.
Definition scan_outcome (q : Queue) (cx : Ctx) (tr : list event) (r : result ScanState Claimed) (cx' : Ctx) : Prop :=
  evolves cx cx' /\ match r with Ok st => unclaimed tr /\ floor_ok st | Err o => claim_outcome q tr o cx' end.

Lemma candidate_config q q' c : config q' = config q -> candidate q c -> candidate q' c.
Proof. intros E. unfold candidate, recognise_entry, queue_id, layout, shard_count, queue_id. by rewrite E. Qed.

(** The rename of a candidate is a claim. *)
Lemma candidate_claims q c sd dd :
  candidate q c -> claims (SysRenameat2 sd (ca_entry c) dd (filename (ca_target c)) RENAME_NOREPLACE) = true.
Proof.
  intros ((shard & parsed & Hr & Hc) & _ & Hn & Ht & Hb & Hw & Htok). unfold claims. cbn [placed_name].
  assert (Hwf : CommonFields_wf (ca_common c)).
  { rewrite Hc. unfold recognise_entry in Hr. case_match; [done|].
    destruct (parse_ready (ca_entry c)) as [p|] eqn:Ep; [|done]. do 2 (case_match; [done|]). injection Hr as <-.
    by apply parse_ready_iff in Ep as [[? _] _]. }
  apply next_identity_wf in Hn; [|done..]. apply Layout_leased_ok in Ht as (b & fn & bb & _ & Hbb & Hfn & ->).
  cbn [filename]. destruct (make_leased_ok (ly_queue_id (layout q)) (boot_id (config q)) bb (bucket_hex b)
    (shard_hex (shard_for (layout q) (cf_job_id (ca_leased_common c)))) (ca_leased_common c)
    (ca_boottime_deadline c) (ca_wall_deadline c) (ca_token c)) as (s & n & E & Hp & _); [done..|].
  rewrite Hfn in E. injection E as <-. by rewrite Hp.
Qed.
Lemma candidate_other q c sd dd :
  candidate q c ->
  claims_other (ca_entry c) (filename (ca_target c))
    (SysRenameat2 sd (ca_entry c) dd (filename (ca_target c)) RENAME_NOREPLACE) = false.
Proof. intros Hc. unfold claims_other. rewrite (candidate_claims q c) by done. by rewrite !bool_decide_true, Z.eqb_refl. Qed.

(** What a rename reports is what it did. *)
Lemma claim_rename_places q c source ticket durability tr x :
  candidate q c -> exec (claim_rename q c source ticket durability) tr x ->
  (if (move_commits x.1 =? 1)%nat then claimed_once (ca_entry c) (filename (ca_target c)) tr else unclaimed tr) /\
  tally (elsewhere claims [ca_shard_fd c; ca_leased_dir_fd c]) tr = 0%nat.
Proof.
  intros Hc Hx. apply capturing_exec in Hx.
  assert (Hs : forall sel, Placing sel -> forall m, silent sel (let! y := refresh_ticket q c source ticket m in Ret y.1)).
  { intros sel Hp m. unfold refresh_ticket, read_claim_ticket_evidence. silence. }
  assert (Ht : forall sel, Placing sel -> tally sel tr = if sel (SysRenameat2 (ca_shard_fd c) (ca_entry c) (ca_leased_dir_fd c)
    (filename (ca_target c)) RENAME_NOREPLACE) then move_commits x.1 else 0%nat).
  { intros sel Hp. exact (move_places _ _ _ _ _ _ (Hs sel Hp) tr _ Hx). }
  split; [|rewrite Ht by apply _; unfold elsewhere; cbn; by rewrite !bool_decide_true, andb_false_r by set_solver].
  destruct (_ =? 1)%nat eqn:E; breflect.
  - split; rewrite Ht by apply _; [by rewrite (candidate_claims q)|by rewrite (candidate_other q)].
  - intros sel Hp. rewrite Ht by apply _. assert (move_commits x.1 = 0%nat) as -> by (revert E; unfold move_commits; destruct x.1 as [|f]; [lia|case_match; lia]). by destruct (sel _).
Qed.

(** The ticket the callback leaves is one for this claim. *)
Lemma claim_rename_ticket q c source ticket durability tr x :
  (exists evidence, claim_transition_ticket q (ca_common c) (ca_token c) evidence (ca_boottime_deadline c)
     (ca_wall_deadline c) = Ok ticket) ->
  exec (claim_rename q c source ticket durability) tr x ->
  exists evidence, claim_transition_ticket q (ca_common c) (ca_token c) evidence (ca_boottime_deadline c)
     (ca_wall_deadline c) = Ok x.2.
Proof.
  intros Hev Hx. unfold claim_rename, move_noreplace_capturing in Hx.
  apply exec_bind in Hx as (t1 & t2 & [u|f] & -> & _ & Hx); [|by apply exec_ret in Hx as [_ ->]].
  apply exec_bind in Hx as (t3 & t4 & [m|f] & -> & _ & Hx); [|by apply exec_ret in Hx as [_ ->]].
  apply exec_bind in Hx as (t5 & t6 & [o t] & -> & Hr & Hx).
  assert (x.2 = t) as ->.
  { destruct o; [|by apply exec_ret in Hx as [_ ->]].
    apply exec_bind in Hx as (? & ? & ? & _ & _ & Hx). by apply exec_ret in Hx as [_ ->]. }
  unfold refresh_ticket in Hr. apply exec_bind in Hr as (? & ? & ev & _ & _ & Hr).
  apply exec_ret in Hr as [_ Hr]. destruct ev as [ev|e]; [|by injection Hr as _ ->].
  destruct (claim_transition_ticket _ _ _ ev _ _) as [t'|] eqn:E; injection Hr as _ ->; [by exists ev|done].
Qed.

Lemma require_ok b u : require b = Ok u -> b = true.
Proof. by destruct b. Qed.

(** The header of a validated object is the one in its content. *)
Lemma validated_header q fd size common content :
  wp (serves fd content) (validate_claimed_object q fd size common) (fun _ r =>
    match r with
    | Ok (h, _) => FixedHeader_decode (slice 0 128 content) = Ok h /\ fh_job_id h = cf_job_id common /\
        fh_maximum_attempts h = cf_maximum_attempts common
    | Err _ => True
    end).
Proof.
  unfold validate_claimed_object, or_none. apply wp_try.
  eapply wp_mono; [apply (accepts_read fd content _ 128 0); lia|]. intros t1 [data|e]; [|done]. intros [-> _].
  change (0 + 128)%nat with 128%nat. apply wp_try, wp_map_err, wp_ret.
  destruct (FixedHeader_decode _) as [h|e] eqn:Hd; cbn [map_err]; [|done].
  apply wp_try, wp_ret. destruct (require _) as [[]|e] eqn:Hq; [|done]. apply require_ok in Hq. breflect.
  intros tr r Hx Hf. destruct r as [[h' ct]|]; [|done].
  enough (h' = h) as -> by done.
  repeat (apply exec_try in Hx as [(? & _ & ?)|(? & ? & ? & -> & _ & Hx)]; [done|]).
  destruct (is_extension_present _); [apply exec_try in Hx as [(? & _ & ?)|(? & ? & ? & -> & _ & Hx)]; [done|]|];
    by apply exec_ret in Hx as [_ [= -> _]].
Qed.

Lemma delivered_content q c fd moved header ct t1 t2 content :
  exec (validate_claimed_object q fd (mo_size moved) (ca_common c)) t1 (Ok (header, ct)) ->
  exec (verify_payload_on_fd fd) t2 (Ok tt) -> Forall (serves fd content) (t1 ++ t2) ->
  exists ve, ValidatedEnvelope_from_bytes content true = Ok ve /\ ve_header ve = header /\
    header_is_lease (claimed_lease q c header ct moved) header.
Proof.
  intros H1' H2' [Hs1 Hs2]%Forall_app. destruct (validated_header _ _ _ _ _ _ _ H1' Hs1) as (Hd & Hj & Hm).
  apply exec_try in H2' as [(e & _ & ?)|(v1 & v2 & job & -> & Hv & _)]; [done|]. apply Forall_app in Hs2 as [Hs2 _].
  apply exec_map_err_ok in Hv. destruct (verify_job_judged _ _ _ _ Hv Hs2) as (payload & Hb & _).
  eexists. split; [exact Hb|]. apply from_bytes_checks in Hb as (_ & Hd' & _). rewrite Hd in Hd'. injection Hd' as <-.
  split; [done|]. by repeat split.
Qed.

(** Regroup what came before the current method. *)
Ltac regroup q cx0 t0 :=
  eapply (traces_mono _ _ (fun tr r cx' => scan_outcome q cx0 (t0 ++ tr) r cx'));
  [|intros ? ? ?; by rewrite <- ?app_assoc].

(** After a committed claim, and after an indeterminate one. *)
Lemma indeterminate_outcome q c cx0 cx t0 ticket phase :
  candidate q c -> evolves cx0 cx -> claimed_once (ca_entry c) (filename (ca_target c)) t0 ->
  (exists evidence, claim_transition_ticket q (ca_common c) (ca_token c) evidence (ca_boottime_deadline c)
     (ca_wall_deadline c) = Ok ticket) ->
  traces (indeterminate ticket phase) cx (fun tr r cx' => scan_outcome q cx0 (t0 ++ tr) r cx').
Proof.
  intros Hc He Hone [ev Hev]. unfold indeterminate. apply traces_bind, traces_modify, traces_ret. rewrite !app_nil_r.
  split; [etrans; [exact He|apply poisoned_evolves]|]. exists c. do 2 (split; [done|]). split; [|done].
  by exists ev, ticket, phase.
Qed.

Lemma reject_outcome q c cx0 cx t0 source ticket e :
  candidate q c -> evolves cx0 cx -> claimed_once (ca_entry c) (filename (ca_target c)) t0 ->
  (exists evidence, claim_transition_ticket q (ca_common c) (ca_token c) evidence (ca_boottime_deadline c)
     (ca_wall_deadline c) = Ok ticket) ->
  traces (reject_payload c source ticket e) cx (fun tr r cx' => scan_outcome q cx0 (t0 ++ tr) r cx').
Proof.
  intros Hc He Hone Hev. unfold reject_payload. destruct e; try by eapply indeterminate_outcome.
  apply traces_bind, traces_nothing; [apply quarantine_lease_nothing|]. intros tr [u|f] cx1 Hu He1.
  - apply traces_ret. rewrite app_nil_r. split; [by etrans|]. cbn. rewrite tally_app, (Hu _ _). destruct Hone as [-> _]. lia.
  - regroup q cx0 (t0 ++ tr). eapply indeterminate_outcome; [done|by etrans|by apply claimed_after|done].
Qed.

Lemma deliver_outcome q c cx0 cx t0 source ticket moved :
  candidate q c -> evolves cx0 cx -> config (handle cx) = config q ->
  claimed_once (ca_entry c) (filename (ca_target c)) t0 -> recorded claims t0 (dirty_arg cx) ->
  (exists evidence, claim_transition_ticket q (ca_common c) (ca_token c) evidence (ca_boottime_deadline c)
     (ca_wall_deadline c) = Ok ticket) ->
  traces (deliver c source ticket moved) cx (fun tr r cx' => scan_outcome q cx0 (t0 ++ tr) r cx').
Proof.
  intros Hc He Hq Hone Hrec Hev. unfold deliver. apply traces_bind, traces_gets. cbn [id app].
  apply traces_bind, traces_silent; [intros; unfold validate_claimed_object, or_none; silence|].
  intros t1 [[header ct]|e] Hu1 Hv1.
  2:{ regroup q cx0 (t0 ++ t1). eapply indeterminate_outcome; [done..|by apply claimed_after|done]. }
  apply traces_bind, traces_silent; [intros; auto with silent|]. intros t2 [[]|e] Hu2 Hv2.
  2:{ regroup q cx0 (t0 ++ t1 ++ t2).
      eapply reject_outcome; [done..|by apply claimed_after, unclaimed_app|done]. }
  apply traces_ret. rewrite app_nil_r. split; [done|]. exists c. split; [done|].
  split; [by apply claimed_after; [|apply unclaimed_app]|].
  split; [|apply (recorded_mono claims [] t0 (t1 ++ t2) (dirty_arg cx)); [done..|apply unclaimed_app; try done; apply _|done]].
  exists (cw_file_fd source), header, ct, moved, t0, (t1 ++ t2). split; [done|].
  assert (Hl : claimed_lease (handle cx) c header ct moved = claimed_lease q c header ct moved)
    by (unfold claimed_lease; by rewrite Hq).
  rewrite Hl. split; [done|]. split; [done|]. intros content Hs. rewrite <- Hl. by eapply delivered_content.
Qed.

(** Continuing, refusing: nothing was claimed. *)
Lemma continue_outcome q cx0 cx t0 st :
  floor_ok st -> evolves cx0 cx -> unclaimed t0 -> traces (continue st) cx (fun tr r cx' => scan_outcome q cx0 (t0 ++ tr) r cx').
Proof. intros Hfl He Hu. apply traces_ret. rewrite app_nil_r. by split. Qed.
Lemma refused_outcome q cx0 t0 cx e :
  evolves cx0 cx -> unclaimed t0 -> scan_outcome q cx0 t0 (refuse e) cx.
Proof. intros He Hu. split; [done|]. destruct e; try done. cbn. rewrite (Hu _ _). lia. Qed.
Lemma refuse_outcome q cx0 cx t0 e :
  evolves cx0 cx -> unclaimed t0 -> traces (op_ret (refuse e)) cx (fun tr r cx' => scan_outcome q cx0 (t0 ++ tr) r cx').
Proof. intros He Hu. apply traces_ret. rewrite app_nil_r. by apply refused_outcome. Qed.

Lemma settle_outcome q c cx0 cx t0 source ticket moved st :
  floor_ok st -> candidate q c -> evolves cx0 cx -> config (handle cx) = config q ->
  (if (move_commits moved =? 1)%nat then claimed_once (ca_entry c) (filename (ca_target c)) t0 else unclaimed t0) ->
  (is_ok moved = true -> recorded claims t0 (dirty_arg cx)) ->
  (exists evidence, claim_transition_ticket q (ca_common c) (ca_token c) evidence (ca_boottime_deadline c)
     (ca_wall_deadline c) = Ok ticket) ->
  traces (settle_claim c source ticket moved st) cx (fun tr r cx' => scan_outcome q cx0 (t0 ++ tr) r cx').
Proof.
  intros Hfl Hc He Hq Hone Hrec Hev. unfold settle_claim. destruct moved as [moved|[phase e|phase e| |]]; cbn in Hone.
  - by apply deliver_outcome; auto.
  - destruct (Error_of_io e); first [by apply refuse_outcome|by apply continue_outcome].
  - by eapply indeterminate_outcome.
  - by apply continue_outcome.
  - by apply continue_outcome.
Qed.

Lemma traces_recording fd cx (Q : list event -> result unit IoError -> Ctx -> Prop) :
  (forall tr r cx', unclaimed tr -> evolves cx cx' -> (is_ok r = true -> records fd tr (dirty_arg cx')) -> Q tr r cx') ->
  traces (record_arg fd) cx Q.
Proof.
  intros HQ tr x Hx. destruct (record_arg_records fd cx tr x Hx) as (_ & He & Hr). apply HQ; [|done..].
  intros sel Hs. by apply (calm_record_arg fd sel _ cx tr x Hx).
Qed.

Lemma perform_outcome q c cx0 cx t0 source ticket st :
  floor_ok st -> candidate q c -> evolves cx0 cx -> config (handle cx) = config q -> unclaimed t0 ->
  (exists evidence, claim_transition_ticket q (ca_common c) (ca_token c) evidence (ca_boottime_deadline c)
     (ca_wall_deadline c) = Ok ticket) ->
  traces (perform_claim c source ticket st) cx (fun tr r cx' => scan_outcome q cx0 (t0 ++ tr) r cx').
Proof.
  intros Hfl Hc He Hq Hu Hev. unfold perform_claim. apply traces_bind, traces_gets. cbn [id app].
  assert (Hcq : candidate (handle cx) c) by (by eapply candidate_config).
  assert (Hev' : exists evidence, claim_transition_ticket (handle cx) (ca_common c) (ca_token c) evidence
    (ca_boottime_deadline c) (ca_wall_deadline c) = Ok ticket).
  { destruct Hev as [ev Hev]. exists ev. rewrite <- Hev. unfold claim_transition_ticket, queue_id. by rewrite Hq. }
  assert (Hback : forall t, (exists ev, claim_transition_ticket (handle cx) (ca_common c) (ca_token c) ev
    (ca_boottime_deadline c) (ca_wall_deadline c) = Ok t) -> exists ev, claim_transition_ticket q (ca_common c)
    (ca_token c) ev (ca_boottime_deadline c) (ca_wall_deadline c) = Ok t).
  { intros t [ev E]. exists ev. rewrite <- E. unfold claim_transition_ticket, queue_id. by rewrite Hq. }
  apply traces_by_dirty; intros Hdirty; apply traces_bind, traces_call; intros tr [moved t] Hx;
    pose proof (claim_rename_places _ _ _ _ _ _ _ Hcq Hx) as [Hp Helse];
    apply claim_rename_ticket in Hx; [|done| |done]; apply Hback in Hx; cbn [fst snd] in Hp, Hx.
  - assert (Hp0 : if (move_commits moved =? 1)%nat then claimed_once (ca_entry c) (filename (ca_target c)) (t0 ++ tr)
      else unclaimed (t0 ++ tr)) by (case_match; [by apply claimed_before|by apply unclaimed_app]).
    destruct moved as [moved|f]; [|regroup q cx0 (t0 ++ tr); by apply settle_outcome].
    apply traces_bind, (traces_recording (ca_shard_fd c)). intros t1 r1 cx1 Hu1 He1 Hr1.
    assert (Hone1 : claimed_once (ca_entry c) (filename (ca_target c)) ((t0 ++ tr) ++ t1)) by (by apply claimed_after).
    destruct r1 as [[]|e1].
    2:{ apply traces_bind, traces_ret. cbn [app]. regroup q cx0 ((t0 ++ tr) ++ t1).
        eapply indeterminate_outcome; [done|by etrans|done..]. }
    apply traces_bind, (traces_recording (ca_leased_dir_fd c)). intros t2 r2 cx2 Hu2 He2 Hr2.
    assert (He' : evolves cx0 cx2) by (do 2 (etrans; [done|]); done).
    assert (Hone : claimed_once (ca_entry c) (filename (ca_target c)) (((t0 ++ tr) ++ t1) ++ t2)) by (by apply claimed_after).
    regroup q cx0 (((t0 ++ tr) ++ t1) ++ t2).
    destruct r2 as [u|e]; [|by eapply indeterminate_outcome].
    apply settle_outcome; try done; [rewrite <- Hq; destruct He2 as (-> & _), He1 as (-> & _); done|].
    intros _. rewrite <- !app_assoc. replace (t0 ++ tr ++ t1 ++ t2) with (t0 ++ (tr ++ t1 ++ t2) ++ []) by (by rewrite app_nil_r).
    apply (recorded_mono claims _ _ _ (dirty_arg cx2)); [done|exact (Hu _ _)|done|].
    apply (recorded_pair claims _ _ _ (ca_shard_fd c) (ca_leased_dir_fd c) (dirty_arg cx1)); try done;
      [exact (Hu1 _ _)|exact (Hu2 _ _)|by apply Hr1|by destruct He2 as (_ & _ & ? & _)|by apply Hr2].
  - regroup q cx0 (t0 ++ tr). apply settle_outcome; try done; [|rewrite Hdirty; intros _; apply recorded_none].
    case_match; [by apply claimed_before|by apply unclaimed_app].
Qed.

Lemma corrupt_outcome q cx0 cx t0 fd entry st :
  floor_ok st -> evolves cx0 cx -> unclaimed t0 ->
  traces (set_aside_corrupt fd entry st) cx (fun tr r cx' => scan_outcome q cx0 (t0 ++ tr) r cx').
Proof.
  intros Hfl He Hu. unfold set_aside_corrupt. apply traces_bind, traces_silent; [intros; auto with silent|]. intros t1 st1 Hu1 _.
  cbv zeta. apply traces_bind, traces_nothing; [apply quarantine_nothing|]. intros t2 r cx1 Hu2 He1.
  assert (He' : evolves cx0 cx1) by (by etrans).
  assert (Hu' : unclaimed (t0 ++ t1 ++ t2)) by (by repeat apply unclaimed_app).
  regroup q cx0 (t0 ++ t1 ++ t2). destruct r as [p|[ | ? ? [] | | ]]; try by apply continue_outcome.
  apply traces_bind, traces_modify, traces_ret. rewrite !app_nil_r.
  apply refused_outcome; [etrans; [done|apply poisoned_evolves]|done].
Qed.

Lemma claim_in_outcome q c cx0 cx t0 st :
  floor_ok st -> candidate q c -> evolves cx0 cx -> config (handle cx) = config q -> unclaimed t0 ->
  traces (claim_in c st) cx (fun tr r cx' => scan_outcome q cx0 (t0 ++ tr) r cx').
Proof.
  intros Hfl Hc He Hq Hu. unfold claim_in.
  apply traces_bind, traces_silent; [intros; unfold open_claim_source, read_claim_ticket_evidence; silence|].
  intros t1 r Hu1 _. regroup q cx0 (t0 ++ t1). assert (Hu' : unclaimed (t0 ++ t1)) by (by apply unclaimed_app).
  destruct r as [[source|]|e].
  2:{ by apply continue_outcome. }
  2:{ destruct e; first [by apply refuse_outcome|by apply continue_outcome|by apply corrupt_outcome]. }
  apply traces_bind, traces_gets. cbn [id app]. apply traces_or, traces_ret.
  destruct (claim_transition_ticket (handle cx) _ _ _ _ _) as [ticket|e] eqn:Et;
    [|rewrite app_nil_r; by apply refused_outcome]. cbn [app].
  apply traces_bind, traces_silent; [intros; auto with silent|]. intros t2 o Hu2 _.
  regroup q cx0 ((t0 ++ t1) ++ t2). assert (Hu'' : unclaimed ((t0 ++ t1) ++ t2)) by (by apply unclaimed_app).
  destruct o as [[]|e].
  - apply perform_outcome; try done. exists (cw_evidence source). rewrite <- Et. unfold claim_transition_ticket, queue_id. by rewrite Hq.
  - by apply continue_outcome.
  - by apply refuse_outcome.
  - by apply continue_outcome.
Qed.

Lemma claim_as_outcome q shard fd entry parsed duration boottime wall token cx0 cx t0 st :
  floor_ok st -> recognise_entry q shard entry = Some parsed ->
  (cf_attempt (rn_common parsed) < cf_maximum_attempts (rn_common parsed))%Z ->
  (0 <= boottime)%Z -> (0 <= wall)%Z -> (0 <= duration)%Z -> length token = 16%nat ->
  evolves cx0 cx -> config (handle cx) = config q -> unclaimed t0 ->
  traces (claim_as fd entry (rn_common parsed) duration boottime wall token st) cx
    (fun tr r cx' => scan_outcome q cx0 (t0 ++ tr) r cx').
Proof.
  intros Hfl Hr Ha Hb Hw Hd Htok He Hq Hu. unfold claim_as.
  destruct (u64_checked_add boottime duration) as [bd|] eqn:Eb; [|by apply continue_outcome].
  destruct (u64_checked_add wall duration) as [wd|] eqn:Ew; [|by apply continue_outcome].
  destruct (next_identity OpClaim (rn_common parsed)) as [leased|] eqn:En; [|by apply continue_outcome].
  apply traces_bind, traces_gets. cbn [id app]. rewrite (layout_of_config _ _ Hq), Hq.
  destruct (Layout_leased_for_boot _ _ _ _ _ _) as [target|] eqn:Et; [|by apply continue_outcome].
  apply traces_bind, traces_calm; [apply calm_ensure_dir_with_dirty|]. intros t1 r1 cx1 Hu1 He1.
  assert (He' : evolves cx0 cx1) by (by etrans). regroup q cx0 (t0 ++ t1).
  assert (Hu' : unclaimed (t0 ++ t1)) by (by apply unclaimed_app).
  destruct r1 as [u|e]; [|destruct (Error_of_io e); first [by apply refuse_outcome|by apply continue_outcome]].
  apply traces_bind, traces_silent; [intros; auto with silent|]. intros t2 r2 Hu2 _. regroup q cx0 ((t0 ++ t1) ++ t2).
  assert (Hu'' : unclaimed ((t0 ++ t1) ++ t2)) by (by apply unclaimed_app).
  destruct r2 as [dd|e]; [|destruct (classify_lease_directory_open_failure e); by apply continue_outcome].
  unfold u64_checked_add in Eb, Ew. case_decide; [|done]. case_decide; [|done]. injection Eb as <-. injection Ew as <-.
  apply claim_in_outcome; try done.
  - split; [by exists shard, parsed|]. cbn. unfold is_u64, u64_max in *. repeat split; try done; lia.
  - rewrite <- Hq. by destruct He1.
Qed.

Lemma clock_boottime_nonneg tr t : exec clock_boottime_ns tr (Ok t) -> (0 <= t)%Z.
Proof.
  unfold clock_boottime_ns. destruct tr as [|[c a] tr]; [done|]. intros [_ Hx]. cbn in Hx.
  apply exec_ret in Hx as [_ Hx]. destruct a; try done; injection Hx as ->; apply timespec_ns_range.
Qed.
Lemma random_length tr r : exec random_128bit tr (Ok r) -> length r = 16%nat.
Proof.
  unfold random_128bit. destruct tr as [|[c a] tr]; [done|]. intros [_ Hx]. cbn in Hx.
  apply exec_ret in Hx as [_ Hx]. unfold check_random in Hx. destruct a; try done. case_match; [|done].
  breflect. by injection Hx as ->.
Qed.

Lemma floor_of_scan_ok st cx :
  floor_ok st -> traces (floor_of_scan st) cx (fun tr r cx' => unclaimed tr /\ evolves cx cx' /\ after_epoch r).
Proof.
  intros Hf. unfold floor_of_scan. destruct (scan_floor st) as [f|] eqn:E.
  - apply traces_ret. split; [apply unclaimed_nil|]. split; [done|]. by apply Hf.
  - intros tr x Hx. split; [|split].
    + intros sel Hs. by apply (calm_wall_floor sel _ cx tr _ Hx).
    + by apply (calm_wall_floor claims _ cx tr _ Hx).
    + exact (wall_floor_after_epoch (sel := claims) cx tr x Hx).
Qed.

Lemma recognised_wf q shard entry parsed :
  recognise_entry q shard entry = Some parsed -> CommonFields_wf (rn_common parsed).
Proof.
  unfold recognise_entry. case_match; [done|]. destruct (parse_ready entry) as [p|] eqn:Ep; [|done].
  do 2 (case_match; [done|]). intros [= <-]. by apply parse_ready_iff in Ep as [[? _] _].
Qed.

Lemma dead_letter_outcome q dir entry common floor cx0 cx t0 st :
  floor_ok st -> CommonFields_wf common -> evolves cx0 cx -> unclaimed t0 ->
  traces (let* moved := move_to_dead dir entry common DeadAttemptsExhausted floor in
          let*? _ := settle_dead_letter moved else Err in continue st) cx
    (fun tr r cx' => scan_outcome q cx0 (t0 ++ tr) r cx').
Proof.
  intros Hfl Hc He Hu. apply traces_bind, traces_nothing; [by apply move_to_dead_nothing|]. intros t1 r cx1 Hu1 He1.
  assert (He' : evolves cx0 cx1) by (by etrans). regroup q cx0 (t0 ++ t1).
  assert (Hu' : unclaimed (t0 ++ t1)) by (by apply unclaimed_app).
  apply traces_or. unfold settle_dead_letter.
  destruct r as [u|[e|[phase e|phase e| |]]]; first
    [ apply traces_ret; cbn [app]; by apply continue_outcome
    | apply traces_ret; rewrite app_nil_r; by apply refused_outcome
    | apply traces_bind, traces_modify, traces_ret; rewrite !app_nil_r;
      apply refused_outcome; [etrans; [done|apply poisoned_evolves]|done] ].
Qed.

(** An entry of a ready shard. *)
Lemma entry_outcome q duration shard fd dir raw cx0 cx t0 st :
  floor_ok st -> (0 <= duration)%Z -> evolves cx0 cx -> config (handle cx) = config q -> unclaimed t0 ->
  traces (consider_entry duration shard fd dir raw st) cx (fun tr r cx' => scan_outcome q cx0 (t0 ++ tr) r cx').
Proof.
  intros Hfl Hd He Hq Hu. unfold consider_entry. destruct (as_ascii_str raw) as [entry|]; [|by apply continue_outcome].
  apply traces_bind, traces_gets. cbn [id app].
  assert (recognise_entry (handle cx) shard entry = recognise_entry q shard entry) as ->
    by (unfold recognise_entry, queue_id, shard_count, queue_id; by rewrite Hq).
  destruct (recognise_entry q shard entry) as [parsed|] eqn:Hr; [|by apply continue_outcome]. cbv zeta.
  destruct (_ <=? _)%Z eqn:Ea; breflect.
  - apply traces_or. eapply traces_mono; [by apply floor_of_scan_ok|]. intros t1 r cx1 (Hu1 & He1 & Hf).
    assert (He' : evolves cx0 cx1) by (by etrans). assert (Hu' : unclaimed (t0 ++ t1)) by (by apply unclaimed_app).
    destruct r as [floor|e]; [|by apply refused_outcome]. regroup q cx0 (t0 ++ t1).
    apply dead_letter_outcome; [by intros f [= <-]|by eapply recognised_wf|done..].
  - apply traces_or, traces_silent; [intros; auto with silent|]. intros t1 [boottime|e] Hu1 Hx1;
      [|by apply refused_outcome, unclaimed_app]. apply clock_boottime_nonneg in Hx1.
    apply traces_or. eapply traces_mono; [by apply floor_of_scan_ok|]. intros t2 r cx1 (Hu2 & He1 & Hf).
    assert (He' : evolves cx0 cx1) by (by etrans).
    assert (Hu' : unclaimed (t0 ++ t1 ++ t2)) by (by repeat apply unclaimed_app).
    destruct r as [floor|e]; [|by apply refused_outcome].
    apply traces_or, traces_silent; [intros; auto with silent|]. intros t3 [token|e] Hu3 Hx3;
      [|apply refused_outcome; [done|]; by repeat apply unclaimed_app].
    regroup q cx0 (((t0 ++ t1) ++ t2) ++ t3).
    eapply claim_as_outcome; try done; [by intros f [= <-]|by eapply random_length| |].
    + rewrite <- Hq. by destruct He1.
    + rewrite <- !app_assoc. by repeat apply unclaimed_app.
Qed.

(** The scan of a directory and of the shards in order. *)
Definition scanned (q : Queue) (cx : Ctx) (tr : list event) (r : option (result ScanState Claimed)) (cx' : Ctx) : Prop :=
  match r with Some r => scan_outcome q cx tr r cx' | None => True end.
Ltac regroup_scan q cx0 t0 :=
  eapply (traces_mono _ _ (fun tr r cx' => scanned q cx0 (t0 ++ tr) r cx'));
  [|intros ? ? ?; by rewrite <- ?app_assoc].

Lemma scan_entries_outcome q duration shard fd dir cx0 : forall fuel entries cx t0 st,
  floor_ok st -> (0 <= duration)%Z -> evolves cx0 cx -> config (handle cx) = config q -> unclaimed t0 ->
  traces (scan_entries fuel duration shard fd dir entries st) cx (fun tr r cx' => scanned q cx0 (t0 ++ tr) r cx').
Proof.
  induction fuel as [|fuel IH]; intros entries cx t0 st Hfl Hd He Hq Hu; cbn [scan_entries]; [by apply traces_ret|].
  apply traces_bind, traces_silent; [intros; auto with silent|]. intros t1 [entry s'] Hu1 _.
  assert (Hu' : unclaimed (t0 ++ t1)) by (by apply unclaimed_app). regroup_scan q cx0 (t0 ++ t1).
  destruct entry as [[[entry|]|e]|]; [|apply traces_ret; rewrite app_nil_r; split; [done|by split]..|by apply traces_ret].
  apply traces_bind. eapply traces_mono; [by apply (entry_outcome q _ _ _ _ _ cx0 _ (t0 ++ t1))|].
  intros t2 r cx1 [He1 Hr]. regroup_scan q cx0 ((t0 ++ t1) ++ t2). destruct r as [st'|o].
  - destruct Hr as [Hu2 Hfl']. apply IH; try done. rewrite <- Hq. destruct He as (-> & _), He1 as (-> & _). done.
  - apply traces_ret. rewrite app_nil_r. by split.
Qed.

Lemma scan_shards_outcome q duration fuel cx0 : forall order cx t0 st,
  floor_ok st -> (0 <= duration)%Z -> evolves cx0 cx -> config (handle cx) = config q -> unclaimed t0 ->
  traces (scan_shards fuel duration order st) cx (fun tr r cx' => scanned q cx0 (t0 ++ tr) r cx').
Proof.
  induction order as [|shard order IH]; intros cx t0 st Hfl Hd He Hq Hu; cbn [scan_shards].
  { apply traces_ret. rewrite app_nil_r. split; [done|by split]. }
  apply traces_bind.
  eapply (traces_mono _ _ (fun tr r cx' => scanned q cx0 (t0 ++ tr) r cx')).
  - unfold scan_shard. cbv zeta. apply traces_bind, traces_gets. cbn [app].
    apply traces_bind, traces_silent; [intros; auto with silent|]. intros t1 r1 Hu1 _.
    assert (Hu' : unclaimed (t0 ++ t1)) by (by apply unclaimed_app). regroup_scan q cx0 (t0 ++ t1).
    destruct r1 as [fd|e]; [|apply traces_ret; rewrite app_nil_r; split; [done|by split]].
    apply traces_bind, traces_silent; [intros; auto with silent|]. intros t2 r2 Hu2 _.
    assert (Hu'' : unclaimed ((t0 ++ t1) ++ t2)) by (by apply unclaimed_app). regroup_scan q cx0 ((t0 ++ t1) ++ t2).
    destruct r2 as [s|e]; [|apply traces_ret; rewrite app_nil_r; split; [done|by split]]. by apply scan_entries_outcome.
  - intros t1 [[st'|o]|] cx1; cbn [scanned]; [intros [He1 [Hu1 Hfl1]]|intros Ho|intros _; by apply traces_ret].
    + regroup_scan q cx0 (t0 ++ t1). apply IH; try done. rewrite <- Hq. destruct He as (-> & _), He1 as (-> & _). done.
    + apply traces_ret. by rewrite app_nil_r.
Qed.


(** One call of [lease_once], and the waiting rounds around it. *)
Lemma calm_next_scan : calm next_scan.
Proof. unfold next_scan. keeping. Qed.
Lemma calm_nap fuel nap : calm (nap_once fuel nap).
Proof.
  unfold nap_once, ensure_ready_watch, thread_sleep.
  assert (Hw : forall sel, Placing sel -> forall fd ready l, silent sel (watch_shards fd ready l)).
  { intros sel Hs fd ready l. induction l; cbn [watch_shards]; silence. }
  keeping; by apply Hw.
Qed.
Definition leased (q : Queue) (cx : Ctx) (tr : list event) (r : option Claimed) (cx' : Ctx) : Prop :=
  match r with Some o => evolves cx cx' /\ claim_outcome q tr o cx' | None => True end.

Lemma once_outcome q fuel duration cx0 cx t0 :
  evolves cx0 cx -> config (handle cx) = config q -> unclaimed t0 ->
  traces (lease_once_with_dirty fuel duration) cx (fun tr r cx' => leased q cx0 (t0 ++ tr) r cx').
Proof.
  intros He Hq Hu. unfold lease_once_with_dirty. apply traces_or, traces_gets.
  destruct (poisoned (handle cx)); [by rewrite app_nil_r|]. cbn [app].
  destruct (negb _) eqn:Ev; [apply traces_ret; by rewrite app_nil_r|].
  apply traces_bind, traces_calm; [apply calm_next_scan|]. intros t1 order cx1 Hu1 He1.
  apply traces_bind. eapply traces_mono.
  - apply (scan_shards_outcome q _ _ cx0 _ _ (t0 ++ t1)); [done| |by etrans| |by apply unclaimed_app].
    + apply negb_false_iff in Ev. unfold lease_duration_is_valid, MIN_LEASE_DURATION_NS in Ev. breflect. lia.
    + rewrite <- Hq. by destruct He1.
  - intros t2 [[st|o]|] cx2; cbn [scanned]; [intros [He2 [Hu2 _]]|intros [He2 Ho]|]; intros; apply traces_ret;
      rewrite ?app_nil_r, ?app_assoc; [|done..]. split; [done|]. by destruct (scan_had_error st).
Qed.

Lemma retryable_unclaimed q tr o cx' : is_retryable o.1 = true -> claim_outcome q tr o cx' -> unclaimed tr.
Proof. destruct o as [[ | |e| ] [r|]]; cbn; try done. all: by destruct e. Qed.

Lemma rounds_outcome q max_wait duration started cx0 : forall fuel backoff cx t0,
  evolves cx0 cx -> config (handle cx) = config q -> unclaimed t0 ->
  traces (lease_rounds fuel max_wait duration started backoff) cx (fun tr r cx' => leased q cx0 (t0 ++ tr) r cx').
Proof.
  induction fuel as [|fuel IH]; intros backoff cx t0 He Hq Hu; cbn [lease_rounds]; [by apply traces_ret|].
  apply traces_bind. eapply traces_mono; [by apply (once_outcome q _ _ cx0 _ t0)|].
  intros t1 [o|] cx1 H1; cbn [leased] in H1; [|by apply traces_ret]. destruct H1 as [He1 H1].
  destruct (_ || _) eqn:Er; [apply traces_ret; rewrite app_nil_r; by split|]. breflect.
  assert (Hu1 : unclaimed (t0 ++ t1)) by (eapply retryable_unclaimed; [|exact H1]; by destruct (is_retryable _)).
  apply traces_bind, traces_silent; [intros; unfold instant_now; silence|]. intros t2 now Hu2 _.
  assert (Ho : claim_outcome q (t0 ++ t1 ++ t2) o cx1).
  { rewrite app_assoc. destruct o as [[| |e|] [r|]]; try done; [by apply unclaimed_app|].
    destruct e; try done; by apply unclaimed_app. }
  cbv zeta. destruct (_ <=? _)%Z; [apply traces_ret; rewrite app_nil_r; by split|].
  apply traces_bind, traces_calm; [apply calm_nap|]. intros t3 napped cx2 Hu3 He2.
  destruct napped; [|by apply traces_ret].
  eapply traces_mono; [apply (IH _ _ (((t0 ++ t1) ++ t2) ++ t3)); [by etrans| |by do 2 (apply unclaimed_app; [|done])]|].
  - rewrite <- Hq. destruct He as (-> & _), He1 as (<- & _), He2 as (E & _). exact E.
  - intros t4 r cx3. by rewrite <- !app_assoc.
Qed.

Lemma silent_instant {sel : Syscall -> bool} `{!Placing sel} : silent sel instant_now.
Proof. unfold instant_now. silence. Qed.
Lemma inner_outcome fuel max_wait duration cx :
  traces (lease_inner_with_dirty fuel max_wait duration) cx (leased (handle cx) cx).
Proof.
  unfold lease_inner_with_dirty. apply traces_bind, traces_silent; [intros; apply silent_instant|]. intros t0 started Hu _.
  by apply rounds_outcome.
Qed.

End Report.

(** ** How long a scan runs *)

Section Fuel.
Context `{Sha256} {T : Texts}.

(** A reader of directories runs out of steps only after as many entries. *)
Lemma next_entry_fuel fuel : forall s tr x, exec (next_entry fuel s) tr x ->
  match x.1 with
  | None => (fuel <= length (raw_names tr))%nat
  | Some (Ok (Some _)) => (1 <= length (raw_names tr))%nat
  | _ => True
  end.
Proof.
  induction fuel as [|fuel IH]; intros s tr x Hx; cbn [next_entry] in Hx; [apply exec_ret in Hx as [-> ->]; cbn; lia|].
  apply exec_bind in Hx as (t1 & t2 & [n s'] & -> & H1 & H2). apply exec_next_raw in H1. cbn [fst] in H1. rewrite raw_names_app, length_app.
  destruct H1 as [(_ & [-> | [e ->]])|(name & E & ->)]; try by apply exec_ret in H2 as [-> ->].
  rewrite E. cbn [length]. destruct (is_dot name); [|apply exec_ret in H2 as [-> ->]; cbn; lia].
  specialize (IH _ _ _ H2). destruct x.1 as [[[?|]|]|]; done || lia.
Qed.
Lemma scan_entries_fuel d shard fd dir fuel : forall entries st cx tr x,
  exec (scan_entries fuel d shard fd dir entries st cx) tr x -> x.1 = None -> (fuel <= length (raw_names tr))%nat.
Proof.
  induction fuel as [|fuel IH]; intros entries st cx tr x Hx Hn; [lia|]. cbn [scan_entries] in Hx.
  apply exec_bind in Hx as (t1 & t2 & [[entry s'] cx1] & -> & H1 & H2).
  apply exec_bind in H1 as (t3 & t4 & y & -> & H1 & [-> [= <- <-]]%exec_ret). apply next_entry_fuel in H1.
  rewrite app_nil_r, raw_names_app, length_app. cbn [fst] in H1.
  destruct entry as [[[entry|]|e]|]; [|by apply exec_ret in H2 as [-> ->]..|lia].
  apply exec_bind in H2 as (t5 & t6 & [[st'|c] cx2] & -> & H3 & H4); [|by apply exec_ret in H4 as [-> ->]].
  apply IH in H4; [|done]. rewrite raw_names_app, length_app. lia.
Qed.
Lemma scan_shards_fuel fuel d : forall order st cx tr x,
  exec (scan_shards fuel d order st cx) tr x -> x.1 = None -> (fuel <= length (raw_names tr))%nat.
Proof.
  induction order as [|shard order IH]; intros st cx tr x Hx Hn; cbn [scan_shards] in Hx.
  { by apply exec_ret in Hx as [-> ->]. }
  apply exec_bind in Hx as (t1 & t2 & [r cx1] & -> & H1 & H2). rewrite raw_names_app, length_app. cbn [fst snd] in H2.
  assert (Hs : r = None -> (fuel <= length (raw_names t1))%nat).
  { intros ->. unfold scan_shard in H1. apply exec_bind in H1 as (? & ? & ? & -> & [-> ->]%exec_ret & H1).
    apply exec_bind in H1 as (? & ? & [[fd|] ?] & -> & _ & H1); [|by apply exec_ret in H1 as [_ ?]].
    apply exec_bind in H1 as (? & ? & [[s|] ?] & -> & _ & H1); [|by apply exec_ret in H1 as [_ ?]].
    apply scan_entries_fuel in H1; [|done]. rewrite !raw_names_app, !length_app. lia. }
  destruct r as [[st'|c]|]; [apply IH in H2; [lia|done]|by apply exec_ret in H2 as [-> ->]|].
  specialize (Hs eq_refl). lia.
Qed.

(** C33: a lease that does not wait returns.  One scan of every shard runs out
    of steps only when the kernel returned at least that many directory
    entries, so with a bound above the number of entries in the ready shards
    the operation has a result. *)
Theorem lease_scan_terminates fuel duration q tr q' :
  exec (lease fuel 0 duration q) tr (None, q') -> (fuel <= length (raw_names tr))%nat.
Proof.
  intros (t1 & t2 & [o q1] & -> & H1 & H2)%exec_bind. apply exec_ret in H2 as [-> [= Ho ->]]. rewrite app_nil_r.
  destruct o; [done|]. apply exec_bind in H1 as (t3 & t4 & [o cx] & -> & H1 & [-> [= <- ->]]%exec_ret).
  rewrite app_nil_r. apply exec_bind in H1 as (t5 & t6 & ? & -> & _ & H1). rewrite raw_names_app, length_app.
  destruct fuel as [|fuel]; [lia|]. cbn [lease_rounds] in H1.
  apply exec_bind in H1 as (t7 & t8 & [o cx1] & -> & H1 & H3). rewrite raw_names_app, length_app.
  destruct o as [o|]; [by apply exec_ret in H3 as [_ [= ]]|].
  apply exec_bind in H1 as (t9 & t10 & [[u|e] cx2] & -> & _ & H1); [|by apply exec_ret in H1 as [_ [= ]]].
  rewrite raw_names_app, length_app. cbn [fst snd] in H1. destruct (negb _); [by apply exec_ret in H1 as [_ [= ]]|].
  apply exec_bind in H1 as (t11 & t12 & [order cx3] & -> & _ & H1).
  apply exec_bind in H1 as (t13 & t14 & [r cx4] & -> & H1 & [-> [= E ->]]%exec_ret).
  rewrite !raw_names_app, !length_app. destruct r as [[|]|]; [done..|]. apply scan_shards_fuel in H1; [lia|done].
Qed.

End Fuel.

(** ** Properties *)

Section Properties.
Context `{Sha256Spec} {T : Texts}.


End Properties.

(** ** Examples *)

(** A ready shard that lists one job, the kernel's answers to the claim of it. *)
Definition sample_ready_common : CommonFields := mkCommon (replicate 16 x2a) 3 0 5.
Definition sample_ready_shard : Z := @shard_for checksum256 (layout sample_queue) (replicate 16 x2a).
Definition sample_ready_target : Target := @Layout_ready checksum256 (layout sample_queue) sample_ready_common.
Definition sample_claim_target : Target :=
  match @Layout_leased checksum256 (layout sample_queue) sample_lease_common
          1700000010000000700 1700000010000000700 (replicate 16 x5a) with
  | Ok t => t
  | Err _ => mkTarget (LocReady 0) []
  end.
(** The same job with an extension header that names a content type. *)
Definition typed_extension : bytes := match ExtensionHeader_encode sample_extension with Ok b => b | Err _ => [] end.
Definition typed_job_file : bytes :=
  let header := mkFixedHeader 1 (Z.of_nat (length typed_extension)) 3 0 1 (replicate 16 x2a) 5 1700000000000000000
    (@payload_digest checksum256 [x61; x62; x63]) (zeros 32) in
  let header := with_envelope_digest header (default [] (@envelope_digest checksum256 header typed_extension)) in
  match FixedHeader_encode header typed_extension with
  | Ok hb => hb ++ typed_extension ++ [x61; x62; x63]
  | Err _ => []
  end.
Definition sample_ready_disk (listed : bool) (c : Syscall) : Answer * bool :=
  match c with
  | SysReaddir _ => (if listed then Returns 0 else Entry (filename sample_ready_target) 1, negb listed)
  | _ => ((sample_disk (mkSampleFile (filename sample_ready_target) 10 1 typed_job_file
            :: mkSampleFile (filename sample_claim_target) 10 1 typed_job_file :: sample_control) tt c).1, listed)
  end.
Definition claiming_queue : Queue := set_ready_shard_hint (Some sample_ready_shard) (knowing sample_claim_target).
Definition sample_claim_run :=
  run sample_ready_disk false (@lease_with_payload checksum256 sample_texts 3 0 10000000000 claiming_queue).

Definition leased_one (r : option Claimed) : bool := match r with Some (LeaseLeased _, Some _) => true | _ => false end.

(** Three entries, and room for two. *)
Definition crowded_disk (n : nat) (c : Syscall) : Answer * nat :=
  match c with
  | SysReaddir _ => (match n with S _ => Entry (lit "x.tmp") 1 | O => Returns 0 end, Nat.pred n)
  | _ => ((sample_disk sample_control tt c).1, n)
  end.
Definition sample_crowded_run := run crowded_disk 3%nat (@lease checksum256 sample_texts 2 0 10000000000 sample_queue).
Lemma lease_scan_terminates_witness :
  sample_crowded_run.1.2.1 = None /\ (2 <= length (raw_names sample_crowded_run.1.1))%nat.
Proof.
  assert (Hout : sample_crowded_run.1.2.1 = None) by (vm_compute; reflexivity).
  split; [exact Hout|].
  apply (@lease_scan_terminates checksum256 sample_texts 2 10000000000 sample_queue _ sample_crowded_run.1.2.2).
  rewrite <- Hout. unfold sample_crowded_run. apply exec_run_pair.
Defined.
