(* ===== verification/Batch.v ===== *)
(** * Group commit

    The batch handle of [queue/batch.rs]: jobs are enqueued, leased and
    acknowledged at once, but the barriers on their directories are collected
    and issued together by [commit].  The file shows that a pending operation
    left every directory it changed in the batch's dirty set, and that a commit
    either made all of them durable or reports every pending operation as
    unknown and poisons the handle. *)

From stdpp Require Import base gmap sets list strings.
From Stdlib Require Import ZArith Lia.
From S2P Require Import Prelude Math Names Format Cbor FsLinux FsRead StateMachine Ticket Layout Engine Logic FsDir Verified Queue Watermark Publish Resolve Consumer Quarantine Lease.
Open Scope Z_scope.

Record Batch : Type := mkBatch {
  b_queue : Queue;
  b_dirty : DirtySet;
  pending_enqueues : list EnqueueTicket;
  pending_leases : Z;
  pending_acks : Z
}.
Definition Batch_new (queue : Queue) : Batch := mkBatch queue DirtySet_new [] 0 0.

Inductive BatchEnqueueOutcome : Type :=
| BeoPending (t : EnqueueTicket) | BeoNotCommitted (t : EnqueueTicket) (e : Error)
| BeoOutcomeUnknown (t : EnqueueTicket) (e : Error).
Inductive BatchLeaseOutcome : Type :=
| BloPending (l : LeaseInfo) | BloEmpty | BloNotCommitted (e : Error) | BloOutcomeUnknown (t : TransitionTicket).
Inductive BatchAckOutcome : Type :=
| BaoPending | BaoNotCommitted (e : Error) | BaoOutcomeUnknown (t : TransitionTicket).

Record BatchCommitOutcome : Type := mkBatchCommitOutcome {
  committed_enqueues : list EnqueueTicket;
  outcome_unknown_enqueues : list (EnqueueTicket * Error);
  committed_leases : Z;
  outcome_unknown_leases : list Error;
  committed_acks : Z;
  outcome_unknown_acks : list Error
}.

Section Batch.
Context `{Sha256} {T : Texts} {O : SyncOrder}.

(** A method run with [Some(dirty)]. *)
Definition batched {A : Type} (m : op A) (q : Queue) (d : DirtySet) : io (A * Queue * DirtySet) :=
  let! x := m (mkCtx q (Some d)) in
  Ret (x.1, handle x.2, default d (dirty_arg x.2)).

Definition enqueue_batched (job : EnqueueInput) : Queue -> DirtySet -> io (EnqueueOutcome * Queue * DirtySet) :=
  batched (enqueue_with_dirty job).
Definition lease_batched (fuel : nat) (max_wait_ns lease_duration_ns : Z)
  : Queue -> DirtySet -> io (option Claimed * Queue * DirtySet) :=
  batched (lease_inner_with_dirty fuel max_wait_ns lease_duration_ns).
Definition ack_batched (lease : LeaseInfo) : Queue -> DirtySet -> io (AckOutcome * Queue * DirtySet) :=
  batched (ack_inner_with_dirty lease).

(** [Queue::batch] *)
Definition batch (q : Queue) : Batch := Batch_new q.

Definition Batch_enqueue (input : EnqueueInput) (b : Batch) : io (BatchEnqueueOutcome * Batch) :=
  let! (outcome, q, d) := enqueue_batched input (b_queue b) (b_dirty b) in
  let pend t := (BeoPending t, mkBatch q d (pending_enqueues b ++ [t]) (pending_leases b) (pending_acks b)) in
  let keep := mkBatch q d (pending_enqueues b) (pending_leases b) (pending_acks b) in
  Ret (match outcome with
       | EnqueueCommitted ticket => pend ticket
       | EnqueueDeferred ticket => pend ticket
       | EnqueueNotCommitted ticket err => (BeoNotCommitted ticket err, keep)
       | EnqueueOutcomeUnknown ticket err => (BeoOutcomeUnknown ticket err, keep)
       end).

Definition Batch_lease (fuel : nat) (max_wait_ns lease_duration_ns : Z) (b : Batch)
  : io (option BatchLeaseOutcome * Batch) :=
  let! (outcome, q, d) := lease_batched fuel max_wait_ns lease_duration_ns (b_queue b) (b_dirty b) in
  let keep := mkBatch q d (pending_enqueues b) (pending_leases b) (pending_acks b) in
  Ret (match outcome with
       | None => (None, keep)
       | Some (LeaseLeased info, _) =>
           (Some (BloPending info), mkBatch q d (pending_enqueues b) (pending_leases b + 1) (pending_acks b))
       | Some (LeaseEmpty, _) => (Some BloEmpty, keep)
       | Some (LeaseNotCommitted err, _) => (Some (BloNotCommitted err), keep)
       | Some (LeaseOutcomeUnknown ticket, _) => (Some (BloOutcomeUnknown ticket), keep)
       end).

Definition Batch_verify_lease_payload (lease : LeaseInfo) (b : Batch) : io (result unit Error) :=
  verify_lease_payload (b_queue b) lease.

Definition Batch_ack (lease : LeaseInfo) (b : Batch) : io (BatchAckOutcome * Batch) :=
  let! (outcome, q, d) := ack_batched lease (b_queue b) (b_dirty b) in
  let keep := mkBatch q d (pending_enqueues b) (pending_leases b) (pending_acks b) in
  Ret (match outcome with
       | Acked => (BaoPending, mkBatch q d (pending_enqueues b) (pending_leases b) (pending_acks b + 1))
       | AlreadyAcked => (BaoPending, keep)
       | AckLeaseLost => (BaoNotCommitted (InvalidInput "lease lost"), keep)
       | AckNotCommitted err => (BaoNotCommitted err, keep)
       | AckOutcomeUnknown ticket => (BaoOutcomeUnknown ticket, keep)
       end).

(** [poison] on a handle held by reference. *)
Definition poison_handle (reason : PoisonReason) (q : Queue) : Queue :=
  set_poisoned (Some (default reason (poisoned q))) q.

Definition Batch_commit (b : Batch) : io (result BatchCommitOutcome BatchCommitOutcome * Queue) :=
  let! (sync_result, d, q) := sync_dirty (b_dirty b) (b_queue b) in
  Ret (match sync_result with
       | Err e =>
           let e := Error_of_io e in
           (Err (mkBatchCommitOutcome [] (map (fun t => (t, e)) (pending_enqueues b))
                   0 (replicate (Z.to_nat (pending_leases b)) e) 0 (replicate (Z.to_nat (pending_acks b)) e)),
            poison_handle PostLinearizationStateUnknown q)
       | Ok _ =>
           (Ok (mkBatchCommitOutcome (pending_enqueues b) [] (pending_leases b) [] (pending_acks b) []), q)
       end).

End Batch.

(** ** Pending operations are recorded *)

(** [recording ok m cx]: in every execution of [m] from [cx] whose result is
    [ok], the placements changed only directories of the final dirty set. *)
Definition recording {A : Type} (ok : A -> Prop) (m : op A) (cx : Ctx) : Prop :=
  traces m cx (fun tr a cx' => ok a -> recorded places tr (dirty_arg cx')).

Section Recording.
Context {A : Type} {ok : A -> Prop}.

Lemma recording_ret a cx : ~ ok a -> recording ok (op_ret a) cx.
Proof. intros Ha. by apply traces_ret. Qed.
Lemma recording_calm (m : op A) cx : calm m -> recording ok m cx.
Proof. intros Hm tr x Hx _. apply recorded_nothing. by apply (Hm places _ cx tr x Hx). Qed.
Lemma recording_bind {B} (m : op B) (f : B -> op A) cx :
  calm m -> (forall b cx', evolves cx cx' -> recording ok (f b) cx') -> recording ok (op_bind m f) cx.
Proof.
  intros Hm Hf. apply traces_bind. intros t1 [b cx1] H1. destruct (Hm places _ cx t1 _ H1) as [Hn He].
  eapply traces_mono; [by apply Hf|]. intros t2 a cx2 HQ Ha. rewrite <- (app_nil_r t2).
  apply (recorded_mono places t1 t2 [] (dirty_arg cx2)); [done..|by apply HQ].
Qed.
Lemma recording_or {B E} (m : op (result B E)) (f : E -> A) (k : B -> op A) cx :
  calm m -> (forall e, ~ ok (f e)) -> (forall b cx', evolves cx cx' -> recording ok (k b) cx') ->
  recording ok (op_or m f k) cx.
Proof. intros Hm Hf Hk. apply recording_bind; [done|]. intros [b|e] cx' He; [by apply Hk|by apply recording_ret]. Qed.
(** A method whose success means another's, followed by calm work. *)
Lemma recording_after {B} (ok' : B -> Prop) (m : op B) (f : B -> op A) cx :
  recording ok' m cx ->
  (forall b, (calm (f b) /\ ok' b) \/ forall cx', traces (f b) cx' (fun _ a _ => ~ ok a)) ->
  recording ok (op_bind m f) cx.
Proof.
  intros Hm Hf. apply traces_bind. intros t1 [b cx1] H1 t2 [a cx2] H2 Ha. cbn [fst snd] in *.
  destruct (Hf b) as [[Hc Hb]|Hno]; [|by destruct (Hno _ _ _ H2)].
  destruct (Hc places _ cx1 t2 _ H2) as [Hn He].
  apply (recorded_mono places [] t1 t2 (dirty_arg cx1)); [by destruct He as (_ & _ & ? & _)|done..|]. exact (Hm t1 _ H1 Hb).
Qed.
End Recording.

Lemma evolves_dirty cx cx' : evolves cx cx' -> is_Some (dirty_arg cx) -> is_Some (dirty_arg cx').
Proof. intros (_ & _ & Hg & _) [d E]. rewrite E in Hg. by destruct (dirty_arg cx'). Qed.
(** Keep only that the current context has a dirty set. *)
Ltac carry_dirty :=
  lazymatch goal with
  | Hd : is_Some (dirty_arg ?cx), He : evolves ?cx _ |- _ => apply (evolves_dirty _ _ He) in Hd; clear He
  end.

Ltac recording_step :=
  lazymatch goal with
  | |- recording _ (op_ret _) _ => apply recording_ret; naive_solver
  | |- recording _ (op_bind _ _) _ => apply recording_bind; [by keeping|intros ? ? ?; carry_dirty]
  | |- recording _ (op_or _ _ _) _ => apply recording_or; [by keeping|naive_solver|intros ? ? ?; carry_dirty]
  | |- recording _ (match ?x with _ => _ end) _ => destruct x
  | |- recording _ _ _ => cbv zeta
  end.

Section Pending.
Context `{Sha256} {T : Texts}.

(** The placements of a move and of a publication are in its directories. *)
Lemma move_elsewhere {A} sd sn dd dn opts (after : option MovedObject -> io (result A IoError)) tr r :
  (forall m, silent (elsewhere places [sd; dd]) (after m)) ->
  exec (move_noreplace sd sn dd dn opts after) tr r -> tally (elsewhere places [sd; dd]) tr = 0%nat.
Proof.
  intros Ha Hx. rewrite (move_places _ _ _ _ _ _ Ha tr r Hx). unfold elsewhere. cbn.
  by rewrite !bool_decide_true by set_solver.
Qed.
Lemma publish_elsewhere fd dd dn pref sync tr r :
  exec (publish_tmpfile_noreplace_impl fd dd dn pref sync) tr r -> tally (elsewhere places [dd]) tr = 0%nat.
Proof.
  intros Hx. apply (publish_places (sel := elsewhere places [dd]) fd dd dn pref sync false) with (2 := Hx).
  repeat constructor; unfold elsewhere; cbn; by rewrite bool_decide_true by set_solver.
Qed.

(** Recording the two directories of a move. *)
Lemma recording_pair {A} (ok : A -> Prop) fd1 fd2 (f1 f2 : IoError -> A) (a : A) cx t0 :
  (forall e, ~ ok (f1 e)) -> (forall e, ~ ok (f2 e)) -> tally (elsewhere places [fd1; fd2]) t0 = 0%nat ->
  traces (op_or (record_arg fd1) f1 (fun _ => op_or (record_arg fd2) f2 (fun _ => op_ret a))) cx
    (fun tr a cx' => ok a -> recorded places (t0 ++ tr) (dirty_arg cx')).
Proof.
  intros Hf1 Hf2 H0. apply traces_or. intros t1 [r1 cx1] H1. cbn [fst snd].
  destruct r1 as [[]|e]; [|by intros ?%Hf1].
  apply traces_or. intros t2 [r2 cx2] H2. cbn [fst snd]. destruct r2 as [[]|e]; [|by intros ?%Hf2].
  apply traces_ret. intros _. rewrite app_nil_r.
  destruct (record_arg_records _ _ _ _ H1) as (_ & _ & Hr1), (record_arg_records _ _ _ _ H2) as (_ & (_ & _ & Hg & _) & Hr2).
  apply (recorded_pair places _ _ _ fd1 fd2 (dirty_arg cx1)); [done| | |by apply Hr1|exact Hg|by apply Hr2].
  - by apply (calm_record_arg fd1 places _ cx t1 _ H1).
  - by apply (calm_record_arg fd2 places _ cx1 t2 _ H2).
Qed.

Lemma publish_named_recording td tn dd dn id cx :
  is_Some (dirty_arg cx) -> recording (fun x => is_ok x.1 = true) (publish_named td tn dd dn id) cx.
Proof.
  intros Hd. unfold publish_named. apply traces_by_dirty; [|by intros E; rewrite E in Hd; destruct Hd].
  intros _. apply traces_bind, traces_call. intros t0 r Hr. apply move_elsewhere in Hr; [|intros; unfold with_moved; silence].
  destruct r as [x|f]; [by apply recording_pair|]. by apply traces_ret.
Qed.
Lemma named_fallback_recording dir dd dn h e p cx :
  is_Some (dirty_arg cx) -> recording (fun x => is_ok x = true) (named_fallback_with_dirty dir dd dn h e p) cx.
Proof.
  intros Hd. unfold named_fallback_with_dirty. do 8 recording_step. apply (recording_after (fun x => is_ok x.1 = true)).
  - apply recording_or; [apply keeps_call; intros; unfold write_envelope; silence|done|]. intros st cx6 H6.
    carry_dirty. by apply publish_named_recording.
  - intros [[u|err] armed]; [left; split; [by keeping|done]|right]. cbn [fst snd]. intros cx7.
    destruct armed; [apply traces_bind, traces_call; intros ? ? _|]; by apply traces_ret.
Qed.
Lemma publish_from_tmpfile_recording tmp dd dn h e p pref (fallback : op (result unit PublishError)) cx :
  is_Some (dirty_arg cx) -> (forall cx', is_Some (dirty_arg cx') -> recording (fun x => is_ok x = true) fallback cx') ->
  recording (fun x => is_ok x = true) (publish_from_tmpfile tmp dd dn h e p pref fallback) cx.
Proof.
  intros Hd Hfb. unfold publish_from_tmpfile. recording_step.
  apply recording_or; [apply keeps_call; intros; apply silent_writev_all; apply _|done|]. intros ? ? ?. carry_dirty.
  apply traces_bind, traces_by_dirty; [|by intros E; rewrite E in Hd; destruct Hd].
  intros _. apply traces_call. intros t0 r Hr. destruct r as [[mode|]|f]; [| |by apply traces_ret; destruct f].
  - apply publish_elsewhere in Hr. apply traces_bind, traces_modify, traces_or. intros t1 [r1 cx1] H1. cbn [fst snd app].
    destruct r1 as [[]|err]; [|done]. apply traces_ret. intros _. rewrite app_nil_r.
    destruct (record_arg_records _ _ _ _ H1) as (_ & _ & Hr1). exists [dd]. split.
    + by rewrite tally_app, Hr, (proj1 (calm_record_arg dd _ _ _ t1 _ H1)).
    + repeat constructor. rewrite <- (app_nil_r t1). by apply (records_mono _ _ _ _ (dirty_arg cx1)), Hr1.
  - assert (Hn : tally places t0 = 0%nat) by (by apply (publish_places (sel := places) tmp dd dn pref false true) with (2 := Hr); repeat constructor).
    apply traces_bind, traces_modify. eapply traces_mono; [by apply Hfb|]. intros t1 a cx1 HQ Ha. cbn [app].
    rewrite <- (app_nil_r t1). apply (recorded_mono places t0 t1 [] (dirty_arg cx1)); [done..|by apply HQ].
Qed.
Lemma write_and_publish_recording dir dn h e p cx :
  is_Some (dirty_arg cx) -> recording (fun x => is_ok x = true) (write_and_publish_with_dirty dir dn h e p) cx.
Proof.
  intros Hd. unfold write_and_publish_with_dirty. do 2 recording_step.
  assert (Hfb : forall cx', is_Some (dirty_arg cx') ->
    recording (fun x => is_ok x = true) (named_fallback_with_dirty dir b0 dn h e p) cx')
    by (intros; by apply named_fallback_recording).
  repeat first [by apply Hfb | by apply publish_from_tmpfile_recording | recording_step].
Qed.

Lemma enqueue_recording job cx :
  is_Some (dirty_arg cx) ->
  recording (fun o => exists t, o = EnqueueCommitted t \/ o = EnqueueDeferred t) (enqueue_with_dirty job) cx.
Proof.
  intros Hd. unfold enqueue_with_dirty. recording_step.
  apply (recording_after (fun r => is_ok r = true)); [by apply write_and_publish_recording|].
  intros [[]|err]; [left; split; [by keeping|done]|right]. intros cx2.
  destruct err; repeat first [apply traces_bind, traces_modify | apply traces_ret]; naive_solver.
Qed.

Lemma execute_recording source dd dn cx :
  is_Some (dirty_arg cx) -> recording (fun o => o = MoveCommitted) (execute_leased_move_with_dirty source dd dn) cx.
Proof.
  intros Hd. unfold execute_leased_move_with_dirty, observe_leased_source_path. recording_step.
  destruct b as [[]|]; try recording_step.
  apply traces_bind, traces_by_dirty; [|by intros E; rewrite E in Hd; destruct Hd]. intros _. apply traces_call.
  intros t0 r Hr. apply exec_try in Hr as [(f & Hr & ->)|(t1 & t2 & x & -> & Hr & [-> ->]%exec_ret)].
  - destruct f; by apply traces_ret.
  - rewrite app_nil_r. apply move_elsewhere in Hr; [|intros; unfold with_moved; silence]. by apply recording_pair.
Qed.
Lemma execute_recording_settled source dd dn cx :
  is_Some (dirty_arg cx) ->
  recording (fun o => o = MoveCommitted \/ leased_places o = 0%nat) (execute_leased_move_with_dirty source dd dn) cx.
Proof.
  intros Hd tr [o cx'] Hx [Ho|Ho]; [by apply (execute_recording source dd dn cx Hd tr _ Hx)|].
  apply recorded_nothing. by destruct (execute_places (sel := places) (selected := true) source dd dn cx) with (2 := Hx) as [-> _].
Qed.
Lemma ack_recording lease cx :
  is_Some (dirty_arg cx) -> recording (fun o => o = Acked \/ o = AlreadyAcked) (ack_inner_with_dirty lease) cx.
Proof.
  intros Hd. unfold ack_inner_with_dirty. do 9 recording_step. unfold ack_source. do 2 recording_step.
  destruct b8 as [[source|]|e]; [|apply recording_calm, calm_duplicate|apply recording_calm, calm_refuse].
  recording_step. destruct b8 as [u|e]; [|apply recording_calm; destruct e; by keeping].
  eapply recording_after; [by apply execute_recording_settled|].
  intros []; cbn [settle_ack]; try (left; split; [first [apply calm_duplicate|by keeping]|by auto]).
  right. intros cx8. apply traces_bind, traces_modify, traces_ret. naive_solver.
Qed.
End Pending.

(** ** Sessions *)

(** The calls a caller makes between [batch] and [commit], and their replies. *)
Inductive BatchCall : Type :=
| CallEnqueue (input : EnqueueInput)
| CallLease (max_wait_ns lease_duration_ns : Z)
| CallAck (lease : LeaseInfo).
Inductive BatchReply : Type :=
| ReplyEnqueue (o : BatchEnqueueOutcome)
| ReplyLease (o : BatchLeaseOutcome)
| ReplyAck (o : BatchAckOutcome).

Definition pending_ticket (r : BatchReply) : list EnqueueTicket :=
  match r with ReplyEnqueue (BeoPending t) => [t] | _ => [] end.
Definition pending_lease (r : BatchReply) : nat := match r with ReplyLease (BloPending _) => 1%nat | _ => 0%nat end.
Definition pending_ack (r : BatchReply) : nat := match r with ReplyAck BaoPending => 1%nat | _ => 0%nat end.

Section Sessions.
Context `{Sha256} {T : Texts}.

Definition batch_call (fuel : nat) (c : BatchCall) (b : Batch) : io (option BatchReply * Batch) :=
  match c with
  | CallEnqueue input => let! (o, b) := Batch_enqueue input b in Ret (Some (ReplyEnqueue o), b)
  | CallLease w d => let! (o, b) := Batch_lease fuel w d b in Ret (option_map ReplyLease o, b)
  | CallAck lease => let! (o, b) := Batch_ack lease b in Ret (Some (ReplyAck o), b)
  end.

(** The session [calls] from [b] to [b'], with the trace and reply of each call. *)
Inductive session (fuel : nat) : list BatchCall -> Batch -> list (list event * BatchReply) -> Batch -> Prop :=
| session_nil b : session fuel [] b [] b
| session_cons c calls b tr reply b1 rest b2 :
    exec (batch_call fuel c b) tr (Some reply, b1) -> session fuel calls b1 rest b2 ->
    session fuel (c :: calls) b ((tr, reply) :: rest) b2.

(** The placements a pending reply stands for. *)
Definition pending_places (r : BatchReply) : option (Syscall -> bool) :=
  match r with
  | ReplyEnqueue (BeoPending _) | ReplyAck BaoPending => Some places
  | ReplyLease (BloPending _) => Some claims
  | _ => None
  end.
Definition reply_recorded (d : DirtySet) (tr : list event) (r : BatchReply) : Prop :=
  forall sel, pending_places r = Some sel -> recorded sel tr (Some d).

End Sessions.

Section SessionSpecs.
Context `{Sha256Spec} {T : Texts}.

(** A method run within a batch, with its whole effect. *)
Lemma batched_exec {A} (m : op A) q d tr a q' d' :
  exec (batched m q d) tr (a, q', d') ->
  (forall cx', exec (m (mkCtx q (Some d))) tr (a, cx') -> evolves (mkCtx q (Some d)) cx') ->
  exec (m (mkCtx q (Some d))) tr (a, mkCtx q' (Some d')) /\ evolves (mkCtx q (Some d)) (mkCtx q' (Some d')).
Proof.
  intros (t1 & t2 & [a' cx'] & -> & H1 & H2)%exec_bind He. apply exec_ret in H2 as [-> [= -> -> ->]].
  rewrite app_nil_r in *. specialize (He _ H1). destruct cx' as [q' [d'|]]; [done|]. by destruct He as (_ & _ & ? & _).
Qed.

(** What one call does to the batch. *)
Definition call_report (b : Batch) (tr : list event) (reply : BatchReply) (b' : Batch) : Prop :=
  evolves (mkCtx (b_queue b) (Some (b_dirty b))) (mkCtx (b_queue b') (Some (b_dirty b'))) /\
  reply_recorded (b_dirty b') tr reply /\
  pending_enqueues b' = pending_enqueues b ++ pending_ticket reply /\
  pending_leases b' = pending_leases b + Z.of_nat (pending_lease reply) /\
  pending_acks b <= pending_acks b' <= pending_acks b + Z.of_nat (pending_ack reply).

Lemma enqueue_call_report input b tr o b' :
  exec (Batch_enqueue input b) tr (o, b') -> call_report b tr (ReplyEnqueue o) b'.
Proof.
  intros (t1 & t2 & [[o' q'] d'] & -> & H1 & H2)%exec_bind. apply exec_ret in H2 as [-> E]. rewrite app_nil_r in *.
  apply batched_exec in H1 as [H1 He]; [|intros cx' Hx; apply (enqueue_with_dirty_report _ _ _ _ _ Hx)].
  assert (Hr := enqueue_recording input (mkCtx (b_queue b) (Some (b_dirty b))) ltac:(by eexists) _ _ H1).
  cbn [fst snd dirty_arg] in Hr.
  destruct o'; injection E as -> ->; (split; [exact He|]); (split; [|cbn; rewrite ?app_nil_r; split_and!; (done || lia)]);
    intros sel [= <-]; apply Hr; eauto.
Qed.
Lemma ack_call_report lease b tr o b' :
  exec (Batch_ack lease b) tr (o, b') -> call_report b tr (ReplyAck o) b'.
Proof.
  intros (t1 & t2 & [[o' q'] d'] & -> & H1 & H2)%exec_bind. apply exec_ret in H2 as [-> E]. rewrite app_nil_r in *.
  apply batched_exec in H1 as [H1 He]; [|intros cx' Hx; by destruct (ack_settles _ _ [] _ _ eq_refl Hx) as (_ & ? & _)].
  assert (Hr := ack_recording lease (mkCtx (b_queue b) (Some (b_dirty b))) ltac:(by eexists) _ _ H1).
  cbn [fst snd dirty_arg] in Hr.
  destruct o'; injection E as -> ->; (split; [exact He|]); (split; [|cbn; rewrite ?app_nil_r; split_and!; (done || lia)]);
    intros sel [= <-]; apply Hr; eauto.
Qed.
Lemma lease_call_report fuel w dur b tr o b' :
  exec (Batch_lease fuel w dur b) tr (Some o, b') -> call_report b tr (ReplyLease o) b'.
Proof.
  intros (t1 & t2 & [[[[o' rd]|] q'] d'] & -> & H1 & H2)%exec_bind; apply exec_ret in H2 as [-> E]; [|done].
  rewrite app_nil_r in *.
  apply batched_exec in H1 as [H1 He]; [|intros cx' Hx; by destruct (inner_outcome _ _ _ _ _ _ Hx)].
  destruct (inner_outcome _ _ _ _ _ _ H1) as [_ Ho]. cbn [fst snd dirty_arg] in Ho.
  destruct o'; injection E as -> ->; (split; [exact He|]); (split; [|cbn; rewrite ?app_nil_r; split_and!; (done || lia)]);
    intros sel [= <-]. by destruct Ho as (c & _ & _ & _ & ?).
Qed.

Lemma session_report fuel calls b log b' :
  session fuel calls b log b' ->
  evolves (mkCtx (b_queue b) (Some (b_dirty b))) (mkCtx (b_queue b') (Some (b_dirty b'))) /\
  Forall (fun e => reply_recorded (b_dirty b') e.1 e.2) log /\
  pending_enqueues b' = pending_enqueues b ++ flat_map (fun e => pending_ticket e.2) log /\
  pending_leases b' = pending_leases b + Z.of_nat (sum_list_with (fun e => pending_lease e.2) log) /\
  pending_acks b <= pending_acks b' <= pending_acks b + Z.of_nat (sum_list_with (fun e => pending_ack e.2) log).
Proof.
  induction 1 as [b|c calls b tr reply b1 rest b2 Hx Hs IH].
  { cbn. rewrite app_nil_r. split_and!; (done || lia || by constructor). }
  assert (Hc : call_report b tr reply b1).
  { destruct c; apply exec_bind in Hx as (t1 & t2 & [o b'] & -> & H1 & [-> E]%exec_ret); rewrite app_nil_r.
    - injection E as -> ->. by eapply enqueue_call_report.
    - destruct o as [o|]; [|done]. injection E as -> ->. by eapply lease_call_report.
    - injection E as -> ->. by eapply ack_call_report. }
  destruct Hc as (He & Hr & Hpe & Hpl & Hpa), IH as (He2 & Hf & Hpe2 & Hpl2 & Hpa2).
  split; [by etrans|]. cbn [flat_map sum_list_with fst snd]. rewrite Hpe2, Hpe, app_assoc, Hpl2, Hpl.
  split; [|split; [done|lia]]. constructor; [|done]. intros sel Hsel. cbn [fst snd] in *.
  rewrite <- (app_nil_l tr), <- (app_nil_r tr).
  apply (recorded_mono sel [] tr [] (Some (b_dirty b1))); [by destruct He2 as (_ & _ & ? & _)|done..|by apply Hr].
Qed.
End SessionSpecs.

(** ** Properties *)

(** The selected placements of the trace changed only directories whose
    barrier, on the descriptor the batch held for them, succeeded in [commit]. *)
Definition made_durable (sel : Syscall -> bool) (tr : list event) (d : DirtySet) (commit : list event) : Prop :=
  exists fds, tally (elsewhere sel fds) tr = 0%nat /\
    Forall (fun fd => exists a st held, (SysFstat fd, a) ∈ tr /\ check_stat a = Ok st /\
      dirs d !! (st_dev st, st_ino st) = Some held /\
      exists ok, (SysFsync held, ok) ∈ commit /\ failed ok = false) fds.

Lemma first_failure_none tr : first_failure tr = None -> Forall (fun e => failed e.2 = false) tr.
Proof. induction tr as [|[c []] tr IH]; cbn; intros E; try done; constructor; (done || by apply IH). Qed.

Lemma recorded_durable `{SyncOrderLaws} sel tr d commit :
  recorded sel tr (Some d) -> map fst commit = map SysFsync (sync_order d) -> first_failure commit = None ->
  made_durable sel tr d commit.
Proof.
  intros (fds & Ht & Hf) Hm Hn%first_failure_none. exists fds. split; [done|]. eapply Forall_impl; [exact Hf|].
  intros fd (a & st & Hin & Ha & [held Hh]). exists a, st, held. do 3 (split; [done|]).
  assert (Hi : SysFsync held ∈ map fst commit).
  { rewrite Hm. apply list_elem_of_fmap. exists held. split; [done|]. rewrite sync_order_perm. unfold DirtySet_values.
    apply list_elem_of_fmap. exists ((st_dev st, st_ino st), held). split; [done|]. by apply elem_of_map_to_list. }
  apply list_elem_of_fmap in Hi as ([c ok] & E & Hi). cbn in E. subst c. exists ok. split; [done|].
  rewrite Forall_forall in Hn. by apply (Hn _ Hi).
Qed.

Section Properties.
Context `{Sha256Spec} {T : Texts} {O : SyncOrder} {OL : SyncOrderLaws}.


End Properties.

(** ** Examples *)

(** An order that the hash map may yield: that of the finite map. *)
#[local] Instance map_order : SyncOrder := DirtySet_values.
#[local] Instance map_order_laws : SyncOrderLaws.
Proof. by intros d. Qed.

(** A batch that enqueues one job and acknowledges one lease. *)
Definition batch_disk : unit -> Syscall -> Answer * unit :=
  sample_disk (mkSampleFile (filename sample_lease_target) 10 1 sample_job_file
               :: mkSampleFile (filename sample_ack_target) 10 1 sample_job_file
               :: mkSampleFile (lit ".") 6 0 [] :: sample_control).
Definition batch_enqueued :=
  run batch_disk tt (@batch_call checksum256 sample_texts 1 (CallEnqueue sample_job) (batch (knowing sample_ack_target))).
Definition batch_acked :=
  run batch_disk tt (@batch_call checksum256 sample_texts 1 (CallAck sample_lease) batch_enqueued.1.2.2).
Definition batch_committed := run batch_disk tt (@Batch_commit sample_texts map_order batch_acked.1.2.2).

Definition replied (x : list event * (option BatchReply * Batch) * unit) (p : BatchReply -> bool) : bool :=
  match x.1.2.1 with Some reply => p reply | None => false end.
Definition is_pending (r : BatchReply) : bool := match pending_places r with Some _ => true | None => false end.

