(* ===== verification/Inspect.v ===== *)
(** * Inspection and administration

    Models the rest of [crates/steadq-core/src/queue/inspect.rs]: the structural
    validation of active objects, which recovery and the integrity check rely
    on, the lookup of every state of a job, the listing and removal of dead
    letters, and the streaming of a leased payload.  Exports, which copy a file
    through the standard library, are left out.

    Listings read directories until they end, so they take fuel; [None] means
    it ran out. *)
From stdpp Require Import base numbers list option strings gmap.
From Stdlib Require Import Strings.Byte ZArith.
From S2P Require Import Prelude Math Names Format Cbor FsLinux FsRead FsDir StateMachine Ticket Layout Engine Logic Verified Queue Watermark Publish Resolve Consumer Quarantine.
Open Scope string_scope.
Open Scope list_scope.

(** A computation that may run out of fuel or fail. *)
Notation "'let!+' x ':=' m 'in' k" :=
  (io_bind m (fun r => match r with Some (Ok x) => k | Some (Err e) => Ret (Some (Err e)) | None => Ret None end))
  (at level 200, x name, m at level 100, k at level 200).
(** One that cannot run out of it. *)
Definition fueled {A : Type} (m : io A) : io (option A) := let! r := m in Ret (Some r).
Definition fuel_map_err {A E F : Type} (f : E -> F) (m : io (option (result A E))) : io (option (result A F)) :=
  let! r := m in Ret (option_map (map_err f) r).

Inductive ActivePathContext : Type :=
| CtxReady (shard : bytes)
| CtxLeased (boot_id bucket shard : bytes)
| CtxDelayed (bucket shard : bytes).

Definition raw_read_open_flags : Z := O_RDONLY + O_NOFOLLOW + O_CLOEXEC + O_NONBLOCK.

Section Inspect.
Context `{Sha256} {T : Texts}.

(** ** Opening objects *)

Definition open_regular_read (dir_fd : Z) (name : bytes) : io (result (Z * Stat) IoError) :=
  let not_regular := CustomError KInvalidData (bytes_text name +:+ ": not a regular file") in
  let!? fd := io_map_err (fun error => if os_error_in [ELOOP] error then not_regular else error)
    (openat dir_fd name raw_read_open_flags 0) in
  let!? stat := fstat fd in
  if negb (is_regular stat) then Ret (Err not_regular) else Ret (Ok (fd, stat)).

Definition regular_open_error (error : IoError) : Error :=
  if bool_decide (kind error = KInvalidData) then QueueCorrupt (io_text error) else Error_of_io error.

(** ** Validation of active objects *)

(** The bucket a name belongs in must be the one on its path. *)
Definition check_bucket (expected : option Z) (invalid what : string) (bucket : bytes) : result unit Error :=
  match expected with
  | None => Err (QueueCorrupt invalid)
  | Some expected_bucket =>
      let expected_bucket_str := bucket_hex expected_bucket in
      if negb (bool_decide (expected_bucket_str = bucket))
      then Err (QueueCorrupt (what +:+ " bucket mismatch: path " +:+ bytes_text bucket +:+ " != expected "
                                +:+ bytes_text expected_bucket_str))
      else Ok tt
  end.

(** The name under its path: the identity it carries and the shard on the path. *)
Definition check_active_name (q : Queue) (name : bytes) (ctx : ActivePathContext)
  : result (bytes * Z * bytes) Error :=
  let f := format (config q) in
  match ctx with
  | CtxReady shard =>
      let? p := map_err (fun _ => QueueCorrupt "invalid ready filename") (parse_ready name) in
      if negb (ReadyName_authenticate_tag p (fr_queue_id f) shard) then Err (QueueCorrupt "name tag mismatch")
      else Ok (cf_job_id (rn_common p), cf_maximum_attempts (rn_common p), shard)
  | CtxLeased boot_id bucket shard =>
      let? p := map_err (fun _ => QueueCorrupt "invalid leased filename") (parse_leased name) in
      if negb (LeasedName_authenticate_tag p (fr_queue_id f) boot_id bucket shard)
      then Err (QueueCorrupt "name tag mismatch")
      else
        let? _ := check_bucket (lease_bucket (ln_boottime_deadline_ns p) (fr_lease_bucket_width_ns f))
          "invalid lease bucket width" "leased" bucket in
        Ok (cf_job_id (ln_common p), cf_maximum_attempts (ln_common p), shard)
  | CtxDelayed bucket shard =>
      let? p := map_err (fun _ => QueueCorrupt "invalid delayed filename") (parse_delayed name) in
      if negb (DelayedName_authenticate_tag p (fr_queue_id f) bucket shard) then Err (QueueCorrupt "name tag mismatch")
      else
        let? _ := check_bucket (ceiling_bucket (dn_not_before_ns p) (fr_delayed_bucket_width_ns f))
          "invalid delayed bucket width" "delayed" bucket in
        Ok (cf_job_id (dn_common p), cf_maximum_attempts (dn_common p), shard)
  end.

(** The header against the name, and the shard of the job against its path. *)
Definition check_active_header (q : Queue) (header : FixedHeader) (identity : bytes * Z * bytes)
  : result FixedHeader Error :=
  let '(job_id, max_att, path_shard_str) := identity in
  if negb (bool_decide (fh_job_id header = job_id))
  then Err (QueueCorrupt "header job_id does not match filename")
  else if negb (fh_maximum_attempts header =? max_att)%Z
  then Err (QueueCorrupt "header maximum_attempts does not match filename")
  else
    let computed_shard := compute_shard (queue_id q) job_id (shard_count q) in
    match shard_from_hex path_shard_str with
    | None => Err (QueueCorrupt ("invalid shard hex: " +:+ bytes_text path_shard_str))
    | Some path_shard =>
        if negb (path_shard =? computed_shard)%Z
        then Err (QueueCorrupt ("shard mismatch: path " +:+ number_text path_shard +:+ " != computed "
                                  +:+ number_text computed_shard))
        else Ok header
    end.

(** From the central verifier on. *)
Definition validate_active_on_fd (q : Queue) (file_fd : Z) (name : bytes) (ctx : ActivePathContext)
  : io (result FixedHeader Error) :=
  let!? verified := io_map_err Error_from_verification (verify_envelope_on_fd file_fd) in
  let header := vj_header verified in
  if negb (payload_length_is_valid (fh_payload_length header) (fr_max_payload_length (format (config q))))
  then Ret (Err (QueueCorrupt ("payload length " +:+ number_text (fh_payload_length header)
         +:+ " exceeds queue limit " +:+ number_text (fr_max_payload_length (format (config q))))))
  else lift (let? identity := check_active_name q name ctx in check_active_header q header identity).
Definition validate_active_object (q : Queue) (dir_fd : Z) (name : bytes) (ctx : ActivePathContext)
  : io (result FixedHeader Error) :=
  let!? (file_fd, stat) := io_map_err regular_open_error (open_regular_read dir_fd name) in
  if negb (st_nlink stat =? 1)%Z
  then Ret (Err (QueueCorrupt (bytes_text name +:+ ": unexpected link count " +:+ number_text (st_nlink stat))))
  else validate_active_on_fd q file_fd name ctx.

(** ** Listings *)

Definition open_child_dir (parent : Z) (name : bytes) : io (result (option Z) Error) :=
  let! fd := open_directory parent name in
  Ret (match fd with
       | Ok fd => Ok (Some fd)
       | Err error =>
           if bool_decide (kind error = KNotFound) || os_error_in [ENOTDIR] error then Ok None
           else Err (Error_of_io error)
       end).

Definition names_in (fuel : nat) (dir : Z) : io (option (result (list bytes) Error)) :=
  let!+ entries := fuel_map_err Error_of_io (read_dir_entries fuel dir) in
  Ret (Some (Ok (omap as_ascii_str entries))).

(** A visitor of shard directories: the descriptor, the path and the name of
    the last level, and the results so far. *)
Definition Visit : Type := Z -> bytes -> bytes -> list Snapshot -> io (option (result (list Snapshot) Error)).
Definition child (path name : bytes) : bytes := path ++ lit "/" ++ name.

(** The loop over the children of one level. *)
Fixpoint walk_children (descend : Z -> bytes -> bytes -> list Snapshot -> io (option (result (list Snapshot) Error)))
    (parent : Z) (path : bytes) (names : list bytes) (out : list Snapshot)
  : io (option (result (list Snapshot) Error)) :=
  match names with
  | [] => Ret (Some (Ok out))
  | name :: names' =>
      let! opened := open_child_dir parent name in
      match opened with
      | Err error => Ret (Some (Err error))
      | Ok None => walk_children descend parent path names' out
      | Ok (Some child_fd) =>
          let!+ out := descend child_fd (child path name) name out in
          walk_children descend parent path names' out
      end
  end.
Fixpoint walk (fuel depth : nat) (shard : bytes) (visit : Visit) (parent : Z) (path last : bytes) (out : list Snapshot)
  : io (option (result (list Snapshot) Error)) :=
  match depth with
  | O =>
      let! opened := open_child_dir parent shard in
      match opened with
      | Err error => Ret (Some (Err error))
      | Ok None => Ret (Some (Ok out))
      | Ok (Some fd) => visit fd (child path shard) last out
      end
  | S depth' =>
      let!+ names := names_in fuel parent in
      walk_children (walk fuel depth' shard visit) parent path names out
  end.
Definition visit_shard_dirs (fuel : nat) (root : Z) (state : bytes) (depth : nat) (shard : bytes) (visit : Visit)
    (out : list Snapshot) : io (option (result (list Snapshot) Error)) :=
  let! opened := open_child_dir root state in
  match opened with
  | Err error => Ret (Some (Err error))
  | Ok (Some fd) => walk fuel depth shard visit fd state state out
  | Ok None => Ret (Some (Ok out))
  end.

(** [push]: an entry of the wanted job. *)
Definition snapshot_of (job_id : bytes) (shard : Z) (state : bytes) (common : CommonFields) (relative_path : bytes)
  : list Snapshot :=
  if bool_decide (cf_job_id common = job_id)
  then [mkSnapshot job_id state (cf_generation common) (cf_attempt common) (cf_maximum_attempts common) shard
          relative_path 0]
  else [].

(** What an entry of a state directory is, by its name alone. *)
Definition ready_entry (job_id : bytes) (shard : Z) (path entry : bytes) : list Snapshot :=
  match parse_ready entry with
  | Ok parsed => snapshot_of job_id shard (lit "ready") (rn_common parsed) (child path entry)
  | Err _ =>
      match parse_leased entry with
      | Ok parsed => snapshot_of job_id shard (lit "leased") (ln_common parsed) (child path entry)
      | Err _ => []
      end
  end.
Definition leased_entry (job_id : bytes) (shard : Z) (path entry : bytes) : list Snapshot :=
  match parse_leased entry with
  | Ok parsed => snapshot_of job_id shard (lit "leased") (ln_common parsed) (child path entry)
  | Err _ => []
  end.
Definition delayed_entry (job_id : bytes) (shard : Z) (path entry : bytes) : list Snapshot :=
  match parse_delayed entry with
  | Ok parsed => snapshot_of job_id shard (lit "delayed") (dn_common parsed) (child path entry)
  | Err _ => []
  end.
Definition dead_entry (q : Queue) (job_id : bytes) (shard : Z) (path bucket entry : bytes) : list Snapshot :=
  match parse_dead entry with
  | Ok parsed =>
      if DeadName_authenticate_tag parsed (queue_id q) bucket (shard_hex shard)
      then snapshot_of job_id shard (lit "dead") (xn_common parsed) (child path entry)
      else []
  | Err _ => []
  end.
(** Visitors that only look at names. *)
Definition visit_names (fuel : nat) (entry : bytes -> bytes -> bytes -> list Snapshot) : Visit :=
  fun fd path bucket out =>
    let!+ names := names_in fuel fd in
    Ret (Some (Ok (out ++ flat_map (entry path bucket) names))).

(** The receipts of the job in one directory: each is opened and verified. *)
Fixpoint visit_receipts (q : Queue) (job_id : bytes) (shard fd : Z) (path bucket : bytes) (names : list bytes)
    (out : list Snapshot) : io (option (result (list Snapshot) Error)) :=
  match names with
  | [] => Ret (Some (Ok out))
  | entry :: names' =>
      let continue := visit_receipts q job_id shard fd path bucket names' in
      match parse_receipt entry with
      | Err _ => continue out
      | Ok parsed =>
          if negb (bool_decide (cf_job_id (tn_common parsed) = job_id)) then continue out
          else
            let! file_fd := openat fd entry receipt_read_open_flags 0 in
            match file_fd with
            | Err error =>
                if bool_decide (kind error = KNotFound) then continue out else Ret (Some (Err (Error_of_io error)))
            | Ok file_fd =>
                let! r := verify_receipt_on_fd file_fd (receipt_context q bucket (shard_hex shard) entry) None in
                match r with
                | Ok _ => continue (out ++ snapshot_of job_id shard (lit "receipt") (tn_common parsed) (child path entry))
                | Err (VerifyIo message) => Ret (Some (Err (IoFailure message)))
                | Err _ => continue out
                end
            end
      end
  end.

Definition inspect (fuel : nat) (q : Queue) (job_id : bytes) : io (option (result (list Snapshot) Error)) :=
  let shard := compute_shard (queue_id q) job_id (shard_count q) in
  let shard_str := shard_hex shard in
  let visit state depth v out := visit_shard_dirs fuel (root_fd (config q)) (lit state) depth shard_str v out in
  let!+ out := visit "ready" 0%nat (visit_names fuel (fun path _ => ready_entry job_id shard path)) [] in
  let!+ out := visit "leased" 2%nat (visit_names fuel (fun path _ => leased_entry job_id shard path)) out in
  let!+ out := visit "delayed" 1%nat (visit_names fuel (fun path _ => delayed_entry job_id shard path)) out in
  let!+ out := visit "dead" 1%nat (visit_names fuel (dead_entry q job_id shard)) out in
  visit "receipts" 1%nat (fun fd path bucket out =>
    let!+ names := names_in fuel fd in
    visit_receipts q job_id shard fd path bucket names out) out.

(** ** Dead letters *)

(** [expect] on a path that [inspect] built. *)
Definition find_dead (fuel : nat) (q : Queue) (job_id : bytes) : io (option (result (option (Z * bytes)) Error)) :=
  let!+ snapshots := inspect fuel q job_id in
  match List.find (fun s => bool_decide (sn_state s = lit "dead")) snapshots with
  | None => Ret (Some (Ok None))
  | Some snapshot =>
      let (dir_rel, name) := default ([], []) (rsplit_once (sn_relative_path snapshot)) in
      let!+ dir_fd := fueled (io_map_err Error_of_io (open_relative (root_fd (config q)) dir_rel)) in
      Ret (Some (Ok (Some (dir_fd, name))))
  end.

Definition remove_dead_object (dir_fd : Z) (name : bytes) : io (result bool Error) :=
  let! r := unlink_verified dir_fd name in
  Ret (match r with
       | Ok _ => Ok true
       | Err UnlinkSourceMissing => Ok false
       | Err (UnlinkNotCommitted phase source) =>
           Err (match Error_of_io source with
                | IoFailure message =>
                    IoFailure ("dead removal failed at " +:+ unlink_phase_text phase +:+ ": " +:+ message)
                | classified => classified
                end)
       | Err (UnlinkOutcomeUnknown phase source) =>
           Err (IoFailure ("dead removal indeterminate at " +:+ unlink_phase_text phase +:+ ": " +:+ io_text source))
       end).
Definition remove_dead (fuel : nat) (q : Queue) (job_id : bytes) : io (option (result bool Error)) :=
  let!+ found := find_dead fuel q job_id in
  match found with
  | None => Ret (Some (Ok false))
  | Some (dir_fd, name) => fueled (remove_dead_object dir_fd name)
  end.

(** The entries of one shard directory that are dead letters of this queue. *)
Definition listed_dead (q : Queue) (bucket shard : bytes) (shard_num : Z) (entry : bytes) : option Snapshot :=
  match as_ascii_str entry with
  | None => None
  | Some entry =>
      match parse_dead entry with
      | Err _ => None
      | Ok parsed =>
          if negb (DeadName_authenticate_tag parsed (queue_id q) bucket shard) then None
          else
            let common := xn_common parsed in
            Some (mkSnapshot (cf_job_id common) (lit "dead") (cf_generation common) (cf_attempt common)
                    (cf_maximum_attempts common) shard_num
                    (lit "dead/" ++ bucket ++ lit "/" ++ shard ++ lit "/" ++ entry) 0)
      end
  end.
Fixpoint list_dead_shards (fuel : nat) (q : Queue) (bucket_fd : Z) (bucket : bytes) (shards : list bytes)
    (out : list Snapshot) : io (option (result (list Snapshot) Error)) :=
  match shards with
  | [] => Ret (Some (Ok out))
  | shard :: shards' =>
      let continue := list_dead_shards fuel q bucket_fd bucket shards' in
      match as_ascii_str shard with
      | None => continue out
      | Some shard =>
          match shard_from_hex shard with
          | None => continue out
          | Some shard_num =>
              let! opened := open_child_dir bucket_fd shard in
              match opened with
              | Err error => Ret (Some (Err error))
              | Ok None => continue out
              | Ok (Some shard_fd) =>
                  let!+ entries := fuel_map_err Error_of_io (read_dir_entries fuel shard_fd) in
                  continue (out ++ omap (listed_dead q bucket shard shard_num) entries)
              end
          end
      end
  end.
Fixpoint list_dead_buckets (fuel : nat) (q : Queue) (dead_fd : Z) (buckets : list bytes) (out : list Snapshot)
  : io (option (result (list Snapshot) Error)) :=
  match buckets with
  | [] => Ret (Some (Ok out))
  | bucket :: buckets' =>
      let continue := list_dead_buckets fuel q dead_fd buckets' in
      match as_ascii_str bucket with
      | None => continue out
      | Some bucket =>
          let! opened := open_child_dir dead_fd bucket in
          match opened with
          | Err error => Ret (Some (Err error))
          | Ok None => continue out
          | Ok (Some bucket_fd) =>
              let!+ shards := fuel_map_err Error_of_io (read_dir_entries fuel bucket_fd) in
              let!+ out := list_dead_shards fuel q bucket_fd bucket shards out in
              continue out
          end
      end
  end.
Definition list_dead (fuel : nat) (q : Queue) : io (option (result (list Snapshot) Error)) :=
  let!+ dead_fd := fueled (io_map_err Error_of_io (open_directory (root_fd (config q)) (lit "dead"))) in
  let!+ buckets := fuel_map_err Error_of_io (read_dir_entries fuel dead_fd) in
  let!+ out := list_dead_buckets fuel q dead_fd buckets [] in
  Ret (Some (Ok (sort_by sn_relative_path out))).

(** ** Streaming a payload *)

(** The loop of [stream_lease_payload]; [f] is the caller's function, over a
    state of its own. *)
Fixpoint stream_payload {St : Type} (fuel : nat) (reader : VerifiedPayloadReader) (chunk : Z)
    (f : St -> bytes -> io (result St Error)) (s : St) (offset : Z) : io (option (result St Error)) :=
  match fuel with
  | O => Ret None
  | S fuel' =>
      let!+ data := fueled (read_at reader chunk offset) in
      if (length data =? 0)%nat then Ret (Some (Ok s))
      else
        let!+ s := fueled (f s data) in
        stream_payload fuel' reader chunk f s (offset + Z.of_nat (length data))
  end.
Definition stream_lease_payload {St : Type} (fuel : nat) (lease : LeaseInfo) (chunk_size : Z)
    (f : St -> bytes -> io (result St Error)) (s : St) : op (option (result St Error)) :=
  let* reader := open_verified_payload_reader lease in
  match reader with
  | Err e => op_ret (Some (Err e))
  | Ok None => op_ret (Some (Err (QueueCorrupt "lease source not found")))
  | Ok (Some reader) => call (stream_payload fuel reader (Z.max 4096 (Z.min chunk_size 1048576)) f s 0)
  end.

End Inspect.

(** ** What an accepted active object is *)

Section Validation.
Context `{Sha256Spec} {T : Texts}.

(** The path context of a location in one of the active states. *)
Definition context_of (l : Location) : option ActivePathContext :=
  match l with
  | LocReady shard => Some (CtxReady (shard_hex shard))
  | LocLeased boot_id bucket shard => Some (CtxLeased boot_id (bucket_hex bucket) (shard_hex shard))
  | LocDelayed bucket shard => Some (CtxDelayed (bucket_hex bucket) (shard_hex shard))
  | _ => None
  end.
(** The boot on the path of a lease is the one its name carries. *)
Definition boot_agrees (name : bytes) (ctx : ActivePathContext) : Prop :=
  match ctx with
  | CtxLeased boot_id _ _ => forall n, parse_leased name = Ok n -> boot_id_bytes boot_id = Some (ln_boot_id n)
  | _ => True
  end.
(** The name and its path are those of an authentic target of the job with
    identity [c], in the shard of that job. *)
Definition active_at (q : Queue) (name : bytes) (ctx : ActivePathContext) (c : CommonFields) : Prop :=
  exists t, filename t = name /\ context_of (location t) = Some ctx /\ authentic (layout q) t c /\
    Target_shard t = shard_for (layout q) (cf_job_id c).

Lemma check_bucket_ok expected invalid what bucket u :
  check_bucket expected invalid what bucket = Ok u <-> exists b, expected = Some b /\ bucket = bucket_hex b.
Proof.
  destruct u. unfold check_bucket. destruct expected as [b|]; [|by split; [|intros (?&?&?)]].
  case_bool_decide as E; cbn [negb]; split; try done.
  - intros _. by exists b.
  - intros (b' & [= <-] & ->). done.
Qed.

Definition header_agrees (h : FixedHeader) (c : CommonFields) : Prop :=
  fh_job_id h = cf_job_id c /\ fh_maximum_attempts h = cf_maximum_attempts c.
Lemma check_header_ok q h job max_att shard h' :
  check_active_header q h (job, max_att, shard) = Ok h' <->
  h' = h /\ fh_job_id h = job /\ fh_maximum_attempts h = max_att /\
  shard_from_hex shard = Some (shard_for (layout q) job).
Proof.
  unfold check_active_header. change (compute_shard _ job _) with (shard_for (layout q) job).
  case_bool_decide; cbn [negb]; [|by split; [|intros (?&?&?)]].
  destruct (_ =? max_att)%Z eqn:E; breflect; cbn [negb]; [|split; [done|intros (?&?&?&?); congruence]].
  destruct (shard_from_hex shard) as [s|]; [|by split; [|intros (?&?&?&?)]].
  destruct (s =? _)%Z eqn:E2; breflect; cbn [negb]; split.
  - intros [= <-]. by subst.
  - by intros (-> & _).
  - done.
  - intros (_ & _ & _ & [= ?]). done.
Qed.

Lemma active_place_exact q name ctx h h' :
  Layout_wf (layout q) -> boot_agrees name ctx ->
  (let? identity := check_active_name q name ctx in check_active_header q h identity) = Ok h' <->
  h' = h /\ exists c, active_at q name ctx c /\ header_agrees h c.
Proof.
  intros HL Hb. pose proof (fun j => proj2 (shard_for_range (layout q) j HL)) as Hu.
  pose proof HL as (_ & Hlw & Hdw & _). split.
  - destruct ctx as [shard|boot bucket shard|bucket shard]; cbn [check_active_name].
    + destruct (parse_ready name) as [n|] eqn:En; [|done]. cbn [map_err rbind].
      destruct (ReadyName_authenticate_tag _ _ _) eqn:Ea; cbn [negb rbind]; [|done].
      intros (-> & Hj & Hm & Hs%shard_from_hex_Some)%check_header_ok. destruct Hs as [-> Hs]. split; [done|].
      exists (rn_common n). split; [|by split]. exists (mkTarget (LocReady (shard_for (layout q) (cf_job_id (rn_common n)))) name).
      split_and!; [done..| |done]. by exists n.
    + destruct (parse_leased name) as [n|] eqn:En; [|done]. cbn [map_err rbind].
      destruct (LeasedName_authenticate_tag _ _ _ _ _) eqn:Ea; cbn [negb rbind]; [|done].
      destruct (check_bucket _ _ _ _) as [u|] eqn:Eb; [|done]. apply check_bucket_ok in Eb as (b & Hbk & ->).
      cbn [rbind]. intros (-> & Hj & Hm & Hs%shard_from_hex_Some)%check_header_ok. destruct Hs as [-> Hs].
      split; [done|]. exists (ln_common n). split; [|by split]. exists (mkTarget (LocLeased boot b (shard_for (layout q) (cf_job_id (ln_common n)))) name).
      split_and!; [done..| |done]. exists n. by split_and!; [..|auto|done|done].
    + destruct (parse_delayed name) as [n|] eqn:En; [|done]. cbn [map_err rbind].
      destruct (DelayedName_authenticate_tag _ _ _ _) eqn:Ea; cbn [negb rbind]; [|done].
      destruct (check_bucket _ _ _ _) as [u|] eqn:Eb; [|done]. apply check_bucket_ok in Eb as (b & Hbk & ->).
      cbn [rbind]. intros (-> & Hj & Hm & Hs%shard_from_hex_Some)%check_header_ok. destruct Hs as [-> Hs].
      split; [done|]. exists (dn_common n). split; [|by split]. exists (mkTarget (LocDelayed b (shard_for (layout q) (cf_job_id (dn_common n)))) name).
      apply parse_delayed_iff in En as En'. destruct En' as [(_ & Hn & _) _].
      apply ceiling_bucket_Some in Hbk; [|done..]. split_and!; [done..| |done]. by exists n.
  - intros (-> & c & (t & <- & Hc & Ha & Hs) & Hj & Hm). destruct t as [l name]. cbn [filename location] in *.
    destruct l as [sh|boot b sh|b sh|b sh|b sh]; cbn in Hc; try done; injection Hc as <-; cbn in Hs; subst sh;
      destruct Ha as (n & En & <- & Ha); cbn [filename] in En; cbn [check_active_name]; rewrite En; cbn [map_err rbind].
    + cbn in Ha. rewrite Ha. cbn [negb rbind]. apply check_header_ok. repeat split; try done.
      by apply shard_from_hex_Some.
    + destruct Ha as (_ & Hbk & Ha). cbn in Ha, Hbk. rewrite Ha, Hbk. cbn [negb].
      rewrite (proj2 (check_bucket_ok (Some b) _ _ _ tt)) by (by exists b). cbn [rbind].
      apply check_header_ok. repeat split; try done. by apply shard_from_hex_Some.
    + destruct Ha as (Hbk & Ha). cbn in Ha, Hbk. rewrite Ha. cbn [negb].
      apply parse_delayed_iff in En as En'. destruct En' as [(_ & Hn & _) _].
      apply ceiling_bucket_Some in Hbk; [|done..]. rewrite Hbk.
      rewrite (proj2 (check_bucket_ok (Some b) _ _ _ tt)) by (by exists b). cbn [rbind].
      apply check_header_ok. repeat split; try done. by apply shard_from_hex_Some.
Qed.

(** The content is an envelope of this queue and its name and path are those of
    the job it holds; the payload itself is not read. *)
Definition valid_active (q : Queue) (name : bytes) (ctx : ActivePathContext) (content : bytes) (h : FixedHeader) : Prop :=
  (exists ve, ValidatedEnvelope_from_bytes content false = Ok ve /\ ve_header ve = h) /\
  (fh_payload_length h <= fr_max_payload_length (format (config q)))%Z /\
  exists c, active_at q name ctx c /\ header_agrees h c.
(** A stat of the run showed something else than a file with one link. *)
Definition saw_irregular (tr : list event) : Prop :=
  Exists (fun ev => exists st, ev.2 = Stats st /\ is_singly_linked_regular st = false) tr.

Lemma safe_name name : safe_component name -> cstr_from_name name = Ok name.
Proof.
  intros (_ & _ & _ & Hf & _). destruct (cstr_from_name_cases name) as [[E _]|E]; [done|].
  unfold cstr_from_name, CPath_from_bytes in *. destruct (contains x00 name) eqn:Hc; [|done].
  exfalso. unfold contains in Hc. apply existsb_exists in Hc as (b & Hin & Hb). apply list_elem_of_In in Hin.
  rewrite Forall_forall in Hf. destruct (Hf b Hin) as [Hg _]. breflect. by subst b.
Qed.

Lemma validate_on_fd_exact q fd name ctx content :
  Layout_wf (layout q) -> boot_agrees name ctx ->
  wp (serves fd content) (validate_active_on_fd q fd name ctx)
    (fun tr r => match r with
       | Ok h => valid_active q name ctx content h
       | Err _ => some_failed tr \/ forall h, ~ valid_active q name ctx content h
       end).
Proof.
  intros HL Hb. apply wp_try, wp_map_err. eapply wp_mono; [apply envelope_judged|].
  intros t1 [job|e] Hj; cbn [map_err].
  - destruct Hj as (payload & Hc & _). rewrite <- from_bytes_checks in Hc.
    assert (Hv : forall h, valid_active q name ctx content h -> h = vj_header job).
    { intros h ((ve & Hve & <-) & _). rewrite Hc in Hve. by injection Hve as <-. }
    unfold payload_length_is_valid. destruct (_ <=? _)%Z eqn:El; breflect; cbn [negb]; apply wp_ret.
    + destruct (rbind _ _) as [h|e] eqn:E.
      * apply active_place_exact in E as [-> Hp]; [|done..]. split; [by eexists|]. done.
      * right. intros h Hh. pose proof (Hv _ Hh) as ->. destruct Hh as (_ & _ & Hp).
        assert (Ok (vj_header job) = Err e) by (rewrite <- E; symmetry; by apply active_place_exact). done.
    + right. intros h Hh. pose proof (Hv _ Hh) as ->. destruct Hh as (_ & Hl & _). lia.
  - assert (rejected false content -> forall h, ~ valid_active q name ctx content h).
    { intros Hr h ((ve & Hve & _) & _). by apply (Hr ve), from_bytes_checks. }
    destruct e; cbn; auto.
Qed.

(** Every read and stat of a run is served from the same content. *)
Definition serves_all (content : bytes) (ev : event) : Prop := forall fd, serves fd content ev.
Definition saw_stat (st : Stat) (tr : list event) : Prop := Exists (fun ev => ev.2 = Stats st) tr.
Lemma irregular_app t1 t2 : saw_irregular t1 \/ saw_irregular t2 -> saw_irregular (t1 ++ t2).
Proof. apply Exists_app. Qed.
Lemma saw_irregular_stat st tr : saw_stat st tr -> is_singly_linked_regular st = false -> saw_irregular tr.
Proof. intros Hs Hi. eapply Exists_impl; [exact Hs|]. intros ev E. by exists st. Qed.

Lemma wp_assume {A} (ok ok' : event -> Prop) (p : io A) (Q : list event -> A -> Prop) :
  (forall ev, ok' ev -> ok ev) -> wp ok p Q -> wp ok' p Q.
Proof. intros Hok Hp tr a Ha Ht. apply Hp; [done|]. by eapply Forall_impl. Qed.

Lemma regular_stat_seen content fd not_regular :
  wp (serves_all content)
    (let!? stat := fstat fd in if negb (is_regular stat) then Ret (Err not_regular) else Ret (Ok (fd, stat)))
    (fun tr r => match r with
       | Ok (_, st) => is_regular st = true /\ saw_stat st tr
       | Err _ => some_failed tr \/ saw_irregular tr
       end).
Proof.
  apply wp_try, wp_sys. intros a Ha. apply wp_ret. specialize (Ha _ eq_refl). destruct a as [| |st| | | |]; try done.
  - left. apply some_failed_one.
  - cbn [check_stat]. destruct (is_regular st) eqn:Er; cbn [negb]; apply wp_ret.
    + split; [done|]. by constructor.
    + right. constructor. exists st. split; [done|]. unfold is_singly_linked_regular. by rewrite Er.
Qed.
Lemma open_regular_read_seen content dir_fd name :
  wp (serves_all content) (open_regular_read dir_fd name) (fun tr r =>
    match r with
    | Ok (_, st) => is_regular st = true /\ saw_stat st tr
    | Err _ => some_failed tr \/ saw_irregular tr \/ cstr_from_name name <> Ok name
    end).
Proof.
  unfold open_regular_read, openat. cbv zeta. apply wp_try, wp_map_err.
  destruct (cstr_from_name_cases name) as [[E _]|E]; rewrite E; cbn [lift io_try io_bind].
  2:{ apply wp_ret. cbn [map_err]. auto. }
  apply wp_sys. intros a _. apply wp_ret. destruct (check_fd a) as [fd|e] eqn:Ef; cbn [map_err].
  - eapply wp_mono; [apply regular_stat_seen|]. intros t2 [[fd' st]|e].
    + intros [? ?]. split; [done|]. apply Exists_app. by right.
    + rewrite some_failed_app. intros [?|?]; [auto|]. right. left. apply irregular_app. by right.
  - destruct a; try done. left. apply some_failed_one.
Qed.

End Validation.

(** ** Witness *)

Definition sample_shard : Z := shard_for (H := checksum256) (layout sample_queue) (replicate 16 x2a).
Definition sample_ready_object : Target :=
  @Layout_ready checksum256 (layout sample_queue) (mkCommon (replicate 16 x2a) 3 0 5).
Definition sample_validation :=
  run (sample_file_kernel sample_job_file) tt
    (@validate_active_object checksum256 sample_texts sample_queue 9 (filename sample_ready_object)
       (CtxReady (shard_hex sample_shard))).

