(* ===== verification/Recovery.v ===== *)
(** * Recovery: budgets, cursor and hierarchy walk

    Models [crates/steadq-core/src/recovery.rs] up to the pass itself and
    [recovery/walk.rs]: the work and scan budgets, the statistics, bounded and
    streamed directory reads charged to the scan budget, the persisted cursor
    with its validation and its temporary files, the retry ledger for
    directories that could not be read, and the shared steps of the walk.  The
    phases and the pass are in [Phases].

    A step of recovery is a program over the handle, the statistics and the
    scan accounting ([rop]).  Directories are read until they end, so a step
    that reads one takes fuel; [None] means it ran out.  Counters are kept as
    integers: [Maintenance] shows that the operation count never exceeds the
    caller's limit, and every other counter counts steps that are charged to
    one of the budgets. *)
From stdpp Require Import base numbers list option strings gmap.
From Stdlib Require Import Strings.Byte ZArith.
From S2P Require Import Prelude Math Names Format Cbor FsLinux FsRead FsDir StateMachine Ticket Layout Engine Logic Verified Queue Watermark Publish Quarantine Lease Inspect.
Open Scope string_scope.
Open Scope list_scope.

(** ** Limits *)

Definition RECOVERY_CURSOR_SCHEMA : bytes := lit "steadq-recovery-cursor".
Definition RECOVERY_CURSOR_VERSION : Z := 1.
Definition RECOVERY_CURSOR_FILE : bytes := lit "recovery-cursor.json".
Definition RECOVERY_CURSOR_MAX_BYTES : Z := 16 * 1024.
Definition MAX_RECOVERY_DIRECTORY_ENTRIES : Z := 65536.
Definition MAX_RECOVERY_DIRECTORY_NAME_BYTES : Z := MAX_RECOVERY_DIRECTORY_ENTRIES * 255.
Definition MAX_RECOVERY_DIRECTORY_ENTRY_CHARGE : Z := MAX_RECOVERY_DIRECTORY_ENTRIES + 1.
Definition MAX_RECOVERY_DIRECTORY_NAME_BYTE_CHARGE : Z := MAX_RECOVERY_DIRECTORY_NAME_BYTES + 255.
Definition MAX_RECOVERY_HIERARCHY_RETRIES : nat := 64.
Definition MAX_RECOVERY_RESUMED_TRAVERSAL_READS : Z := 4.
Definition RECOVERY_RETRY_READS : Z := 1.
Definition MIN_RECOVERY_PROGRESS_READS : Z := MAX_RECOVERY_RESUMED_TRAVERSAL_READS + RECOVERY_RETRY_READS.
Definition MIN_RECOVERY_PROGRESS_ENTRIES : Z := MAX_RECOVERY_DIRECTORY_ENTRIES * MIN_RECOVERY_PROGRESS_READS + 1.
Definition MIN_RECOVERY_PROGRESS_NAME_BYTES : Z :=
  MAX_RECOVERY_DIRECTORY_NAME_BYTES * MIN_RECOVERY_PROGRESS_READS + 255.
Definition DEFAULT_RECOVERY_DIRECTORY_READS : Z := 1024.

Record WorkBudget : Type := mkWorkBudget { max_operations : Z; max_duration_ms : Z }.
Definition WorkBudget_default : WorkBudget := mkWorkBudget 1000 100.
Record RecoveryScanBudget : Type := mkRecoveryScanBudget {
  max_directories_read : Z; max_entries_read : Z; max_name_bytes_read : Z }.
Definition minimum_for_progress : RecoveryScanBudget :=
  mkRecoveryScanBudget MIN_RECOVERY_PROGRESS_READS MIN_RECOVERY_PROGRESS_ENTRIES MIN_RECOVERY_PROGRESS_NAME_BYTES.
Definition RecoveryScanBudget_default : RecoveryScanBudget :=
  mkRecoveryScanBudget DEFAULT_RECOVERY_DIRECTORY_READS (max_entries_read minimum_for_progress)
    (max_name_bytes_read minimum_for_progress).

(** ** Statistics *)

Record RecoveryQuarantine : Type := mkRecoveryQuarantine {
  rq_relative_path : bytes; rq_quarantine_id : bytes; rq_quarantine_name : bytes }.
Record RecoveryError : Type := mkRecoveryError {
  re_operation : string; re_relative_path : bytes; re_error : string }.
Record RecoveryStats : Type := mkRecoveryStats {
  operations_attempted : Z;
  temp_files_deleted : Z;
  delayed_promoted : Z;
  leases_reaped : Z;
  leases_to_dead : Z;
  buckets_removed : Z;
  shards_removed : Z;
  receipts_compacted : Z;
  receipts_expired : Z;
  quarantined : list RecoveryQuarantine;
  budget_exhausted : bool;
  phase_blocked : bool;
  rerrors : list RecoveryError;
  scan_skips : Z
}.
Definition RecoveryStats_default : RecoveryStats := mkRecoveryStats 0 0 0 0 0 0 0 0 0 [] false false [] 0.

(** One field changed. *)
Definition count_temp_deleted (s : RecoveryStats) : RecoveryStats :=
  mkRecoveryStats (operations_attempted s) (temp_files_deleted s + 1) (delayed_promoted s) (leases_reaped s)
    (leases_to_dead s) (buckets_removed s) (shards_removed s) (receipts_compacted s) (receipts_expired s)
    (quarantined s) (budget_exhausted s) (phase_blocked s) (rerrors s) (scan_skips s).
Definition count_promoted (s : RecoveryStats) : RecoveryStats :=
  mkRecoveryStats (operations_attempted s) (temp_files_deleted s) (delayed_promoted s + 1) (leases_reaped s)
    (leases_to_dead s) (buckets_removed s) (shards_removed s) (receipts_compacted s) (receipts_expired s)
    (quarantined s) (budget_exhausted s) (phase_blocked s) (rerrors s) (scan_skips s).
Definition count_reaped (s : RecoveryStats) : RecoveryStats :=
  mkRecoveryStats (operations_attempted s) (temp_files_deleted s) (delayed_promoted s) (leases_reaped s + 1)
    (leases_to_dead s) (buckets_removed s) (shards_removed s) (receipts_compacted s) (receipts_expired s)
    (quarantined s) (budget_exhausted s) (phase_blocked s) (rerrors s) (scan_skips s).
Definition count_to_dead (s : RecoveryStats) : RecoveryStats :=
  mkRecoveryStats (operations_attempted s) (temp_files_deleted s) (delayed_promoted s) (leases_reaped s)
    (leases_to_dead s + 1) (buckets_removed s) (shards_removed s) (receipts_compacted s) (receipts_expired s)
    (quarantined s) (budget_exhausted s) (phase_blocked s) (rerrors s) (scan_skips s).
Definition count_bucket_removed (s : RecoveryStats) : RecoveryStats :=
  mkRecoveryStats (operations_attempted s) (temp_files_deleted s) (delayed_promoted s) (leases_reaped s)
    (leases_to_dead s) (buckets_removed s + 1) (shards_removed s) (receipts_compacted s) (receipts_expired s)
    (quarantined s) (budget_exhausted s) (phase_blocked s) (rerrors s) (scan_skips s).
Definition count_shard_removed (s : RecoveryStats) : RecoveryStats :=
  mkRecoveryStats (operations_attempted s) (temp_files_deleted s) (delayed_promoted s) (leases_reaped s)
    (leases_to_dead s) (buckets_removed s) (shards_removed s + 1) (receipts_compacted s) (receipts_expired s)
    (quarantined s) (budget_exhausted s) (phase_blocked s) (rerrors s) (scan_skips s).
Definition count_compacted (s : RecoveryStats) : RecoveryStats :=
  mkRecoveryStats (operations_attempted s) (temp_files_deleted s) (delayed_promoted s) (leases_reaped s)
    (leases_to_dead s) (buckets_removed s) (shards_removed s) (receipts_compacted s + 1) (receipts_expired s)
    (quarantined s) (budget_exhausted s) (phase_blocked s) (rerrors s) (scan_skips s).
Definition count_expired (s : RecoveryStats) : RecoveryStats :=
  mkRecoveryStats (operations_attempted s) (temp_files_deleted s) (delayed_promoted s) (leases_reaped s)
    (leases_to_dead s) (buckets_removed s) (shards_removed s) (receipts_compacted s) (receipts_expired s + 1)
    (quarantined s) (budget_exhausted s) (phase_blocked s) (rerrors s) (scan_skips s).
Definition count_skip (s : RecoveryStats) : RecoveryStats :=
  mkRecoveryStats (operations_attempted s) (temp_files_deleted s) (delayed_promoted s) (leases_reaped s)
    (leases_to_dead s) (buckets_removed s) (shards_removed s) (receipts_compacted s) (receipts_expired s)
    (quarantined s) (budget_exhausted s) (phase_blocked s) (rerrors s) (scan_skips s + 1).
Definition set_operations (n : Z) (s : RecoveryStats) : RecoveryStats :=
  mkRecoveryStats n (temp_files_deleted s) (delayed_promoted s) (leases_reaped s) (leases_to_dead s)
    (buckets_removed s) (shards_removed s) (receipts_compacted s) (receipts_expired s) (quarantined s)
    (budget_exhausted s) (phase_blocked s) (rerrors s) (scan_skips s).
Definition push_quarantined (q : RecoveryQuarantine) (s : RecoveryStats) : RecoveryStats :=
  mkRecoveryStats (operations_attempted s) (temp_files_deleted s) (delayed_promoted s) (leases_reaped s)
    (leases_to_dead s) (buckets_removed s) (shards_removed s) (receipts_compacted s) (receipts_expired s)
    (quarantined s ++ [q]) (budget_exhausted s) (phase_blocked s) (rerrors s) (scan_skips s).
Definition set_exhausted (s : RecoveryStats) : RecoveryStats :=
  mkRecoveryStats (operations_attempted s) (temp_files_deleted s) (delayed_promoted s) (leases_reaped s)
    (leases_to_dead s) (buckets_removed s) (shards_removed s) (receipts_compacted s) (receipts_expired s)
    (quarantined s) true (phase_blocked s) (rerrors s) (scan_skips s).
Definition set_blocked (s : RecoveryStats) : RecoveryStats :=
  mkRecoveryStats (operations_attempted s) (temp_files_deleted s) (delayed_promoted s) (leases_reaped s)
    (leases_to_dead s) (buckets_removed s) (shards_removed s) (receipts_compacted s) (receipts_expired s)
    (quarantined s) (budget_exhausted s) true (rerrors s) (scan_skips s).
Definition push_error (e : RecoveryError) (s : RecoveryStats) : RecoveryStats :=
  mkRecoveryStats (operations_attempted s) (temp_files_deleted s) (delayed_promoted s) (leases_reaped s)
    (leases_to_dead s) (buckets_removed s) (shards_removed s) (receipts_compacted s) (receipts_expired s)
    (quarantined s) (budget_exhausted s) (phase_blocked s) (rerrors s ++ [e]) (scan_skips s).
Definition attempt_operation (s : RecoveryStats) : RecoveryStats := set_operations (operations_attempted s + 1) s.

(** The cursor with one field changed. *)
Definition set_phase (x : RecoveryPhase) (c : RecoveryCursor) : RecoveryCursor :=
  mkRecoveryCursor x (rk_reap_leases c) (rk_reap_colocated_shard c) (rk_reap_colocated_position c)
    (rk_promote_delayed c) (rk_cleanup_temp c) (rk_compact_receipts c) (rk_delete_receipts c)
    (rk_hierarchy_retries c) (rk_hierarchy_retry_frontiers c) (rk_hierarchy_retry_overflow c).
Definition set_reap_leases (x : option FourLevelCursor) (c : RecoveryCursor) : RecoveryCursor :=
  mkRecoveryCursor (rk_phase c) x (rk_reap_colocated_shard c) (rk_reap_colocated_position c) (rk_promote_delayed
    c) (rk_cleanup_temp c) (rk_compact_receipts c) (rk_delete_receipts c) (rk_hierarchy_retries c)
    (rk_hierarchy_retry_frontiers c) (rk_hierarchy_retry_overflow c).
Definition set_reap_colocated_shard (x : option Z) (c : RecoveryCursor) : RecoveryCursor :=
  mkRecoveryCursor (rk_phase c) (rk_reap_leases c) x (rk_reap_colocated_position c) (rk_promote_delayed c)
    (rk_cleanup_temp c) (rk_compact_receipts c) (rk_delete_receipts c) (rk_hierarchy_retries c)
    (rk_hierarchy_retry_frontiers c) (rk_hierarchy_retry_overflow c).
Definition set_reap_colocated_position (x : option Z) (c : RecoveryCursor) : RecoveryCursor :=
  mkRecoveryCursor (rk_phase c) (rk_reap_leases c) (rk_reap_colocated_shard c) x (rk_promote_delayed c)
    (rk_cleanup_temp c) (rk_compact_receipts c) (rk_delete_receipts c) (rk_hierarchy_retries c)
    (rk_hierarchy_retry_frontiers c) (rk_hierarchy_retry_overflow c).
Definition set_promote_delayed (x : option ThreeLevelCursor) (c : RecoveryCursor) : RecoveryCursor :=
  mkRecoveryCursor (rk_phase c) (rk_reap_leases c) (rk_reap_colocated_shard c) (rk_reap_colocated_position c) x
    (rk_cleanup_temp c) (rk_compact_receipts c) (rk_delete_receipts c) (rk_hierarchy_retries c)
    (rk_hierarchy_retry_frontiers c) (rk_hierarchy_retry_overflow c).
Definition set_cleanup_temp (x : option ThreeLevelCursor) (c : RecoveryCursor) : RecoveryCursor :=
  mkRecoveryCursor (rk_phase c) (rk_reap_leases c) (rk_reap_colocated_shard c) (rk_reap_colocated_position c)
    (rk_promote_delayed c) x (rk_compact_receipts c) (rk_delete_receipts c) (rk_hierarchy_retries c)
    (rk_hierarchy_retry_frontiers c) (rk_hierarchy_retry_overflow c).
Definition set_compact_receipts (x : option ThreeLevelCursor) (c : RecoveryCursor) : RecoveryCursor :=
  mkRecoveryCursor (rk_phase c) (rk_reap_leases c) (rk_reap_colocated_shard c) (rk_reap_colocated_position c)
    (rk_promote_delayed c) (rk_cleanup_temp c) x (rk_delete_receipts c) (rk_hierarchy_retries c)
    (rk_hierarchy_retry_frontiers c) (rk_hierarchy_retry_overflow c).
Definition set_delete_receipts (x : option ThreeLevelCursor) (c : RecoveryCursor) : RecoveryCursor :=
  mkRecoveryCursor (rk_phase c) (rk_reap_leases c) (rk_reap_colocated_shard c) (rk_reap_colocated_position c)
    (rk_promote_delayed c) (rk_cleanup_temp c) (rk_compact_receipts c) x (rk_hierarchy_retries c)
    (rk_hierarchy_retry_frontiers c) (rk_hierarchy_retry_overflow c).
Definition set_hierarchy_retries (x : list RecoveryHierarchyRetry) (c : RecoveryCursor) : RecoveryCursor :=
  mkRecoveryCursor (rk_phase c) (rk_reap_leases c) (rk_reap_colocated_shard c) (rk_reap_colocated_position c)
    (rk_promote_delayed c) (rk_cleanup_temp c) (rk_compact_receipts c) (rk_delete_receipts c) x
    (rk_hierarchy_retry_frontiers c) (rk_hierarchy_retry_overflow c).
Definition set_hierarchy_retry_frontiers (x : list RecoveryHierarchyRetry) (c : RecoveryCursor) : RecoveryCursor :=
  mkRecoveryCursor (rk_phase c) (rk_reap_leases c) (rk_reap_colocated_shard c) (rk_reap_colocated_position c)
    (rk_promote_delayed c) (rk_cleanup_temp c) (rk_compact_receipts c) (rk_delete_receipts c)
    (rk_hierarchy_retries c) x (rk_hierarchy_retry_overflow c).
Definition set_hierarchy_retry_overflow (x : list RecoveryPhase) (c : RecoveryCursor) : RecoveryCursor :=
  mkRecoveryCursor (rk_phase c) (rk_reap_leases c) (rk_reap_colocated_shard c) (rk_reap_colocated_position c)
    (rk_promote_delayed c) (rk_cleanup_temp c) (rk_compact_receipts c) (rk_delete_receipts c)
    (rk_hierarchy_retries c) (rk_hierarchy_retry_frontiers c) x.

(** ** Steps of recovery *)

Record RecoveryScanStats : Type := mkRecoveryScanStats {
  rs_directories_read : Z; rs_entries_read : Z; rs_name_bytes_read : Z }.
Definition RecoveryScanStats_default : RecoveryScanStats := mkRecoveryScanStats 0 0 0.
Record RecoveryReport : Type := mkRecoveryReport { rep_stats : RecoveryStats; rep_scan : RecoveryScanStats }.

(** What a step works on: the handle, the statistics and the scan accounting. *)
Record RCtx : Type := mkRCtx { rx_cx : Ctx; rx_stats : RecoveryStats; rx_scan : RecoveryScanStats }.
Definition rx_queue (rx : RCtx) : Queue := handle (rx_cx rx).

Definition rop (A : Type) : Type := RCtx -> io (option A * RCtx).
Definition rret {A : Type} (a : A) : rop A := fun rx => Ret (Some a, rx).
Definition rbind {A B : Type} (m : rop A) (f : A -> rop B) : rop B :=
  fun rx => io_bind (m rx) (fun x => match x.1 with Some a => f a x.2 | None => Ret (None, x.2) end).
Notation "'let~' x ':=' m 'in' k" := (rbind m (fun x => k))
  (at level 10, x pattern, m at level 100, k at level 200,
   format "'[v' 'let~'  x  ':='  m  'in' '//' k ']'") : steadq_scope.

Definition rget {A : Type} (f : RCtx -> A) : rop A := fun rx => Ret (Some (f rx), rx).
Definition rcall {A : Type} (p : io A) : rop A := fun rx => io_bind p (fun a => Ret (Some a, rx)).
Definition rcall_fuel {A : Type} (p : io (option A)) : rop A := fun rx => io_bind p (fun a => Ret (a, rx)).
(** A method of the handle. *)
Definition rmethod {A : Type} (m : op A) : rop A :=
  fun rx => io_bind (m (rx_cx rx)) (fun x => Ret (Some x.1, mkRCtx x.2 (rx_stats rx) (rx_scan rx))).
Definition rqueue {A : Type} (f : Queue -> A) : rop A := rget (fun rx => f (rx_queue rx)).
Definition rstats (f : RecoveryStats -> RecoveryStats) : rop unit :=
  fun rx => Ret (Some tt, mkRCtx (rx_cx rx) (f (rx_stats rx)) (rx_scan rx)).
Definition rscan (f : RecoveryScanStats -> RecoveryScanStats) : rop unit :=
  fun rx => Ret (Some tt, mkRCtx (rx_cx rx) (rx_stats rx) (f (rx_scan rx))).
Definition set_recovery_cursor (c : RecoveryCursor) (q : Queue) : Queue :=
  mkQueue (config q) (poisoned q) (scan_round q) (ready_shard_hint q) c (cached_wall_floor q) (cached_watermark_fd q)
    (known_dirs q) (cached_dest_fd q) (publication_mode q) (dirty q) (ready_watch q) (ready_watch_attempted q).
Definition rcursor (f : RecoveryCursor -> RecoveryCursor) : rop unit :=
  rmethod (modify (fun q => set_recovery_cursor (f (recovery_cursor q)) q)).

(** ** Errors *)

(** [std::ascii::escape_default], and the [Debug] text of an entry name. *)
Definition escape_default (b : byte) : bytes :=
  if bool_decide (b = x09) then lit "\t"
  else if bool_decide (b = x0d) then lit "\r"
  else if bool_decide (b = x0a) then lit "\n"
  else if bool_decide (b ∈ [x27; x22; x5c]) then [x5c; b]
  else if (32 <=? b2z b)%Z && (b2z b <=? 126)%Z then [b]
  else lit "\x" ++ hex_encode [b].
Definition raw_name_for_error (name : bytes) : bytes := [x62; x22] ++ flat_map escape_default name ++ [x22].

(** [{phase:?}] *)
Definition remove_phase_text (phase : RemoveDirectoryPhase) : string :=
  match phase with Remove => "Remove" | ParentFsync => "ParentFsync" end.
Definition replace_phase_text (phase : ReplacePhase) : string :=
  match phase with
  | ReplaceDestinationIdentity => "DestinationIdentity"
  | ReplaceRename => "Rename"
  | ReplaceDirectoryIdentity => "DirectoryIdentity"
  | ReplaceDestinationFsync => "DestinationFsync"
  | ReplaceSourceFsync => "SourceFsync"
  end.
Definition VerificationError_fmt (e : VerificationError) : string :=
  match e with
  | VerifyIo s => "I/O: " +:+ s
  | VerifyCorrupt s => "corrupt: " +:+ s
  | VerifyPayloadCorrupt => "payload corrupt"
  end.

Inductive RecoveryDirectoryError : Type :=
| DirBudgetExhausted
| DirClock (error : IoError)
| DirIo (error : IoError).

Definition record_error (operation : string) (path : bytes) (error : string) : rop unit :=
  rstats (push_error (mkRecoveryError operation path error)).
Definition block_phase (operation : string) (path : bytes) (error : string) : rop unit :=
  let~ _ := record_error operation path error in
  rstats set_blocked.

Section Recovery.
Context {T : Texts}.

Definition record_move_failure (operation : string) (path : bytes) (failure : MoveFailure) : rop unit :=
  let (category, detail) :=
    match failure with
    | MoveNotCommitted phase source =>
        ("not_committed", "phase=" +:+ move_phase_text phase +:+ ": " +:+ io_text source)
    | MoveOutcomeUnknown phase source =>
        ("outcome_unknown", "phase=" +:+ move_phase_text phase +:+ ": " +:+ io_text source)
    | MoveAlreadyExists => ("collision", "phase=Rename: destination already exists")
    | MoveSourceMissing => ("source_missing", "phase=Rename: source is missing")
    end in
  record_error (operation +:+ "_" +:+ category) path detail.
Definition record_unlink_failure (operation : string) (path : bytes) (failure : UnlinkFailure) : rop unit :=
  let (category, detail) :=
    match failure with
    | UnlinkNotCommitted phase source =>
        ("not_committed", "phase=" +:+ unlink_phase_text phase +:+ ": " +:+ io_text source)
    | UnlinkOutcomeUnknown phase source =>
        ("outcome_unknown", "phase=" +:+ unlink_phase_text phase +:+ ": " +:+ io_text source)
    | UnlinkSourceMissing => ("source_missing", "phase=Unlink: source is missing")
    end in
  record_error (operation +:+ "_" +:+ category) path detail.
Definition record_remove_directory_failure (operation : string) (path : bytes) (failure : RemoveDirectoryFailure)
  : rop unit :=
  let (category, detail) :=
    match failure with
    | RemoveNotCommitted phase source =>
        ("not_committed", "phase=" +:+ remove_phase_text phase +:+ ": " +:+ io_text source)
    | RemoveOutcomeUnknown phase source =>
        ("outcome_unknown", "phase=" +:+ remove_phase_text phase +:+ ": " +:+ io_text source)
    | RemoveSourceMissing => ("source_missing", "phase=Remove: directory is missing")
    | RemoveNotEmpty => ("not_empty", "phase=Remove: directory is not empty")
    end in
  record_error (operation +:+ "_" +:+ category) path detail.
Definition record_replace_failure (operation : string) (path : bytes) (failure : ReplaceFailure) : rop unit :=
  let (category, detail) :=
    match failure with
    | ReplaceNotCommitted phase source =>
        ("not_committed", "phase=" +:+ replace_phase_text phase +:+ ": " +:+ io_text source)
    | ReplaceOutcomeUnknown phase source =>
        ("outcome_unknown", "phase=" +:+ replace_phase_text phase +:+ ": " +:+ io_text source)
    | ReplaceSourceMissing => ("source_missing", "phase=Rename: source is missing")
    | ReplaceDestinationChanged =>
        ("destination_changed", "phase=DestinationIdentity: destination identity changed")
    end in
  record_error (operation +:+ "_" +:+ category) path detail.

(** Whether the pass must stop. *)
Definition record_directory_error (operation : string) (path : bytes) (error : RecoveryDirectoryError) : rop bool :=
  match error with
  | DirBudgetExhausted => let~ _ := rstats set_exhausted in rret true
  | DirClock error =>
      let~ _ := block_phase "clock_monotonic" path
        ("directory budget clock unavailable during " +:+ operation +:+ ": " +:+ io_text error) in
      let~ _ := rstats set_exhausted in
      rret true
  | DirIo error => let~ _ := block_phase operation path (io_text error) in rret false
  end.

(** ** Budgets *)

Definition RecoveryScanBudget_validate (b : RecoveryScanBudget) : result unit Error :=
  if (max_directories_read b <? MIN_RECOVERY_PROGRESS_READS)%Z
  then Err (InvalidInput ("recovery max_directories_read must be at least "
         +:+ number_text MIN_RECOVERY_PROGRESS_READS))
  else if (max_entries_read b <? MIN_RECOVERY_PROGRESS_ENTRIES)%Z
  then Err (InvalidInput ("recovery max_entries_read must be at least "
         +:+ number_text MIN_RECOVERY_PROGRESS_ENTRIES))
  else if (max_name_bytes_read b <? MIN_RECOVERY_PROGRESS_NAME_BYTES)%Z
  then Err (InvalidInput ("recovery max_name_bytes_read must be at least "
         +:+ number_text MIN_RECOVERY_PROGRESS_NAME_BYTES))
  else Ok tt.

Definition budget_time_exceeded (deadline_mono : Z) : io (result bool IoError) :=
  let!? now := clock_monotonic_ns in
  Ret (Ok (deadline_mono <=? now)%Z).
Definition work_budget_exhausted (budget : WorkBudget) (deadline_mono : Z) : rop bool :=
  let~ attempted := rget (fun rx => operations_attempted (rx_stats rx)) in
  if (max_operations budget <=? attempted)%Z then rret true
  else
    let~ exceeded := rcall (budget_time_exceeded deadline_mono) in
    match exceeded with
    | Ok exceeded => rret exceeded
    | Err error =>
        let~ _ := block_phase "clock_monotonic" (lit "/")
          ("recovery budget clock unavailable: " +:+ io_text error) in
        rret true
    end.
Definition has_recovery_budget (s : RecoveryStats) : bool := negb (budget_exhausted s).

(** ** Directory reads charged to the scan budget *)

Definition saturating_sub (a b : Z) : Z := Z.max 0 (a - b).
Definition charge_directory (s : RecoveryScanStats) : RecoveryScanStats :=
  mkRecoveryScanStats (usize_saturating_add (rs_directories_read s) 1) (rs_entries_read s) (rs_name_bytes_read s).
Definition charge_progress (p : DirectoryEnumerationProgress) (s : RecoveryScanStats) : RecoveryScanStats :=
  mkRecoveryScanStats (rs_directories_read s) (usize_saturating_add (rs_entries_read s) (entries_read p))
    (usize_saturating_add (rs_name_bytes_read s) (name_bytes_read p)).

Definition read_recovery_directory (fuel : nat) (dir_fd deadline_mono : Z) (budget : RecoveryScanBudget)
  : rop (result (list bytes) RecoveryDirectoryError) :=
  let~ stats := rget rx_scan in
  if (max_directories_read budget <=? rs_directories_read stats)%Z then rret (Err DirBudgetExhausted)
  else
    let remaining_entries := saturating_sub (max_entries_read budget) (rs_entries_read stats) in
    let remaining_name_bytes := saturating_sub (max_name_bytes_read budget) (rs_name_bytes_read stats) in
    if (remaining_entries <? MAX_RECOVERY_DIRECTORY_ENTRY_CHARGE)%Z
       || (remaining_name_bytes <? MAX_RECOVERY_DIRECTORY_NAME_BYTE_CHARGE)%Z
    then rret (Err DirBudgetExhausted)
    else
      let~ _ := rscan charge_directory in
      let~ result := rcall_fuel (read_dir_entries_bounded_until_with_progress fuel dir_fd
        MAX_RECOVERY_DIRECTORY_ENTRIES MAX_RECOVERY_DIRECTORY_NAME_BYTES (budget_time_exceeded deadline_mono)) in
      let~ _ := rscan (charge_progress (match result with Ok e => de_progress e | Err e => progress_of e end)) in
      rret (match result with
            | Ok enumeration => Ok (de_entries enumeration)
            | Err (EnumCancelled _) => Err DirBudgetExhausted
            | Err (EnumCancellationCheck error _) => Err (DirClock error)
            | Err (EnumIo error _) => Err (DirIo error)
            end).

Inductive ControlFlow : Type := FlowContinue | FlowBreak.

(** The loop of [stream_recovery_directory]; the second component is the
    position at which a later stream resumes. *)
Fixpoint stream_entries (fuel : nat) (stream : DirectoryStream) (deadline_mono : Z) (budget : RecoveryScanBudget)
    (visit : bytes -> rop ControlFlow) : rop (result ControlFlow RecoveryDirectoryError * Z) :=
  let position := ds_position stream in
  let~ stats := rget rx_scan in
  if (max_entries_read budget <=? rs_entries_read stats)%Z || (max_name_bytes_read budget <=? rs_name_bytes_read stats)%Z
  then rret (Err DirBudgetExhausted, position)
  else
    let~ exceeded := rcall (budget_time_exceeded deadline_mono) in
    match exceeded with
    | Err error => rret (Err (DirClock error), position)
    | Ok true => rret (Err DirBudgetExhausted, position)
    | Ok false =>
        match fuel with
        | O => rcall_fuel (Ret None)
        | S fuel' =>
            let~ (entry, stream) := rcall_fuel (let! (r, s) := next_entry fuel stream in
                                                Ret (option_map (fun r => (r, s)) r)) in
            match entry with
            | Err error => rret (Err (DirIo error), position)
            | Ok None => rret (Ok FlowContinue, position)
            | Ok (Some name) =>
                let~ _ := rscan (charge_progress (mkProgress 1 (Z.of_nat (length name)))) in
                let~ flow := visit name in
                match flow with
                | FlowBreak => rret (Ok FlowBreak, position)
                | FlowContinue => stream_entries fuel' stream deadline_mono budget visit
                end
            end
        end
    end.
Definition stream_recovery_directory (fuel : nat) (dir_fd position deadline_mono : Z) (budget : RecoveryScanBudget)
    (visit : bytes -> rop ControlFlow) : rop (result ControlFlow RecoveryDirectoryError * Z) :=
  let~ stats := rget rx_scan in
  if (max_directories_read budget <=? rs_directories_read stats)%Z then rret (Err DirBudgetExhausted, position)
  else
    let~ _ := rscan charge_directory in
    let~ stream := rcall (DirectoryStream_open_at dir_fd position) in
    match stream with
    | Err error => rret (Err (DirIo error), position)
    | Ok stream => stream_entries fuel stream deadline_mono budget visit
    end.

End Recovery.

(** ** Validity of the cursor *)

Definition cursor_component_is_valid (component : bytes) : bool :=
  negb (bool_decide (component = [])) && (length component <=? 255)%nat
  && negb (bool_decide (component = lit ".")) && negb (bool_decide (component = lit ".."))
  && negb (contains "/"%byte component) && negb (contains x00 component).

(** The derived orders: declaration order of the constructors, then the fields
    in order; vectors of strings lexicographically. *)
Definition phase_index (p : RecoveryPhase) : Z :=
  match p with ReapLeases => 0 | PromoteDelayed => 1 | CleanupTemp => 2 | CompactReceipts => 3 | DeleteReceipts => 4 end.
Definition kind_index (k : RecoveryHierarchyRetryKind) : Z := match k with RetryOpen => 0 | RetryEnumerate => 1 end.
Definition phase_ltb (a b : RecoveryPhase) : bool := (phase_index a <? phase_index b)%Z.
Definition phase_eqb (a b : RecoveryPhase) : bool := (phase_index a =? phase_index b)%Z.
Fixpoint components_ltb (x y : list bytes) : bool :=
  match x, y with
  | _, [] => false
  | [], _ :: _ => true
  | a :: x', b :: y' => bytes_ltb a b || (bool_decide (a = b) && components_ltb x' y')
  end.
Definition retry_ltb (a b : RecoveryHierarchyRetry) : bool :=
  phase_ltb (rr_phase a) (rr_phase b)
  || (phase_eqb (rr_phase a) (rr_phase b)
      && ((kind_index (rr_kind a) <? kind_index (rr_kind b))%Z
          || ((kind_index (rr_kind a) =? kind_index (rr_kind b))%Z
              && components_ltb (rr_components a) (rr_components b)))).

Definition is_some {A : Type} (o : option A) : bool := match o with Some _ => true | None => false end.
Definition retry_component_is_valid (phase : RecoveryPhase) (index : nat) (component : bytes) : bool :=
  match phase, index with
  | ReapLeases, 0%nat | CleanupTemp, 0%nat => is_some (boot_id_bytes component)
  | ReapLeases, 1%nat => is_some (bucket_from_hex component)
  | ReapLeases, 2%nat => is_some (shard_from_hex component)
  | CleanupTemp, 1%nat => is_some (shard_from_hex component)
  | (PromoteDelayed | CompactReceipts | DeleteReceipts), 0%nat => is_some (bucket_from_hex component)
  | (PromoteDelayed | CompactReceipts | DeleteReceipts), 1%nat => is_some (shard_from_hex component)
  | _, _ => false
  end.
Fixpoint components_are_valid (phase : RecoveryPhase) (index : nat) (components : list bytes) : bool :=
  match components with
  | [] => true
  | c :: rest => retry_component_is_valid phase index c && components_are_valid phase (S index) rest
  end.
Definition retry_depth_is_valid (retry : RecoveryHierarchyRetry) : bool :=
  let depth := length (rr_components retry) in
  let allowed := match rr_phase retry with ReapLeases => 3%nat | _ => 2%nat end in
  (1 <=? depth)%nat && (depth <=? allowed)%nat && components_are_valid (rr_phase retry) 0 (rr_components retry).

(** [windows(2).all(|pair| pair[0] < pair[1])] *)
Fixpoint strictly_increasing {A : Type} (ltb : A -> A -> bool) (l : list A) : bool :=
  match l with
  | a :: ((b :: _) as l') => ltb a b && strictly_increasing ltb l'
  | _ => true
  end.
Definition is_none_or {A : Type} (f : A -> bool) (o : option A) : bool := match o with Some a => f a | None => true end.
Definition three_level_is_valid (scan : ThreeLevelCursor) : bool :=
  cursor_component_is_valid (t3_first scan) && cursor_component_is_valid (t3_second scan)
  && cursor_component_is_valid (t3_resume_after scan).
Definition four_level_is_valid (scan : FourLevelCursor) : bool :=
  forallb cursor_component_is_valid [t4_first scan; t4_second scan; t4_third scan; t4_resume_after scan].
Definition cursor_is_valid (c : RecoveryCursor) : bool :=
  is_none_or four_level_is_valid (rk_reap_leases c)
  && is_none_or three_level_is_valid (rk_promote_delayed c)
  && is_none_or three_level_is_valid (rk_cleanup_temp c)
  && is_none_or three_level_is_valid (rk_compact_receipts c)
  && is_none_or three_level_is_valid (rk_delete_receipts c)
  && (length (rk_hierarchy_retries c) <=? MAX_RECOVERY_HIERARCHY_RETRIES)%nat
  && forallb retry_depth_is_valid (rk_hierarchy_retries c)
  && strictly_increasing retry_ltb (rk_hierarchy_retries c)
  && (length (rk_hierarchy_retry_frontiers c) <=? 5)%nat
  && forallb retry_depth_is_valid (rk_hierarchy_retry_frontiers c)
  && strictly_increasing (fun a b => phase_ltb (rr_phase a) (rr_phase b)) (rk_hierarchy_retry_frontiers c)
  && strictly_increasing phase_ltb (rk_hierarchy_retry_overflow c).

(** ** The persisted cursor *)

Record RecoveryCursorRecord : Type := mkRecoveryCursorRecord {
  cr_schema : bytes; cr_version : Z; cr_queue_id : bytes; cr_cursor : RecoveryCursor }.
(** The derived serializations of the record, by [serde_json]. *)
Class CursorJson : Type := {
  cursor_from_slice : bytes -> result RecoveryCursorRecord string;
  cursor_to_vec : RecoveryCursorRecord -> result bytes string
}.

Definition recovery_cursor_open_flags : Z := O_CLOEXEC + O_NOFOLLOW + O_NONBLOCK.
Definition recovery_lock_open_flags : Z := O_CLOEXEC + O_NOFOLLOW + O_RDWR.
Definition cursor_file_metadata_is_valid (st : Stat) : bool := is_regular st && (st_nlink st =? 1)%Z.
Definition cursor_record_size_is_valid (size : Z) : bool := (1 <=? size)%Z && (size <=? RECOVERY_CURSOR_MAX_BYTES)%Z.
Definition cursor_record_version_is_supported (record : RecoveryCursorRecord) : bool :=
  bool_decide (cr_schema record = RECOVERY_CURSOR_SCHEMA) && (cr_version record =? RECOVERY_CURSOR_VERSION)%Z.
Definition cursor_record_bytes_fit (size : nat) : bool := cursor_record_size_is_valid (Z.of_nat size).
Definition cursor_file_is_absent (error : IoError) : bool := os_error_in [ENOENT] error.
Definition strip_prefix (prefix s : bytes) : option bytes :=
  if bool_decide (take (length prefix) s = prefix) then Some (drop (length prefix) s) else None.
Definition is_lower_hex (b : byte) : bool :=
  ((48 <=? b2z b)%Z && (b2z b <=? 57)%Z) || ((97 <=? b2z b)%Z && (b2z b <=? 102)%Z).
(** [<prefix><32 lower-case hex digits>.tmp] *)
Definition random_temporary_name (prefix name : bytes) : bool :=
  match strip_prefix prefix name ≫= strip_suffix (lit ".tmp") with
  | None => false
  | Some random_hex => (length random_hex =? 32)%nat && forallb is_lower_hex random_hex
  end.
Definition compaction_temporary_name (name : bytes) : bool := random_temporary_name (lit ".compact-") name.
Definition recovery_cursor_temporary_name (name : bytes) : bool :=
  random_temporary_name (lit ".recovery-cursor.") name.
Definition recovery_lock_exists (error : IoError) : bool := bool_decide (kind error = KAlreadyExists).

(** A receipt that fails verification as corrupt can never pass it later. *)
Definition receipt_quarantine_reason (error : VerificationError) : option QuarantineReason :=
  match error with
  | VerifyIo _ => None
  | VerifyCorrupt _ => Some QEnvelopeCorrupt
  | VerifyPayloadCorrupt => Some QPayloadCorrupt
  end.

Section Persistence.
Context {T : Texts} {J : CursorJson}.

(** What a decoded record must satisfy. *)
Definition accept_cursor_record (queue_id : bytes) (record : RecoveryCursorRecord) : result RecoveryCursor Error :=
  if negb (cursor_record_version_is_supported record)
  then Err (QueueCorrupt "recovery cursor schema or version is unsupported")
  else if negb (bool_decide (cr_queue_id record = hex_encode queue_id))
  then Err (QueueCorrupt "recovery cursor belongs to another queue")
  else if negb (cursor_is_valid (cr_cursor record))
  then Err (QueueCorrupt "recovery cursor contains an invalid component")
  else Ok (cr_cursor record).

Definition load_recovery_cursor (root_fd : Z) (queue_id : bytes) : io (result RecoveryCursor Error) :=
  let!? control_fd := io_map_err Error_of_io (open_directory root_fd CONTROL_DIR) in
  let! cursor_fd := openat control_fd RECOVERY_CURSOR_FILE recovery_cursor_open_flags 0 in
  match cursor_fd with
  | Err error => Ret (if cursor_file_is_absent error then Ok RecoveryCursor_default else Err (Error_of_io error))
  | Ok cursor_fd =>
      let!? stat := io_map_err Error_of_io (fstat cursor_fd) in
      if negb (cursor_file_metadata_is_valid stat)
      then Ret (Err (QueueCorrupt "recovery cursor is not a singly linked regular file"))
      else if (st_size stat <? 0)%Z then Ret (Err (QueueCorrupt "recovery cursor has negative size"))
      else if negb (cursor_record_size_is_valid (st_size stat))
      then Ret (Err (QueueCorrupt "recovery cursor size is invalid"))
      else
        let!? data := io_map_err Error_of_io (pread_exact cursor_fd (Z.to_nat (st_size stat)) 0) in
        lift (let? record := map_err (fun error => QueueCorrupt ("recovery cursor decode: " +:+ error))
                (cursor_from_slice data) in
              accept_cursor_record queue_id record)
  end.

Definition acquire_recovery_lock (root_fd : Z) : io (result Z Error) :=
  let!? control_fd := io_map_err Error_of_io (open_directory root_fd CONTROL_DIR) in
  let! created := create_exclusive control_fd (lit "recovery.lock") 384 in
  let!? lock_fd :=
    match created with
    | Ok fd =>
        let!? _ := io_map_err Error_of_io (fsync fd) in
        let!? _ := io_map_err Error_of_io (fsync_dir_fd control_fd) in
        Ret (Ok fd)
    | Err error =>
        if recovery_lock_exists error
        then io_map_err Error_of_io (openat control_fd (lit "recovery.lock") recovery_lock_open_flags 0)
        else Ret (Err (Error_of_io error))
    end in
  let!? locked := io_map_err Error_of_io (try_ofd_write_lock lock_fd) in
  if negb locked then Ret (Err MaintenanceBusy) else Ret (Ok lock_fd).

(** The names of the temporary files to remove. *)
Fixpoint cursor_temporaries (fuel : nat) (stream : DirectoryStream) (names : list bytes)
  : io (option (result (list bytes) IoError)) :=
  match fuel with
  | O => Ret None
  | S fuel' =>
      let! (entry, stream) := next_entry fuel stream in
      match entry with
      | None => Ret None
      | Some (Err error) => Ret (Some (Err error))
      | Some (Ok None) => Ret (Some (Ok names))
      | Some (Ok (Some entry)) =>
          cursor_temporaries fuel' stream
            (match as_ascii_str entry with
             | Some name => if recovery_cursor_temporary_name name then names ++ [name] else names
             | None => names
             end)
      end
  end.
Definition find_cursor_temporaries (fuel : nat) (root_fd : Z) : io (option (result (Z * list bytes) IoError)) :=
  let!+ control_fd := fueled (open_directory root_fd CONTROL_DIR) in
  let!+ stream := fueled (DirectoryStream_open control_fd) in
  let!+ names := cursor_temporaries fuel stream [] in
  Ret (Some (Ok (control_fd, names))).
Fixpoint remove_cursor_temporaries (control_fd : Z) (names : list bytes) : rop unit :=
  match names with
  | [] => rret tt
  | name :: names' =>
      let~ r := rcall (unlink_verified control_fd name) in
      let~ _ :=
        match r with
        | Ok _ | Err UnlinkSourceMissing => rret tt
        | Err failure => record_unlink_failure "recovery_cursor_sweep" (lit "control/" ++ name) failure
        end in
      remove_cursor_temporaries control_fd names'
  end.
Definition sweep_cursor_temporary_files (fuel : nat) : rop unit :=
  let~ root := rqueue (fun q => root_fd (config q)) in
  let~ names := rcall_fuel (find_cursor_temporaries fuel root) in
  match names with
  | Err error => record_error "recovery_cursor_sweep" (lit "control") (io_text error)
  | Ok (control_fd, names) => remove_cursor_temporaries control_fd names
  end.

Definition cleanup_cursor_temporary_file (control_fd : Z) (temp_name : bytes) (primary_failure : string) : io Error :=
  let! r := unlink_verified control_fd temp_name in
  Ret (IoFailure (match r with
    | Ok _ | Err UnlinkSourceMissing => primary_failure
    | Err (UnlinkNotCommitted phase source) =>
        primary_failure +:+ "; stale recovery cursor temporary file requires later cleanup at control/"
          +:+ bytes_text temp_name +:+ ": cleanup not committed at phase=" +:+ unlink_phase_text phase +:+ ": "
          +:+ io_text source
    | Err (UnlinkOutcomeUnknown phase source) =>
        primary_failure +:+ "; cleanup durability is unknown for stale recovery cursor temporary file control/"
          +:+ bytes_text temp_name +:+ ": phase=" +:+ unlink_phase_text phase +:+ ": " +:+ io_text source
    end)).
Definition cursor_replace_failure (failure : ReplaceFailure) : string :=
  match failure with
  | ReplaceNotCommitted phase source =>
      "recovery cursor replacement not committed at phase=" +:+ replace_phase_text phase +:+ ": " +:+ io_text source
  | ReplaceOutcomeUnknown phase source =>
      "recovery cursor replacement outcome unknown at phase=" +:+ replace_phase_text phase +:+ ": " +:+ io_text source
  | ReplaceSourceMissing => "recovery cursor replacement not committed at phase=Rename: source is missing"
  | ReplaceDestinationChanged =>
      "recovery cursor replacement not committed at phase=DestinationIdentity: destination identity changed"
  end.

Definition cursor_step {A : Type} (phase : string) (m : io (result A IoError)) : io (result A Error) :=
  io_map_err (fun error => IoFailure ("recovery cursor publication not committed at phase=" +:+ phase +:+ ": "
                                        +:+ io_text error)) m.
(** The encoded record as a fresh temporary file, renamed over the cursor. *)
Definition write_cursor (control_fd : Z) (temp_name data : bytes) : io (result unit Error) :=
  let!? temp_fd := cursor_step "TempCreate" (create_exclusive control_fd temp_name 384) in
  let clean failure := let! e := cleanup_cursor_temporary_file control_fd temp_name failure in Ret (Err e) in
  let! written := write_all_settled temp_fd data in
  match written with
  | Err error =>
      clean ("recovery cursor publication not committed at phase=TempWrite: " +:+ io_text error)
  | Ok _ =>
      let! synced := fsync temp_fd in
      match synced with
      | Err error => clean ("recovery cursor publication not committed at phase=TempFsync: " +:+ io_text error)
      | Ok _ =>
          let! r := replace_verified control_fd temp_name control_fd RECOVERY_CURSOR_FILE None in
          match r with
          | Ok _ => Ret (Ok tt)
          | Err failure =>
              if ReplaceFailure_is_outcome_unknown failure then Ret (Err (IoFailure (cursor_replace_failure failure)))
              else clean (cursor_replace_failure failure)
          end
      end
  end.
Definition cursor_record (q : Queue) : RecoveryCursorRecord :=
  mkRecoveryCursorRecord RECOVERY_CURSOR_SCHEMA RECOVERY_CURSOR_VERSION (hex_encode (queue_id q)) (recovery_cursor q).
Definition persist_recovery_cursor (q : Queue) : io (result unit Error) :=
  let!? data := lift (map_err (fun error => IoFailure ("recovery cursor encode: " +:+ error))
                        (cursor_to_vec (cursor_record q))) in
  if negb (cursor_record_bytes_fit (length data))
  then Ret (Err (InvalidInput "recovery cursor exceeds maximum encoded size"))
  else
    let!? control_fd := cursor_step "ControlOpen" (open_directory (root_fd (config q)) CONTROL_DIR) in
    let!? random := cursor_step "TempName" random_128bit in
    write_cursor control_fd (lit ".recovery-cursor." ++ hex_encode random ++ lit ".tmp") data.

End Persistence.

(** ** The retry ledger *)

#[global] Instance RecoveryPhase_eq_dec : EqDecision RecoveryPhase.
Proof. solve_decision. Defined.
#[global] Instance RecoveryHierarchyRetryKind_eq_dec : EqDecision RecoveryHierarchyRetryKind.
Proof. solve_decision. Defined.
#[global] Instance RecoveryHierarchyRetry_eq_dec : EqDecision RecoveryHierarchyRetry.
Proof. solve_decision. Defined.

Inductive RememberHierarchyRetry : Type := RememberExact | RememberOverflow | RememberInvalid.

(** [binary_search] in a sorted vector: where the key is, or where to insert it. *)
Fixpoint search_position {A : Type} (ltb : A -> A -> bool) (key : A) (l : list A) : nat :=
  match l with
  | [] => 0%nat
  | a :: l' => if ltb a key then S (search_position ltb key l') else 0%nat
  end.
Definition binary_search {A : Type} (ltb : A -> A -> bool) (key : A) (l : list A) : result nat nat :=
  let i := search_position ltb key l in
  match l !! i with
  | Some a => if ltb key a then Err i else Ok i
  | None => Err i
  end.
(** [Vec::insert] and [Vec::remove] at an index in range. *)
Definition vec_insert {A : Type} (i : nat) (a : A) (l : list A) : list A := take i l ++ a :: drop i l.
Definition vec_remove {A : Type} (i : nat) (l : list A) : list A := take i l ++ drop (S i) l.

(** [remember_hierarchy_retry] on the cursor. *)
Definition remember_retry (phase : RecoveryPhase) (kind : RecoveryHierarchyRetryKind) (components : list bytes)
    (c : RecoveryCursor) : RememberHierarchyRetry * RecoveryCursor :=
  if negb (forallb utf8_valid components) then (RememberInvalid, c)
  else
    let retry := mkRecoveryHierarchyRetry phase kind components in
    match binary_search retry_ltb retry (rk_hierarchy_retries c) with
    | Ok _ => (RememberExact, c)
    | Err index =>
        if (length (rk_hierarchy_retries c) <? MAX_RECOVERY_HIERARCHY_RETRIES)%nat
        then (RememberExact, set_hierarchy_retries (vec_insert index retry (rk_hierarchy_retries c)) c)
        else
          (RememberOverflow,
           match binary_search phase_ltb phase (rk_hierarchy_retry_overflow c) with
           | Err index => set_hierarchy_retry_overflow (vec_insert index phase (rk_hierarchy_retry_overflow c)) c
           | Ok _ => c
           end)
    end.
Definition remember_hierarchy_retry (phase : RecoveryPhase) (kind : RecoveryHierarchyRetryKind)
    (components : list bytes) : rop RememberHierarchyRetry :=
  let~ cursor := rqueue recovery_cursor in
  let~ _ := rcursor (fun c => (remember_retry phase kind components c).2) in
  rret (remember_retry phase kind components cursor).1.
(** Whether the pass may go on. *)
Definition remember_hierarchy_retry_or_block (phase : RecoveryPhase) (kind : RecoveryHierarchyRetryKind)
    (components : list bytes) (path : bytes) : rop bool :=
  let~ outcome := remember_hierarchy_retry phase kind components in
  match outcome with
  | RememberExact => rret true
  | RememberOverflow =>
      let~ _ := block_phase "hierarchy_retry_overflow" path
        "recovery hierarchy retry ledger is full; phase will be fully rescanned" in
      rret true
  | RememberInvalid =>
      let~ _ := block_phase "hierarchy_retry_invalid" path
        "recovery hierarchy retry path is not canonical UTF-8" in
      rret false
  end.

Definition clear_phase_cursor (phase : RecoveryPhase) : RecoveryCursor -> RecoveryCursor :=
  match phase with
  | ReapLeases => set_reap_leases None
  | PromoteDelayed => set_promote_delayed None
  | CleanupTemp => set_cleanup_temp None
  | CompactReceipts => set_compact_receipts None
  | DeleteReceipts => set_delete_receipts None
  end.
Definition next_hierarchy_retry (phase : RecoveryPhase) (c : RecoveryCursor) : option RecoveryHierarchyRetry :=
  let retries := filter (fun retry => phase_eqb (rr_phase retry) phase = true) (rk_hierarchy_retries c) in
  match retries with
  | [] => None
  | first :: _ =>
      match List.find (fun frontier => phase_eqb (rr_phase frontier) phase) (rk_hierarchy_retry_frontiers c) with
      | None => Some first
      | Some frontier => Some (default first (List.find (fun retry => retry_ltb frontier retry) retries))
      end
  end.
Definition prepare_hierarchy_retry_phase (phase : RecoveryPhase) : rop (option RecoveryHierarchyRetry) :=
  let~ cursor := rqueue recovery_cursor in
  let~ _ :=
    match binary_search phase_ltb phase (rk_hierarchy_retry_overflow cursor) with
    | Ok index =>
        rcursor (fun c => clear_phase_cursor phase
          (set_hierarchy_retry_overflow (vec_remove index (rk_hierarchy_retry_overflow c)) c))
    | Err _ => rret tt
    end in
  rqueue (fun q => next_hierarchy_retry phase (recovery_cursor q)).
Definition advance_hierarchy_retry_frontier (retry : RecoveryHierarchyRetry) (c : RecoveryCursor) : RecoveryCursor :=
  let frontiers := rk_hierarchy_retry_frontiers c in
  set_hierarchy_retry_frontiers
    (match binary_search (fun a b => phase_ltb (rr_phase a) (rr_phase b)) retry frontiers with
     | Ok index => <[index := retry]> frontiers
     | Err index => vec_insert index retry frontiers
     end) c.
Definition drop_frontier (phase : RecoveryPhase) (c : RecoveryCursor) : RecoveryCursor :=
  set_hierarchy_retry_frontiers
    (filter (fun frontier => phase_eqb (rr_phase frontier) phase = false) (rk_hierarchy_retry_frontiers c)) c.

Section Walk.
Context {T : Texts}.

(** The clock check of a retry: [true] when the pass must stop. *)
Definition retry_clock (deadline_mono : Z) : rop bool :=
  let~ exceeded := rcall (budget_time_exceeded deadline_mono) in
  match exceeded with
  | Ok true => let~ _ := rstats set_exhausted in rret true
  | Ok false => rret false
  | Err error =>
      let~ _ := block_phase "clock_monotonic" (lit "/")
        ("recovery retry budget clock unavailable: " +:+ io_text error) in
      let~ _ := rstats set_exhausted in
      rret true
  end.

(** How far the loop over the components of a retry came. *)
Inductive RetryDescent : Type :=
| DescentStop
| DescentFailed (error : IoError)
| DescentAbsent
| DescentOpened (current : option Z).
Fixpoint descend_components (phase_root_fd deadline_mono : Z) (components : list bytes) (current : option Z)
  : rop RetryDescent :=
  match components with
  | [] => rret (DescentOpened current)
  | component :: components' =>
      let~ stop := retry_clock deadline_mono in
      if stop : bool then rret DescentStop
      else
        let~ opened := rcall (open_directory (default phase_root_fd current) component) in
        match opened with
        | Ok directory => descend_components phase_root_fd deadline_mono components' (Some directory)
        | Err error => rret (if os_error_in [ENOENT] error then DescentAbsent else DescentFailed error)
        end
  end.
Definition retry_path (retry : RecoveryHierarchyRetry) : bytes := join_slash (map hex_encode (rr_components retry)).

(** The retry is settled: it leaves the ledger and the phase starts over. *)
Definition settle_retry (phase : RecoveryPhase) (retry : RecoveryHierarchyRetry) (c : RecoveryCursor) : RecoveryCursor :=
  let c := set_hierarchy_retries
    (filter (fun candidate => candidate <> retry) (rk_hierarchy_retries c)) c in
  let c := clear_phase_cursor phase c in
  if existsb (fun candidate => phase_eqb (rr_phase candidate) phase) (rk_hierarchy_retries c)
  then advance_hierarchy_retry_frontier retry c
  else drop_frontier phase c.

(** Whether the pass must stop.  [expect]: a validated retry has a component. *)
Definition retry_one_hierarchy_directory (fuel : nat) (phase : RecoveryPhase) (retry : option RecoveryHierarchyRetry)
    (phase_root_fd : Z) (budget : RecoveryScanBudget) (deadline_mono : Z) : rop bool :=
  match retry with
  | None => let~ _ := rcursor (drop_frontier phase) in rret false
  | Some retry =>
      let~ stop := retry_clock deadline_mono in
      if stop : bool then rret true
      else
        let settle := let~ _ := rcursor (settle_retry phase retry) in rret false in
        let~ descent := descend_components phase_root_fd deadline_mono (rr_components retry) None in
        match descent with
        | DescentStop => rret true
        | DescentFailed error =>
            let~ _ := rstats count_skip in
            let~ _ := block_phase "hierarchy_retry_open" (retry_path retry) (io_text error) in
            let~ _ := rcursor (advance_hierarchy_retry_frontier retry) in
            rret false
        | DescentAbsent => settle
        | DescentOpened current =>
            match rr_kind retry with
            | RetryOpen => settle
            | RetryEnumerate =>
                let~ r := read_recovery_directory fuel (default phase_root_fd current) deadline_mono budget in
                match r with
                | Ok _ => settle
                | Err error =>
                    let~ stop := record_directory_error "hierarchy_retry_read" (retry_path retry) error in
                    if stop : bool then rret true
                    else
                      let~ _ := rstats count_skip in
                      let~ _ := rcursor (advance_hierarchy_retry_frontier retry) in
                      rret false
                end
            end
        end
  end.

(** ** Steps of the walk *)

Inductive Descend : Type :=
| DescendEntries (fd : Z) (entries : list bytes)
| DescendSkip
| DescendStop.
Record Level : Type := mkLevel {
  lv_phase : RecoveryPhase;
  lv_name : bytes;
  lv_components : list bytes;
  lv_open_operation : string;
  lv_read_operation : string;
  lv_path : bytes
}.
Inductive Prune : Type := PruneRemoved | PruneMissing | PruneKept | PruneStop.

Definition ThreeLevelCursor_directories (c : ThreeLevelCursor) : list bytes := [t3_first c; t3_second c].
Definition FourLevelCursor_directories (c : FourLevelCursor) : list bytes := [t4_first c; t4_second c; t4_third c].
Definition directory_before_cursor (cursor : option (list bytes)) (parents : list bytes) (name : bytes) : bool :=
  match cursor with
  | None => false
  | Some cursor =>
      bool_decide (take (length parents) cursor = parents)
      && match cursor !! length parents with Some at_level => bytes_ltb name at_level | None => false end
  end.
Definition all_observed_children_absent (absent observed : nat) : bool := (absent =? observed)%nat.

Definition ascii_directory_name (operation : string) (entry : bytes) (kind : string) : rop (option bytes) :=
  match as_ascii_str entry with
  | Some name => rret (Some name)
  | None =>
      let~ _ := record_error operation (raw_name_for_error entry) (kind +:+ " directory name is not ASCII") in
      rret None
  end.
Definition record_noncanonical (operation : string) (name : bytes) (kind : string) : rop unit :=
  record_error operation name (kind +:+ " directory name is not canonical").
Definition boot_directory_name (operation : string) (entry : bytes) : rop (option bytes) :=
  let~ name := ascii_directory_name operation entry "boot" in
  match name with
  | None => rret None
  | Some name =>
      match boot_id_bytes name with
      | None => let~ _ := record_noncanonical operation name "boot" in rret None
      | Some _ => rret (Some name)
      end
  end.
Definition bucket_directory_name (operation : string) (entry : bytes) : rop (option (bytes * Z)) :=
  let~ name := ascii_directory_name operation entry "bucket" in
  match name with
  | None => rret None
  | Some name =>
      match bucket_from_hex name with
      | None => let~ _ := record_noncanonical operation name "bucket" in rret None
      | Some bucket => rret (Some (name, bucket))
      end
  end.
Definition shard_directory_name (operation : string) (entry : bytes) (shard_count : Z) : rop (option (bytes * Z)) :=
  let~ name := ascii_directory_name operation entry "shard" in
  match name with
  | None => rret None
  | Some name =>
      match shard_from_hex name with
      | None => let~ _ := record_noncanonical operation name "shard" in rret None
      | Some shard =>
          if (shard_count <=? shard)%Z then
            let~ _ := record_error operation name "shard directory is outside the queue shard range" in
            rret None
          else rret (Some (name, shard))
      end
  end.

Definition remember_level_retry (level : Level) (kind : RecoveryHierarchyRetryKind) : rop Descend :=
  let~ go_on := remember_hierarchy_retry_or_block (lv_phase level) kind (lv_components level) (lv_path level) in
  rret (if go_on : bool then DescendSkip else DescendStop).
Definition descend_level (fuel : nat) (parent_fd : Z) (level : Level) (budget : RecoveryScanBudget)
    (deadline_mono : Z) : rop Descend :=
  let~ fd := rcall (open_directory parent_fd (lv_name level)) in
  match fd with
  | Err error =>
      let~ _ := rstats count_skip in
      let~ _ := block_phase (lv_open_operation level) (lv_path level) (io_text error) in
      remember_level_retry level RetryOpen
  | Ok fd =>
      let~ entries := read_recovery_directory fuel fd deadline_mono budget in
      match entries with
      | Ok entries => rret (DescendEntries fd (sort_by id entries))
      | Err error =>
          let~ _ := rstats count_skip in
          let~ stop := record_directory_error (lv_read_operation level) (lv_path level) error in
          if stop : bool then rret DescendStop else remember_level_retry level RetryEnumerate
      end
  end.
Definition prune_empty_directory (parent_fd : Z) (name : bytes) (operation : string) (path : bytes)
    (budget : WorkBudget) (deadline_mono : Z) : rop Prune :=
  let~ exhausted := work_budget_exhausted budget deadline_mono in
  if exhausted : bool then let~ _ := rstats set_exhausted in rret PruneStop
  else
    let~ _ := rstats attempt_operation in
    let~ r := rcall (remove_empty_directory_verified parent_fd name) in
    match r with
    | Ok _ => rret PruneRemoved
    | Err RemoveSourceMissing => rret PruneMissing
    | Err RemoveNotEmpty => rret PruneKept
    | Err failure => let~ _ := record_remove_directory_failure operation path failure in rret PruneKept
    end.

(** ** Quarantine during recovery *)

Record RecoveryQuarantineCandidate : Type := mkCandidate {
  qc_source_directory_fd : Z; qc_filename : bytes; qc_relative_path : bytes; qc_reason : QuarantineReason }.
Definition u32_max : Z := 2 ^ 32 - 1.
Definition quarantine_recovery_object_with_ids (candidate : RecoveryQuarantineCandidate) (budget : WorkBudget)
    (next_id : io (result bytes IoError)) : rop bool :=
  let~ attempted := rget (fun rx => operations_attempted (rx_stats rx)) in
  let remaining_attempts := saturating_sub (max_operations budget) attempted in
  if (remaining_attempts =? 0)%Z then let~ _ := rstats set_exhausted in rret false
  else
    let~ result := rmethod (publish_quarantine_object_with_ids (qc_source_directory_fd candidate)
      (qc_filename candidate) (qc_reason candidate) remaining_attempts next_id) in
    let attempts_consumed :=
      match result with
      | Ok publication => qp_attempts_consumed publication
      | Err error => QuarantinePublishFailure_attempts_consumed error
      end in
    let~ _ := rstats (fun s => set_operations (Z.min (operations_attempted s + attempts_consumed) u32_max) s) in
    match result with
    | Ok publication =>
        let~ _ := rstats (push_quarantined (mkRecoveryQuarantine (qc_relative_path candidate)
          (qp_quarantine_id publication) (qp_quarantine_name publication))) in
        rret true
    | Err (QfBudgetExhausted _ _ _) =>
        let~ _ := record_error "quarantine_budget_exhausted" (qc_relative_path candidate)
          "quarantine collision retries exhausted the remaining operation budget" in
        let~ _ := rstats set_exhausted in
        rret false
    | Err error =>
        let~ _ := record_error "quarantine" (qc_relative_path candidate) (QuarantinePublishFailure_fmt error) in
        rret true
    end.
Definition quarantine_recovery_object (candidate : RecoveryQuarantineCandidate) (budget : WorkBudget) : rop bool :=
  quarantine_recovery_object_with_ids candidate budget random_128bit.

End Walk.
