(* ===== verification/Phases.v ===== *)
(** * Recovery: the phases and the pass

    Models [crates/steadq-core/src/recovery/phases/reap.rs], [promote.rs] and
    [retain.rs], and the pass of [recovery.rs] that runs them under one lock.
    Each level of a phase's directory walk is one definition; the name checked
    at a level is the entry's own bytes, so a level takes it once.

    Loops over the children of a directory end with the number of children seen
    to be gone, or with an early return from the phase. *)
From stdpp Require Import base numbers list option strings gmap.
From Stdlib Require Import Strings.Byte ZArith.
From S2P Require Import Prelude Math Names Format Cbor FsLinux FsRead FsDir StateMachine Ticket Layout Engine Logic Verified Queue Watermark Publish Quarantine Lease Inspect Recovery.
Open Scope string_scope.
Open Scope list_scope.

(** ** Loops *)

Inductive Step : Type := StepAbsent | StepKept | StepReturn.
(** [None]: the phase returns. *)
Fixpoint scan_children (step : bytes -> rop Step) (names : list bytes) (absent : nat) : rop (option nat) :=
  match names with
  | [] => rret (Some absent)
  | name :: names' =>
      let~ r := step name in
      match r with
      | StepAbsent => scan_children step names' (S absent)
      | StepKept => scan_children step names' absent
      | StepReturn => rret None
      end
  end.

Section Phases.
Context `{Sha256} {T : Texts}.

Definition stop_exhausted : rop Step := let~ _ := rstats set_exhausted in rret StepReturn.
(** Run a step once the work budget allows it. *)
Definition within_budget (budget : WorkBudget) (deadline_mono : Z) (step : rop Step) : rop Step :=
  let~ exhausted := work_budget_exhausted budget deadline_mono in
  if exhausted : bool then stop_exhausted else step.

(** Set an object aside; when the budget does not allow it, the entry's cursor
    is restored and the phase returns. *)
Definition quarantine_entry (fd : Z) (name path : bytes) (reason : QuarantineReason) (budget : WorkBudget)
    (restore : RecoveryCursor -> RecoveryCursor) : rop Step :=
  let~ done := quarantine_recovery_object (mkCandidate fd name path reason) budget in
  if done : bool then rret StepKept
  else let~ _ := rcursor restore in rret StepReturn.

Definition is_queue_corrupt (e : Error) : bool := match e with QueueCorrupt _ => true | _ => false end.
(** [if let Err(e) = self.validate_active_object(..)], and what follows it. *)
Definition validated (fd : Z) (name path : bytes) (ctx : ActivePathContext) (operation : string) (budget : WorkBudget)
    (restore : RecoveryCursor -> RecoveryCursor) (k : rop Step) : rop Step :=
  let~ q := rqueue id in
  let~ r := rcall (validate_active_object q fd name ctx) in
  match r with
  | Ok _ => k
  | Err e =>
      let~ _ := record_error operation path (Error_fmt e) in
      if is_queue_corrupt e then quarantine_entry fd name path QEnvelopeCorrupt budget restore else rret StepKept
  end.

(** A move attempted by the pass: whether the source is gone afterwards. *)
Definition attempt_move (operation : string) (path : bytes) (counted : RecoveryStats -> RecoveryStats)
    (move : io (result unit MoveFailure)) : rop Step :=
  let~ _ := rstats attempt_operation in
  let~ r := rcall move in
  match r with
  | Ok _ => let~ _ := rstats counted in rret StepAbsent
  | Err failure =>
      let~ _ := record_move_failure operation path failure in
      rret (match failure with MoveSourceMissing => StepAbsent | _ => StepKept end)
  end.

(** Remove a directory whose observed children are all gone. *)
Definition prune_level (parent_fd : Z) (name : bytes) (operation : string) (path : bytes) (budget : WorkBudget)
    (deadline_mono : Z) (counted : RecoveryStats -> RecoveryStats) : rop Step :=
  let~ r := prune_empty_directory parent_fd name operation path budget deadline_mono in
  match r with
  | PruneRemoved => let~ _ := rstats counted in rret StepAbsent
  | PruneMissing => rret StepAbsent
  | PruneKept => rret StepKept
  | PruneStop => rret StepReturn
  end.

(** Open and enumerate a level, run [step] on its children, then [finish] with
    the number of children and of those gone. *)
Definition scan_level (fuel : nat) (parent_fd : Z) (level : Level) (scan : RecoveryScanBudget) (deadline_mono : Z)
    (step : Z -> bytes -> rop Step) (finish : nat -> nat -> rop Step) : rop Step :=
  let~ descent := descend_level fuel parent_fd level scan deadline_mono in
  match descent with
  | DescendSkip => rret StepKept
  | DescendStop => rret StepReturn
  | DescendEntries fd entries =>
      let~ absent := scan_children (step fd) entries 0 in
      match absent with
      | None => rret StepReturn
      | Some absent => finish absent (length entries)
      end
  end.

(** The start of a phase: its root, one hierarchy retry, and the enumeration of
    the root; [None] when the phase returns there. *)
Definition open_phase (root_name : bytes) (open_operation : string) : rop (option Z) :=
  let~ root := rqueue (fun q => root_fd (config q)) in
  let~ fd := rcall (open_directory root root_name) in
  match fd with
  | Ok fd => rret (Some fd)
  | Err error => let~ _ := block_phase open_operation root_name (io_text error) in rret None
  end.
Definition retry_phase (fuel : nat) (phase : RecoveryPhase) (fd : Z) (scan : RecoveryScanBudget) (deadline_mono : Z)
  : rop bool :=
  let~ retry := prepare_hierarchy_retry_phase phase in
  retry_one_hierarchy_directory fuel phase retry fd scan deadline_mono.
Definition enumerate_root (fuel : nat) (fd : Z) (root_name : bytes) (read_operation : string)
    (scan : RecoveryScanBudget) (deadline_mono : Z) : rop (option (list bytes)) :=
  let~ r := read_recovery_directory fuel fd deadline_mono scan in
  match r with
  | Ok entries => rret (Some (sort_by id entries))
  | Err error => let~ _ := record_directory_error read_operation root_name error in rret None
  end.

(** Both for the phases with a three-level hierarchy. *)
Definition cursor3 (phase : RecoveryPhase) (c : RecoveryCursor) : option ThreeLevelCursor :=
  match phase with
  | PromoteDelayed => rk_promote_delayed c
  | CleanupTemp => rk_cleanup_temp c
  | CompactReceipts => rk_compact_receipts c
  | DeleteReceipts => rk_delete_receipts c
  | ReapLeases => None
  end.
Definition set_cursor3 (phase : RecoveryPhase) (x : option ThreeLevelCursor) : RecoveryCursor -> RecoveryCursor :=
  match phase with
  | PromoteDelayed => set_promote_delayed x
  | CleanupTemp => set_cleanup_temp x
  | CompactReceipts => set_compact_receipts x
  | DeleteReceipts => set_delete_receipts x
  | ReapLeases => id
  end.
(** Skip a directory that a prior pass finished. *)
Definition unless_before (phase : RecoveryPhase) (parents : list bytes) (name : bytes) (step : rop Step) : rop Step :=
  let~ cursor := rqueue (fun q => cursor3 phase (recovery_cursor q)) in
  if directory_before_cursor (option_map ThreeLevelCursor_directories cursor) parents name then rret StepKept else step.
(** An entry that the cursor has not passed: within the budget, it becomes the
    cursor, and [step] classifies it, given how to restore the cursor. *)
Definition at_entry (phase : RecoveryPhase) (operation : string) (first second entry : bytes) (budget : WorkBudget)
    (deadline_mono : Z) (step : bytes -> (RecoveryCursor -> RecoveryCursor) -> rop Step) : rop Step :=
  let~ previous := rqueue (fun q => cursor3 phase (recovery_cursor q)) in
  if match previous with Some cursor => ThreeLevelCursor_should_skip cursor first second entry | None => false end
  then rret StepKept
  else
    within_budget budget deadline_mono (
      let~ _ := rcursor (set_cursor3 phase (Some (mkThreeLevelCursor first second entry))) in
      match as_ascii_str entry with
      | None => let~ _ := record_error operation (raw_name_for_error entry) "entry name is not ASCII" in rret StepKept
      | Some entry => step entry (set_cursor3 phase previous)
      end).

Definition path2 (root first : bytes) : bytes := root ++ lit "/" ++ first.
Definition path3 (root first second : bytes) : bytes := path2 root first ++ lit "/" ++ second.
Definition path4 (root first second third : bytes) : bytes := path3 root first second ++ lit "/" ++ third.

(** ** Promotion *)

Definition identity_overflow {A : Type} (_ : A) : MoveFailure :=
  MoveNotCommitted PreRename (CustomError KOther "generation or attempt overflow").
Definition promote_to_ready (q : Queue) (src_fd : Z) (shard delayed_name : bytes) (common : CommonFields)
  : io (result unit MoveFailure) :=
  let!? ready_common := lift (map_err identity_overflow (next_common_fields OpPromote common)) in
  let ready_name := make_ready_name (queue_id q) shard ready_common in
  let!? dest_fd := io_map_err (MoveNotCommitted EnsureDest) (open_relative (root_fd (config q)) (path2 (lit "ready") shard)) in
  move_verified_noreplace src_fd delayed_name dest_fd ready_name.

Definition promote_entry (budget : WorkBudget) (deadline_mono : Z) (bucket shard : bytes) (shard_fd : Z) (raw_entry : bytes)
  : rop Step :=
  at_entry PromoteDelayed "promote_entry_name" bucket shard raw_entry budget deadline_mono (fun entry restore =>
    if negb (ends_with (lit ".sqj") entry) then rret StepKept
    else
      let path := path4 (lit "delayed") bucket shard entry in
      match parse_delayed entry with
      | Err _ =>
          let~ _ := record_error "promote_parse" path "malformed delayed filename" in
          quarantine_entry shard_fd entry path QFilenameParseFailed budget restore
      | Ok parsed =>
          validated shard_fd entry path (CtxDelayed bucket shard) "promote_validate" budget restore (
            let~ q := rqueue id in
            attempt_move "promote_delayed" path count_promoted
              (promote_to_ready q shard_fd shard entry (dn_common parsed)))
      end).
Definition promote_shard (fuel : nat) (budget : WorkBudget) (scan : RecoveryScanBudget) (deadline_mono : Z)
    (bucket_is_drained : bool) (bucket : bytes) (bucket_fd : Z) (shard : bytes) : rop Step :=
  unless_before PromoteDelayed [bucket] shard (
    let~ count := rqueue shard_count in
    let~ checked := shard_directory_name "promote_shard_name" shard count in
    match checked with
    | None => rret StepKept
    | Some _ =>
        let path := path3 (lit "delayed") bucket shard in
        scan_level fuel bucket_fd
          (mkLevel PromoteDelayed shard [bucket; shard] "promote_shard_open" "promote_entry_read" path)
          scan deadline_mono (promote_entry budget deadline_mono bucket shard)
          (fun absent observed =>
             if negb bucket_is_drained || negb (all_observed_children_absent absent observed) then rret StepKept
             else prune_level bucket_fd shard "promote_shard_remove" path budget deadline_mono count_shard_removed)
    end).
Definition promote_bucket (fuel : nat) (budget : WorkBudget) (scan : RecoveryScanBudget) (deadline_mono : Z)
    (current_wall_bucket delayed_fd : Z) (bucket : bytes) : rop Step :=
  unless_before PromoteDelayed [] bucket (within_budget budget deadline_mono (
    let~ checked := bucket_directory_name "promote_bucket_name" bucket in
    match checked with
    | None => rret StepKept
    | Some (_, bucket_num) =>
        if (current_wall_bucket <? bucket_num)%Z then rret StepKept
        else
          let path := path2 (lit "delayed") bucket in
          let bucket_is_drained := (bucket_num <? current_wall_bucket)%Z in
          scan_level fuel delayed_fd
            (mkLevel PromoteDelayed bucket [bucket] "promote_bucket_open" "promote_shard_read" path)
            scan deadline_mono (promote_shard fuel budget scan deadline_mono bucket_is_drained bucket)
            (fun absent observed =>
               if negb bucket_is_drained || negb (all_observed_children_absent absent observed) then rret StepKept
               else prune_level delayed_fd bucket "promote_bucket_remove" path budget deadline_mono count_bucket_removed)
    end)).

(** After the last child the phase's cursor is reset. *)
Definition finish_phase (phase : RecoveryPhase) (r : option nat) : rop unit :=
  match r with
  | None => rret tt
  | Some _ => rcursor (clear_phase_cursor phase)
  end.
Definition promote_delayed (fuel : nat) (wall_floor : WallFloor) (budget : WorkBudget) (scan : RecoveryScanBudget)
    (deadline_mono : Z) : rop unit :=
  let~ root := open_phase (lit "delayed") "promote_root_open" in
  match root with
  | None => rret tt
  | Some delayed_fd =>
      let~ stop := retry_phase fuel PromoteDelayed delayed_fd scan deadline_mono in
      if stop : bool then rret tt
      else
        let~ buckets := enumerate_root fuel delayed_fd (lit "delayed") "promote_bucket_read" scan deadline_mono in
        match buckets with
        | None => rret tt
        | Some bucket_dirs =>
            let~ width := rqueue (fun q => fr_delayed_bucket_width_ns (format (config q))) in
            match bucket_number (unix_ns wall_floor) width with
            | None => block_phase "promote_wall_bucket" (lit "delayed") "wall floor has no delayed bucket"
            | Some current_wall_bucket =>
                let~ r := scan_children
                  (promote_bucket fuel budget scan deadline_mono current_wall_bucket delayed_fd) bucket_dirs 0 in
                finish_phase PromoteDelayed r
            end
        end
  end.

(** ** Reaping *)

Definition reap_colocated_to_ready (q : Queue) (shard_fd : Z) (leased_name : bytes) (common : CommonFields)
  : io (result unit MoveFailure) :=
  let!? ready_common := lift (map_err identity_overflow (next_common_fields OpReapExpiredToReady common)) in
  move_verified_noreplace shard_fd leased_name shard_fd (filename (Layout_ready (layout q) ready_common)).
Definition reap_to_ready (q : Queue) (src_fd shard : Z) (leased_name : bytes) (common : CommonFields)
  : io (result unit MoveFailure) :=
  let!? ready_common := lift (map_err identity_overflow (next_common_fields OpReapExpiredToReady common)) in
  let!? dest_fd := io_map_err (MoveNotCommitted EnsureDest) (open_relative (root_fd (config q)) (ready_shard_dir shard)) in
  move_verified_noreplace src_fd leased_name dest_fd (filename (Layout_ready (layout q) ready_common)).
(** A method: it creates the destination directory. *)
Definition reap_to_dead (src_fd : Z) (leased_name : bytes) (common : CommonFields) (reason : DeadReason)
    (wall_floor : WallFloor) : op (result unit MoveFailure) :=
  let* q := gets id in
  let*? terminal_bucket := op_ret (ok_or (bucket_number (unix_ns wall_floor) (fr_terminal_bucket_width_ns (format (config q))))
    (MoveNotCommitted PreRename (CustomError KOther "terminal bucket overflow"))) else Err in
  let*? dead_common := op_ret (map_err identity_overflow (next_common_fields OpReapExpiredToDead common)) else Err in
  let dead_target := Layout_dead_in_bucket (layout q) dead_common (DeadReason_as_u16 reason) terminal_bucket in
  let dest_dir := directory dead_target in
  let*? _ := ensure_dir dest_dir else (fun error => Err (MoveNotCommitted EnsureDest error)) in
  let*? dest_fd := call (open_relative (root_fd (config q)) dest_dir)
    else (fun error => Err (MoveNotCommitted EnsureDest error)) in
  call (move_verified_noreplace src_fd leased_name dest_fd (filename dead_target)).

(** The destination of an expired lease: dead once its attempts are used up. *)
Definition reap_lease (path : bytes) (wall_floor : option WallFloor) (fd : Z) (entry : bytes) (parsed : LeasedName)
    (to_ready : Queue -> io (result unit MoveFailure)) : rop Step :=
  if (cf_maximum_attempts (ln_common parsed) <=? cf_attempt (ln_common parsed))%Z then
    match wall_floor with
    | None => let~ _ := record_error "reap_to_dead" path "authenticated wall floor unavailable" in rret StepKept
    | Some wall_floor =>
        let~ _ := rstats attempt_operation in
        let~ r := rmethod (reap_to_dead fd entry (ln_common parsed) DeadAttemptsExhausted wall_floor) in
        match r with
        | Ok _ => let~ _ := rstats count_to_dead in rret StepAbsent
        | Err failure =>
            let~ _ := record_move_failure "reap_to_dead" path failure in
            rret (match failure with MoveSourceMissing => StepAbsent | _ => StepKept end)
        end
    end
  else
    let~ q := rqueue id in
    attempt_move "reap_to_ready" path count_reaped (to_ready q).

(** The four-level cursor of [leased/]. *)
Definition cursor4 (c : RecoveryCursor) : option (list bytes) := option_map FourLevelCursor_directories (rk_reap_leases c).
Definition unless_before4 (parents : list bytes) (name : bytes) (step : rop Step) : rop Step :=
  let~ cursor := rqueue (fun q => cursor4 (recovery_cursor q)) in
  if directory_before_cursor cursor parents name then rret StepKept else step.

(** The rest of an entry whose lease is due: the bucket is derived again. *)
Definition reap_validated (wall_floor : option WallFloor) (bucket_num : Z) (shard_num shard_fd : Z) (path entry : bytes)
    (parsed : LeasedName) : rop Step :=
  let~ q := rqueue id in
  match lease_bucket (ln_boottime_deadline_ns parsed) (fr_lease_bucket_width_ns (format (config q))) with
  | None => let~ _ := record_error "reap_bucket_check" path "invalid lease bucket width" in rret StepReturn
  | Some expected_lease_bucket =>
      if negb (bucket_num =? expected_lease_bucket)%Z then
        let~ _ := record_error "reap_bucket_check" path ("bucket mismatch: dir " +:+ number_text bucket_num
          +:+ " != deadline-derived " +:+ number_text expected_lease_bucket) in
        rret StepKept
      else
        reap_lease path wall_floor shard_fd entry parsed
          (fun q => reap_to_ready q shard_fd shard_num entry (ln_common parsed))
  end.
Definition reap_entry (budget : WorkBudget) (deadline_mono boottime_now : Z) (wall_floor : option WallFloor)
    (is_current_boot : bool) (boot bucket : bytes) (bucket_num : Z) (shard : bytes) (shard_num shard_fd : Z)
    (raw_entry : bytes) : rop Step :=
  let~ previous := rqueue (fun q => rk_reap_leases (recovery_cursor q)) in
  if match previous with Some cursor => FourLevelCursor_should_skip cursor boot bucket shard raw_entry | None => false end
  then rret StepKept
  else
    within_budget budget deadline_mono (
      let~ _ := rcursor (set_reap_leases (Some (mkFourLevelCursor boot bucket shard raw_entry))) in
      match as_ascii_str raw_entry with
      | None =>
          let~ _ := record_error "reap_entry_name" (raw_name_for_error raw_entry) "entry name is not ASCII" in
          rret StepKept
      | Some entry =>
          if negb (ends_with (lit ".sqj") entry) then rret StepKept
          else
            let path := path4 (lit "leased") boot bucket shard ++ lit "/" ++ entry in
            let restore := set_reap_leases previous in
            match parse_leased entry with
            | Err _ =>
                let~ _ := record_error "reap_parse" path "malformed leased filename" in
                quarantine_entry shard_fd entry path QFilenameParseFailed budget restore
            | Ok parsed =>
                if is_current_boot && (boottime_now <? ln_boottime_deadline_ns parsed)%Z then rret StepKept
                else
                  validated shard_fd entry path (CtxLeased boot bucket shard) "reap_validate" budget restore
                    (reap_validated wall_floor bucket_num shard_num shard_fd path entry parsed)
            end
      end).
Definition reap_shard (fuel : nat) (budget : WorkBudget) (scan : RecoveryScanBudget) (deadline_mono boottime_now : Z)
    (wall_floor : option WallFloor) (is_current_boot : bool) (boot bucket : bytes) (bucket_num bucket_fd : Z)
    (shard : bytes) : rop Step :=
  unless_before4 [boot; bucket] shard (
    let~ count := rqueue shard_count in
    let~ checked := shard_directory_name "reap_shard_name" shard count in
    match checked with
    | None => rret StepKept
    | Some (_, shard_num) =>
        let path := path4 (lit "leased") boot bucket shard in
        scan_level fuel bucket_fd
          (mkLevel ReapLeases shard [boot; bucket; shard] "reap_shard_open" "reap_entry_read" path) scan deadline_mono
          (reap_entry budget deadline_mono boottime_now wall_floor is_current_boot boot bucket bucket_num shard shard_num)
          (fun absent observed =>
             if is_current_boot || negb (all_observed_children_absent absent observed) then rret StepKept
             else prune_level bucket_fd shard "reap_shard_remove" path budget deadline_mono count_shard_removed)
    end).
Definition reap_bucket (fuel : nat) (budget : WorkBudget) (scan : RecoveryScanBudget) (deadline_mono boottime_now : Z)
    (wall_floor : option WallFloor) (is_current_boot : bool) (boot : bytes) (boot_dir_fd : Z) (bucket : bytes) : rop Step :=
  unless_before4 [boot] bucket (within_budget budget deadline_mono (
    let~ checked := bucket_directory_name "reap_bucket_name" bucket in
    match checked with
    | None => rret StepKept
    | Some (_, bucket_num) =>
        let path := path3 (lit "leased") boot bucket in
        let~ width := rqueue (fun q => fr_lease_bucket_width_ns (format (config q))) in
        let enter :=
          scan_level fuel boot_dir_fd
            (mkLevel ReapLeases bucket [boot; bucket] "reap_bucket_open" "reap_shard_read" path) scan deadline_mono
            (reap_shard fuel budget scan deadline_mono boottime_now wall_floor is_current_boot boot bucket bucket_num)
            (fun absent observed =>
               if is_current_boot || negb (all_observed_children_absent absent observed) then rret StepKept
               else prune_level boot_dir_fd bucket "reap_bucket_remove" path budget deadline_mono count_bucket_removed) in
        if is_current_boot then
          match bucket_number boottime_now width with
          | None => let~ _ := block_phase "reap_bucket_check" path "invalid lease bucket width" in rret StepReturn
          | Some current_bucket => if (current_bucket <? bucket_num)%Z then rret StepKept else enter
          end
        else enter
    end)).
Definition reap_boot (fuel : nat) (budget : WorkBudget) (scan : RecoveryScanBudget) (deadline_mono boottime_now : Z)
    (wall_floor : option WallFloor) (leased_fd : Z) (boot : bytes) : rop Step :=
  unless_before4 [] boot (within_budget budget deadline_mono (
    let~ checked := boot_directory_name "reap_boot_name" boot in
    match checked with
    | None => rret StepKept
    | Some _ =>
        let~ is_current_boot := rqueue (fun q => bool_decide (boot = boot_id (config q))) in
        let path := path2 (lit "leased") boot in
        scan_level fuel leased_fd (mkLevel ReapLeases boot [boot] "reap_boot_open" "reap_bucket_read" path)
          scan deadline_mono (reap_bucket fuel budget scan deadline_mono boottime_now wall_floor is_current_boot boot)
          (fun absent observed =>
             if is_current_boot || negb (all_observed_children_absent absent observed) then rret StepKept
             else prune_level leased_fd boot "reap_boot_remove" path budget deadline_mono id)
    end)).

(** One lease found in a ready shard. *)
Record ColocatedLease : Type := mkColocatedLease {
  cl_shard_fd : Z; cl_shard_name : bytes; cl_entry : bytes; cl_relative_path : bytes; cl_parsed : LeasedName }.
(** The outcome of a step as the flow of the stream. *)
Definition flow_of (r : Step) : ControlFlow := match r with StepReturn => FlowBreak | _ => FlowContinue end.
Definition reap_colocated_lease (lease : ColocatedLease) (boottime_now : Z) (wall_floor : option WallFloor)
    (budget : WorkBudget) (deadline_mono : Z) : rop ControlFlow :=
  let parsed := cl_parsed lease in
  let path := cl_relative_path lease in
  let lease_boot := format_boot_id (ln_boot_id parsed) in
  let~ q := rqueue id in
  match lease_bucket (ln_boottime_deadline_ns parsed) (fr_lease_bucket_width_ns (format (config q))) with
  | None => let~ _ := record_error "reap_bucket_check" path "invalid lease bucket width" in rret FlowContinue
  | Some bucket =>
      let bucket_name := bucket_hex bucket in
      if negb (LeasedName_authenticate_tag parsed (queue_id q) lease_boot bucket_name (cl_shard_name lease)) then
        let~ _ := record_error "reap_parse" path "name tag mismatch" in
        rret FlowContinue
      else if bool_decide (lease_boot = boot_id (config q)) && (boottime_now <? ln_boottime_deadline_ns parsed)%Z
      then rret FlowContinue
      else
        let~ r := validated (cl_shard_fd lease) (cl_entry lease) path
          (CtxLeased lease_boot bucket_name (cl_shard_name lease)) "reap_validate" budget id (
            within_budget budget deadline_mono
              (reap_lease path wall_floor (cl_shard_fd lease) (cl_entry lease) parsed
                 (fun q => reap_colocated_to_ready q (cl_shard_fd lease) (cl_entry lease) (ln_common parsed)))) in
        rret (flow_of r)
  end.

(** The rest of the loop over the ready shards; [shards] are those left. *)
Fixpoint reap_colocated_shards (fuel : nat) (boottime_now : Z) (wall_floor : option WallFloor) (budget : WorkBudget)
    (scan : RecoveryScanBudget) (deadline_mono : Z) (shards : list Z) : rop unit :=
  match shards with
  | [] => rcursor (set_reap_colocated_shard None)
  | shard :: shards' =>
      let continue := reap_colocated_shards fuel boottime_now wall_floor budget scan deadline_mono shards' in
      let~ _ := rcursor (set_reap_colocated_shard (Some shard)) in
      let~ exhausted := work_budget_exhausted budget deadline_mono in
      if exhausted : bool then rstats set_exhausted
      else
        let~ q := rqueue id in
        let position := default 0%Z (rk_reap_colocated_position (recovery_cursor q)) in
        let~ _ := rcursor (set_reap_colocated_position None) in
        let ready_dir := ready_shard_dir shard in
        let~ opened := rcall (open_relative (root_fd (config q)) ready_dir) in
        match opened with
        | Err error =>
            let~ _ := rstats count_skip in
            let~ _ := record_error "reap_shard_open" ready_dir (io_text error) in
            continue
        | Ok shard_fd =>
            let~ (result, position) := stream_recovery_directory fuel shard_fd position deadline_mono scan
              (fun raw_entry =>
                 match as_ascii_str raw_entry with
                 | None => rret FlowContinue
                 | Some entry =>
                     match parse_leased entry with
                     | Err _ => rret FlowContinue
                     | Ok parsed =>
                         reap_colocated_lease
                           (mkColocatedLease shard_fd (shard_hex shard) entry (ready_dir ++ lit "/" ++ entry) parsed)
                           boottime_now wall_floor budget deadline_mono
                     end
                 end) in
            let~ stop :=
              match result with
              | Ok flow => rret (match flow with FlowBreak => true | FlowContinue => false end)
              | Err error =>
                  let~ _ := rstats count_skip in
                  record_directory_error "reap_entry_read" ready_dir error
              end in
            if stop : bool
            then rcursor (set_reap_colocated_position (if (position =? 0)%Z then None else Some position))
            else continue
        end
  end.
(** [first_shard..shard_count] *)
Definition shard_range (first count : Z) : list Z := map (fun i => (first + Z.of_nat i)%Z) (seq 0 (Z.to_nat (count - first))).
Definition reap_colocated_ready_leases (fuel : nat) (boottime_now : Z) (wall_floor : option WallFloor)
    (budget : WorkBudget) (scan : RecoveryScanBudget) (deadline_mono : Z) : rop unit :=
  let~ first_shard := rqueue (fun q => default 0%Z (rk_reap_colocated_shard (recovery_cursor q))) in
  let~ count := rqueue shard_count in
  reap_colocated_shards fuel boottime_now wall_floor budget scan deadline_mono (shard_range first_shard count).

Definition reap_expired_leases (fuel : nat) (boottime_now : Z) (wall_floor : option WallFloor) (budget : WorkBudget)
    (scan : RecoveryScanBudget) (deadline_mono : Z) : rop unit :=
  let colocated := reap_colocated_ready_leases fuel boottime_now wall_floor budget scan deadline_mono in
  let~ root := open_phase (lit "leased") "open_leased_dir" in
  match root with
  | None => rret tt
  | Some leased_fd =>
      let~ stop := retry_phase fuel ReapLeases leased_fd scan deadline_mono in
      if stop : bool then rret tt
      else
        let~ saved := rqueue (fun q => rk_reap_colocated_shard (recovery_cursor q)) in
        match saved with
        | Some _ => colocated
        | None =>
            let~ boots := enumerate_root fuel leased_fd (lit "leased") "read_leased_dirs" scan deadline_mono in
            match boots with
            | None => rret tt
            | Some boot_dirs =>
                let~ r := scan_children
                  (reap_boot fuel budget scan deadline_mono boottime_now wall_floor leased_fd) boot_dirs 0 in
                match r with
                | None => rret tt
                | Some _ =>
                    let~ _ := rcursor (set_reap_leases None) in
                    colocated
                end
            end
        end
  end.

(** ** Temporary files *)

Definition attempt_unlink (operation : string) (path : bytes) (counted : RecoveryStats -> RecoveryStats) (fd : Z)
    (name : bytes) : rop Step :=
  let~ _ := rstats attempt_operation in
  let~ r := rcall (unlink_verified fd name) in
  match r with
  | Ok _ => let~ _ := rstats counted in rret StepAbsent
  | Err failure =>
      let~ _ := record_unlink_failure operation path failure in
      rret (match failure with UnlinkSourceMissing => StepAbsent | _ => StepKept end)
  end.
(** A temporary file of another boot is orphaned; one of this boot once its
    time to live is over. *)
Definition temp_is_stale (is_current_boot : bool) (boottime_now ttl_ns : Z) (entry : bytes) : bool :=
  if negb is_current_boot then true
  else match parse_temp entry with
       | Ok parsed => (ttl_ns <? saturating_sub boottime_now (tmp_created_boottime_ns parsed))%Z
       | Err _ => false
       end.
Definition cleanup_entry (budget : WorkBudget) (deadline_mono boottime_now : Z) (is_current_boot : bool)
    (boot shard : bytes) (shard_fd : Z) (raw_entry : bytes) : rop Step :=
  at_entry CleanupTemp "temp_entry_name" boot shard raw_entry budget deadline_mono (fun entry _ =>
    if negb (ends_with (lit ".tmp") entry) then rret StepKept
    else
      let~ ttl := rqueue (fun q => temporary_file_ttl_ns (options (config q))) in
      if temp_is_stale is_current_boot boottime_now ttl entry
      then attempt_unlink "temp_delete" (path4 (lit "tmp") boot shard entry) count_temp_deleted shard_fd entry
      else rret StepKept).
Definition cleanup_shard (fuel : nat) (budget : WorkBudget) (scan : RecoveryScanBudget) (deadline_mono boottime_now : Z)
    (is_current_boot : bool) (boot : bytes) (boot_dir_fd : Z) (shard : bytes) : rop Step :=
  unless_before CleanupTemp [boot] shard (
    let~ count := rqueue shard_count in
    let~ checked := shard_directory_name "temp_shard_name" shard count in
    match checked with
    | None => rret StepKept
    | Some _ =>
        let path := path3 (lit "tmp") boot shard in
        scan_level fuel boot_dir_fd (mkLevel CleanupTemp shard [boot; shard] "temp_shard_open" "temp_entry_read" path)
          scan deadline_mono (cleanup_entry budget deadline_mono boottime_now is_current_boot boot shard)
          (fun absent observed =>
             if is_current_boot || negb (all_observed_children_absent absent observed) then rret StepKept
             else prune_level boot_dir_fd shard "temp_shard_remove" path budget deadline_mono count_shard_removed)
    end).
Definition cleanup_boot (fuel : nat) (budget : WorkBudget) (scan : RecoveryScanBudget) (deadline_mono boottime_now : Z)
    (tmp_fd : Z) (boot : bytes) : rop Step :=
  unless_before CleanupTemp [] boot (within_budget budget deadline_mono (
    let~ checked := boot_directory_name "temp_boot_name" boot in
    match checked with
    | None => rret StepKept
    | Some _ =>
        let~ is_current_boot := rqueue (fun q => bool_decide (boot = boot_id (config q))) in
        let path := path2 (lit "tmp") boot in
        scan_level fuel tmp_fd (mkLevel CleanupTemp boot [boot] "temp_boot_open" "temp_shard_read" path)
          scan deadline_mono (cleanup_shard fuel budget scan deadline_mono boottime_now is_current_boot boot)
          (fun absent observed =>
             if is_current_boot || negb (all_observed_children_absent absent observed) then rret StepKept
             else prune_level tmp_fd boot "temp_boot_remove" path budget deadline_mono id)
    end)).
Definition cleanup_temp_files (fuel : nat) (boottime_now : Z) (budget : WorkBudget) (scan : RecoveryScanBudget)
    (deadline_mono : Z) : rop unit :=
  let~ root := open_phase (lit "tmp") "temp_root_open" in
  match root with
  | None => rret tt
  | Some tmp_fd =>
      let~ stop := retry_phase fuel CleanupTemp tmp_fd scan deadline_mono in
      if stop : bool then rret tt
      else
        let~ boots := enumerate_root fuel tmp_fd (lit "tmp") "temp_boot_read" scan deadline_mono in
        match boots with
        | None => rret tt
        | Some boot_dirs =>
            let~ r := scan_children (cleanup_boot fuel budget scan deadline_mono boottime_now tmp_fd) boot_dirs 0 in
            finish_phase CleanupTemp r
        end
  end.

(** ** Receipts *)

Inductive ReceiptPrepareError : Type := PrepareOpen (error : IoError) | PrepareLock (error : IoError).
Definition ReceiptPrepareError_operation (e : ReceiptPrepareError) (prefix : string) : string :=
  match e with PrepareOpen _ => prefix +:+ "_open" | PrepareLock _ => prefix +:+ "_lock" end.
Definition ReceiptPrepareError_fmt (e : ReceiptPrepareError) : string :=
  match e with PrepareOpen error | PrepareLock error => io_text error end.
Definition open_locked_receipt (dir_fd : Z) (name : bytes) : io (result (option Z) ReceiptPrepareError) :=
  let! fd := openat dir_fd name receipt_write_open_flags 0 in
  match fd with
  | Err error => Ret (if bool_decide (kind error = KNotFound) then Ok None else Err (PrepareOpen error))
  | Ok fd =>
      let! locked := try_ofd_write_lock fd in
      Ret (match locked with
           | Ok true => Ok (Some fd)
           | Ok false => Ok None
           | Err error => Err (PrepareLock error)
           end)
  end.

(** The checks both receipt phases make on an entry: a name that does not parse
    is set aside, a missing or locked file is left alone, and a receipt that
    can never verify is set aside. *)
Definition at_receipt (prefix : string) (budget : WorkBudget) (bucket shard : bytes) (shard_fd : Z) (entry : bytes)
    (restore : RecoveryCursor -> RecoveryCursor) (k : VerifiedReceipt -> rop Step) : rop Step :=
  let path := path4 (lit "receipts") bucket shard entry in
  match parse_receipt entry with
  | Err _ =>
      let~ _ := record_error (prefix +:+ "_parse") path "receipt filename does not parse" in
      quarantine_entry shard_fd entry path QFilenameParseFailed budget restore
  | Ok _ =>
      let~ opened := rcall (open_locked_receipt shard_fd entry) in
      match opened with
      | Ok None => rret StepKept
      | Err error =>
          let~ _ := record_error (ReceiptPrepareError_operation error prefix) path (ReceiptPrepareError_fmt error) in
          rret StepKept
      | Ok (Some receipt_fd) =>
          let~ f := rqueue (fun q => format (config q)) in
          let~ r := rcall (verify_receipt_on_fd receipt_fd
            (mkReceiptContext (fr_queue_id f) (fr_shard_count f) (fr_terminal_bucket_width_ns f)
               (fr_max_payload_length f) bucket shard entry) None) in
          match r with
          | Ok receipt => k receipt
          | Err error =>
              let~ _ := record_error (prefix +:+ "_invalid") path (VerificationError_fmt error) in
              match receipt_quarantine_reason error with
              | Some reason => quarantine_entry shard_fd entry path reason budget restore
              | None => rret StepKept
              end
          end
      end
  end.

Definition cleanup_compaction_temp (directory_fd : Z) (name relative_path : bytes) : rop unit :=
  let~ r := rcall (unlink_verified directory_fd name) in
  match r with
  | Ok _ | Err UnlinkSourceMissing => rret tt
  | Err failure => record_unlink_failure "receipt_compact_temp_cleanup" relative_path failure
  end.
(** The compact record as a fresh file, renamed over the receipt it stands for. *)
Definition replace_receipt (shard_fd : Z) (entry tmp_name receipt_path temp_path compact_bytes : bytes)
    (device inode : Z) : rop Step :=
  let~ created := rcall (create_exclusive shard_fd tmp_name 384) in
  match created with
  | Err error =>
      let~ _ := record_error "receipt_compact_temp_create_not_committed" temp_path
        ("phase=TempCreate: " +:+ io_text error) in
      rret StepKept
  | Ok tmp_fd =>
      let~ written := rcall (write_all_settled tmp_fd compact_bytes) in
      match written with
      | Err error =>
          let~ _ := record_error "receipt_compact_temp_write_not_committed" temp_path
            ("phase=TempWrite: " +:+ io_text error) in
          let~ _ := cleanup_compaction_temp shard_fd tmp_name temp_path in
          rret StepKept
      | Ok _ =>
          let~ synced := rcall (fsync tmp_fd) in
          match synced with
          | Err error =>
              let~ _ := record_error "receipt_compact_temp_fsync_not_committed" temp_path
                ("phase=TempFsync: " +:+ io_text error) in
              let~ _ := cleanup_compaction_temp shard_fd tmp_name temp_path in
              rret StepKept
          | Ok _ =>
              let~ r := rcall (replace_verified shard_fd tmp_name shard_fd entry (Some (mkReplaceIdentity device inode))) in
              match r with
              | Ok _ => let~ _ := rstats count_compacted in rret StepKept
              | Err failure =>
                  let~ _ := record_replace_failure "receipt_compact_replace" receipt_path failure in
                  let~ _ :=
                    if negb (ReplaceFailure_is_outcome_unknown failure)
                       || match failure with ReplaceSourceMissing => true | _ => false end
                    then cleanup_compaction_temp shard_fd tmp_name temp_path
                    else rret tt in
                  rret StepKept
              end
          end
      end
  end.
Definition compact_receipt (bucket shard : bytes) (shard_fd : Z) (entry : bytes) (receipt : VerifiedReceipt) : rop Step :=
  match vr_kind receipt with
  | ReceiptCompact => rret StepKept
  | ReceiptFull job =>
      let header := vj_header job in
      let~ width := rqueue (fun q => fr_terminal_bucket_width_ns (format (config q))) in
      match u64_checked_mul (vr_bucket_number receipt) width with
      | None => rret StepKept
      | Some bucket_start =>
          let parsed := vr_name receipt in
          let compact := mkCompactReceipt (fh_job_id header) (fh_envelope_digest header) (cf_attempt (tn_common parsed))
            (tn_token parsed) bucket_start (fh_payload_length header) in
          let receipt_path := path4 (lit "receipts") bucket shard entry in
          let~ _ := rstats attempt_operation in
          let~ random := rcall random_128bit in
          match random with
          | Err error =>
              let~ _ := record_error "receipt_compact_temp_name_not_committed" receipt_path
                ("phase=TempName: " +:+ io_text error) in
              rret StepKept
          | Ok random =>
              let tmp_name := lit ".compact-" ++ hex_encode random ++ lit ".tmp" in
              replace_receipt shard_fd entry tmp_name receipt_path (path4 (lit "receipts") bucket shard tmp_name)
                (CompactReceipt_encode compact) (vr_device receipt) (vr_inode receipt)
          end
      end
  end.
Definition compact_entry (budget : WorkBudget) (deadline_mono : Z) (bucket shard : bytes) (shard_fd : Z)
    (raw_entry : bytes) : rop Step :=
  at_entry CompactReceipts "compact_entry_name" bucket shard raw_entry budget deadline_mono (fun entry restore =>
    if compaction_temporary_name entry then
      attempt_unlink "receipt_compact_stale_temp_cleanup" (path4 (lit "receipts") bucket shard entry) id shard_fd entry
    else if negb (ends_with (lit ".rct") entry) then rret StepKept
    else at_receipt "receipt_compact" budget bucket shard shard_fd entry restore
           (compact_receipt bucket shard shard_fd entry)).
(** No directory is removed by compaction. *)
Definition compact_shard (fuel : nat) (budget : WorkBudget) (scan : RecoveryScanBudget) (deadline_mono : Z)
    (bucket : bytes) (bucket_fd : Z) (shard : bytes) : rop Step :=
  unless_before CompactReceipts [bucket] shard (
    let~ count := rqueue shard_count in
    let~ checked := shard_directory_name "compact_shard_name" shard count in
    match checked with
    | None => rret StepKept
    | Some _ =>
        scan_level fuel bucket_fd
          (mkLevel CompactReceipts shard [bucket; shard] "compact_shard_open" "compact_entry_read"
             (path3 (lit "receipts") bucket shard))
          scan deadline_mono (compact_entry budget deadline_mono bucket shard) (fun _ _ => rret StepKept)
    end).
Definition compact_bucket (fuel : nat) (budget : WorkBudget) (scan : RecoveryScanBudget) (deadline_mono : Z)
    (receipts_fd : Z) (bucket : bytes) : rop Step :=
  unless_before CompactReceipts [] bucket (within_budget budget deadline_mono (
    let~ checked := bucket_directory_name "compact_bucket_name" bucket in
    match checked with
    | None => rret StepKept
    | Some _ =>
        scan_level fuel receipts_fd
          (mkLevel CompactReceipts bucket [bucket] "compact_bucket_open" "compact_shard_read" (path2 (lit "receipts") bucket))
          scan deadline_mono (compact_shard fuel budget scan deadline_mono bucket) (fun _ _ => rret StepKept)
    end)).
Definition compact_receipts_with_scan_budget (fuel : nat) (budget : WorkBudget) (scan : RecoveryScanBudget)
    (deadline_mono : Z) : rop unit :=
  let~ root := open_phase (lit "receipts") "compact_root_open" in
  match root with
  | None => rret tt
  | Some receipts_fd =>
      let~ stop := retry_phase fuel CompactReceipts receipts_fd scan deadline_mono in
      if stop : bool then rret tt
      else
        let~ buckets := enumerate_root fuel receipts_fd (lit "receipts") "compact_bucket_read" scan deadline_mono in
        match buckets with
        | None => rret tt
        | Some bucket_dirs =>
            let~ r := scan_children (compact_bucket fuel budget scan deadline_mono receipts_fd) bucket_dirs 0 in
            finish_phase CompactReceipts r
        end
  end.

(** ** Retention *)

(** [bucket_end + retention <= wall_floor], with every overflow a refusal. *)
Definition receipt_bucket_is_expired (bucket_num width retention_ns wall_floor : Z) : bool :=
  match bucket_start ← u64_checked_mul bucket_num width; bucket_end ← u64_checked_add bucket_start width;
        u64_checked_add bucket_end retention_ns with
  | Some threshold => (threshold <=? wall_floor)%Z
  | None => false
  end.
Definition delete_receipt (bucket shard : bytes) (shard_fd : Z) (entry : bytes) (receipt : VerifiedReceipt) : rop Step :=
  let path := path4 (lit "receipts") bucket shard entry in
  let~ current := rcall (fstatat shard_fd entry) in
  match current with
  | Err _ => rret StepKept
  | Ok stat =>
      if negb (receipt_path_identity_matches stat (vr_device receipt) (vr_inode receipt)) then
        let~ _ := record_error "receipt_delete_replaced" path "receipt pathname changed after verification" in
        rret StepKept
      else attempt_unlink "receipt_delete" path count_expired shard_fd entry
  end.
Definition delete_entry (budget : WorkBudget) (deadline_mono : Z) (bucket shard : bytes) (shard_fd : Z)
    (raw_entry : bytes) : rop Step :=
  at_entry DeleteReceipts "delete_entry_name" bucket shard raw_entry budget deadline_mono (fun entry restore =>
    if negb (ends_with (lit ".rct") entry) then rret StepKept
    else at_receipt "receipt_delete" budget bucket shard shard_fd entry restore
           (delete_receipt bucket shard shard_fd entry)).
Definition delete_shard (fuel : nat) (budget : WorkBudget) (scan : RecoveryScanBudget) (deadline_mono : Z)
    (bucket : bytes) (bucket_fd : Z) (shard : bytes) : rop Step :=
  unless_before DeleteReceipts [bucket] shard (
    let~ count := rqueue shard_count in
    let~ checked := shard_directory_name "delete_shard_name" shard count in
    match checked with
    | None => rret StepKept
    | Some _ =>
        let path := path3 (lit "receipts") bucket shard in
        scan_level fuel bucket_fd
          (mkLevel DeleteReceipts shard [bucket; shard] "delete_shard_open" "delete_entry_read" path)
          scan deadline_mono (delete_entry budget deadline_mono bucket shard)
          (fun absent observed =>
             if negb (all_observed_children_absent absent observed) then rret StepKept
             else prune_level bucket_fd shard "receipt_shard_remove" path budget deadline_mono count_shard_removed)
    end).
Definition delete_bucket (fuel : nat) (budget : WorkBudget) (scan : RecoveryScanBudget) (deadline_mono : Z)
    (wall_floor retention_ns receipts_fd : Z) (bucket : bytes) : rop Step :=
  unless_before DeleteReceipts [] bucket (within_budget budget deadline_mono (
    let~ checked := bucket_directory_name "delete_bucket_name" bucket in
    match checked with
    | None => rret StepKept
    | Some (_, bucket_num) =>
        let~ width := rqueue (fun q => fr_terminal_bucket_width_ns (format (config q))) in
        if negb (receipt_bucket_is_expired bucket_num width retention_ns wall_floor) then rret StepKept
        else
          let path := path2 (lit "receipts") bucket in
          scan_level fuel receipts_fd
            (mkLevel DeleteReceipts bucket [bucket] "delete_bucket_open" "delete_shard_read" path)
            scan deadline_mono (delete_shard fuel budget scan deadline_mono bucket)
            (fun absent observed =>
               if negb (all_observed_children_absent absent observed) then rret StepKept
               else prune_level receipts_fd bucket "receipt_bucket_remove" path budget deadline_mono count_bucket_removed)
    end)).
Definition delete_expired_receipts (fuel : nat) (wall_floor : WallFloor) (retention_ns : Z) (budget : WorkBudget)
    (scan : RecoveryScanBudget) (deadline_mono : Z) : rop unit :=
  let~ root := open_phase (lit "receipts") "delete_root_open" in
  match root with
  | None => rret tt
  | Some receipts_fd =>
      let~ stop := retry_phase fuel DeleteReceipts receipts_fd scan deadline_mono in
      if stop : bool then rret tt
      else
        let~ buckets := enumerate_root fuel receipts_fd (lit "receipts") "delete_bucket_read" scan deadline_mono in
        match buckets with
        | None => rret tt
        | Some bucket_dirs =>
            let~ r := scan_children
              (delete_bucket fuel budget scan deadline_mono (unix_ns wall_floor) retention_ns receipts_fd) bucket_dirs 0 in
            finish_phase DeleteReceipts r
        end
  end.

(** ** The pass *)

(** One turn of the loop: the phase, and the one that follows it. *)
Definition run_phase (fuel : nat) (phase : RecoveryPhase) (boottime_now : Z) (wall_floor : option WallFloor)
    (budget : WorkBudget) (scan : RecoveryScanBudget) (deadline_mono : Z) : rop RecoveryPhase :=
  match phase with
  | ReapLeases =>
      let~ _ := reap_expired_leases fuel boottime_now wall_floor budget scan deadline_mono in rret PromoteDelayed
  | PromoteDelayed =>
      let~ _ := match wall_floor with
                | Some wall_floor => promote_delayed fuel wall_floor budget scan deadline_mono
                | None => rret tt
                end in
      rret CleanupTemp
  | CleanupTemp =>
      let~ _ := cleanup_temp_files fuel boottime_now budget scan deadline_mono in rret CompactReceipts
  | CompactReceipts =>
      let~ _ := compact_receipts_with_scan_budget fuel budget scan deadline_mono in rret DeleteReceipts
  | DeleteReceipts =>
      let~ retention_ns := rqueue (fun q => receipt_retention_ns (options (config q))) in
      let~ _ := match wall_floor with
                | Some wall_floor => delete_expired_receipts fuel wall_floor retention_ns budget scan deadline_mono
                | None => rret tt
                end in
      rret ReapLeases
  end.
(** The loop over the phases.  Each turn ends the loop or moves to the next
    phase, so five turns are enough; [Ends.run_phases_end]. *)
Fixpoint run_phases (turns fuel : nat) (boottime_now : Z) (wall_floor : option WallFloor) (budget : WorkBudget)
    (scan : RecoveryScanBudget) (deadline_mono : Z) : rop unit :=
  match turns with
  | O => rcall_fuel (Ret None)
  | S turns' =>
      let~ stats := rget rx_stats in
      if negb (has_recovery_budget stats) then rret tt
      else
        let~ phase := rqueue (fun q => rk_phase (recovery_cursor q)) in
        let~ next_phase := run_phase fuel phase boottime_now wall_floor budget scan deadline_mono in
        let~ stats := rget rx_stats in
        let~ _ := if has_recovery_budget stats then rcursor (set_phase next_phase) else rret tt in
        let~ exhausted := work_budget_exhausted budget deadline_mono in
        let~ _ := if exhausted : bool then rstats set_exhausted else rret tt in
        if phase_eqb phase DeleteReceipts then rret tt
        else run_phases turns' fuel boottime_now wall_floor budget scan deadline_mono
  end.

Context {J : CursorJson}.

Definition u64_saturating_add (a b : Z) : Z := Z.min (a + b) u64_max.
Definition u64_saturating_mul (a b : Z) : Z := Z.min (a * b) u64_max.
(** The phases within the time budget, then the cursor as they left it. *)
Definition recover_timed (fuel : nat) (budget : WorkBudget) (scan : RecoveryScanBudget) (boottime_now : Z)
    (wall_floor : option WallFloor) : rop unit :=
  let~ start := rcall clock_monotonic_ns in
  match start with
  | Err e => record_error "clock_monotonic" (lit "/") (io_text e)
  | Ok start_mono =>
      let deadline_mono := u64_saturating_add start_mono (u64_saturating_mul (max_duration_ms budget) 1000000) in
      let~ _ := run_phases 5 fuel boottime_now wall_floor budget scan deadline_mono in
      let~ q := rqueue id in
      let~ persisted := rcall (persist_recovery_cursor q) in
      match persisted with
      | Ok _ => rret tt
      | Err error =>
          record_error "recovery_cursor_persist" (lit "control/" ++ RECOVERY_CURSOR_FILE) (Error_fmt error)
      end
  end.
(** From the cursor on; every early return has recorded why. *)
Definition recover_phases (fuel : nat) (budget : WorkBudget) (scan : RecoveryScanBudget) (boottime_now : Z) : rop unit :=
  let~ floor := rmethod stabilized_wall_floor in
  let~ _ :=
    match floor with
    | Ok _ => rret tt
    | Err error =>
        record_error "wall_floor" (lit "/")
          ("wall floor unavailable, skipping wall-sensitive recovery actions: " +:+ Error_fmt error)
    end in
  recover_timed fuel budget scan boottime_now (match floor with Ok f => Some f | Err _ => None end).
Definition recover_locked (fuel : nat) (budget : WorkBudget) (scan : RecoveryScanBudget) : rop unit :=
  let~ _ := sweep_cursor_temporary_files fuel in
  let~ q := rqueue id in
  let~ cursor := rcall (load_recovery_cursor (root_fd (config q)) (queue_id q)) in
  match cursor with
  | Err error =>
      record_error "recovery_cursor_reload" (lit "control/" ++ RECOVERY_CURSOR_FILE) (Error_fmt error)
  | Ok cursor =>
      let~ _ := rcursor (fun _ => cursor) in
      let~ now := rcall clock_boottime_ns in
      match now with
      | Err e => record_error "clock_boottime" (lit "/") (io_text e)
      | Ok boottime_now => recover_phases fuel budget scan boottime_now
      end
  end.
Definition recover_pass (fuel : nat) (budget : WorkBudget) (scan : RecoveryScanBudget) : rop unit :=
  match RecoveryScanBudget_validate scan with
  | Err error =>
      let~ _ := rstats set_blocked in
      record_error "recovery_scan_budget" (lit "/") (Error_fmt error)
  | Ok _ =>
      let~ root := rqueue (fun q => root_fd (config q)) in
      let~ lock := rcall (acquire_recovery_lock root) in
      match lock with
      | Err error => record_error "recovery_lock" (lit "control/recovery.lock") (Error_fmt error)
      | Ok _ => recover_locked fuel budget scan
      end
  end.
Definition recover_with_scan_budget (fuel : nat) (budget : WorkBudget) (scan : RecoveryScanBudget) (q : Queue)
  : io (option RecoveryReport * Queue) :=
  let! x := recover_pass fuel budget scan (mkRCtx (mkCtx q None) RecoveryStats_default RecoveryScanStats_default) in
  Ret (option_map (fun _ => mkRecoveryReport (rx_stats x.2) (rx_scan x.2)) x.1, rx_queue x.2).
Definition recover (fuel : nat) (budget : WorkBudget) (q : Queue) : io (option RecoveryStats * Queue) :=
  let! x := recover_with_scan_budget fuel budget RecoveryScanBudget_default q in
  Ret (option_map rep_stats x.1, x.2).

End Phases.
