(* ===== verification/Cursor.v ===== *)
(** * The recovery cursor stays valid

    The updates that recovery makes to its cursor ([Recovery], [Phases]) keep
    [cursor_is_valid]: the retry ledger stays strictly sorted and bounded, there
    is at most one frontier per phase, and saved positions are proper names.
    A cursor that is persisted is therefore accepted when it is loaded again. *)
From stdpp Require Import base numbers list option strings gmap sorting.
From Stdlib Require Import Strings.Byte ZArith.
From S2P Require Import Prelude Math Names Format Cbor FsLinux FsRead FsDir StateMachine Ticket Layout Engine Logic Verified Queue Watermark Publish Quarantine Lease Inspect Recovery Phases.
Open Scope string_scope.
Open Scope list_scope.

(** ** Sorted vectors *)

Section Sorted.
Context {A : Type} (ltb : A -> A -> bool).
Context (ltb_trans : forall a b c, ltb a b = true -> ltb b c = true -> ltb a c = true).
Abbreviation lt := (fun a b => ltb a b = true).

Lemma increasing_sorted l : strictly_increasing ltb l = true <-> StronglySorted lt l.
Proof.
  induction l as [|a l IH]; [split; [constructor|done]|]. rewrite StronglySorted_cons, <- IH. destruct l as [|b l].
  { split; [intros _; split; [constructor|done]|done]. }
  cbn [strictly_increasing]. rewrite andb_true_iff. split; [|by intros [[Hab _]%Forall_cons ?]].
  intros [Hab Hl]. split; [|done]. constructor; [done|]. apply IH, StronglySorted_cons in Hl as [Hb _].
  eapply Forall_impl; [exact Hb|]. intros c Hc. by apply (ltb_trans _ b).
Qed.
Lemma Forall_sublist (P : A -> Prop) l l' : sublist l l' -> Forall P l' -> Forall P l.
Proof. induction 1 as [|a l l' Hs IH|a l l' Hs IH]; rewrite ?Forall_cons; [done|..]; naive_solver. Qed.
Lemma sorted_sublist l l' : sublist l l' -> StronglySorted lt l' -> StronglySorted lt l.
Proof.
  induction 1 as [|a l l' Hs IH|a l l' Hs IH]; rewrite ?StronglySorted_cons; [done|..]; [|by intros [_ ?]; auto].
  intros [Ha Hl]. split; [|auto]. by eapply Forall_sublist.
Qed.

Lemma search_prefix key l : Forall (fun a => ltb a key = true) (take (search_position ltb key l) l).
Proof. induction l as [|a l IH]; cbn; [constructor|]. destruct (ltb a key) eqn:E; cbn; by constructor. Qed.
Lemma search_length key l : (search_position ltb key l <= length l)%nat.
Proof. induction l as [|a l IH]; cbn; [lia|]. destruct (ltb a key); cbn; lia. Qed.

Lemma insert_sorted key l i :
  binary_search ltb key l = Err i -> StronglySorted lt l -> StronglySorted lt (vec_insert i key l).
Proof.
  unfold binary_search. intros Hb Hl. assert (i = search_position ltb key l) as -> by (repeat case_match; congruence).
  set (i := search_position ltb key l) in *. unfold vec_insert.
  assert (Hafter : Forall (fun a => ltb key a = true) (drop i l)).
  { destruct (l !! i) as [a|] eqn:E.
    - destruct (ltb key a) eqn:Ea; [|done]. rewrite (drop_S _ _ _ E) in *. constructor; [done|].
      rewrite <- (take_drop i l), (drop_S _ _ _ E) in Hl. apply StronglySorted_app_1_r, StronglySorted_cons in Hl as [Ha _].
      eapply Forall_impl; [exact Ha|]. intros b Hab. by apply (ltb_trans _ a).
    - apply lookup_ge_None in E. rewrite drop_ge by done. constructor. }
  pose proof (search_prefix key l) as Hbefore. fold i in Hbefore. rewrite <- (take_drop i l), StronglySorted_app in Hl.
  destruct Hl as (H1 & H2 & H3). rewrite Forall_forall in *. apply StronglySorted_app_2; [|done|].
  - intros x y Hx [->|Hy]%elem_of_cons; [by apply Hbefore|by apply H1].
  - apply StronglySorted_cons. split; [by apply Forall_forall|done].
Qed.
End Sorted.

Lemma phase_ltb_trans a b c : phase_ltb a b = true -> phase_ltb b c = true -> phase_ltb a c = true.
Proof. unfold phase_ltb. rewrite !Z.ltb_lt. lia. Qed.
Lemma components_ltb_trans x y z : components_ltb x y = true -> components_ltb y z = true -> components_ltb x z = true.
Proof.
  revert y z. induction x as [|a x IH]; intros [|b y] [|c z]; cbn; try done.
  rewrite !orb_true_iff, !andb_true_iff, !bool_decide_eq_true. intros [H1|[-> H1]] [H2|[-> H2]]; auto.
  - left. by eapply bytes_ltb_trans.
  - right. split; [done|]. by eapply IH.
Qed.
Lemma retry_ltb_trans a b c : retry_ltb a b = true -> retry_ltb b c = true -> retry_ltb a c = true.
Proof.
  unfold retry_ltb, phase_ltb, phase_eqb.
  rewrite !orb_true_iff, !andb_true_iff, !orb_true_iff, !andb_true_iff, !Z.ltb_lt, !Z.eqb_eq.
  intros [H1|[P1 [K1|[K1 C1]]]] [H2|[P2 [K2|[K2 C2]]]]; try (left; lia); right; (split; [lia|]); try (left; lia).
  right. split; [lia|]. by eapply components_ltb_trans.
Qed.

(** ** The parts of a valid cursor *)

Record valid_cursor (c : RecoveryCursor) : Prop := mkValid {
  vc_reap : is_none_or four_level_is_valid (rk_reap_leases c) = true;
  vc_promote : is_none_or three_level_is_valid (rk_promote_delayed c) = true;
  vc_cleanup : is_none_or three_level_is_valid (rk_cleanup_temp c) = true;
  vc_compact : is_none_or three_level_is_valid (rk_compact_receipts c) = true;
  vc_delete : is_none_or three_level_is_valid (rk_delete_receipts c) = true;
  vc_retries_length : (length (rk_hierarchy_retries c) <= MAX_RECOVERY_HIERARCHY_RETRIES)%nat;
  vc_retries_depth : Forall (fun r => retry_depth_is_valid r = true) (rk_hierarchy_retries c);
  vc_retries_sorted : StronglySorted (fun a b => retry_ltb a b = true) (rk_hierarchy_retries c);
  vc_frontiers_depth : Forall (fun r => retry_depth_is_valid r = true) (rk_hierarchy_retry_frontiers c);
  vc_frontiers_sorted :
    StronglySorted (fun a b => phase_ltb (rr_phase a) (rr_phase b) = true) (rk_hierarchy_retry_frontiers c);
  vc_overflow : StronglySorted (fun a b => phase_ltb a b = true) (rk_hierarchy_retry_overflow c)
}.

Lemma frontier_ltb_trans (a b c : RecoveryHierarchyRetry) :
  phase_ltb (rr_phase a) (rr_phase b) = true -> phase_ltb (rr_phase b) (rr_phase c) = true ->
  phase_ltb (rr_phase a) (rr_phase c) = true.
Proof. apply phase_ltb_trans. Qed.

(** One frontier per phase, and there are five phases. *)
Lemma frontiers_bounded l :
  StronglySorted (fun a b => phase_ltb (rr_phase a) (rr_phase b) = true) l -> (length l <= 5)%nat.
Proof.
  assert (Hi : forall p, (0 <= phase_index p <= 4)%Z) by (by intros []).
  enough (forall l a, StronglySorted (fun a b => phase_ltb (rr_phase a) (rr_phase b) = true) (a :: l) ->
            (Z.of_nat (length l) + phase_index (rr_phase a) <= 4)%Z) as Hl.
  { destruct l as [|a l]; intros Hs; cbn; [lia|]. pose proof (Hl l a Hs). pose proof (Hi (rr_phase a)). lia. }
  clear l. induction l as [|b l IH]; intros a Hs; cbn [length]; [pose proof (Hi (rr_phase a)); lia|].
  apply StronglySorted_cons in Hs as [[Hab _]%Forall_cons Hs]. apply IH in Hs.
  unfold phase_ltb in Hab. apply Z.ltb_lt in Hab. lia.
Qed.

Lemma forallb_Forall {A} (f : A -> bool) l : forallb f l = true <-> Forall (fun a => f a = true) l.
Proof. rewrite forallb_forall, Forall_forall. by setoid_rewrite list_elem_of_In. Qed.

Lemma cursor_valid_parts c : cursor_is_valid c = true <-> valid_cursor c.
Proof.
  unfold cursor_is_valid.
  rewrite !andb_true_iff, !forallb_Forall, !Nat.leb_le, (increasing_sorted _ retry_ltb_trans),
    (increasing_sorted _ frontier_ltb_trans), (increasing_sorted _ phase_ltb_trans). split.
  - intros. split_hyps. by split.
  - intros []. split_and!; try done. by apply frontiers_bounded.
Qed.

(** ** Updates *)

Lemma valid_set_cursor3 phase x c :
  is_none_or three_level_is_valid x = true -> cursor_is_valid c = true -> cursor_is_valid (set_cursor3 phase x c) = true.
Proof. rewrite !cursor_valid_parts. intros Hx []. by destruct phase; split. Qed.
Lemma valid_set_reap x c :
  is_none_or four_level_is_valid x = true -> cursor_is_valid c = true -> cursor_is_valid (set_reap_leases x c) = true.
Proof. rewrite !cursor_valid_parts. intros Hx []. by split. Qed.
Lemma valid_set_colocated_shard x c : cursor_is_valid c = true -> cursor_is_valid (set_reap_colocated_shard x c) = true.
Proof. rewrite !cursor_valid_parts. intros []. by split. Qed.
Lemma valid_set_colocated_position x c :
  cursor_is_valid c = true -> cursor_is_valid (set_reap_colocated_position x c) = true.
Proof. rewrite !cursor_valid_parts. intros []. by split. Qed.
Lemma valid_set_phase x c : cursor_is_valid c = true -> cursor_is_valid (set_phase x c) = true.
Proof. rewrite !cursor_valid_parts. intros []. by split. Qed.
Lemma valid_clear phase c : cursor_is_valid c = true -> cursor_is_valid (clear_phase_cursor phase c) = true.
Proof. rewrite !cursor_valid_parts. intros []. by destruct phase; split. Qed.
Lemma valid_previous3 phase c : cursor_is_valid c = true -> is_none_or three_level_is_valid (cursor3 phase c) = true.
Proof. rewrite cursor_valid_parts. by intros []; destruct phase. Qed.
Lemma valid_previous4 c : cursor_is_valid c = true -> is_none_or four_level_is_valid (rk_reap_leases c) = true.
Proof. rewrite cursor_valid_parts. by intros []. Qed.

Lemma Forall_vec_insert {A} (P : A -> Prop) i a l : P a -> Forall P l -> Forall P (vec_insert i a l).
Proof. intros. apply Forall_app. split; [by apply Forall_take|]. constructor; [done|by apply Forall_drop]. Qed.

Lemma valid_remember phase kind comps c :
  retry_depth_is_valid (mkRecoveryHierarchyRetry phase kind comps) = true -> cursor_is_valid c = true ->
  cursor_is_valid (remember_retry phase kind comps c).2 = true.
Proof.
  intros Hd Hc. unfold remember_retry. destruct (forallb _ _); [|done]. cbn [negb].
  destruct (binary_search retry_ltb _ _) as [j|j] eqn:Eb; [done|].
  apply cursor_valid_parts in Hc as Hp. destruct Hp. destruct (_ <? _)%nat eqn:El; cbn [snd].
  - apply Nat.ltb_lt in El. apply cursor_valid_parts. split; try done; cbn.
    + unfold vec_insert. rewrite length_app. cbn. rewrite length_take, length_drop. lia.
    + by apply Forall_vec_insert.
    + by apply (insert_sorted _ retry_ltb_trans).
  - destruct (binary_search phase_ltb _ _) as [k|k] eqn:Ep; [done|].
    apply cursor_valid_parts. split; try done; cbn. by apply (insert_sorted _ phase_ltb_trans).
Qed.

Lemma vec_remove_sublist {A} i (l : list A) : sublist (vec_remove i l) l.
Proof.
  unfold vec_remove. rewrite <- (take_drop i l) at 3. apply sublist_app; [done|]. rewrite <- Nat.add_1_r, <- drop_drop.
  apply sublist_drop.
Qed.
Lemma valid_remove_overflow i c :
  cursor_is_valid c = true ->
  cursor_is_valid (set_hierarchy_retry_overflow (vec_remove i (rk_hierarchy_retry_overflow c)) c) = true.
Proof.
  rewrite !cursor_valid_parts. intros []. split; try done; cbn. eapply sorted_sublist; [|done]. apply vec_remove_sublist.
Qed.

Lemma valid_drop_frontier phase c : cursor_is_valid c = true -> cursor_is_valid (drop_frontier phase c) = true.
Proof.
  rewrite !cursor_valid_parts. intros []. split; try done; cbn.
  - eapply Forall_sublist; [apply sublist_filter|done].
  - eapply sorted_sublist; [|done]. apply sublist_filter.
Qed.

(** Replacing a frontier by one of the same phase keeps the order. *)
Lemma replace_frontier_sorted (l : list RecoveryHierarchyRetry) i a b :
  l !! i = Some a -> rr_phase a = rr_phase b ->
  StronglySorted (fun x y => phase_ltb (rr_phase x) (rr_phase y) = true) l ->
  StronglySorted (fun x y => phase_ltb (rr_phase x) (rr_phase y) = true) (<[i := b]> l).
Proof.
  intros Hi Hab. rewrite (insert_take_drop l i b) by (by eapply lookup_lt_Some).
  rewrite <- (take_drop_middle l i a Hi) at 1. rewrite !StronglySorted_app, !StronglySorted_cons.
  intros (H1 & H2 & H3 & H4). split_and!; try done; [|by rewrite <- Hab].
  intros x y Hx [->|Hy]%elem_of_cons; [rewrite <- Hab; apply H1; set_solver|apply H1; set_solver].
Qed.
Lemma valid_advance retry c :
  retry_depth_is_valid retry = true -> cursor_is_valid c = true ->
  cursor_is_valid (advance_hierarchy_retry_frontier retry c) = true.
Proof.
  rewrite !cursor_valid_parts. intros Hd []. unfold advance_hierarchy_retry_frontier. cbv zeta.
  destruct (binary_search _ _ _) as [i|i] eqn:Eb; split; try done; cbn.
  - by apply Forall_insert.
  - unfold binary_search in Eb. destruct (rk_hierarchy_retry_frontiers c !! _) as [a|] eqn:Ea; [|done].
    destruct (phase_ltb (rr_phase retry) (rr_phase a)) eqn:E1; [done|]. injection Eb as <-.
    apply (replace_frontier_sorted _ _ a); [done| |done].
    assert (phase_ltb (rr_phase a) (rr_phase retry) = false) as E2.
    { revert Ea. generalize (rk_hierarchy_retry_frontiers c). induction l as [|x l IH]; cbn; [done|].
      destruct (phase_ltb (rr_phase x) (rr_phase retry)) eqn:Ex; cbn; [done|]. by intros [= ->]. }
    unfold phase_ltb in E1, E2. apply Z.ltb_ge in E1, E2. by destruct (rr_phase a), (rr_phase retry).
  - by apply Forall_vec_insert.
  - by apply (insert_sorted _ frontier_ltb_trans).
Qed.
Lemma valid_settle phase retry c :
  retry_depth_is_valid retry = true -> cursor_is_valid c = true -> cursor_is_valid (settle_retry phase retry c) = true.
Proof.
  intros Hd Hc. unfold settle_retry. cbv zeta.
  set (c1 := set_hierarchy_retries _ c).
  assert (cursor_is_valid c1 = true) as Hc1.
  { apply cursor_valid_parts in Hc as []. apply cursor_valid_parts. split; try done; cbn.
    - etrans; [apply length_filter|done].
    - eapply Forall_sublist; [apply sublist_filter|done].
    - eapply sorted_sublist; [|done]. apply sublist_filter. }
  clearbody c1. pose proof (valid_clear phase c1 Hc1). destruct (existsb _ _); [by apply valid_advance|by apply valid_drop_frontier].
Qed.

(** The next retry of a phase is one of the ledger, so its path is valid. *)
Lemma next_retry_valid phase c retry :
  cursor_is_valid c = true -> next_hierarchy_retry phase c = Some retry -> retry_depth_is_valid retry = true.
Proof.
  rewrite cursor_valid_parts. intros [] Hn. unfold next_hierarchy_retry in Hn. cbv zeta in Hn.
  assert (Hf : Forall (fun r => retry_depth_is_valid r = true)
    (filter (fun retry => phase_eqb (rr_phase retry) phase = true) (rk_hierarchy_retries c))) by (by eapply Forall_sublist; [apply sublist_filter|]).
  destruct (filter _ _) as [|first rest]; [done|]. apply Forall_cons in Hf as [Hfirst Hrest].
  destruct (List.find (fun frontier => _) _) as [frontier|]; [|by injection Hn as <-]. injection Hn as <-.
  destruct (retry_ltb frontier first); [done|]. destruct (List.find _ rest) as [r|] eqn:Er; [|done]. cbn.
  apply find_some in Er as [Hin%list_elem_of_In _]. rewrite Forall_forall in Hrest. by apply Hrest.
Qed.
