(* ===== verification/Maintenance.v ===== *)
(** * What a recovery pass does

    Theorems about the programs of [Recovery] and [Phases], by one walk through
    all of them.  [does P m Q] is a triple for steps of recovery: from a context
    that satisfies [P], over a kernel whose directory entries are proper file
    names, every execution makes [progress] and ends in [Q].  Progress says at
    once that the pass stays within its work and scan budgets, that every
    object it moves is moved for a reason, and that the cursor stays one that a
    later pass accepts. *)
From stdpp Require Import base numbers list option strings gmap.
From Stdlib Require Import Strings.Byte ZArith.
From S2P Require Import Prelude Math Names Format Cbor FsLinux FsRead FsDir StateMachine Ticket Layout Engine Logic Verified Queue Watermark Publish Quarantine Lease Inspect Recovery Phases Cursor.
Open Scope string_scope.
Open Scope list_scope.

(** ** Entry names *)

(** The entries a kernel serves: a file name is not empty, has at most 255
    bytes and contains neither a slash nor a zero byte. *)
Definition named (ev : event) : Prop :=
  match ev with
  | (SysReaddir _, Entry name _) => is_dot name = false -> cursor_component_is_valid name = true
  | _ => True
  end.
Abbreviation proper := (fun name : bytes => cursor_component_is_valid name = true).

Lemma proper_length name : proper name -> (length name <= 255)%nat.
Proof. unfold cursor_component_is_valid. rewrite !andb_true_iff, Nat.leb_le. naive_solver. Qed.

Lemma Forall_insert_by {A} (P : A -> Prop) f (a : A) l : P a -> Forall P l -> Forall P (insert_by f a l).
Proof.
  intros Ha. induction l as [|b l IH]; intros Hl; cbn [insert_by]; [by constructor|].
  apply Forall_cons in Hl as [Hb Hl]. destruct (bytes_ltb _ _); repeat (constructor; [done|]); [auto|done].
Qed.
Lemma Forall_sort_by {A} (P : A -> Prop) f (l : list A) : Forall P l -> Forall P (sort_by f l).
Proof. induction 1; cbn; [constructor|]. by apply Forall_insert_by. Qed.

(** The charge of a bounded enumeration. *)
Definition charged (me mb : Z) (p : DirectoryEnumerationProgress) : Prop :=
  (0 <= entries_read p <= me)%Z /\ (0 <= name_bytes_read p <= mb)%Z.

Lemma enumerate_charged me mb stop :
  (0 <= me)%Z -> (0 <= mb <= u64_max)%Z ->
  forall fuel s entries p tr r,
  (Z.of_nat (length entries) <= me)%Z -> (name_bytes entries <= mb)%Z -> Forall proper entries ->
  charged (Z.of_nat (length entries)) (name_bytes entries) p ->
  exec (enumerate_loop fuel s me mb stop entries (name_bytes entries) p) tr r -> Forall named tr ->
  match r with
  | Some (Ok e) => charged me mb (de_progress e) /\ Forall proper (de_entries e)
  | Some (Err e) => charged (me + 1) (mb + 255) (progress_of e)
  | None => True
  end.
Proof.
  intros Hme Hmb. induction fuel as [|fuel IH]; intros s entries p tr r Hl Hb Hf Hp H Hn; cbn [enumerate_loop] in H;
    apply exec_bind in H as (t1 & t2 & b & -> & H1 & H2); apply Forall_app in Hn as [_ Hn];
    destruct b as [[]|e]; try (apply exec_ret in H2 as [-> ->]; unfold charged in *; cbn; lia);
    apply exec_bind in H2 as (t3 & t4 & [n s'] & -> & H3 & H4); apply Forall_app in Hn as [Hn3 Hn4];
    (destruct t3 as [|[c a] t3]; [done|]); destruct H3 as [-> [-> H3]%exec_ret];
    destruct a as [e|rc|st|data|ts tns|name off|pr pe]; injection H3 as -> ->;
    try (apply exec_ret in H4 as [-> ->]; unfold charged in *; cbn; first [done|lia|split; [lia|done]]).
  apply Forall_cons in Hn3 as [Hname _]. destruct (is_dot name) eqn:Hd.
  { by eapply IH in H4. }
  cbv zeta in H4. pose proof (accept_entry_spec me mb entries name ltac:(lia) Hl Hb) as Ha.
  pose proof (proper_length name (Hname Hd)) as Hlen.
  assert (Hnb : name_bytes (entries ++ [name]) = (name_bytes entries + Z.of_nat (length name))%Z).
  { rewrite name_bytes_app. unfold name_bytes at 2. cbn. by rewrite app_nil_r. }
  assert (Hc : charged (Z.of_nat (length (entries ++ [name]))) (name_bytes (entries ++ [name])) (count_entry p name)).
  { rewrite Hnb, length_app. unfold charged, count_entry, usize_saturating_add, u64_max in *. cbn [entries_read name_bytes_read length]. lia. }
  destruct (accept_entry _ _ _ _ _) as [next|e].
  - destruct Ha as (-> & Hl' & Hb'). eapply IH in H4; try done. apply Forall_app. split; [done|].
    apply Forall_singleton. auto.
  - apply exec_ret in H4 as [-> ->]. rewrite Hnb, length_app in Hc. unfold charged in *. cbn [progress_of length] in *. lia.
Qed.

Lemma read_bounded_charged fuel fd me mb stop tr r :
  (0 <= me)%Z -> (0 <= mb <= u64_max)%Z ->
  exec (read_dir_entries_bounded_until_with_progress fuel fd me mb stop) tr r -> Forall named tr ->
  match r with
  | Some (Ok e) => charged me mb (de_progress e) /\ Forall proper (de_entries e)
  | Some (Err e) => charged (me + 1) (mb + 255) (progress_of e)
  | None => True
  end.
Proof.
  intros Hme Hmb (t1 & t2 & d & -> & _ & H)%exec_bind [_ Hn]%Forall_app.
  assert (Hno : charged (me + 1) (mb + 255) no_progress) by (unfold charged; cbn; lia).
  destruct d as [d|e]; [|by apply exec_ret in H as [-> ->]].
  apply exec_bind in H as (t3 & t4 & s & -> & _ & H). apply Forall_app in Hn as [_ Hn].
  destruct s as [s|e]; [|by apply exec_ret in H as [-> ->]].
  eapply (enumerate_charged me mb stop Hme Hmb fuel s [] no_progress); try done; unfold charged, name_bytes; cbn; try lia.
Qed.

(** ** Justified moves *)

Definition placed (ev : event) : bool := took_effect places ev.

Lemma tally_zero sel tr : tally sel tr = 0%nat -> Forall (fun ev => took_effect sel ev = false) tr.
Proof.
  induction tr as [|[c r] tr IH]; [constructor|]. rewrite tally_cons. intros E. constructor; [|apply IH; lia].
  unfold took_effect. cbn. by destruct (sel c && negb (failed r)).
Qed.
Lemma none_placed (P : Syscall -> Prop) tr : tally places tr = 0%nat -> Forall (fun ev => placed ev = true -> P ev.1) tr.
Proof. intros Ht%tally_zero. eapply Forall_impl; [exact Ht|]. intros ev E Hp. unfold placed in Hp. congruence. Qed.
(** Placements that a test recognises, when none that it rejects took effect. *)
Lemma placed_only (f : Syscall -> bool) tr :
  tally (fun c => places c && negb (f c)) tr = 0%nat -> Forall (fun ev => placed ev = true -> f ev.1 = true) tr.
Proof.
  intros Ht%tally_zero. eapply Forall_impl; [exact Ht|]. intros [c r]. unfold placed, took_effect. cbn.
  destruct (places c), (f c), (failed r); done.
Qed.
#[export] Instance placed_but_placing (f : Syscall -> bool) : Placing (fun c => places c && negb (f c)).
Proof. intros c Hc. by apply andb_true_iff in Hc as [? _]. Qed.

(** The rename of a move. *)
Definition is_rename (sn dn : bytes) (c : Syscall) : bool :=
  match c with SysRenameat2 _ sn' _ dn' _ => bool_decide (sn' = sn) && bool_decide (dn' = dn) | _ => false end.
Lemma move_placed sd sn dd dn tr r :
  exec (move_verified_noreplace sd sn dd dn) tr r ->
  (tally places tr <= 1)%nat /\ Forall (fun ev => placed ev = true -> is_rename sn dn ev.1 = true) tr.
Proof.
  intros Hx. unfold move_verified_noreplace in Hx. split.
  - rewrite (move_places (sel := places) _ _ _ _ _ _ (fun m => silent_ret _) _ _ Hx). cbn. destruct r; cbn; try case_match; lia.
  - apply placed_only.
    rewrite (move_places (sel := fun c => places c && negb (is_rename sn dn c)) _ _ _ _ _ _ (fun m => silent_ret _) _ _ Hx).
    cbn. by rewrite !bool_decide_true.
Qed.

Section Maintenance.
Context `{Sha256Spec} {T : Texts}.

(** The configuration, the budgets and the clocks of a pass. *)
Context (q0 : Queue) (budget : WorkBudget) (scan : RecoveryScanBudget) (boottime_now : Z) (wall_floor : option WallFloor).
Context (Hlayout : Layout_wf (layout q0)) (Hwork : (0 <= max_operations budget <= u32_max)%Z).

(** A delayed job that is due, given the name of its next identity. *)
Definition promotes (sn dn : bytes) : Prop :=
  exists n c floor, parse_delayed sn = Ok n /\ wall_floor = Some floor /\
    (dn_not_before_ns n <= unix_ns floor)%Z /\
    next_common_fields OpPromote (dn_common n) = Ok c /\ dn = filename (Layout_ready (layout q0) c).
(** A lease whose name is tagged for the boot directory it was found under and
    that has expired there: it goes back to ready, or to dead once its attempts
    are used up. *)
Definition reaps (sn dn : bytes) : Prop :=
  exists n boot b, parse_leased sn = Ok n /\
    lease_bucket (ln_boottime_deadline_ns n) (ly_lease_bucket_width_ns (layout q0)) = Some b /\
    LeasedName_authenticate_tag n (queue_id q0) boot (bucket_hex b)
      (shard_hex (shard_for (layout q0) (cf_job_id (ln_common n)))) = true /\
    (boot = boot_id (config q0) -> (ln_boottime_deadline_ns n <= boottime_now)%Z) /\
    let c := ln_common n in
    ((cf_attempt c < cf_maximum_attempts c)%Z /\
       exists c', next_common_fields OpReapExpiredToReady c = Ok c' /\ dn = filename (Layout_ready (layout q0) c')) \/
    ((cf_maximum_attempts c <= cf_attempt c)%Z /\
       exists c' floor tb, next_common_fields OpReapExpiredToDead c = Ok c' /\ wall_floor = Some floor /\
         bucket_number (unix_ns floor) (ly_terminal_bucket_width_ns (layout q0)) = Some tb /\
         dn = filename (Layout_dead_in_bucket (layout q0) c' (DeadReason_as_u16 DeadAttemptsExhausted) tb)).
(** An object set aside. *)
Definition quarantines (dn : bytes) : Prop := exists id reason, dn = quarantine_filename id (QuarantineReason_as_u16 reason).

Definition justified (c : Syscall) : Prop :=
  match c with
  | SysRenameat2 _ sn _ dn _ => promotes sn dn \/ reaps sn dn \/ quarantines dn
  | _ => False
  end.

(** ** Progress *)

(** Streamed directories check the byte budget before a name is read, so the
    last name may go past it. *)
Definition scan_within (s : RecoveryScanStats) : Prop :=
  (rs_directories_read s <= max_directories_read scan)%Z /\ (rs_entries_read s <= max_entries_read scan)%Z /\
  (rs_name_bytes_read s <= max_name_bytes_read scan + 254)%Z.
Definition ops (rx : RCtx) : Z := operations_attempted (rx_stats rx).

(** What holds throughout: the configuration is that of the pass, both budgets
    are respected and the cursor is valid. *)
Record inv (rx : RCtx) : Prop := mkInv {
  inv_config : config (rx_queue rx) = config q0;
  inv_ops : (ops rx <= max_operations budget)%Z;
  inv_scan : scan_within (rx_scan rx);
  inv_cursor : cursor_is_valid (recovery_cursor (rx_queue rx)) = true
}.
Definition phase_at (rx : RCtx) : RecoveryPhase := rk_phase (recovery_cursor (rx_queue rx)).
(** Every placement is paid for by an operation, and justified; and the phase
    is changed by the loop over the phases only. *)
Record progress (rx : RCtx) (tr : list event) (rx' : RCtx) : Prop := mkProgressed {
  pg_inv : inv rx';
  pg_work : (ops rx + Z.of_nat (tally places tr) <= ops rx')%Z;
  pg_justified : Forall (fun ev => placed ev = true -> justified ev.1) tr;
  pg_phase : phase_at rx' = phase_at rx
}.

Lemma progress_refl rx : inv rx -> progress rx [] rx.
Proof. intros Hi. split; [done| |constructor|done]. unfold tally. cbn. lia. Qed.
Lemma progress_trans rx1 t1 rx2 t2 rx3 : progress rx1 t1 rx2 -> progress rx2 t2 rx3 -> progress rx1 (t1 ++ t2) rx3.
Proof. intros [] []. split; [done|rewrite tally_app; lia|by apply Forall_app|congruence]. Qed.

Definition does {A : Type} (P : RCtx -> Prop) (m : rop A) (Q : A -> RCtx -> Prop) : Prop :=
  forall rx tr r rx', inv rx -> P rx -> exec (m rx) tr (r, rx') -> Forall named tr ->
  progress rx tr rx' /\ match r with Some a => Q a rx' | None => True end.
(** A step that needs nothing and promises nothing more. *)
Definition steady {A : Type} (m : rop A) : Prop := does (fun _ => True) m (fun _ _ => True).
(** A step that attempts no operation, and whose result satisfies [G]. *)
Definition yields {A : Type} (m : rop A) (G : A -> Prop) : Prop :=
  forall n rx tr r rx', inv rx -> ops rx = n -> exec (m rx) tr (r, rx') -> Forall named tr ->
  progress rx tr rx' /\ ops rx' = n /\ match r with Some a => G a | None => True end.
Abbreviation still m := (yields m (fun _ => True)).

Lemma does_pre {A} (P P' : RCtx -> Prop) (m : rop A) (Q : A -> RCtx -> Prop) :
  does P m Q -> (forall rx, P' rx -> P rx) -> does P' m Q.
Proof. intros Hm HP rx tr r rx' Hc Hp. apply Hm; auto. Qed.
Lemma does_post {A} P (m : rop A) (Q Q' : A -> RCtx -> Prop) :
  does P m Q -> (forall a rx, Q a rx -> Q' a rx) -> does P m Q'.
Proof.
  intros Hm HQ rx tr r rx' Hc Hp Hx Hn. destruct (Hm rx tr r rx' Hc Hp Hx Hn) as [? Hr]. split; [done|]. destruct r; auto.
Qed.
Lemma does_ret {A} (P : RCtx -> Prop) (a : A) (Q : A -> RCtx -> Prop) : (forall rx, P rx -> Q a rx) -> does P (rret a) Q.
Proof. intros HQ rx tr r rx' Hc HP [-> [= -> ->]]%exec_ret _. split; [by apply progress_refl|auto]. Qed.
Lemma does_bind {A B} P (m : rop A) (f : A -> rop B) (Q : A -> RCtx -> Prop) (S : B -> RCtx -> Prop) :
  does P m Q -> (forall a, does (Q a) (f a) S) -> does P (rbind m f) S.
Proof.
  intros Hm Hf rx tr r rx' Hc HP (t1 & t2 & [a rx1] & -> & H1 & H2)%exec_bind [N1 N2]%Forall_app.
  destruct (Hm rx t1 a rx1 Hc HP H1 N1) as [G1 Ha]. destruct a as [a|].
  - destruct (Hf a rx1 t2 r rx') as [G2 Hr]; [by apply G1|done..|]. split; [by eapply progress_trans|done].
  - apply exec_ret in H2 as [-> [= -> ->]]. rewrite app_nil_r. done.
Qed.

(** The facts about the context that a step may carry depend on the operation
    count alone. *)
Class OfOps (P : RCtx -> Prop) : Prop := of_ops rx rx' : ops rx = ops rx' -> P rx -> P rx'.
#[local] Instance of_ops_true : OfOps (fun _ => True).
Proof. done. Qed.
Definition room (rx : RCtx) : Prop := (ops rx < max_operations budget)%Z.
#[local] Instance of_ops_room : OfOps room.
Proof. intros rx rx' E Hr. unfold room in *. lia. Qed.

Lemma does_yields {A} P `{!OfOps P} (m : rop A) (G : A -> Prop) : yields m G -> does P m (fun a rx => P rx /\ G a).
Proof.
  intros Hm rx tr r rx' Hi HP Hx Hn. destruct (Hm (ops rx) rx tr r rx' Hi eq_refl Hx Hn) as [Hg Hr].
  split; [done|]. destruct r as [a|]; [|done]. destruct Hr as [Ho HG]. split; [|done]. by apply (of_ops rx).
Qed.
Lemma does_then {A B} P `{!OfOps P} (m : rop A) (G : A -> Prop) (f : A -> rop B) (S : B -> RCtx -> Prop) :
  yields m G -> (forall a, G a -> does P (f a) S) -> does P (rbind m f) S.
Proof.
  intros Hm Hf. eapply does_bind; [by apply does_yields|]. intros a rx tr r rx' Hi [HP HG]. by apply Hf.
Qed.
Lemma steady_then {A B} (m : rop A) (f : A -> rop B) : steady m -> (forall a, steady (f a)) -> steady (rbind m f).
Proof. intros Hm Hf. eapply does_bind; [exact Hm|exact Hf]. Qed.
Lemma steady_does {A} P (m : rop A) : steady m -> does P m (fun _ _ => True).
Proof. intros Hm. by eapply does_pre. Qed.
Lemma yields_steady {A} (m : rop A) G : yields m G -> steady m.
Proof. intros Hm. eapply does_post; [by apply (does_yields (fun _ => True))|done]. Qed.

Lemma yields_ret {A} (a : A) (G : A -> Prop) : G a -> yields (rret a) G.
Proof. intros Ha n rx tr r rx' Hi HP [-> [= -> ->]]%exec_ret _. split; [by apply progress_refl|done]. Qed.
Lemma yields_bind {A B} (m : rop A) (f : A -> rop B) (G : A -> Prop) (G' : B -> Prop) :
  yields m G -> (forall a, G a -> yields (f a) G') -> yields (rbind m f) G'.
Proof.
  intros Hm Hf n rx tr r rx' Hi HP (t1 & t2 & [a rx1] & -> & H1 & H2)%exec_bind [N1 N2]%Forall_app.
  destruct (Hm n rx t1 a rx1 Hi HP H1 N1) as (G1 & E1 & Ha). destruct a as [a|].
  - destruct (Hf a Ha n rx1 t2 r rx') as (G2 & E2 & Hr); [by apply G1|done..|].
    split; [by eapply progress_trans|done].
  - apply exec_ret in H2 as [-> [= -> ->]]. by rewrite app_nil_r.
Qed.
Lemma yields_post {A} (m : rop A) (G G' : A -> Prop) : yields m G -> (forall a, G a -> G' a) -> yields m G'.
Proof.
  intros Hm HG n rx tr r rx' Hi HP Hx Hn. destruct (Hm n rx tr r rx' Hi HP Hx Hn) as (? & ? & ?).
  split_and!; try done. destruct r; auto.
Qed.
Lemma yields_still {A} (m : rop A) (G : A -> Prop) : yields m G -> still m.
Proof. intros Hm. by eapply yields_post. Qed.

(** Programs that place nothing leave the context alone. *)
Lemma unplaced_progress rx tr : inv rx -> tally places tr = 0%nat -> progress rx tr rx.
Proof. intros Hi Ht. split; [done|lia|by apply none_placed|done]. Qed.
Lemma yields_call_fuel {A} (p : io (option A)) (G : A -> Prop) :
  silent places p -> (forall tr a, exec p tr (Some a) -> Forall named tr -> G a) -> yields (rcall_fuel p) G.
Proof.
  intros Hs HG n rx tr r rx' Hi HP (t1 & t2 & a & -> & H1 & [-> [= -> ->]]%exec_ret)%exec_bind.
  rewrite app_nil_r. intros Hn. split; [apply unplaced_progress; [done|by apply (Hs _ _ H1)]|]. split; [done|].
  destruct a; [by eapply HG|done].
Qed.
Lemma yields_call {A} (p : io A) (G : A -> Prop) :
  silent places p -> (forall tr a, exec p tr a -> G a) -> yields (rcall p) G.
Proof.
  intros Hs HG n rx tr r rx' Hi HP (t1 & t2 & a & -> & H1 & [-> [= -> ->]]%exec_ret)%exec_bind.
  rewrite app_nil_r. intros Hn. split; [apply unplaced_progress; [done|by apply (Hs _ _ H1)]|].
  split; [done|by eapply HG].
Qed.
Lemma still_call {A} (p : io A) : silent places p -> still (rcall p).
Proof. intros Hs. by apply yields_call. Qed.
Lemma yields_get {A} (f : RCtx -> A) (G : A -> Prop) : (forall rx, inv rx -> G (f rx)) -> yields (rget f) G.
Proof. intros HG n rx tr r rx' Hi HP [-> [= -> ->]]%exec_ret _. split; [by apply progress_refl|auto]. Qed.
Lemma yields_queue {A} (f : Queue -> A) :
  yields (rqueue f) (fun a => exists q, a = f q /\ config q = config q0 /\ cursor_is_valid (recovery_cursor q) = true).
Proof. apply yields_get. intros rx []. by eexists. Qed.
Lemma still_stats (f : RecoveryStats -> RecoveryStats) :
  (forall s, operations_attempted (f s) = operations_attempted s) -> still (rstats f).
Proof.
  intros Hf n rx tr r rx' [] HP [-> [= -> ->]]%exec_ret _. unfold ops in *. cbn in *. rewrite Hf. split; [|done].
  split; [split; try done; unfold ops; cbn; by rewrite Hf| |constructor|done]. unfold ops, tally. cbn. rewrite Hf. lia.
Qed.
Lemma still_scan (f : RecoveryScanStats -> RecoveryScanStats) :
  (forall s, scan_within s -> scan_within (f s)) -> still (rscan f).
Proof.
  intros Hf n rx tr r rx' [] HP [-> [= -> ->]]%exec_ret _. split; [|done].
  split; [split; [done..|by apply Hf|done]| |constructor|done].
  unfold ops, tally. cbn. lia.
Qed.
Lemma still_cursor (f : RecoveryCursor -> RecoveryCursor) :
  (forall c, cursor_is_valid c = true -> cursor_is_valid (f c) = true) -> (forall c, rk_phase (f c) = rk_phase c) ->
  still (rcursor f).
Proof.
  intros Hf Hk n rx tr r rx' [] HP (t1 & t2 & x & -> & H1 & [-> [= -> ->]]%exec_ret)%exec_bind _.
  apply exec_ret in H1 as [-> ->]. split; [|done].
  split; [split; try done; cbn; auto| |constructor|unfold phase_at; cbn; apply Hk].
  unfold ops, tally. cbn. lia.
Qed.

(** ** The steps of the walk *)

Lemma still_bind {A B} (m : rop A) (f : A -> rop B) (G : B -> Prop) : still m -> (forall a, yields (f a) G) -> yields (rbind m f) G.
Proof. intros Hm Hf. eapply yields_bind; [exact Hm|]. intros a _. apply Hf. Qed.
Lemma still_queue {A} (f : Queue -> A) : still (rqueue f).
Proof. by apply yields_get. Qed.
Lemma still_fuel {A} (p : io (option A)) : silent places p -> still (rcall_fuel p).
Proof. intros Hs. by apply yields_call_fuel. Qed.
Lemma out_of_fuel {A} (G : A -> Prop) : yields (rcall_fuel (Ret None)) G.
Proof. apply yields_call_fuel; [apply silent_ret|]. by intros tr a [_ ?]%exec_ret. Qed.

Create HintDb still.
Ltac still_step :=
  lazymatch goal with
  | |- yields (rret _) _ => apply yields_ret; done
  | |- yields (rbind _ _) _ => apply still_bind; [|intros ?]
  | |- yields (rstats _) _ => apply still_stats; done
  | |- yields (rcall _) _ => apply still_call; silence
  | |- yields (rqueue _) _ => apply still_queue
  | |- yields (rget _) _ => by apply yields_get
  | |- yields (match ?x with _ => _ end) _ => destruct x
  | |- yields (let x := _ in _) _ => cbv zeta
  | |- yields _ _ => solve [auto 2 with still nocore]
  end.
Ltac stilling := intros; repeat still_step.

Lemma still_record_error op path e : still (record_error op path e).
Proof. apply still_stats. done. Qed.
#[local] Hint Resolve still_record_error : still.
Lemma still_block_phase op path e : still (block_phase op path e).
Proof. unfold block_phase. stilling. Qed.
#[local] Hint Resolve still_block_phase : still.
Lemma still_move_failure op path f : still (record_move_failure op path f).
Proof. unfold record_move_failure. by destruct f; apply still_record_error. Qed.
Lemma still_unlink_failure op path f : still (record_unlink_failure op path f).
Proof. unfold record_unlink_failure. by destruct f; apply still_record_error. Qed.
Lemma still_remove_failure op path f : still (record_remove_directory_failure op path f).
Proof. unfold record_remove_directory_failure. by destruct f; apply still_record_error. Qed.
Lemma still_replace_failure op path f : still (record_replace_failure op path f).
Proof. unfold record_replace_failure. by destruct f; apply still_record_error. Qed.
Lemma still_directory_error op path f : still (record_directory_error op path f).
Proof. unfold record_directory_error. stilling. Qed.
#[local] Hint Resolve still_move_failure still_unlink_failure still_remove_failure still_replace_failure
  still_directory_error : still.

Lemma silent_clock d : silent places (budget_time_exceeded d).
Proof. unfold budget_time_exceeded. silence. Qed.
#[local] Hint Resolve silent_clock : silent.

(** A budget check that passes leaves room for an operation. *)
Lemma budget_leaves_room P `{!OfOps P} deadline :
  does P (work_budget_exhausted budget deadline) (fun exhausted rx => P rx /\ (exhausted = false -> room rx)).
Proof.
  unfold work_budget_exhausted. intros rx tr r rx' Hi HP (t1 & t2 & x & -> & [-> ->]%exec_ret & H2)%exec_bind Hn.
  cbn [fst snd app] in *. destruct (_ <=? _)%Z eqn:E; breflect.
  - apply exec_ret in H2 as [-> [= -> ->]]. split; [by apply progress_refl|done].
  - assert (Hd : does (fun rx => P rx /\ room rx)
      (let~ exceeded := rcall (budget_time_exceeded deadline) in
       match exceeded with
       | Ok exceeded => rret exceeded
       | Err error =>
           let~ _ := block_phase "clock_monotonic" (lit "/") ("recovery budget clock unavailable: " +:+ io_text error) in
           rret true
       end) (fun exhausted rx => P rx /\ (exhausted = false -> room rx))).
    { assert (OfOps (fun rx => P rx /\ room rx)).
      { intros a b Eab [? ?]. split; [by apply (of_ops a)|by apply (of_ops a)]. }
      eapply does_post; [apply (does_yields _ _ (fun _ => True)); stilling|]. naive_solver. }
    exact (Hd rx t2 r rx' Hi (conj HP E) H2 Hn).
Qed.

(** Reads charged to the scan budget. *)
Lemma read_directory_proper fuel fd deadline :
  yields (read_recovery_directory fuel fd deadline scan) (fun r => match r with Ok l => Forall proper l | Err _ => True end).
Proof.
  intros n rx tr r rx' Hi Hn (t1 & t2 & x & -> & [-> ->]%exec_ret & H2)%exec_bind Hnames. cbn [fst snd app] in *.
  destruct (_ <=? _)%Z eqn:E1; breflect.
  { apply exec_ret in H2 as [-> [= -> ->]]. split; [by apply progress_refl|done]. }
  cbv zeta in H2. destruct (_ || _) eqn:E2; [|apply orb_false_iff in E2 as [E2 E3]; breflect].
  { apply exec_ret in H2 as [-> [= -> ->]]. split; [by apply progress_refl|done]. }
  apply exec_bind in H2 as (t3 & t4 & x & -> & [-> ->]%exec_ret & H2). cbn [fst snd app] in *.
  apply exec_bind in H2 as (t5 & t6 & [res rx1] & -> & H3 & H2).
  apply exec_bind in H3 as (t7 & t8 & res' & -> & H3 & [-> [= -> ->]]%exec_ret). rewrite app_nil_r in *.
  apply Forall_app in Hnames as [N1 N2].
  assert (Hsil : tally places t7 = 0%nat) by (eapply silent_read_dir_bounded; [apply silent_clock|exact H3]).
  pose proof (read_bounded_charged _ _ MAX_RECOVERY_DIRECTORY_ENTRIES MAX_RECOVERY_DIRECTORY_NAME_BYTES _ _ _
    ltac:(done) ltac:(done) H3 N1) as Hc.
  unfold saturating_sub, MAX_RECOVERY_DIRECTORY_ENTRY_CHARGE, MAX_RECOVERY_DIRECTORY_NAME_BYTE_CHARGE in *.
  destruct Hi as [Hcfg Hops (Hs1 & Hs2 & Hs3) Hcur].
  assert (Hpr : forall rx2, rx_cx rx2 = rx_cx rx -> rx_stats rx2 = rx_stats rx -> scan_within (rx_scan rx2) ->
    progress rx t7 rx2 /\ ops rx2 = ops rx).
  { intros [cx st sc] E5 E6 Hw. cbn in E5, E6, Hw. subst. split; [|done].
    split; [by split|unfold ops; cbn; lia|by apply none_placed|done]. }
  destruct res' as [res|]; cbn [fst snd] in *.
  - apply exec_bind in H2 as (t9 & t10 & x & -> & [-> ->]%exec_ret & [-> [= -> ->]]%exec_ret). rewrite app_nil_r.
    edestruct Hpr as [Hp Ho]; cycle 3.
    + split; [exact Hp|]. split; [by rewrite Ho|]. destruct res as [e|[]]; try done. by destruct Hc.
    + done.
    + done.
    + unfold scan_within, charge_progress, charge_directory, usize_saturating_add. cbn.
      destruct res as [e|e]; [destruct Hc as [Hc _]|]; destruct Hc as [Hc1 Hc2]; lia.
  - apply exec_ret in H2 as [-> [= -> ->]]. rewrite app_nil_r. split; [|done]. apply Hpr; [done..|].
    unfold scan_within, charge_directory, usize_saturating_add. cbn. lia.
Qed.

Lemma still_remember phase kind comps path :
  retry_depth_is_valid (mkRecoveryHierarchyRetry phase kind comps) = true ->
  still (remember_hierarchy_retry_or_block phase kind comps path).
Proof.
  intros Hd. unfold remember_hierarchy_retry_or_block. apply still_bind; [|stilling].
  unfold remember_hierarchy_retry. apply still_bind; [stilling|]. intros c. apply still_bind; [|stilling].
  apply still_cursor; [intros c'; by apply valid_remember|].
  intros c'. unfold remember_retry. by repeat case_match.
Qed.

(** Checked directory names are the entry's own. *)
Lemma ascii_name_own op entry kind : yields (ascii_directory_name op entry kind) (fun o => forall name, o = Some name -> name = entry).
Proof.
  unfold ascii_directory_name, as_ascii_str. destruct (is_ascii entry).
  - apply yields_ret. by intros name [= <-].
  - apply still_bind; [stilling|]. intros _. by apply yields_ret.
Qed.
Lemma boot_name_own op entry :
  yields (boot_directory_name op entry) (fun o => is_Some o -> is_some (boot_id_bytes entry) = true).
Proof.
  unfold boot_directory_name. eapply yields_bind; [apply ascii_name_own|]. intros [name|] Hn.
  - rewrite (Hn name eq_refl). destruct (boot_id_bytes entry); [by apply yields_ret|].
    apply still_bind; [unfold record_noncanonical; stilling|]. intros _. apply yields_ret. by intros [].
  - apply yields_ret. by intros [].
Qed.
Lemma bucket_name_own op entry :
  yields (bucket_directory_name op entry) (fun o => forall name b, o = Some (name, b) -> bucket_from_hex entry = Some b).
Proof.
  unfold bucket_directory_name. eapply yields_bind; [apply ascii_name_own|]. intros [name|] Hn.
  - rewrite (Hn name eq_refl). destruct (bucket_from_hex entry) eqn:E; [apply yields_ret; by intros ? ? [= <- <-]|].
    apply still_bind; [unfold record_noncanonical; stilling|]. intros _. by apply yields_ret.
  - by apply yields_ret.
Qed.
Lemma shard_name_own op entry count :
  yields (shard_directory_name op entry count) (fun o => forall name sh, o = Some (name, sh) -> shard_from_hex entry = Some sh).
Proof.
  unfold shard_directory_name. eapply yields_bind; [apply ascii_name_own|]. intros [name|] Hn; [|by apply yields_ret].
  rewrite (Hn name eq_refl). destruct (shard_from_hex entry) eqn:E.
  - destruct (_ <=? _)%Z; [|apply yields_ret; by intros ? ? [= <- <-]].
    apply still_bind; [stilling|]. intros _. by apply yields_ret.
  - apply still_bind; [unfold record_noncanonical; stilling|]. intros _. by apply yields_ret.
Qed.

Definition level_wf (level : Level) : Prop :=
  forall kind, retry_depth_is_valid (mkRecoveryHierarchyRetry (lv_phase level) kind (lv_components level)) = true.
Lemma still_level_retry level kind : level_wf level -> still (remember_level_retry level kind).
Proof. intros Hl. unfold remember_level_retry. apply still_bind; [by apply still_remember|stilling]. Qed.
Lemma descend_proper fuel fd level deadline :
  level_wf level ->
  yields (descend_level fuel fd level scan deadline)
    (fun d => match d with DescendEntries _ l => Forall proper l | _ => True end).
Proof.
  intros Hl. unfold descend_level.
  assert (Hr : forall kind, yields (remember_level_retry level kind)
    (fun d => match d with DescendEntries _ l => Forall proper l | _ => True end)).
  { intros kind. unfold remember_level_retry. apply still_bind; [by apply still_remember|].
    intros []; by apply yields_ret. }
  apply still_bind; [stilling|]. intros [d|e].
  - eapply yields_bind; [apply read_directory_proper|]. intros [l|e] Hf.
    + apply yields_ret. by apply Forall_sort_by.
    + apply still_bind; [stilling|]. intros _. apply still_bind; [stilling|]. intros []; [by apply yields_ret|apply Hr].
  - apply still_bind; [stilling|]. intros _. apply still_bind; [stilling|]. intros _. apply Hr.
Qed.

Lemma still_clear phase : still (rcursor (clear_phase_cursor phase)).
Proof. apply still_cursor; [apply valid_clear|]. by destruct phase. Qed.
Lemma retry_prepared phase :
  yields (prepare_hierarchy_retry_phase phase) (fun o => forall retry, o = Some retry -> retry_depth_is_valid retry = true).
Proof.
  unfold prepare_hierarchy_retry_phase. apply still_bind; [stilling|]. intros c. apply still_bind.
  { destruct (binary_search _ _ _); [|stilling]. apply still_cursor; [|by destruct phase]. intros c' Hc.
    by apply valid_clear, valid_remove_overflow. }
  intros _. eapply yields_post; [apply yields_queue|]. intros o (q & -> & _ & Hc) retry. by apply next_retry_valid.
Qed.
Lemma still_retry_clock deadline : still (retry_clock deadline).
Proof. unfold retry_clock. stilling. Qed.
#[local] Hint Resolve still_retry_clock : still.
Lemma still_descend_components root deadline comps current : still (descend_components root deadline comps current).
Proof. revert current. induction comps as [|c comps IH]; intros current; cbn [descend_components]; stilling. Qed.
#[local] Hint Resolve still_descend_components : still.
Lemma still_retry_one fuel phase retry root deadline :
  (forall r, retry = Some r -> retry_depth_is_valid r = true) ->
  still (retry_one_hierarchy_directory fuel phase retry root scan deadline).
Proof.
  intros Hr. unfold retry_one_hierarchy_directory. destruct retry as [retry|].
  2:{ apply still_bind; [|stilling]. by apply still_cursor; [apply valid_drop_frontier|]. }
  specialize (Hr retry eq_refl).
  assert (Hsettle : still (rcursor (settle_retry phase retry))).
  { apply still_cursor; [intros c; by apply valid_settle|]. intros c. unfold settle_retry. by destruct phase; case_match. }
  assert (Hadvance : still (rcursor (advance_hierarchy_retry_frontier retry))).
  { by apply still_cursor; [intros c; apply valid_advance|]. }
  assert (Hread : forall fd, still (read_recovery_directory fuel fd deadline scan)).
  { intros fd. eapply yields_still, read_directory_proper. }
  stilling.
Qed.
Lemma still_retry_phase fuel phase fd deadline : still (retry_phase fuel phase fd scan deadline).
Proof.
  unfold retry_phase. eapply yields_bind; [apply retry_prepared|]. intros retry Hr. by apply still_retry_one.
Qed.
Lemma root_proper fuel fd root op deadline :
  yields (enumerate_root fuel fd root op scan deadline) (fun o => forall l, o = Some l -> Forall proper l).
Proof.
  unfold enumerate_root. eapply yields_bind; [apply read_directory_proper|]. intros [l|e] Hf.
  - apply yields_ret. intros ? [= <-]. by apply Forall_sort_by.
  - apply still_bind; [stilling|]. intros _. by apply yields_ret.
Qed.
Lemma still_open_phase root op : still (open_phase root op).
Proof. unfold open_phase. stilling. Qed.

(** ** Operations *)

(** A method of the handle that places at most one object, and justifiably. *)
Definition places_once {A : Type} (m : rop A) : Prop :=
  forall rx tr r rx', inv rx -> exec (m rx) tr (r, rx') ->
    inv rx' /\ ops rx' = ops rx /\ phase_at rx' = phase_at rx /\ (tally places tr <= 1)%nat /\
    Forall (fun ev => placed ev = true -> justified ev.1) tr.
(** Counted as an operation, with what follows it. *)
Lemma does_attempt {A B} (m : rop A) (k : A -> rop B) :
  places_once m -> (forall a, steady (k a)) ->
  does room (let~ _ := rstats attempt_operation in let~ a := m in k a) (fun _ _ => True).
Proof.
  intros Hm Hk rx tr r rx' Hi Hr (t1 & t2 & x & -> & [-> ->]%exec_ret & Hx)%exec_bind Hn. cbn [fst snd app] in *.
  apply exec_bind in Hx as (t3 & t4 & [a rx1] & -> & H1 & H2). apply Forall_app in Hn as [_ Hn].
  assert (Hi' : inv (mkRCtx (rx_cx rx) (attempt_operation (rx_stats rx)) (rx_scan rx))).
  { destruct Hi. split; try done. unfold room, ops in *. cbn. lia. }
  destruct (Hm _ _ _ _ Hi' H1) as (Hi1 & E & Ek & Ht & Hj).
  assert (progress rx t3 rx1) as Hp1. { split; [done| |done|done]. rewrite E. unfold ops. cbn. lia. }
  destruct a as [a|].
  - destruct (Hk a rx1 t4 r rx' Hi1 I H2 Hn) as [Hp2 ?]. split; [by eapply progress_trans|done].
  - apply exec_ret in H2 as [-> [= -> ->]]. rewrite app_nil_r. done.
Qed.
(** A program that moves at most one object, and justifiably. *)
Definition moves {A : Type} (p : io A) : Prop :=
  forall tr a, exec p tr a -> (tally places tr <= 1)%nat /\ Forall (fun ev => placed ev = true -> justified ev.1) tr.
(** A rename that is justified by its names. *)
Lemma rename_justified sn dn c :
  promotes sn dn \/ reaps sn dn \/ quarantines dn -> is_rename sn dn c = true -> justified c.
Proof.
  intros Hj. destruct c; try done. cbn. intros [E1 E2]%andb_true_iff. by apply bool_decide_eq_true in E1 as ->, E2 as ->.
Qed.
Lemma moves_silent {A} (p : io A) : silent places p -> moves p.
Proof. intros Hs tr a Hx. pose proof (Hs _ _ Hx) as Ht. cbn in Ht. split; [lia|by apply none_placed]. Qed.
Lemma moves_try {A B E} (m : io (result A E)) (f : A -> io (result B E)) :
  silent places m -> (forall tr a, exec m tr (Ok a) -> moves (f a)) -> moves (io_try m f).
Proof.
  intros Hm Hf tr b [(e & Hx & ->)|(t1 & t2 & a & -> & H1 & H2)]%exec_try; [by eapply moves_silent|].
  destruct (Hf _ _ H1 _ _ H2) as [Ht Hj]. destruct (moves_silent _ Hm _ _ H1) as [_ Hj1].
  pose proof (Hm _ _ H1) as Hz. cbn in Hz. rewrite tally_app. split; [lia|by apply Forall_app].
Qed.
Lemma moves_move sd sn dd dn :
  promotes sn dn \/ reaps sn dn \/ quarantines dn -> moves (move_verified_noreplace sd sn dd dn).
Proof.
  intros Hj tr a [Ht Hf]%move_placed. split; [done|]. eapply Forall_impl; [exact Hf|].
  intros ev Hev Hp. eapply rename_justified; [done|by apply Hev].
Qed.
Lemma places_once_io {A} (p : io A) : moves p -> places_once (rcall p).
Proof.
  intros Hp rx tr r rx' Hi (t1 & t2 & a & -> & H1 & [-> [= -> ->]]%exec_ret)%exec_bind.
  rewrite app_nil_r. destruct (Hp _ _ H1) as [Ht Hf]. by split_and!.
Qed.
Lemma places_once_silent {A} (p : io A) : silent places p -> places_once (rcall p).
Proof. intros Hs. by apply places_once_io, moves_silent. Qed.

Ltac steady_still := apply (yields_steady _ (fun _ => True)); stilling.
Lemma attempt_move_does op path counted p :
  (forall s, operations_attempted (counted s) = operations_attempted s) -> moves p ->
  does room (attempt_move op path counted p) (fun _ _ => True).
Proof.
  intros Hc Hp. apply does_attempt; [by apply places_once_io|]. intros [u|f].
  - apply (yields_steady _ (fun _ => True)), still_bind; [by apply still_stats|stilling].
  - steady_still.
Qed.
Lemma attempt_unlink_does op path counted fd name :
  (forall s, operations_attempted (counted s) = operations_attempted s) ->
  does room (attempt_unlink op path counted fd name) (fun _ _ => True).
Proof.
  intros Hc. apply does_attempt; [apply places_once_silent; silence|]. intros [u|f].
  - apply (yields_steady _ (fun _ => True)), still_bind; [by apply still_stats|stilling].
  - steady_still.
Qed.
Lemma within_budget_steady deadline step :
  does room step (fun _ _ => True) -> steady (within_budget budget deadline step).
Proof.
  intros Hs. unfold within_budget. eapply does_bind; [by apply (budget_leaves_room (fun _ => True))|]. intros [].
  - apply steady_does. unfold stop_exhausted. steady_still.
  - eapply does_pre; [exact Hs|]. naive_solver.
Qed.
Lemma silent_remove_directory d n : silent places (remove_empty_directory_verified d n).
Proof. unfold remove_empty_directory_verified, unlinkat_dir. silence. Qed.
#[local] Hint Resolve silent_remove_directory : silent.
Lemma prune_level_steady fd name op path deadline counted :
  (forall s, operations_attempted (counted s) = operations_attempted s) ->
  steady (prune_level fd name op path budget deadline counted).
Proof.
  intros Hc. unfold prune_level. apply steady_then.
  - unfold prune_empty_directory. eapply does_bind; [by apply (budget_leaves_room (fun _ => True))|]. intros [].
    + apply steady_does. steady_still.
    + eapply does_pre; [apply does_attempt; [apply places_once_silent; silence|]|naive_solver].
      intros [u|[]]; steady_still.
  - intros []; apply (yields_steady _ (fun _ => True)); stilling.
Qed.

Lemma evolved_inv rx cx' : inv rx -> evolves (rx_cx rx) cx' -> inv (mkRCtx cx' (rx_stats rx) (rx_scan rx)).
Proof.
  intros [] (E1 & _ & _ & E2). split; try done; cbn.
  - unfold rx_queue. cbn. by rewrite E1.
  - unfold rx_queue in *. cbn. by rewrite E2.
Qed.
Lemma places_once_method {A} (m : op A) :
  (forall cx tr a cx', config (handle cx) = config q0 -> exec (m cx) tr (a, cx') ->
     evolves cx cx' /\ (tally places tr <= 1)%nat /\ Forall (fun ev => placed ev = true -> justified ev.1) tr) ->
  places_once (rmethod m).
Proof.
  intros Hm rx tr r rx' Hi (t1 & t2 & [a cx'] & -> & H1 & [-> [= -> ->]]%exec_ret)%exec_bind.
  rewrite app_nil_r. destruct (Hm _ _ _ _ (inv_config _ Hi) H1) as (He & Ht & Hj).
  split; [by apply evolved_inv|]. split_and!; try done. unfold phase_at, rx_queue. cbn. by destruct He as (_ & _ & _ & ->).
Qed.

(** *** Quarantine *)

(** The name a report gives the object. *)
Lemma quarantined_name reason limit r name :
  quarantine_report_wf reason limit r -> quarantined_as r = Some name -> quarantines name.
Proof.
  intros Hw E. exists (match r with Ok p => qp_quarantine_id p | Err (QfMove id _ _ _) => id | _ => [] end), reason.
  destruct r as [p|[| ? ? [] | |]]; cbn in *; try done; injection E as <-; naive_solver.
Qed.
Lemma publish_quarantine_does d f reason limit cx tr r cx' :
  (0 <= limit)%Z -> exec (publish_quarantine_object_with_ids d f reason limit random_128bit cx) tr (r, cx') ->
  let attempts := match r with Ok p => qp_attempts_consumed p | Err e => QuarantinePublishFailure_attempts_consumed e end in
  evolves cx cx' /\ (Z.of_nat (tally places tr) <= attempts <= limit)%Z /\
  Forall (fun ev => placed ev = true -> justified ev.1) tr.
Proof.
  intros Hl Hx.
  assert (Hs : forall sel, Placing sel -> silent sel random_128bit) by (intros; auto with silent).
  destruct (publish_quarantine_places (sel := places) d f reason limit random_128bit cx Hl (Hs _ _) tr _ Hx)
    as ([qd Hn] & Hw & He). cbn in Hn, Hw, He. split; [done|].
  assert (Hal : (Z.of_nat (tally places tr) <= match r with Ok p => qp_attempts_consumed p
    | Err e => QuarantinePublishFailure_attempts_consumed e end <= limit)%Z).
  { rewrite Hn. destruct r as [p|[| ? ? [] | |]]; cbn in Hw |- *; lia. }
  split; [done|]. destruct (quarantined_as r) as [name|] eqn:E.
  - eapply Forall_impl with (P := fun ev => placed ev = true -> is_rename f name ev.1 = true).
    + apply placed_only.
      destruct (publish_quarantine_places (sel := fun c => places c && negb (is_rename f name c)) d f reason limit
        random_128bit cx Hl (Hs _ _) tr _ Hx) as ([qd' ->] & _). cbn. rewrite E. cbn. by rewrite !bool_decide_true.
    + intros ev Hev Hp. eapply rename_justified; [|by apply Hev]. right. right. by eapply quarantined_name.
  - by apply none_placed.
Qed.
Lemma quarantine_object_steady candidate : steady (quarantine_recovery_object candidate budget).
Proof.
  intros rx tr r rx' Hi _ (t1 & t2 & x & -> & [-> ->]%exec_ret & Hx)%exec_bind Hn. cbn [fst snd app] in *.
  cbv zeta in Hx. unfold saturating_sub in Hx. destruct (_ =? 0)%Z eqn:E; breflect.
  { assert (Hs : steady (let~ _ := rstats set_exhausted in rret false)) by steady_still.
    by apply (Hs rx t2 r rx' Hi I). }
  apply exec_bind in Hx as (t3 & t4 & [res rx1] & -> & H1 & H2). apply Forall_app in Hn as [_ Hn].
  apply exec_bind in H1 as (t5 & t6 & [a cx1] & -> & H1 & [-> [= -> ->]]%exec_ret). rewrite app_nil_r in *.
  apply publish_quarantine_does in H1 as (He & Ha & Hj); [|lia]. cbn [fst snd] in *. cbv zeta in Ha, H2.
  set (attempts := match a with Ok _ => _ | Err _ => _ end) in *.
  apply exec_bind in H2 as (t7 & t8 & x & -> & [-> ->]%exec_ret & H2). cbn [fst snd app] in *.
  set (rx2 := mkRCtx _ _ _) in H2.
  assert (Hp : progress rx t5 rx2).
  { destruct (evolved_inv rx cx1 Hi He) as [I1 I2 I3 I4]. destruct Hi as [_ Ho _ _]. unfold ops in *.
    subst rx2. cbn in I1, I2, I3, I4, Ho |- *.
    split; [split; try done|cbn|done|]; try (unfold ops; cbn; lia).
    unfold phase_at, rx_queue. cbn. by destruct He as (_ & _ & _ & ->). }
  assert (Hs : steady (match a with
    | Ok publication =>
        let~ _ := rstats (push_quarantined (mkRecoveryQuarantine (qc_relative_path candidate)
          (qp_quarantine_id publication) (qp_quarantine_name publication))) in
        rret true
    | Err (QfBudgetExhausted _ _ _) =>
        let~ _ := record_error "quarantine_budget_exhausted" (qc_relative_path candidate)
          "quarantine collision retries exhausted the remaining operation budget" in
        let~ _ := rstats set_exhausted in
        rret false
    | Err error =>
        let~ _ := record_error "quarantine" (qc_relative_path candidate) (QuarantinePublishFailure_fmt error) in
        rret true
    end)) by steady_still.
  destruct (Hs rx2 t8 r rx' (pg_inv _ _ _ Hp) I H2 Hn) as [Hp2 _]. split; [by eapply progress_trans|by destruct r].
Qed.
(** An update that keeps the cursor valid and its phase. *)
Definition sound_update (f : RecoveryCursor -> RecoveryCursor) : Prop :=
  (forall c, cursor_is_valid c = true -> cursor_is_valid (f c) = true) /\ (forall c, rk_phase (f c) = rk_phase c).
Lemma still_update f : sound_update f -> still (rcursor f).
Proof. intros [? ?]. by apply still_cursor. Qed.
Lemma sound_set3 phase x : is_none_or three_level_is_valid x = true -> sound_update (set_cursor3 phase x).
Proof. intros Hx. split; [intros c; by apply valid_set_cursor3|by destruct phase]. Qed.
Lemma sound_set4 x : is_none_or four_level_is_valid x = true -> sound_update (set_reap_leases x).
Proof. intros Hx. split; [intros c; by apply valid_set_reap|done]. Qed.
Lemma quarantine_entry_steady fd name path reason restore :
  sound_update restore ->
  steady (quarantine_entry fd name path reason budget restore).
Proof.
  intros Hr. apply steady_then; [apply quarantine_object_steady|]. intros []; [steady_still|].
  apply (yields_steady _ (fun _ => True)), still_bind; [by apply still_update|stilling].
Qed.

(** *** Validated objects *)

(** The name was accepted at its place, and the header of a file with it. *)
Definition accepted (name : bytes) (ctx : ActivePathContext) : Prop :=
  exists identity h h', check_active_name q0 name ctx = Ok identity /\ check_active_header q0 h identity = Ok h'.
Lemma validate_accepts q fd name ctx tr h :
  config q = config q0 -> exec (validate_active_object q fd name ctx) tr (Ok h) -> accepted name ctx.
Proof.
  intros Hq Hx. unfold validate_active_object in Hx.
  apply exec_try in Hx as [(e & _ & ?)|(t1 & t2 & [file st] & _ & _ & Hx)]; [done|].
  destruct (negb _); [by apply exec_ret in Hx as [_ ?]|]. unfold validate_active_on_fd in Hx.
  apply exec_try in Hx as [(e & _ & ?)|(t3 & t4 & job & _ & _ & Hx)]; [done|].
  cbv zeta in Hx. destruct (negb _); [by apply exec_ret in Hx as [_ ?]|].
  apply exec_ret in Hx as [_ E].
  assert (E1 : check_active_name q name ctx = check_active_name q0 name ctx) by (unfold check_active_name; by rewrite Hq).
  assert (E2 : forall h i, check_active_header q h i = check_active_header q0 h i).
  { intros. unfold check_active_header, queue_id, shard_count. by rewrite Hq. }
  rewrite E1 in E. destruct (check_active_name q0 name ctx) as [identity|] eqn:En; [|done]. cbn -[check_active_header] in E.
  rewrite E2 in E. by exists identity, (vj_header job), h.
Qed.
Lemma silent_validate_object q fd name ctx : silent places (validate_active_object q fd name ctx).
Proof. unfold validate_active_object, validate_active_on_fd, open_regular_read. silence. Qed.
Lemma does_validated P `{!OfOps P} fd name path ctx op restore k :
  sound_update restore ->
  (accepted name ctx -> does P k (fun _ _ => True)) ->
  does P (validated fd name path ctx op budget restore k) (fun _ _ => True).
Proof.
  intros Hr Hk. unfold validated. eapply (does_then _ _ (fun q => config q = config q0)).
  { eapply yields_post; [apply yields_queue|]. naive_solver. }
  intros q Hq. eapply (does_then _ _ (fun r => forall h, r = Ok h -> accepted name ctx)).
  { apply yields_call; [apply silent_validate_object|]. intros tr a Hx h ->. by eapply validate_accepts. }
  intros [h|e] Ha; [by eapply Hk, Ha|]. apply steady_does, steady_then; [steady_still|]. intros _.
  destruct (is_queue_corrupt e); [by apply quarantine_entry_steady|steady_still].
Qed.

Lemma accepted_delayed name bucket shard n :
  accepted name (CtxDelayed bucket shard) -> parse_delayed name = Ok n ->
  shard = shard_hex (shard_for (layout q0) (cf_job_id (dn_common n))) /\
  exists b, bucket = bucket_hex b /\ is_u64 b /\ (dn_not_before_ns n <= b * ly_delayed_bucket_width_ns (layout q0))%Z.
Proof.
  intros (i & h & h' & En & Eh) Hn. cbn [check_active_name] in En. rewrite Hn in En. cbn [map_err Prelude.rbind] in En.
  destruct (negb _); [done|]. destruct (check_bucket _ _ _ _) as [u|] eqn:Eb; [|done]. injection En as <-.
  apply check_header_ok in Eh as (_ & _ & _ & [-> _]%shard_from_hex_Some).
  apply check_bucket_ok in Eb as (b & Hb & ->). split; [done|]. exists b. split; [done|].
  apply parse_delayed_iff in Hn as [(_ & Hu & _) _]. pose proof Hlayout as (_ & _ & Hw & _).
  apply ceiling_bucket_Some in Hb; [|done..]. unfold is_u64 in *. cbn in *. split; [nia|lia].
Qed.
Lemma accepted_leased name boot bucket shard n :
  accepted name (CtxLeased boot bucket shard) -> parse_leased name = Ok n ->
  shard = shard_hex (shard_for (layout q0) (cf_job_id (ln_common n))) /\
  exists b, bucket = bucket_hex b /\
    lease_bucket (ln_boottime_deadline_ns n) (ly_lease_bucket_width_ns (layout q0)) = Some b /\
    LeasedName_authenticate_tag n (queue_id q0) boot bucket shard = true.
Proof.
  intros (i & h & h' & En & Eh) Hn. cbn [check_active_name] in En. rewrite Hn in En. cbn [map_err Prelude.rbind] in En.
  destruct (negb _) eqn:Et; [done|]. apply negb_false_iff in Et.
  destruct (check_bucket _ _ _ _) as [u|] eqn:Eb; [|done]. injection En as <-.
  apply check_header_ok in Eh as (_ & _ & _ & [-> _]%shard_from_hex_Some).
  apply check_bucket_ok in Eb as (b & Hb & ->). split; [done|]. by exists b.
Qed.

(** *** Reaping to dead *)

Lemma reap_to_dead_places {sel : Syscall -> bool} `{!Placing sel} fd name common reason floor cx :
  runs sel (reap_to_dead fd name common reason floor) cx (fun n r cx' =>
    evolves cx cx' /\ (n <= 1)%nat /\
    (n <> 0%nat -> exists dd c b, next_common_fields OpReapExpiredToDead common = Ok c /\
       bucket_number (unix_ns floor) (ly_terminal_bucket_width_ns (layout (handle cx))) = Some b /\
       sel (SysRenameat2 fd name dd (filename (Layout_dead_in_bucket (layout (handle cx)) c (DeadReason_as_u16 reason) b))
              RENAME_NOREPLACE) = true)).
Proof.
  unfold reap_to_dead. apply runs_bind, runs_gets. cbn [id].
  apply runs_or, runs_ret. destruct (bucket_number _ _) as [b|] eqn:Eb; cbn [ok_or]; [|by split_and!; [|lia|]].
  apply runs_or, runs_ret. destruct (next_common_fields _ _) as [c|] eqn:Ec; cbn [map_err]; [|by split_and!; [|lia|]].
  apply runs_or. eapply runs_keeps; [apply calm_ensure_dir|]. intros [u|e] cx1 H1; [|by split_and!; [|lia|]].
  apply runs_or, runs_call_silent; [auto with silent|]. intros [dd|e]; [|by split_and!; [|lia|]].
  apply runs_call. unfold move_verified_noreplace. eapply counts_mono; [apply move_places; silence|]. intros n r ->.
  split; [done|]. destruct (sel _) eqn:Es; [|split; [lia|done]].
  split; [destruct r as [|[]]; cbn; lia|]. intros _. by exists dd, c, b.
Qed.
Lemma reap_to_dead_once fd name n boot b floor :
  parse_leased name = Ok n -> wall_floor = Some floor ->
  lease_bucket (ln_boottime_deadline_ns n) (ly_lease_bucket_width_ns (layout q0)) = Some b ->
  LeasedName_authenticate_tag n (queue_id q0) boot (bucket_hex b)
    (shard_hex (shard_for (layout q0) (cf_job_id (ln_common n)))) = true ->
  (boot = boot_id (config q0) -> (ln_boottime_deadline_ns n <= boottime_now)%Z) ->
  (cf_maximum_attempts (ln_common n) <= cf_attempt (ln_common n))%Z ->
  places_once (rmethod (reap_to_dead fd name (ln_common n) DeadAttemptsExhausted floor)).
Proof.
  intros Hn Hf Hb Ht Hd Ha. apply places_once_method. intros cx tr a cx' Hq Hx.
  destruct (reap_to_dead_places (sel := places) fd name (ln_common n) DeadAttemptsExhausted floor cx tr _ Hx) as (He & H1 & _).
  split; [done|]. split; [done|].
  assert (Hl : layout (handle cx) = layout q0) by (unfold layout; by rewrite Hq).
  set (dn := match next_common_fields OpReapExpiredToDead (ln_common n),
                   bucket_number (unix_ns floor) (ly_terminal_bucket_width_ns (layout q0)) with
             | Ok c', Some tb => Some (filename (Layout_dead_in_bucket (layout q0) c' (DeadReason_as_u16 DeadAttemptsExhausted) tb))
             | _, _ => None end).
  eapply Forall_impl with (P := fun ev => placed ev = true -> match dn with Some dn => is_rename name dn ev.1 | None => false end = true).
  - apply (placed_only (fun c => match dn with Some dn => is_rename name dn c | None => false end)).
    destruct (reap_to_dead_places (sel := fun c => places c && negb (match dn with Some dn => is_rename name dn c | None => false end))
      fd name (ln_common n) DeadAttemptsExhausted floor cx tr _ Hx) as (_ & _ & Hz). cbn [fst] in Hz.
    apply dec_stable. intros Hne. destruct (Hz Hne) as (dd & c & tb & Ec & Eb & Es).
    rewrite Hl in Eb, Es. subst dn. rewrite Ec, Eb in Es. cbn in Es. by rewrite !bool_decide_true in Es.
  - intros ev Hev Hp. specialize (Hev Hp). subst dn.
    destruct (next_common_fields _ _) as [c'|] eqn:Ec; [|done]. destruct (bucket_number _ _) as [tb|] eqn:Eb; [|done].
    eapply rename_justified; [|exact Hev]. right. left. exists n, boot, b. split_and!; try done. right.
    split; [done|]. by exists c', floor, tb.
Qed.

(** *** Expired leases *)

(** A lease that may be reaped: found where its tag says, and expired there. *)
Definition expired_at (name boot : bytes) (n : LeasedName) : Prop :=
  parse_leased name = Ok n /\ (boot = boot_id (config q0) -> (ln_boottime_deadline_ns n <= boottime_now)%Z) /\
  exists b, lease_bucket (ln_boottime_deadline_ns n) (ly_lease_bucket_width_ns (layout q0)) = Some b /\
    LeasedName_authenticate_tag n (queue_id q0) boot (bucket_hex b)
      (shard_hex (shard_for (layout q0) (cf_job_id (ln_common n)))) = true.
Lemma reaped_to_ready name boot n q c :
  expired_at name boot n -> (cf_attempt (ln_common n) < cf_maximum_attempts (ln_common n))%Z ->
  config q = config q0 -> next_common_fields OpReapExpiredToReady (ln_common n) = Ok c ->
  reaps name (filename (Layout_ready (layout q) c)).
Proof.
  intros (Hn & Hd & b & Hb & Ht) Ha Hq Hc. exists n, boot, b. split_and!; try done. left. split; [done|].
  exists c. split; [done|]. unfold layout. by rewrite Hq.
Qed.
Lemma moves_next {A} op common (k : CommonFields -> io (result A MoveFailure)) :
  (forall c, next_common_fields op common = Ok c -> moves (k c)) ->
  moves (let!? c := lift (map_err identity_overflow (next_common_fields op common)) in k c).
Proof.
  intros Hk. apply moves_try; [apply silent_lift|]. intros tr c [_ E]%exec_ret. apply Hk.
  by destruct (next_common_fields op common); [injection E as ->|].
Qed.
Lemma moves_open {A E F} (g : E -> F) (p : io (result Z E)) (k : Z -> io (result A F)) :
  silent places p -> (forall fd, moves (k fd)) -> moves (let!? fd := io_map_err g p in k fd).
Proof. intros Hp Hk. apply moves_try; [by apply silent_map_err|]. intros tr fd _. apply Hk. Qed.

Lemma reap_lease_does path fd name boot n to_ready :
  expired_at name boot n ->
  (forall q, config q = config q0 -> (cf_attempt (ln_common n) < cf_maximum_attempts (ln_common n))%Z -> moves (to_ready q)) ->
  does room (reap_lease path wall_floor fd name n to_ready) (fun _ _ => True).
Proof.
  intros He Hto. unfold reap_lease. destruct (_ <=? _)%Z eqn:Ea; breflect.
  - destruct wall_floor as [floor|] eqn:Ef; [|apply steady_does; steady_still].
    destruct He as (Hn & Hd & b & Hb & Ht).
    apply does_attempt; [by eapply reap_to_dead_once|]. intros [u|f]; steady_still.
  - eapply (does_then _ _ (fun q => config q = config q0)).
    { eapply yields_post; [apply yields_queue|]. naive_solver. }
    intros q Hq. apply attempt_move_does; [done|]. apply Hto; [done|lia].
Qed.

(** ** The walk *)

Lemma scan_children_steady (P : bytes -> Prop) step names absent :
  Forall P names -> (forall name, P name -> steady (step name)) -> steady (scan_children step names absent).
Proof.
  intros Hf Hs. revert absent. induction Hf as [|name names Hn Hf IH]; intros absent; cbn [scan_children]; [steady_still|].
  apply steady_then; [by apply Hs|]. intros []; [apply IH|apply IH|steady_still].
Qed.
Lemma scan_level_steady fuel fd level deadline step finish :
  level_wf level -> (forall fd name, proper name -> steady (step fd name)) -> (forall a o, steady (finish a o)) ->
  steady (scan_level fuel fd level scan deadline step finish).
Proof.
  intros Hl Hs Hf. unfold scan_level. eapply (does_then (fun _ => True)); [by apply descend_proper|].
  intros [dir l| |] Hd; [|steady_still..].
  apply steady_then; [eapply scan_children_steady; [exact Hd|auto]|]. intros []; [apply Hf|steady_still].
Qed.
Lemma unless_before_steady phase parents name step : steady step -> steady (unless_before phase parents name step).
Proof. intros Hs. apply steady_then; [steady_still|]. intros c. case_match; [steady_still|done]. Qed.
Lemma unless_before4_steady parents name step : steady step -> steady (unless_before4 parents name step).
Proof. intros Hs. apply steady_then; [steady_still|]. intros c. case_match; [steady_still|done]. Qed.

Lemma at_entry_steady phase op first second entry deadline step :
  proper first -> proper second -> proper entry ->
  (forall restore, sound_update restore ->
     does room (step entry restore) (fun _ _ => True)) ->
  steady (at_entry phase op first second entry budget deadline step).
Proof.
  intros H1 H2 H3 Hs. unfold at_entry. eapply (does_then (fun _ => True)).
  { apply (yields_queue (fun q => cursor3 phase (recovery_cursor q))). }
  intros previous (q & -> & _ & Hc). apply (valid_previous3 phase) in Hc. cbn beta. case_match; [steady_still|].
  apply within_budget_steady. eapply (does_then _ _ (fun _ => True)).
  { apply still_update, sound_set3. cbn. unfold three_level_is_valid. cbn. by rewrite H1, H2, H3. }
  intros _ _. unfold as_ascii_str. destruct (is_ascii entry).
  - by apply Hs, sound_set3.
  - apply steady_does. steady_still.
Qed.

(** Streamed directories. *)
Lemma next_entry_proper fuel s tr name s' :
  exec (next_entry fuel s) tr (Some (Ok (Some name)), s') -> Forall named tr -> proper name.
Proof.
  revert s tr. induction fuel as [|fuel IH]; intros s tr Hx Hn; cbn [next_entry] in Hx.
  { by apply exec_ret in Hx as [_ ?]. }
  apply exec_bind in Hx as (t1 & t2 & [r s1] & -> & H1 & H2). apply Forall_app in Hn as [N1 N2].
  destruct t1 as [|[c a] t1]; [done|]. destruct H1 as [-> [-> H1]%exec_ret]. apply Forall_cons in N1 as [Hname _].
  destruct a as [e|rc|st|data|ts tns|n off|pr pe]; injection H1 as -> ->; try (by apply exec_ret in H2 as [_ ?]).
  destruct (is_dot n) eqn:Hd; [by eapply IH|]. apply exec_ret in H2 as [_ [= -> ->]]. by apply Hname.
Qed.
Lemma stream_entries_steady fuel stream deadline visit :
  (forall name, proper name -> steady (visit name)) -> steady (stream_entries fuel stream deadline scan visit).
Proof.
  intros Hv. revert stream.
  induction fuel as [|fuel IH]; intros stream rx tr r rx' Hi _ Hx Hn; cbn [stream_entries] in Hx;
    (split; [|by destruct r]);
    apply exec_bind in Hx as (t1 & t2 & x & -> & [-> ->]%exec_ret & Hx); cbn [fst snd app] in *;
    (destruct (_ || _) eqn:Eb;
      [apply exec_ret in Hx as [-> [= -> ->]]; by apply progress_refl|apply orb_false_iff in Eb as [Ee Eb]; breflect]);
    apply exec_bind in Hx as (t3 & t4 & [b rx1] & -> & H1 & Hx); apply Forall_app in Hn as [N1 Hn];
    apply exec_bind in H1 as (t5 & t6 & b' & -> & H1 & [-> [= -> ->]]%exec_ret); rewrite app_nil_r in *;
    (assert (P1 : progress rx t5 rx) by (apply unplaced_progress; [done|by apply (silent_clock deadline _ _ H1)]));
    cbn [fst snd] in Hx; destruct b' as [[]|e]; try (apply exec_ret in Hx as [-> [= -> ->]]; by rewrite app_nil_r);
    (eapply progress_trans; [exact P1|]); clear P1 H1 N1 t5.
  apply exec_bind in Hx as (t5 & t6 & [e rx1] & -> & H1 & Hx). apply Forall_app in Hn as [N1 Hn].
  apply exec_bind in H1 as (t7 & t8 & e' & -> & H1 & [-> [= -> ->]]%exec_ret). rewrite app_nil_r in *.
  apply exec_bind in H1 as (t9 & t10 & [o s'] & -> & H1 & [-> ->]%exec_ret). rewrite app_nil_r in *.
  assert (P1 : progress rx t9 rx).
  { apply unplaced_progress; [done|]. by apply (silent_next_entry (sel := places) (S fuel) stream _ _ H1). }
  eapply progress_trans; [exact P1|]. clear P1. cbn [fst snd] in Hx.
  destruct o as [[[name|]|e]|]; cbn [option_map] in Hx; try (apply exec_ret in Hx as [-> [= -> ->]]; by apply progress_refl).
  pose proof (next_entry_proper _ _ _ _ _ H1 N1) as Hp. apply proper_length in Hp as Hl.
  apply exec_bind in Hx as (t1 & t2 & x & -> & [-> ->]%exec_ret & Hx). cbn [fst snd app] in *.
  set (rx1 := mkRCtx _ _ _) in Hx.
  assert (Hi1 : inv rx1).
  { destruct Hi as [? ? (? & ? & ?) ?]. split; try done. subst rx1. unfold scan_within, charge_progress, usize_saturating_add. cbn. lia. }
  assert (P1 : progress rx [] rx1) by (split; [done|unfold ops, tally; cbn; lia|constructor|done]).
  apply (progress_trans _ [] _ _ _ P1). clear P1.
  assert (Hs : steady (let~ flow := visit name in
    match flow with FlowBreak => rret (Ok FlowBreak, ds_position stream) | FlowContinue => stream_entries fuel s' deadline scan visit end)).
  { apply steady_then; [by apply Hv|]. intros []; [apply IH|]. steady_still. }
  by destruct (Hs rx1 t2 r rx' Hi1 I Hx Hn).
Qed.
Lemma stream_directory_steady fuel fd position deadline visit :
  (forall name, proper name -> steady (visit name)) ->
  steady (stream_recovery_directory fuel fd position deadline scan visit).
Proof.
  intros Hv rx tr r rx' Hi _ (t1 & t2 & x & -> & [-> ->]%exec_ret & Hx)%exec_bind Hn. cbn [fst snd app] in *.
  destruct (_ <=? _)%Z eqn:E; breflect.
  { apply exec_ret in Hx as [-> [= -> ->]]. split; [by apply progress_refl|done]. }
  apply exec_bind in Hx as (t3 & t4 & x & -> & [-> ->]%exec_ret & Hx). cbn [fst snd app] in *.
  set (rx1 := mkRCtx _ _ _) in Hx.
  assert (Hi1 : inv rx1).
  { destruct Hi as [? ? (? & ? & ?) ?]. split; try done. subst rx1. unfold scan_within, charge_directory, usize_saturating_add. cbn. lia. }
  assert (P1 : progress rx [] rx1) by (split; [done|unfold ops, tally; cbn; lia|constructor|done]).
  assert (Hs : steady (let~ stream := rcall (DirectoryStream_open_at fd position) in
    match stream with
    | Err error => rret (Err (DirIo error), position)
    | Ok stream => stream_entries fuel stream deadline scan visit
    end)).
  { apply steady_then; [steady_still|]. intros []; [by apply stream_entries_steady|steady_still]. }
  destruct (Hs rx1 t4 r rx' Hi1 I Hx Hn) as [P2 ?]. split; [by apply (progress_trans _ [] _ _ _ P1)|done].
Qed.

(** Directory names, checked. *)
Lemma bucket_checked {A} op bucket (none : rop A) (some : bytes * Z -> rop A) :
  steady none -> (forall name num, bucket_from_hex bucket = Some num -> steady (some (name, num))) ->
  steady (let~ checked := bucket_directory_name op bucket in match checked with None => none | Some x => some x end).
Proof.
  intros Hn Hs. eapply (does_then (fun _ => True)); [apply bucket_name_own|]. intros [[name num]|] Hb; [|done].
  apply (Hs name num). by eapply Hb.
Qed.
Lemma shard_checked {A} op shard (none : rop A) (some : bytes * Z -> rop A) :
  steady none -> (forall name num, shard_from_hex shard = Some num -> steady (some (name, num))) ->
  steady (let~ count := rqueue shard_count in
          let~ checked := shard_directory_name op shard count in match checked with None => none | Some x => some x end).
Proof.
  intros Hn Hs. apply steady_then; [steady_still|]. intros count.
  eapply (does_then (fun _ => True)); [apply shard_name_own|]. intros [[name num]|] Hb; [|done].
  apply (Hs name num). by eapply Hb.
Qed.
Lemma boot_checked {A} op boot (none : rop A) (some : bytes -> rop A) :
  steady none -> (forall name, is_some (boot_id_bytes boot) = true -> steady (some name)) ->
  steady (let~ checked := boot_directory_name op boot in match checked with None => none | Some x => some x end).
Proof.
  intros Hn Hs. eapply (does_then (fun _ => True)); [apply boot_name_own|]. intros [name|] Hb; [|done]. apply Hs. by apply Hb.
Qed.
Lemma prune_unless_steady (keep : bool) fd name op path deadline counted :
  (forall s, operations_attempted (counted s) = operations_attempted s) ->
  steady (if keep then rret StepKept else prune_level fd name op path budget deadline counted).
Proof. intros Hc. destruct keep; [steady_still|by apply prune_level_steady]. Qed.
Lemma finish_steady phase r : steady (finish_phase phase r).
Proof. apply (yields_steady _ (fun _ => True)). destruct r; cbn; [apply still_clear|stilling]. Qed.

(** *** Promotion *)

Lemma promote_moves q fd shard name n floor b :
  config q = config q0 -> wall_floor = Some floor -> (b * ly_delayed_bucket_width_ns (layout q0) <= unix_ns floor)%Z ->
  parse_delayed name = Ok n -> accepted name (CtxDelayed (bucket_hex b) shard) -> is_u64 b ->
  moves (promote_to_ready q fd shard name (dn_common n)).
Proof.
  intros Hq Hf Hb Hn Ha Hu. destruct (accepted_delayed _ _ _ _ Ha Hn) as (-> & b' & Eb & Hu' & Hle).
  assert (b' = b) as ->.
  { assert (E : bucket_from_hex (bucket_hex b) = Some b) by by apply bucket_from_hex_Some.
    rewrite Eb, (proj2 (bucket_from_hex_Some _ b')) in E by done. by injection E. }
  apply moves_next. intros c Hc. cbv zeta. apply moves_open; [auto with silent|]. intros dd. apply moves_move. left.
  exists n, c, floor. split_and!; try done; [lia|]. unfold Layout_ready. cbn [filename].
  assert (cf_job_id c = cf_job_id (dn_common n)) as ->.
  { apply next_common_fields_ok in Hc; [|done]. naive_solver. }
  unfold queue_id. by rewrite Hq.
Qed.

(** Canonical components make a level that the retry ledger accepts. *)
Ltac level_ok :=
  intros kind; unfold retry_depth_is_valid; cbn -[boot_id_bytes bucket_from_hex shard_from_hex];
  repeat match goal with E : bucket_from_hex _ = _ |- _ => rewrite E; clear E | E : shard_from_hex _ = _ |- _ => rewrite E; clear E
                       | E : is_some _ = true |- _ => rewrite E; clear E end; reflexivity.

Lemma promote_entry_steady deadline floor bucket b shard fd entry :
  wall_floor = Some floor -> (b * ly_delayed_bucket_width_ns (layout q0) <= unix_ns floor)%Z ->
  bucket_from_hex bucket = Some b -> proper bucket -> proper shard -> proper entry ->
  steady (promote_entry budget deadline bucket shard fd entry).
Proof.
  intros Hf Hb Eb H1 H2 H3. apply bucket_from_hex_Some in Eb as [-> Hu]. apply at_entry_steady; [done..|].
  intros restore Hr. destruct (negb _); [apply steady_does; steady_still|]. cbv zeta.
  destruct (parse_delayed entry) as [n|e] eqn:En.
  - apply does_validated; [apply _|done|]. intros Ha. eapply (does_then _ _ (fun q => config q = config q0)).
    { eapply yields_post; [apply yields_queue|]. naive_solver. }
    intros q Hq. apply attempt_move_does; [done|]. by eapply promote_moves.
  - apply steady_does, steady_then; [steady_still|]. intros _. by apply quarantine_entry_steady.
Qed.
Lemma promote_bucket_steady fuel deadline floor current fd bucket :
  wall_floor = Some floor -> bucket_number (unix_ns floor) (ly_delayed_bucket_width_ns (layout q0)) = Some current ->
  proper bucket -> steady (promote_bucket fuel budget scan deadline current fd bucket).
Proof.
  intros Hf Hc Hp. apply unless_before_steady, within_budget_steady, steady_does, bucket_checked; [steady_still|].
  intros name num Eb. destruct (_ <? _)%Z eqn:El; breflect; [steady_still|]. cbv zeta.
  assert (Hle : (num * ly_delayed_bucket_width_ns (layout q0) <= unix_ns floor)%Z).
  { pose proof Hlayout as (_ & _ & Hw & _). unfold bucket_number in Hc. case_match eqn:Ez; breflect; [done|].
    injection Hc as <-. etrans; [apply Z.mul_le_mono_nonneg_r; [lia|exact El]|]. rewrite Z.mul_comm.
    by apply Z.mul_div_le. }
  apply scan_level_steady; [level_ok| |intros; by apply prune_unless_steady]. intros bfd shard Hs.
  apply unless_before_steady, shard_checked; [steady_still|]. intros sname snum Es. cbv zeta.
  apply scan_level_steady; [level_ok| |intros; by apply prune_unless_steady]. intros sfd entry He.
  by eapply promote_entry_steady.
Qed.
(** The start of a phase, up to the enumeration of its root. *)
Lemma phase_steady {A} fuel phase root open_op read_op deadline (stopped : A) (k : Z -> list bytes -> rop A) :
  (forall fd l, Forall proper l -> steady (k fd l)) ->
  steady (let~ r := open_phase root open_op in
    match r with
    | None => rret stopped
    | Some fd =>
        let~ stop := retry_phase fuel phase fd scan deadline in
        if stop : bool then rret stopped
        else
          let~ l := enumerate_root fuel fd root read_op scan deadline in
          match l with None => rret stopped | Some l => k fd l end
    end).
Proof.
  intros Hk. apply steady_then; [apply (yields_steady _ (fun _ => True)), still_open_phase|].
  intros [fd|]; [|steady_still]. apply steady_then; [apply (yields_steady _ (fun _ => True)), still_retry_phase|].
  intros []; [steady_still|]. eapply (does_then (fun _ => True)); [apply root_proper|].
  intros [l|] Hl; [by apply Hk, Hl|steady_still].
Qed.
Lemma promote_steady fuel floor deadline :
  wall_floor = Some floor -> steady (promote_delayed fuel floor budget scan deadline).
Proof.
  intros Hf. apply phase_steady. intros fd l Hl.
  eapply (does_then (fun _ => True)); [apply (yields_queue (fun q => fr_delayed_bucket_width_ns (format (config q))))|].
  intros w (q & -> & Hq & _). rewrite Hq.
  change (fr_delayed_bucket_width_ns (format (config q0))) with (ly_delayed_bucket_width_ns (layout q0)).
  destruct (bucket_number _ _) as [current|] eqn:Ec; [|steady_still].
  apply steady_then; [|apply finish_steady]. eapply scan_children_steady; [exact Hl|]. intros name Hn.
  by eapply promote_bucket_steady.
Qed.

(** *** Temporary files *)

Lemma cleanup_boot_steady fuel deadline fd boot :
  proper boot -> steady (cleanup_boot fuel budget scan deadline boottime_now fd boot).
Proof.
  intros Hp. apply unless_before_steady, within_budget_steady, steady_does, boot_checked; [steady_still|].
  intros _ Eb. apply steady_then; [steady_still|]. intros current. cbv zeta.
  apply scan_level_steady; [level_ok| |intros; by apply prune_unless_steady]. intros bfd shard Hs.
  apply unless_before_steady, shard_checked; [steady_still|]. intros sname snum Es. cbv zeta.
  apply scan_level_steady; [level_ok| |intros; by apply prune_unless_steady]. intros sfd entry He.
  apply at_entry_steady; [done..|]. intros restore Hr. destruct (negb _); [apply steady_does; steady_still|].
  eapply (does_then _ _ (fun _ => True)); [stilling|]. intros ttl _.
  destruct (temp_is_stale _ _ _ _); [by apply attempt_unlink_does|apply steady_does; steady_still].
Qed.
Lemma cleanup_steady fuel deadline : steady (cleanup_temp_files fuel boottime_now budget scan deadline).
Proof.
  apply phase_steady. intros fd l Hl. apply steady_then; [|apply finish_steady].
  eapply scan_children_steady; [exact Hl|]. intros name Hn. by apply cleanup_boot_steady.
Qed.

(** *** Receipts *)

Lemma silent_open_locked fd name : silent places (open_locked_receipt fd name).
Proof.
  unfold open_locked_receipt, try_ofd_write_lock. silence. apply silent_ofd_lock.
Qed.
#[local] Hint Resolve silent_open_locked : silent.
Lemma does_at_receipt P `{!OfOps P} prefix bucket shard fd entry restore k :
  sound_update restore ->
  (forall r, does P (k r) (fun _ _ => True)) ->
  does P (at_receipt prefix budget bucket shard fd entry restore k) (fun _ _ => True).
Proof.
  intros Hr Hk. unfold at_receipt. cbv zeta. destruct (parse_receipt entry) as [n|e].
  - eapply (does_then _ _ (fun _ => True)); [stilling|]. intros [[rfd|]|e] _; [|apply steady_does; steady_still..].
    eapply (does_then _ _ (fun _ => True)); [stilling|]. intros f _.
    eapply (does_then _ _ (fun _ => True)); [stilling|]. intros [receipt|e] _; [apply Hk|].
    apply steady_does, steady_then; [steady_still|]. intros _.
    destruct (receipt_quarantine_reason e); [by apply quarantine_entry_steady|steady_still].
  - apply steady_does, steady_then; [steady_still|]. intros _. by apply quarantine_entry_steady.
Qed.

(** A counted operation whose calls place nothing. *)
Lemma does_counted {A} (k : rop A) : still k -> does room (let~ _ := rstats attempt_operation in k) (fun _ _ => True).
Proof.
  intros Hk. eapply (does_attempt (rret tt) (fun _ => k)).
  - intros rx tr r rx' Hi [-> [= -> ->]]%exec_ret. split_and!; try done; try (unfold tally; cbn; lia).
  - intros _. by eapply yields_steady.
Qed.
Lemma still_replace_receipt fd entry tmp rp tp data dev ino : still (replace_receipt fd entry tmp rp tp data dev ino).
Proof.
  assert (Hc : forall d n p, still (cleanup_compaction_temp d n p)).
  { intros. unfold cleanup_compaction_temp. stilling. }
  unfold replace_receipt. stilling.
Qed.
#[local] Hint Resolve still_replace_receipt : still.
Lemma compact_receipt_does bucket shard fd entry receipt :
  does room (compact_receipt bucket shard fd entry receipt) (fun _ _ => True).
Proof.
  unfold compact_receipt. destruct (vr_kind receipt); [|apply steady_does; steady_still]. cbv zeta.
  eapply (does_then _ _ (fun _ => True)); [stilling|]. intros width _.
  destruct (u64_checked_mul _ _); [|apply steady_does; steady_still]. apply does_counted. stilling.
Qed.
Lemma compact_bucket_steady fuel deadline fd bucket :
  proper bucket -> steady (compact_bucket fuel budget scan deadline fd bucket).
Proof.
  intros Hp. apply unless_before_steady, within_budget_steady, steady_does, bucket_checked; [steady_still|].
  intros name num Eb. apply scan_level_steady; [level_ok| |intros; steady_still]. intros bfd shard Hs.
  apply unless_before_steady, shard_checked; [steady_still|]. intros sname snum Es.
  apply scan_level_steady; [level_ok| |intros; steady_still]. intros sfd entry He.
  apply at_entry_steady; [done..|]. intros restore Hr.
  destruct (compaction_temporary_name entry); [by apply attempt_unlink_does|].
  destruct (negb _); [apply steady_does; steady_still|].
  apply does_at_receipt; [apply _|done|]. intros r. apply compact_receipt_does.
Qed.
Lemma compact_steady fuel deadline : steady (compact_receipts_with_scan_budget fuel budget scan deadline).
Proof.
  apply phase_steady. intros fd l Hl. apply steady_then; [|apply finish_steady].
  eapply scan_children_steady; [exact Hl|]. intros name Hn. by apply compact_bucket_steady.
Qed.
Lemma delete_bucket_steady fuel deadline now retention fd bucket :
  proper bucket -> steady (delete_bucket fuel budget scan deadline now retention fd bucket).
Proof.
  intros Hp. apply unless_before_steady, within_budget_steady, steady_does, bucket_checked; [steady_still|].
  intros name num Eb. apply steady_then; [steady_still|]. intros width. destruct (negb _); [steady_still|]. cbv zeta.
  apply scan_level_steady; [level_ok| |intros; by apply prune_unless_steady]. intros bfd shard Hs.
  apply unless_before_steady, shard_checked; [steady_still|]. intros sname snum Es. cbv zeta.
  apply scan_level_steady; [level_ok| |intros; by apply prune_unless_steady]. intros sfd entry He.
  apply at_entry_steady; [done..|]. intros restore Hr. destruct (negb _); [apply steady_does; steady_still|].
  apply does_at_receipt; [apply _|done|]. intros r. unfold delete_receipt. cbv zeta.
  eapply (does_then _ _ (fun _ => True)); [stilling|]. intros [st|e] _; [|apply steady_does; steady_still].
  destruct (negb _); [apply steady_does; steady_still|by apply attempt_unlink_does].
Qed.
Lemma delete_steady fuel floor retention deadline :
  steady (delete_expired_receipts fuel floor retention budget scan deadline).
Proof.
  apply phase_steady. intros fd l Hl. apply steady_then; [|apply finish_steady].
  eapply scan_children_steady; [exact Hl|]. intros name Hn. by apply delete_bucket_steady.
Qed.

(** *** Leases *)

Lemma reap_entry_steady deadline boot bucket num shard snum fd entry :
  proper boot -> proper bucket -> proper shard -> proper entry ->
  steady (reap_entry budget deadline boottime_now wall_floor (bool_decide (boot = boot_id (config q0))) boot bucket num
            shard snum fd entry).
Proof.
  intros H1 H2 H3 H4. unfold reap_entry. eapply (does_then (fun _ => True)).
  { apply (yields_queue (fun q => rk_reap_leases (recovery_cursor q))). }
  intros previous (q & -> & _ & Hc). apply valid_previous4 in Hc. cbn beta. case_match; [steady_still|].
  apply within_budget_steady. eapply (does_then _ _ (fun _ => True)).
  { apply still_update, sound_set4. cbn. by rewrite H1, H2, H3, H4. }
  intros _ _. unfold as_ascii_str. destruct (is_ascii entry); [|apply steady_does; steady_still].
  destruct (negb _); [apply steady_does; steady_still|]. cbv zeta.
  assert (Hr : sound_update (set_reap_leases (rk_reap_leases (recovery_cursor q)))) by by apply sound_set4.
  destruct (parse_leased entry) as [n|e] eqn:En.
  2:{ apply steady_does, steady_then; [steady_still|]. intros _. by apply quarantine_entry_steady. }
  destruct (_ && _) eqn:Ed; [apply steady_does; steady_still|].
  apply does_validated; [apply _|done|]. intros Ha. destruct (accepted_leased _ _ _ _ _ Ha En) as (-> & b & -> & Hb & Ht).
  assert (He : expired_at entry boot n).
  { split_and!; [done| |by exists b]. intros ->. rewrite bool_decide_true in Ed by done. cbn in Ed. breflect. lia. }
  unfold reap_validated. eapply (does_then _ _ (fun q => config q = config q0)).
  { eapply yields_post; [apply yields_queue|]. naive_solver. }
  intros q1 Hq. rewrite Hq. change (fr_lease_bucket_width_ns (format (config q0))) with (ly_lease_bucket_width_ns (layout q0)).
  rewrite Hb.
  destruct (negb _); [apply steady_does; steady_still|]. eapply reap_lease_does; [exact He|].
  intros q2 Hq2 Hlt. apply moves_next. intros c Hnc. apply moves_open; [auto with silent|]. intros dd. apply moves_move.
  right. left. by eapply reaped_to_ready.
Qed.
Lemma reap_boot_steady fuel deadline fd boot :
  proper boot -> steady (reap_boot fuel budget scan deadline boottime_now wall_floor fd boot).
Proof.
  intros Hp. apply unless_before4_steady, within_budget_steady, steady_does, boot_checked; [steady_still|].
  intros _ Eb. eapply (does_then (fun _ => True)); [apply (yields_queue (fun q => bool_decide (boot = boot_id (config q))))|].
  intros current (q & -> & Hq & _). rewrite Hq. cbv zeta.
  apply scan_level_steady; [level_ok| |intros; by apply prune_unless_steady]. intros bfd bucket Hb.
  apply unless_before4_steady, within_budget_steady, steady_does, bucket_checked; [steady_still|]. intros bname num Ebk. cbv zeta.
  apply steady_then; [steady_still|]. intros width.
  match goal with |- steady (if _ then match _ with Some current => if _ then _ else ?e | None => _ end else _) =>
    assert (Hin : steady e) end.
  { apply scan_level_steady; [level_ok| |intros; by apply prune_unless_steady]. intros sfd shard Hs.
    apply unless_before4_steady, shard_checked; [steady_still|]. intros sname snum Es. cbv zeta.
    apply scan_level_steady; [level_ok| |intros; by apply prune_unless_steady]. intros efd entry He.
    by apply reap_entry_steady. }
  case_bool_decide; [|exact Hin]. destruct (bucket_number _ _); [|steady_still]. destruct (_ <? _)%Z; [steady_still|exact Hin].
Qed.

Lemma colocated_lease_steady deadline fd shard entry path n :
  parse_leased entry = Ok n ->
  steady (reap_colocated_lease (mkColocatedLease fd shard entry path n) boottime_now wall_floor budget deadline).
Proof.
  intros Hn. unfold reap_colocated_lease. cbv zeta. cbn [cl_parsed cl_relative_path cl_shard_fd cl_entry cl_shard_name].
  eapply (does_then (fun _ => True)); [apply (yields_queue id)|]. intros ? (q & -> & Hq & _). unfold id. rewrite Hq.
  change (fr_lease_bucket_width_ns (format (config q0))) with (ly_lease_bucket_width_ns (layout q0)).
  destruct (lease_bucket _ _) as [b|] eqn:Eb; [|steady_still].
  destruct (negb _); [steady_still|]. destruct (_ && _) eqn:Ed; [steady_still|].
  apply steady_then; [|intros r; steady_still].
  apply does_validated; [apply _|by split|]. intros Ha. destruct (accepted_leased _ _ _ _ _ Ha Hn) as (-> & b' & Ebk & Hb & Ht).
  apply within_budget_steady.
  assert (He : expired_at entry (format_boot_id (ln_boot_id n)) n).
  { split_and!; [done| |]. { intros E. rewrite bool_decide_true in Ed by done. cbn in Ed. breflect. lia. }
    exists b'. by rewrite <- Ebk. }
  eapply reap_lease_does; [exact He|]. intros q2 Hq2 Hlt. apply moves_next. intros c Hnc. apply moves_move.
  right. left. by eapply reaped_to_ready.
Qed.
Lemma colocated_shards_steady fuel deadline shards :
  steady (reap_colocated_shards fuel boottime_now wall_floor budget scan deadline shards).
Proof.
  assert (Hset : forall x, still (rcursor (set_reap_colocated_shard x))).
  { intros x. by apply still_cursor; [intros c; apply valid_set_colocated_shard|]. }
  assert (Hpos : forall x, still (rcursor (set_reap_colocated_position x))).
  { intros x. by apply still_cursor; [intros c; apply valid_set_colocated_position|]. }
  induction shards as [|shard shards IH]; cbn [reap_colocated_shards]; [by eapply yields_steady|]. cbv zeta.
  apply steady_then; [by eapply yields_steady|]. intros _.
  eapply does_bind; [by apply (budget_leaves_room (fun _ => True))|]. intros []; apply steady_does; [steady_still|].
  apply steady_then; [steady_still|]. intros q. apply steady_then; [by eapply yields_steady|]. intros _.
  apply steady_then; [steady_still|]. intros [fd|e].
  - apply steady_then.
    + apply stream_directory_steady. intros name Hn. unfold as_ascii_str. destruct (is_ascii name); [|steady_still].
      destruct (parse_leased name) as [n|e] eqn:En; [|steady_still]. by apply colocated_lease_steady.
    + intros [result position]. apply steady_then; [steady_still|]. intros []; [by eapply yields_steady|done].
  - apply steady_then; [steady_still|]. intros _. apply steady_then; [steady_still|]. done.
Qed.
Lemma colocated_steady fuel deadline :
  steady (reap_colocated_ready_leases fuel boottime_now wall_floor budget scan deadline).
Proof.
  unfold reap_colocated_ready_leases. do 2 (apply steady_then; [steady_still|]; intros ?). apply colocated_shards_steady.
Qed.
Lemma reap_steady fuel deadline : steady (reap_expired_leases fuel boottime_now wall_floor budget scan deadline).
Proof.
  unfold reap_expired_leases. cbv zeta. apply steady_then; [apply (yields_steady _ (fun _ => True)), still_open_phase|].
  intros [fd|]; [|steady_still]. apply steady_then; [apply (yields_steady _ (fun _ => True)), still_retry_phase|].
  intros []; [steady_still|]. apply steady_then; [steady_still|]. intros [saved|]; [apply colocated_steady|].
  eapply (does_then (fun _ => True)); [apply root_proper|]. intros [l|] Hl; [|steady_still].
  apply steady_then; [eapply scan_children_steady; [by apply Hl|]; intros; by apply reap_boot_steady|].
  intros [k|]; [|steady_still]. apply steady_then; [|intros _; apply colocated_steady].
  eapply yields_steady, still_update. by apply sound_set4.
Qed.

(** ** The loop over the phases *)

Definition next_phase (phase : RecoveryPhase) : RecoveryPhase :=
  match phase with
  | ReapLeases => PromoteDelayed
  | PromoteDelayed => CleanupTemp
  | CleanupTemp => CompactReceipts
  | CompactReceipts => DeleteReceipts
  | DeleteReceipts => ReapLeases
  end.
Lemma does_last {A B} (m : rop A) (b : B) : steady m -> does (fun _ => True) (let~ _ := m in rret b) (fun x _ => x = b).
Proof. intros Hm. eapply does_bind; [exact Hm|]. intros a. by apply does_ret. Qed.
Lemma run_phase_does fuel phase deadline :
  does (fun _ => True) (run_phase fuel phase boottime_now wall_floor budget scan deadline) (fun p _ => p = next_phase phase).
Proof.
  destruct phase; cbn [run_phase next_phase].
  - apply does_last, reap_steady.
  - apply does_last. destruct wall_floor eqn:E; [by apply promote_steady|steady_still].
  - apply does_last, cleanup_steady.
  - apply does_last, compact_steady.
  - eapply (does_then (fun _ => True)); [apply still_queue|]. intros retention _. apply does_last.
    destruct wall_floor; [apply delete_steady|steady_still].
Qed.

(** Progress that may also change the phase. *)
Record worked (rx : RCtx) (tr : list event) (rx' : RCtx) : Prop := mkWorked {
  wk_inv : inv rx';
  wk_work : (ops rx + Z.of_nat (tally places tr) <= ops rx')%Z;
  wk_justified : Forall (fun ev => placed ev = true -> justified ev.1) tr
}.
Lemma progress_worked rx tr rx' : progress rx tr rx' -> worked rx tr rx'.
Proof. by intros []. Qed.
Lemma worked_trans rx1 t1 rx2 t2 rx3 : worked rx1 t1 rx2 -> worked rx2 t2 rx3 -> worked rx1 (t1 ++ t2) rx3.
Proof. intros [] []. split; [done|rewrite tally_app; lia|by apply Forall_app]. Qed.
Definition works {A : Type} (m : rop A) : Prop :=
  forall rx tr r rx', inv rx -> exec (m rx) tr (r, rx') -> Forall named tr -> worked rx tr rx'.
Lemma steady_works {A} (m : rop A) : steady m -> works m.
Proof. intros Hm rx tr r rx' Hi Hx Hn. by apply progress_worked, (Hm rx tr r rx' Hi I Hx Hn). Qed.
Lemma works_cursor f :
  (forall c, cursor_is_valid c = true -> cursor_is_valid (f c) = true) -> works (rcursor f).
Proof.
  intros Hf rx tr r rx' [] (t1 & t2 & x & -> & H1 & [-> [= -> ->]]%exec_ret)%exec_bind _. apply exec_ret in H1 as [-> ->].
  split; [split; try done; cbn; auto|unfold ops, tally; cbn; lia|constructor].
Qed.
Lemma works_bind {A B} (m : rop A) (f : A -> rop B) : works m -> (forall a, works (f a)) -> works (rbind m f).
Proof.
  intros Hm Hf rx tr r rx' Hi (t1 & t2 & [a rx1] & -> & H1 & H2)%exec_bind [N1 N2]%Forall_app.
  pose proof (Hm _ _ _ _ Hi H1 N1) as W1. destruct a as [a|].
  - eapply worked_trans; [exact W1|]. apply (Hf a rx1 t2 r rx'); [apply W1|done..].
  - apply exec_ret in H2 as [-> [= -> ->]]. by rewrite app_nil_r.
Qed.
Lemma works_then {A B} (m : rop A) (G : A -> Prop) (f : A -> rop B) :
  yields m G -> (forall a, G a -> works (f a)) -> works (rbind m f).
Proof.
  intros Hm Hf rx tr r rx' Hi (t1 & t2 & [a rx1] & -> & H1 & H2)%exec_bind [N1 N2]%Forall_app.
  destruct (Hm _ _ _ _ _ Hi eq_refl H1 N1) as [P1 HG]. destruct a as [a|].
  - eapply worked_trans; [by apply progress_worked|]. apply (Hf a (proj2 HG) rx1 t2 r rx'); [apply P1|done..].
  - apply exec_ret in H2 as [-> [= -> ->]]. rewrite app_nil_r. by apply progress_worked.
Qed.
Ltac works_still := apply steady_works; steady_still.

Lemma run_phases_works turns fuel deadline : works (run_phases turns fuel boottime_now wall_floor budget scan deadline).
Proof.
  induction turns as [|turns IH]; cbn [run_phases].
  { apply steady_works. eapply yields_steady, (out_of_fuel (fun _ => True)). }
  apply works_bind; [works_still|]. intros stats. destruct (negb _); [works_still|].
  apply works_bind; [works_still|]. intros phase.
  apply works_bind; [apply steady_works; eapply does_post; [apply run_phase_does|done]|]. intros next.
  apply works_bind; [works_still|]. intros stats'.
  apply works_bind.
  { destruct (has_recovery_budget stats'); [apply works_cursor; intros c; apply valid_set_phase|works_still]. }
  intros _. apply works_bind.
  { apply steady_works. eapply does_post; [by apply (budget_leaves_room (fun _ => True))|done]. }
  intros exhausted. apply works_bind; [destruct exhausted; works_still|]. intros _.
  destruct (phase_eqb _ _); [works_still|done].
Qed.

(** ** Around the phases *)

Context {J : CursorJson}.

Lemma silent_cursor_temporaries fuel s names : silent places (cursor_temporaries fuel s names).
Proof.
  revert s names. induction fuel as [|fuel IH]; intros s names; cbn [cursor_temporaries]; [silence|].
  apply silent_bind; [auto with silent|]. intros [[[[e|]|e]|] s']; silence; apply IH.
Qed.
Lemma still_sweep fuel : still (sweep_cursor_temporary_files fuel).
Proof.
  unfold sweep_cursor_temporary_files. apply still_bind; [stilling|]. intros root. apply still_bind.
  { apply still_fuel. unfold find_cursor_temporaries, fueled. silence. apply silent_cursor_temporaries. }
  intros [[fd names]|e]; [|stilling]. induction names as [|name names IH]; cbn [remove_cursor_temporaries]; stilling.
Qed.
Lemma load_valid root id tr r :
  exec (load_recovery_cursor root id) tr r -> forall c, r = Ok c -> cursor_is_valid c = true.
Proof.
  unfold load_recovery_cursor. intros [(e & _ & ->)|(t1 & t2 & fd & -> & _ & H2)]%exec_try c E; [done|].
  apply exec_bind in H2 as (t3 & t4 & [cfd|e] & -> & _ & H2).
  2:{ apply exec_ret in H2 as [_ ->]. destruct (cursor_file_is_absent e); [injection E as <-|]; done. }
  apply exec_try in H2 as [(e & _ & ->)|(t5 & t6 & st & -> & _ & H2)]; [done|].
  do 3 (case_match; [apply exec_ret in H2 as [_ ->]; done|]).
  apply exec_try in H2 as [(e & _ & ->)|(t7 & t8 & data & -> & _ & H2)]; [done|].
  apply exec_ret in H2 as [_ ->]. destruct (cursor_from_slice data) as [record|]; [|done]. cbn in E.
  unfold accept_cursor_record in E. do 2 (case_match; [done|]). destruct (cursor_is_valid (cr_cursor record)) eqn:Ev; [|done].
  by injection E as <-.
Qed.
Lemma silent_load root id : silent places (load_recovery_cursor root id).
Proof. unfold load_recovery_cursor. silence. Qed.
Lemma silent_lock root : silent places (acquire_recovery_lock root).
Proof. unfold acquire_recovery_lock, try_ofd_write_lock. silence; apply silent_ofd_lock. Qed.
Lemma silent_persist q : silent places (persist_recovery_cursor q).
Proof. unfold persist_recovery_cursor, write_cursor, cursor_step, cleanup_cursor_temporary_file. silence. Qed.
Lemma still_floor : still (rmethod stabilized_wall_floor).
Proof.
  assert (Hc : calm stabilized_wall_floor) by (eapply keeps_weaken; [apply keeps_stabilized|apply touches_evolves]).
  intros n rx tr r rx' Hi HP (t1 & t2 & [a cx'] & -> & H1 & [-> [= -> ->]]%exec_ret)%exec_bind _. rewrite app_nil_r.
  destruct (Hc places _ (rx_cx rx) _ _ H1) as [Ht He]. cbn in Ht, He. split; [|done].
  split; [by apply evolved_inv|unfold ops; cbn; lia|by apply none_placed|].
  unfold phase_at, rx_queue. cbn. by destruct He as (_ & _ & _ & ->).
Qed.
Lemma still_note {A E} (r : result A E) (note : E -> rop unit) :
  (forall e, still (note e)) -> still (match r with Ok _ => rret tt | Err e => note e end).
Proof. intros Hn. destruct r; [stilling|apply Hn]. Qed.
Lemma recover_timed_works fuel : works (recover_timed fuel budget scan boottime_now wall_floor).
Proof.
  unfold recover_timed. apply works_bind; [works_still|]. intros [start|e]; [|works_still]. cbv zeta.
  apply works_bind; [apply run_phases_works|]. intros _. apply works_bind; [works_still|]. intros q.
  apply works_bind; [apply steady_works; eapply yields_steady, still_call, silent_persist|].
  intros [u|e]; works_still.
Qed.
Lemma still_error op path e : still (record_error op path e).
Proof. stilling. Qed.
End Maintenance.
