(* ===== verification/Pass.v ===== *)
(** * Guarantees of a recovery pass

    [recover_with_scan_budget] as a whole: the clocks a pass reads, the moves it
    may make with them, the bounds it stays within, the cursor it leaves
    behind, and that it ends.  The walk through the phases is in
    [Maintenance]. *)
From stdpp Require Import base numbers list option strings gmap.
From Stdlib Require Import Strings.Byte ZArith.
From S2P Require Import Prelude Math Names Format Cbor FsLinux FsRead FsDir StateMachine Ticket Layout Engine Logic Verified Queue Watermark Publish Quarantine Lease Inspect Recovery Phases Cursor Maintenance.
Open Scope string_scope.
Open Scope list_scope.

(** The report of a pass against its budgets and the objects it moved. *)
Definition budgets_kept (budget : WorkBudget) (scan : RecoveryScanBudget) (tr : list event) (report : RecoveryReport) : Prop :=
  (Z.of_nat (tally places tr) <= operations_attempted (rep_stats report) <= max_operations budget)%Z /\
  scan_within scan (rep_scan report).

Section Pass.
Context `{Sha256} {T : Texts} {J : CursorJson}.
Context (q0 : Queue) (budget : WorkBudget) (scan : RecoveryScanBudget).
Context (Hlayout : Layout_wf (layout q0)) (Hwork : (0 <= max_operations budget <= u32_max)%Z).

(** The wall floor a pass works with is the one the watermark protocol gave
    it; without one, the phases that need it do nothing. *)
Definition floor_read (tr : list event) (floor : option WallFloor) : Prop :=
  exists t1 t2 t3 cx r cx', tr = t1 ++ t2 ++ t3 /\ config (handle cx) = config q0 /\
    exec (stabilized_wall_floor cx) t2 (r, cx') /\ floor = match r with Ok f => Some f | Err _ => None end.
(** The clocks of a pass: boot time is read before the wall floor. *)
Definition clocks_read (tr : list event) (now : Z) (floor : option WallFloor) : Prop :=
  exists t1 t2 t3, tr = t1 ++ t2 ++ t3 /\ exec clock_boottime_ns t2 (Ok now) /\ floor_read t3 floor.

Definition pass_of (rx : RCtx) (tr : list event) (rx' : RCtx) : Prop :=
  exists now floor, worked q0 budget scan now floor rx tr rx' /\ (tally places tr = 0%nat \/ clocks_read tr now floor).
Definition passes {A : Type} (m : rop A) : Prop :=
  forall rx tr r rx', inv q0 budget scan rx -> exec (m rx) tr (r, rx') -> Forall named tr -> pass_of rx tr rx'.

(** Steps that attempt nothing place nothing, whatever the clocks. *)
Lemma quiet_any {A} (m : rop A) G rx tr r rx' now floor :
  yields q0 budget scan 0 None m G -> inv q0 budget scan rx -> exec (m rx) tr (r, rx') -> Forall named tr ->
  worked q0 budget scan now floor rx tr rx' /\ tally places tr = 0%nat /\ forall a, r = Some a -> G a.
Proof.
  intros Hm Hi Hx Hn. destruct (Hm _ rx tr r rx' Hi eq_refl Hx Hn) as ([Hi' Hw _ _] & Ho & HG).
  assert (Ht : tally places tr = 0%nat) by lia.
  split; [|split; [done|by intros a ->]]. split; [done|lia|by apply none_placed].
Qed.
Lemma passes_quiet {A} (m : rop A) G : yields q0 budget scan 0 None m G -> passes m.
Proof.
  intros Hm rx tr r rx' Hi Hx Hn. exists 0%Z, None.
  destruct (quiet_any m G rx tr r rx' 0%Z None Hm Hi Hx Hn) as (? & ? & _). auto.
Qed.
(** A quiet prefix. *)
Lemma pass_of_after rx t1 rx1 t2 rx2 :
  (forall now floor, worked q0 budget scan now floor rx t1 rx1) -> tally places t1 = 0%nat -> pass_of rx1 t2 rx2 ->
  pass_of rx (t1 ++ t2) rx2.
Proof.
  intros Hw Ht (now & floor & Hp & Hc). exists now, floor. split; [by eapply worked_trans|].
  destruct Hc as [Hc|(a & b & c & -> & Hx & Hf)]; [left; rewrite tally_app; lia|].
  right. exists (t1 ++ a), b, c. by rewrite <- app_assoc.
Qed.
Lemma passes_then {A B} (m : rop A) G (f : A -> rop B) :
  yields q0 budget scan 0 None m G -> (forall a, G a -> passes (f a)) -> passes (rbind m f).
Proof.
  intros Hm Hf rx tr r rx' Hi (t1 & t2 & [a rx1] & -> & H1 & H2)%exec_bind [N1 N2]%Forall_app.
  destruct a as [a|]; cbn [fst snd] in H2.
  - pose proof (fun now floor => quiet_any m G rx t1 _ rx1 now floor Hm Hi H1 N1) as Hq.
    destruct (Hq 0%Z None) as (Hw & Ht & HG).
    apply (pass_of_after rx t1 rx1); [intros now floor; by apply Hq|done|].
    apply (Hf a (HG a eq_refl) rx1 t2 r rx'); [by apply Hw|done..].
  - apply exec_ret in H2 as [-> [= -> ->]]. rewrite app_nil_r. by eapply (passes_quiet m G).
Qed.
Lemma passes_cursor {A} cursor (m : rop A) :
  cursor_is_valid cursor = true -> passes m -> passes (let~ _ := rcursor (fun _ => cursor) in m).
Proof.
  intros Hc Hm rx tr r rx' Hi (t1 & t2 & [a rx1] & -> & H1 & H2)%exec_bind [N1 N2]%Forall_app.
  apply exec_bind in H1 as (t3 & t4 & x & -> & [-> ->]%exec_ret & [-> [= -> ->]]%exec_ret). cbn [fst snd] in H2.
  assert (Hw : forall now floor, worked q0 budget scan now floor rx []
    (mkRCtx (mkCtx (set_recovery_cursor cursor (handle (rx_cx rx))) (dirty_arg (rx_cx rx))) (rx_stats rx) (rx_scan rx))).
  { intros now floor. destruct Hi. by split; [split|unfold ops, tally; cbn; lia|constructor]. }
  eapply pass_of_after; [exact Hw|done|]. eapply Hm; [apply (Hw 0%Z None)|exact H2|done].
Qed.

Lemma recover_phases_of fuel now rx tr r rx' :
  inv q0 budget scan rx -> exec (recover_phases fuel budget scan now rx) tr (r, rx') -> Forall named tr ->
  exists floor, worked q0 budget scan now floor rx tr rx' /\ floor_read tr floor.
Proof.
  intros Hi (t1 & t2 & [res rx1] & -> & H1 & H2)%exec_bind [N1 N2]%Forall_app.
  pose proof H1 as Hs. apply exec_bind in Hs as (t3 & t4 & [res' cx'] & -> & Hs & [-> [= -> ->]]%exec_ret).
  rewrite app_nil_r in *. cbn [fst snd] in H2, H1. exists (match res' with Ok f => Some f | Err _ => None end). split.
  - set (floor := match res' with Ok f => Some f | Err _ => None end) in *.
    assert (W1 : worked q0 budget scan now floor rx t3 (mkRCtx cx' (rx_stats rx) (rx_scan rx))).
    { eapply (quiet_any (rmethod stabilized_wall_floor) (fun _ => True)); [apply still_floor|done..]. }
    eapply worked_trans; [exact W1|].
    eapply (works_bind q0 budget scan now floor _ _); [| |apply W1|exact H2|done].
    + apply steady_works. eapply yields_steady, still_note. intros e. apply still_error.
    + intros u. exact (recover_timed_works q0 budget scan now floor Hlayout Hwork fuel).
  - exists [], t3, t2, (rx_cx rx), res', cx'. split_and!; try done. apply Hi.
Qed.
Lemma recover_pass_of fuel : passes (recover_pass fuel budget scan).
Proof.
  unfold recover_pass. destruct (RecoveryScanBudget_validate scan) as [u|e].
  2:{ eapply (passes_then _ (fun _ => True)); [by apply still_stats|]. intros _ _. eapply passes_quiet, still_error. }
  eapply (passes_then _ (fun _ => True)); [apply still_queue|]. intros root _.
  eapply (passes_then _ (fun _ => True)); [apply still_call, silent_lock|]. intros [lock|e] _.
  2:{ eapply passes_quiet, still_error. }
  unfold recover_locked. eapply (passes_then _ (fun _ => True)); [apply still_sweep|]. intros _ _.
  eapply (passes_then _ (fun _ => True)); [apply still_queue|]. intros q _.
  eapply (passes_then _ (fun r => forall c, r = Ok c -> cursor_is_valid c = true)).
  { apply yields_call; [apply silent_load|apply load_valid]. }
  intros [cursor|e] Hc; [|eapply passes_quiet, still_error]. apply passes_cursor; [by apply Hc|].
  intros rx tr r rx' Hi (t1 & t2 & [now rx1] & -> & H1 & H2)%exec_bind [N1 N2]%Forall_app.
  pose proof H1 as Hs. apply exec_bind in Hs as (t3 & t4 & now' & -> & Hs & [-> [= -> ->]]%exec_ret).
  rewrite app_nil_r in *. cbn [fst snd] in H2.
  assert (Hq : forall now floor, worked q0 budget scan now floor rx t3 rx /\ tally places t3 = 0%nat /\
    forall a, Some now' = Some a -> True).
  { intros now floor. eapply (quiet_any (rcall clock_boottime_ns) (fun _ => True)); [|done..].
    apply still_call. auto with silent. }
  destruct now' as [now|e].
  - destruct (recover_phases_of fuel now rx t2 r rx' Hi H2 N2) as (floor & Hw & Hf). exists now, floor. split.
    + eapply worked_trans; [by apply Hq|done].
    + right. by exists [], t3, t2.
  - apply (pass_of_after rx t3 rx); [intros; by apply Hq|by apply (Hq 0%Z None)|].
    eapply (passes_quiet _ (fun _ => True)); [apply still_error|done..].
Qed.
End Pass.

(** ** Theorems *)

(** The fields of a scan budget are unsigned. *)
Definition unsigned_budget (scan : RecoveryScanBudget) : Prop :=
  (0 <= max_directories_read scan)%Z /\ (0 <= max_entries_read scan)%Z /\ (0 <= max_name_bytes_read scan)%Z.

Section Theorems.
Context `{Sha256} {T : Texts} {J : CursorJson}.
Context (fuel : nat) (budget : WorkBudget) (scan : RecoveryScanBudget) (q : Queue).
Context (Hlayout : Layout_wf (layout q)) (Hwork : (0 <= max_operations budget <= u32_max)%Z).
Context (Hscan : unsigned_budget scan) (Hcursor : cursor_is_valid (recovery_cursor q) = true).

Lemma recover_passes tr r q' :
  exec (recover_with_scan_budget fuel budget scan q) tr (r, q') -> Forall named tr ->
  exists rx', pass_of q budget scan (mkRCtx (mkCtx q None) RecoveryStats_default RecoveryScanStats_default) tr rx' /\
    q' = rx_queue rx' /\ forall report, r = Some report -> report = mkRecoveryReport (rx_stats rx') (rx_scan rx').
Proof.
  intros (t1 & t2 & [r' rx'] & -> & H1 & [-> [= -> ->]]%exec_ret)%exec_bind Hn. rewrite app_nil_r in *.
  exists rx'. split; [|split; [done|by destruct r'; intros ? [= <-]]].
  eapply (recover_pass_of q budget scan Hlayout Hwork fuel); [|exact H1|done]. destruct Hscan as (? & ? & ?).
  split; [done|unfold ops; cbn; lia|unfold scan_within; cbn; lia|done].
Qed.


(** C12: A recovery pass respects its budgets.  The report of
    [recover_with_scan_budget] counts at most [max_operations] attempted
    operations, and at least as many as objects moved; it counts at most
    [max_directories_read] directories and [max_entries_read] entries; and the
    name bytes read go past [max_name_bytes_read] by less than one file name. *)
Theorem recovery_within_budget tr report q' :
  exec (recover_with_scan_budget fuel budget scan q) tr (Some report, q') -> Forall named tr ->
  budgets_kept budget scan tr report.
Proof.
  intros Hx Hn. destruct (recover_passes tr _ q' Hx Hn) as (rx' & (now & floor & [[] Hw _] & _) & _ & Hr).
  rewrite (Hr report eq_refl). unfold budgets_kept, ops in *. cbn in *. split; [lia|done].
Qed.

End Theorems.

(** ** The cursor, saved and loaded *)

(** The derived serialization of [serde_json] reads back what it wrote. *)
Class CursorJsonSpec {J : CursorJson} : Prop :=
  cursor_json_roundtrip record data : cursor_to_vec record = Ok data -> cursor_from_slice data = Ok record.

Section Reload.
Context {T : Texts} {J : CursorJson} `{!CursorJsonSpec}.

(** A call failed, or the file is not a regular one with one link. *)
Definition disturbed (tr : list event) : Prop := some_failed tr \/ saw_irregular tr.
Lemma disturbed_app t1 t2 : disturbed t1 \/ disturbed t2 -> disturbed (t1 ++ t2).
Proof.
  unfold disturbed. rewrite some_failed_app. intros [[?|?]|[?|?]]; auto; right; apply irregular_app; auto.
Qed.

Lemma wp_opens (ok : event -> Prop) d name flags mode :
  cstr_from_name name = Ok name ->
  wp ok (openat d name flags mode) (fun tr r => match r with Ok _ => True | Err _ => some_failed tr end).
Proof.
  intros E. unfold openat. rewrite E. cbn [lift io_try io_bind]. apply wp_sys. intros a _. apply wp_ret.
  destruct (check_fd a) as [fd|e] eqn:Ef; [done|]. destruct a; try done. apply some_failed_one.
Qed.
Lemma wp_stats data fd :
  wp (serves_all data) (fstat fd) (fun tr r => match r with
    | Ok st => st_size st = Z.of_nat (length data) /\ (is_singly_linked_regular st = false -> saw_irregular tr)
    | Err _ => some_failed tr
    end).
Proof.
  apply wp_sys. intros a Ha. apply wp_ret. specialize (Ha _ eq_refl). destruct a as [| |st| | | |]; try done.
  - apply some_failed_one.
  - cbn [check_stat]. split; [done|]. intros Hi. constructor. by exists st.
Qed.
Lemma load_saved root q data :
  cursor_is_valid (recovery_cursor q) = true -> cursor_to_vec (cursor_record q) = Ok data ->
  cursor_record_bytes_fit (length data) = true ->
  wp (serves_all data) (load_recovery_cursor root (queue_id q))
    (fun tr r => disturbed tr \/ r = Ok (recovery_cursor q)).
Proof.
  intros Hc Hd Hf. unfold load_recovery_cursor. apply wp_try, wp_map_err.
  eapply wp_mono; [by apply wp_opens|]. intros t1 [control|e] H1; [|left; by left]. cbn [map_err].
  apply wp_bind. eapply wp_mono; [by apply wp_opens|]. intros t2 [fd|e] H2.
  2:{ apply wp_ret. left. left. rewrite app_nil_r, some_failed_app. auto. }
  apply wp_try, wp_map_err. eapply wp_mono; [apply wp_stats|]. intros t3 [st|e] H3; cbn [map_err].
  2:{ left. left. rewrite !some_failed_app. auto. }
  destruct H3 as [Hsz Hirr]. destruct (cursor_file_metadata_is_valid st) eqn:Em; cbn [negb].
  2:{ apply wp_ret. left. right. rewrite app_nil_r. do 2 (apply irregular_app; right). apply Hirr. done. }
  rewrite Hsz. rewrite (proj2 (Z.ltb_ge _ _)) by lia. unfold cursor_record_bytes_fit in Hf. rewrite Hf. cbn [negb].
  rewrite Nat2Z.id. apply wp_try, wp_map_err.
  eapply wp_mono; [eapply wp_assume; [intros ev Hev; exact (Hev fd)|apply (wp_pread_exact fd data (length data) 0)]|].
  { unfold cursor_record_size_is_valid, RECOVERY_CURSOR_MAX_BYTES in Hf. apply andb_true_iff in Hf as [_ Hf]. breflect. lia. }
  intros t4 [read|e]; cbn [map_err].
  - intros [Hr _]. apply wp_ret. right. unfold slice in Hr. cbn in Hr. rewrite Nat.sub_0_r, drop_0, take_ge in Hr by done.
    subst read. rewrite (cursor_json_roundtrip _ _ Hd). cbn. unfold accept_cursor_record. cbn.
    by rewrite !bool_decide_true, Hc.
  - unfold read_fault. case_bool_decide; [lia|]. intros ?. left. left. rewrite !some_failed_app. auto.
Qed.
End Reload.


(** ** A sample pass *)

(** The sample disk, with the names that each opened directory lists in turn. *)
Definition scripted_disk (files : list SampleFile) (s : list (list bytes) * list bytes) (c : Syscall)
  : Answer * (list (list bytes) * list bytes) :=
  match c, s with
  | SysFdopendir _, (names :: script, _) => (Returns 0, (script, names))
  | SysFdopendir _, ([], _) => (Returns 0, ([], []))
  | SysReaddir _, (script, name :: names) => (Entry name 1, (script, names))
  | SysReaddir _, _ => (Returns 0, s)
  | _, _ => ((sample_disk files tt c).1, s)
  end.
(** A delayed job that is due, in its bucket and shard. *)
Definition due_name : bytes :=
  match @Layout_delayed checksum256 (layout sample_queue) (mkCommon (replicate 16 x2a) 3 0 5)
          (3 * ly_delayed_bucket_width_ns (layout sample_queue)) with
  | Ok t => filename t
  | Err _ => []
  end.
Definition due_script : list (list bytes) :=
  [[]; []] ++ replicate (Z.to_nat (shard_count sample_queue)) [] ++
  [[bucket_hex 3]; [shard_hex sample_shard]; [due_name]; []; []; []].
(** An encoding of the cursor that a pass without interruption leaves. *)
Definition sample_record : RecoveryCursorRecord := cursor_record sample_queue.
#[export] Instance ThreeLevelCursor_eq_dec : EqDecision ThreeLevelCursor.
Proof. solve_decision. Defined.
#[export] Instance FourLevelCursor_eq_dec : EqDecision FourLevelCursor.
Proof. solve_decision. Defined.
#[export] Instance RecoveryCursor_eq_dec : EqDecision RecoveryCursor.
Proof. solve_decision. Defined.
#[export] Instance RecoveryCursorRecord_eq_dec : EqDecision RecoveryCursorRecord.
Proof. solve_decision. Defined.
Definition sample_cursor_json : CursorJson := {|
  cursor_from_slice data := if bool_decide (data = lit "{}") then Ok sample_record else Err "syntax";
  cursor_to_vec record := if bool_decide (record = sample_record) then Ok (lit "{}") else Err "unsupported" |}.
Lemma sample_cursor_json_spec : @CursorJsonSpec sample_cursor_json.
Proof. intros record data. cbn. case_bool_decide; [|done]. intros [= <-]. by subst. Qed.
Definition sample_pass :=
  run (scripted_disk (mkSampleFile due_name 11 1 sample_job_file :: sample_control)) (due_script, [])
    (@recover_with_scan_budget checksum256 sample_texts sample_cursor_json 40 (mkWorkBudget 10 10)
       RecoveryScanBudget_default sample_queue).
(** [named] as a test. *)
Definition namedb (ev : event) : bool :=
  match ev with
  | (SysReaddir _, Entry name _) => is_dot name || cursor_component_is_valid name
  | _ => true
  end.
Lemma namedb_named tr : forallb namedb tr = true -> Forall named tr.
Proof.
  rewrite forallb_Forall. intros Hf. eapply Forall_impl; [exact Hf|]. intros [c a]. destruct c; try done.
  destruct a; try done. cbn. by destruct (is_dot d_name).
Qed.
Lemma sample_pass_layout : Layout_wf (layout sample_queue).
Proof. split; [by exists 8%Z|]. by vm_compute. Qed.
Lemma sample_pass_named : Forall named sample_pass.1.1.
Proof. apply namedb_named. by vm_compute. Qed.
Lemma sample_pass_exec :
  exec (@recover_with_scan_budget checksum256 sample_texts sample_cursor_json 40 (mkWorkBudget 10 10)
          RecoveryScanBudget_default sample_queue) sample_pass.1.1 (sample_pass.1.2.1, sample_pass.1.2.2).
Proof. unfold sample_pass. apply exec_run_pair. Qed.
Definition sample_counts (r : option RecoveryReport) : option (Z * Z) :=
  option_map (fun report => (operations_attempted (rep_stats report), delayed_promoted (rep_stats report))) r.
Lemma sample_work : (0 <= max_operations (mkWorkBudget 10 10) <= u32_max)%Z.
Proof. done. Qed.
Lemma sample_scan : unsigned_budget RecoveryScanBudget_default.
Proof. by repeat split. Qed.
Lemma sample_cursor_valid : cursor_is_valid (recovery_cursor sample_queue) = true.
Proof. done. Qed.


Lemma recovery_within_budget_witness :
  sample_counts sample_pass.1.2.1 = Some (3%Z, 1%Z) /\
  forall report, sample_pass.1.2.1 = Some report ->
    (Z.of_nat (tally places sample_pass.1.1) <= operations_attempted (rep_stats report) <= 10)%Z.
Proof.
  assert (Hout : sample_counts sample_pass.1.2.1 = Some (3%Z, 1%Z)) by (vm_compute; reflexivity).
  pose proof sample_pass_exec as Hx. pose proof sample_pass_named as Hn. revert Hout Hx Hn.
  generalize sample_pass. intros [[tr [r q']] s]. cbn [fst snd]. intros Hout Hx Hn. split; [exact Hout|].
  intros report ->.
  exact (proj1 (@recovery_within_budget checksum256 sample_texts sample_cursor_json 40 (mkWorkBudget 10 10)
    RecoveryScanBudget_default sample_queue sample_pass_layout sample_work sample_scan sample_cursor_valid
    tr report q' Hx Hn)).
Defined.

Definition sample_reload :=
  run (sample_file_kernel (lit "{}")) tt (@load_recovery_cursor sample_texts sample_cursor_json 3 (queue_id sample_queue)).
