(* ===== verification/Ends.v ===== *)
(** * Recovery ends

    The fuel of the recovery programs bounds the directory entries that may be
    served, and the five turns of the loop over the phases are enough: a pass
    during which the kernel serves fewer entries than the fuel returns its
    report.  [ends n m] is that claim for a step; the walk through the
    definitions of [Recovery] and [Phases] is mechanical. *)
From stdpp Require Import base numbers list option strings gmap.
From Stdlib Require Import Strings.Byte ZArith.
From S2P Require Import Prelude Math Names Format Cbor FsLinux FsRead FsDir StateMachine Ticket Layout Engine Logic Verified Queue Watermark Publish Quarantine Lease Inspect Recovery Phases Cursor Maintenance Pass.
Open Scope string_scope.
Open Scope list_scope.

(** Directory entries served in a trace. *)
Definition is_served (ev : event) : bool := match ev with (SysReaddir _, Entry _ _) => true | _ => false end.
Definition served (tr : list event) : nat := length (List.filter is_served tr).
Lemma served_app t1 t2 : served (t1 ++ t2) = (served t1 + served t2)%nat.
Proof. unfold served. by rewrite List.filter_app, length_app. Qed.
Lemma served_cons ev tr : served (ev :: tr) = ((if is_served ev then 1 else 0) + served tr)%nat.
Proof. unfold served. cbn. by destruct (is_served ev). Qed.

(** ** Directory readers run out of fuel only after that many entries *)

Lemma next_entry_spends fuel s tr s' : exec (next_entry fuel s) tr (None, s') -> (fuel <= served tr)%nat.
Proof.
  revert s tr. induction fuel as [|fuel IH]; intros s tr Hx; cbn [next_entry] in Hx; [lia|].
  apply exec_bind in Hx as (t1 & t2 & [r s1] & -> & H1 & H2).
  destruct t1 as [|[c a] t1]; [done|]. destruct H1 as [-> [-> H1]%exec_ret].
  destruct a as [e|rc|st|data|ts tns|n off|pr pe]; injection H1 as -> ->; try (by apply exec_ret in H2 as [_ ?]).
  destruct (is_dot n); [|by apply exec_ret in H2 as [_ ?]]. apply IH in H2. rewrite served_app, served_cons. cbn. lia.
Qed.
Lemma next_entry_served fuel s tr name s' :
  exec (next_entry fuel s) tr (Some (Ok (Some name)), s') -> (1 <= served tr)%nat.
Proof.
  revert s tr. induction fuel as [|fuel IH]; intros s tr Hx; cbn [next_entry] in Hx; [by apply exec_ret in Hx as [_ ?]|].
  apply exec_bind in Hx as (t1 & t2 & [r s1] & -> & H1 & H2).
  destruct t1 as [|[c a] t1]; [done|]. destruct H1 as [-> [-> H1]%exec_ret].
  destruct a as [e|rc|st|data|ts tns|n off|pr pe]; injection H1 as -> ->; try (by apply exec_ret in H2 as [_ ?]).
  rewrite served_app, served_cons. cbn. lia.
Qed.
Lemma enumerate_fuel fuel s me mb stop entries held p tr :
  exec (enumerate_loop fuel s me mb stop entries held p) tr None -> (fuel <= served tr)%nat.
Proof.
  revert s entries held p tr. induction fuel as [|fuel IH]; intros s entries held p tr Hx; [lia|]. cbn [enumerate_loop] in Hx.
  apply exec_bind in Hx as (t1 & t2 & b & -> & _ & Hx). destruct b as [[]|e]; try (by apply exec_ret in Hx as [_ ?]).
  apply exec_bind in Hx as (t3 & t4 & [r s1] & -> & H1 & H2).
  destruct t3 as [|[c a] t3]; [done|]. destruct H1 as [-> [-> H1]%exec_ret].
  destruct a as [e|rc|st|data|ts tns|n off|pr pe]; injection H1 as -> ->; try (by apply exec_ret in H2 as [_ ?]).
  rewrite !served_app, served_cons. cbn [is_served]. cbv zeta in H2.
  destruct (is_dot n); [apply IH in H2; lia|]. destruct (accept_entry _ _ _ _ _); [apply IH in H2; lia|].
  by apply exec_ret in H2 as [_ ?].
Qed.
Lemma read_bounded_fuel fuel fd me mb stop tr :
  exec (read_dir_entries_bounded_until_with_progress fuel fd me mb stop) tr None -> (fuel <= served tr)%nat.
Proof.
  intros (t1 & t2 & d & -> & _ & Hx)%exec_bind. destruct d as [d|e]; [|by apply exec_ret in Hx as [_ ?]].
  apply exec_bind in Hx as (t3 & t4 & s & -> & _ & Hx). destruct s as [s|e]; [|by apply exec_ret in Hx as [_ ?]].
  apply enumerate_fuel in Hx. rewrite !served_app. lia.
Qed.

(** ** Steps *)

Definition ends {A : Type} (n : nat) (m : rop A) : Prop :=
  forall rx tr r rx', exec (m rx) tr (r, rx') -> (served tr < n)%nat -> r <> None.

Section Ends.
Context {n : nat}.

Lemma ends_bind {A B} (m : rop A) (f : A -> rop B) : ends n m -> (forall a, ends n (f a)) -> ends n (rbind m f).
Proof.
  intros Hm Hf rx tr r rx' (t1 & t2 & [a rx1] & -> & H1 & H2)%exec_bind Hn. rewrite served_app in Hn.
  destruct a as [a|]; [|by destruct (Hm rx t1 None rx1 H1 ltac:(lia))]. apply (Hf a rx1 t2 r rx' H2). lia.
Qed.
Lemma ends_ret {A} (a : A) : ends n (rret a).
Proof. by intros rx tr r rx' [-> [= -> ->]]%exec_ret _. Qed.
Lemma ends_get {A} (f : RCtx -> A) : ends n (rget f).
Proof. by intros rx tr r rx' [-> [= -> ->]]%exec_ret _. Qed.
Lemma ends_stats f : ends n (rstats f).
Proof. by intros rx tr r rx' [-> [= -> ->]]%exec_ret _. Qed.
Lemma ends_scan f : ends n (rscan f).
Proof. by intros rx tr r rx' [-> [= -> ->]]%exec_ret _. Qed.
Lemma ends_call {A} (p : io A) : ends n (rcall p).
Proof. by intros rx tr r rx' (t1 & t2 & a & -> & H1 & [-> [= -> ->]]%exec_ret)%exec_bind _. Qed.
Lemma ends_method {A} (m : op A) : ends n (rmethod m).
Proof. by intros rx tr r rx' (t1 & t2 & a & -> & H1 & [-> [= -> ->]]%exec_ret)%exec_bind _. Qed.
Lemma ends_fuel {A} (p : io (option A)) : (forall tr, exec p tr None -> (n <= served tr)%nat) -> ends n (rcall_fuel p).
Proof.
  intros Hp rx tr r rx' (t1 & t2 & a & -> & H1 & [-> [= -> ->]]%exec_ret)%exec_bind Hn ->.
  apply Hp in H1. rewrite app_nil_r in Hn. lia.
Qed.

End Ends.

Create HintDb ends.
Ltac end_step :=
  lazymatch goal with
  | |- ends _ (rret _) => apply ends_ret
  | |- ends _ (rbind _ _) => apply ends_bind; [|intros ?]
  | |- ends _ (rstats _) => apply ends_stats
  | |- ends _ (rscan _) => apply ends_scan
  | |- ends _ (rcall _) => apply ends_call
  | |- ends _ (rmethod _) => apply ends_method
  | |- ends _ (rcursor _) => apply ends_method
  | |- ends _ (rqueue _) => apply ends_get
  | |- ends _ (rget _) => apply ends_get
  | |- ends _ (record_error _ _ _) => apply ends_stats
  | |- ends _ (match ?x with _ => _ end) => destruct x
  | |- ends _ (let x := _ in _) => cbv zeta
  | |- ends _ _ => solve [auto 2 with ends nocore]
  end.
Ltac ending := intros; repeat end_step.

Section Walk.
Context `{Sha256} {T : Texts} (n : nat).

Lemma ends_block op path e : ends n (block_phase op path e).
Proof. unfold block_phase. ending. Qed.
Lemma ends_move_failure op path f : ends n (record_move_failure op path f).
Proof. unfold record_move_failure. ending. Qed.
Lemma ends_unlink_failure op path f : ends n (record_unlink_failure op path f).
Proof. unfold record_unlink_failure. ending. Qed.
Lemma ends_remove_failure op path f : ends n (record_remove_directory_failure op path f).
Proof. unfold record_remove_directory_failure. ending. Qed.
Lemma ends_replace_failure op path f : ends n (record_replace_failure op path f).
Proof. unfold record_replace_failure. ending. Qed.
#[local] Hint Resolve ends_block ends_move_failure ends_unlink_failure ends_remove_failure ends_replace_failure : ends.
Lemma ends_directory_error op path f : ends n (record_directory_error op path f).
Proof. unfold record_directory_error. ending. Qed.
Lemma ends_budget budget deadline : ends n (work_budget_exhausted budget deadline).
Proof. unfold work_budget_exhausted. ending. Qed.
Lemma ends_noncanonical op name kind : ends n (record_noncanonical op name kind).
Proof. unfold record_noncanonical. ending. Qed.
Lemma ends_ascii op entry kind : ends n (ascii_directory_name op entry kind).
Proof. unfold ascii_directory_name. ending. Qed.
#[local] Hint Resolve ends_directory_error ends_budget ends_noncanonical ends_ascii : ends.
Lemma ends_boot op entry : ends n (boot_directory_name op entry).
Proof. unfold boot_directory_name. ending. Qed.
Lemma ends_bucket op entry : ends n (bucket_directory_name op entry).
Proof. unfold bucket_directory_name. ending. Qed.
Lemma ends_shard op entry count : ends n (shard_directory_name op entry count).
Proof. unfold shard_directory_name. ending. Qed.
Lemma ends_read fd deadline scan : ends n (read_recovery_directory n fd deadline scan).
Proof. unfold read_recovery_directory. ending. apply ends_fuel. intros tr. apply read_bounded_fuel. Qed.
Lemma ends_remember phase kind comps path : ends n (remember_hierarchy_retry_or_block phase kind comps path).
Proof. unfold remember_hierarchy_retry_or_block, remember_hierarchy_retry. ending. Qed.
Lemma ends_retry_clock deadline : ends n (retry_clock deadline).
Proof. unfold retry_clock. ending. Qed.
#[local] Hint Resolve ends_boot ends_bucket ends_shard ends_read ends_remember ends_retry_clock : ends.
Lemma ends_descend_components root deadline comps current : ends n (descend_components root deadline comps current).
Proof. revert current. induction comps as [|c comps IH]; intros current; cbn [descend_components]; ending. Qed.
#[local] Hint Resolve ends_descend_components : ends.
Lemma ends_retry_phase phase fd scan deadline : ends n (retry_phase n phase fd scan deadline).
Proof.
  unfold retry_phase, prepare_hierarchy_retry_phase. apply ends_bind; [ending|]. intros retry.
  unfold retry_one_hierarchy_directory. ending.
Qed.
Lemma ends_descend fd level scan deadline : ends n (descend_level n fd level scan deadline).
Proof. unfold descend_level, remember_level_retry. ending. Qed.
Lemma ends_prune fd name op path budget deadline counted : ends n (prune_level fd name op path budget deadline counted).
Proof. unfold prune_level, prune_empty_directory. ending. Qed.
Lemma ends_quarantine fd name path reason budget restore : ends n (quarantine_entry fd name path reason budget restore).
Proof. unfold quarantine_entry, quarantine_recovery_object, quarantine_recovery_object_with_ids. ending. Qed.
#[local] Hint Resolve ends_retry_phase ends_descend ends_prune ends_quarantine : ends.
Lemma ends_within budget deadline step : ends n step -> ends n (within_budget budget deadline step).
Proof. intros Hs. unfold within_budget, stop_exhausted. ending. Qed.
Lemma ends_validated fd name path ctx op budget restore k :
  ends n k -> ends n (validated fd name path ctx op budget restore k).
Proof. intros Hk. unfold validated. ending. Qed.
Lemma ends_move op path counted p : ends n (attempt_move op path counted p).
Proof. unfold attempt_move. ending. Qed.
Lemma ends_unlink op path counted fd name : ends n (attempt_unlink op path counted fd name).
Proof. unfold attempt_unlink. ending. Qed.
Lemma ends_children step names absent : (forall name, ends n (step name)) -> ends n (scan_children step names absent).
Proof. intros Hs. revert absent. induction names as [|x names IH]; intros absent; cbn [scan_children]; ending. Qed.
Lemma ends_level fd level scan deadline step finish :
  (forall fd name, ends n (step fd name)) -> (forall a o, ends n (finish a o)) ->
  ends n (scan_level n fd level scan deadline step finish).
Proof. intros Hs Hf. unfold scan_level. ending. by apply ends_children. Qed.
Lemma ends_before phase parents name step : ends n step -> ends n (unless_before phase parents name step).
Proof. intros Hs. unfold unless_before. ending. Qed.
Lemma ends_before4 parents name step : ends n step -> ends n (unless_before4 parents name step).
Proof. intros Hs. unfold unless_before4. ending. Qed.
Lemma ends_at_entry phase op first second entry budget deadline step :
  (forall e restore, ends n (step e restore)) -> ends n (at_entry phase op first second entry budget deadline step).
Proof. intros Hs. unfold at_entry. ending; apply ends_within; ending. Qed.

(** Nothing but the stream itself uses fuel in a streamed directory. *)
Lemma ends_stream fuel stream deadline scan visit :
  (forall k name, ends k (visit name)) -> ends fuel (stream_entries fuel stream deadline scan visit).
Proof.
  intros Hv. revert stream. induction fuel as [|fuel IH]; intros stream; [by intros ? ? ? ? ? ?%Nat.nlt_0_r|].
  cbn [stream_entries]. apply ends_bind; [ending|]. intros stats. destruct (_ || _); [ending|].
  apply ends_bind; [ending|]. intros [[]|e]; [ending| |ending].
  intros rx tr r rx' (t1 & t2 & [e rx1] & -> & H1 & H2)%exec_bind Hn. rewrite served_app in Hn.
  apply exec_bind in H1 as (t3 & t4 & e' & -> & H1 & [-> [= -> ->]]%exec_ret). rewrite app_nil_r in *.
  apply exec_bind in H1 as (t5 & t6 & [o s'] & -> & H1 & [-> ->]%exec_ret). rewrite app_nil_r in *. cbn [fst snd] in H2.
  destruct o as [[[name|]|e]|]; cbn [option_map] in H2; try (by apply exec_ret in H2 as [_ [= -> _]]).
  2:{ apply next_entry_spends in H1. lia. }
  apply next_entry_served in H1. revert H2.
  assert (He : ends fuel (let~ _ := rscan (charge_progress (mkProgress 1 (Z.of_nat (length name)))) in
    let~ flow := visit name in
    match flow with FlowBreak => rret (Ok FlowBreak, ds_position stream) | FlowContinue => stream_entries fuel s' deadline scan visit end)).
  { ending. }
  intros H2. apply (He _ _ _ _ H2). lia.
Qed.
Lemma ends_stream_directory fd position deadline scan visit :
  (forall k name, ends k (visit name)) -> ends n (stream_recovery_directory n fd position deadline scan visit).
Proof. intros Hv. unfold stream_recovery_directory. ending. by apply ends_stream. Qed.

(** ** Phases *)

Lemma ends_open_phase root op : ends n (open_phase root op).
Proof. unfold open_phase. ending. Qed.
Lemma ends_root fd root op scan deadline : ends n (enumerate_root n fd root op scan deadline).
Proof. unfold enumerate_root. ending. Qed.
Lemma ends_finish phase r : ends n (finish_phase phase r).
Proof. unfold finish_phase. ending. Qed.
Lemma ends_receipt prefix budget bucket shard fd entry restore k :
  (forall r, ends n (k r)) -> ends n (at_receipt prefix budget bucket shard fd entry restore k).
Proof. intros Hk. unfold at_receipt. ending. Qed.
Lemma ends_compact bucket shard fd entry r : ends n (compact_receipt bucket shard fd entry r).
Proof. unfold compact_receipt, replace_receipt, cleanup_compaction_temp. ending. Qed.
End Walk.
#[local] Hint Resolve ends_block ends_directory_error ends_budget ends_boot ends_bucket ends_shard ends_retry_phase
  ends_prune ends_quarantine ends_move ends_unlink ends_move_failure ends_open_phase ends_root ends_finish ends_compact : ends.
Ltac phase_step :=
  lazymatch goal with
  | |- ends _ (within_budget _ _ _) => apply ends_within
  | |- ends _ (validated _ _ _ _ _ _ _ _) => apply ends_validated
  | |- ends _ (scan_children _ _ _) => apply ends_children; intros ?
  | |- ends _ (scan_level _ _ _ _ _ _ _) => apply ends_level; [intros ? ?|intros ? ?]
  | |- ends _ (unless_before _ _ _ _) => apply ends_before
  | |- ends _ (unless_before4 _ _ _) => apply ends_before4
  | |- ends _ (at_entry _ _ _ _ _ _ _ _) => apply ends_at_entry; intros ? ?
  | |- ends _ (at_receipt _ _ _ _ _ _ _ _) => apply ends_receipt; intros ?
  | |- ends _ (stream_recovery_directory _ _ _ _ _ _) => apply ends_stream_directory; intros ? ?
  | _ => end_step
  end.
Ltac phasing := intros; repeat phase_step.

Section Phases.
Context `{Sha256} {T : Texts} {J : CursorJson} (n : nat) (budget : WorkBudget) (scan : RecoveryScanBudget).

Lemma ends_reap_lease k path floor fd entry parsed to_ready : ends k (reap_lease path floor fd entry parsed to_ready).
Proof. unfold reap_lease. phasing. Qed.
#[local] Hint Resolve ends_reap_lease : ends.
Lemma ends_colocated_lease k lease now floor deadline : ends k (reap_colocated_lease lease now floor budget deadline).
Proof. unfold reap_colocated_lease. phasing. Qed.
#[local] Hint Resolve ends_colocated_lease : ends.
Lemma ends_colocated now floor deadline shards : ends n (reap_colocated_shards n now floor budget scan deadline shards).
Proof. induction shards as [|shard shards IH]; cbn [reap_colocated_shards]; phasing. Qed.
#[local] Hint Resolve ends_colocated : ends.
Lemma ends_reap_boot now floor deadline fd boot : ends n (reap_boot n budget scan deadline now floor fd boot).
Proof. unfold reap_boot, reap_bucket, reap_shard, reap_entry, reap_validated. phasing. Qed.
#[local] Hint Resolve ends_reap_boot : ends.
Lemma ends_reap now floor deadline : ends n (reap_expired_leases n now floor budget scan deadline).
Proof. unfold reap_expired_leases, reap_colocated_ready_leases. phasing. Qed.
Lemma ends_promote floor deadline : ends n (promote_delayed n floor budget scan deadline).
Proof. unfold promote_delayed, promote_bucket, promote_shard, promote_entry. phasing. Qed.
Lemma ends_cleanup now deadline : ends n (cleanup_temp_files n now budget scan deadline).
Proof. unfold cleanup_temp_files, cleanup_boot, cleanup_shard, cleanup_entry. phasing. Qed.
Lemma ends_compacting deadline : ends n (compact_receipts_with_scan_budget n budget scan deadline).
Proof. unfold compact_receipts_with_scan_budget, compact_bucket, compact_shard, compact_entry. phasing. Qed.
Lemma ends_deleting floor retention deadline : ends n (delete_expired_receipts n floor retention budget scan deadline).
Proof. unfold delete_expired_receipts, delete_bucket, delete_shard, delete_entry, delete_receipt. phasing. Qed.
#[local] Hint Resolve ends_reap ends_promote ends_cleanup ends_compacting ends_deleting : ends.
Lemma ends_phase phase now floor deadline : ends n (run_phase n phase now floor budget scan deadline).
Proof. unfold run_phase. phasing. Qed.
End Phases.

(** ** The loop and the pass *)

Lemma exec_rbind {A B} (m : rop A) (f : A -> rop B) rx tr r rx' :
  exec (rbind m f rx) tr (r, rx') ->
  exists t1 t2 a rx1, tr = t1 ++ t2 /\ exec (m rx) t1 (a, rx1) /\
    match a with Some a => exec (f a rx1) t2 (r, rx') | None => t2 = [] /\ r = None /\ rx' = rx1 end.
Proof.
  intros (t1 & t2 & [[a|] rx1] & -> & H1 & H2)%exec_bind; [by exists t1, t2, (Some a), rx1|].
  apply exec_ret in H2 as [-> [= -> ->]]. by exists t1, [], None, rx1.
Qed.
Lemma exec_rget {A B} (f : RCtx -> A) (k : A -> rop B) rx tr x : exec ((let~ a := rget f in k a) rx) tr x -> exec (k (f rx) rx) tr x.
Proof. done. Qed.

Section Loop.
Context `{Sha256} {T : Texts} {J : CursorJson} (n : nat).
Context (q0 : Queue) (budget : WorkBudget) (scan : RecoveryScanBudget) (now : Z) (floor : option WallFloor).
Context (Hlayout : Layout_wf (layout q0)) (Hwork : (0 <= max_operations budget <= u32_max)%Z).

(** A check of the budget leaves a spent budget spent, and the phase alone. *)
Lemma budget_check_keeps deadline rx tr r rx' :
  exec (work_budget_exhausted budget deadline rx) tr (r, rx') ->
  budget_exhausted (rx_stats rx') = budget_exhausted (rx_stats rx) /\ phase_at rx' = phase_at rx.
Proof.
  unfold work_budget_exhausted. intros Hx%exec_rget. destruct (_ <=? _)%Z; [by apply exec_ret in Hx as [_ [= _ ->]]|].
  apply exec_rbind in Hx as (t1 & t2 & a & rx1 & -> & H1 & H2).
  apply exec_bind in H1 as (t3 & t4 & b & -> & _ & [-> [= -> ->]]%exec_ret).
  destruct b as [b|e]; [by apply exec_ret in H2 as [_ [= _ ->]]|].
  apply exec_rbind in H2 as (t5 & t6 & a & rx1 & -> & H1 & H2). 
  apply exec_rbind in H1 as (t7 & t8 & a' & rx2 & -> & [-> [= -> ->]]%exec_ret & [-> [= -> ->]]%exec_ret).
  by apply exec_ret in H2 as [_ [= _ ->]].
Qed.
Lemma phase_index_bound phase : (phase_index phase <= 4)%Z.
Proof. by destruct phase. Qed.
(** The end of a turn: the phase advances unless the budget is spent. *)
Lemma turn_advances phase rx tr r rx' :
  exec ((if has_recovery_budget (rx_stats rx) then rcursor (set_phase phase) else rret tt) rx) tr (r, rx') ->
  tr = [] /\ r = Some tt /\ rx_stats rx' = rx_stats rx /\ (phase_at rx' = phase \/ budget_exhausted (rx_stats rx') = true).
Proof.
  unfold has_recovery_budget. destruct (budget_exhausted (rx_stats rx)) eqn:Eb; cbn [negb].
  - intros [-> [= -> ->]]%exec_ret. auto.
  - intros (t1 & t2 & x & -> & [-> ->]%exec_ret & [-> [= -> ->]]%exec_ret)%exec_bind. auto.
Qed.
Lemma turn_spends (exhausted : bool) rx tr r rx' :
  exec ((if exhausted then rstats set_exhausted else rret tt) rx) tr (r, rx') ->
  tr = [] /\ r = Some tt /\ phase_at rx' = phase_at rx /\
  (budget_exhausted (rx_stats rx) = true -> budget_exhausted (rx_stats rx') = true).
Proof. destruct exhausted; intros [-> [= -> ->]]%exec_ret; auto. Qed.

Lemma run_phases_end turns deadline rx tr r rx' :
  inv q0 budget scan rx -> exec (run_phases turns n now floor budget scan deadline rx) tr (r, rx') -> Forall named tr ->
  (served tr < n)%nat ->
  (5 <= Z.of_nat turns + phase_index (phase_at rx))%Z \/ (1 <= turns)%nat /\ budget_exhausted (rx_stats rx) = true ->
  r <> None.
Proof.
  revert rx tr. induction turns as [|turns IH]; intros rx tr Hi Hx Hn Hs Ht.
  { pose proof (phase_index_bound (phase_at rx)). lia. }
  cbn [run_phases] in Hx. apply exec_rget in Hx. unfold has_recovery_budget in Hx at 1.
  destruct (budget_exhausted (rx_stats rx)) eqn:Eb; cbn [negb] in Hx; [by apply exec_ret in Hx as [_ [= -> _]]|].
  destruct Ht as [Ht|[_ ?]]; [|done]. apply exec_rget in Hx. change (rk_phase _) with (phase_at rx) in Hx.
  apply exec_rbind in Hx as (t1 & t2 & a & rx1 & -> & H1 & Hx). apply Forall_app in Hn as [N1 N2]. rewrite served_app in Hs.
  destruct (run_phase_does q0 budget scan now floor Hlayout Hwork n _ deadline rx t1 a rx1 Hi I H1 N1) as [P1 Ha].
  destruct a as [next|]; [|by destruct (ends_phase n budget scan _ now floor deadline rx t1 None rx1 H1 ltac:(lia))].
  subst next. apply exec_rget in Hx. apply exec_rbind in Hx as (t3 & t4 & a & rx2 & -> & H2 & Hx).
  assert (I2 : inv q0 budget scan rx2).
  { eapply (wk_inv q0 budget scan now floor); destruct (has_recovery_budget (rx_stats rx1)).
    - eapply works_cursor; [|apply P1|exact H2|by apply Forall_app in N2 as [? _]]. intros c. apply valid_set_phase.
    - apply exec_ret in H2 as [-> [= -> ->]]. apply progress_worked, progress_refl, P1. }
  apply turn_advances in H2 as (-> & -> & Est & Hadv). cbn [app] in *.
  apply exec_rbind in Hx as (t5 & t6 & a & rx3 & -> & H3 & Hx). apply Forall_app in N2 as [N5 N6]. rewrite served_app in Hs.
  assert (I3 : inv q0 budget scan rx3).
  { unshelve eapply (budget_leaves_room q0 budget scan now floor Hwork (fun _ => True) deadline rx2 t5 a rx3); done. }
  destruct a as [exhausted|]; [|by destruct (ends_budget n budget deadline rx2 t5 None rx3 H3 ltac:(lia))].
  apply budget_check_keeps in H3 as [Eb3 Ep3].
  apply exec_rbind in Hx as (t7 & t8 & a & rx4 & -> & H4 & Hx).
  assert (I4 : inv q0 budget scan rx4).
  { destruct exhausted; apply exec_ret in H4 as [_ [= _ ->]]; [|done]. destruct I3. by split. }
  apply turn_spends in H4 as (-> & -> & Ep4 & Eb4). cbn [app] in *.
  destruct (phase_eqb _ _) eqn:Ed; [by apply exec_ret in Hx as [_ [= -> _]]|].
  apply (IH rx4 t8 I4 Hx N6); [lia|]. rewrite Ep4, Ep3.
  assert (E : (phase_index (phase_at rx) <= 3)%Z) by (destruct (phase_at rx); done).
  destruct Hadv as [->|Hex]; [left|right; split; [lia|]; apply Eb4; by rewrite Eb3].
  assert (phase_index (next_phase (phase_at rx)) = phase_index (phase_at rx) + 1)%Z as ->; [|lia].
  destruct (phase_at rx); done.
Qed.
End Loop.

Section Passes.
Context `{Sha256} {T : Texts} {J : CursorJson} (n : nat).
Context (q0 : Queue) (budget : WorkBudget) (scan : RecoveryScanBudget).
Context (Hlayout : Layout_wf (layout q0)) (Hwork : (0 <= max_operations budget <= u32_max)%Z).

(** A step that ends from a context within its budgets. *)
Definition lasts {A : Type} (m : rop A) : Prop :=
  forall rx tr r rx', inv q0 budget scan rx -> exec (m rx) tr (r, rx') -> Forall named tr -> (served tr < n)%nat -> r <> None.
Lemma lasts_ends {A} (m : rop A) : ends n m -> lasts m.
Proof. intros Hm rx tr r rx' _ Hx _ Hs. by apply (Hm _ _ _ _ Hx). Qed.
Lemma lasts_then {A B} (m : rop A) (G : A -> Prop) (f : A -> rop B) :
  yields q0 budget scan 0 None m G -> ends n m -> (forall a, G a -> lasts (f a)) -> lasts (rbind m f).
Proof.
  intros Hy Hm Hf rx tr r rx' Hi (t1 & t2 & a & rx1 & -> & H1 & H2)%exec_rbind [N1 N2]%Forall_app Hs.
  rewrite served_app in Hs. destruct a as [a|]; [|by destruct (Hm rx t1 None rx1 H1 ltac:(lia))].
  destruct (Hy _ rx t1 (Some a) rx1 Hi eq_refl H1 N1) as ([Hi1 _ _ _] & _ & HG).
  apply (Hf a HG rx1 t2 r rx' Hi1 H2 N2). lia.
Qed.
Lemma lasts_bind {A B} (m : rop A) (f : A -> rop B) : lasts m -> (forall a, ends n (f a)) -> lasts (rbind m f).
Proof.
  intros Hm Hf rx tr r rx' Hi (t1 & t2 & a & rx1 & -> & H1 & H2)%exec_rbind [N1 N2]%Forall_app Hs.
  rewrite served_app in Hs. destruct a as [a|]; [|by destruct (Hm rx t1 None rx1 Hi H1 N1 ltac:(lia))].
  apply (Hf a rx1 t2 r rx' H2). lia.
Qed.

Lemma timed_lasts now floor : lasts (recover_timed n budget scan now floor).
Proof.
  unfold recover_timed. eapply (lasts_then _ (fun _ => True)); [apply still_call; auto with silent|apply ends_call|].
  intros [start|e] _; [|apply lasts_ends, ends_stats]. cbv zeta. apply lasts_bind; [|intros u; ending].
  intros rx tr r rx' Hi Hx Hn Hs. eapply (run_phases_end n q0 budget scan now floor Hlayout Hwork 5); try done.
  left. pose proof (phase_index_bound (phase_at rx)). destruct (phase_at rx); cbn; lia.
Qed.
Lemma ends_temporaries fuel s names tr : exec (cursor_temporaries fuel s names) tr None -> (fuel <= served tr)%nat.
Proof.
  revert s names tr. induction fuel as [|fuel IH]; intros s names tr Hx; [lia|]. cbn [cursor_temporaries] in Hx.
  apply exec_bind in Hx as (t1 & t2 & [o s'] & -> & H1 & H2). rewrite served_app.
  destruct o as [[[name|]|e]|]; try (by apply exec_ret in H2 as [_ ?]).
  - apply next_entry_served in H1. apply IH in H2. lia.
  - apply next_entry_spends in H1. lia.
Qed.
Lemma ends_remove_temporaries fd names : ends n (remove_cursor_temporaries fd names).
Proof. induction names as [|name names IH]; cbn [remove_cursor_temporaries]; ending; apply ends_unlink_failure. Qed.
Lemma ends_sweep : ends n (sweep_cursor_temporary_files n).
Proof.
  unfold sweep_cursor_temporary_files. ending; [|apply ends_remove_temporaries]. apply ends_fuel. intros tr Hx.
  apply exec_bind in Hx as (t1 & t2 & o & -> & H1 & Hx). apply exec_bind in H1 as (t3 & t4 & b & -> & _ & [-> ->]%exec_ret).
  destruct b as [fd|e]; [|by apply exec_ret in Hx as [_ ?]].
  apply exec_bind in Hx as (t5 & t6 & o & -> & H1 & Hx). apply exec_bind in H1 as (t7 & t8 & b & -> & _ & [-> ->]%exec_ret).
  destruct b as [s|e]; [|by apply exec_ret in Hx as [_ ?]].
  apply exec_bind in Hx as (t9 & t10 & o & -> & H1 & Hx).
  destruct o as [[names|e]|]; try (by apply exec_ret in Hx as [_ ?]). apply ends_temporaries in H1.
  rewrite !served_app. lia.
Qed.
Lemma phases_last now : lasts (recover_phases n budget scan now).
Proof.
  unfold recover_phases. eapply (lasts_then _ (fun _ => True)); [apply still_floor|apply ends_method|]. intros r _.
  eapply (lasts_then _ (fun _ => True)); [apply still_note; intros e; apply still_error|destruct r; ending|].
  intros _ _. apply timed_lasts.
Qed.
Lemma clocked_lasts (k : Z -> rop unit) (note : IoError -> rop unit) :
  (forall now, lasts (k now)) -> (forall e, ends n (note e)) ->
  lasts (let~ now := rcall clock_boottime_ns in match now with Err e => note e | Ok now => k now end).
Proof.
  intros Hk Hn. eapply (lasts_then _ (fun _ => True)); [apply still_call; auto with silent|apply ends_call|].
  intros [now|e] _; [apply Hk|by apply lasts_ends].
Qed.
Lemma lasts_cursor {A} cursor (m : rop A) :
  cursor_is_valid cursor = true -> lasts m -> lasts (let~ _ := rcursor (fun _ => cursor) in m).
Proof.
  intros Hc Hm rx tr r rx' Hi (t1 & t2 & a & rx1 & -> & H1 & H2)%exec_rbind [N1 N2]%Forall_app Hs.
  apply exec_bind in H1 as (t3 & t4 & x & -> & [-> ->]%exec_ret & [-> [= -> ->]]%exec_ret). cbn [app fst snd] in *.
  eapply Hm; [|exact H2|done..]. destruct Hi. by split.
Qed.
Lemma pass_lasts : lasts (recover_pass n budget scan).
Proof.
  unfold recover_pass. destruct (RecoveryScanBudget_validate scan) as [u|e]; [|apply lasts_ends; ending].
  eapply (lasts_then _ (fun _ => True)); [apply still_queue|apply ends_get|]. intros root _.
  eapply (lasts_then _ (fun _ => True)); [apply still_call, silent_lock|apply ends_call|].
  intros [lock|e] _; [|apply lasts_ends, ends_stats].
  unfold recover_locked. eapply (lasts_then _ (fun _ => True)); [apply still_sweep|apply ends_sweep|]. intros _ _.
  eapply (lasts_then _ (fun _ => True)); [apply still_queue|apply ends_get|]. intros q _.
  eapply (lasts_then _ (fun r => forall c, r = Ok c -> cursor_is_valid c = true)); [|apply ends_call|].
  { apply yields_call; [apply silent_load|apply load_valid]. }
  intros [cursor|e] Hc; [|apply lasts_ends, ends_stats]. apply lasts_cursor; [by apply Hc|].
  apply clocked_lasts; [apply phases_last|]. intros e. apply ends_stats.
Qed.
End Passes.

(** C14: A recovery pass ends.  Every execution of [recover_with_scan_budget]
    during which the kernel serves fewer directory entries than the fuel
    returns a report: the loops over directories, the retries of failed
    directories and the loop over the phases all end by themselves. *)
Theorem recovery_ends `{Sha256} {T : Texts} {J : CursorJson} fuel budget scan q tr r q' :
  Layout_wf (layout q) -> (0 <= max_operations budget <= u32_max)%Z -> unsigned_budget scan ->
  cursor_is_valid (recovery_cursor q) = true ->
  exec (recover_with_scan_budget fuel budget scan q) tr (r, q') -> Forall named tr -> (served tr < fuel)%nat ->
  exists report, r = Some report.
Proof.
  intros HL Hw (Hs1 & Hs2 & Hs3) Hc (t1 & t2 & [r' rx'] & -> & H1 & [-> [= -> ->]]%exec_ret)%exec_bind Hn Hs.
  rewrite app_nil_r in *. destruct r' as [u|]; [by eexists|].
  exfalso. refine (pass_lasts fuel q budget scan HL Hw _ _ _ _ _ H1 Hn Hs eq_refl).
  split; [done|unfold ops; cbn; lia|unfold scan_within; cbn; lia|done].
Qed.

Lemma recovery_ends_witness :
  served sample_pass.1.1 = 3%nat /\ exists report, sample_pass.1.2.1 = Some report.
Proof.
  assert (Hs : served sample_pass.1.1 = 3%nat) by (vm_compute; reflexivity).
  pose proof sample_pass_exec as Hx. pose proof sample_pass_named as Hn. revert Hs Hx Hn.
  generalize sample_pass. intros [[tr [r q']] s]. cbn [fst snd]. intros Hs Hx Hn. split; [exact Hs|].
  apply (@recovery_ends checksum256 sample_texts sample_cursor_json 40 (mkWorkBudget 10 10)
    RecoveryScanBudget_default sample_queue tr r q' sample_pass_layout sample_work sample_scan sample_cursor_valid Hx Hn).
  rewrite Hs. repeat constructor.
Defined.
