(* ===== verification/Fsck.v ===== *)
(** * The integrity check

    Models the fsck of [crates/steadq-core/src/quarantine.rs]: the walk over the
    five state directories, the checks on one object in the order the code makes
    them, and the repair that moves a failing object into quarantine.

    A step threads the handle and the report and may run out of fuel, which
    bounds the entries read from a directory; the depth of the walk is fixed by
    the state. *)
From stdpp Require Import base numbers list option strings gmap.
From Stdlib Require Import Strings.Byte ZArith.
From S2P Require Import Prelude Math Names Format FsLinux FsRead FsDir StateMachine Ticket Layout Engine Logic Verified Queue Watermark Publish Consumer Quarantine Lease.
Open Scope string_scope.
Open Scope list_scope.

Inductive FsckMode : Type := FsckCheck | FsckRepair.
Inductive FsckDepth : Type := Structural | Deep.
Record FsckOptions : Type := mkFsckOptions { fo_mode : FsckMode; fo_depth : FsckDepth }.
Definition FsckOptions_default : FsckOptions := mkFsckOptions FsckCheck Structural.
#[global] Instance FsckMode_eq_dec : EqDecision FsckMode.
Proof. solve_decision. Defined.
#[global] Instance FsckDepth_eq_dec : EqDecision FsckDepth.
Proof. solve_decision. Defined.

Inductive FindingSeverity : Type := SevWarning | SevError.
Record CorruptionFinding : Type := mkCorruptionFinding {
  fi_relative_path : bytes; finding_type : string; fi_severity : FindingSeverity; fi_details : string }.
Record FsckReport : Type := mkFsckReport {
  total_objects : Z;
  structurally_verified : Z;
  payloads_deep_verified : Z;
  findings : list CorruptionFinding;
  quarantined_ids : list bytes
}.
Definition FsckReport_default : FsckReport := mkFsckReport 0 0 0 [] [].

Definition count_object (r : FsckReport) : FsckReport :=
  mkFsckReport (total_objects r + 1) (structurally_verified r) (payloads_deep_verified r) (findings r) (quarantined_ids r).
Definition count_verified (r : FsckReport) : FsckReport :=
  mkFsckReport (total_objects r) (structurally_verified r + 1) (payloads_deep_verified r) (findings r) (quarantined_ids r).
Definition count_deep (r : FsckReport) : FsckReport :=
  mkFsckReport (total_objects r) (structurally_verified r) (payloads_deep_verified r + 1) (findings r) (quarantined_ids r).
Definition push_finding (f : CorruptionFinding) (r : FsckReport) : FsckReport :=
  mkFsckReport (total_objects r) (structurally_verified r) (payloads_deep_verified r) (findings r ++ [f]) (quarantined_ids r).
Definition push_quarantined_id (id : bytes) (r : FsckReport) : FsckReport :=
  mkFsckReport (total_objects r) (structurally_verified r) (payloads_deep_verified r) (findings r) (quarantined_ids r ++ [id]).

(** ** Steps *)

Record FCtx : Type := mkFCtx { fx_ctx : Ctx; fx_report : FsckReport }.
Definition fop (A : Type) : Type := FCtx -> io (option A * FCtx).
Definition fret {A : Type} (a : A) : fop A := fun fx => Ret (Some a, fx).
Definition fbind {A B : Type} (m : fop A) (f : A -> fop B) : fop B :=
  fun fx => io_bind (m fx) (fun x => match x.1 with Some a => f a x.2 | None => Ret (None, x.2) end).
Notation "'let^' x ':=' m 'in' k" := (fbind m (fun x => k))
  (at level 10, x pattern, m at level 100, k at level 200,
   format "'[v' 'let^'  x  ':='  m  'in' '//' k ']'") : steadq_scope.
Definition fstop {A : Type} : fop A := fun fx => Ret (None, fx).
Definition fcall {A : Type} (p : io A) : fop A := fun fx => io_bind p (fun a => Ret (Some a, fx)).
Definition fmethod {A : Type} (m : op A) : fop A :=
  fun fx => io_bind (m (fx_ctx fx)) (fun x => Ret (Some x.1, mkFCtx x.2 (fx_report fx))).
Definition fqueue {A : Type} (f : Queue -> A) : fop A := fun fx => Ret (Some (f (handle (fx_ctx fx))), fx).
Definition freport (f : FsckReport -> FsckReport) : fop unit := fun fx => Ret (Some tt, mkFCtx (fx_ctx fx) (f (fx_report fx))).

Section Fsck.
Context `{Sha256} {T : Texts}.

Definition finding (path : bytes) (type : string) (severity : FindingSeverity) (details : string) : fop unit :=
  freport (push_finding (mkCorruptionFinding path type severity details)).
Definition error_finding (path : bytes) (type details : string) : fop unit := finding path type SevError details.

Definition fsck_protocol_name (parent entry : bytes) : fop (option bytes) :=
  match as_ascii_str entry with
  | None =>
      let raw_name := hex_encode entry in
      let^ _ := error_finding (parent ++ lit "/<bytes:" ++ raw_name ++ lit ">") "invalid_name_encoding"
        ("directory entry name is not ASCII; raw_name_hex=" +:+ bytes_text raw_name) in
      fret None
  | Some name => fret (Some name)
  end.
Definition fsck_scan_incomplete (path : bytes) (error : IoError) : fop unit :=
  error_finding path "directory_scan_incomplete" ("directory could not be scanned: " +:+ io_text error).

(** ** Repair *)

Definition quarantine_object (src_dir_fd : Z) (filename full_path : bytes) (reason : QuarantineReason)
  : fop (result unit QuarantinePublishFailure) :=
  let^ published := fmethod (publish_quarantine_object src_dir_fd filename reason) in
  match published with
  | Err failure => fret (Err failure)
  | Ok publication =>
      let^ _ := freport (push_quarantined_id (qp_quarantine_id publication)) in
      let^ _ := finding full_path "quarantined" SevWarning
        ("moved to quarantine id=" +:+ bytes_text (hex_encode (qp_quarantine_id publication)) +:+ " name="
           +:+ bytes_text (qp_quarantine_name publication)) in
      fret (Ok tt)
  end.

(** A repair that failed is recorded. *)
Definition or_record (full_path : bytes) (m : fop (result unit QuarantinePublishFailure)) : fop unit :=
  let^ r := m in
  match r with
  | Ok _ => fret tt
  | Err error => error_finding full_path "quarantine_failed" (QuarantinePublishFailure_fmt error)
  end.
Definition quarantine_object_or_record (src_dir_fd : Z) (filename full_path : bytes) (reason : QuarantineReason) : fop unit :=
  or_record full_path (quarantine_object src_dir_fd filename full_path reason).

Definition not_quarantined {A : Type} (phase : QuarantinePreparePhase) (source : IoError)
  : fop (result A QuarantinePublishFailure) := fret (Err (QfPreparation phase source 0)).
Definition quarantine_opened_object (src_dir_fd : Z) (filename full_path : bytes) (opened : Z) (reason : QuarantineReason)
  : fop (result unit QuarantinePublishFailure) :=
  let^ locked := fcall (try_ofd_write_lock opened) in
  match locked with
  | Err error => not_quarantined QpSourceLock error
  | Ok false => not_quarantined QpSourceLock (CustomError KOther "receipt is busy")
  | Ok true =>
      let^ opened_stat := fcall (fstat opened) in
      match opened_stat with
      | Err error => not_quarantined QpSourceIdentity error
      | Ok opened_stat =>
          let^ current_stat := fcall (fstatat src_dir_fd filename) in
          match current_stat with
          | Err error => not_quarantined QpSourceIdentity error
          | Ok current_stat =>
              if negb (receipt_path_identity_matches current_stat (st_dev opened_stat) (st_ino opened_stat))
              then not_quarantined QpSourceIdentity (CustomError KOther "receipt path no longer names the verified inode")
              else quarantine_object src_dir_fd filename full_path reason
          end
      end
  end.
Definition is_receipts (state_name : bytes) : bool := bool_decide (state_name = lit "receipts").
Definition repair_quarantine_candidate (state_name : bytes) (src_dir_fd : Z) (filename full_path : bytes)
    (reason : QuarantineReason) : fop unit :=
  or_record full_path (
    if is_receipts state_name then
      let^ opened := fcall (openat src_dir_fd filename receipt_write_open_flags 0) in
      match opened with
      | Ok opened => quarantine_opened_object src_dir_fd filename full_path opened reason
      | Err error => not_quarantined QpSourceIdentity error
      end
    else quarantine_object src_dir_fd filename full_path reason).

(** ** The name of an object *)

Definition fsck_parse (state_name filename : bytes) : option (CommonFields * bytes) :=
  let leased := match parse_leased filename with Ok p => Some (ln_common p, ln_tag p) | Err _ => None end in
  if bool_decide (state_name = lit "ready") then
    match parse_ready filename with Ok p => Some (rn_common p, rn_tag p) | Err _ => leased end
  else if bool_decide (state_name = lit "leased") then leased
  else if bool_decide (state_name = lit "delayed") then
    match parse_delayed filename with Ok p => Some (dn_common p, dn_tag p) | Err _ => None end
  else if bool_decide (state_name = lit "dead") then
    match parse_dead filename with Ok p => Some (xn_common p, xn_tag p) | Err _ => None end
  else if is_receipts state_name then
    match parse_receipt filename with Ok p => Some (tn_common p, tn_tag p) | Err _ => None end
  else None.

Definition fsck_verify_name_tag (q : Queue) (state_name : bytes) (path_parts : list bytes) (common : CommonFields)
    (parsed_tag : bytes) : bool :=
  let queue_id := queue_id q in
  if bool_decide (state_name = lit "ready") then
    match path_parts with
    | [_; shard_hex; filename] =>
        match parse_leased filename with
        | Ok parsed =>
            match lease_bucket (ln_boottime_deadline_ns parsed) (fr_lease_bucket_width_ns (format (config q))) with
            | None => false
            | Some bucket =>
                LeasedName_authenticate_tag parsed queue_id (format_boot_id (ln_boot_id parsed)) (bucket_hex bucket) shard_hex
            end
        | Err _ => ReadyName_authenticate_tag (mkReadyName common parsed_tag) queue_id shard_hex
        end
    | _ => false
    end
  else if bool_decide (state_name = lit "leased") then
    match path_parts with
    | [_; boot; bucket; shard_hex; filename] =>
        match parse_leased filename with
        | Ok p => LeasedName_authenticate_tag p queue_id boot bucket shard_hex
        | Err _ => false
        end
    | _ => false
    end
  else
    match path_parts with
    | [_; bucket; shard_hex; filename] =>
        if bool_decide (state_name = lit "delayed") then
          match parse_delayed filename with Ok p => DelayedName_authenticate_tag p queue_id bucket shard_hex | Err _ => false end
        else if bool_decide (state_name = lit "dead") then
          match parse_dead filename with Ok p => DeadName_authenticate_tag p queue_id bucket shard_hex | Err _ => false end
        else if is_receipts state_name then
          match parse_receipt filename with Ok p => ReceiptName_authenticate_tag p queue_id bucket shard_hex | Err _ => false end
        else false
    | _ => false
    end.

Definition fsck_extract_shard_hex (state_name : bytes) (path_parts : list bytes) : option bytes :=
  if bool_decide (state_name = lit "ready") && (length path_parts =? 3)%nat then path_parts !! 1%nat
  else if bool_decide (state_name = lit "leased") && (length path_parts =? 5)%nat then path_parts !! 3%nat
  else if (bool_decide (state_name = lit "delayed") || bool_decide (state_name = lit "dead") || is_receipts state_name)
          && (length path_parts =? 4)%nat then path_parts !! 2%nat
  else None.

(** ** One object *)

(** [if opts.mode == Repair { .. }] *)
Definition on_repair (opts : FsckOptions) (repair : fop unit) : fop unit :=
  if bool_decide (fo_mode opts = FsckRepair) then repair else fret tt.
(** A finding, followed by the repair it calls for. *)
Definition reject (opts : FsckOptions) (full_path : bytes) (type : string) (severity : FindingSeverity) (details : string)
    (repair : fop unit) : fop unit :=
  let^ _ := finding full_path type severity details in on_repair opts repair.

Definition receipt_verdict (q : Queue) (file_fd : Z) (full_path filename : bytes)
  : io (result VerifiedReceipt VerificationError) :=
  match split_slash full_path with
  | [state; bucket; shard; _] =>
      if is_receipts state then
        verify_receipt_on_fd file_fd
          (mkReceiptContext (queue_id q) (shard_count q) (fr_terminal_bucket_width_ns (format (config q)))
             (fr_max_payload_length (format (config q))) bucket shard filename) None
      else Ret (Err (VerifyCorrupt "receipt path has invalid depth"))
  | _ => Ret (Err (VerifyCorrupt "receipt path has invalid depth"))
  end.
(** [error.to_string()] *)
Definition verification_text (e : VerificationError) : string :=
  match e with
  | VerifyIo s => "I/O: " +:+ s
  | VerifyCorrupt s => "corrupt: " +:+ s
  | VerifyPayloadCorrupt => "payload corrupt"
  end.
Definition fsck_receipt (q : Queue) (opts : FsckOptions) (shard_fd file_fd : Z) (full_path filename : bytes) : fop unit :=
  let^ receipt_result := fcall (receipt_verdict q file_fd full_path filename) in
  match receipt_result with
  | Ok receipt =>
      let^ _ := freport count_verified in
      match vr_kind receipt with
      | ReceiptFull _ => freport count_deep
      | ReceiptCompact => fret tt
      end
  | Err error =>
      let reason := match error with VerifyPayloadCorrupt => QPayloadCorrupt | _ => QEnvelopeCorrupt end in
      reject opts full_path "receipt_verification_failed" SevError (verification_text error)
        (or_record full_path (quarantine_opened_object shard_fd filename full_path file_fd reason))
  end.

(** Deep verification of the payload of a verified object. *)
Definition fsck_payload (opts : FsckOptions) (shard_fd file_fd : Z) (full_path filename : bytes) (header : FixedHeader)
    (ext_len : Z) : fop unit :=
  let^ r := fcall (verify_payload file_fd header ext_len) in
  match r with
  | Ok _ => freport count_deep
  | Err VerifyPayloadCorrupt =>
      reject opts full_path "payload_digest_mismatch" SevError "payload digest does not match header"
        (quarantine_object_or_record shard_fd filename full_path QPayloadCorrupt)
  | Err error =>
      error_finding full_path "payload_read_failed" ("cannot read payload for deep verification: " +:+ verification_text error)
  end.

(** The name tag and the shard on the path, then the payload. *)
Definition fsck_placement (q : Queue) (opts : FsckOptions) (shard_fd file_fd : Z) (state_name full_path filename : bytes)
    (common : CommonFields) (parsed_tag : bytes) (header : FixedHeader) (ext_len : Z) : fop unit :=
  let path_parts := split_slash full_path in
  let fails type details :=
    reject opts full_path type SevError details (quarantine_object_or_record shard_fd filename full_path QFilenameTagFailed) in
  if negb (fsck_verify_name_tag q state_name path_parts common parsed_tag)
  then fails "name_tag_mismatch" "name tag does not match computed tag for this context"
  else
    let computed_shard := compute_shard (queue_id q) (cf_job_id common) (shard_count q) in
    let misplaced :=
      match fsck_extract_shard_hex state_name path_parts with
      | Some shard_hex =>
          match shard_from_hex shard_hex with
          | Some path_shard => if (path_shard =? computed_shard)%Z then None else Some path_shard
          | None => None
          end
      | None => None
      end in
    match misplaced with
    | Some path_shard =>
        fails "shard_placement_mismatch" ("shard " +:+ number_text path_shard +:+ " in path does not match computed shard "
          +:+ number_text computed_shard)
    | None =>
        let^ _ := freport count_verified in
        if bool_decide (fo_depth opts = Deep) && negb (is_receipts state_name)
        then fsck_payload opts shard_fd file_fd full_path filename header ext_len
        else fret tt
    end.

(** The extension, the digest, the size and the payload limit. *)
Definition fsck_envelope (q : Queue) (opts : FsckOptions) (shard_fd file_fd : Z) (state_name full_path filename : bytes)
    (common : CommonFields) (parsed_tag : bytes) (stat : Stat) (header : FixedHeader) : fop unit :=
  let fails type details :=
    reject opts full_path type SevError details (quarantine_object_or_record shard_fd filename full_path QEnvelopeCorrupt) in
  let ext_len := fh_extension_header_length header in
  if (65536 <? ext_len)%Z
  then fails "extension_too_large" ("extension header length " +:+ number_text ext_len +:+ " exceeds 65536")
  else
    let^ ext_buf :=
      (if (0 <? ext_len)%Z then fcall (pread_exact file_fd (Z.to_nat ext_len) 128) else fret (Ok (zeros (Z.to_nat ext_len)))) in
    match ext_buf with
    | Err _ => fails "extension_read_failed" "cannot read extension header"
    | Ok ext_buf =>
        if negb (verify_envelope_digest header ext_buf)
        then fails "envelope_digest_mismatch" "envelope digest does not match header"
        else if (st_size stat <? 0)%Z
        then error_finding full_path "negative_file_size" ("negative file size: " +:+ number_text (st_size stat))
        else
          let expected_size := default u64_max (u64_checked_add 128 ext_len ≫= fun s => u64_checked_add s (fh_payload_length header)) in
          if negb (st_size stat =? expected_size)%Z
          then fails "file_size_mismatch" ("size mismatch: expected " +:+ number_text expected_size +:+ ", got "
                 +:+ number_text (st_size stat))
          else if (fr_max_payload_length (format (config q)) <? fh_payload_length header)%Z
          then fails "payload_exceeds_limit" ("payload length " +:+ number_text (fh_payload_length header)
                 +:+ " exceeds queue limit " +:+ number_text (fr_max_payload_length (format (config q))))
          else fsck_placement q opts shard_fd file_fd state_name full_path filename common parsed_tag header ext_len
    end.

(** The header of a job against its name. *)
Definition fsck_header (q : Queue) (opts : FsckOptions) (shard_fd file_fd : Z) (state_name full_path filename : bytes)
    (common : CommonFields) (parsed_tag : bytes) (stat : Stat) : fop unit :=
  let repair reason := quarantine_object_or_record shard_fd filename full_path reason in
  let^ opened := fcall (fstat file_fd) in
  if match opened with Ok st => (st_size st =? 0)%Z | Err _ => false end
  then reject opts full_path "zero_length_publication_residue" SevWarning "name published without durable content"
         (repair QEnvelopeCorrupt)
  else
    let^ header_buf := fcall (pread_exact file_fd 128 0) in
    match header_buf with
    | Err read_error =>
        let^ size := fcall (fstat file_fd) in
        let file_size := match size with Ok st => number_text (st_size st) | Err e => "fstat error " +:+ io_text e end in
        reject opts full_path "header_read_failed" SevError
          ("cannot read 128-byte header: size=" +:+ file_size +:+ ", error=" +:+ io_text read_error) (repair QEnvelopeCorrupt)
    | Ok header_buf =>
        match FixedHeader_decode header_buf with
        | Err e => reject opts full_path "header_decode_failed" SevError ("header decode error: " +:+ header_text e) (repair QEnvelopeCorrupt)
        | Ok header =>
            if negb (bool_decide (fh_job_id header = cf_job_id common))
            then reject opts full_path "header_job_id_mismatch" SevError "header job_id does not match filename"
                   (repair QFilenameHeaderMismatch)
            else if negb (fh_maximum_attempts header =? cf_maximum_attempts common)%Z
            then reject opts full_path "header_max_attempts_mismatch" SevError
                   "header maximum_attempts does not match filename" (repair QFilenameHeaderMismatch)
            else fsck_envelope q opts shard_fd file_fd state_name full_path filename common parsed_tag stat header
        end
    end.

Definition fsck_file (shard_fd : Z) (state_name full_path filename : bytes) (opts : FsckOptions) : fop unit :=
  let^ q := fqueue id in
  let candidate reason := repair_quarantine_candidate state_name shard_fd filename full_path reason in
  match fsck_parse state_name filename with
  | None =>
      reject opts full_path "filename_parse_failed" SevError
        ("filename does not match " +:+ bytes_text state_name +:+ " state grammar") (candidate QFilenameParseFailed)
  | Some (common, parsed_tag) =>
      let^ stat := fcall (fstatat shard_fd filename) in
      match stat with
      | Err error =>
          if bool_decide (kind error = KNotFound) then fret tt
          else error_finding full_path "stat_failed" ("cannot stat file: " +:+ io_text error)
      | Ok stat =>
          if negb (is_regular stat)
          then reject opts full_path "non_regular_file" SevError "file is not a regular file" (candidate QNonRegularFile)
          else if negb (st_nlink stat =? 1)%Z
          then reject opts full_path "unexpected_hard_link" SevError
                 ("link count is " +:+ number_text (st_nlink stat) +:+ " (expected 1)") (candidate QUnexpectedHardLink)
          else
            let open_flags :=
              if is_receipts state_name && bool_decide (fo_mode opts = FsckRepair) then receipt_write_open_flags
              else receipt_read_open_flags in
            let^ file_fd := fcall (openat shard_fd filename open_flags 0) in
            match file_fd with
            | Err error =>
                if bool_decide (kind error = KNotFound) then fret tt
                else error_finding full_path "open_failed" ("cannot open file for reading: " +:+ io_text error)
            | Ok file_fd =>
                if is_receipts state_name then fsck_receipt q opts shard_fd file_fd full_path filename
                else fsck_header q opts shard_fd file_fd state_name full_path filename common parsed_tag stat
            end
      end
  end.

(** ** The walk *)

Definition is_object_name (name : bytes) : bool := ends_with (lit ".sqj") name || ends_with (lit ".rct") name.
Definition S_IFDIR : Z := 16384.
Definition is_directory (st : Stat) : bool := (Z.land (st_mode st) S_IFMT =? S_IFDIR)%Z.

Definition check_object (dir_fd : Z) (state_name path name : bytes) (opts : FsckOptions) : fop unit :=
  let^ _ := freport count_object in fsck_file dir_fd state_name path name opts.
(** An entry of a shard directory. *)
Definition fsck_leaf (dir_fd : Z) (state_name parent_path : bytes) (opts : FsckOptions) (name : bytes) : fop unit :=
  let path := parent_path ++ lit "/" ++ name in
  if is_object_name name then check_object dir_fd state_name path name opts
  else
    let^ stat := fcall (fstatat dir_fd name) in
    match stat with
    | Ok stat =>
        if is_directory stat
        then fsck_scan_incomplete path (CustomError KOther "unexpected directory below shard level")
        else finding path "unexpected_entry" SevWarning ("unrecognized file in shard directory: " +:+ bytes_text name)
    | Err error => if bool_decide (kind error = KNotFound) then fret tt else fsck_scan_incomplete path error
    end.
(** An entry of a level above, where [descend] walks a child directory. *)
Definition fsck_branch (descend : Z -> bytes -> fop unit) (dir_fd : Z) (state_name parent_path : bytes) (opts : FsckOptions)
    (name : bytes) : fop unit :=
  let path := parent_path ++ lit "/" ++ name in
  let^ child := fcall (open_directory dir_fd name) in
  match child with
  | Ok child_fd => descend child_fd path
  | Err error =>
      if os_error_in [ENOTDIR] error then
        if is_object_name name then check_object dir_fd state_name path name opts
        else finding path "unexpected_entry" SevWarning ("unrecognized entry in state directory: " +:+ bytes_text name)
      else if bool_decide (kind error = KNotFound) then fret tt
      else fsck_scan_incomplete path error
  end.
Fixpoint fsck_entries (fuel : nat) (s : DirectoryStream) (parent_path : bytes) (visit : bytes -> fop unit) : fop unit :=
  match fuel with
  | O => fstop
  | S fuel' =>
      let^ (entry, s) := fcall (next_entry fuel s) in
      match entry with
      | None => fstop
      | Some (Err error) => fsck_scan_incomplete parent_path error
      | Some (Ok None) => fret tt
      | Some (Ok (Some raw_entry)) =>
          let^ name := fsck_protocol_name parent_path raw_entry in
          let^ _ := match name with Some name => visit name | None => fret tt end in
          fsck_entries fuel' s parent_path visit
      end
  end.
Fixpoint fsck_walk (fuel : nat) (depth : nat) (state_name : bytes) (opts : FsckOptions) (dir_fd : Z) (parent_path : bytes) : fop unit :=
  let^ entries := fcall (DirectoryStream_open dir_fd) in
  match entries with
  | Err error => fsck_scan_incomplete parent_path error
  | Ok entries =>
      fsck_entries fuel entries parent_path
        (match depth with
         | O => fsck_leaf dir_fd state_name parent_path opts
         | S depth' => fsck_branch (fsck_walk fuel depth' state_name opts) dir_fd state_name parent_path opts
         end)
  end.

Definition fsck_depth (state_name : bytes) : nat :=
  if bool_decide (state_name = lit "ready") then 1 else if bool_decide (state_name = lit "leased") then 3 else 2.
Definition fsck_state_dir (fuel : nat) (opts : FsckOptions) (state_name : bytes) : fop unit :=
  let^ root := fqueue (fun q => root_fd (config q)) in
  let^ state_fd := fcall (open_directory root state_name) in
  match state_fd with
  | Err error => fsck_scan_incomplete state_name error
  | Ok state_fd => fsck_walk fuel (fsck_depth state_name) state_name opts state_fd state_name
  end.
Definition fsck_states : list bytes := [lit "ready"; lit "leased"; lit "delayed"; lit "dead"; lit "receipts"].
Fixpoint fsck_all (fuel : nat) (opts : FsckOptions) (states : list bytes) : fop unit :=
  match states with
  | [] => fret tt
  | state_name :: states => let^ _ := fsck_state_dir fuel opts state_name in fsck_all fuel opts states
  end.
Definition fsck (fuel : nat) (opts : FsckOptions) (q : Queue) : io (option FsckReport * Queue) :=
  let! (r, fx) := fsck_all fuel opts fsck_states (mkFCtx (mkCtx q None) FsckReport_default) in
  Ret (match r with Some _ => Some (fx_report fx) | None => None end, handle (fx_ctx fx)).

End Fsck.
