(* ===== verification/Integrity.v ===== *)
(** * What the integrity check guarantees

    Theorems on [Fsck]: the check mode moves nothing and the repair mode moves
    objects into quarantine only, every move recorded; the counters of the
    report add up; the object checks accept exactly sound objects; and the walk
    ends. *)
From stdpp Require Import base numbers list option strings gmap.
From Stdlib Require Import Strings.Byte ZArith.
From S2P Require Import Prelude Math Names Format FsLinux FsRead FsDir StateMachine Ticket Layout Engine Logic Verified Queue Watermark Publish Consumer Quarantine Lease Inspect Recovery Phases Cursor Maintenance Pass Ends Fsck.
Open Scope string_scope.
Open Scope list_scope.

(** ** Executions of steps *)

Lemma exec_fbind {A B} (m : fop A) (f : A -> fop B) fx tr r fx' :
  exec (fbind m f fx) tr (r, fx') ->
  exists t1 t2 r1 fx1, tr = t1 ++ t2 /\ exec (m fx) t1 (r1, fx1) /\
    match r1 with Some a => exec (f a fx1) t2 (r, fx') | None => t2 = [] /\ r = None /\ fx' = fx1 end.
Proof.
  intros (t1 & t2 & [r1 fx1] & -> & H1 & H2)%exec_bind. exists t1, t2, r1, fx1. split; [done|]. split; [done|].
  destruct r1; [done|]. by apply exec_ret in H2 as [-> [= -> ->]].
Qed.
Lemma exec_fcall {A} (p : io A) fx tr r fx' :
  exec (fcall p fx) tr (r, fx') -> exists a, exec p tr a /\ r = Some a /\ fx' = fx.
Proof. intros (t1 & t2 & a & -> & H1 & [-> [= -> ->]]%exec_ret)%exec_bind. rewrite app_nil_r. by exists a. Qed.
Lemma exec_fmethod {A} (m : op A) fx tr r fx' :
  exec (fmethod m fx) tr (r, fx') -> exists a cx, exec (m (fx_ctx fx)) tr (a, cx) /\ r = Some a /\ fx' = mkFCtx cx (fx_report fx).
Proof. intros (t1 & t2 & [a cx] & -> & H1 & [-> [= -> ->]]%exec_ret)%exec_bind. rewrite app_nil_r. by exists a, cx. Qed.

(** ** Moves *)

Definition is_type (type : string) (f : CorruptionFinding) : bool := (finding_type f =? type)%string.
(** The findings that record a repair, done or failed. *)
Definition is_repair (f : CorruptionFinding) : bool := is_type "quarantined" f || is_type "quarantine_failed" f.
Definition tally_of (p : CorruptionFinding -> bool) (fs : list CorruptionFinding) : nat := length (List.filter p fs).
Lemma tally_of_app p fs gs : tally_of p (fs ++ gs) = (tally_of p fs + tally_of p gs)%nat.
Proof. unfold tally_of. by rewrite List.filter_app, length_app. Qed.

Lemma tally_of_one p f : tally_of p [f] = if p f then 1%nat else 0%nat.
Proof. unfold tally_of. cbn [List.filter]. by destruct (p f). Qed.
Lemma tally_of_nil p : tally_of p [] = 0%nat.
Proof. done. Qed.

(** A rename into quarantine. *)
Definition sets_aside (c : Syscall) : Prop :=
  match c with SysRenameat2 _ _ _ name _ => quarantines name | _ => False end.

(** What a stretch of the check did: the findings it added, the objects it
    quarantined and the moves it made. *)
Record fsck_moved (opts : FsckOptions) (fx : FCtx) (tr : list event) (fx' : FCtx) : Prop := {
  fm_evolves : evolves (fx_ctx fx) (fx_ctx fx');
  fm_grows : exists fs ids,
    findings (fx_report fx') = findings (fx_report fx) ++ fs /\
    quarantined_ids (fx_report fx') = quarantined_ids (fx_report fx) ++ ids /\
    tally_of (is_type "quarantined") fs = length ids /\
    (length ids <= tally places tr <= tally_of is_repair fs)%nat /\
    (fo_mode opts = FsckCheck -> tally_of is_repair fs = 0%nat);
  fm_aside : Forall (fun ev => placed ev = true -> sets_aside ev.1) tr
}.
Section Moves.
Context `{Sha256} {T : Texts} (opts : FsckOptions).

Lemma moved_refl fx : fsck_moved opts fx [] fx.
Proof.
  split; [done| |constructor]. exists [], []. rewrite !app_nil_r. unfold tally_of, tally. cbn. repeat split; lia.
Qed.
Lemma moved_trans fx1 t1 fx2 t2 fx3 : fsck_moved opts fx1 t1 fx2 -> fsck_moved opts fx2 t2 fx3 -> fsck_moved opts fx1 (t1 ++ t2) fx3.
Proof.
  intros [E1 (fs1 & ids1 & F1 & Q1 & L1 & T1 & C1) A1] [E2 (fs2 & ids2 & F2 & Q2 & L2 & T2 & C2) A2].
  split; [by etrans| |by apply Forall_app]. exists (fs1 ++ fs2), (ids1 ++ ids2).
  rewrite F2, F1, Q2, Q1, !app_assoc, !tally_of_app, tally_app, !length_app.
  split; [done|]. split; [done|]. split; [lia|]. split; [lia|]. intros Hm. rewrite C1, C2 by done. lia.
Qed.
(** Every execution of the step is such a stretch. *)
Definition moving {A : Type} (m : fop A) : Prop := forall fx tr r fx', exec (m fx) tr (r, fx') -> fsck_moved opts fx tr fx'.

Lemma moving_ret {A} (a : A) : moving (fret a).
Proof. intros fx tr r fx' [-> [= -> ->]]%exec_ret. apply moved_refl. Qed.
Lemma moving_stop {A} : moving (@fstop A).
Proof. intros fx tr r fx' [-> [= -> ->]]%exec_ret. apply moved_refl. Qed.
Lemma moving_queue {A} (f : Queue -> A) : moving (fqueue f).
Proof. intros fx tr r fx' [-> [= -> ->]]%exec_ret. apply moved_refl. Qed.
Lemma moving_bind {A B} (m : fop A) (f : A -> fop B) : moving m -> (forall a, moving (f a)) -> moving (fbind m f).
Proof.
  intros Hm Hf fx tr r fx' (t1 & t2 & r1 & fx1 & -> & H1%Hm & H2)%exec_fbind. destruct r1 as [a|].
  - eapply moved_trans; [exact H1|by eapply Hf].
  - destruct H2 as (-> & _ & ->). by rewrite app_nil_r.
Qed.
Lemma moving_call {A} (p : io A) : silent places p -> moving (fcall p).
Proof.
  intros Hp fx tr r fx' (a & Hx & _ & ->)%exec_fcall. pose proof (Hp _ _ Hx) as Ht. split; [done| |by apply none_placed].
  exists [], []. rewrite !app_nil_r, Ht. unfold tally_of. cbn. repeat split; lia.
Qed.
Lemma moving_report f :
  (forall r, findings (f r) = findings r /\ quarantined_ids (f r) = quarantined_ids r) -> moving (freport f).
Proof.
  intros Hf fx tr r fx' [-> [= -> ->]]%exec_ret. split; [done| |constructor]. exists [], []. cbn.
  destruct (Hf (fx_report fx)) as [-> ->]. rewrite !app_nil_r. unfold tally_of, tally. cbn. repeat split; lia.
Qed.
Lemma moving_finding path type severity details : negb (is_repair (mkCorruptionFinding path type severity details)) = true -> moving (finding path type severity details).
Proof.
  intros Ht%negb_true_iff fx tr r fx' [-> [= -> ->]]%exec_ret. split; [done| |constructor].
  eexists [_], []. split; [done|]. split; [by rewrite app_nil_r|]. rewrite !tally_of_one, Ht.
  unfold is_repair in Ht. apply orb_false_iff in Ht as [-> _]. unfold tally. cbn. lia.
Qed.

(** *** The repair *)

Lemma publication_moves d f reason cx tr r cx' :
  exec (publish_quarantine_object d f reason cx) tr (r, cx') ->
  evolves cx cx' /\ tally places tr = (if quarantined_as r is Some _ then 1 else 0)%nat /\
  Forall (fun ev => placed ev = true -> sets_aside ev.1) tr.
Proof.
  intros Hx.
  assert (Hs : forall sel, Placing sel -> silent sel random_128bit) by (intros; auto with silent).
  pose proof (fun sel (Hp : Placing sel) => publish_quarantine_places (sel := sel) d f reason QUARANTINE_NAME_ATTEMPTS random_128bit cx
    ltac:(done) (Hs _ _) tr _ Hx) as Hall.
  destruct (Hall places _) as ([qd Hn] & Hw & He). cbn [fst snd] in *. split; [done|]. split; [exact Hn|].
  destruct (quarantined_as r) as [name|] eqn:E; [|by apply none_placed].
  eapply Forall_impl; [apply (placed_only (is_rename f name))|].
  - destruct (Hall (fun c => places c && negb (is_rename f name c)) _) as ([qd' ->] & _). cbn.
    by rewrite !bool_decide_true.
  - intros [c a] Hr Hp. specialize (Hr Hp). destruct c; try done. cbn in *. apply andb_true_iff in Hr as [_ Hr].
    apply bool_decide_eq_true in Hr as ->. by eapply quarantined_name.
Qed.
(** A repair moves the object it reports as moved, and at most one otherwise. *)
Definition setting_aside (m : fop (result unit QuarantinePublishFailure)) : Prop :=
  forall fx tr r fx', exec (m fx) tr (r, fx') ->
    evolves (fx_ctx fx) (fx_ctx fx') /\ Forall (fun ev => placed ev = true -> sets_aside ev.1) tr /\
       match r with
       | Some (Ok _) => tally places tr = 1%nat /\ exists id f, is_type "quarantined" f = true /\
           findings (fx_report fx') = findings (fx_report fx) ++ [f] /\
           quarantined_ids (fx_report fx') = quarantined_ids (fx_report fx) ++ [id]
       | _ => (tally places tr <= (if r is Some _ then 1 else 0))%nat /\ fx_report fx' = fx_report fx
       end.
Lemma moving_repair full_path m : fo_mode opts = FsckRepair -> setting_aside m -> moving (or_record full_path m).
Proof.
  intros Hm Hr fx tr r fx' (t1 & t2 & r1 & fx1 & -> & H1%Hr & H2)%exec_fbind.
  destruct H1 as (He & Ha & H1). destruct r1 as [[u|e]|].
  - apply exec_ret in H2 as [-> [= -> ->]]. rewrite app_nil_r. destruct H1 as (Ht & id & f & Hf & F & Q).
    split; [done| |done]. exists [f], [id]. rewrite Ht, !tally_of_one, Hf. unfold is_repair. rewrite Hf, Hm. cbn.
    repeat split; try done; lia.
  - apply exec_ret in H2 as [-> [= -> ->]]. rewrite app_nil_r. destruct H1 as [Ht E]. split; [done| |done].
    eexists [_], []. rewrite !tally_of_one, Hm. cbn. rewrite E, app_nil_r. repeat split; try done; lia.
  - destruct H2 as (-> & _ & ->). rewrite app_nil_r. destruct H1 as [Ht E]. split; [done| |done].
    exists [], []. rewrite E, !app_nil_r, !tally_of_nil. cbn. repeat split; lia.
Qed.

Lemma quarantine_object_moves d filename full_path reason : setting_aside (quarantine_object d filename full_path reason).
Proof.
  intros fx tr r fx' (t1 & t2 & r1 & fx1 & -> & (a & cx & (He & Ht & Ha)%publication_moves & -> & ->)%exec_fmethod & H2)%exec_fbind.
  destruct a as [p|e].
  - apply exec_ret in H2 as [-> [= -> ->]]. rewrite app_nil_r. split; [done|]. split; [done|]. split; [exact Ht|].
    eexists _, _. cbn. split; [|done]. done.
  - apply exec_ret in H2 as [-> [= -> ->]]. rewrite app_nil_r. split; [done|]. split; [done|]. split; [|done].
    rewrite Ht. by case_match; [|lia].
Qed.
Lemma aside_refused phase error : setting_aside (@not_quarantined unit phase error).
Proof. intros fx tr r fx' [-> [= -> ->]]%exec_ret. split; [done|]. split; [constructor|]. unfold tally. cbn. split; [lia|done]. Qed.
Lemma aside_after {A} (p : io A) f : silent places p -> (forall a, setting_aside (f a)) -> setting_aside (fbind (fcall p) f).
Proof.
  intros Hp Hf fx tr r fx' (t1 & t2 & r1 & fx1 & -> & (a & Hx & -> & ->)%exec_fcall & H2)%exec_fbind.
  apply Hf in H2 as (He & Ha & Hr). pose proof (Hp _ _ Hx) as Ht. split; [done|].
  split; [apply Forall_app; split; [by apply none_placed|done]|]. by rewrite tally_app, Ht.
Qed.
Lemma opened_object_moves d filename full_path opened reason : setting_aside (quarantine_opened_object d filename full_path opened reason).
Proof.
  apply aside_after; [auto with silent|]. intros [[]|e]; [|by apply aside_refused..].
  apply aside_after; [auto with silent|]. intros [st|e]; [|by apply aside_refused].
  apply aside_after; [auto with silent|]. intros [st'|e]; [|by apply aside_refused].
  case_match; [by apply aside_refused|apply quarantine_object_moves].
Qed.
Lemma candidate_moves state d filename full_path reason :
  fo_mode opts = FsckRepair -> moving (repair_quarantine_candidate state d filename full_path reason).
Proof.
  intros Hm. apply moving_repair; [done|]. case_match; [|apply quarantine_object_moves].
  apply aside_after; [auto with silent|]. intros [fd|e]; [apply opened_object_moves|by apply aside_refused].
Qed.
Lemma moving_reject full_path type severity details repair :
  negb (is_repair (mkCorruptionFinding full_path type severity details)) = true ->
  (fo_mode opts = FsckRepair -> moving repair) -> moving (reject opts full_path type severity details repair).
Proof.
  intros Ht Hr. apply moving_bind; [by apply moving_finding|]. intros _. unfold on_repair.
  case_bool_decide; [by apply Hr|apply moving_ret].
Qed.
Lemma or_record_moves d filename full_path reason :
  fo_mode opts = FsckRepair -> moving (quarantine_object_or_record d filename full_path reason).
Proof. intros Hm. apply moving_repair; [done|apply quarantine_object_moves]. Qed.

(** *** The walk *)

Lemma silent_receipt_verdict q fd full_path filename : silent places (receipt_verdict q fd full_path filename).
Proof. unfold receipt_verdict. repeat case_match; first [apply silent_verify_receipt|apply silent_ret]. Qed.

Create HintDb moving.
Ltac fmoves :=
  cbv zeta;
  repeat first
    [ solve [auto with moving]
    | apply moving_ret | apply moving_stop | apply moving_queue
    | apply moving_reject; [done|intros ?; first [by apply or_record_moves|by apply candidate_moves|by apply moving_repair; [|apply opened_object_moves]]]
    | by apply moving_finding | by apply moving_report
    | apply moving_call; first [apply silent_receipt_verdict|apply silent_verify_payload|by auto with silent]
    | apply moving_bind; [|intros ?]
    | case_match ].

Lemma moving_receipt q d fd full_path filename : moving (fsck_receipt q opts d fd full_path filename).
Proof. unfold fsck_receipt. fmoves. Qed.
Lemma moving_payload d fd full_path filename h e : moving (fsck_payload opts d fd full_path filename h e).
Proof. unfold fsck_payload. fmoves. Qed.
#[local] Hint Resolve moving_receipt moving_payload : moving.
Lemma moving_placement q d fd state full_path filename c tag h e :
  moving (fsck_placement q opts d fd state full_path filename c tag h e).
Proof. unfold fsck_placement. fmoves. Qed.
#[local] Hint Resolve moving_placement : moving.
Lemma moving_envelope q d fd state full_path filename c tag st h :
  moving (fsck_envelope q opts d fd state full_path filename c tag st h).
Proof. unfold fsck_envelope. fmoves. Qed.
#[local] Hint Resolve moving_envelope : moving.
Lemma moving_header q d fd state full_path filename c tag st :
  moving (fsck_header q opts d fd state full_path filename c tag st).
Proof. unfold fsck_header. fmoves. Qed.
#[local] Hint Resolve moving_header : moving.
Lemma moving_object d state path name : moving (check_object d state path name opts).
Proof. unfold check_object, fsck_file. fmoves. Qed.
#[local] Hint Resolve moving_object : moving.
Lemma moving_leaf d state parent name : moving (fsck_leaf d state parent opts name).
Proof. unfold fsck_leaf. fmoves. Qed.
Lemma moving_branch descend d state parent name :
  (forall fd path, moving (descend fd path)) -> moving (fsck_branch descend d state parent opts name).
Proof. intros Hd. unfold fsck_branch. fmoves. Qed.
Lemma moving_entries fuel parent visit : (forall name, moving (visit name)) -> forall s, moving (fsck_entries fuel s parent visit).
Proof.
  intros Hv. induction fuel as [|fuel IH]; intros s; cbn [fsck_entries]; [apply moving_stop|].
  unfold fsck_protocol_name. fmoves.
Qed.
#[local] Hint Resolve moving_leaf moving_branch moving_entries : moving.
Lemma moving_walk fuel state : forall depth d parent, moving (fsck_walk fuel depth state opts d parent).
Proof. induction depth as [|depth IH]; intros d parent; cbn [fsck_walk]; fmoves. Qed.
#[local] Hint Resolve moving_walk : moving.
Lemma moving_all fuel states : moving (fsck_all fuel opts states).
Proof.
  induction states as [|state states IH]; cbn [fsck_all]; [apply moving_ret|]. unfold fsck_state_dir. fmoves.
Qed.

(** C20: The integrity check moves only what it records, and only into
    quarantine.  In every execution of [fsck], whatever the kernel answers: every
    object that was moved went to a quarantine name; there are at least as many
    moves as objects reported as quarantined, and at most as many as findings
    that record a repair, done or failed; each reported object has its
    finding; and in check mode nothing is moved and no repair recorded. *)
Theorem fsck_moves_recorded fuel q tr report q' :
  exec (fsck fuel opts q) tr (Some report, q') ->
  Forall (fun ev => placed ev = true -> sets_aside ev.1) tr /\
  (length (quarantined_ids report) <= tally places tr <= tally_of is_repair (findings report))%nat /\
  tally_of (is_type "quarantined") (findings report) = length (quarantined_ids report) /\
  (fo_mode opts = FsckCheck -> tally places tr = 0%nat /\ tally_of is_repair (findings report) = 0%nat) /\
  config q' = config q /\ (poisoned q <> None -> poisoned q' = poisoned q).
Proof.
  intros (t1 & t2 & [r fx] & -> & H1 & [-> [= Hr ->]]%exec_ret)%exec_bind. rewrite app_nil_r.
  apply moving_all in H1 as [(Hc & Hp & _) (fs & ids & F & Q & L & Tl & C) A]. cbn in *.
  destruct r as [u|]; [|done]. injection Hr as ->. rewrite F, Q. repeat split; try done; try lia.
  - rewrite C in Tl by done. lia.
  - by rewrite C.
Qed.
End Moves.

(** ** The counters add up *)

(** The findings with which a check of one object ends. *)
Definition fault_types : list string :=
  ["filename_parse_failed"; "stat_failed"; "non_regular_file"; "unexpected_hard_link"; "open_failed";
   "receipt_verification_failed"; "zero_length_publication_residue"; "header_read_failed"; "header_decode_failed";
   "header_job_id_mismatch"; "header_max_attempts_mismatch"; "extension_too_large"; "extension_read_failed";
   "envelope_digest_mismatch"; "negative_file_size"; "file_size_mismatch"; "payload_exceeds_limit";
   "name_tag_mismatch"; "shard_placement_mismatch"].
Definition is_fault (f : CorruptionFinding) : bool := existsb (fun t => is_type t f) fault_types.
(** Answers that an object or directory was no longer there. *)
Definition absent (tr : list event) : nat := length (filter (fun ev => ev.2 = Fails ENOENT) tr).
Lemma absent_app t1 t2 : absent (t1 ++ t2) = (absent t1 + absent t2)%nat.
Proof. unfold absent. by rewrite filter_app, length_app. Qed.

(** The objects accounted for, less those counted. *)
Definition balance (r : FsckReport) : Z :=
  (structurally_verified r + Z.of_nat (tally_of is_fault (findings r)) - total_objects r)%Z.

Ltac balanced := unfold balance, count_verified, count_deep, count_object; cbn [structurally_verified total_objects findings]; lia.

Section Accounts.
Context `{Sha256} {T : Texts} (opts : FsckOptions).

(** A step that ends adds [k] to the balance, up to objects found missing:
    [w] of them before it, the others by answers during it. *)
Definition accounts {A : Type} (w : nat) (m : fop A) (k : Z) : Prop :=
  forall fx tr a fx', exec (m fx) tr (Some a, fx') ->
  exists v, (0 <= v <= Z.of_nat (absent tr + w))%Z /\ (balance (fx_report fx') + v = balance (fx_report fx) + k)%Z.

Lemma accounts_bind {A B} w (m : fop A) (f : A -> fop B) k1 k2 k :
  accounts 0 m k1 -> (forall a, accounts w (f a) k2) -> (k1 + k2 = k)%Z -> accounts w (fbind m f) k.
Proof.
  intros Hm Hf <- fx tr b fx' (t1 & t2 & [a|] & fx1 & -> & H1 & H2)%exec_fbind; [|by destruct H2 as (_ & ? & _)].
  apply Hm in H1 as (v1 & ? & ?). apply Hf in H2 as (v2 & ? & ?). exists (v1 + v2)%Z. rewrite absent_app. lia.
Qed.
Lemma accounts_ret {A} w (a : A) : accounts w (fret a) 0.
Proof. intros fx tr r fx' [-> [= -> ->]]%exec_ret. exists 0%Z. lia. Qed.
Lemma accounts_missing {A} (a : A) : accounts 1 (fret a) 1.
Proof. intros fx tr r fx' [-> [= -> ->]]%exec_ret. exists 1%Z. cbn. lia. Qed.
Lemma accounts_queue {A} w (f : Queue -> A) : accounts w (fqueue f) 0.
Proof. intros fx tr r fx' [-> [= -> ->]]%exec_ret. exists 0%Z. lia. Qed.
Lemma accounts_stop {A} w k : accounts w (@fstop A) k.
Proof. by intros fx tr r fx' [-> [= ]]%exec_ret. Qed.
Lemma accounts_call {A} w (p : io A) : accounts w (fcall p) 0.
Proof. intros fx tr r fx' (a & _ & _ & ->)%exec_fcall. exists 0%Z. lia. Qed.
Lemma accounts_method {A} w (m : op A) : accounts w (fmethod m) 0.
Proof. intros fx tr r fx' (a & cx & _ & _ & ->)%exec_fmethod. exists 0%Z. cbn. lia. Qed.
Lemma accounts_report w f k : (forall r, balance (f r) = balance r + k)%Z -> accounts w (freport f) k.
Proof. intros Hf fx tr r fx' [-> [= -> ->]]%exec_ret. exists 0%Z. cbn. rewrite Hf. lia. Qed.
Lemma accounts_finding w path type severity details :
  accounts w (finding path type severity details)
    (if is_fault (mkCorruptionFinding path type severity details) then 1 else 0)%Z.
Proof.
  apply accounts_report. intros r. unfold balance. cbn [push_finding findings structurally_verified total_objects].
  rewrite tally_of_app, tally_of_one. case_match; lia.
Qed.
Lemma accounts_weaken {A} (m : fop A) k w : accounts 0 m k -> accounts w m k.
Proof. intros Hm fx tr a fx' (v & ? & ?)%Hm. exists v. lia. Qed.

(** A call whose answer decides: an error of kind not found was an answer. *)
Definition tells_absence {A : Type} (p : io (result A IoError)) : Prop :=
  forall tr e, exec p tr (Err e) -> kind e = KNotFound -> (1 <= absent tr)%nat.
Lemma not_found_code code : kind (OsError code) = KNotFound -> code = ENOENT.
Proof.
  unfold kind. destruct (_ =? EEXIST)%Z; [done|]. destruct (Z.eqb_spec code ENOENT); [done|]. by repeat case_match.
Qed.
Lemma fstatat_tells d n : tells_absence (fstatat d n).
Proof.
  intros tr e [[_ [= ->]]|(a & -> & He)]%exec_fstatat Hk; [done|]. destruct a; try done. injection He as ->.
  by apply not_found_code in Hk as ->.
Qed.
Lemma openat_tells d n flags mode : tells_absence (openat d n flags mode).
Proof.
  intros tr e Hx Hk. apply exec_try in Hx as [(e' & [-> E]%exec_ret & [= ->])|(t1 & t2 & x & -> & [-> _]%exec_ret & H2)].
  - destruct (cstr_from_name_cases n) as [[E' _]|E']; rewrite E' in E; [done|]. injection E as ->. done.
  - destruct t2 as [|[c a] t2]; [done|]. destruct H2 as [_ [-> E]%exec_ret]. destruct a; try done. injection E as ->.
    by apply not_found_code in Hk as ->.
Qed.
Lemma accounts_asked {A B} (p : io (result A IoError)) (f : result A IoError -> fop B) k :
  tells_absence p -> (forall a, accounts 0 (f (Ok a)) k) ->
  (forall e, kind e <> KNotFound -> accounts 0 (f (Err e)) k) -> (forall e, kind e = KNotFound -> accounts 1 (f (Err e)) k) ->
  accounts 0 (fbind (fcall p) f) k.
Proof.
  intros Hp Hok Herr Hmiss fx tr b fx' (t1 & t2 & r1 & fx1 & -> & (a & Hx & -> & ->)%exec_fcall & H2)%exec_fbind.
  destruct a as [a|e]; [|destruct (decide (kind e = KNotFound)) as [Hk|Hk]].
  - apply Hok in H2 as (v & ? & ?). exists v. rewrite absent_app. lia.
  - pose proof (Hp _ _ Hx Hk). apply Hmiss in H2 as (v & ? & ?); [|done]. exists v. rewrite absent_app. lia.
  - apply Herr in H2 as (v & ? & ?); [|done]. exists v. rewrite absent_app. lia.
Qed.

(** *** The checks *)

Lemma repair_accounts d filename full_path reason : accounts 0 (quarantine_object d filename full_path reason) 0.
Proof.
  eapply accounts_bind; [apply accounts_method| |done]. intros [p|e]; [|apply accounts_ret].
  eapply accounts_bind; [apply (accounts_report _ _ 0)| |done].
  { intros r. change (balance (push_quarantined_id (qp_quarantine_id p) r)) with (balance r). lia. }
  intros _.
  eapply accounts_bind; [apply accounts_finding| |done]. intros _. apply accounts_ret.
Qed.
Lemma opened_accounts d filename full_path opened reason : accounts 0 (quarantine_opened_object d filename full_path opened reason) 0.
Proof.
  eapply accounts_bind; [apply accounts_call| |done]. intros [[]|e]; [|apply accounts_ret..].
  eapply accounts_bind; [apply accounts_call| |done]. intros [st|e]; [|apply accounts_ret].
  eapply accounts_bind; [apply accounts_call| |done]. intros [st'|e]; [|apply accounts_ret].
  case_match; [apply accounts_ret|apply repair_accounts].
Qed.
Lemma record_accounts full_path m : accounts 0 m 0 -> accounts 0 (or_record full_path m) 0.
Proof.
  intros Hm. eapply accounts_bind; [exact Hm| |done]. intros [u|e]; [apply accounts_ret|]. apply accounts_finding.
Qed.
Lemma or_record_accounts d filename full_path reason : accounts 0 (quarantine_object_or_record d filename full_path reason) 0.
Proof. apply record_accounts, repair_accounts. Qed.
Lemma candidate_accounts state d filename full_path reason : accounts 0 (repair_quarantine_candidate state d filename full_path reason) 0.
Proof.
  apply record_accounts. case_match; [|apply repair_accounts].
  eapply accounts_bind; [apply accounts_call| |done]. intros [fd|e]; [apply opened_accounts|apply accounts_ret].
Qed.
Lemma reject_accounts full_path type severity details repair :
  is_fault (mkCorruptionFinding full_path type severity details) = true -> accounts 0 repair 0 ->
  accounts 0 (reject opts full_path type severity details repair) 1.
Proof.
  intros Ht Hr. eapply (accounts_bind _ _ _ _ 0); [apply accounts_finding| |by rewrite Ht]. intros _. unfold on_repair.
  case_bool_decide; [done|apply accounts_ret].
Qed.
Lemma fault_accounts full_path type severity details :
  is_fault (mkCorruptionFinding full_path type severity details) = true -> accounts 0 (finding full_path type severity details) 1.
Proof. intros Ht. pose proof (accounts_finding 0 full_path type severity details) as Hf. by rewrite Ht in Hf. Qed.

(** Steps that end with one object accounted for. *)
Lemma settled_bind {A} (p : io A) (f : A -> fop unit) : (forall a, accounts 0 (f a) 1) -> accounts 0 (fbind (fcall p) f) 1.
Proof. intros Hf. eapply accounts_bind; [apply accounts_call|exact Hf|done]. Qed.
Create HintDb accounting.
#[local] Hint Resolve candidate_accounts or_record_accounts record_accounts repair_accounts opened_accounts : accounting.
Ltac settles :=
  cbv zeta;
  repeat first
    [ solve [auto with accounting]
    | apply reject_accounts; [done|] | by apply fault_accounts
    | apply settled_bind; intros ? | case_match ].

Lemma verified_accounts (m : fop unit) : accounts 0 m 0 -> accounts 0 (let^ _ := freport count_verified in m) 1.
Proof.
  intros Hm. eapply accounts_bind; [apply (accounts_report _ _ 1)|by intros _|done]. intros r. balanced.
Qed.
Lemma deep_accounts : accounts 0 (freport count_deep) 0.
Proof. apply accounts_report. intros r. balanced. Qed.
Lemma receipt_accounts q d fd full_path filename : accounts 0 (fsck_receipt q opts d fd full_path filename) 1.
Proof.
  apply settled_bind. intros [vr|e]; [|apply reject_accounts; [done|]; auto with accounting].
  apply verified_accounts. case_match; [apply deep_accounts|apply accounts_ret].
Qed.
Lemma payload_accounts d fd full_path filename h e : accounts 0 (fsck_payload opts d fd full_path filename h e) 0.
Proof.
  eapply accounts_bind; [apply accounts_call| |done]. intros [u|[]]; [apply deep_accounts|apply accounts_finding..|].
  eapply accounts_bind; [apply accounts_finding| |done]. intros _. unfold on_repair.
  case_match; [apply record_accounts, repair_accounts|apply accounts_ret].
Qed.
Lemma placement_accounts q d fd state full_path filename c tag h e :
  accounts 0 (fsck_placement q opts d fd state full_path filename c tag h e) 1.
Proof.
  unfold fsck_placement. cbv zeta. destruct (fsck_verify_name_tag _ _ _ _ _); cbn [negb]; [|settles].
  match goal with |- accounts _ (match ?m with Some _ => _ | None => _ end) _ => destruct m end; [settles|].
  apply verified_accounts. case_match; [apply payload_accounts|apply accounts_ret].
Qed.
#[local] Hint Resolve receipt_accounts placement_accounts : accounting.
Lemma envelope_accounts q d fd state full_path filename c tag st h :
  accounts 0 (fsck_envelope q opts d fd state full_path filename c tag st h) 1.
Proof.
  unfold fsck_envelope. cbv zeta. case_match; [settles|].
  eapply accounts_bind with (k1 := 0%Z); [case_match; [apply accounts_call|apply accounts_ret]| |done].
  intros [ext|e]; settles.
Qed.
#[local] Hint Resolve envelope_accounts : accounting.
Lemma header_accounts q d fd state full_path filename c tag st :
  accounts 0 (fsck_header q opts d fd state full_path filename c tag st) 1.
Proof. unfold fsck_header. settles. Qed.
#[local] Hint Resolve header_accounts : accounting.
Lemma file_accounts d state full_path filename : accounts 0 (fsck_file d state full_path filename opts) 1.
Proof.
  eapply accounts_bind; [apply accounts_queue| |done]. intros q. cbv zeta.
  destruct (fsck_parse state filename) as [[c tag]|]; [|settles].
  apply accounts_asked; [apply fstatat_tells|intros st|intros e He|intros e He].
  - case_match; [settles|]. case_match; [settles|].
    apply accounts_asked; [apply openat_tells|intros fd|intros e He|intros e He]; [settles|..].
    + rewrite bool_decide_false by done. by apply fault_accounts.
    + rewrite bool_decide_true by done. apply accounts_missing.
  - rewrite bool_decide_false by done. by apply fault_accounts.
  - rewrite bool_decide_true by done. apply accounts_missing.
Qed.
Lemma object_accounts d state path name : accounts 0 (check_object d state path name opts) 0.
Proof.
  eapply accounts_bind; [apply (accounts_report _ _ (-1))|intros _; apply file_accounts|done].
  intros r. balanced.
Qed.

(** *** The walk *)

Lemma leaf_accounts d state parent name : accounts 0 (fsck_leaf d state parent opts name) 0.
Proof.
  unfold fsck_leaf. cbv zeta. case_match; [apply object_accounts|].
  eapply accounts_bind; [apply accounts_call| |done]. intros [st|e]; case_match; first [apply accounts_ret|apply accounts_finding].
Qed.
Lemma branch_accounts descend d state parent name :
  (forall fd path, accounts 0 (descend fd path) 0) -> accounts 0 (fsck_branch descend d state parent opts name) 0.
Proof.
  intros Hd. eapply accounts_bind; [apply accounts_call| |done]. intros [fd|e]; [apply Hd|].
  repeat case_match; first [apply accounts_ret|apply accounts_finding|apply object_accounts].
Qed.
Lemma entries_accounts fuel parent visit :
  (forall name, accounts 0 (visit name) 0) -> forall s, accounts 0 (fsck_entries fuel s parent visit) 0.
Proof.
  intros Hv. induction fuel as [|fuel IH]; intros s; cbn [fsck_entries]; [apply accounts_stop|].
  eapply accounts_bind; [apply accounts_call| |done].
  intros [[[[raw|]|e]|] s']; [|apply accounts_ret|apply accounts_finding|apply accounts_stop].
  eapply (accounts_bind _ _ _ 0 0); [| |done].
  - unfold fsck_protocol_name. case_match; [apply accounts_ret|].
    eapply accounts_bind; [apply accounts_finding|intros _; apply accounts_ret|done].
  - intros name. eapply (accounts_bind _ _ _ 0 0); [|by intros _|done]. case_match; [apply Hv|apply accounts_ret].
Qed.
Lemma walk_accounts fuel state : forall depth d parent, accounts 0 (fsck_walk fuel depth state opts d parent) 0.
Proof.
  induction depth as [|depth IH]; intros d parent; cbn [fsck_walk];
    (eapply accounts_bind; [apply accounts_call| |done]); intros [s|e]; try apply accounts_finding;
    apply entries_accounts; intros name; [apply leaf_accounts|by apply branch_accounts].
Qed.
Lemma all_accounts fuel states : accounts 0 (fsck_all fuel opts states) 0.
Proof.
  induction states as [|state states IH]; cbn [fsck_all]; [apply accounts_ret|].
  eapply (accounts_bind _ _ _ 0 0); [|done|done].
  eapply accounts_bind; [apply accounts_queue| |done]. intros root.
  eapply accounts_bind; [apply accounts_call| |done]. intros [fd|e]; [apply walk_accounts|apply accounts_finding].
Qed.

(** No object passes the integrity check unaccounted for.  In every execution
    of [fsck] that ends, the objects counted are those verified, those with a
    finding of a failed check, exactly one each, and those that were no longer
    there when they were looked at, which the kernel said.  So on a queue at
    rest a report without findings has verified every object. *)
Theorem fsck_report_accounts fuel q tr report q' :
  exec (fsck fuel opts q) tr (Some report, q') ->
  (exists missing, (0 <= missing <= Z.of_nat (absent tr))%Z /\
     total_objects report
     = (structurally_verified report + Z.of_nat (tally_of is_fault (findings report)) + missing)%Z) /\
  (findings report = [] -> absent tr = 0%nat -> structurally_verified report = total_objects report).
Proof.
  intros (t1 & t2 & [r fx] & -> & H1 & [-> [= Hr ->]]%exec_ret)%exec_bind. rewrite app_nil_r.
  destruct r as [u|]; [|done]. injection Hr as ->. apply all_accounts in H1 as (v & Hv & Hb).
  assert (Hz : balance (fx_report fx) = (- v)%Z) by (revert Hb; unfold balance at 2; cbn; lia).
  unfold balance in Hz. split; [exists v; lia|]. intros E Ha. rewrite E, Ha in *. cbn in *. lia.
Qed.
End Accounts.

(** ** The walk ends *)

Definition finishes {A : Type} (n : nat) (m : fop A) : Prop :=
  forall fx tr r fx', exec (m fx) tr (r, fx') -> (served tr < n)%nat -> r <> None.
(** A step without a directory stream ends in any case. *)
Definition total {A : Type} (m : fop A) : Prop := forall n, finishes n m.

Section Finishes.
Context `{Sha256} {T : Texts}.

Lemma finishes_bind {A B} n (m : fop A) (f : A -> fop B) : finishes n m -> (forall a, finishes n (f a)) -> finishes n (fbind m f).
Proof.
  intros Hm Hf fx tr r fx' (t1 & t2 & r1 & fx1 & -> & H1 & H2)%exec_fbind Hn. rewrite served_app in Hn. destruct r1 as [a|].
  - apply (Hf a fx1 t2 r fx' H2). lia.
  - destruct (Hm _ _ _ _ H1); [lia|done].
Qed.
Lemma total_bind {A B} (m : fop A) (f : A -> fop B) : total m -> (forall a, total (f a)) -> total (fbind m f).
Proof. intros Hm Hf n. apply finishes_bind; [apply Hm|intros a; apply Hf]. Qed.
Lemma total_ret {A} (a : A) : total (fret a).
Proof. by intros n fx tr r fx' [-> [= -> ->]]%exec_ret _. Qed.
Lemma total_queue {A} (f : Queue -> A) : total (fqueue f).
Proof. by intros n fx tr r fx' [-> [= -> ->]]%exec_ret _. Qed.
Lemma total_report f : total (freport f).
Proof. by intros n fx tr r fx' [-> [= -> ->]]%exec_ret _. Qed.
Lemma total_call {A} (p : io A) : total (fcall p).
Proof. by intros n fx tr r fx' (a & _ & -> & _)%exec_fcall _. Qed.
Lemma total_method {A} (m : op A) : total (fmethod m).
Proof. by intros n fx tr r fx' (a & cx & _ & -> & _)%exec_fmethod _. Qed.
Create HintDb total.
#[local] Hint Resolve total_ret total_queue total_report total_call total_method : total.
Ltac totals :=
  cbv zeta; repeat first [ solve [auto with total] | apply total_bind; [|intros ?] | case_match ].

Lemma total_finding path type severity details : total (finding path type severity details).
Proof. apply total_report. Qed.
Lemma total_error path type details : total (error_finding path type details).
Proof. apply total_report. Qed.
Lemma total_incomplete path e : total (fsck_scan_incomplete path e).
Proof. apply total_report. Qed.
Lemma total_refused {A} phase e : total (@not_quarantined A phase e).
Proof. apply total_ret. Qed.
#[local] Hint Resolve total_finding total_error total_incomplete total_refused : total.
Lemma total_quarantine d filename full_path reason : total (quarantine_object d filename full_path reason).
Proof. unfold quarantine_object. totals. Qed.
#[local] Hint Resolve total_quarantine : total.
Lemma total_opened d filename full_path fd reason : total (quarantine_opened_object d filename full_path fd reason).
Proof. unfold quarantine_opened_object. totals. Qed.
Lemma total_record full_path m : total m -> total (or_record full_path m).
Proof. intros Hm. unfold or_record. totals. Qed.
#[local] Hint Resolve total_opened total_record : total.
Lemma total_or_record d filename full_path reason : total (quarantine_object_or_record d filename full_path reason).
Proof. unfold quarantine_object_or_record. totals. Qed.
Lemma total_candidate state d filename full_path reason : total (repair_quarantine_candidate state d filename full_path reason).
Proof. unfold repair_quarantine_candidate. apply total_record. totals. Qed.
Lemma total_reject opts full_path type severity details repair : total repair -> total (reject opts full_path type severity details repair).
Proof. intros Hr. unfold reject, on_repair. totals. Qed.
#[local] Hint Resolve total_or_record total_candidate total_reject : total.
Lemma total_receipt q opts d fd full_path filename : total (fsck_receipt q opts d fd full_path filename).
Proof. unfold fsck_receipt. totals. Qed.
Lemma total_payload opts d fd full_path filename h e : total (fsck_payload opts d fd full_path filename h e).
Proof. unfold fsck_payload. totals. Qed.
#[local] Hint Resolve total_receipt total_payload : total.
Lemma total_placement q opts d fd state full_path filename c tag h e : total (fsck_placement q opts d fd state full_path filename c tag h e).
Proof. unfold fsck_placement. totals. Qed.
#[local] Hint Resolve total_placement : total.
Lemma total_envelope q opts d fd state full_path filename c tag st h : total (fsck_envelope q opts d fd state full_path filename c tag st h).
Proof. unfold fsck_envelope. totals. Qed.
#[local] Hint Resolve total_envelope : total.
Lemma total_header q opts d fd state full_path filename c tag st : total (fsck_header q opts d fd state full_path filename c tag st).
Proof. unfold fsck_header. totals. Qed.
#[local] Hint Resolve total_header : total.
Lemma total_object d state path name opts : total (check_object d state path name opts).
Proof. unfold check_object, fsck_file. totals. Qed.
#[local] Hint Resolve total_object : total.
Lemma total_leaf d state parent opts name : total (fsck_leaf d state parent opts name).
Proof. unfold fsck_leaf. totals. Qed.
Lemma finishes_branch n descend d state parent opts name :
  (forall fd path, finishes n (descend fd path)) -> finishes n (fsck_branch descend d state parent opts name).
Proof.
  intros Hd. apply finishes_bind; [apply total_call|]. intros [fd|e]; [apply Hd|].
  repeat case_match; first [apply total_object|apply total_report|apply total_ret].
Qed.
Lemma finishes_entries n parent visit :
  (forall name, finishes n (visit name)) -> forall fuel s, (fuel <= n)%nat -> finishes fuel (fsck_entries fuel s parent visit).
Proof.
  intros Hv. induction fuel as [|fuel IH]; intros s Hle; [by intros ? ? ? ? _ ?%Nat.nlt_0_r|].
  cbn [fsck_entries]. intros fx tr r fx' (t1 & t2 & r1 & fx1 & -> & ([o s'] & H1 & -> & ->)%exec_fcall & H2)%exec_fbind Hn.
  rewrite served_app in Hn. destruct o as [[[raw|]|e]|].
  - apply next_entry_served in H1. refine (finishes_bind fuel _ _ _ _ _ _ _ _ H2 _); [| |lia].
    + unfold fsck_protocol_name. case_match; [apply total_ret|].
      apply finishes_bind; [apply total_report|intros _; apply total_ret].
    + intros name. apply finishes_bind; [|intros _; apply IH; lia].
      destruct name as [name|]; [|apply total_ret]. intros gx t r' gx' Hx Ht. apply (Hv name _ _ _ _ Hx). lia.
  - by apply exec_ret in H2 as [_ [= -> _]].
  - by apply exec_ret in H2 as [_ [= -> _]].
  - apply next_entry_spends in H1. lia.
Qed.
Lemma finishes_walk n state opts : forall depth d parent, finishes n (fsck_walk n depth state opts d parent).
Proof.
  induction depth as [|depth IH]; intros d parent; cbn [fsck_walk]; (apply finishes_bind; [apply total_call|]);
    intros [s|e]; try apply total_report; (apply (finishes_entries n); [|lia]); intros name; [apply total_leaf|by apply finishes_branch].
Qed.
Lemma finishes_all n opts states : finishes n (fsck_all n opts states).
Proof.
  induction states as [|state states IH]; cbn [fsck_all]; [apply total_ret|]. apply finishes_bind; [|done].
  apply finishes_bind; [apply total_queue|]. intros root. apply finishes_bind; [apply total_call|].
  intros [fd|e]; [apply finishes_walk|apply total_report].
Qed.

(** C21: The integrity check ends.  Every execution of [fsck] during which the
    kernel serves fewer directory entries than the fuel returns a report, in
    which every object that was set aside has its finding. *)
Theorem fsck_ends fuel opts q tr r q' :
  exec (fsck fuel opts q) tr (r, q') -> (served tr < fuel)%nat ->
  exists report, r = Some report /\ tally_of (is_type "quarantined") (findings report) = length (quarantined_ids report).
Proof.
  intros (t1 & t2 & [r1 fx] & -> & H1 & [-> [= -> ->]]%exec_ret)%exec_bind Hn. rewrite app_nil_r in Hn.
  pose proof (finishes_all _ _ _ _ _ _ _ H1 Hn) as Hr. destruct r1; [|done]. eexists. split; [done|].
  apply moving_all in H1 as [_ (fs & ids & F & Q & L & _) _]. cbn in *. by rewrite F, Q.
Qed.
End Finishes.

(** ** The checks accept exactly sound objects *)

Section Objects.
Context `{Sha256Spec} {T : Texts}.

(** The object is an envelope within the payload limit, its header agrees with
    its name, and the name is tagged for the path and lies in its shard. *)
Definition fsck_sound (q : Queue) (state_name full_path filename content : bytes) : Prop :=
  exists ve c tag, fsck_parse state_name filename = Some (c, tag) /\
    ValidatedEnvelope_from_bytes content false = Ok ve /\ header_agrees (ve_header ve) c /\
    (fh_payload_length (ve_header ve) <= fr_max_payload_length (format (config q)))%Z /\
    fsck_verify_name_tag q state_name (split_slash full_path) c tag = true /\
    forall hex s, fsck_extract_shard_hex state_name (split_slash full_path) = Some hex -> shard_from_hex hex = Some s ->
      s = compute_shard (queue_id q) (cf_job_id c) (shard_count q).

(** Every read and stat of a run tells of the same content. *)
Definition tells (content : bytes) (ev : event) : Prop :=
  serves_all content ev /\
  match ev with
  | (SysFstatat _ _ _, Stats st) => st_size st = Z.of_nat (length content)
  | (SysFstatat _ _ _, a) => failed a = true
  | _ => True
  end.
Definition verified (fx : FCtx) : Z := structurally_verified (fx_report fx).

(** A step that counts the object as verified exactly when it is good. *)
Definition decides (content : bytes) (m : fop unit) (good : Prop) : Prop :=
  forall fx, wp (tells content) (m fx) (fun tr x =>
    some_failed tr \/ saw_irregular tr \/
    (good /\ verified x.2 = verified fx + 1 \/ ~ good /\ verified x.2 = verified fx)%Z).
(** One that leaves the count alone. *)
Definition uncounted {A : Type} (m : fop A) : Prop := forall fx tr r fx', exec (m fx) tr (r, fx') -> verified fx' = verified fx.

Lemma uncounted_bind {A B} (m : fop A) (f : A -> fop B) : uncounted m -> (forall a, uncounted (f a)) -> uncounted (fbind m f).
Proof.
  intros Hm Hf fx tr r fx' (t1 & t2 & r1 & fx1 & -> & H1%Hm & H2)%exec_fbind. destruct r1 as [a|].
  - rewrite <- H1. by eapply Hf.
  - by destruct H2 as (_ & _ & ->).
Qed.
Lemma uncounted_ret {A} (a : A) : uncounted (fret a).
Proof. by intros fx tr r fx' [-> [= -> ->]]%exec_ret. Qed.
Lemma uncounted_call {A} (p : io A) : uncounted (fcall p).
Proof. by intros fx tr r fx' (a & _ & _ & ->)%exec_fcall. Qed.
Lemma uncounted_method {A} (m : op A) : uncounted (fmethod m).
Proof. by intros fx tr r fx' (a & cx & _ & _ & ->)%exec_fmethod. Qed.
Lemma uncounted_report f : (forall r, structurally_verified (f r) = structurally_verified r) -> uncounted (freport f).
Proof. intros Hf fx tr r fx' [-> [= -> ->]]%exec_ret. apply Hf. Qed.
Lemma uncounted_finding path type severity details : uncounted (finding path type severity details).
Proof. by apply uncounted_report. Qed.
Create HintDb uncounted.
#[local] Hint Resolve uncounted_ret uncounted_call uncounted_method uncounted_finding : uncounted.
Ltac uncounts :=
  cbv zeta; repeat first [ solve [auto with uncounted] | by apply uncounted_report | apply uncounted_bind; [|intros ?] | case_match ].
Lemma uncounted_quarantine d filename full_path reason : uncounted (quarantine_object d filename full_path reason).
Proof. unfold quarantine_object. uncounts. Qed.
#[local] Hint Resolve uncounted_quarantine : uncounted.
Lemma uncounted_repair d filename full_path reason : uncounted (quarantine_object_or_record d filename full_path reason).
Proof. unfold quarantine_object_or_record, or_record, error_finding. uncounts. Qed.
Lemma uncounted_candidate state d filename full_path reason : uncounted (repair_quarantine_candidate state d filename full_path reason).
Proof. unfold repair_quarantine_candidate, or_record, error_finding, quarantine_opened_object, not_quarantined. uncounts. Qed.
#[local] Hint Resolve uncounted_repair uncounted_candidate : uncounted.
Lemma uncounted_reject opts full_path type severity details repair :
  uncounted repair -> uncounted (reject opts full_path type severity details repair).
Proof. intros Hr. unfold reject, on_repair. uncounts. Qed.
#[local] Hint Resolve uncounted_reject : uncounted.
Lemma uncounted_payload opts d fd full_path filename h e : uncounted (fsck_payload opts d fd full_path filename h e).
Proof. unfold fsck_payload, error_finding. uncounts. Qed.

Section Decides.
Context (content : bytes).

Lemma decides_bad (m : fop unit) good : uncounted m -> ~ good -> decides content m good.
Proof. intros Hm Hg fx tr [r fx'] Hx _. apply Hm in Hx. auto. Qed.
Lemma decides_good (m : fop unit) (good : Prop) : uncounted m -> good -> decides content (let^ _ := freport count_verified in m) good.
Proof.
  intros Hm Hg fx tr [r fx'] (t1 & t2 & r1 & fx1 & -> & [-> [= -> ->]]%exec_ret & H2%Hm)%exec_fbind _. auto.
Qed.
Lemma decides_iff m (P Q : Prop) : (P <-> Q) -> decides content m P -> decides content m Q.
Proof. intros HPQ Hm fx. eapply wp_mono; [apply Hm|]. intros tr x [?|[?|?]]; tauto. Qed.
(** A call before: what its answer shows of the content is known after it. *)
Lemma decides_call {A} (p : io A) (f : A -> fop unit) good (K : A -> Prop) :
  wp (tells content) p (fun tr a => some_failed tr \/ saw_irregular tr \/ K a) ->
  (forall a, K a -> decides content (f a) good) -> decides content (fbind (fcall p) f) good.
Proof.
  intros Hp Hf fx tr [r fx'] (t1 & t2 & r1 & fx1 & -> & (a & Hx & -> & ->)%exec_fcall & H2)%exec_fbind [F1 F2]%Forall_app.
  rewrite some_failed_app. destruct (Hp _ _ Hx F1) as [?|[?|Hk]]; [by left; left|right; left; apply irregular_app; by left|].
  destruct (Hf a Hk fx _ _ H2 F2) as [?|[?|?]]; [by left; right|right; left; apply irregular_app; by right|]. auto.
Qed.

Lemma wp_read fd len (off : nat) :
  (Z.of_nat (off + len) < 2 ^ 63)%Z ->
  wp (tells content) (pread_exact fd len (Z.of_nat off)) (fun tr r => some_failed tr \/ saw_irregular tr \/
    match r with Ok data => data = slice off (off + len) content /\ length data = len | Err _ => (length content < off + len)%nat end).
Proof.
  intros Ho. eapply wp_assume; [intros ev [Hs _]; exact (Hs fd)|]. eapply wp_mono; [by apply wp_pread_exact|].
  intros tr [data|e]; [auto|]. unfold read_fault. case_bool_decide; auto.
Qed.
Lemma wp_size fd :
  wp (tells content) (fstat fd) (fun tr r => some_failed tr \/ saw_irregular tr \/
    exists st, r = Ok st /\ st_size st = Z.of_nat (length content)).
Proof.
  apply wp_sys. intros a [Ha _]. apply wp_ret. specialize (Ha fd eq_refl). destruct a; try done; [left; apply some_failed_one|].
  right. right. by eexists.
Qed.

Section Job.
Context (q : Queue) (opts : FsckOptions) (d fd : Z) (state_name full_path filename : bytes) (c : CommonFields) (tag : bytes).
Hypothesis Hparse : fsck_parse state_name filename = Some (c, tag).
Abbreviation sound := (fsck_sound q state_name full_path filename content).

(** What a sound object holds, given what was read of it. *)
Lemma sound_checks h :
  FixedHeader_decode (slice 0 128 content) = Ok h ->
  sound <-> envelope_checks content false (mkValidatedEnvelope h (slice 128 (128 + Z.to_nat (fh_extension_header_length h)) content)
      (drop (128 + Z.to_nat (fh_extension_header_length h)) content)) /\
    header_agrees h c /\ (fh_payload_length h <= fr_max_payload_length (format (config q)))%Z /\
    fsck_verify_name_tag q state_name (split_slash full_path) c tag = true /\
    forall hex s, fsck_extract_shard_hex state_name (split_slash full_path) = Some hex -> shard_from_hex hex = Some s ->
      s = compute_shard (queue_id q) (cf_job_id c) (shard_count q).
Proof.
  intros Hd. split.
  - intros (ve & c' & tag' & Hp & Hve & Hh & Hl & Ht & Hs). rewrite Hparse in Hp. injection Hp as <- <-.
    apply from_bytes_checks in Hve as Hc. pose proof Hc as (_ & Hd' & _ & E1 & E2 & _). rewrite Hd in Hd'.
    injection Hd' as Eh. destruct ve as [h' ext payload]. cbn in *. subst h' ext payload. auto.
  - intros (Hc & Hh & Hl & Ht & Hs). eexists _, c, tag. split; [done|]. split; [by apply from_bytes_checks|]. auto.
Qed.

Lemma placement_decides h e (good : Prop) :
  (good <-> fsck_verify_name_tag q state_name (split_slash full_path) c tag = true /\
    forall hex s, fsck_extract_shard_hex state_name (split_slash full_path) = Some hex -> shard_from_hex hex = Some s ->
      s = compute_shard (queue_id q) (cf_job_id c) (shard_count q)) ->
  decides content (fsck_placement q opts d fd state_name full_path filename c tag h e) good.
Proof.
  intros Hg. unfold fsck_placement. cbv zeta.
  destruct (fsck_verify_name_tag _ _ _ _ _); cbn [negb]; [|apply decides_bad; [auto with uncounted|tauto || (rewrite Hg; by intros [? _])]].
  assert (Hrest : uncounted (if bool_decide (fo_depth opts = Deep) && negb (is_receipts state_name)
    then fsck_payload opts d fd full_path filename h e else fret tt))
    by (case_match; [apply uncounted_payload|apply uncounted_ret]).
  destruct (fsck_extract_shard_hex state_name (split_slash full_path)) as [hex|].
  2:{ apply decides_good; [done|]. apply Hg. split; [done|]. by intros ? ? [=]. }
  destruct (shard_from_hex hex) as [s|] eqn:Es.
  2:{ apply decides_good; [done|]. apply Hg. split; [done|]. intros ? ? [= <-]. by rewrite Es. }
  destruct (Z.eqb_spec s (compute_shard (queue_id q) (cf_job_id c) (shard_count q))) as [E|E].
  - apply decides_good; [done|]. apply Hg. split; [done|]. intros ? ? [= <-]. rewrite Es. by intros [= <-].
  - apply decides_bad; [auto with uncounted|]. rewrite Hg. intros [_ Hs]. by apply E, (Hs hex).
Qed.
Lemma envelope_decides h stat :
  (128 <= length content)%nat -> FixedHeader_decode (slice 0 128 content) = Ok h -> header_agrees h c ->
  st_size stat = Z.of_nat (length content) ->
  decides content (fsck_envelope q opts d fd state_name full_path filename c tag stat h) sound.
Proof.
  intros Hl Hd Hh Hst. pose proof (decoded_header_bounds _ _ Hd) as [He Hp].
  eapply decides_iff; [symmetry; by apply sound_checks|]. unfold fsck_envelope. cbv zeta.
  destruct (Z.ltb_spec 65536 (fh_extension_header_length h)); [lia|].
  set (e := Z.to_nat (fh_extension_header_length h)).
  match goal with |- decides _ (fbind _ ?f) _ => set (k := f) end.
  assert (Hk : forall r, match r with Ok ext => ext = slice 128 (128 + e) content | Err _ => (length content < 128 + e)%nat end ->
    decides content (k r) (envelope_checks content false (mkValidatedEnvelope h (slice 128 (128 + e) content) (drop (128 + e) content)) /\
      header_agrees h c /\ (fh_payload_length h <= fr_max_payload_length (format (config q)))%Z /\
      fsck_verify_name_tag q state_name (split_slash full_path) c tag = true /\
      forall hex s, fsck_extract_shard_hex state_name (split_slash full_path) = Some hex -> shard_from_hex hex = Some s ->
        s = compute_shard (queue_id q) (cf_job_id c) (shard_count q))).
  { intros [ext|err] Hr; cbn [k].
    2:{ apply decides_bad; [auto with uncounted|]. intros ((_ & _ & Hsz & _) & _). cbn in Hsz. lia. }
    subst ext. destruct (verify_envelope_digest h _) eqn:Hv; cbn [negb].
    2:{ apply decides_bad; [auto with uncounted|]. intros ((_ & _ & _ & _ & _ & Hv' & _) & _). cbn [ve_header ve_extension] in Hv'. congruence. }
    destruct (Z.ltb_spec (st_size stat) 0); [lia|].
    unfold u64_checked_add. rewrite decide_True by (unfold u64_max; lia). cbn [mbind option_bind default].
    rewrite decide_True by (unfold u64_max; lia). cbn [default]. unfold id.
    destruct (Z.eqb_spec (st_size stat) (128 + fh_extension_header_length h + fh_payload_length h)) as [Hsz|Hsz]; cbn [negb].
    2:{ apply decides_bad; [auto with uncounted|]. intros ((_ & _ & Hsz' & _) & _). cbn in Hsz'. lia. }
    destruct (Z.ltb_spec (fr_max_payload_length (format (config q))) (fh_payload_length h)).
    { apply decides_bad; [auto with uncounted|]. intros (_ & _ & ? & _). lia. }
    apply placement_decides. split; [tauto|]. intros [Ht Hs]. split; [|auto]. repeat split; try done; cbn; lia. }
  destruct (Z.ltb_spec 0 (fh_extension_header_length h)).
  - eapply decides_call; [apply (wp_read fd e 128); lia|]. intros [ext|err] Hr; apply Hk; [apply Hr|done].
  - refine (Hk (Ok (zeros e)) _). unfold e. replace (fh_extension_header_length h) with 0%Z by lia. by unfold slice.
Qed.
Lemma header_decides stat :
  st_size stat = Z.of_nat (length content) ->
  decides content (fsck_header q opts d fd state_name full_path filename c tag stat) sound.
Proof.
  intros Hst. assert (Hshort : (length content < 128)%nat -> ~ sound).
  { intros Hl (ve & ? & ? & _ & (Hc & _)%from_bytes_checks & _). lia. }
  unfold fsck_header. cbv zeta. eapply decides_call; [apply wp_size|]. intros ? (st & -> & Hsz). rewrite Hsz.
  destruct (Z.eqb_spec (Z.of_nat (length content)) 0); [apply decides_bad; [auto with uncounted|apply Hshort; lia]|].
  eapply decides_call; [apply (wp_read fd 128 0); lia|]. intros [buf|err] Hr.
  2:{ eapply decides_call; [apply wp_size|]. intros ? (st' & -> & _). apply decides_bad; [auto with uncounted|apply Hshort; lia]. }
  destruct Hr as [-> Hlen]. change (0 + 128)%nat with 128%nat in *. rewrite length_slice' in Hlen.
  destruct (FixedHeader_decode (slice 0 128 content)) as [h|err] eqn:Hd.
  2:{ apply decides_bad; [auto with uncounted|]. intros (ve & ? & ? & _ & (_ & Hd' & _)%from_bytes_checks & _). congruence. }
  assert (Hagree : ~ header_agrees h c -> ~ sound) by (rewrite (sound_checks h Hd); tauto).
  case_bool_decide as Hj; cbn [negb]; [|apply decides_bad; [auto with uncounted|]; apply Hagree; by intros [? _]].
  destruct (Z.eqb_spec (fh_maximum_attempts h) (cf_maximum_attempts c)) as [Hm|Hm]; cbn [negb];
    [|apply decides_bad; [auto with uncounted|]; apply Hagree; by intros [_ ?]].
  apply envelope_decides; [lia|done|done|done].
Qed.
End Job.

Lemma file_decides q opts d state_name full_path filename :
  is_receipts state_name = false -> cstr_from_name filename = Ok filename ->
  forall fx, handle (fx_ctx fx) = q ->
  wp (tells content) (fsck_file d state_name full_path filename opts fx) (fun tr x =>
    some_failed tr \/ saw_irregular tr \/
    (fsck_sound q state_name full_path filename content /\ verified x.2 = verified fx + 1 \/
     ~ fsck_sound q state_name full_path filename content /\ verified x.2 = verified fx)%Z).
Proof.
  intros Hs Hname fx Hq. unfold fsck_file. change (fbind (fqueue id) ?f fx) with (f (handle (fx_ctx fx)) fx). cbv beta zeta.
  rewrite Hq. match goal with |- wp _ (?m fx) _ => enough (Hd : decides content m (fsck_sound q state_name full_path filename content))
    by exact (Hd fx) end. clear fx Hq.
  destruct (fsck_parse state_name filename) as [[c tag]|] eqn:Hparse.
  2:{ apply decides_bad; [auto with uncounted|]. intros (ve & c & tag & Hp & _). congruence. }
  eapply (decides_call (fstatat d filename)) with
    (K := fun r => exists st, r = Ok st /\ st_size st = Z.of_nat (length content) /\ is_singly_linked_regular st = true).
  { unfold fstatat. rewrite Hname. cbn [lift io_try io_bind]. apply wp_sys. intros a [_ Ha]. apply wp_ret.
    destruct a as [e| |st| | | |]; try done; [left; apply some_failed_one|right]. cbn [check_stat].
    destruct (is_singly_linked_regular st) eqn:Er; [right; by exists st|left; constructor; by exists st]. }
  intros ? (st & -> & Hsz & Hreg). unfold is_singly_linked_regular in Hreg. apply andb_true_iff in Hreg as [-> ->]. cbn [negb].
  rewrite Hs. cbn [andb].
  eapply (decides_call (openat d filename receipt_read_open_flags 0)) with (K := fun r => exists fd, r = Ok fd).
  { unfold openat. rewrite Hname. cbn [lift io_try io_bind]. apply wp_sys. intros a _. apply wp_ret.
    destruct (check_fd a) as [fd|e] eqn:Ef; [right; right; by exists fd|]. destruct a; try done. left. apply some_failed_one. }
  intros ? (fd & ->). by apply header_decides.
Qed.
End Decides.


(** The state directory of a target; leased objects stay in the ready shards. *)
Definition state_dir (t : Target) : bytes :=
  match location t with
  | LocReady _ | LocLeased _ _ _ => lit "ready"
  | LocDelayed _ _ => lit "delayed"
  | LocReceipt _ _ => lit "receipts"
  | LocDead _ _ => lit "dead"
  end.
(** The tag of an authentic name passes at its path, which lies in its shard. *)
Lemma authentic_tag q t c :
  is_receipts (state_dir t) = false -> authentic (layout q) t c ->
  exists tag, fsck_parse (state_dir t) (filename t) = Some (c, tag) /\
    fsck_verify_name_tag q (state_dir t) (location_components (location t) ++ [filename t]) c tag = true /\
    fsck_extract_shard_hex (state_dir t) (location_components (location t) ++ [filename t]) = Some (shard_hex (Target_shard t)).
Proof.
  destruct t as [l fn]. unfold state_dir, authentic, Target_shard. cbn [location filename]. intros Hs Ha.
  destruct l; try done; destruct Ha as (n & Hn & <- & Ha);
    unfold fsck_parse, fsck_verify_name_tag, fsck_extract_shard_hex, is_receipts; cbn [location_components app length Nat.eqb];
    repeat match goal with |- context [bool_decide (?a = ?b)] =>
      first [rewrite (bool_decide_true (a = b)) by reflexivity|rewrite (bool_decide_false (a = b)) by discriminate] end;
    cbn [andb orb lookup list_lookup].
  - exists (rn_tag n). rewrite Hn. repeat split; try done.
    destruct (parse_leased fn) as [n'|] eqn:Hl; [by destruct (ready_not_leased _ _ _ Hn Hl)|by destruct n].
  - exists (ln_tag n). destruct (parse_ready fn) as [n'|] eqn:Hr; [by destruct (ready_not_leased _ _ _ Hr Hn)|].
    rewrite Hn. destruct Ha as (Hb & Hbk & Ha). cbn in Hbk. rewrite Hbk. apply boot_id_bytes_iff in Hb as [_ <-].
    by repeat split.
  - exists (dn_tag n). rewrite Hn. repeat split; apply Ha.
  - exists (xn_tag n). rewrite Hn. repeat split; apply Ha.
Qed.

(** Every place the queue puts an object is sound: a whole envelope of the job
    that the layout names passes the check. *)
Lemma built_sound q t c content ve :
  Layout_wf (layout q) -> built (layout q) t c -> is_receipts (state_dir t) = false ->
  ValidatedEnvelope_from_bytes content false = Ok ve -> header_agrees (ve_header ve) c ->
  (fh_payload_length (ve_header ve) <= fr_max_payload_length (format (config q)))%Z ->
  fsck_sound q (state_dir t) (relative_path t) (filename t) content.
Proof.
  intros HL Hb Hs Hv Hh Hp. destruct (built_path _ _ _ HL Hb) as [_ Hsplit]. destruct (built_location _ _ _ HL Hb) as [_ Hsh].
  destruct (authentic_tag q t c Hs (built_authentic _ _ _ HL Hb)) as (tag & Hparse & Htag & Hx).
  exists ve, c, tag. rewrite Hsplit. do 5 (split; [done|]). intros hex s Hhex Hfrom. rewrite Hx in Hhex. injection Hhex as <-.
  assert (Hf : shard_from_hex (shard_hex (Target_shard t)) = Some (Target_shard t)).
  { apply shard_from_hex_Some. split; [done|]. rewrite Hsh. apply shard_for_range; done. }
  rewrite Hf in Hfrom. injection Hfrom as <-. exact Hsh.
Qed.

End Objects.

(** ** A sample check *)

(** The ready directory lists one shard, which lists a job and a stray name. *)
Definition fsck_script : list (list bytes) :=
  [[shard_hex sample_shard]; [filename sample_ready_object; lit "junk.sqj"]].
Definition fsck_disk : list SampleFile :=
  [mkSampleFile (filename sample_ready_object) 10 1 sample_job_file; mkSampleFile (lit "junk.sqj") 11 1 [x00]].
Definition sample_repair : FsckOptions := mkFsckOptions FsckRepair Structural.
Definition sample_fsck :=
  run (scripted_disk fsck_disk) (fsck_script, []) (@fsck checksum256 sample_texts 40 sample_repair sample_queue).
Lemma sample_fsck_exec :
  exec (@fsck checksum256 sample_texts 40 sample_repair sample_queue) sample_fsck.1.1 (sample_fsck.1.2.1, sample_fsck.1.2.2).
Proof. unfold sample_fsck. apply exec_run_pair. Qed.
Definition fsck_counts (r : option FsckReport) : option (Z * Z * nat) :=
  option_map (fun report => (total_objects report, structurally_verified report, length (quarantined_ids report))) r.

Lemma fsck_moves_recorded_witness :
  fsck_counts sample_fsck.1.2.1 = Some (2%Z, 1%Z, 1%nat) /\
  Forall (fun ev => placed ev = true -> sets_aside ev.1) sample_fsck.1.1 /\ config sample_fsck.1.2.2 = config sample_queue.
Proof.
  assert (Hc : fsck_counts sample_fsck.1.2.1 = Some (2%Z, 1%Z, 1%nat)) by (vm_compute; reflexivity).
  pose proof sample_fsck_exec as Hx. revert Hc Hx. generalize sample_fsck. intros [[tr [r q']] s]. cbn [fst snd].
  intros Hc Hx. split; [exact Hc|]. destruct r as [report|]; [|discriminate Hc].
  destruct (@fsck_moves_recorded checksum256 sample_texts sample_repair 40 sample_queue tr report q' Hx) as (H1 & _ & _ & _ & H5 & _).
  exact (conj H1 H5).
Defined.

Lemma fsck_report_accounts_witness :
  exists report missing, sample_fsck.1.2.1 = Some report /\ (0 <= missing <= 0)%Z /\
    total_objects report = (structurally_verified report + Z.of_nat (tally_of is_fault (findings report)) + missing)%Z.
Proof.
  assert (Hc : fsck_counts sample_fsck.1.2.1 = Some (2%Z, 1%Z, 1%nat)) by (vm_compute; reflexivity).
  assert (Ha : absent sample_fsck.1.1 = 0%nat) by (vm_compute; reflexivity).
  pose proof sample_fsck_exec as Hx. revert Hc Ha Hx. generalize sample_fsck. intros [[tr [r q']] s]. cbn [fst snd].
  intros Hc Ha Hx. destruct r as [report|]; [|discriminate Hc].
  destruct (@fsck_report_accounts checksum256 sample_texts sample_repair 40 sample_queue tr report q' Hx) as [(m & Hm & E) _].
  rewrite Ha in Hm. exists report, m. auto.
Defined.

Lemma fsck_ends_witness :
  exists report, sample_fsck.1.2.1 = Some report /\
    tally_of (is_type "quarantined") (findings report) = length (quarantined_ids report).
Proof.
  assert (Hs : (served sample_fsck.1.1 < 40)%nat) by (apply Nat.ltb_lt; vm_compute; reflexivity).
  pose proof sample_fsck_exec as Hx. revert Hs Hx. generalize sample_fsck. intros [[tr [r q']] s]. cbn [fst snd].
  intros Hs Hx. exact (@fsck_ends checksum256 sample_texts 40 sample_repair sample_queue tr r q' Hx Hs).
Defined.

(** A kernel that serves one object. *)
Definition object_kernel (content : bytes) (s : unit) (c : Syscall) : Answer * unit :=
  match c with
  | SysFstatat _ _ _ => (Stats (mkStat 1 7 33188 1 (Z.of_nat (length content))), s)
  | _ => sample_file_kernel content s c
  end.
Lemma object_kernel_tells {A} content (p : io A) : Forall (tells content) (run (object_kernel content) tt p).1.1.
Proof.
  induction p as [a|c k IH]; cbn [run]; [constructor|].
  destruct (object_kernel content tt c) as [r []] eqn:E.
  specialize (IH r). destruct (run _ tt (k r)) as [[tr a] u]. constructor; [|exact IH]. clear IH.
  assert (Hs : forall fd, serves fd content (c, (sample_file_kernel content tt c).1)).
  { intros fd. pose proof (sample_kernel_serves fd content (Sys c (fun _ => Ret tt))) as Hf. by inversion Hf. }
  destruct c; cbn [object_kernel] in E; rewrite E in Hs || clear Hs; split; try done; by injection E as <-.
Qed.
Definition sample_object_check :=
  run (object_kernel sample_job_file) tt
    (@fsck_file checksum256 sample_texts 9 (state_dir sample_ready_object) (relative_path sample_ready_object)
       (filename sample_ready_object) sample_repair (mkFCtx (mkCtx sample_queue None) FsckReport_default)).

Lemma sample_object_exec :
  exec (@fsck_file checksum256 sample_texts 9 (state_dir sample_ready_object) (relative_path sample_ready_object)
      (filename sample_ready_object) sample_repair (mkFCtx (mkCtx sample_queue None) FsckReport_default))
    sample_object_check.1.1 (sample_object_check.1.2.1, sample_object_check.1.2.2).
Proof. unfold sample_object_check. apply exec_run_pair. Qed.
Lemma sample_object_tells : Forall (tells sample_job_file) sample_object_check.1.1.
Proof. unfold sample_object_check. apply object_kernel_tells. Qed.


Definition sample_common : CommonFields := mkCommon (replicate 16 x2a) 3 0 5.
Definition sample_envelope : ValidatedEnvelope :=
  match @ValidatedEnvelope_from_bytes checksum256 sample_job_file false with
  | Ok ve => ve
  | Err _ => mkValidatedEnvelope sample_job_header [] []
  end.
Lemma sample_placed : @built checksum256 (layout sample_queue) sample_ready_object sample_common.
Proof. apply built_ready. by vm_compute. Qed.
Lemma sample_place : is_receipts (state_dir sample_ready_object) = false.
Proof. by vm_compute. Qed.
Lemma sample_whole : @ValidatedEnvelope_from_bytes checksum256 sample_job_file false = Ok sample_envelope.
Proof. vm_compute. reflexivity. Qed.
Lemma sample_agrees : header_agrees (ve_header sample_envelope) sample_common.
Proof. by vm_compute. Qed.
Lemma sample_fits : (fh_payload_length (ve_header sample_envelope) <= fr_max_payload_length (format (config sample_queue)))%Z.
Proof. by vm_compute. Qed.

