(* ===== verification/Setup.v ===== *)
(** * Creating and opening a queue

    Models [Queue::init] and [Queue::open] of [crates/steadq-core/src/queue/mod.rs]
    with the functions of the standard library they use.  [Queue_init] writes the
    directories, the locks, the watermark and last the FORMAT file;
    [Queue_open] reads them back into a handle.

    Two operations of the standard library are an interface, because their
    sequences of system calls are the library's own: [create_dir_all], which
    only makes directories, and the sizes of the reads of [read_to_string].
    The reads of the boot id continue until the file ends, so [Queue_open] takes
    fuel; [None] means it ran out. *)
From stdpp Require Import base numbers list option strings gmap.
From Stdlib Require Import Strings.Byte ZArith.
From S2P Require Import Prelude Math Names Format Cbor FsLinux FsRead FsDir StateMachine Ticket Layout Engine Logic Verified Queue Watermark Publish Consumer Quarantine Lease Inspect Recovery Phases Cursor Fsck.
Open Scope string_scope.
Open Scope list_scope.

(** ** Paths ([std::path]) *)

Definition has_root (p : bytes) : bool := bool_decide (head p = Some "/"%byte).
(** A leading [.] component is kept. *)
Definition include_cur_dir (p : bytes) : bool :=
  match p with
  | "."%byte :: rest => match rest with [] => true | b :: _ => bool_decide (b = "/"%byte) end
  | _ => false
  end.
Definition len_before_body (p : bytes) : nat := if has_root p || include_cur_dir p then 1%nat else 0%nat.
(** The last component of a body: its bytes after the last separator, and
    whether there is one. *)
Fixpoint last_component (body : bytes) : bytes * bool :=
  match body with
  | [] => ([], false)
  | b :: rest =>
      match last_component rest with
      | (comp, true) => (comp, true)
      | (comp, false) => if bool_decide (b = "/"%byte) then (comp, true) else (b :: comp, false)
      end
  end.
(** The size of the last component with its separator; empty and [.]
    components count as none. *)
Definition parse_next_component_back (start : nat) (p : bytes) : nat * bool :=
  let (comp, separated) := last_component (drop start p) in
  ((length comp + (if separated then 1 else 0))%nat, negb (bool_decide (comp = []) || bool_decide (comp = lit "."))).
Fixpoint trim_right (fuel start : nat) (p : bytes) : bytes :=
  match fuel with
  | O => p
  | S fuel' =>
      if (start <? length p)%nat then
        let (size, some) := parse_next_component_back start p in
        if some then p else trim_right fuel' start (take (length p - size) p)
      else p
  end.
(** [Path::parent] *)
Definition path_parent (p : bytes) : option bytes :=
  let start := len_before_body p in
  let body := trim_right (length p) start p in
  if (start <? length body)%nat then
    let (size, _) := parse_next_component_back start body in
    Some (trim_right (length p) start (take (length body - size) body))
  else if has_root p then None
  else if include_cur_dir p then Some []
  else None.

(** ** Text ([str::trim]) *)

(** The encodings of the code points with the property [White_Space]. *)
Definition white_space : list bytes :=
  [[x09]; [x0a]; [x0b]; [x0c]; [x0d]; [x20]; [xc2; x85]; [xc2; xa0]; [xe1; x9a; x80];
   [xe2; x80; x80]; [xe2; x80; x81]; [xe2; x80; x82]; [xe2; x80; x83]; [xe2; x80; x84]; [xe2; x80; x85];
   [xe2; x80; x86]; [xe2; x80; x87]; [xe2; x80; x88]; [xe2; x80; x89]; [xe2; x80; x8a]; [xe2; x80; xa8];
   [xe2; x80; xa9]; [xe2; x80; xaf]; [xe2; x81; x9f]; [xe3; x80; x80]].
Fixpoint trim_prefixes (fuel : nat) (spaces : list bytes) (s : bytes) : bytes :=
  match fuel with
  | O => s
  | S fuel' =>
      match List.find (fun w => bool_decide (take (length w) s = w)) spaces with
      | Some w => trim_prefixes fuel' spaces (drop (length w) s)
      | None => s
      end
  end.
Definition trim_start (s : bytes) : bytes := trim_prefixes (length s) white_space s.
Definition trim_end (s : bytes) : bytes := rev (trim_prefixes (length s) (map (@rev byte) white_space) (rev s)).
Definition trim (s : bytes) : bytes := trim_end (trim_start s).

(** ** Files ([std::fs]) *)

Class StdFs : Type := {
  create_dir_all : bytes -> io (result unit IoError);
  read_size : nat -> nat
}.
Definition makes_directories (c : Syscall) : bool :=
  match c with
  | SysMkdirat d _ _ | SysFstatat d _ _ => (d =? AT_FDCWD)%Z
  | _ => false
  end.
Class StdFsLaws `{StdFs} : Prop := {
  create_dir_all_calls path tr r : exec (create_dir_all path) tr r -> Forall (fun ev => makes_directories ev.1 = true) tr;
  read_size_positive n : (0 < read_size n)%nat
}.

(** [Path::exists]: the metadata, through symbolic links, can be read. *)
Definition path_exists (path : bytes) : io bool :=
  match cstr_from_bytes path with
  | Err _ => Ret false
  | Ok c_path => Sys (SysFstatat AT_FDCWD c_path 0) (fun r => Ret (is_ok (check_stat r)))
  end.

(** [read_to_end] on a file that yields at most [limit] bytes into a buffer of
    that capacity: every read asks for the rest. *)
Fixpoint read_limited (fuel : nat) (fd : Z) (limit : nat) (acc : bytes) : io (result bytes IoError) :=
  match fuel with
  | O => Ret (Ok acc)
  | S fuel' =>
      if (limit =? 0)%nat then Ret (Ok acc)
      else
        let!? data := read fd limit in
        match data with
        | [] => Ret (Ok acc)
        | _ => read_limited fuel' fd (limit - length data) (acc ++ data)
        end
  end.
Definition read_to_end_take (fd : Z) (limit : nat) : io (result bytes IoError) := read_limited limit fd limit [].

Section Std.
Context {F : StdFs}.

Fixpoint read_to_end (fuel : nat) (fd : Z) (acc : bytes) : io (option (result bytes IoError)) :=
  match fuel with
  | O => Ret None
  | S fuel' =>
      let! data := read fd (read_size (length acc)) in
      match data with
      | Err e => Ret (Some (Err e))
      | Ok [] => Ret (Some (Ok acc))
      | Ok data => read_to_end fuel' fd (acc ++ data)
      end
  end.
Definition read_to_string (fuel : nat) (path : bytes) : io (option (result bytes IoError)) :=
  let!+ c_path := fueled (lift (cstr_from_bytes path)) in
  let!+ fd := fueled (Sys (SysOpenat AT_FDCWD c_path (Z.lor O_RDONLY O_CLOEXEC) 0) (fun r => Ret (check_fd r))) in
  let!+ data := read_to_end fuel fd [] in
  Ret (Some (if utf8_valid data then Ok data else Err (CustomError KInvalidData "stream did not contain valid UTF-8"))).

Definition boot_id_string (raw : bytes) : bytes := trim raw.
Definition BOOT_ID_PATH : bytes := lit "/proc/sys/kernel/random/boot_id".
Definition read_boot_id (fuel : nat) : io (option (result bytes IoError)) :=
  let! r := read_to_string fuel BOOT_ID_PATH in
  Ret (option_map (fun r => match r with Ok s => Ok (trim s) | Err e => Err e end) r).
End Std.

(** [for x in xs { step(x)?; }] *)
Fixpoint each {A B E : Type} (step : A -> io (result B E)) (xs : list A) : io (result unit E) :=
  match xs with
  | [] => Ret (Ok tt)
  | x :: xs => let!? _ := step x in each step xs
  end.

(** ** Creation *)

Section Setup.
Context `{Sha256} {T : Texts} {J : CursorJson} {F : StdFs}.

(** The root directory, created when it is not there. *)
Definition init_root (root : bytes) : io (result Z IoError) :=
  let! present := path_exists root in
  let check_path := if present then root else default root (path_parent root) in
  let!? ft := io_map_err (fun e => CustomError KOther ("statfs: " +:+ io_text e)) (fs_type_magic check_path) in
  match supported_filesystem_name ft with
  | None =>
      Ret (Err (CustomError KUnsupported ("filesystem type not supported for queue (observed magic " +:+ hex_text ft
        +:+ "; requires ext4, xfs, btrfs, f2fs, or zfs)")))
  | Some _ =>
      let! present := path_exists root in
      let!? _ :=
        (if present then Ret (Ok tt)
         else
           let!? _ := create_dir_all root in
           match path_parent root with
           | Some parent => let!? parent_fd := open_dir_absolute parent in fsync_dir_fd parent_fd
           | None => Ret (Ok tt)
           end) in
      open_dir_absolute root
  end.

Definition INIT_MARKER : bytes := lit ".initializing".
Definition FORMAT_NAME : bytes := lit "FORMAT".
(** The exclusive marker; a stale one is removed first. *)
Definition create_init_marker (root_fd : Z) : io (result Z IoError) :=
  let! created := create_exclusive root_fd INIT_MARKER 384 in
  match created with
  | Ok fd => Ret (Ok fd)
  | Err e =>
      if bool_decide (kind e = KAlreadyExists) then
        let!? _ := unlinkat root_fd INIT_MARKER in
        io_map_err (fun _ => CustomError KAlreadyExists "could not acquire init lock after cleaning stale marker")
          (create_exclusive root_fd INIT_MARKER 384)
      else Ret (Err e)
  end.

(** A lock file, created or opened. *)
Definition create_or_open_lock (control_fd : Z) (lock_file : bytes) : io (result Z IoError) :=
  let! created := create_exclusive control_fd lock_file 384 in
  match created with
  | Ok fd => Ret (Ok fd)
  | Err e =>
      if bool_decide (kind e = KAlreadyExists) then openat control_fd lock_file (lock_open_flags O_RDWR) 384
      else Ret (Err e)
  end.
Definition init_lock (root_fd : Z) : io (result Z IoError) :=
  let!? _ := mkdirat_eexist_ok root_fd (lit "control") 448 in
  let!? control_fd := open_directory root_fd (lit "control") in
  let!? lock_fd := create_or_open_lock control_fd (lit "maintenance.lock") in
  let!? locked := try_ofd_write_lock lock_fd in
  if negb locked
  then Ret (Err (CustomError KWouldBlock "another initializer or maintenance process holds the lock"))
  else Ret (Ok lock_fd).

Definition INIT_DIRECTORIES : list bytes :=
  [lit "control"; lit "tmp"; lit "ready"; lit "leased"; lit "delayed"; lit "receipts"; lit "dead"; lit "quarantine"].
Definition init_directories (root_fd : Z) : io (result unit IoError) :=
  let!? _ := each (fun dir => mkdirat_eexist_ok root_fd dir 448) INIT_DIRECTORIES in
  fsync_dir_fd root_fd.
Definition init_shards (root_fd : Z) (opts : CreateOptions) : io (result unit IoError) :=
  let!? ready_fd := open_directory root_fd (lit "ready") in
  let!? _ := each (fun i => mkdirat_eexist_ok ready_fd (shard_hex (Z.of_nat i)) 448) (seq 0 (Z.to_nat (co_shard_count opts))) in
  let!? _ := fsync_dir_fd ready_fd in
  fsync_dir_fd root_fd.

Definition LOCK_FILES : list bytes := [lit "maintenance.lock"; lit "wall-watermark.lock"; lit "recovery.lock"].
Definition init_control (root_fd : Z) : io (result Z IoError) :=
  let!? control_fd := open_directory root_fd (lit "control") in
  let!? _ := each (fun lock_file => let!? fd := create_or_open_lock control_fd lock_file in fsync fd) LOCK_FILES in
  let!? _ := fsync_dir_fd control_fd in
  let!? _ := fsync_dir_fd root_fd in
  Ret (Ok control_fd).

(** A synced file under a fresh temporary name. *)
Definition write_temporary (dir_fd : Z) (prefix data : bytes) : io (result bytes IoError) :=
  let!? rand := random_128bit in
  let name := prefix ++ hex_encode rand in
  let!? fd := create_exclusive dir_fd name 384 in
  let!? _ := write_all_settled fd data in
  let!? _ := fsync fd in
  Ret (Ok name).
Definition init_watermark (control_fd : Z) (opts : CreateOptions) (created_at : Z) : io (result unit IoError) :=
  match bucket_number created_at (co_delayed_bucket_width_ns opts) with
  | None => Ret (Err (CustomError KInvalidInput "zero bucket width in init"))
  | Some wall_bucket =>
      let!? wm_tmp_name := write_temporary control_fd (lit ".wm.tmp.") (WatermarkRecord_encode (mkWatermarkRecord wall_bucket 0)) in
      let!? _ := renameat control_fd wm_tmp_name control_fd (lit "wall-watermark") in
      fsync_dir_fd control_fd
  end.
Definition init_format (root_fd : Z) (format_rec : FormatRecord) : io (result unit IoError) :=
  let!? fmt_tmp_name := write_temporary root_fd (lit ".format.tmp.") (FormatRecord_encode format_rec) in
  let!? _ := fchmodat root_fd fmt_tmp_name 256 in
  let! moved := move_verified_noreplace root_fd fmt_tmp_name root_fd FORMAT_NAME in
  match moved with
  | Ok _ => Ret (Ok tt)
  | Err MoveAlreadyExists =>
      let! _ := ignore (unlinkat root_fd fmt_tmp_name) in
      Ret (Err (CustomError KAlreadyExists "another initializer published FORMAT first"))
  | Err (MoveNotCommitted phase source) =>
      let! _ := ignore (unlinkat root_fd fmt_tmp_name) in
      Ret (Err (CustomError KOther ("FORMAT publication failed at " +:+ move_phase_text phase +:+ ": " +:+ io_text source)))
  | Err (MoveOutcomeUnknown phase source) =>
      Ret (Err (CustomError KOther ("FORMAT publication indeterminate at " +:+ move_phase_text phase +:+ ": " +:+ io_text source)))
  | Err MoveSourceMissing => Ret (Err (CustomError KOther "FORMAT temp file vanished during publication"))
  end.

(** What init does while the guard of its marker is armed. *)
Definition init_guarded (root_fd : Z) (opts : CreateOptions) : io (result FormatRecord IoError) :=
  let!? _ := init_lock root_fd in
  let!? queue_id := random_128bit in
  let!? created_at := clock_realtime_ns in
  let!? format_rec := lift (map_err (fun e => CustomError KOther (format_text e))
    (FormatRecord_new queue_id created_at (co_shard_count opts) (co_lease_bucket_width_ns opts)
       (co_delayed_bucket_width_ns opts) (co_terminal_bucket_width_ns opts) (co_max_payload_length opts))) in
  let!? _ := init_directories root_fd in
  let!? _ := init_shards root_fd opts in
  let!? control_fd := init_control root_fd in
  let!? _ := init_watermark control_fd opts created_at in
  let!? _ := init_format root_fd format_rec in
  Ret (Ok format_rec).

Definition Queue_init (root : bytes) (opts : CreateOptions) : io (result FormatRecord IoError) :=
  match validate_create_options opts with
  | Err e => Ret (Err (CustomError KInvalidInput (Error_fmt e)))
  | Ok _ =>
      let!? root_fd := init_root root in
      let! format_exists := fstatat root_fd FORMAT_NAME in
      if is_ok format_exists
      then Ret (Err (CustomError KAlreadyExists "queue already initialized; use open() to access an existing queue"))
      else
        let!? _ := create_init_marker root_fd in
        let! outcome := init_guarded root_fd opts in
        match outcome with
        | Err e => let! _ := ignore (unlinkat root_fd INIT_MARKER) in Ret (Err e)
        | Ok format_rec =>
            let! _ := ignore (unlinkat root_fd INIT_MARKER) in
            let! _ := ignore (fsync_dir_fd root_fd) in
            Ret (Ok format_rec)
        end
  end.

(** ** Opening *)

Definition open_format (root_fd : Z) : io (result FormatRecord Error) :=
  let! format_fd := open_regular_read root_fd FORMAT_NAME in
  match format_fd with
  | Err e =>
      if os_error_in [ENOENT] e then
        let! marker := fstatat root_fd INIT_MARKER in
        Ret (Err (QueueCorrupt (if is_ok marker
          then "queue initialization was interrupted; remove .initializing and retry init"
          else "FORMAT file is missing")))
      else Ret (Err (regular_open_error e))
  | Ok (format_fd, _) =>
      let!? format_bytes := io_map_err Error_of_io (read_to_end_take format_fd (FORMAT_SIZE + 1)) in
      lift (map_err (fun e => match e with
        | FormatUnsupportedVersion _ _ => UnsupportedFormat
        | _ => QueueCorrupt ("FORMAT decode: " +:+ format_text e)
        end) (FormatRecord_decode format_bytes))
  end.

(** The receipts of an acknowledged job stay within reach of the probe. *)
Definition check_retention (opts : OpenOptions) (format_rec : FormatRecord) : result unit Error :=
  match ceiling_bucket (receipt_retention_ns opts) (fr_terminal_bucket_width_ns format_rec) with
  | None => Err (QueueCorrupt "invalid terminal bucket width")
  | Some buckets =>
      if (4096 <? usize_saturating_add buckets 2)%Z
      then Err (InvalidInput "receipt retention exceeds duplicate-ack probe bound")
      else Ok tt
  end.

Definition check_state_directory (root_fd : Z) (root_stat : Stat) (state_dir : bytes) : io (result unit Error) :=
  let! stat := fstatat root_fd state_dir in
  Ret (match stat with
       | Ok stat =>
           if negb (st_dev stat =? st_dev root_stat)%Z
           then Err (QueueCorrupt ("state directory '" +:+ bytes_text state_dir +:+ "' is on a different device than root"))
           else if negb (is_directory stat)
           then Err (QueueCorrupt ("state path '" +:+ bytes_text state_dir +:+ "' is not a directory"))
           else Ok tt
       | Err _ => Err (QueueCorrupt ("required state directory '" +:+ bytes_text state_dir +:+ "' is missing"))
       end).

Definition Queue_open (fuel : nat) (root : bytes) (opts : OpenOptions) : io (option (result Queue Error)) :=
  let!+ root_fd := fueled (io_map_err Error_of_io (open_dir_absolute root)) in
  let!+ root_stat := fueled (io_map_err Error_of_io (fstat root_fd)) in
  if negb (is_directory root_stat) then Ret (Some (Err (QueueCorrupt "root path is not a directory")))
  else
    let!+ format_rec := fueled (open_format root_fd) in
    let!+ _ := fueled (lift (check_retention opts format_rec)) in
    let! observation := fs_type_magic root in
    let!+ filesystem_type := fueled (lift (classify_filesystem_type observation (allow_unsupported_fs opts))) in
    let!+ _ := fueled (each (check_state_directory root_fd root_stat) STATE_DIRECTORIES) in
    let!+ boot_id := fuel_map_err Error_of_io (read_boot_id fuel) in
    match boot_id_bytes boot_id with
    | None => Ret (Some (Err (InvalidInput "invalid boot_id format")))
    | Some boot_id_bin =>
        let!+ worker_nonce := fueled (io_map_err Error_of_io random_128bit) in
        let!+ maint_fd := fueled (io_map_err Error_of_io
          (openat root_fd (lit "control/maintenance.lock") (lock_open_flags O_RDONLY) 0)) in
        let!+ locked := fueled (io_map_err Error_of_io (try_ofd_read_lock maint_fd)) in
        if negb locked then Ret (Some (Err MaintenanceBusy))
        else
          let!+ recovery_cursor := fueled (load_recovery_cursor root_fd (fr_queue_id format_rec)) in
          Ret (Some (Ok
            (mkQueue
               (mkQueueConfig root_fd root format_rec boot_id boot_id_bin worker_nonce opts (Some maint_fd)
                  (oo_deferred_dir_sync opts))
               None 0 None recovery_cursor None None (init_synced_directories format_rec) None
               (filesystem_type ≫= preferred_publication_mode) DirtySet_new None false)))
    end.
End Setup.
