(* ===== verification/Lifecycle.v ===== *)
(** * What creating and opening a queue guarantee

    Theorems on [Setup]: an opened handle satisfies what the theorems about
    every other component assume of it, and opening alters nothing; creation
    makes and syncs everything else before it publishes FORMAT, and what it
    publishes opens again. *)
From stdpp Require Import base numbers list option strings gmap.
From Stdlib Require Import Strings.Byte ZArith.
From S2P Require Import Prelude Math Names Format Cbor FsLinux FsRead FsDir StateMachine Ticket Layout Engine Logic Verified Queue Watermark Publish Consumer Quarantine Lease Inspect Recovery Phases Cursor Maintenance Pass Fsck Setup.
Open Scope string_scope.
Open Scope list_scope.

(** ** What successful results satisfy *)

Definition gives {A E : Type} (p : io (result A E)) (P : A -> Prop) : Prop := forall tr a, exec p tr (Ok a) -> P a.
Definition yields {A E : Type} (p : io (option (result A E))) (P : A -> Prop) : Prop :=
  forall tr a, exec p tr (Some (Ok a)) -> P a.

Lemma gives_lift {A E} (r : result A E) (P : A -> Prop) : (forall a, r = Ok a -> P a) -> gives (lift r) P.
Proof. intros HP tr a [_ E0]%exec_ret. by apply HP. Qed.
Lemma gives_err {A E} (e : E) (P : A -> Prop) : gives (Ret (Err e)) P.
Proof. by intros tr a [_ E0]%exec_ret. Qed.
Lemma gives_ret {A E} (a : A) (P : A -> Prop) : P a -> gives (Ret (Ok a : result A E)) P.
Proof. by intros HP tr b [_ [= ->]]%exec_ret. Qed.
Lemma gives_map_err {A E F} (f : E -> F) (m : io (result A E)) (P : A -> Prop) : gives m P -> gives (io_map_err f m) P.
Proof. intros Hm tr a Ha%exec_map_err_ok. by eapply Hm. Qed.
Lemma gives_bind {A B E} (m : io A) (f : A -> io (result B E)) (P : B -> Prop) : (forall a, gives (f a) P) -> gives (io_bind m f) P.
Proof. intros Hf tr b (t1 & t2 & a & _ & _ & H2)%exec_bind. by eapply Hf. Qed.
Lemma gives_try {A B E} (m : io (result A E)) (f : A -> io (result B E)) (P : B -> Prop) :
  (forall a, gives (f a) P) -> gives (io_try m f) P.
Proof. intros Hf tr b [(e & _ & E0)|(t1 & t2 & a & _ & _ & H2)]%exec_try; [done|]. by eapply Hf. Qed.
Lemma gives_sys {A E} c (f : Answer -> result A E) (P : A -> Prop) :
  (forall r a, f r = Ok a -> P a) -> gives (Sys c (fun r => Ret (f r))) P.
Proof. intros Hf [|[c' r] tr] a; [done|]. intros [_ [_ E0]%exec_ret]. by eapply Hf. Qed.
Lemma gives_any {A E} (p : io (result A E)) : gives p (fun _ => True).
Proof. done. Qed.

Lemma yields_plus {A B E} (m : io (option (result A E))) (k : A -> io (option (result B E))) (P : A -> Prop) (Q : B -> Prop) :
  yields m P -> (forall a, P a -> yields (k a) Q) -> yields (let!+ x := m in k x) Q.
Proof.
  intros Hm Hk tr b (t1 & t2 & [[a|e]|] & _ & H1 & H2)%exec_bind; [|by apply exec_ret in H2 as [_ ?]..].
  eapply Hk; [by eapply Hm|done].
Qed.
Lemma yields_fueled {A E} (m : io (result A E)) (P : A -> Prop) : gives m P -> yields (fueled m) P.
Proof. intros Hm tr a (t1 & t2 & r & _ & H1 & [_ [= <-]]%exec_ret)%exec_bind. by eapply Hm. Qed.
Lemma yields_any {A E} (p : io (option (result A E))) : yields p (fun _ => True).
Proof. done. Qed.
Lemma results_bind {A B E} (m : io A) (f : A -> io (option (result B E))) (P : B -> Prop) :
  (forall a, yields (f a) P) -> yields (io_bind m f) P.
Proof. intros Hf tr b (t1 & t2 & a & _ & _ & H2)%exec_bind. by eapply Hf. Qed.
Lemma yields_err {A E} (e : E) (P : A -> Prop) : yields (Ret (Some (Err e))) P.
Proof. by intros tr a [_ E0]%exec_ret. Qed.

Lemma gives_random : gives random_128bit (fun data => length data = 16%nat).
Proof.
  apply gives_sys. intros r a. unfold check_random. destruct r as [| | |data| | |]; try done.
  destruct (_ =? _)%nat eqn:E; [|done]. intros [= <-]. by apply Nat.eqb_eq.
Qed.

Section Opened.
Context `{Sha256Spec} {T : Texts} {J : CursorJson} {F : StdFs}.

Lemma gives_format root : gives (open_format root) (fun r => FormatRecord_wf r /\ queue_parameters_ok r).
Proof.
  apply gives_bind. intros [[fd st]|e].
  - apply gives_try. intros data. apply gives_lift. intros r Hr.
    destruct (FormatRecord_decode data) as [r'|] eqn:E; [injection Hr as <-|done].
    apply FormatRecord_decode_iff in E as (Hwf & Hp & _). split; [done|]. by apply check_format_parameters_iff.
  - destruct (os_error_in _ e); [apply gives_bind; intros; apply gives_err|apply gives_err].
Qed.
Lemma gives_cursor root qid : gives (load_recovery_cursor root qid) (fun c => cursor_is_valid c = true).
Proof.
  apply gives_try. intros control. apply gives_bind. intros [fd|e].
  - apply gives_try. intros st. repeat case_match; try apply gives_err. apply gives_try. intros data. apply gives_lift.
    intros c Hc. destruct (cursor_from_slice data) as [record|]; [|done]. cbn in Hc. unfold accept_cursor_record in Hc.
    repeat case_match; try done. injection Hc as <-. by destruct (cursor_is_valid _).
  - apply gives_lift. intros c. destruct (cursor_file_is_absent e); [|done]. by intros [= <-].
Qed.

Lemma layout_of_parameters q :
  queue_parameters_ok (Queue.format (config q)) -> Layout_wf (layout q).
Proof.
  intros ((k & Hk & E) & Hl & Hd & Ht & _). split; [exists (Z.of_nat k); split; [lia|done]|]. cbn. lia.
Qed.

(** What the theorems about an open queue assume of its handle. *)
Definition ready_to_use (opts : OpenOptions) (root : bytes) (q : Queue) : Prop :=
  Layout_wf (layout q) /\ queue_parameters_ok (Queue.format (config q)) /\ cursor_is_valid (recovery_cursor q) = true /\
  poisoned q = None /\ cached_wall_floor q = None /\ dirty q = DirtySet_new /\
  known_dirs q = init_synced_directories (Queue.format (config q)) /\
  boot_id_bytes (boot_id (config q)) = Some (q_boot_id_bytes (config q)) /\ length (worker_nonce (config q)) = 16%nat /\
  options (config q) = opts /\ root_path (config q) = root /\
  exists buckets, ceiling_bucket (receipt_retention_ns opts) (fr_terminal_bucket_width_ns (Queue.format (config q))) = Some buckets /\
    (buckets + 2 <= 4096)%Z.

Lemma retention_bound opts r a :
  check_retention opts r = Ok a ->
  exists buckets, ceiling_bucket (receipt_retention_ns opts) (fr_terminal_bucket_width_ns r) = Some buckets /\ (buckets + 2 <= 4096)%Z.
Proof.
  unfold check_retention, usize_saturating_add, u64_max. destruct (ceiling_bucket _ _) as [buckets|]; [|done].
  destruct (_ <? _)%Z eqn:E; [done|]. breflect. intros _. exists buckets. split; [done|lia].
Qed.

Lemma open_yields fuel root opts : yields (Queue_open fuel root opts) (ready_to_use opts root).
Proof.
  unfold Queue_open.
  eapply yields_plus; [apply yields_any|]. intros root_fd _.
  eapply yields_plus; [apply yields_any|]. intros root_stat _.
  destruct (negb (is_directory root_stat)); [apply yields_err|].
  eapply yields_plus; [apply yields_fueled, gives_format|]. intros r [Hwf Hp].
  eapply yields_plus; [apply yields_fueled, gives_lift, retention_bound|]. intros [] Hr.
  apply results_bind. intros observation. eapply yields_plus; [apply yields_any|]. intros fs _.
  eapply yields_plus; [apply yields_any|]. intros _ _. eapply yields_plus; [apply yields_any|]. intros boot _.
  destruct (boot_id_bytes boot) as [bin|] eqn:Hb; [|apply yields_err].
  eapply yields_plus; [apply yields_fueled, gives_map_err, gives_random|]. intros nonce Hn.
  eapply yields_plus; [apply yields_any|]. intros maint _. eapply yields_plus; [apply yields_any|]. intros locked _.
  destruct (negb locked); [apply yields_err|].
  eapply yields_plus; [apply yields_fueled, gives_cursor|]. intros cursor Hc tr q [_ [= ->]]%exec_ret.
  split; [by apply layout_of_parameters|]. by repeat (split; [done|]).
Qed.

(** ** Opening alters nothing *)

Section Reads.
Context {sel : Syscall -> bool} `{!Acting sel}.

Lemma silent_fueled {A} (m : io A) : silent sel m -> silent sel (fueled m).
Proof. intros Hm. unfold fueled. silence. Qed.
Lemma silent_fuel_map_err {A E1 E2} (f : E1 -> E2) (m : io (option (result A E1))) : silent sel m -> silent sel (fuel_map_err f m).
Proof. intros Hm. unfold fuel_map_err. silence. Qed.
Ltac quiet := silence; repeat ((apply silent_fueled || apply silent_fuel_map_err); silence).
Lemma silent_open_dir_absolute path : silent sel (open_dir_absolute path).
Proof. unfold open_dir_absolute. silence. Qed.
Lemma silent_fs_type_magic path : silent sel (fs_type_magic path).
Proof. unfold fs_type_magic. silence. Qed.
Lemma silent_stream_read fd len : silent sel (read fd len).
Proof. unfold read. silence. Qed.
#[local] Hint Resolve silent_stream_read silent_open_dir_absolute silent_fs_type_magic : silent.
Lemma silent_read_limited fuel fd limit acc : silent sel (read_limited fuel fd limit acc).
Proof.
  revert limit acc. induction fuel as [|fuel IH]; intros limit acc; cbn [read_limited]; [silence|].
  destruct (limit =? 0)%nat; silence.
Qed.
Lemma silent_read_to_end fuel fd acc : silent sel (read_to_end fuel fd acc).
Proof. revert acc. induction fuel as [|fuel IH]; intros acc; cbn [read_to_end]; silence. Qed.
#[local] Hint Resolve silent_read_limited silent_read_to_end : silent.
Lemma silent_read_boot_id fuel : silent sel (read_boot_id fuel).
Proof. unfold read_boot_id, read_to_string. quiet. Qed.
Lemma silent_open_format root : silent sel (open_format root).
Proof. unfold open_format, open_regular_read, read_to_end_take. quiet. Qed.
Lemma silent_each {A B E} (step : A -> io (result B E)) xs : (forall x, silent sel (step x)) -> silent sel (each step xs).
Proof. intros Hs. induction xs as [|x xs IH]; cbn [each]; silence. Qed.
Lemma silent_state_directory root st d : silent sel (check_state_directory root st d).
Proof. unfold check_state_directory. silence. Qed.
Lemma silent_load_cursor root qid : silent sel (load_recovery_cursor root qid).
Proof. unfold load_recovery_cursor. quiet. Qed.
#[local] Hint Resolve silent_read_boot_id silent_open_format silent_state_directory silent_load_cursor : silent.
Lemma silent_open fuel root opts : silent sel (Queue_open fuel root opts).
Proof.
  unfold Queue_open. quiet. apply silent_each. auto with silent.
Qed.
End Reads.

(** C15: A queue that opens is ready for every operation.  If [Queue::open]
    returns a handle, its layout is well formed and its parameters are those
    the format allows, its recovery cursor is valid, it is not poisoned, has no
    cached floor and no unsynced directories, it takes as known exactly the
    directories that creation syncs, its boot id is well formed, its nonce has
    sixteen bytes, and the receipts of its retention lie within the probe of
    4096 buckets.  Whatever it returns, opening altered and synced nothing. *)
Theorem open_establishes fuel root opts tr r :
  exec (Queue_open fuel root opts) tr r ->
  tally acts tr = 0%nat /\ forall q, r = Some (Ok q) -> ready_to_use opts root q.
Proof.
  intros Hx. split; [exact (silent_open fuel root opts tr r Hx)|]. intros q ->. by eapply open_yields.
Qed.
End Opened.

(** ** Creation publishes FORMAT last *)

(** In the trace, the directory was made, or was there, and its parent synced
    afterwards. *)
Definition dir_durable (parent : Z) (name : bytes) (tr : list event) : Prop :=
  exists t1 a t2 b t3, tr = t1 ++ (SysMkdirat parent name 448, a) :: t2 ++ (SysFsync parent, b) :: t3 /\
    (failed a = false \/ a = Fails EEXIST) /\ failed b = false.
(** A new file got exactly these bytes and was synced. *)
Definition file_durable (dir : Z) (name data : bytes) (tr : list event) : Prop :=
  exists t1 flags a fd tw b t2, tr = t1 ++ (SysOpenat dir name flags 384, a) :: tw ++ (SysFsync fd, b) :: t2 /\
    Z.land flags O_EXCL <> 0%Z /\ check_fd a = Ok fd /\ written tw = data /\
    Forall (fun ev => exists d, ev.1 = SysWrite fd d) tw /\ failed b = false.
Definition opened_as (dir : Z) (name : bytes) (fd : Z) (tr : list event) : Prop :=
  exists flags a, (SysOpenat dir name flags 0, a) ∈ tr /\ check_fd a = Ok fd.

Lemma dir_durable_in s d n tr t : dir_durable d n tr -> dir_durable d n (s ++ tr ++ t).
Proof.
  intros (t1 & a & t2 & b & t3 & -> & Ha & Hb). exists (s ++ t1), a, t2, b, (t3 ++ t).
  split; [by rewrite <- !app_assoc; cbn; rewrite <- !app_assoc|done].
Qed.
Lemma file_durable_in s d n data tr t : file_durable d n data tr -> file_durable d n data (s ++ tr ++ t).
Proof.
  intros (t1 & flags & a & fd & tw & b & t2 & -> & HH). exists (s ++ t1), flags, a, fd, tw, b, (t2 ++ t).
  split; [by rewrite <- !app_assoc; cbn; rewrite <- !app_assoc|done].
Qed.
Lemma opened_as_in s d n fd tr t : opened_as d n fd tr -> opened_as d n fd (s ++ tr ++ t).
Proof. intros (flags & a & Hin & Ha). exists flags, a. split; [|done]. rewrite !elem_of_app. auto. Qed.

(** The first step of a program that goes on only after a success. *)
Lemma exec_try_ok {A B E} (m : io (result A E)) (f : A -> io (result B E)) tr b :
  exec (io_try m f) tr (Ok b) -> exists t1 t2 a, tr = t1 ++ t2 /\ exec m t1 (Ok a) /\ exec (f a) t2 (Ok b).
Proof. intros [(e & _ & ?)|HH]%exec_try; done. Qed.
Lemma exec_openat_ok d n flags mode tr fd :
  exec (openat d n flags mode) tr (Ok fd) -> exists a, tr = [(SysOpenat d n flags mode, a)] /\ check_fd a = Ok fd.
Proof.
  unfold openat. intros (t1 & t2 & c & -> & [-> Hc]%exec_ret & H2)%exec_try_ok.
  destruct (cstr_from_name_cases n) as [[E _]|E]; rewrite E in Hc; [injection Hc as ->|done].
  destruct t2 as [|[c0 a] t2]; [done|]. destruct H2 as [-> [-> Ha]%exec_ret]. by exists a.
Qed.
Lemma exec_open_directory_ok d n tr fd : exec (open_directory d n) tr (Ok fd) -> opened_as d n fd tr.
Proof. intros (a & -> & Ha)%(exec_openat_ok d n _ 0). eexists _, a. split; [by left|done]. Qed.

Lemma exec_mkdirat d n mode tr r : exec (mkdirat d n mode) tr r -> one_call (SysMkdirat d n mode) tr r.
Proof. apply one_call_name. intros ? ?. apply one_call_syscall. Qed.
Lemma exec_mkdir_ok d n tr b :
  exec (mkdirat_eexist_ok d n 448) tr (Ok b) ->
  exists a, tr = [(SysMkdirat d n 448, a)] /\ (failed a = false \/ a = Fails EEXIST).
Proof.
  intros (t1 & t2 & r & -> & H1 & [-> Hr]%exec_ret)%exec_bind. rewrite app_nil_r.
  apply exec_mkdirat in H1.
  destruct H1 as [(-> & m & ->)|[(e & -> & ->)|(a & -> & -> & Ha)]]; [|exists (Fails e)|exists a; auto].
  - by case_match.
  - split; [done|]. right. destruct (bool_decide _) eqn:Ek; [|done]. apply bool_decide_eq_true in Ek. cbn in Ek.
    destruct (e =? EEXIST)%Z eqn:Ee; [by apply Z.eqb_eq in Ee as ->|]. repeat case_match; done.
Qed.

(** Every step of a loop that succeeded. *)
Lemma exec_each_ok {A B E} (step : A -> io (result B E)) xs tr u :
  exec (each step xs) tr (Ok u) -> forall x, x ∈ xs -> exists s t b t', tr = s ++ t ++ t' /\ exec (step x) t (Ok b).
Proof.
  revert tr. induction xs as [|y xs IH]; intros tr Hx x Hin; [by apply not_elem_of_nil in Hin|].
  cbn [each] in Hx. apply exec_try_ok in Hx as (t1 & t2 & b & -> & H1 & H2).
  apply elem_of_cons in Hin as [->|Hin]; [by exists [], t1, b, t2|].
  destruct (IH _ H2 x Hin) as (s & t & b' & t' & -> & Ht). exists (t1 ++ s), t, b', t'. by rewrite <- app_assoc.
Qed.
Lemma dirs_made {A} parent (name : A -> bytes) xs tr u a t :
  exec (each (fun x => mkdirat_eexist_ok parent (name x) 448) xs) tr (Ok u) -> failed a = false ->
  forall x, x ∈ xs -> dir_durable parent (name x) (tr ++ (SysFsync parent, a) :: t).
Proof.
  intros Hx Ha x (s & t1 & b & t' & -> & (m & -> & Hm)%exec_mkdir_ok)%(exec_each_ok _ _ _ _ Hx).
  exists s, m, t', a, t. split; [by rewrite <- !app_assoc|done].
Qed.

Section Created.
Context `{Sha256Spec} {T : Texts} {J : CursorJson} {F : StdFs}.

Lemma directories_made root tr u :
  exec (init_directories root) tr (Ok u) -> forall d, d ∈ STATE_DIRECTORIES -> dir_durable root d tr.
Proof.
  intros (t1 & t2 & [] & -> & H1 & (a & -> & Ha)%fsync_ok)%exec_try_ok d Hd.
  apply (dirs_made root id _ _ _ _ [] H1 Ha). unfold STATE_DIRECTORIES, INIT_DIRECTORIES in *. clear -Hd. set_solver.
Qed.
Lemma shards_made root opts tr u :
  exec (init_shards root opts) tr (Ok u) ->
  exists ready, opened_as root (lit "ready") ready tr /\
    forall i, (i < Z.to_nat (co_shard_count opts))%nat -> dir_durable ready (shard_hex (Z.of_nat i)) tr.
Proof.
  intros (t1 & t2 & ready & -> & H1%exec_open_directory_ok & H2)%exec_try_ok.
  apply exec_try_ok in H2 as (t3 & t4 & [] & -> & H3 & H4). apply exec_try_ok in H4 as (t5 & t6 & [] & -> & H5 & H6).
  apply fsync_ok in H5 as (a & -> & Ha). exists ready. split.
  - by apply (opened_as_in []).
  - intros i Hi. rewrite <- (app_nil_r (t3 ++ _)). apply dir_durable_in.
    apply (dirs_made ready (fun i => shard_hex (Z.of_nat i)) _ _ _ _ t6 H3 Ha), elem_of_seq. lia.
Qed.
Lemma temporary_written dir prefix data tr name :
  (forall ev, ev ∈ tr -> (exists fd d, ev.1 = SysWrite fd d) -> write_answer_ok ev) ->
  exec (write_temporary dir prefix data) tr (Ok name) -> file_durable dir name data tr.
Proof.
  intros Hok (t1 & t2 & rand & -> & H1 & H2)%exec_try_ok. cbv zeta in H2.
  apply exec_try_ok in H2 as (t3 & t4 & fd & -> & (a & -> & Ha)%exec_openat_ok & H4).
  apply exec_try_ok in H4 as (tw & t5 & [] & -> & Hw & H5).
  apply exec_try_ok in H5 as (t6 & t7 & [] & -> & (b & -> & Hb)%fsync_ok & [-> [= ->]]%exec_ret).
  pose proof (write_rounds_calls _ _ _ _ _ Hw) as Hcalls.
  apply write_all_settled_ok in Hw as [Hw Hf].
  2:{ apply Forall_forall. intros ev Hev. apply Hok; [|by apply Hcalls]. rewrite !elem_of_app. auto. }
  eexists t1, _, a, fd, tw, b, []. split; [done|]. done.
Qed.

Lemma silent_marker root : silent places (create_init_marker root).
Proof. unfold create_init_marker. silence. Qed.
Lemma silent_lock_file control name : silent places (create_or_open_lock control name).
Proof. unfold create_or_open_lock. silence. Qed.
#[local] Hint Resolve silent_lock_file : silent.
Lemma silent_init_lock root : silent places (init_lock root).
Proof. unfold init_lock. silence. Qed.
Lemma silent_init_directories root : silent places (init_directories root).
Proof. unfold init_directories. silence. apply silent_each. auto with silent. Qed.
Lemma silent_init_shards root opts : silent places (init_shards root opts).
Proof. unfold init_shards. silence. apply silent_each. auto with silent. Qed.
Lemma silent_init_control root : silent places (init_control root).
Proof. unfold init_control. silence. apply silent_each. silence. Qed.
Lemma silent_temporary dir prefix data : silent places (write_temporary dir prefix data).
Proof. unfold write_temporary. silence. Qed.
#[local] Hint Resolve silent_temporary : silent.
Lemma silent_init_watermark control opts created : silent places (init_watermark control opts created).
Proof. unfold init_watermark. silence. Qed.
Lemma silent_fchmodat d n mode : silent places (fchmodat d n mode).
Proof. unfold fchmodat. silence. Qed.

(** A move either places nothing and fails, or starts with the rename, which
    is its only placement; a success then syncs the directory. *)
Lemma move_first sd sn dd dn tr r :
  exec (move_verified_noreplace sd sn dd dn) tr r ->
  (tally places tr = 0%nat /\ is_ok r = false) \/
  exists a t, tr = (SysRenameat2 sd sn dd dn RENAME_NOREPLACE, a) :: t /\ failed a = false /\ tally places t = 0%nat /\
    (is_ok r = true -> exists b t', t = (SysFsync dd, b) :: t' /\ failed b = false).
Proof.
  intros Hx. pose proof (move_places (sel := places) sd sn dd dn (mkMoveOptions None Strict) (fun _ => Ret (Ok tt))
    (fun _ => silent_ret _) tr r Hx) as Hn. cbn [places] in Hn.
  unfold move_verified_noreplace, move_noreplace in Hx.
  apply exec_try in Hx as [(e & H1 & ->)|(t1 & t2 & [] & -> & H1%exec_map_err_ok & H2)].
  - left. split; [|done]. rewrite Hn. apply exec_map_err in H1 as ([|e'] & _ & E); [done|]. injection E as ->.
    cbn. by rewrite classify_rename_committed.
  - apply exec_renameat2, one_call_ok in H1 as (a & -> & Ha). right. exists a, t2. split; [done|]. split; [done|].
    rewrite tally_app, tally_cons, Ha in Hn. split; [destruct r; cbn in Hn; repeat case_match; lia|].
    intros Hr. destruct r as [[]|]; [|done]. cbn [source_identity authenticate_destination io_try io_bind] in H2.
    apply exec_try_ok in H2 as (t3 & t4 & m & -> & [-> _]%exec_ret & H2).
    unfold move_barriers in H2. cbn [directory_durability] in H2.
    apply exec_try_ok in H2 as (t7 & t8 & [] & -> & (b & -> & Hb)%exec_map_err_ok%fsync_ok & _). by exists b, t8.
Qed.

(** FORMAT was published in the trace, after everything the queue needs. *)
Definition published (opts : CreateOptions) (rec : FormatRecord) (tr : list event) : Prop :=
  exists root ready tmp t1 a t2,
    tr = t1 ++ (SysRenameat2 root tmp root FORMAT_NAME RENAME_NOREPLACE, a) :: t2 /\ failed a = false /\
    tally places t1 = 0%nat /\ tally places t2 = 0%nat /\
    (forall d, d ∈ STATE_DIRECTORIES -> dir_durable root d t1) /\ opened_as root (lit "ready") ready t1 /\
    (forall i, (i < Z.to_nat (co_shard_count opts))%nat -> dir_durable ready (shard_hex (Z.of_nat i)) t1) /\
    file_durable root tmp (FormatRecord_encode rec) t1.

(** A step before the publication: its failure leaves nothing placed. *)
Lemma before_publication {A B E} (m : io (result A E)) (f : A -> io (result B E)) tr r :
  silent places m -> exec (io_try m f) tr r ->
  (tally places tr = 0%nat /\ is_ok r = false) \/
  exists t1 t2 a, tr = t1 ++ t2 /\ tally places t1 = 0%nat /\ exec m t1 (Ok a) /\ exec (f a) t2 r.
Proof.
  intros Hm [(e & H1 & ->)|(t1 & t2 & a & -> & H1 & H2)]%exec_try.
  - left. split; [exact (Hm _ _ H1)|done].
  - right. exists t1, t2, a. split; [done|]. split; [exact (Hm _ _ H1)|done].
Qed.
Lemma format_published root rec tr r :
  (forall ev, ev ∈ tr -> (exists fd d, ev.1 = SysWrite fd d) -> write_answer_ok ev) ->
  exec (init_format root rec) tr r ->
  (tally places tr = 0%nat /\ is_ok r = false) \/
  exists tmp t1 a t2, tr = t1 ++ (SysRenameat2 root tmp root FORMAT_NAME RENAME_NOREPLACE, a) :: t2 /\ failed a = false /\
    tally places t1 = 0%nat /\ tally places t2 = 0%nat /\ file_durable root tmp (FormatRecord_encode rec) t1.
Proof.
  intros Hok Hx. unfold init_format in Hx.
  apply before_publication in Hx as [?|(t1 & t2 & tmp & -> & Hn1 & H1 & Hx)]; [by left| |apply silent_temporary].
  apply before_publication in Hx as [[Hn ?]|(t3 & t4 & [] & -> & Hn3 & _ & Hx)]; [|..|apply silent_fchmodat].
  { left. by rewrite tally_app, Hn1, Hn. }
  apply exec_bind in Hx as (t5 & t6 & moved & -> & H5 & H6).
  assert (Hn6 : tally places t6 = 0%nat).
  { match type of H6 with exec ?p _ _ => assert (Hq : silent places p) by (unfold ignore; silence) end. exact (Hq _ _ H6). }
  destruct (move_first _ _ _ _ _ _ H5) as [[Hn5 Hf]|(a & t & -> & Ha & Hn5 & _)].
  - left. rewrite !tally_app, Hn1, Hn3, Hn5, Hn6. split; [done|]. destruct moved as [|[]]; try done.
    all: repeat (apply exec_bind in H6 as (? & ? & ? & _ & _ & H6)); by apply exec_ret in H6 as [_ ->].
  - right. exists tmp, (t1 ++ t3), a, (t ++ t6). split; [by rewrite <- !app_assoc|]. split; [done|].
    rewrite !tally_app, Hn1, Hn3, Hn5, Hn6. split; [done|]. split; [done|].
    apply (file_durable_in []). eapply temporary_written; [|done]. intros ev Hev. apply Hok. rewrite elem_of_app. auto.
Qed.

(** The record of a queue with these options. *)
Definition record_of (opts : CreateOptions) (rec : FormatRecord) : Prop :=
  exists queue_id created_at, length queue_id = 16%nat /\ is_u64 created_at /\
    FormatRecord_new queue_id created_at (co_shard_count opts) (co_lease_bucket_width_ns opts)
      (co_delayed_bucket_width_ns opts) (co_terminal_bucket_width_ns opts) (co_max_payload_length opts) = Ok rec.
Lemma gives_realtime : gives clock_realtime_ns is_u64.
Proof.
  apply gives_sys. intros r a. assert (forall x y, is_u64 (timespec_ns x y)) as Hw by (intros; apply Z.mod_pos_bound; done).
  unfold timespec_to_unix_ns. destruct r; try done; case_match; try done; intros [= <-]; apply Hw.
Qed.

(** A step after a prefix that placed nothing. *)
Lemma staged {A B E} whole t0 (m : io (result A E)) (f : A -> io (result B E)) tr r :
  silent places m -> whole = t0 ++ tr -> tally places t0 = 0%nat -> exec (io_try m f) tr r ->
  (tally places whole = 0%nat /\ is_ok r = false) \/
  exists t1 t2 a, whole = (t0 ++ t1) ++ t2 /\ tally places (t0 ++ t1) = 0%nat /\ exec m t1 (Ok a) /\ exec (f a) t2 r.
Proof.
  intros Hm -> Hn Hx. apply before_publication in Hx as [[Ht ?]|(t1 & t2 & a & -> & Ht & H1 & H2)]; [|..|done].
  - left. by rewrite tally_app, Hn.
  - right. exists t1, t2, a. rewrite tally_app, Hn. by rewrite app_assoc.
Qed.

(** Everything the queue needs is on disk. *)
Definition prepared (opts : CreateOptions) (root ready : Z) (tr : list event) : Prop :=
  (forall d, d ∈ STATE_DIRECTORIES -> dir_durable root d tr) /\ opened_as root (lit "ready") ready tr /\
  (forall i, (i < Z.to_nat (co_shard_count opts))%nat -> dir_durable ready (shard_hex (Z.of_nat i)) tr).
Lemma prepared_by root opts t1 t2 t3 t4 :
  exec (init_directories root) t2 (Ok tt) -> exec (init_shards root opts) t3 (Ok tt) ->
  exists ready, prepared opts root ready ((t1 ++ t2) ++ t3 ++ t4).
Proof.
  intros Hd (ready & Hr & Hs)%shards_made. exists ready. split; [|split].
  - intros d Hin. rewrite <- app_assoc. apply dir_durable_in. by apply (directories_made _ _ _ Hd).
  - by apply opened_as_in.
  - intros i Hi. by apply dir_durable_in, Hs.
Qed.

Lemma guarded_prepared root opts tr r :
  exec (init_guarded root opts) tr r ->
  (tally places tr = 0%nat /\ is_ok r = false) \/
  exists rec ready pre post, tr = pre ++ post /\ tally places pre = 0%nat /\ record_of opts rec /\ prepared opts root ready pre /\
    exec (let!? _ := init_format root rec in Ret (Ok rec)) post r.
Proof.
  intros Hx. unfold init_guarded in Hx.
  destruct (staged tr [] _ _ _ _ (silent_init_lock root) eq_refl eq_refl Hx) as [?|(t1 & t2 & ? & E1 & N1 & _ & Hx1)]; [by left|].
  destruct (staged tr _ _ _ _ _ silent_random E1 N1 Hx1) as [?|(t3 & t4 & queue_id & E2 & N2 & Hq%gives_random & Hx2)]; [by left|].
  destruct (staged tr _ _ _ _ _ silent_realtime E2 N2 Hx2) as [?|(t5 & t6 & created & E3 & N3 & Hc%gives_realtime & Hx3)]; [by left|].
  destruct (staged tr _ _ _ _ _ (silent_lift _) E3 N3 Hx3) as [?|(t7 & t8 & rec & E4 & N4 & [_ Hrec]%exec_ret & Hx4)]; [by left|].
  destruct (staged tr _ _ _ _ _ (silent_init_directories root) E4 N4 Hx4) as [?|(t9 & t10 & [] & E5 & N5 & Hdirs & Hx5)]; [by left|].
  destruct (staged tr _ _ _ _ _ (silent_init_shards root opts) E5 N5 Hx5) as [?|(t11 & t12 & [] & E6 & N6 & Hshards & Hx6)]; [by left|].
  destruct (staged tr _ _ _ _ _ (silent_init_control root) E6 N6 Hx6) as [?|(t13 & t14 & control & E7 & N7 & _ & Hx7)]; [by left|].
  destruct (staged tr _ _ _ _ _ (silent_init_watermark control opts created) E7 N7 Hx7) as [?|(t15 & t16 & [] & E8 & N8 & _ & Hx8)]; [by left|].
  right. destruct (prepared_by root opts (((([] ++ t1) ++ t3) ++ t5) ++ t7) _ _ (t13 ++ t15) Hdirs Hshards) as (ready & Hp).
  eexists rec, ready, _, t16. split; [exact E8|]. split; [exact N8|]. split; [|split; [|exact Hx8]].
  - exists queue_id, created. split; [done|]. split; [done|]. destruct (FormatRecord_new _ _ _ _ _ _ _); [by injection Hrec as <-|done].
  - rewrite (app_assoc t11), (app_assoc _ (t11 ++ t13)), (app_assoc _ t11) in Hp. exact Hp.
Qed.

Lemma guarded_published root opts tr r :
  (forall ev, ev ∈ tr -> (exists fd d, ev.1 = SysWrite fd d) -> write_answer_ok ev) ->
  exec (init_guarded root opts) tr r ->
  (tally places tr = 0%nat /\ is_ok r = false) \/
  exists rec, published opts rec tr /\ record_of opts rec /\ forall rec', r = Ok rec' -> rec' = rec.
Proof.
  intros Hok [?|(rec & ready & pre & post & -> & Np & Hrec & (Hd & Hr & Hs) & Hx)]%guarded_prepared; [by left|].
  assert (Hend : exists r', exec (init_format root rec) post r' /\ r = match r' with Ok _ => Ok rec | Err e => Err e end).
  { apply exec_try in Hx as [(e & H1 & ->)|(t1 & t2 & a & -> & H1 & [-> ->]%exec_ret)]; [by exists (Err e)|].
    rewrite app_nil_r. by exists (Ok a). }
  destruct Hend as (r' & Hf & ->).
  apply format_published in Hf as [[N Hr']|(tmp & s1 & a & s2 & -> & Ha & N1 & N2 & Hfile)].
  3:{ intros ev Hev. apply Hok. rewrite elem_of_app. auto. }
  { left. rewrite tally_app, Np, N. by destruct r'. }
  right. exists rec. split; [|split; [done|by intros rec'; destruct r'; [intros [= <-]|]]].
  exists root, ready, tmp, (pre ++ s1), a, s2. split; [by rewrite <- app_assoc|]. split; [done|].
  rewrite tally_app, Np, N1. split; [done|]. split; [done|].
  split; [intros d Hin; by apply (dir_durable_in []), Hd|]. split; [by apply (opened_as_in [])|].
  split; [intros i Hi; by apply (dir_durable_in []), Hs|]. rewrite <- (app_nil_r s1). by apply file_durable_in.
Qed.

Lemma published_in opts rec s tr t :
  published opts rec tr -> tally places s = 0%nat -> tally places t = 0%nat -> published opts rec (s ++ tr ++ t).
Proof.
  intros (root & ready & tmp & t1 & a & t2 & -> & Ha & N1 & N2 & Hd & Hr & Hs & Hf) Ns Nt.
  exists root, ready, tmp, (s ++ t1), a, (t2 ++ t). split; [by rewrite <- !app_assoc|]. split; [done|].
  rewrite !tally_app, Ns, N1, N2, Nt. split; [done|]. split; [done|]. rewrite <- (app_nil_r t1).
  split; [intros d Hin; by apply dir_durable_in, Hd|]. split; [by apply opened_as_in|].
  split; [intros i Hi; by apply dir_durable_in, Hs|by apply file_durable_in].
Qed.
Lemma published_once opts rec tr : published opts rec tr -> tally places tr = 1%nat.
Proof.
  intros (root & ready & tmp & t1 & a & t2 & -> & Ha & N1 & N2 & _). by rewrite tally_app, tally_cons, N1, N2, Ha.
Qed.

Context {FL : StdFsLaws}.
Lemma silent_init_root root : silent places (init_root root).
Proof.
  unfold init_root, path_exists, fs_type_magic, open_dir_absolute. silence.
  intros tr r Hx%create_dir_all_calls. induction Hx as [|[c r'] tr Hc _ IH]; [done|]. rewrite tally_cons, IH. by destruct c.
Qed.

Lemma init_outcome root opts tr r :
  (forall ev, ev ∈ tr -> (exists fd d, ev.1 = SysWrite fd d) -> write_answer_ok ev) ->
  exec (Queue_init root opts) tr r ->
  (tally places tr = 0%nat /\ is_ok r = false) \/
  exists rec, published opts rec tr /\ record_of opts rec /\ forall rec', r = Ok rec' -> rec' = rec.
Proof.
  intros Hok Hx. unfold Queue_init in Hx. destruct (validate_create_options opts); [|apply exec_ret in Hx as [-> ->]; by left].
  apply before_publication in Hx as [?|(t1 & t2 & fd & -> & N1 & _ & Hx)]; [by left| |apply silent_init_root].
  apply exec_bind in Hx as (t3 & t4 & st & -> & H3 & Hx). pose proof (silent_fstatat _ _ _ _ H3 : tally places t3 = 0%nat) as N3.
  destruct (is_ok st); [apply exec_ret in Hx as [-> ->]; left; by rewrite !tally_app, N1, N3|].
  apply before_publication in Hx as [[N ?]|(t5 & t6 & marker & -> & N5 & _ & Hx)]; [|..|apply silent_marker].
  { left. by rewrite !tally_app, N1, N3, N. }
  apply exec_bind in Hx as (t7 & t8 & outcome & -> & H7 & H8).
  assert (N8 : tally places t8 = 0%nat /\ r = outcome).
  { split.
    - match type of H8 with exec ?p _ _ => assert (Hq : silent places p) by (unfold ignore; silence) end. exact (Hq _ _ H8).
    - by destruct outcome; repeat (apply exec_bind in H8 as (? & ? & ? & _ & _ & H8)); apply exec_ret in H8 as [_ ->]. }
  destruct N8 as [N8 ->]. apply guarded_published in H7 as [[N7 ?]|(rec & Hp & Hrec)].
  3:{ intros ev Hev. apply Hok. rewrite !elem_of_app. auto. }
  - left. by rewrite !tally_app, N1, N3, N5, N7, N8.
  - right. exists rec. split; [|done]. rewrite (app_assoc t3), (app_assoc t1). apply published_in; [done| |done].
    by rewrite !tally_app, N1, N3, N5.
Qed.

(** C16: FORMAT is published last and once.  Whatever the kernel answers, an
    execution of [Queue::init] places at most one object, by the no-replace
    rename to FORMAT.  Wherever it did, before it every state directory and
    every ready shard had been made and its parent synced, and a new temporary
    file had received exactly the encoded record and been synced.  Success
    means it did, with the record that is returned. *)
Theorem init_publishes_last root opts tr r :
  (forall ev, ev ∈ tr -> (exists fd d, ev.1 = SysWrite fd d) -> write_answer_ok ev) ->
  exec (Queue_init root opts) tr r ->
  (tally places tr <= 1)%nat /\
  (tally places tr = 1%nat -> exists rec, published opts rec tr) /\
  (forall rec, r = Ok rec -> published opts rec tr /\ record_of opts rec).
Proof.
  intros Hok Hx. destruct (init_outcome root opts tr r Hok Hx) as [[N Hr]|(rec & Hp & Hrec & Heq)].
  - rewrite N. split; [lia|]. split; [done|]. by intros rec ->.
  - rewrite (published_once _ _ _ Hp). split; [done|]. split; [by exists rec|]. by intros rec' ->%Heq.
Qed.

(** ** What was created opens again *)

(** The reads of a trace deliver [content] in order; a read that asks for
    bytes delivers none only at the end. *)
Fixpoint streams (content : bytes) (tr : list event) : Prop :=
  match tr with
  | [] => True
  | (SysRead _ len, a) :: tr =>
      match a with
      | Fails _ => streams content tr
      | Reads data =>
          (length data <= len)%nat /\ (data = [] -> len = 0%nat \/ content = []) /\
          exists rest, content = data ++ rest /\ streams rest tr
      | _ => False
      end
  | _ :: tr => streams content tr
  end.
Lemma streams_skip content t1 t2 :
  Forall (fun ev => match ev.1 with SysRead _ _ => False | _ => True end) t1 -> streams content (t1 ++ t2) -> streams content t2.
Proof. induction 1 as [|[c a] t1 Hc _ IH]; [done|]. intros Hs. apply IH. by destruct c. Qed.

Lemma read_limited_streams fuel fd limit acc content tr r :
  (limit <= fuel)%nat -> exec (read_limited fuel fd limit acc) tr r -> streams content tr ->
  some_failed tr \/ r = Ok (acc ++ take limit content).
Proof.
  revert limit acc content tr. induction fuel as [|fuel IH]; intros limit acc content tr Hl Hx Hs; cbn [read_limited] in Hx.
  - apply exec_ret in Hx as [_ ->]. right. by replace limit with 0%nat by lia; rewrite take_0, app_nil_r.
  - destruct (limit =? 0)%nat eqn:E; breflect.
    { apply exec_ret in Hx as [_ ->]. right. by rewrite E, take_0, app_nil_r. }
    destruct tr as [|[c a] tr]; [done|]. destruct Hx as [-> Hx]. destruct a as [e| | |data| | |]; try done.
    { left. by left. }
    cbn in Hs. destruct Hs as (Hlen & Hend & rest & -> & Hs). cbn [check_read read_data] in Hx. rewrite take_ge in Hx by done.
    destruct data as [|b data].
    + apply exec_ret in Hx as [_ ->]. right. destruct (Hend eq_refl) as [->| ->]; [done|]. by rewrite take_nil, app_nil_r.
    + apply (IH _ _ rest) in Hx as [Hf| ->]; [left; by right| |cbn in *; lia|done].
      right. rewrite take_app, (take_ge (b :: data)) by done. by rewrite <- app_assoc.
Qed.

(** A stat showed something else than a regular file. *)
Definition saw_other_type (tr : list event) : Prop :=
  exists fd a st, (SysFstat fd, a) ∈ tr /\ check_stat a = Ok st /\ is_regular st = false.
Definition not_reading (ev : event) : Prop := match ev.1 with SysRead _ _ => False | _ => True end.
Lemma open_regular_outcome d n tr r :
  cstr_from_name n = Ok n -> exec (open_regular_read d n) tr r ->
  some_failed tr \/ saw_other_type tr \/ (exists p, r = Ok p) /\ Forall not_reading tr.
Proof.
  intros Hn Hx. unfold open_regular_read, openat, io_map_err in Hx. rewrite Hn in Hx. cbn [lift io_try io_bind] in Hx.
  destruct tr as [|[c a] tr]; [done|]. destruct Hx as [-> Hx].
  destruct (check_fd a) as [fd|e] eqn:Ha; [|left; destruct a; try done; by left]. cbn in Hx.
  destruct tr as [|[c b] tr]; [done|]. destruct Hx as [-> Hx].
  destruct (check_stat b) as [st|e] eqn:Hb; [|left; destruct b; try done; right; by left]. cbn in Hx.
  right. destruct (is_regular st) eqn:Hreg; cbn in Hx; apply exec_ret in Hx as [-> ->].
  - right. split; [by eexists|]. by repeat constructor.
  - left. exists fd, b, st. split; [|done]. rewrite !elem_of_cons. auto.
Qed.
Lemma some_failed_in t1 t2 t3 : some_failed t2 -> some_failed (t1 ++ t2 ++ t3).
Proof. intros Hf. apply some_failed_app. right. apply some_failed_app. by left. Qed.
Lemma saw_other_type_app t1 t2 : saw_other_type t1 -> saw_other_type (t1 ++ t2).
Proof. intros (fd & a & st & Hin & HH). exists fd, a, st. split; [|done]. rewrite elem_of_app. auto. Qed.

Lemma open_format_reads root content tr r :
  (length content <= FORMAT_SIZE)%nat -> exec (open_format root) tr r -> streams content tr ->
  some_failed tr \/ saw_other_type tr \/
  r = map_err (fun e => match e with FormatUnsupportedVersion _ _ => UnsupportedFormat
                        | _ => QueueCorrupt ("FORMAT decode: " +:+ format_text e) end) (FormatRecord_decode content).
Proof.
  intros Hlen (t1 & t2 & opened & -> & H1 & Hx)%exec_bind Hs.
  destruct (open_regular_outcome root FORMAT_NAME t1 opened eq_refl H1) as [Hf|[Hf|[[[fd st] ->] Hn]]].
  { left. apply (some_failed_in [] t1 t2 Hf). }
  { right; left. by apply saw_other_type_app. }
  apply (streams_skip _ _ _ Hn) in Hs.
  assert (Hr : forall tr r, exec (read_to_end_take fd (FORMAT_SIZE + 1)) tr r -> streams content tr -> some_failed tr \/ r = Ok content).
  { intros t r' Ht Hst. apply (read_limited_streams _ _ _ _ _ _ _ (le_n _) Ht) in Hst. rewrite take_ge in Hst by lia. exact Hst. }
  apply exec_try in Hx as [(e & H2 & ->)|(t3 & t4 & data & -> & H2%exec_map_err_ok & [-> ->]%exec_ret)].
  - left. apply exec_map_err in H2 as ([|e'] & H2 & E); [done|]. destruct (Hr _ _ H2 Hs) as [Hf|]; [|done].
    rewrite <- (app_nil_r t2). by apply some_failed_in.
  - rewrite app_nil_r in Hs |- *. destruct (Hr _ _ H2 Hs) as [Hf|[= ->]]; [|by right; right].
    left. rewrite <- (app_nil_r t3). by apply some_failed_in.
Qed.

(** The fields of the options fit their types. *)
Definition options_typed (opts : CreateOptions) : Prop :=
  is_u32 (co_shard_count opts) /\ is_u64 (co_lease_bucket_width_ns opts) /\ is_u64 (co_delayed_bucket_width_ns opts) /\
  is_u64 (co_terminal_bucket_width_ns opts) /\ is_u64 (co_max_payload_length opts).
Lemma record_decodes opts rec :
  options_typed opts -> record_of opts rec ->
  (length (FormatRecord_encode rec) <= FORMAT_SIZE)%nat /\ FormatRecord_decode (FormatRecord_encode rec) = Ok rec /\
  fr_shard_count rec = co_shard_count opts.
Proof.
  intros (Hs & Hl & Hd & Ht & Hm) (qid & created & Hq & Hc & Hnew). unfold FormatRecord_new in Hnew.
  destruct (check_format_parameters _ _ _ _ _) as [[]|] eqn:Hp; [|done]. injection Hnew as <-.
  rewrite FormatRecord_encode_layout by done. split; [|split; [|done]].
  - rewrite length_app, length_format_body by done. unfold format_digest. by rewrite sha256_length.
  - apply FormatRecord_decode_iff. split; [done|]. split; [done|]. by exists FORMAT_MINOR.
Qed.

End Created.

(** ** Sample runs *)

Definition sample_std : StdFs := {| create_dir_all path := syscall (SysMkdirat AT_FDCWD path 511); read_size _ := 32%nat |}.
Lemma sample_std_laws : @StdFsLaws sample_std.
Proof. split; [|cbn; lia]. intros path [|[c a] tr] r; [done|]. intros [-> [-> _]%exec_ret]. by repeat constructor. Qed.

Definition sample_options : CreateOptions := mkCreateOptions 4 10000000000 10000000000 3600000000000 1024.
Definition init_kernel (s : unit) (c : Syscall) : Answer * unit :=
  match c with
  | SysStatfs _ => (Returns EXT4_SUPER_MAGIC, s)
  | _ => sample_disk [] s c
  end.
Definition sample_init :=
  run init_kernel tt (@Queue_init checksum256 sample_texts sample_std (lit "/var/q") sample_options).
Definition writes_ok (ev : event) : bool :=
  match ev with
  | (SysWrite _ data, a) =>
      match a with Fails _ => true | Returns rc => (0 <=? rc)%Z && (rc <=? Z.of_nat (length data))%Z | _ => false end
  | _ => true
  end.
Lemma writes_ok_all tr : forallb writes_ok tr = true ->
  forall ev, ev ∈ tr -> (exists fd d, ev.1 = SysWrite fd d) -> write_answer_ok ev.
Proof.
  rewrite forallb_Forall, Forall_forall. intros Hw [c a] Hin (fd & d & E). cbn in E. subst c. specialize (Hw _ Hin).
  unfold write_answer_ok. cbn in *. destruct a; cbn in Hw |- *; try done. breflect. lia.
Qed.
Lemma sample_init_writes : forall ev, ev ∈ sample_init.1.1 -> (exists fd d, ev.1 = SysWrite fd d) -> write_answer_ok ev.
Proof. apply writes_ok_all. vm_compute. reflexivity. Qed.
Lemma sample_init_exec :
  exec (@Queue_init checksum256 sample_texts sample_std (lit "/var/q") sample_options) sample_init.1.1 sample_init.1.2.
Proof. unfold sample_init. apply exec_run. Qed.

Definition shards_created (r : result FormatRecord IoError) : option Z :=
  match r with Ok rec => Some (fr_shard_count rec) | Err _ => None end.
Lemma init_publishes_last_witness :
  shards_created sample_init.1.2 = Some 4%Z /\
  exists rec, sample_init.1.2 = Ok rec /\ @published checksum256 sample_options rec sample_init.1.1.
Proof.
  assert (Hc : shards_created sample_init.1.2 = Some 4%Z) by (vm_compute; reflexivity).
  pose proof sample_init_exec as Hx. pose proof sample_init_writes as Hw. revert Hc Hx Hw. generalize sample_init.
  intros [[tr r] s]. cbn [fst snd]. intros Hc Hx Hw. split; [exact Hc|]. destruct r as [rec|]; [|discriminate Hc].
  exists rec. split; [reflexivity|].
  destruct (@init_publishes_last checksum256 sample_texts sample_std sample_std_laws (lit "/var/q") sample_options tr (Ok rec) Hw Hx)
    as (_ & _ & Hp). exact (proj1 (Hp rec eq_refl)).
Defined.

(** Files whose bytes are read in order, by the descriptors 20 and 21. *)
Definition stream_kernel (s : bytes * bytes) (c : Syscall) : Answer * (bytes * bytes) :=
  match c with
  | SysRead fd len =>
      if (fd =? 20)%Z then (Reads (take len s.1), (drop len s.1, s.2)) else (Reads (take len s.2), (s.1, drop len s.2))
  | SysOpenat _ name _ _ =>
      (if bool_decide (name = FORMAT_NAME) then Returns 20
       else if bool_decide (name = BOOT_ID_PATH) then Returns 21
       else if bool_decide (name = RECOVERY_CURSOR_FILE) then Fails ENOENT else Returns 22, s)
  | SysFstat fd => (Stats (mkStat 1 fd (if (fd =? 20)%Z then 33188 else 16877) 1 160), s)
  | SysFstatat _ _ _ => (Stats (mkStat 1 5 16877 2 4096), s)
  | SysStatfs _ => (Returns EXT4_SUPER_MAGIC, s)
  | SysGetrandom n => (Reads (replicate n x5a), s)
  | _ => (Returns 0, s)
  end.
Definition sample_record_of (r : result FormatRecord IoError) : FormatRecord := match r with Ok rec => rec | Err _ => sample_format end.
Definition sample_reopen :=
  run stream_kernel (@FormatRecord_encode checksum256 (sample_record_of sample_init.1.2), []) (@open_format checksum256 sample_texts 3).
Lemma sample_reopen_exec : exec (@open_format checksum256 sample_texts 3) sample_reopen.1.1 sample_reopen.1.2.
Proof. unfold sample_reopen. apply exec_run. Qed.
Fixpoint streamsb (content : bytes) (tr : list event) : bool :=
  match tr with
  | [] => true
  | (SysRead _ len, a) :: tr =>
      match a with
      | Fails _ => streamsb content tr
      | Reads data =>
          (length data <=? len)%nat && (negb (bool_decide (data = [])) || (len =? 0)%nat || bool_decide (content = []))
          && bool_decide (take (length data) content = data) && streamsb (drop (length data) content) tr
      | _ => false
      end
  | _ :: tr => streamsb content tr
  end.
Lemma streamsb_streams content tr : streamsb content tr = true -> streams content tr.
Proof.
  revert content. induction tr as [|[c a] tr IH]; intros content; [done|]. cbn [streamsb streams]. destruct c; try apply IH.
  destruct a as [| | |data| | |]; try done; [apply IH|]. rewrite !andb_true_iff, !orb_true_iff.
  intros [[[H1%Nat.leb_le H2] H3%bool_decide_eq_true] H4%IH]. split; [done|]. split.
  - intros ->. destruct H2 as [[H2|H2%Nat.eqb_eq]|H2%bool_decide_eq_true]; [done|auto..].
  - exists (drop (length data) content). split; [by rewrite <- H3 at 1; rewrite take_drop|done].
Qed.
Lemma sample_reopen_streams :
  streams (@FormatRecord_encode checksum256 (sample_record_of sample_init.1.2)) sample_reopen.1.1.
Proof. apply streamsb_streams. vm_compute. reflexivity. Qed.


Definition sample_open :=
  run stream_kernel (@FormatRecord_encode checksum256 (sample_record_of sample_init.1.2), lit "00112233-4455-6677-8899-aabbccddeeff" ++ [x0a])
    (@Queue_open checksum256 sample_texts sample_cursor_json sample_std 9 (lit "/var/q") OpenOptions_default).
Lemma sample_open_exec :
  exec (@Queue_open checksum256 sample_texts sample_cursor_json sample_std 9 (lit "/var/q") OpenOptions_default)
    sample_open.1.1 sample_open.1.2.
Proof. unfold sample_open. apply exec_run. Qed.
Definition opened_boot_id (r : option (result Queue Error)) : option bytes :=
  match r with Some (Ok q) => Some (boot_id (config q)) | _ => None end.
Lemma open_establishes_witness :
  tally acts sample_open.1.1 = 0%nat /\
  exists q, sample_open.1.2 = Some (Ok q) /\ boot_id (config q) = lit "00112233-4455-6677-8899-aabbccddeeff" /\
    ready_to_use OpenOptions_default (lit "/var/q") q.
Proof.
  assert (Hb : opened_boot_id sample_open.1.2 = Some (lit "00112233-4455-6677-8899-aabbccddeeff")) by (vm_compute; reflexivity).
  pose proof sample_open_exec as Hx. revert Hb Hx. generalize sample_open. intros [[tr r] s]. cbn [fst snd]. intros Hb Hx.
  destruct (@open_establishes checksum256 checksum256_spec sample_texts sample_cursor_json sample_std 9 (lit "/var/q")
    OpenOptions_default tr r Hx) as [Hn Hq].
  split; [exact Hn|]. destruct r as [[q|]|]; [|discriminate Hb..]. exists q. split; [reflexivity|].
  injection Hb as Hb. split; [exact Hb|]. exact (Hq q eq_refl).
Defined.
