(* ===== verification/Process.v ===== *)
(** * Programs of the command line

    The command line of SteadQ ([crates/steadq-cli/src]) talks to the kernel
    through the queue, and otherwise to the standard library: child processes,
    threads, signal flags, the clock and files of the user.  The latter are
    requests of the type [PCall]; a program [proc] interleaves them with the
    programs of the queue, and [pexec] relates it to every sequence of requests
    and answers.  So what other threads, signal handlers, children and the
    user's files do is arbitrary.  Printing is left out. *)
From stdpp Require Import base numbers list option strings gmap.
From Stdlib Require Import Strings.Byte ZArith.
From S2P Require Import Prelude FsLinux Logic Ticket.
Open Scope string_scope.
Open Scope list_scope.

(** ** Requests *)

(** How a process ended: with a code, or by a signal. *)
Inductive ExitStatus : Type := ExitedWith (code : Z) | KilledBy (signal : Z).
#[global] Instance ExitStatus_eq_dec : EqDecision ExitStatus.
Proof. solve_decision. Defined.
Inductive Received : Type := GotStatus (status : result ExitStatus IoError) | TimedOut | Disconnected.

Inductive PCall : Type -> Type :=
| LoadStop : PCall bool
| StoreStop : PCall unit
| LoadSignalled : PCall bool
| RaiseFatal (code : Z) : PCall unit
| LoadFatal : PCall Z
| Sleep (nanoseconds : Z) : PCall unit
| SpawnChild (program : bytes) (args : list bytes) (job_id : bytes) (attempt : Z) : PCall (result unit IoError)
| ConfigureStdin : PCall bool
| KillChild : PCall unit
| SendSigterm : PCall unit
| InstantNow : PCall Z
| ReceiveStatus (timeout : Z) : PCall Received
| LoadStopped : PCall bool
| WriteStdin (data : bytes) : PCall (result Z IoError)
| PollStdin : PCall (result unit IoError)
| IsExecutable (path : bytes) : PCall bool
| SearchPath : PCall (option (list bytes))
| JoinWorker : PCall (option Z)
| Canonicalize (path : bytes) : PCall (result bytes IoError)
| ReadFile (path : bytes) : PCall (result bytes IoError)
| ReadStdin : PCall (result bytes IoError)
| CreatePrivate (path : bytes) : PCall (result unit IoError)
| WritePrivate (data : bytes) : PCall (result unit IoError)
| SyncPrivate : PCall (result unit IoError)
| RenamePath (from to : bytes) : PCall (result unit IoError)
| RemovePath (path : bytes) : PCall unit
| SyncDirectory (path : bytes) : PCall unit
| ProcessId : PCall bytes.

Inductive proc (A : Type) : Type :=
| PRet (a : A)
| PKernel {B : Type} (p : io B) (k : B -> proc A)
| PAsk {B : Type} (c : PCall B) (k : B -> proc A).
Arguments PRet {A} a.
Arguments PKernel {A B} p k.
Arguments PAsk {A B} c k.
Fixpoint proc_bind {A B : Type} (m : proc A) (f : A -> proc B) : proc B :=
  match m with
  | PRet a => f a
  | PKernel p k => PKernel p (fun b => proc_bind (k b) f)
  | PAsk c k => PAsk c (fun b => proc_bind (k b) f)
  end.
Definition ask {B : Type} (c : PCall B) : proc B := PAsk c PRet.
Definition kernel {B : Type} (p : io B) : proc B := PKernel p PRet.
Notation "'let%' x ':=' m 'in' k" := (proc_bind m (fun x => k))
  (at level 10, x pattern, m at level 100, k at level 200,
   format "'[v' 'let%'  x  ':='  m  'in' '//' k ']'") : steadq_scope.

(** ** Executions *)

Inductive pevent : Type :=
| KernelEvent (ev : event)
| Request {B : Type} (c : PCall B) (answer : B).
Fixpoint pexec {A : Type} (m : proc A) (tr : list pevent) (a : A) : Prop :=
  match m with
  | PRet a' => tr = [] /\ a = a'
  | PKernel p k => exists t1 t2 b, tr = map KernelEvent t1 ++ t2 /\ exec p t1 b /\ pexec (k b) t2 a
  | PAsk c k => exists b t2, tr = Request c b :: t2 /\ pexec (k b) t2 a
  end.
(** Running against a kernel and a world given as functions. *)
Fixpoint prun {S W A : Type} (disk : S -> Syscall -> Answer * S) (world : forall B, W -> PCall B -> B * W) (s : S) (w : W)
    (m : proc A) : list pevent * A * (S * W) :=
  match m with
  | PRet a => ([], a, (s, w))
  | PKernel p k =>
      let '(t1, b, s) := run disk s p in
      let '(t2, a, sw) := prun disk world s w (k b) in
      (map KernelEvent t1 ++ t2, a, sw)
  | PAsk c k =>
      let (b, w) := world _ w c in
      let '(t2, a, sw) := prun disk world s w (k b) in
      (Request c b :: t2, a, sw)
  end.

Lemma pexec_ret {A} (a b : A) tr : pexec (PRet a) tr b <-> tr = [] /\ b = a.
Proof. done. Qed.
Lemma pexec_bind {A B} (m : proc A) (f : A -> proc B) tr b :
  pexec (proc_bind m f) tr b <-> exists t1 t2 a, tr = t1 ++ t2 /\ pexec m t1 a /\ pexec (f a) t2 b.
Proof.
  revert tr. induction m as [a|C p k IH|C c k IH]; intros tr; cbn [proc_bind pexec].
  - split; [intros Hf; by exists [], tr, a|]. by intros (t1 & t2 & a' & -> & [-> ->] & Hf).
  - split.
    + intros (t1 & t2 & c & -> & Hp & (t3 & t4 & a & -> & Hk & Hf)%IH).
      exists (map KernelEvent t1 ++ t3), t4, a. rewrite <- app_assoc. split; [done|]. split; [by exists t1, t3, c|done].
    + intros (t1 & t2 & a & -> & (t3 & t4 & c & -> & Hp & Hk) & Hf). exists t3, (t4 ++ t2), c. rewrite <- app_assoc.
      split; [done|]. split; [done|]. apply IH. by exists t4, t2, a.
  - split.
    + intros (x & t2 & -> & (t3 & t4 & a & -> & Hk & Hf)%IH). exists (Request c x :: t3), t4, a.
      split; [done|]. split; [by exists x, t3|done].
    + intros (t1 & t2 & a & -> & (x & t3 & -> & Hk) & Hf). exists x, (t3 ++ t2). split; [done|]. apply IH. by exists t3, t2, a.
Qed.
Lemma pexec_ask {B C} (c : PCall B) (f : B -> proc C) tr x :
  pexec (proc_bind (ask c) f) tr x <-> exists b t, tr = Request c b :: t /\ pexec (f b) t x.
Proof. done. Qed.
Lemma pexec_kernel {B C} (p : io B) (f : B -> proc C) tr x :
  pexec (proc_bind (kernel p) f) tr x <-> exists t1 t2 b, tr = map KernelEvent t1 ++ t2 /\ exec p t1 b /\ pexec (f b) t2 x.
Proof. done. Qed.
Lemma prun_exec {S W A} (disk : S -> Syscall -> Answer * S) (world : forall B, W -> PCall B -> B * W) (m : proc A) s w :
  pexec m (prun disk world s w m).1.1 (prun disk world s w m).1.2.
Proof.
  revert s w. induction m as [a|C p k IH|C c k IH]; intros s w; cbn [prun pexec]; [done|..].
  - destruct (run disk s p) as [[t1 b] s1] eqn:Er. specialize (IH b s1 w).
    destruct (prun _ _ _ _ (k b)) as [[t2 a] sw]. cbn in IH |- *. exists t1, t2, b. split; [done|]. split; [|done].
    pose proof (exec_run disk p s) as Hx. by rewrite Er in Hx.
  - destruct (world C w c) as [b w1]. specialize (IH b s w1). destruct (prun _ _ _ _ (k b)) as [[t2 a] sw]. cbn in IH |- *.
    by exists b, t2.
Qed.

Lemma prun_answers {S W A} (P : pevent -> Prop) (disk : S -> Syscall -> Answer * S) (world : forall B, W -> PCall B -> B * W)
    (m : proc A) s w :
  (forall ev, P (KernelEvent ev)) -> (forall B w (c : PCall B), P (Request c (world B w c).1)) ->
  Forall P (prun disk world s w m).1.1.
Proof.
  intros Hk Hw. revert s w. induction m as [a|C p k IH|C c k IH]; intros s w; cbn [prun]; [constructor|..].
  - destruct (run disk s p) as [[t1 b] s1]. specialize (IH b s1 w). destruct (prun _ _ _ _ (k b)) as [[t2 a] sw]. cbn in IH |- *.
    apply Forall_app. split; [|done]. apply Forall_fmap, Forall_true. intros. apply Hk.
  - specialize (Hw C w c). destruct (world C w c) as [b w1]. specialize (IH b s w1).
    destruct (prun _ _ _ _ (k b)) as [[t2 a] sw]. cbn in IH, Hw |- *. by constructor.
Qed.

(** The system calls of a trace. *)
Definition kernel_events (tr : list pevent) : list event :=
  omap (fun ev => match ev with KernelEvent ev => Some ev | Request _ _ => None end) tr.
Lemma kernel_app t1 t2 : kernel_events (t1 ++ t2) = kernel_events t1 ++ kernel_events t2.
Proof. apply omap_app. Qed.
Lemma kernel_map t : kernel_events (map KernelEvent t) = t.
Proof. induction t as [|ev t IH]; [done|]. exact (f_equal (cons ev) IH). Qed.
Lemma kernel_request {B} (c : PCall B) b t : kernel_events (Request c b :: t) = kernel_events t.
Proof. done. Qed.

Ltac pstep H :=
  lazymatch type of H with
  | pexec (proc_bind (ask ?c) ?f) ?tr ?x =>
      let b := fresh "b" in let t := fresh "t" in
      destruct (proj1 (pexec_ask c f tr x) H) as (b & t & -> & H'); clear H; rename H' into H; cbv beta in H
  | pexec (proc_bind (kernel ?p) ?f) ?tr ?x =>
      let t1 := fresh "t" in let t2 := fresh "t" in let b := fresh "b" in let E := fresh "X" in
      destruct (proj1 (pexec_kernel p f tr x) H) as (t1 & t2 & b & -> & E & H'); clear H; rename H' into H; cbv beta in H
  | pexec (PRet ?a) ?tr ?x => destruct H as [-> H]
  | pexec (proc_bind ?m ?f) ?tr ?x =>
      let t1 := fresh "t" in let t2 := fresh "t" in let b := fresh "b" in let E := fresh "X" in
      destruct (proj1 (pexec_bind m f tr x) H) as (t1 & t2 & b & -> & E & H'); clear H; rename H' into H; cbv beta in H
  end.
