(* ===== verification/Worker.v ===== *)
(** * The worker loop of the command line

    Models [crates/steadq-cli/src/work.rs] and the exit codes of [main.rs]: a
    worker leases a job, runs a command with the payload on its standard input,
    renews the lease while the command runs, and acknowledges the job when the
    command succeeded or hands it back when it did not.

    The programs are those of [Process].  The thread that feeds the child only
    reads the job file and writes to the pipe; its events are listed after those
    of the thread it runs beside, and the flag it polls is arbitrary, so every
    interleaving is covered.

    The loops end when the child or the queue says so, so they take fuel;
    [None] means it ran out. *)
From stdpp Require Import base numbers list option strings gmap.
From Stdlib Require Import Strings.Byte ZArith.
From S2P Require Import Prelude Math Names Format Cbor FsLinux FsRead FsDir StateMachine Ticket Layout Engine Logic Verified Queue Watermark Publish Resolve Consumer Quarantine Lease Inspect Recovery Phases Cursor Maintenance Pass Fsck Setup Lifecycle Process.
Open Scope string_scope.
Open Scope list_scope.

(** ** Exit codes *)

Definition EXIT_SUCCESS : Z := 0.
Definition EXIT_ORDINARY : Z := 1.
Definition EXIT_INDETERMINATE : Z := 2.
Definition EXIT_CORRUPTION : Z := 3.
Definition EXIT_RESOURCE_EXHAUSTED : Z := 4.
Definition EXIT_PERMISSION : Z := 5.
Definition EXIT_IO_FAILURE : Z := 6.
Definition EXIT_UNSUPPORTED : Z := 64.
Definition EXIT_NOT_FOUND : Z := 127.

Definition core_exit_code (error : Error) : Z :=
  match error with
  | QueueCorrupt _ | PayloadCorrupt | QueuePoisoned _ => EXIT_CORRUPTION
  | UnsupportedFilesystem | UnsupportedFormat => EXIT_UNSUPPORTED
  | PermissionDenied => EXIT_PERMISSION
  | ResourceExhausted | StateExhausted => EXIT_RESOURCE_EXHAUSTED
  | IoFailure _ | InvalidClock => EXIT_IO_FAILURE
  | InvalidInput _ | InvalidTicket _ | MaintenanceBusy | IdentityCollision => EXIT_ORDINARY
  end.

Definition status_code (status : ExitStatus) : option Z := match status with ExitedWith code => Some code | _ => None end.
Definition status_signal (status : ExitStatus) : option Z := match status with KilledBy signal => Some signal | _ => None end.
Definition status_success (status : ExitStatus) : bool := bool_decide (status_code status = Some 0%Z).

Definition child_exit_code (status : ExitStatus) : Z :=
  let code :=
    match status_code status with
    | Some code => code
    | None => match status_signal status with Some signal => 128 + signal | None => 1 end
    end%Z in
  Z.max 1 (Z.min code 255).

Definition lease_error_is_fatal (error : Error) : bool :=
  match error with
  | QueueCorrupt _ | PayloadCorrupt | QueuePoisoned _ | PermissionDenied | UnsupportedFilesystem | UnsupportedFormat
  | InvalidInput _ | InvalidTicket _ => true
  | _ => false
  end.

(** ** Settling a job *)

Section Worker.
Context `{Sha256} {T : Texts}.

Definition finish (q : Queue) (lease : LeaseInfo) : proc (Z * Queue) :=
  let% (outcome, q) := kernel (ack lease q) in
  PRet (match outcome with
        | Acked | AlreadyAcked => 0
        | AckLeaseLost => 1
        | AckNotCommitted e => core_exit_code e
        | AckOutcomeUnknown _ => 2
        end%Z, q).
Definition requeue (q : Queue) (lease : LeaseInfo) : proc (Z * Queue) :=
  let% (outcome, q) := kernel (retry_now lease q) in
  PRet (match outcome with
        | TransitionCommitted => 0
        | TransitionLeaseLost => 1
        | TransitionNotCommitted e => core_exit_code e
        | TransitionOutcomeUnknown _ => 2
        end%Z, q).

(** ** Feeding the child *)

Definition CHUNK : Z := 65536.

(** One chunk: [inl tt] when all of it was written, [inr] to return from the
    feeder. *)
Fixpoint feed_chunk (fuel : nat) (data : bytes) : proc (option (unit + bool)) :=
  match fuel with
  | O => PRet None
  | S fuel' =>
      match data with
      | [] => PRet (Some (inl tt))
      | _ =>
          let% stopped := ask LoadStopped in
          if stopped : bool then PRet (Some (inr true))
          else
            let% r := ask (WriteStdin data) in
            match r with
            | Ok n => if (n =? 0)%Z then PRet (Some (inr false)) else feed_chunk fuel' (drop (Z.to_nat n) data)
            | Err e =>
                match kind e with
                | KBrokenPipe => PRet (Some (inr true))
                | KInterrupted => feed_chunk fuel' data
                | KWouldBlock =>
                    let% polled := ask PollStdin in
                    match polled with
                    | Err e => if bool_decide (kind e = KInterrupted) then feed_chunk fuel' data else PRet (Some (inr false))
                    | Ok _ => feed_chunk fuel' data
                    end
                | _ => PRet (Some (inr false))
                end
            end
      end
  end.

Fixpoint feed (fuel : nat) (reader : VerifiedPayloadReader) (offset : Z) : proc (option bool) :=
  match fuel with
  | O => PRet None
  | S fuel' =>
      let% r := kernel (read_at reader CHUNK offset) in
      match r with
      | Ok [] => PRet (Some true)
      | Ok data =>
          let% x := feed_chunk fuel data in
          match x with
          | None => PRet None
          | Some (inr fed) => PRet (Some fed)
          | Some (inl _) => feed fuel' reader (offset + Z.of_nat (length data))
          end
      | Err _ => PRet (Some false)
      end
  end.

(** ** Waiting for the child *)

Definition STOP_POLL : Z := 100 * 1000000.

Definition renew_interval (lease_duration_ns : Z) (last_failed : bool) : Z :=
  if last_failed then Z.min (lease_duration_ns / 8) 1000000000 else lease_duration_ns / 2.

(** The lease to go on with, whether to go on renewing, and whether the
    renewal failed. *)
Definition after_renewal (lease : LeaseInfo) (outcome : RenewOutcome) : LeaseInfo * bool * bool :=
  match outcome with
  | RenewRenewed fresh | RenewDeferred fresh => (fresh, true, false)
  | RenewLeaseLost => (lease, false, false)
  | RenewNotCommitted _ => (lease, true, true)
  | RenewOutcomeUnknown _ => (lease, false, false)
  end.

Fixpoint babysit_loop (fuel : nat) (lease_duration_ns : Z) (renewing forwarded : bool) (next_renew : Z)
    (lease : LeaseInfo) (q : Queue) : proc (option (result ExitStatus IoError) * LeaseInfo * Queue) :=
  match fuel with
  | O => PRet (None, lease, q)
  | S fuel' =>
      let% now := ask InstantNow in
      let% received := ask (ReceiveStatus (Z.min (Z.max 0 (next_renew - now)) STOP_POLL)) in
      match received with
      | GotStatus status => PRet (Some status, lease, q)
      | Disconnected => PRet (Some (Err (CustomError KOther "child wait thread disconnected")), lease, q)
      | TimedOut =>
          let% forwarded :=
            (if forwarded then PRet true
             else
               let% signalled := ask LoadSignalled in
               if signalled : bool then let% _ := ask SendSigterm in PRet true else PRet false) in
          let% waiting :=
            (if negb renewing then PRet true else let% now := ask InstantNow in PRet (now <? next_renew)%Z) in
          if waiting then babysit_loop fuel' lease_duration_ns renewing forwarded next_renew lease q
          else
            let% (outcome, q) := kernel (renew lease lease_duration_ns q) in
            let '(lease, renewing, failed) := after_renewal lease outcome in
            let% now := ask InstantNow in
            babysit_loop fuel' lease_duration_ns renewing forwarded (now + renew_interval lease_duration_ns failed) lease q
      end
  end.
Definition babysit (fuel : nat) (lease_duration_ns : Z) (lease : LeaseInfo) (q : Queue)
  : proc (option (result ExitStatus IoError) * LeaseInfo * Queue) :=
  let% now := ask InstantNow in
  babysit_loop fuel lease_duration_ns true false (now + renew_interval lease_duration_ns false) lease q.

(** ** One job *)

Definition at_least (code : Z) (m : proc (Z * Queue)) : proc (option Z * Queue) :=
  let% (c, q) := m in PRet (Some (Z.max c code), q).

Definition run_one (fuel : nat) (q : Queue) (lease : LeaseInfo) (reader : VerifiedPayloadReader) (lease_duration_ns : Z)
    (program : bytes) (args : list bytes) : proc (option Z * Queue) :=
  let% spawned := ask (SpawnChild program args (hex_encode (li_job_id lease)) (li_attempt lease)) in
  match spawned with
  | Err _ =>
      let% _ := ask (RaiseFatal EXIT_NOT_FOUND) in
      let% _ := ask StoreStop in
      at_least EXIT_NOT_FOUND (requeue q lease)
  | Ok _ =>
      let% configured := ask ConfigureStdin in
      if negb configured then
        let% _ := ask KillChild in
        at_least 6 (requeue q lease)
      else
        let% (status, lease, q) := babysit fuel lease_duration_ns lease q in
        match status with
        | None => PRet (None, q)
        | Some status =>
            let% _ := (match status with Err _ => ask KillChild | Ok _ => PRet tt end) in
            let% fed := feed fuel reader 0 in
            match fed with
            | None => PRet (None, q)
            | Some fed =>
                match status with
                | Ok status =>
                    if status_success status then
                      if fed : bool then let% (c, q) := finish q lease in PRet (Some c, q) else at_least 1 (requeue q lease)
                    else at_least (child_exit_code status) (requeue q lease)
                | Err _ => PRet (Some 6%Z, q)
                end
            end
        end
  end.

(** ** The loop over jobs *)

Definition SCAN_WAIT_NS : Z := 1000000000.
Inductive WorkerEnd : Type := WorkerCode (code : Z) | WorkerPanic.

Fixpoint worker_loop (fuel : nat) (lease_duration_ns : Z) (once : bool) (program : bytes) (args : list bytes) (q : Queue)
  : proc (option WorkerEnd * Queue) :=
  match fuel with
  | O => PRet (None, q)
  | S fuel' =>
      let return_code (c : Z) (q : Queue) := PRet (Some (WorkerCode c), q) in
      let again := worker_loop fuel' lease_duration_ns once program args in
      let% stop := ask LoadStop in
      if stop : bool then return_code 0%Z q
      else
        let% (claimed, q) := kernel (lease_with_payload fuel (if once then 0 else SCAN_WAIT_NS) lease_duration_ns q) in
        match claimed with
        | None => PRet (None, q)
        | Some (LeaseEmpty, _) => if once then return_code 0%Z q else again q
        | Some (LeaseNotCommitted e, _) =>
            if once || lease_error_is_fatal e then return_code (core_exit_code e) q
            else let% _ := ask (Sleep SCAN_WAIT_NS) in again q
        | Some (LeaseOutcomeUnknown _, _) => return_code 2%Z q
        | Some (LeaseLeased lease, reader) =>
            let% stop := ask LoadStop in
            if stop && (li_attempt lease <? li_maximum_attempts lease)%Z then
              let% (code, q) := requeue q lease in return_code code q
            else
              match reader with
              | None => PRet (Some WorkerPanic, q)
              | Some reader =>
                  let% (code, q) := run_one fuel q lease reader lease_duration_ns program args in
                  match code with
                  | None => PRet (None, q)
                  | Some code => if once then return_code code q else again q
                  end
              end
        end
  end.

Definition worker_options : OpenOptions :=
  mkOpenOptions (allow_unsupported_fs OpenOptions_default) (receipt_retention_ns OpenOptions_default)
    (temporary_file_ttl_ns OpenOptions_default) true.
Definition worker {J : CursorJson} {F : StdFs} (fuel : nat) (path : bytes) (lease_duration_ns : Z) (once : bool)
    (program : bytes) (args : list bytes) : proc (option WorkerEnd) :=
  let% opened := kernel (Queue_open fuel path worker_options) in
  match opened with
  | None => PRet None
  | Some (Err e) => PRet (Some (WorkerCode (core_exit_code e)))
  | Some (Ok q) => let% (ended, _) := worker_loop fuel lease_duration_ns once program args q in PRet ended
  end.
End Worker.

(** What the main thread does. *)
Definition path_join (dir name : bytes) : bytes :=
  match last dir with
  | None => name
  | Some c => if bool_decide (c = "/"%byte) then dir ++ name else dir ++ lit "/" ++ name
  end.
Fixpoint any_executable (program : bytes) (dirs : list bytes) : proc bool :=
  match dirs with
  | [] => PRet false
  | dir :: dirs => let% ok := ask (IsExecutable (path_join dir program)) in if ok : bool then PRet true else any_executable program dirs
  end.
Definition command_is_runnable (program : bytes) : proc bool :=
  if contains "/"%byte program then ask (IsExecutable program)
  else if bool_decide (program = []) then PRet false
  else
    let% path := ask SearchPath in
    match path with Some dirs => any_executable program dirs | None => PRet false end.
Fixpoint join_workers (n : nat) (code : Z) : proc Z :=
  match n with
  | O => PRet code
  | S n => let% joined := ask JoinWorker in join_workers n (Z.max code (default 1%Z joined))
  end.
Definition run_workers (concurrency : nat) (program : bytes) : proc Z :=
  let% runnable := command_is_runnable program in
  if negb runnable then PRet EXIT_NOT_FOUND
  else
    let% code := join_workers concurrency 0 in
    let% fatal := ask LoadFatal in
    PRet (Z.max code fatal).

(** ** What a worker does to a job *)

Section Tended.
Context `{Sha256} {T : Texts}.

(** The same job and claim, at a later generation. *)
Record same_claim (l l' : LeaseInfo) : Prop := {
  sc_job : li_job_id l' = li_job_id l;
  sc_attempt : li_attempt l' = li_attempt l;
  sc_maximum : li_maximum_attempts l' = li_maximum_attempts l;
  sc_token : li_token l' = li_token l;
  sc_payload : li_payload_digest l' = li_payload_digest l;
  sc_later : (li_generation l <= li_generation l')%Z
}.
#[global] Instance same_claim_preorder : PreOrder same_claim.
Proof.
  split; [intros l; by split|]. intros l1 l2 l3 [] []. split; (etrans; [eassumption|eassumption]) || (etrans; eassumption).
Qed.

(** A series of renewals that starts from a lease, with the moves it made and
    the lease it ends with. *)
Inductive tended (d : Z) : LeaseInfo -> Queue -> list event -> nat -> LeaseInfo -> Queue -> Prop :=
| tended_end l q : tended d l q [] 0 l q
| tended_renewal l q t1 out q1 t2 n l' q' :
    exec (renew l d q) t1 (out, q1) -> tended d (after_renewal l out).1.1 q1 t2 n l' q' ->
    tended d l q (t1 ++ t2) (renew_places out + n) l' q'.

Lemma renewal_same_claim d l q tr out q' : exec (renew l d q) tr (out, q') -> same_claim l (after_renewal l out).1.1.
Proof.
  intros Hx. destruct (renew_facts _ _ _ _ _ _ Hx) as (_ & _ & Hi & _).
  assert (Hf : forall info, out = RenewRenewed info \/ out = RenewDeferred info -> same_claim l info).
  { intros info (common & dst & b & w & Hn & _ & -> & _)%Hi. unfold next_identity in Hn.
    destruct (next_common_fields _ _) as [c|] eqn:Hc; cbn in Hn; [|by case_match]. injection Hn as ->.
    split; cbn; try done. unfold next_common_fields in Hc. cbn in Hc. unfold u64_checked_add in Hc. case_match; [|done].
    injection Hc as <-. cbn. lia. }
  destruct out; cbn; auto; reflexivity.
Qed.
Lemma tended_facts d l q tr n l' q' :
  tended d l q tr n l' q' -> tally places tr = n /\ same_claim l l' /\ config q' = config q.
Proof.
  induction 1 as [|l q t1 out q1 t2 n l' q' Hx Ht (IHn & IHs & IHc)]; [by repeat split; try lia|].
  destruct (renew_facts _ _ _ _ _ _ Hx) as (Hn & _ & _ & _ & Hc). rewrite tally_app, Hn, IHn. split; [done|].
  split; [|congruence]. etrans; [by eapply renewal_same_claim|done].
Qed.

(** How a job is left: acknowledged, handed back, or still leased. *)
Inductive Closing : Type := ByAck (o : AckOutcome) | ByRetry (o : TransitionOutcome) | LeftLeased.
Definition closes (l : LeaseInfo) (q : Queue) (tr : list event) (c : Closing) (q' : Queue) : Prop :=
  match c with
  | ByAck o => exec (ack l q) tr (o, q')
  | ByRetry o => exec (retry_now l q) tr (o, q')
  | LeftLeased => tr = [] /\ q' = q
  end.
Definition closing_places (c : Closing) : nat :=
  match c with ByAck o => ack_places o | ByRetry o => transition_places o | LeftLeased => 0 end.
Lemma closes_places l q tr c q' : closes l q tr c q' -> tally places tr = closing_places c.
Proof.
  destruct c as [o|o|]; cbn [closes closing_places]; [| |by intros [-> _]].
  - intros (t1 & t2 & [o' cx'] & -> & H1 & [-> [= -> ->]]%exec_ret)%exec_bind. rewrite app_nil_r.
    by destruct (ack_settles l (mkCtx q None) [] t1 _ eq_refl H1) as (Hn & _).
  - intros Hx. by destruct (perform_settles LtRetryNow _ _ _ _ _ Hx) as (Hn & _).
Qed.

(** ** Feeding *)

Lemma feed_chunk_quiet fuel : forall data tr x, pexec (feed_chunk fuel data) tr x -> kernel_events tr = [].
Proof.
  induction fuel as [|fuel IH]; intros data tr x Hx; cbn [feed_chunk] in Hx; [by pstep Hx|].
  destruct data as [|b data]; [by pstep Hx|]. pstep Hx. destruct b0; [by pstep Hx|]. pstep Hx. rewrite !kernel_request.
  destruct b0 as [n|e].
  - destruct (n =? 0)%Z; [by pstep Hx|by eapply IH].
  - destruct (kind e); try by pstep Hx; try by eapply IH.
    + by eapply IH.
    + pstep Hx. rewrite kernel_request. destruct b0; [by eapply IH|]. case_bool_decide; [by eapply IH|by pstep Hx].
Qed.
Lemma feed_silent fuel : forall reader offset tr x,
  pexec (feed fuel reader offset) tr x -> tally places (kernel_events tr) = 0%nat.
Proof.
  induction fuel as [|fuel IH]; intros reader offset tr x Hx; cbn [feed] in Hx; [by pstep Hx|].
  pstep Hx. rewrite kernel_app, kernel_map, tally_app.
  assert (Hs : silent places (read_at reader CHUNK offset)) by (unfold read_at; silence).
  rewrite (Hs _ _ X). clear X Hs. destruct b as [[|b data]|e]; [by pstep Hx|..|by pstep Hx].
  pstep Hx. rewrite kernel_app, (feed_chunk_quiet _ _ _ _ X). destruct b0 as [[[]|fed]|]; [by eapply IH|by pstep Hx..].
Qed.
End Tended.

(** ** One job is settled once, as its command ended *)

(** The command was seen to end; the wait for it failed. *)
Definition ended_with (status : ExitStatus) (tr : list pevent) : Prop :=
  exists timeout, Request (ReceiveStatus timeout) (GotStatus (Ok status)) ∈ tr.
Definition wait_failed (tr : list pevent) : Prop :=
  exists timeout r, Request (ReceiveStatus timeout) r ∈ tr /\ (r = Disconnected \/ exists e, r = GotStatus (Err e)).
Definition reported (status : result ExitStatus IoError) (tr : list pevent) : Prop :=
  match status with Ok status => ended_with status tr | Err _ => wait_failed tr end.
Lemma reported_in status t1 tr t2 : reported status tr -> reported status (t1 ++ tr ++ t2).
Proof.
  destruct status as [st|e]; cbn [reported].
  - intros (timeout & Hin). exists timeout. set_solver.
  - intros (timeout & r & Hin & Hr). exists timeout, r. set_solver.
Qed.

Section Settled.
Context `{Sha256} {T : Texts}.

Lemma babysit_tends fuel d : forall renewing forwarded next l q tr status l' q',
  pexec (babysit_loop fuel d renewing forwarded next l q) tr (Some status, l', q') ->
  exists n, tended d l q (kernel_events tr) n l' q' /\ reported status tr.
Proof.
  induction fuel as [|fuel IH]; intros renewing forwarded next l q tr status l' q' Hx; cbn [babysit_loop] in Hx.
  { pstep Hx. done. }
  pstep Hx. pstep Hx. rewrite !kernel_request. destruct b0 as [st| |].
  - pstep Hx. injection Hx as -> -> ->. exists 0%nat. split; [constructor|].
    destruct st as [st|e]; [eexists|eexists _, _; split; [|right; by eexists]]; by right; left.
  - apply pexec_bind in Hx as (t1 & t2 & fw & -> & Hf & Hx).
    assert (Kf : kernel_events t1 = []).
    { destruct forwarded; [by pstep Hf|]. pstep Hf. destruct b0; [pstep Hf|]; by pstep Hf. }
    apply pexec_bind in Hx as (t3 & t4 & waiting & -> & Hw & Hx).
    assert (Kw : kernel_events t3 = []) by (destruct renewing; cbn [negb] in Hw; [pstep Hw|]; by pstep Hw).
    rewrite !kernel_app, Kf, Kw. cbn [app].
    assert (Hin : forall s t, reported s t -> reported s (Request InstantNow b :: Request (ReceiveStatus
      (Z.min (Z.max 0 (next - b)) STOP_POLL)) TimedOut :: t1 ++ t3 ++ t)).
    { intros s t Hr. rewrite <- (app_nil_r t), (app_assoc t1), !app_comm_cons. by apply reported_in. }
    destruct waiting.
    + destruct (IH _ _ _ _ _ _ _ _ _ Hx) as (n & Ht & Hr). exists n. auto.
    + pstep Hx. destruct b0 as [outcome q1]. cbv beta iota in Hx.
      destruct (after_renewal l outcome) as [[l1 renewing1] failed] eqn:Ea. pstep Hx.
      destruct (IH _ _ _ _ _ _ _ _ _ Hx) as (n & Ht & Hr).
      exists (renew_places outcome + n)%nat. rewrite kernel_app, kernel_map, kernel_request. split.
      * eapply tended_renewal; [exact X|]. by rewrite Ea.
      * apply Hin. apply (reported_in _ (map KernelEvent t ++ [Request InstantNow b0]) _ []) in Hr.
        by rewrite app_nil_r, <- app_assoc in Hr.
  - pstep Hx. injection Hx as -> -> ->. exists 0%nat. split; [constructor|]. eexists _, Disconnected. split; [by right; left|by left].
Qed.

Lemma core_exit_code_positive e : (0 < core_exit_code e)%Z.
Proof. by destruct e. Qed.
Lemma finish_closes q l tr code q' :
  pexec (finish q l) tr (code, q') ->
  exists o, closes l q (kernel_events tr) (ByAck o) q' /\ (code = 0%Z <-> o = Acked \/ o = AlreadyAcked).
Proof.
  unfold finish. intros Hx. pstep Hx. destruct b as [o q1]. pstep Hx. injection Hx as -> ->.
  rewrite app_nil_r, kernel_map. exists o. split; [exact X|].
  destruct o as [| | |e|]; [naive_solver..| |naive_solver]. pose proof (core_exit_code_positive e). naive_solver lia.
Qed.
Lemma requeue_closes q l tr code q' :
  pexec (requeue q l) tr (code, q') -> exists o, closes l q (kernel_events tr) (ByRetry o) q' /\ (0 <= code)%Z.
Proof.
  unfold requeue. intros Hx. pstep Hx. destruct b as [o q1]. pstep Hx. injection Hx as -> ->.
  rewrite app_nil_r, kernel_map. exists o. split; [exact X|].
  destruct o as [| |e|]; try lia. pose proof (core_exit_code_positive e). lia.
Qed.
Lemma at_least_closes c q l tr code q' :
  (1 <= c)%Z -> pexec (at_least c (requeue q l)) tr (Some code, q') ->
  exists o, closes l q (kernel_events tr) (ByRetry o) q' /\ code <> 0%Z.
Proof.
  intros Hc Hx. unfold at_least in Hx. pstep Hx. destruct b as [c0 q1]. pstep Hx. injection Hx as -> ->.
  rewrite app_nil_r. destruct (requeue_closes _ _ _ _ _ X) as (o & Ho & Hp). exists o. split; [done|]. lia.
Qed.
Lemma child_exit_code_range status : (1 <= child_exit_code status <= 255)%Z.
Proof. unfold child_exit_code. lia. Qed.

(** Why a job was left that way. *)
Definition fed_as (fuel : nat) (reader : VerifiedPayloadReader) (fed : bool) (tr : list pevent) : Prop :=
  exists t1 t2 t3, tr = t1 ++ t2 ++ t3 /\ pexec (feed fuel reader 0) t2 (Some fed).
Definition closed_because (fuel : nat) (reader : VerifiedPayloadReader) (tr : list pevent) (c : Closing) : Prop :=
  match c with
  | ByAck _ => ended_with (ExitedWith 0) tr /\ fed_as fuel reader true tr
  | ByRetry _ =>
      (exists program args job_id attempt e, Request (SpawnChild program args job_id attempt) (Err e) ∈ tr) \/
      Request ConfigureStdin false ∈ tr \/
      (exists status, ended_with status tr /\ status <> ExitedWith 0) \/ fed_as fuel reader false tr
  | LeftLeased => wait_failed tr
  end.

(** A run that consists of renewals, reads and one closing. *)
Definition job_settled (fuel : nat) (q : Queue) (lease : LeaseInfo) (reader : VerifiedPayloadReader) (d : Z)
    (tr : list pevent) (code : Z) (q' : Queue) : Prop :=
  exists n lease' q1 t1 t2 t3 c,
    kernel_events tr = t1 ++ t2 ++ t3 /\
    tended d lease q t1 n lease' q1 /\ same_claim lease lease' /\
    tally places t2 = 0%nat /\
    closes lease' q1 t3 c q' /\ closed_because fuel reader tr c /\
    tally places (kernel_events tr) = (n + closing_places c)%nat /\
    (code = 0%Z <-> c = ByAck Acked \/ c = ByAck AlreadyAcked).
Lemma settled_by c n lease' q1 t1 t2 t3 fuel q lease reader d tr code q' :
  tended d lease q t1 n lease' q1 -> closes lease' q1 t3 c q' -> kernel_events tr = t1 ++ t2 ++ t3 ->
  tally places t2 = 0%nat -> closed_because fuel reader tr c ->
  (code = 0%Z <-> c = ByAck Acked \/ c = ByAck AlreadyAcked) -> job_settled fuel q lease reader d tr code q'.
Proof.
  intros Ht Hc Hk H2 Hw Hz. destruct (tended_facts _ _ _ _ _ _ _ Ht) as (Hn & Hs & _).
  exists n, lease', q1, t1, t2, t3, c. do 6 (split; [done|]). split; [|done].
  by rewrite Hk, !tally_app, Hn, H2, (closes_places _ _ _ _ _ Hc).
Qed.

(** The end of a job whose command ran. *)
Lemma closing_run fuel q lease reader d t0 t1 t2 t3 status lease' q1 fed n code q' tr :
  tended d lease q (kernel_events t0) n lease' q1 -> reported status t0 -> kernel_events t1 = [] ->
  pexec (feed fuel reader 0) t2 (Some fed) ->
  pexec (match status with
         | Ok status =>
             if status_success status then
               if fed then let% (c, q) := finish q1 lease' in PRet (Some c, q) else at_least 1 (requeue q1 lease')
             else at_least (child_exit_code status) (requeue q1 lease')
         | Err _ => PRet (Some 6%Z, q1)
         end) t3 (Some code, q') ->
  (exists pre, kernel_events pre = [] /\ tr = pre ++ t0 ++ t1 ++ t2 ++ t3) ->
  job_settled fuel q lease reader d tr code q'.
Proof.
  intros Ht Hr K1 Hf Hx (pre & K0 & ->). pose proof (feed_silent _ _ _ _ _ Hf) as Hs.
  assert (Hfed : fed_as fuel reader fed (pre ++ t0 ++ t1 ++ t2 ++ t3)).
  { exists (pre ++ t0 ++ t1), t2, t3. by rewrite <- !app_assoc. }
  apply (reported_in _ pre _ (t1 ++ t2 ++ t3)) in Hr.
  assert (Hk : kernel_events (pre ++ t0 ++ t1 ++ t2 ++ t3) = kernel_events t0 ++ kernel_events t2 ++ kernel_events t3)
    by (by rewrite !kernel_app, K0, K1). destruct status as [status|e]; cbn [reported] in Hr.
  - destruct (status_success status) eqn:Es.
    + apply bool_decide_eq_true in Es. destruct status as [st|]; [|done]. injection Es as ->. destruct fed.
      * pstep Hx. destruct b as [c q2]. pstep Hx. injection Hx as -> ->.
        destruct (finish_closes _ _ _ _ _ X) as (o & Ho & Hz). rewrite app_nil_r in *.
        eapply (settled_by (ByAck o)); [exact Ht|exact Ho|exact Hk|exact Hs|by split|naive_solver].
      * destruct (at_least_closes 1 _ _ _ _ _ ltac:(lia) Hx) as (o & Ho & Hz).
        eapply (settled_by (ByRetry o)); [exact Ht|exact Ho|exact Hk|exact Hs|by do 3 right|naive_solver].
    + apply bool_decide_eq_false in Es.
      destruct (at_least_closes _ _ _ _ _ _ (proj1 (child_exit_code_range status)) Hx) as (o & Ho & Hz).
      eapply (settled_by (ByRetry o)); [exact Ht|exact Ho|exact Hk|exact Hs| |naive_solver].
      right; right; left. exists status. split; [done|]. intros ->. by apply Es.
  - pstep Hx. injection Hx as -> ->.
    eapply (settled_by LeftLeased n lease' q1 _ _ []); [exact Ht|by split|exact Hk|exact Hs|done|naive_solver].
Qed.

(** C23: A worker settles each job once, and as its command ended.  Every
    completed run of a job is a series of renewals, reads of the payload, and
    one closing: an acknowledgement exactly when the command exited with zero
    and its input was delivered; otherwise the job is handed back, or, when
    the wait for the command failed, left to its lease.  The closing acts on
    the lease the last renewal returned, which is the same claim of the same
    job; the moves made are those the renewals and the closing report; and the
    exit code is zero exactly when the job is acknowledged. *)
Theorem worker_settles fuel q lease reader d program args tr code q' :
  pexec (run_one fuel q lease reader d program args) tr (Some code, q') ->
  job_settled fuel q lease reader d tr code q'.
Proof.
  intros Hx. unfold run_one in Hx. pstep Hx. destruct b as [[]|e].
  - pstep Hx. destruct b; cbn [negb] in Hx.
    + pstep Hx. destruct b as [[status lease'] q1]. cbv beta iota in Hx. destruct status as [status|]; [|by pstep Hx].
      unfold babysit in X. pstep X. destruct (babysit_tends _ _ _ _ _ _ _ _ _ _ _ X) as (n & Ht & Hr).
      apply pexec_bind in Hx as (t2 & t3 & [] & -> & Hkill & Hx).
      assert (K1 : kernel_events t2 = []) by (destruct status; [by destruct Hkill as [-> _]|by destruct Hkill as ([] & ? & -> & -> & _)]).
      pstep Hx. destruct b0 as [fed|]; [|by pstep Hx].
      eapply closing_run; [exact Ht|exact Hr|exact K1|exact X0|exact Hx|].
      eexists [_; _; _]. split; [|reflexivity]. done.
    + pstep Hx. destruct (at_least_closes 6 _ _ _ _ _ ltac:(lia) Hx) as (o & Ho & Hz).
      eapply (settled_by (ByRetry o) 0 _ _ [] []); [constructor|exact Ho|done|done| |naive_solver].
      right; left. by right; left.
  - pstep Hx. pstep Hx. destruct (at_least_closes EXIT_NOT_FOUND _ _ _ _ _ ltac:(done) Hx) as (o & Ho & Hz).
    eapply (settled_by (ByRetry o) 0 _ _ [] []); [constructor|exact Ho|done|done| |naive_solver].
    left. exists program, args, (hex_encode (li_job_id lease)), (li_attempt lease), e. by left.
Qed.
End Settled.

(** ** The child gets the payload *)

(** The bytes a request put into the pipe, the contract of a write, and the
    answers by which the child stops reading. *)
Definition written_by (ev : pevent) : bytes :=
  match ev with
  | KernelEvent _ => []
  | Request c answer =>
      match c in PCall B return B -> bytes with
      | WriteStdin data => fun r => match r with Ok n => take (Z.to_nat n) data | Err _ => [] end
      | _ => fun _ => []
      end answer
  end.
Definition write_fits (ev : pevent) : Prop :=
  match ev with
  | KernelEvent _ => True
  | Request c answer =>
      match c in PCall B return B -> Prop with
      | WriteStdin data => fun r => match r with Ok n => (0 <= n <= Z.of_nat (length data))%Z | Err _ => True end
      | _ => fun _ => True
      end answer
  end.
Definition closes_input (ev : pevent) : Prop :=
  match ev with
  | KernelEvent _ => False
  | Request c answer =>
      match c in PCall B return B -> Prop with
      | LoadStopped => fun stopped => stopped = true
      | WriteStdin _ => fun r => match r with Ok _ => False | Err e => kind e = KBrokenPipe end
      | _ => fun _ => False
      end answer
  end.
Definition written (tr : list pevent) : bytes := concat (map written_by tr).
Lemma written_app t1 t2 : written (t1 ++ t2) = written t1 ++ written t2.
Proof. unfold written. by rewrite map_app, concat_app. Qed.
Lemma written_kernel t : written (map KernelEvent t) = [].
Proof. induction t as [|ev t IH]; [done|exact IH]. Qed.

Lemma feed_chunk_writes fuel : forall data tr x,
  pexec (feed_chunk fuel data) tr (Some x) -> Forall write_fits tr ->
  exists rest, data = written tr ++ rest /\
    match x with inl _ => rest = [] | inr true => Exists closes_input tr | inr false => True end.
Proof.
  induction fuel as [|fuel IH]; intros data tr x Hx Hok; cbn [feed_chunk] in Hx; [by pstep Hx|].
  destruct data as [|b data]; [pstep Hx; injection Hx as ->; by exists []|].
  pstep Hx. destruct b0; [pstep Hx; injection Hx as ->; exists (b :: data); split; [done|by left]|].
  pstep Hx. do 2 (apply Forall_cons in Hok as [? Hok]).
  assert (Hrec : forall t, pexec (feed_chunk fuel (b :: data)) t (Some x) -> Forall write_fits t -> forall pre, written pre = [] ->
    exists rest, b :: data = written (pre ++ t) ++ rest /\
      match x with inl _ => rest = [] | inr true => Exists closes_input (pre ++ t) | inr false => True end).
  { intros t Ht Hw pre Hp. destruct (IH _ _ _ Ht Hw) as (rest & Hd & Hr). exists rest. rewrite written_app, Hp. split; [done|].
    destruct x as [|[]]; [done|by apply Exists_app; right|done]. }
  destruct b0 as [n|e].
  - destruct (n =? 0)%Z eqn:En; breflect.
    { pstep Hx. injection Hx as ->. subst n. by exists (b :: data). }
    destruct (IH _ _ _ Hx Hok) as (rest & Hd & Hr). exists rest.
    change (written (Request LoadStopped false :: Request (WriteStdin (b :: data)) (Ok n) :: t0))
      with (take (Z.to_nat n) (b :: data) ++ written t0).
    rewrite <- app_assoc, <- Hd, take_drop. split; [done|]. destruct x as [|[]]; [done|by do 2 right|done].
  - assert (Hfail : Some x = Some (inr false) -> exists rest, b :: data = [] ++ rest /\
      match x with inl _ => rest = [] | inr true => Exists closes_input [Request LoadStopped false; Request (WriteStdin (b :: data)) (Err e)]
      | inr false => True end) by (intros [= ->]; by exists (b :: data)).
    destruct (kind e) eqn:Ek; try (pstep Hx; by apply Hfail).
    + by apply (Hrec _ Hx Hok [_; _]).
    + pstep Hx. apply Forall_cons in Hok as [_ Hok]. destruct b0 as [[]|e2]; [by apply (Hrec _ Hx Hok [_; _; _])|].
      case_bool_decide; [by apply (Hrec _ Hx Hok [_; _; _])|]. pstep Hx. injection Hx as ->. by exists (b :: data).
    + pstep Hx. injection Hx as ->. exists (b :: data). split; [done|]. right; by left.
Qed.

Section Feed.
Context {T : Texts}.

Definition reader_payload (reader : VerifiedPayloadReader) (content : bytes) : bytes :=
  take (Z.to_nat (pr_payload_len reader)) (drop (Z.to_nat (pr_payload_start reader)) content).
Definition reader_fits (reader : VerifiedPayloadReader) (content : bytes) : Prop :=
  (0 <= pr_payload_start reader)%Z /\ (0 <= pr_payload_len reader)%Z /\
  (pr_payload_start reader + pr_payload_len reader <= Z.of_nat (length content) < 2 ^ 63)%Z.

Lemma read_at_serves reader content offset tr data :
  reader_fits reader content -> (0 <= offset <= pr_payload_len reader)%Z ->
  exec (read_at reader CHUNK offset) tr (Ok data) -> Forall (serves (pr_file_fd reader) content) tr ->
  (data = [] -> offset = pr_payload_len reader) /\
  data = take (length data) (drop (Z.to_nat offset) (reader_payload reader content)) /\
  (Z.of_nat (length data) <= pr_payload_len reader - offset)%Z.
Proof.
  intros (Hs & Hl & Hc) Ho Hx Hok. unfold read_at in Hx. cbn [orb] in Hx. change (CHUNK =? 0)%Z with false in Hx.
  rewrite orb_false_r in Hx. destruct (pr_payload_len reader <=? offset)%Z eqn:El; breflect.
  { apply exec_ret in Hx as [_ [= ->]]. cbn. split; [lia|]. split; [done|lia]. }
  apply exec_try in Hx as [(e & _ & ?)|(t1 & t2 & d & -> & Hr & Hx)]; [done|].
  destruct (length d =? 0)%nat eqn:Ed; breflect; [by apply exec_ret in Hx as [_ ?]|].
  apply exec_ret in Hx as [-> [= ->]]. rewrite app_nil_r in Hok. apply exec_map_err_ok in Hr. unfold pread in Hr.
  destruct t1 as [|[c a] [|]]; cbn in Hr; try (by destruct Hr as [_ []]); try done. destruct Hr as [-> Hr].
  apply Forall_cons in Hok as [Ha _]. cbn in Ha. specialize (Ha eq_refl). destruct a as [| | |bs| | |]; try done.
  cbn [check_read read_data] in Hr. injection Hr as Hr.
  replace (wrap64 (pr_payload_start reader + offset)) with (pr_payload_start reader + offset)%Z in Ha
    by (unfold wrap64; rewrite Z.mod_small; lia).
  unfold as_i64 in Ha. destruct (_ <? 2 ^ 63)%Z eqn:Ei; breflect; [|lia]. destruct Ha as (Hbs & Hlen & _).
  rewrite take_ge in Hr by done. subst bs. split; [by intros ->|]. unfold reader_payload. split; [|lia].
  rewrite skipn_firstn_comm, drop_drop, take_take, Nat.min_l by lia. rewrite Hbs at 1. do 2 f_equal. lia.
Qed.

Lemma feed_writes content reader : reader_fits reader content -> forall fuel offset tr fed,
  (0 <= offset <= pr_payload_len reader)%Z -> pexec (feed fuel reader offset) tr (Some fed) ->
  Forall write_fits tr -> Forall (serves (pr_file_fd reader) content) (kernel_events tr) ->
  exists rest, drop (Z.to_nat offset) (reader_payload reader content) = written tr ++ rest /\
    (fed = true -> rest = [] \/ Exists closes_input tr).
Proof.
  intros Hf. induction fuel as [|fuel IH]; intros offset tr fed Ho Hx Hok Hs; cbn [feed] in Hx; [by pstep Hx|].
  pstep Hx. rewrite kernel_app, kernel_map in Hs. apply Forall_app in Hs as [Hs1 Hs2]. apply Forall_app in Hok as [_ Hok].
  rewrite written_app, written_kernel. cbn [app].
  assert (Hex : forall t2, Exists closes_input t2 -> Exists closes_input (map KernelEvent t ++ t2)) by (intros; apply Exists_app; by right).
  destruct b as [data|e]; [|pstep Hx; injection Hx as ->; by eexists].
  destruct (read_at_serves _ _ _ _ _ Hf Ho X Hs1) as (Hnil & Hdata & Hlen).
  destruct data as [|b data].
  { pstep Hx. injection Hx as ->. exists []. rewrite (Hnil eq_refl). split; [|by left].
    apply drop_ge. unfold reader_payload. rewrite length_take. lia. }
  pstep Hx. apply Forall_app in Hok as [Hok1 Hok2]. rewrite kernel_app in Hs2. apply Forall_app in Hs2 as [_ Hs2].
  set (chunk := b :: data) in *. rewrite <- (take_drop (length chunk) (drop (Z.to_nat offset) _)), <- Hdata.
  destruct b0 as [x|]; [|by pstep Hx]. destruct (feed_chunk_writes _ _ _ _ X0 Hok1) as (rest & Hd & Hr).
  destruct x as [[]|stop].
  - subst rest. rewrite app_nil_r in Hd. clearbody chunk.
    assert (Ho2 : (0 <= offset + Z.of_nat (length chunk) <= pr_payload_len reader)%Z) by lia.
    destruct (IH _ _ _ Ho2 Hx Hok2 Hs2) as (rest & Hd2 & Hr2).
    exists rest. rewrite written_app, <- Hd, <- app_assoc, <- Hd2, drop_drop. split; [do 2 f_equal; lia|].
    intros Hfed. destruct (Hr2 Hfed) as [?|?]; [by left|]. right. apply Hex, Exists_app. by right.
  - pstep Hx. injection Hx as ->. rewrite app_nil_r. eexists. split; [rewrite Hd at 1; by rewrite <- app_assoc|].
    intros ->. right. by apply Hex.
Qed.

(** C24: The command gets the payload of its job, in order and nothing else.
    When the job file is served consistently and writes take no more than they
    are given, the bytes put into the pipe are a prefix of the payload; and if
    the feeder reports delivery they are all of it, unless the command closed
    its input or had already ended. *)
Theorem feed_delivers fuel reader content tr fed :
  reader_fits reader content -> pexec (feed fuel reader 0) tr (Some fed) ->
  Forall write_fits tr -> Forall (serves (pr_file_fd reader) content) (kernel_events tr) ->
  written tr `prefix_of` reader_payload reader content /\
  (fed = true -> written tr = reader_payload reader content \/ Exists closes_input tr).
Proof.
  intros Hf Hx Hok Hs. destruct (feed_writes content reader Hf fuel 0 tr fed) as (rest & Hd & Hr); [|done..|].
  { destruct Hf as (_ & ? & _). lia. }
  change (drop (Z.to_nat 0) ?l) with l in Hd. rewrite Hd. split; [by exists rest|].
  intros Hfed. destruct (Hr Hfed) as [->|?]; [left; by rewrite app_nil_r|by right].
Qed.
End Feed.

(** ** The loop over jobs *)

Section Loop.
Context `{Sha256Spec} {T : Texts}.

(** A lease comes with its reader. *)
Lemma leased_reader fuel wait d q tr lease reader q' :
  exec (lease_with_payload fuel wait d q) tr (Some (LeaseLeased lease, reader), q') -> is_Some reader.
Proof.
  intros (t1 & t2 & [o cx] & -> & H1 & H2)%exec_bind. apply exec_ret in H2 as [-> [= <- ->]].
  destruct (inner_outcome fuel wait d (mkCtx q None) _ _ H1) as [_ Ho]. cbn in Ho.
  destruct Ho as (c & _ & _ & (fd & header & ct & moved & ta & tb & _ & _ & -> & _) & _). by eexists.
Qed.
Lemma poisoned_lease fuel wait d q tr x q' :
  poisoned q <> None -> exec (lease_with_payload (S fuel) wait d q) tr (x, q') ->
  tally places tr = 0%nat /\ exists reason, x = Some (LeaseNotCommitted (QueuePoisoned reason), None).
Proof.
  intros Hq (t1 & t2 & [o cx] & -> & H1 & H2)%exec_bind. apply exec_ret in H2 as [-> [= -> ->]]. rewrite app_nil_r.
  apply exec_bind in H1 as (t3 & t4 & y & -> & Hn & H1).
  apply exec_bind in Hn as (t5 & t6 & started & -> & Hn & [-> ->]%exec_ret). cbn [fst snd] in H1. rewrite app_nil_r in *.
  cbn [lease_rounds] in H1. apply exec_bind in H1 as (t7 & t8 & [o1 cx1] & -> & H1 & H3).
  destruct (poisoned_refuses _ _ (mkCtx q None) _ _ Hq H1) as (reason & -> & [= -> ->]). cbn [fst snd] in H3.
  rewrite orb_true_r in H3. apply exec_ret in H3 as [-> [= -> ->]]. rewrite app_nil_r.
  split; [exact (silent_instant (sel := places) _ _ Hn)|by exists (PoisonReason_fmt reason)].
Qed.

Lemma loop_no_panic d once program args fuel : forall q tr q',
  ~ pexec (worker_loop fuel d once program args q) tr (Some WorkerPanic, q').
Proof.
  induction fuel as [|fuel IH]; intros q tr q' Hx; cbn [worker_loop] in Hx; [by pstep Hx|].
  pstep Hx. destruct b; [by pstep Hx|]. pstep Hx. destruct b as [[[out reader]|] q1]; [|by pstep Hx].
  destruct out as [lease| |e|ticket].
  - pstep Hx. destruct (b && _); [pstep Hx; destruct b0; by pstep Hx|].
    destruct (leased_reader _ _ _ _ _ _ _ _ X) as [r ->]. pstep Hx. destruct b0 as [[code|] q2]; [|by pstep Hx].
    destruct once; [by pstep Hx|by eapply IH].
  - destruct once; [by pstep Hx|by eapply IH].
  - destruct (once || _); [by pstep Hx|]. pstep Hx. by eapply IH.
  - by pstep Hx.
Qed.

(** A worker never panics, and a worker whose handle is poisoned stops.
    Whatever the kernel, the command and the signals do, the loop ends with an
    exit code or runs on; and once an outcome was unknown, so that the handle
    refuses further work, the next turn of the loop ends it without moving a
    job: with code zero when a stop was requested, otherwise with the code for
    corruption. *)
Theorem worker_stops_sound d once program args fuel q tr r q' :
  pexec (worker_loop fuel d once program args q) tr (r, q') ->
  r <> Some WorkerPanic /\
  (poisoned q <> None -> fuel <> 0%nat ->
     tally places (kernel_events tr) = 0%nat /\
     exists code, r = Some (WorkerCode code) /\ (code = 0%Z \/ code = EXIT_CORRUPTION)).
Proof.
  intros Hx. split; [intros ->; by eapply loop_no_panic|]. intros Hp Hf. destruct fuel as [|fuel]; [done|].
  cbn [worker_loop] in Hx. pstep Hx. destruct b; [pstep Hx; injection Hx as -> ->; by eauto|].
  pstep Hx. destruct b as [x q1]. destruct (poisoned_lease _ _ _ _ _ _ _ Hp X) as (Hn & reason & ->).
  rewrite orb_true_r in Hx. pstep Hx. injection Hx as -> ->. rewrite app_nil_r, kernel_request, kernel_map. by eauto.
Qed.
End Loop.

(** ** Samples *)

(** A world in which the command starts and ends with zero. *)
Definition sample_world : forall B, unit -> PCall B -> B * unit := fun B w c =>
  match c in PCall B return B * unit with
  | LoadStop | LoadSignalled | LoadStopped => (false, w)
  | StoreStop | RaiseFatal _ | Sleep _ | KillChild | SendSigterm => (tt, w)
  | LoadFatal | InstantNow => (0%Z, w)
  | SpawnChild _ _ _ _ | PollStdin => (Ok tt, w)
  | ConfigureStdin | IsExecutable _ => (true, w)
  | ReceiveStatus _ => (GotStatus (Ok (ExitedWith 0)), w)
  | WriteStdin data => (Ok (Z.min 2 (Z.of_nat (length data))), w)
  | SearchPath => (None, w)
  | JoinWorker => (Some 0%Z, w)
  | Canonicalize path => (Ok path, w)
  | ReadFile _ | ReadStdin => (Ok [], w)
  | CreatePrivate _ | WritePrivate _ | SyncPrivate | RenamePath _ _ => (Ok tt, w)
  | RemovePath _ | SyncDirectory _ => (tt, w)
  | ProcessId => (lit "1", w)
  end.
Definition sample_payload_reader : VerifiedPayloadReader := mkVerifiedPayloadReader 10 130 3.
Definition sample_job_run :=
  prun (sample_lease_disk (filename sample_ack_target)) sample_world tt tt
    (@run_one checksum256 sample_texts 5 (knowing sample_ack_target) sample_lease sample_payload_reader 10000000000 (lit "true") []).
Lemma worker_settles_witness :
  sample_job_run.1.2.1 = Some 0%Z /\
  @job_settled checksum256 sample_texts 5 (knowing sample_ack_target) sample_lease sample_payload_reader 10000000000
    sample_job_run.1.1 0 sample_job_run.1.2.2.
Proof.
  assert (Hcode : sample_job_run.1.2.1 = Some 0%Z) by (vm_compute; reflexivity). split; [exact Hcode|].
  assert (Hx : pexec (@run_one checksum256 sample_texts 5 (knowing sample_ack_target) sample_lease sample_payload_reader 10000000000
    (lit "true") []) sample_job_run.1.1 sample_job_run.1.2) by (unfold sample_job_run; apply prun_exec).
  revert Hcode Hx. generalize sample_job_run. intros [[tr [r q']] s]. cbn [fst snd]. intros -> Hx.
  exact (@worker_settles checksum256 sample_texts 5 _ _ _ _ _ _ _ _ _ Hx).
Defined.

Definition sample_feed :=
  prun (sample_lease_disk (filename sample_ack_target)) sample_world tt tt (@feed sample_texts 5 sample_payload_reader 0).
Lemma feed_delivers_witness :
  written sample_feed.1.1 = [x61; x62; x63] /\
  written sample_feed.1.1 `prefix_of` reader_payload sample_payload_reader sample_job_file.
Proof.
  split; [vm_compute; reflexivity|].
  assert (Hfits : reader_fits sample_payload_reader sample_job_file) by (vm_compute; repeat split; discriminate).
  assert (Hfed : sample_feed.1.2 = Some true) by (vm_compute; reflexivity).
  assert (Hw : Forall write_fits sample_feed.1.1) by (vm_compute; repeat constructor; discriminate).
  assert (Hk : kernel_events sample_feed.1.1 = [(SysPread 10 3 130, Reads [x61; x62; x63])]) by (vm_compute; reflexivity).
  assert (Hs : Forall (serves 10 sample_job_file) (kernel_events sample_feed.1.1)).
  { rewrite Hk. apply Forall_singleton. intros _. split; [vm_compute; reflexivity|]. split; [vm_compute; lia|discriminate]. }
  assert (Hx : pexec (@feed sample_texts 5 sample_payload_reader 0) sample_feed.1.1 sample_feed.1.2) by (unfold sample_feed; apply prun_exec).
  rewrite Hfed in Hx. exact (proj1 (@feed_delivers sample_texts 5 _ _ _ true Hfits Hx Hw Hs)).
Defined.

Definition sample_poisoned : Queue := set_poisoned (Some PostLinearizationStateUnknown) sample_queue.
Definition sample_stop :=
  prun (sample_lease_disk (filename sample_ack_target)) sample_world tt tt
    (@worker_loop checksum256 sample_texts 1 10000000000 true (lit "true") [] sample_poisoned).
Lemma worker_stops_sound_witness :
  exists code, sample_stop.1.2.1 = Some (WorkerCode code) /\ (code = 0%Z \/ code = EXIT_CORRUPTION).
Proof.
  assert (Hp : poisoned sample_poisoned <> None) by (vm_compute; discriminate).
  assert (Hx : pexec (@worker_loop checksum256 sample_texts 1 10000000000 true (lit "true") [] sample_poisoned)
    sample_stop.1.1 (sample_stop.1.2.1, sample_stop.1.2.2)) by (rewrite <- surjective_pairing; unfold sample_stop; apply prun_exec).
  exact (proj2 (proj2 (@worker_stops_sound checksum256 checksum256_spec sample_texts 10000000000 true (lit "true") [] 1 _ _ _ _ Hx)
    Hp ltac:(discriminate))).
Defined.
