(* ===== verification/Cli.v ===== *)
(** * The commands of the command line

    Models [crates/steadq-cli/src/main.rs]: the exit codes, the lease handle
    file that binds a lease to its queue, and one program for each command that
    works on a queue.  A command returns its exit code; what it prints is left
    out.  The commands that only measure or report on a host ([stats], [doctor],
    [bench]) and the exports are not modelled.

    Files of the user are read and written through requests of [Process]; the
    JSON of the handle file is an interface with its round trip as a law.
    Commands that read directories take fuel; [None] means it ran out. *)
From stdpp Require Import base numbers list option strings gmap.
From Stdlib Require Import Strings.Byte ZArith.
From S2P Require Import Prelude Math Names Format Cbor FsLinux FsRead FsDir StateMachine Ticket Layout Engine Logic Verified Queue Watermark Publish Resolve Consumer Quarantine Lease Inspect Recovery Phases Cursor Maintenance Pass Fsck Setup Lifecycle Process Worker.
Open Scope string_scope.
Open Scope list_scope.

(** ** Exit codes and arguments *)

Definition exit_io (error : IoError) : Z :=
  match kind error with
  | KUnsupported => EXIT_UNSUPPORTED
  | KPermissionDenied => EXIT_PERMISSION
  | KStorageFull | KQuotaExceeded => EXIT_RESOURCE_EXHAUSTED
  | KAlreadyExists | KInvalidInput | KInvalidData | KWouldBlock => EXIT_ORDINARY
  | _ => EXIT_IO_FAILURE
  end.

Definition parse_hex_id (value : bytes) : result bytes Z := ok_or (hex_decode_16 value) EXIT_ORDINARY.
Definition parse_duration_seconds (s : Z) : option Z := u64_checked_mul s 1000000000.

Definition TMPFS_MAGIC : Z := 16914836.
Definition NFS_SUPER_MAGIC : Z := 26985.
Definition OVERLAYFS_SUPER_MAGIC : Z := 2035054128.
Definition FUSE_SUPER_MAGIC : Z := 1702057286.
Definition doctor_filesystem (magic : Z) : string * bool :=
  match supported_filesystem_name magic with
  | Some name => (name, true)
  | None =>
      if (magic =? TMPFS_MAGIC)%Z then ("tmpfs_not_certified", false)
      else if (magic =? NFS_SUPER_MAGIC)%Z then ("nfs_refused", false)
      else if (magic =? FUSE_SUPER_MAGIC)%Z then ("fuse_refused", false)
      else if (magic =? OVERLAYFS_SUPER_MAGIC)%Z then ("overlay_refused", false)
      else ("unknown_refused", false)
  end.

(** [u16::from_str]: decimal digits, after an optional plus sign. *)
Fixpoint parse_digits (value : Z) (s : bytes) : option Z :=
  match s with
  | [] => Some value
  | b :: s =>
      if (48 <=? b2z b)%Z && (b2z b <=? 57)%Z then
        let value := (value * 10 + (b2z b - 48))%Z in
        if (65535 <? value)%Z then None else parse_digits value s
      else None
  end.
Definition parse_u16 (s : bytes) : option Z :=
  match (match s with "+"%byte :: rest => rest | _ => s end) with
  | [] => None
  | digits => parse_digits 0 digits
  end.
Definition DEAD_REASON_NAMES : list bytes :=
  [lit "unspecified"; lit "consumer_rejected"; lit "unsupported_content_type"; lit "administrative_bury";
   lit "attempts_exhausted"].
Definition parse_dead_reason (value : bytes) : option DeadReason :=
  code ← (match list_find (fun name => name = value) DEAD_REASON_NAMES with
          | Some (index, _) => Some (Z.of_nat index)
          | None => parse_u16 value
          end);
  DeadReason_from_u16 code.

(** ** Private files *)

(** [Path::with_extension]: the name up to its last dot, unless that starts
    the name, and the new extension. *)
Fixpoint last_dot (name : bytes) : option nat :=
  match name with
  | [] => None
  | b :: rest =>
      match last_dot rest with
      | Some i => Some (S i)
      | None => if bool_decide (b = "."%byte) then Some 0%nat else None
      end
  end.
Definition file_stem_length (name : bytes) : nat :=
  if bool_decide (name = lit "..") then length name
  else match last_dot name with Some (S i) => S i | _ => length name end.
Definition with_extension (path extension : bytes) : bytes :=
  let start := len_before_body path in
  let body := trim_right (length path) start path in
  if (start <? length body)%nat then
    let (name, _) := Setup.last_component (drop start body) in
    if bool_decide (name = lit "..") then path
    else take (length body - length name + file_stem_length name) body ++ lit "." ++ extension
  else path.

Definition atomic_write_private (path data : bytes) : proc (result unit IoError) :=
  let% random := kernel random_128bit in
  let% suffix := (match random with Ok b => PRet (hex_encode b) | Err _ => ask ProcessId end) in
  let tmp_path := with_extension path (lit "tmp." ++ suffix) in
  let% written :=
    (let% created := ask (CreatePrivate tmp_path) in
     match created with
     | Err e => PRet (Err e)
     | Ok _ =>
         let% w := ask (WritePrivate data) in
         match w with
         | Err e => PRet (Err e)
         | Ok _ =>
             let% s := ask SyncPrivate in
             match s with Err e => PRet (Err e) | Ok _ => ask (RenamePath tmp_path path) end
         end
     end) in
  match written with
  | Err error => let% _ := ask (RemovePath tmp_path) in PRet (Err error)
  | Ok _ =>
      let% _ := (match path_parent path with Some parent => ask (SyncDirectory parent) | None => PRet tt end) in
      PRet (Ok tt)
  end.

(** ** The lease handle file *)

Record HandleFile : Type := mkHandleFile {
  hf_queue_root : bytes;
  hf_queue_id : option bytes;
  hf_job_id : bytes;
  hf_generation : Z;
  hf_attempt : Z;
  hf_maximum_attempts : Z;
  hf_token : bytes;
  hf_boot_id : bytes;
  hf_expires_boottime_ns : Z;
  hf_expires_wall_ns : Z;
  hf_expected_dev : Z;
  hf_expected_inode : Z;
  hf_exact_source_path : bytes;
  hf_envelope_digest : bytes;
  hf_content_type : bytes;
  hf_payload_length : Z;
  hf_payload_digest : bytes
}.
(** [serde_json] on handle files, and [Path::display]. *)
Class HandleText : Type := {
  handle_to_string : HandleFile -> result bytes IoError;
  handle_from_slice : bytes -> result HandleFile string;
  path_display : bytes -> bytes
}.
Class HandleTextLaws `{HandleText} : Prop := {
  handle_serde_round_trip h : exists b, handle_to_string h = Ok b /\ handle_from_slice b = Ok h;
  path_display_utf8 p : utf8_valid p = true -> path_display p = p
}.

Section Handle.
Context {T : Texts} {HT : HandleText}.

Definition handle_file (canonical_root queue_id : bytes) (lease : LeaseInfo) : HandleFile :=
  mkHandleFile (path_display canonical_root) (Some (hex_encode queue_id)) (hex_encode (li_job_id lease))
    (li_generation lease) (li_attempt lease) (li_maximum_attempts lease) (hex_encode (li_token lease)) (li_boot_id lease)
    (li_expires_boottime_ns lease) (li_expires_wall_ns lease) (li_expected_dev lease) (li_expected_inode lease)
    (li_exact_source_path lease) (hex_encode (li_envelope_digest lease)) (li_content_type lease)
    (li_payload_length lease) (hex_encode (li_payload_digest lease)).
Definition handle_json (queue_root queue_id : bytes) (lease : LeaseInfo) : proc (result bytes IoError) :=
  let% root := ask (Canonicalize queue_root) in
  PRet (let? root := root in handle_to_string (handle_file root queue_id lease)).

Definition invalid_data {A : Type} (message : string) : result A IoError := Err (CustomError KInvalidData message).
(** The part of [load_handle] after the roots were compared. *)
Definition handle_lease (handle : HandleFile) (queue_id : bytes) : result LeaseInfo IoError :=
  let bad message := CustomError KInvalidData message in
  let? job_id := ok_or (hex_decode_16 (hf_job_id handle)) (bad "bad job_id") in
  let? token := ok_or (hex_decode_16 (hf_token handle)) (bad "bad token") in
  let? envelope_digest := ok_or (hex_decode_32 (hf_envelope_digest handle))
    (bad "bad envelope_digest: expected 64 lowercase hex chars") in
  let? payload_digest := ok_or (hex_decode_32 (hf_payload_digest handle))
    (bad "bad payload_digest: expected 64 lowercase hex chars") in
  let? _ :=
    match hf_queue_id handle with
    | Some hqid =>
        match hex_decode_16 hqid with
        | Some handle_qid =>
            if bool_decide (handle_qid = queue_id) then Ok tt
            else invalid_data "handle file queue_id does not match target queue"
        | None => invalid_data "handle file queue_id is not 32 lowercase hex chars"
        end
    | None => invalid_data "handle file missing queue_id binding"
    end in
  Ok (mkLeaseInfo job_id envelope_digest (hf_generation handle) (hf_attempt handle) (hf_maximum_attempts handle) token
        (hf_boot_id handle) (hf_expires_boottime_ns handle) (hf_expires_wall_ns handle) (hf_content_type handle)
        (hf_payload_length handle) payload_digest (hf_expected_dev handle) (hf_expected_inode handle)
        (hf_exact_source_path handle)).
Definition load_handle (path queue_root queue_id : bytes) : proc (result LeaseInfo IoError) :=
  let% data := ask (ReadFile path) in
  match data with
  | Err e => PRet (Err e)
  | Ok data =>
      match handle_from_slice data with
      | Err e => PRet (invalid_data ("invalid handle file: " +:+ e))
      | Ok handle =>
          let root_text := bytes_text (hf_queue_root handle) in
          let% issued_for := ask (Canonicalize (hf_queue_root handle)) in
          match issued_for with
          | Err e => PRet (invalid_data ("handle file queue_root " +:+ root_text +:+ " does not resolve: " +:+ io_text e))
          | Ok issued_for =>
              let% root := ask (Canonicalize queue_root) in
              match root with
              | Err e => PRet (Err e)
              | Ok root =>
                  if negb (bool_decide (issued_for = root))
                  then PRet (invalid_data ("handle file was issued for the queue at " +:+ root_text))
                  else PRet (handle_lease handle queue_id)
              end
          end
      end
  end.
End Handle.

(** ** Records *)

(** The record a file holds; its fields are what the commands print. *)
Inductive RecordError : Type := Unrecognized | RecordCorrupt.
Inductive Described : Type :=
| DescribedJob (header : FixedHeader) (payload_verified : bool)
| DescribedFormat (record : FormatRecord)
| DescribedReceipt (receipt : CompactReceipt)
| DescribedWatermark (record : WatermarkRecord).
Definition describe_record `{Sha256} (data : bytes) (deep : bool) : result Described RecordError :=
  if (length data <? 8)%nat then Err Unrecognized
  else
    let magic := take 8 data in
    let corrupt {A E} (r : result A E) := map_err (fun _ => RecordCorrupt) r in
    if bool_decide (magic = JOB_MAGIC) then
      let? envelope := corrupt (ValidatedEnvelope_from_bytes data deep) in Ok (DescribedJob (ve_header envelope) deep)
    else if bool_decide (magic = FORMAT_MAGIC) then
      let? f := corrupt (FormatRecord_decode data) in Ok (DescribedFormat f)
    else if bool_decide (magic = RECEIPT_MAGIC) then
      let? r := corrupt (CompactReceipt_decode data) in Ok (DescribedReceipt r)
    else if bool_decide (magic = WATERMARK_MAGIC) then
      let? w := corrupt (WatermarkRecord_decode data) in Ok (DescribedWatermark w)
    else Err Unrecognized.

Section Commands.
Context `{Sha256} {T : Texts} {HT : HandleText} {SJ : SerdeJson} {J : CursorJson} {F : StdFs}.

Definition command : Type := proc (option Z).
Definition exit (code : Z) : command := PRet (Some code).

Definition cmd_verify (file : bytes) (deep : bool) : command :=
  let% data := ask (ReadFile file) in
  match data with
  | Err e => exit (exit_io e)
  | Ok data =>
      match describe_record data deep with
      | Ok _ => exit EXIT_SUCCESS
      | Err RecordCorrupt => exit EXIT_CORRUPTION
      | Err Unrecognized => exit EXIT_ORDINARY
      end
  end.
Definition cmd_format_dump (file : bytes) : command :=
  let% data := ask (ReadFile file) in
  match data with
  | Err e => exit (exit_io e)
  | Ok data => match describe_record data false with Ok _ => exit EXIT_SUCCESS | Err _ => exit EXIT_ORDINARY end
  end.

(** ** Creating and filling a queue *)

Definition cmd_init (path : bytes) (shards terminal_bucket_width_ns : Z) : command :=
  let opts := CreateOptions_default in
  let opts := mkCreateOptions shards (co_lease_bucket_width_ns opts) (co_delayed_bucket_width_ns opts)
    terminal_bucket_width_ns (co_max_payload_length opts) in
  let% r := kernel (Queue_init path opts) in
  match r with Ok _ => exit EXIT_SUCCESS | Err e => exit (exit_io e) end.

Definition open_or_exit (fuel : nat) (path : bytes) (k : Queue -> command) : command :=
  let% opened := kernel (Queue_open fuel path OpenOptions_default) in
  match opened with
  | None => PRet None
  | Some (Err e) => exit (core_exit_code e)
  | Some (Ok q) => k q
  end.

Definition cmd_put (fuel : nat) (path : bytes) (file : option bytes) (content_type : bytes) (max_attempts : Z)
    (not_before : option Z) (producer_id : option bytes) : command :=
  let% payload :=
    (match file with
     | None => ask ReadStdin
     | Some f => if bool_decide (f = lit "-") then ask ReadStdin else ask (ReadFile f)
     end) in
  match payload with
  | Err e => exit (exit_io e)
  | Ok payload =>
      open_or_exit fuel path (fun q =>
        let input := mkEnqueueInput max_attempts content_type [] producer_id None not_before payload in
        let% (outcome, _) := kernel (enqueue input q) in
        match outcome with
        | EnqueueCommitted _ => exit EXIT_SUCCESS
        | EnqueueDeferred _ => exit EXIT_INDETERMINATE
        | EnqueueNotCommitted _ e => exit (core_exit_code e)
        | EnqueueOutcomeUnknown _ _ => exit EXIT_INDETERMINATE
        end)
  end.

(** ** Leases *)

Definition write_ticket_file (path : bytes) (ticket : TransitionTicket) : proc (result unit IoError) :=
  match to_json ticket with
  | Err error => PRet (Err (CustomError KInvalidData (Error_fmt error)))
  | Ok json => atomic_write_private path json
  end.
Definition exit_unknown (ticket : TransitionTicket) (ticket_out : option bytes) : command :=
  let% _ := (match ticket_out with
             | Some path => write_ticket_file path ticket
             | None => PRet (Ok tt)
             end) in
  exit EXIT_INDETERMINATE.

Definition cmd_lease (fuel : nat) (path : bytes) (duration_seconds : Z) (handle_path ticket_out : option bytes) : command :=
  open_or_exit fuel path (fun q =>
    match parse_duration_seconds duration_seconds with
    | None => exit EXIT_ORDINARY
    | Some duration_ns =>
        let% (outcome, q) := kernel (lease fuel 0 duration_ns q) in
        match outcome with
        | None => PRet None
        | Some (LeaseLeased l) =>
            let% handle := handle_json path (queue_id q) l in
            match handle, handle_path with
            | Ok handle, Some hf =>
                let% w := atomic_write_private hf handle in
                match w with Err e => exit (exit_io e) | Ok _ => exit EXIT_SUCCESS end
            | Ok _, None => exit EXIT_SUCCESS
            | Err e, _ => exit (exit_io e)
            end
        | Some LeaseEmpty => exit EXIT_ORDINARY
        | Some (LeaseNotCommitted e) => exit (core_exit_code e)
        | Some (LeaseOutcomeUnknown ticket) => exit_unknown ticket ticket_out
        end
    end).

Definition open_with_handle (fuel : nat) (path handle_path : bytes) (k : Queue -> LeaseInfo -> command) : command :=
  open_or_exit fuel path (fun q =>
    let% l := load_handle handle_path path (queue_id q) in
    match l with Ok l => k q l | Err e => exit (exit_io e) end).

Definition exit_transition (outcome : TransitionOutcome) (ticket_out : option bytes) : command :=
  match outcome with
  | TransitionCommitted => exit EXIT_SUCCESS
  | TransitionLeaseLost => exit EXIT_ORDINARY
  | TransitionNotCommitted e => exit (core_exit_code e)
  | TransitionOutcomeUnknown ticket => exit_unknown ticket ticket_out
  end.
Definition cmd_bury (fuel : nat) (path handle_path reason : bytes) (ticket_out : option bytes) : command :=
  match parse_dead_reason reason with
  | None => exit EXIT_ORDINARY
  | Some reason =>
      open_with_handle fuel path handle_path (fun q l =>
        let% (outcome, _) := kernel (bury l reason q) in exit_transition outcome ticket_out)
  end.
Definition cmd_retry (fuel : nat) (path handle_path : bytes) (after_seconds : option Z) (ticket_out : option bytes) : command :=
  open_with_handle fuel path handle_path (fun q l =>
    let% (outcome, _) :=
      kernel (match after_seconds with
              | Some s => retry_after l (Z.min (s * 1000000000) u64_max) q
              | None => retry_now l q
              end) in
    exit_transition outcome ticket_out).
Definition cmd_ack (fuel : nat) (path handle_path : bytes) (ticket_out : option bytes) : command :=
  open_with_handle fuel path handle_path (fun q l =>
    let% (outcome, _) := kernel (ack l q) in
    match outcome with
    | Acked | AlreadyAcked => exit EXIT_SUCCESS
    | AckLeaseLost => exit EXIT_ORDINARY
    | AckNotCommitted e => exit (core_exit_code e)
    | AckOutcomeUnknown ticket => exit_unknown ticket ticket_out
    end).

Definition cmd_resolve (fuel : nat) (path result_file : bytes) (stabilize : bool) : command :=
  let% data := ask (ReadFile result_file) in
  match data with
  | Err e => exit (exit_io e)
  | Ok data =>
      match from_json data with
      | Err _ => exit EXIT_ORDINARY
      | Ok ticket =>
          open_or_exit fuel path (fun q =>
            match transition_ticket_paths q ticket with
            | Err _ => exit EXIT_ORDINARY
            | Ok _ =>
                let% outcome := kernel (resolve q ticket stabilize) in
                match outcome with
                | DestinationObserved | DestinationStabilized | SourceObserved | SourceStabilized => exit EXIT_SUCCESS
                | BothObserved | ConflictingObject => exit EXIT_CORRUPTION
                | NeitherObserved => exit EXIT_ORDINARY
                | ResolutionFailed e => exit (core_exit_code e)
                end
            end)
      end
  end.

(** ** Maintenance *)

(** One turn of [recover --watch] for each unit of fuel. *)
Fixpoint recover_loop (fuel : nat) (watch : bool) (budget : WorkBudget) (q : Queue) : command :=
  match fuel with
  | O => PRet None
  | S fuel' =>
      let% (stats, q) := kernel (recover fuel budget q) in
      match stats with
      | None => PRet None
      | Some stats =>
          if negb watch then
            match rerrors stats with [] => exit EXIT_SUCCESS | _ => exit EXIT_IO_FAILURE end
          else let% _ := ask (Sleep 5000000000) in recover_loop fuel' watch budget q
      end
  end.
Definition cmd_recover (fuel : nat) (path : bytes) (watch : bool) (budget_ops budget_ms : Z) : command :=
  open_or_exit fuel path (recover_loop fuel watch (mkWorkBudget budget_ops budget_ms)).

Definition COMPACT_MAX_PASSES : nat := Z.to_nat 1000.
Fixpoint compact_passes (passes fuel : nat) (errors : nat) (q : Queue) : command :=
  match passes with
  | O => exit EXIT_IO_FAILURE
  | S passes' =>
      let% (stats, q) := kernel (recover fuel WorkBudget_default q) in
      match stats with
      | None => PRet None
      | Some stats =>
          let errors := (errors + length (rerrors stats))%nat in
          if negb (budget_exhausted stats) then exit (if (0 <? errors)%nat then EXIT_IO_FAILURE else EXIT_SUCCESS)
          else compact_passes passes' fuel errors q
      end
  end.
Definition cmd_compact_receipts (fuel : nat) (path : bytes) : command :=
  open_or_exit fuel path (compact_passes COMPACT_MAX_PASSES fuel 0).

Definition cmd_fsck (fuel : nat) (path : bytes) (deep repair : bool) : command :=
  open_or_exit fuel path (fun q =>
    let opts := mkFsckOptions (if repair then FsckRepair else FsckCheck) (if deep then Deep else Structural) in
    let% (report, _) := kernel (fsck fuel opts q) in
    match report with
    | None => PRet None
    | Some report =>
        if existsb (fun f => match fi_severity f with SevError => true | _ => false end) (findings report)
        then exit EXIT_CORRUPTION else exit EXIT_SUCCESS
    end).

(** ** Inspection and administration *)

Definition exit_found {A : Type} (found : A -> bool) (code : Error -> Z) (r : option (result A Error)) : command :=
  match r with
  | None => PRet None
  | Some (Ok a) => exit (if found a then EXIT_SUCCESS else EXIT_ORDINARY)
  | Some (Err e) => exit (code e)
  end.
Definition exit_found_io {A : Type} (found : A -> bool) (r : option (result A IoError)) : command :=
  match r with
  | None => PRet None
  | Some (Ok a) => exit (if found a then EXIT_SUCCESS else EXIT_ORDINARY)
  | Some (Err e) => exit (exit_io e)
  end.
Definition with_id (value : bytes) (k : bytes -> command) : command :=
  match parse_hex_id value with Ok id => k id | Err code => exit code end.

Definition cmd_inspect (fuel : nat) (path job_id : bytes) : command :=
  with_id job_id (fun id => open_or_exit fuel path (fun q =>
    let% r := kernel (inspect fuel q id) in exit_found (fun s => negb (bool_decide (length s = 0%nat))) core_exit_code r)).
Definition cmd_dead_inspect (fuel : nat) (path job_id : bytes) : command :=
  with_id job_id (fun id => open_or_exit fuel path (fun q =>
    let% r := kernel (inspect fuel q id) in exit_found (fun _ => true) core_exit_code r)).
Definition cmd_dead_list (fuel : nat) (path : bytes) : command :=
  open_or_exit fuel path (fun q => let% r := kernel (list_dead fuel q) in exit_found (fun _ => true) core_exit_code r).
Definition cmd_dead_remove (fuel : nat) (path job_id : bytes) : command :=
  with_id job_id (fun id => open_or_exit fuel path (fun q =>
    let% r := kernel (remove_dead fuel q id) in exit_found (fun removed => removed) core_exit_code r)).
Definition cmd_quarantine_list (fuel : nat) (path : bytes) : command :=
  open_or_exit fuel path (fun q => let% r := kernel (list_quarantine fuel q) in exit_found_io (fun _ => true) r).
Definition cmd_quarantine_inspect (fuel : nat) (path quarantine_id : bytes) : command :=
  with_id quarantine_id (fun id => open_or_exit fuel path (fun q =>
    let% r := kernel (find_quarantine fuel q id) in exit_found_io (fun e => bool_decide (is_Some e)) r)).
Definition cmd_quarantine_remove (fuel : nat) (path quarantine_id : bytes) : command :=
  with_id quarantine_id (fun id => open_or_exit fuel path (fun q =>
    let% r := kernel (remove_quarantine fuel q id) in exit_found_io (fun removed => removed) r)).

Definition cmd_work (concurrency : nat) (lease_seconds : Z) (program : bytes) : command :=
  match parse_duration_seconds lease_seconds with
  | None => exit EXIT_ORDINARY
  | Some _ => let% code := run_workers concurrency program in exit code
  end.
End Commands.

(** ** Exit codes tell what happened *)

(** Programs that place no object. *)
Definition unplacing {A : Type} (m : proc A) : Prop :=
  forall tr x, pexec m tr x -> tally places (kernel_events tr) = 0%nat.
Lemma unplacing_ret {A} (a : A) : unplacing (PRet a).
Proof. by intros tr x [-> _]. Qed.
Lemma unplacing_ask {B} (c : PCall B) : unplacing (ask c).
Proof. intros tr x (b & t & -> & -> & _). done. Qed.
Lemma unplacing_kernel {B} (p : io B) : silent places p -> unplacing (kernel p).
Proof. intros Hp tr x (t1 & t2 & b & -> & Hx & -> & _). rewrite app_nil_r, kernel_map. by apply Hp in Hx. Qed.
Lemma unplacing_bind {A B} (m : proc A) (f : A -> proc B) :
  unplacing m -> (forall a, unplacing (f a)) -> unplacing (proc_bind m f).
Proof.
  intros Hm Hf tr x (t1 & t2 & a & -> & H1 & H2)%pexec_bind. by rewrite kernel_app, tally_app, (Hm _ _ H1), (Hf _ _ _ H2).
Qed.
Ltac unplaced :=
  repeat first [apply unplacing_ret | apply unplacing_ask | apply unplacing_bind; [|intros ?]
    | apply unplacing_kernel; solve [silence] | case_match].

Section Truthful.
Context `{Sha256} {T : Texts} {HT : HandleText} {SJ : SerdeJson} {J : CursorJson} {F : StdFs}.

Lemma core_exit_code_definite e : core_exit_code e <> EXIT_SUCCESS /\ core_exit_code e <> EXIT_INDETERMINATE.
Proof. by destruct e. Qed.
Lemma exit_io_definite e : exit_io e <> EXIT_SUCCESS /\ exit_io e <> EXIT_INDETERMINATE.
Proof. unfold exit_io. by destruct (kind e). Qed.

Lemma unplacing_write path data : unplacing (atomic_write_private path data).
Proof. unfold atomic_write_private. unplaced. Qed.
Lemma unplacing_load path root qid : unplacing (load_handle path root qid).
Proof. unfold load_handle. unplaced. Qed.
Lemma unplacing_ticket path ticket : unplacing (write_ticket_file path ticket).
Proof. unfold write_ticket_file. case_match; [apply unplacing_write|apply unplacing_ret]. Qed.

(** The commands that change the state of a job. *)
Inductive JobCommand : Type :=
| JobPut (file : option bytes) (content_type : bytes) (max_attempts : Z) (not_before : option Z) (producer_id : option bytes)
| JobAck (handle_path : bytes) (ticket_out : option bytes)
| JobRetry (handle_path : bytes) (after_seconds : option Z) (ticket_out : option bytes)
| JobBury (handle_path reason : bytes) (ticket_out : option bytes).
Definition job_command (fuel : nat) (path : bytes) (c : JobCommand) : command :=
  match c with
  | JobPut file content_type max_attempts not_before producer_id =>
      cmd_put fuel path file content_type max_attempts not_before producer_id
  | JobAck handle_path ticket_out => cmd_ack fuel path handle_path ticket_out
  | JobRetry handle_path after_seconds ticket_out => cmd_retry fuel path handle_path after_seconds ticket_out
  | JobBury handle_path reason ticket_out => cmd_bury fuel path handle_path reason ticket_out
  end.

(** What a number of placed objects and an exit code tell together; [again]
    when the work may have been done before. *)
Definition tells_truth (again : bool) (n : nat) (code : Z) : Prop :=
  (n <= 1)%nat /\ (n = 1%nat -> code = EXIT_SUCCESS \/ code = EXIT_INDETERMINATE) /\
  (code = EXIT_INDETERMINATE -> n = 1%nat) /\ (code = EXIT_SUCCESS -> n = 1%nat \/ again = true).
Definition truthful (again : bool) (m : command) : Prop :=
  forall tr code, pexec m tr (Some code) -> tells_truth again (tally places (kernel_events tr)) code.

Lemma refused_truthful again code :
  code <> EXIT_SUCCESS /\ code <> EXIT_INDETERMINATE -> truthful again (exit code).
Proof. intros [? ?] tr c [-> [= ->]]. by split_and!; try (cbn; lia). Qed.
Lemma then_truthful {A} again (m : proc A) (k : A -> command) :
  unplacing m -> (forall a, truthful again (k a)) -> truthful again (proc_bind m k).
Proof.
  intros Hm Hk tr c (t1 & t2 & a & -> & H1 & H2)%pexec_bind. rewrite kernel_app, tally_app, (Hm _ _ H1). by eapply Hk.
Qed.
Lemma open_truthful again fuel path k : (forall q, truthful again (k q)) -> truthful again (open_or_exit fuel path k).
Proof.
  intros Hk. apply then_truthful; [apply unplacing_kernel; apply silent_open|]. intros [[q|e]|].
  - apply Hk.
  - apply refused_truthful, core_exit_code_definite.
  - by intros tr c [_ ?].
Qed.
Lemma handle_truthful again fuel path handle k :
  (forall q l, truthful again (k q l)) -> truthful again (open_with_handle fuel path handle k).
Proof.
  intros Hk. apply open_truthful. intros q. apply then_truthful; [apply unplacing_load|].
  intros [l|e]; [apply Hk|apply refused_truthful, exit_io_definite].
Qed.

(** An operation of the queue whose outcome the exit code reports. *)
Lemma operation_truthful {O} again (p : io (O * Queue)) (count : O -> nat) (k : O -> command) :
  (forall tr o q', exec p tr (o, q') -> tally places tr = count o) ->
  (forall o tr code, pexec (k o) tr (Some code) ->
     tally places (kernel_events tr) = 0%nat /\ tells_truth again (count o) code) ->
  truthful again (let% (o, _) := kernel p in k o).
Proof.
  intros Hp Hk tr code (t1 & t2 & [o q'] & -> & Hx & Hy)%pexec_kernel. rewrite kernel_app, kernel_map, tally_app.
  destruct (Hk _ _ _ Hy) as [-> Ht]. by rewrite Nat.add_0_r, (Hp _ _ _ Hx).
Qed.
Lemma unknown_truthful again ticket out tr code :
  pexec (exit_unknown ticket out) tr (Some code) -> tally places (kernel_events tr) = 0%nat /\ tells_truth again 1 code.
Proof.
  intros (t1 & t2 & a & -> & H1 & [-> [= ->]])%pexec_bind. rewrite app_nil_r. split; [|by split_and!; auto].
  destruct out as [path|]; [by apply unplacing_ticket in H1|by destruct H1 as [-> _]].
Qed.
Lemma plain_truthful again n c tr code :
  tells_truth again n c -> pexec (exit c) tr (Some code) -> tally places (kernel_events tr) = 0%nat /\ tells_truth again n code.
Proof. by intros Ht [-> [= ->]]. Qed.
Lemma done_truth again : tells_truth again 1 EXIT_SUCCESS.
Proof. split_and!; auto. Qed.
Lemma nothing_truth again c : c <> EXIT_SUCCESS /\ c <> EXIT_INDETERMINATE -> tells_truth again 0 c.
Proof. intros [? ?]. by split_and!; try lia. Qed.

Lemma transition_truthful out (p : io (TransitionOutcome * Queue)) :
  (forall tr o q', exec p tr (o, q') -> tally places tr = transition_places o) ->
  truthful false (let% (o, _) := kernel p in exit_transition o out).
Proof.
  intros Hp. apply (operation_truthful _ _ transition_places); [done|]. intros [| |e|ticket] tr code.
  - apply plain_truthful, done_truth.
  - by apply plain_truthful, nothing_truth.
  - apply plain_truthful, nothing_truth, core_exit_code_definite.
  - apply unknown_truthful.
Qed.

End Truthful.

(** ** A handle file brings back its lease *)

Section HandleFiles.
Context {T : Texts} {HT : HandleText}.

Definition lease_typed (l : LeaseInfo) : Prop :=
  length (li_job_id l) = 16%nat /\ length (li_token l) = 16%nat /\ length (li_envelope_digest l) = 32%nat /\
  length (li_payload_digest l) = 32%nat.
(** The handle is the one of this lease and queue, whatever root it names. *)
Definition handle_of (handle : HandleFile) (queue_id : bytes) (l : LeaseInfo) : Prop :=
  handle = mkHandleFile (hf_queue_root handle) (Some (hex_encode queue_id)) (hex_encode (li_job_id l))
    (li_generation l) (li_attempt l) (li_maximum_attempts l) (hex_encode (li_token l)) (li_boot_id l)
    (li_expires_boottime_ns l) (li_expires_wall_ns l) (li_expected_dev l) (li_expected_inode l)
    (li_exact_source_path l) (hex_encode (li_envelope_digest l)) (li_content_type l)
    (li_payload_length l) (hex_encode (li_payload_digest l)).
Lemma hex_back n bs : length bs = n -> hex_decode_array n (hex_encode bs) = Some bs.
Proof. intros Hn. by apply hex_decode_array_Some. Qed.
Lemma handle_lease_iff handle qid l :
  handle_lease handle qid = Ok l <-> length qid = 16%nat /\ lease_typed l /\ handle_of handle qid l.
Proof.
  unfold handle_lease, hex_decode_16, hex_decode_32. split.
  - destruct (hex_decode_array 16 (hf_job_id handle)) as [j|] eqn:Ej; cbn [ok_or rbind]; [|done].
    destruct (hex_decode_array 16 (hf_token handle)) as [tok|] eqn:Et; cbn [ok_or rbind]; [|done].
    destruct (hex_decode_array 32 (hf_envelope_digest handle)) as [e|] eqn:Ee; cbn [ok_or rbind]; [|done].
    destruct (hex_decode_array 32 (hf_payload_digest handle)) as [p|] eqn:Ep; cbn [ok_or rbind]; [|done].
    destruct (hf_queue_id handle) as [hq|] eqn:Eq; [|done].
    destruct (hex_decode_array 16 hq) as [q|] eqn:Eh; [|done]. case_bool_decide as Eqq; [|done]. subst q.
    apply hex_decode_array_Some in Ej as [Hj ?], Et as [Ht ?], Ee as [He ?], Ep as [Hp ?], Eh as [-> ?].
    cbn [rbind]. intros [= <-]. split; [done|]. split; [done|]. unfold handle_of. destruct handle. cbn in *. congruence.
  - intros (Hq & (Hj & Ht & He & Hp) & Hh). unfold handle_of in Hh. rewrite Hh. clear Hh.
    cbn [hf_job_id hf_token hf_envelope_digest hf_payload_digest hf_queue_id hf_generation hf_attempt hf_maximum_attempts
      hf_boot_id hf_expires_boottime_ns hf_expires_wall_ns hf_content_type hf_payload_length hf_expected_dev
      hf_expected_inode hf_exact_source_path].
    rewrite (hex_back _ _ Hj). cbn [ok_or rbind].
    rewrite (hex_back _ _ Ht). cbn [ok_or rbind].
    rewrite (hex_back _ _ He). cbn [ok_or rbind]. rewrite (hex_back _ _ Hp). cbn [ok_or rbind].
    rewrite (hex_back _ _ Hq). rewrite bool_decide_true by done. by destruct l.
Qed.

(** A handle is accepted only for the queue it was issued for: the root it
    names resolves to the same path as the root of the command, and it carries
    the id of the queue. *)
Theorem handle_bound path root qid tr l :
  pexec (load_handle path root qid) tr (Ok l) ->
  exists data handle c, Request (ReadFile path) (Ok data) ∈ tr /\ handle_from_slice data = Ok handle /\
    Request (Canonicalize (hf_queue_root handle)) (Ok c) ∈ tr /\ Request (Canonicalize root) (Ok c) ∈ tr /\
    handle_of handle qid l.
Proof.
  unfold load_handle. intros Hx. pstep Hx. destruct b as [data|e]; [|by pstep Hx].
  destruct (handle_from_slice data) as [handle|e] eqn:Eh; [|by pstep Hx]. pstep Hx. destruct b as [c|e]; [|by pstep Hx].
  pstep Hx. destruct b as [c'|e]; [|by pstep Hx]. case_bool_decide as Ec; cbn [negb] in Hx; [subst c'|by pstep Hx]. pstep Hx.
  symmetry in Hx. apply handle_lease_iff in Hx as (_ & _ & Hh). exists data, handle, c.
  split; [by left|]. split; [done|]. split; [by right; left|]. split; [by right; right; left|done].
Qed.

(** What the host answers: the handle file holds [text], and the two roots
    resolve to [canonical]. *)
Definition host_answers (path text root canonical : bytes) (ev : pevent) : Prop :=
  match ev with
  | KernelEvent _ => True
  | Request c answer =>
      match c in PCall B return B -> Prop with
      | ReadFile p => fun r => p = path -> r = Ok text
      | Canonicalize p => fun r => p = root \/ p = canonical -> r = Ok canonical
      | _ => fun _ => True
      end answer
  end.

(** C25: A lease survives its handle file.  What [lease] writes for a lease, the
    settling commands read back as exactly that lease, when the file is read
    unchanged and both roots resolve to the same path, in UTF-8. *)
Theorem handle_round_trip `{!HandleTextLaws} path root root' canonical qid l t1 text t2 r :
  lease_typed l -> length qid = 16%nat -> utf8_valid canonical = true ->
  pexec (handle_json root qid l) t1 (Ok text) -> Forall (host_answers path text root canonical) t1 ->
  pexec (load_handle path root' qid) t2 r -> Forall (host_answers path text root' canonical) t2 ->
  r = Ok l.
Proof.
  intros Hl Hq Hu Hw H1 Hx H2. unfold handle_json in Hw. pstep Hw. pstep Hw. symmetry in Hw.
  apply Forall_cons in H1 as [Hc _]. cbn in Hc. rewrite (Hc (or_introl eq_refl)) in Hw.
  change (handle_to_string (handle_file canonical qid l) = Ok text) in Hw.
  destruct (handle_serde_round_trip (handle_file canonical qid l)) as (b0 & Eb & Ef). rewrite Eb in Hw. injection Hw as ->.
  unfold load_handle in Hx. pstep Hx. apply Forall_cons in H2 as [Hr H2]. cbn in Hr. rewrite (Hr eq_refl), Ef in Hx.
  cbv zeta in Hx. pstep Hx. apply Forall_cons in H2 as [Hc1 H2]. cbn in Hc1. rewrite (path_display_utf8 _ Hu) in Hc1.
  rewrite (Hc1 (or_intror eq_refl)) in Hx. pstep Hx. apply Forall_cons in H2 as [Hc2 _]. cbn in Hc2.
  rewrite (Hc2 (or_introl eq_refl)), bool_decide_true in Hx by done. cbn [negb] in Hx. pstep Hx. rewrite Hx.
  by apply handle_lease_iff.
Qed.
End HandleFiles.

(** ** Samples *)

(** Handle files written as numbers. *)
Definition handle_fields (h : HandleFile) :=
  (hf_queue_root h, hf_queue_id h, hf_job_id h, hf_generation h, hf_attempt h, hf_maximum_attempts h, hf_token h, hf_boot_id h,
   (hf_expires_boottime_ns h, hf_expires_wall_ns h, hf_expected_dev h, hf_expected_inode h, hf_exact_source_path h,
    hf_envelope_digest h, hf_content_type h, hf_payload_length h, hf_payload_digest h)).
#[global] Instance HandleFile_eq_dec : EqDecision HandleFile.
Proof. solve_decision. Defined.
#[global] Instance HandleFile_countable : Countable HandleFile.
Proof.
  refine (inj_countable' handle_fields (fun x =>
    let '(root, qid, job, g, a, m, tok, boot, (eb, ew, dev, ino, path, env, ct, len, dig)) := x in
    mkHandleFile root qid job g a m tok boot eb ew dev ino path env ct len dig) _).
  by intros [].
Defined.
Definition sample_handles : HandleText :=
  {| handle_to_string := fun h => Ok (bits_of (encode h)); handle_from_slice := fun b => ok_or (decode (of_bits b)) "not a handle";
     path_display := fun p => p |}.
Lemma sample_handles_laws : @HandleTextLaws sample_handles.
Proof.
  split; [|done]. intros h. exists (bits_of (encode h)). split; [done|]. cbn. by rewrite of_bits_of, decode_encode.
Qed.

(** A kernel that opens a queue and publishes into it. *)
Definition command_kernel (s : bytes * bytes) (c : Syscall) : Answer * (bytes * bytes) :=
  let files := mkSampleFile (lit "control/maintenance.lock") 30 1 [] :: mkSampleFile (lit ".") 6 0 [] :: sample_control in
  let disk := ((sample_disk files tt c).1, s) in
  match c with
  | SysRead _ _ | SysStatfs _ => stream_kernel s c
  | SysOpenat _ name _ _ =>
      if bool_decide (name ∈ [FORMAT_NAME; BOOT_ID_PATH; RECOVERY_CURSOR_FILE]) then stream_kernel s c else disk
  | SysFstat fd => if (fd =? 20)%Z then stream_kernel s c else disk
  | SysFstatat _ name _ => if bool_decide (name ∈ STATE_DIRECTORIES) then stream_kernel s c else disk
  | _ => disk
  end.
Definition command_files : bytes * bytes :=
  (@FormatRecord_encode checksum256 (sample_record_of sample_init.1.2), lit "00112233-4455-6677-8899-aabbccddeeff" ++ [x0a]).
Definition sample_put_command : JobCommand := JobPut None (lit "text/plain") 3 None None.
Definition sample_put :=
  prun command_kernel sample_world command_files tt
    (@job_command checksum256 sample_texts sample_handles code_serde sample_cursor_json sample_std 9 (lit "/var/q") sample_put_command).

(** A host that holds one handle file and resolves every root to [/q]. *)
Definition handle_world (text : bytes) : forall B, unit -> PCall B -> B * unit := fun B w c =>
  match c in PCall B return B * unit with
  | ReadFile _ => (Ok text, w)
  | Canonicalize _ => (Ok (lit "/q"), w)
  | c => sample_world _ w c
  end.
Definition sample_handle_text : bytes := bits_of (encode (@handle_file sample_handles (lit "/q") (zeros 16) sample_lease)).
Lemma handle_world_answers root ev : (exists e, ev = KernelEvent e) \/
  (exists B (c : PCall B), ev = Request c (handle_world sample_handle_text B tt c).1) ->
  host_answers (lit "h") sample_handle_text root (lit "/q") ev.
Proof. intros [[e ->]|(B & c & ->)]; [done|]. by destruct c. Qed.
Definition sample_load :=
  prun (sample_disk []) (handle_world sample_handle_text) tt tt (@load_handle sample_texts sample_handles (lit "h") (lit "/q") (zeros 16)).
Lemma handle_round_trip_witness : sample_load.1.2 = Ok sample_lease.
Proof.
  assert (Ht : lease_typed sample_lease) by (vm_compute; repeat split).
  assert (Hu : utf8_valid (lit "/q") = true) by (vm_compute; reflexivity).
  assert (Hw : pexec (@handle_json sample_handles (lit "/q") (zeros 16) sample_lease) [Request (Canonicalize (lit "/q")) (Ok (lit "/q"))]
    (Ok sample_handle_text)) by (exists (Ok (lit "/q")), []; split; [reflexivity|]; split; reflexivity).
  assert (Hx : pexec (@load_handle sample_texts sample_handles (lit "h") (lit "/q") (zeros 16)) sample_load.1.1 sample_load.1.2)
    by (unfold sample_load; apply prun_exec).
  assert (Ha : Forall (host_answers (lit "h") sample_handle_text (lit "/q") (lit "/q")) sample_load.1.1).
  { apply prun_answers; intros; apply handle_world_answers; [left; by eexists|right]. destruct w. by eexists _, _. }
  refine (@handle_round_trip sample_texts sample_handles sample_handles_laws (lit "h") (lit "/q") (lit "/q") (lit "/q") (zeros 16)
    sample_lease _ sample_handle_text _ _ Ht (length_replicate 16 x00) Hu Hw _ Hx Ha).
  apply Forall_singleton. by intros _.
Defined.
