(* ===== verification/Divergences.v ===== *)
(** * Where the documents and the code differ

    Executions that show behaviour a comment or the contract describes
    differently.  Each is one run of a modelled operation over a small kernel. *)
From stdpp Require Import base numbers list option strings gmap.
From Stdlib Require Import Strings.Byte ZArith.
From S2P Require Import Prelude Math Names Format Cbor FsLinux FsRead FsDir StateMachine Ticket Layout Engine Logic Verified Queue Watermark Publish Resolve Consumer Quarantine Lease Inspect Recovery Phases Cursor Maintenance Pass Fsck Setup Lifecycle Stream.
Open Scope string_scope.
Open Scope list_scope.

(** A disk that is full once an object was placed: later syncs fail. *)
Definition full_after_placing (files : list SampleFile) (s : list (list bytes) * list bytes * bool) (c : Syscall)
  : Answer * (list (list bytes) * list bytes * bool) :=
  let '(script, placed) := s in
  match c with
  | SysFsync _ => (if placed : bool then Fails ENOSPC else Returns 0, s)
  | _ => let '(a, script) := scripted_disk files script c in (a, (script, placed || places c))
  end.

(** An enqueue whose directory sync fails with [ENOSPC] after the link poisons
    the handle; the contract says storage exhaustion never does. *)
Definition full_enqueue :=
  run (full_after_placing (mkSampleFile (lit ".") 6 0 [] :: sample_control)) ([], [], false)
    (@enqueue checksum256 sample_texts sample_job sample_queue).
Example storage_exhaustion_poisons :
  (exists t, full_enqueue.1.2.1 = EnqueueOutcomeUnknown t ResourceExhausted) /\
  poisoned full_enqueue.1.2.2 = Some PostLinearizationStateUnknown.
Proof. split; [eexists|]; vm_compute; reflexivity. Qed.

(** A lease that dead-letters a spent job and cannot sync the destination
    poisons the handle and hands out no ticket, though the reason it poisons
    with says the operation returned one. *)
Definition spent_job : Target := @Layout_ready checksum256 (layout sample_queue) (mkCommon (replicate 16 x2a) 7 5 5).
Definition full_dead_letter :=
  run (full_after_placing (mkSampleFile (filename spent_job) 10 1 sample_job_file :: sample_control))
    ([[filename spent_job]], [], false)
    (@lease checksum256 sample_texts 3 0 10000000000 (set_ready_shard_hint (Some sample_ready_shard) sample_queue)).
Example poisoned_without_ticket :
  (exists e, full_dead_letter.1.2.1 = Some (LeaseNotCommitted e)) /\
  poisoned full_dead_letter.1.2.2 = Some PostLinearizationStateUnknown /\
  tally places full_dead_letter.1.1 = 1%nat.
Proof. split; [eexists|split]; vm_compute; reflexivity. Qed.

(** A delayed retry on a poisoned handle is refused only after the shared
    watermark was advanced. *)
Definition stale_control : list SampleFile :=
  [mkSampleFile WATERMARK_NAME 8 1 (@WatermarkRecord_encode checksum256 (mkWatermarkRecord 1 4));
   mkSampleFile (lit "wall-watermark.lock") 9 1 []].
Definition poisoned_retry :=
  run (sample_disk stale_control) tt
    (@retry_at checksum256 sample_texts sample_lease 5 (set_poisoned (Some PostLinearizationStateUnknown) sample_queue)).
Definition replaces_watermark (c : Syscall) : bool :=
  match c with SysRenameat _ _ _ name => bool_decide (name = WATERMARK_NAME) | _ => false end.
Example poisoned_retry_advances_watermark :
  (exists text, poisoned_retry.1.2.1 = TransitionNotCommitted (QueuePoisoned text)) /\
  tally replaces_watermark poisoned_retry.1.1 = 1%nat.
Proof. split; [eexists|]; vm_compute; reflexivity. Qed.

(** A streamed directory checks the byte budget before a name is read: with
    three bytes allowed, a name of five is read and charged. *)
Example streamed_name_overshoots :
  rs_name_bytes_read (rx_scan
    (run (scripted_disk []) ([[lit "abcde"]], [])
       (stream_recovery_directory 5 7 0 (2 ^ 62) (mkRecoveryScanBudget 1 2 3) (fun _ => rret FlowContinue)
          (mkRCtx (mkCtx sample_queue None) RecoveryStats_default RecoveryScanStats_default))).1.2.2) = 5%Z.
Proof. vm_compute. reflexivity. Qed.

(** The duplicate-acknowledgement probe opens the receipt and reads it. *)
Definition probed_receipt :=
  run (sample_disk [mkSampleFile (filename sample_ack_target) 10 1 sample_job_file]) tt
    (@receipt_is_authentic checksum256 sample_texts sample_queue sample_lease (directory sample_ack_target)
       (filename sample_ack_target)).
Definition reads_file (c : Syscall) : bool := match c with SysPread _ _ _ => true | _ => false end.
Example probe_reads_receipt : probed_receipt.1.2 = true /\ tally reads_file probed_receipt.1.1 = 4%nat.
Proof. split; vm_compute; reflexivity. Qed.

(** A creation whose directory sync fails after FORMAT was renamed has an
    unknown outcome; the comment says that the marker stays, but the guard
    removes it. *)
Definition init_then_full (placed : bool) (c : Syscall) : Answer * bool :=
  match c with
  | SysFsync _ => (if placed then Fails ENOSPC else Returns 0, placed)
  | _ => ((init_kernel tt c).1, placed || places c)
  end.
Definition indeterminate_init :=
  run init_then_full false (@Queue_init checksum256 sample_texts sample_std (lit "/var/q") sample_options).
Definition removes_marker (c : Syscall) : bool :=
  match c with SysUnlinkat _ name _ => bool_decide (name = INIT_MARKER) | _ => false end.
Example indeterminate_init_removes_marker :
  (exists text, indeterminate_init.1.2 = Err (CustomError KOther ("FORMAT publication indeterminate at " +:+ text))) /\
  tally places indeterminate_init.1.1 = 1%nat /\ tally removes_marker indeterminate_init.1.1 = 1%nat.
Proof. split; [eexists|split]; vm_compute; reflexivity. Qed.

(** A new queue in the working directory, named without a leading [./], is
    refused: the filesystem check looks at the parent, an empty path. *)
Definition posix_init_kernel (s : unit) (c : Syscall) : Answer * unit :=
  match c with
  | SysStatfs path => (if bool_decide (path = []) then Fails ENOENT else Returns EXT4_SUPER_MAGIC, s)
  | _ => sample_disk [] s c
  end.
Definition init_at (root : bytes) := run posix_init_kernel tt (@Queue_init checksum256 sample_texts sample_std root sample_options).
Example bare_root_refused :
  is_ok (init_at (lit "myqueue")).1.2 = false /\ is_ok (init_at (lit "./myqueue")).1.2 = true.
Proof. split; vm_compute; reflexivity. Qed.

(** When a filesystem opens unnamed files but cannot link them, the streamed
    payload is copied into a named one.  The copy stops without an error when
    the unnamed file ends early: three of seven bytes are copied here, and the
    copy reports success. *)
Definition short_file (s : unit) (c : Syscall) : Answer * unit :=
  match c with
  | SysPread _ _ offset => (Reads (if (offset =? 128)%Z then lit "pay" else []), s)
  | _ => sample_disk [] s c
  end.
Definition truncated_copy := run short_file tt (@copy_payload sample_texts 7 7 8 128 0 7).
Example truncated_copy_reports_success :
  truncated_copy.1.2 = Ok tt /\ file_after 8 truncated_copy.1.1 [] = lit "pay".
Proof. split; vm_compute; reflexivity. Qed.
