(* ===== verification/Simulator.v ===== *)
(** * The in-memory filesystem of the test kit

    Models [crates/steadq-testkit/src/simulator.rs]: a file tree with a
    volatile and a durable side, the operations on it and the crash that throws
    the volatile side away.  Hash maps and sets are [gmap] and [gset]; where the
    code walks one of them the order does not matter, and the lemmas on
    [fsync_dir] describe its result without one. *)
From stdpp Require Import base numbers list option strings gmap sets.
From Stdlib Require Import Strings.Byte ZArith.
From S2P Require Import Prelude FsLinux.
Open Scope list_scope.

(** ** Random numbers *)

Record Rng : Type := mkRng { rng_state : Z }.
Definition Rng_new (seed : Z) : Rng := mkRng (Z.max seed 1).
Definition next_u64 (r : Rng) : Z * Rng :=
  let state := rng_state r in
  let state := Z.lxor state (wrap64 (Z.shiftl state 13)) in
  let state := Z.lxor state (Z.shiftr state 7) in
  let state := Z.lxor state (wrap64 (Z.shiftl state 17)) in
  (state, mkRng state).
Definition next_bool (r : Rng) : bool * Rng :=
  let '(x, r) := next_u64 r in ((Z.land x 1 =? 1)%Z, r).
Definition next_range (max : Z) (r : Rng) : Z * Rng :=
  if (max =? 0)%Z then (0%Z, r) else let '(x, r) := next_u64 r in ((x mod max)%Z, r).

(** ** Paths *)

Definition normalize_path (path : bytes) : bytes :=
  join_slash (filter (fun part => part <> []) (split_slash path)).

(** [str::rfind] of a slash. *)
Fixpoint rfind_slash (s : bytes) : option nat :=
  match s with
  | [] => None
  | b :: s =>
      match rfind_slash s with
      | Some i => Some (S i)
      | None => if bool_decide (b = "/"%byte) then Some 0%nat else None
      end
  end.
Definition parent_of (path : bytes) : option bytes :=
  if bool_decide (path = []) then None
  else match rfind_slash path with
       | Some i => Some (take i path)
       | None => Some []
       end.

(** ** The simulator *)

Record SimFile : Type := mkSimFile { content : bytes; data_synced : bool }.
Record DurableFile : Type := mkDurableFile { durable_content : bytes }.
Record Simulator : Type := mkSimulator {
  files : gmap bytes SimFile;
  dirs : gset bytes;
  durable_entries : gset bytes;
  durable_file_data : gmap bytes DurableFile;
  durable_dirs : gset bytes;
  sim_rng : Rng
}.
Inductive SimError : Type := NotFound | AlreadyExists.

Definition set_files f s := mkSimulator (f (files s)) (dirs s) (durable_entries s) (durable_file_data s) (durable_dirs s) (sim_rng s).
Definition set_dirs f s := mkSimulator (files s) (f (dirs s)) (durable_entries s) (durable_file_data s) (durable_dirs s) (sim_rng s).
Definition set_entries f s := mkSimulator (files s) (dirs s) (f (durable_entries s)) (durable_file_data s) (durable_dirs s) (sim_rng s).
Definition set_data f s := mkSimulator (files s) (dirs s) (durable_entries s) (f (durable_file_data s)) (durable_dirs s) (sim_rng s).
Definition set_durable_dirs f s := mkSimulator (files s) (dirs s) (durable_entries s) (durable_file_data s) (f (durable_dirs s)) (sim_rng s).
Definition set_rng r s := mkSimulator (files s) (dirs s) (durable_entries s) (durable_file_data s) (durable_dirs s) r.

Definition Simulator_new (seed : Z) : Simulator := mkSimulator ∅ {[ [] ]} {[ [] ]} ∅ {[ [] ]} (Rng_new seed).

Definition push_part (path : bytes) (acc_dirs : bytes * gset bytes) (part : bytes) : bytes * gset bytes :=
  let '(acc, ds) := acc_dirs in
  let acc := (if bool_decide (acc = []) then acc else acc ++ ["/"%byte]) ++ part in
  (acc, if bool_decide (acc = path) then ds else {[acc]} ∪ ds).
Definition ensure_volatile_ancestors (path : bytes) (s : Simulator) : Simulator :=
  let s := set_dirs (fun ds => (foldl (push_part path) ([], ds) (filter (fun part => part <> []) (split_slash path))).2) s in
  match parent_of path with
  | Some parent => set_dirs (fun ds => {[parent]} ∪ ds) s
  | None => s
  end.

Definition create_dir (path : bytes) (s : Simulator) : Simulator :=
  let path := normalize_path path in
  let s := ensure_volatile_ancestors path s in
  set_dirs (fun ds => {[path]} ∪ ds) s.
Definition write_file (path : bytes) (data : bytes) (s : Simulator) : Simulator :=
  let path := normalize_path path in
  let s := ensure_volatile_ancestors path s in
  set_files (<[path := mkSimFile data false]>) s.
Definition fsync_file (path : bytes) (s : Simulator) : Simulator :=
  let path := normalize_path path in
  match files s !! path with
  | Some f =>
      set_data (<[path := mkDurableFile (content f)]>) (set_files (<[path := mkSimFile (content f) true]>) s)
  | None => s
  end.

(** Remove one name from the durable namespace. *)
Definition remove_durable (s : Simulator) (e : bytes) : Simulator :=
  set_data (delete e) (set_durable_dirs (fun ds => ds ∖ {[e]}) (set_entries (fun es => es ∖ {[e]}) s)).
Definition drop_durable_descendants (prefix : bytes) (s : Simulator) : Simulator :=
  let prefix_slash := if bool_decide (prefix = []) then [] else prefix ++ ["/"%byte] in
  let doomed := elements (filter (fun e => prefix_slash <> [] /\ prefix_slash `prefix_of` e) (durable_entries s)) in
  foldl remove_durable s doomed.
Definition drop_stale (live : gset bytes) (s : Simulator) (e : bytes) : Simulator :=
  if bool_decide (e ∈ live) then s else drop_durable_descendants e (remove_durable s e).
Definition commit_child (s : Simulator) (child : bytes) : Simulator :=
  let s := set_entries (fun es => {[child]} ∪ es) s in
  if bool_decide (child ∈ dirs s) then set_durable_dirs (fun ds => {[child]} ∪ ds) s
  else match files s !! child with
       | Some f => if data_synced f then set_data (<[child := mkDurableFile (content f)]>) s else s
       | None => s
       end.
Definition children (path : bytes) (names : gset bytes) : gset bytes := filter (fun d => parent_of d = Some path) names.
Definition fsync_dir (path : bytes) (s : Simulator) : Simulator :=
  let path := normalize_path path in
  if bool_decide (path ∈ dirs s) then
    let s := set_entries (fun es => {[path]} ∪ es) (set_durable_dirs (fun ds => {[path]} ∪ ds) s) in
    let live_children := children path (dirs s) ∪ children path (dom (files s)) in
    let stale := elements (children path (durable_entries s)) in
    let s := foldl (drop_stale live_children) s stale in
    foldl commit_child s (elements live_children)
  else s.

Definition exists_path (path : bytes) (s : Simulator) : bool :=
  let path := normalize_path path in bool_decide (is_Some (files s !! path)) || bool_decide (path ∈ dirs s).
Definition rename_noreplace (src dest : bytes) (s : Simulator) : result unit SimError * Simulator :=
  let src := normalize_path src in
  let dest := normalize_path dest in
  if bool_decide (is_Some (files s !! dest)) || bool_decide (dest ∈ dirs s) then (Err AlreadyExists, s)
  else match files s !! src with
       | Some entry =>
           (Ok tt, set_files (<[dest := entry]>) (ensure_volatile_ancestors dest (set_files (delete src) s)))
       | None => (Err NotFound, s)
       end.
Definition unlink (path : bytes) (s : Simulator) : result unit SimError * Simulator :=
  let path := normalize_path path in
  match files s !! path with
  | Some _ => (Ok tt, set_files (delete path) s)
  | None => (Err NotFound, s)
  end.
Definition restore_file (data : gmap bytes DurableFile) (fs : gmap bytes SimFile) (path : bytes) : gmap bytes SimFile :=
  match data !! path with
  | Some d => <[path := mkSimFile (durable_content d) true]> fs
  | None => fs
  end.
Definition crash (s : Simulator) : Simulator :=
  let s := set_files (fun _ => foldl (restore_file (durable_file_data s)) ∅ (elements (durable_entries s))) s in
  let s := set_dirs (fun _ => {[ [] ]} ∪ durable_dirs s) s in
  set_entries (fun es => {[ [] ]} ∪ es) (set_durable_dirs (fun ds => {[ [] ]} ∪ ds) s).

Definition entry_is_durable (path : bytes) (s : Simulator) : bool :=
  bool_decide (normalize_path path ∈ durable_entries s).
Definition read_file (path : bytes) (s : Simulator) : option bytes := content <$> files s !! normalize_path path.
Definition maybe_inject_fault (probability : Z) (s : Simulator) : bool * Simulator :=
  let '(x, r) := next_range 100 (sim_rng s) in ((x <? probability)%Z, set_rng r s).

(** ** Paths as lists of components *)

Definition component (c : bytes) : Prop := c <> [] /\ Forall (fun b => b <> "/"%byte) c.
(** A path in the form [normalize_path] gives it. *)
Definition normal (path : bytes) : Prop := exists cs, Forall component cs /\ path = join_slash cs.
(** [below a p]: the path [p] lies under the directory [a]. *)
Definition below (a p : bytes) : Prop := a <> [] /\ (a ++ ["/"%byte]) `prefix_of` p.

Lemma split_components cs : cs <> [] -> Forall component cs -> split_slash (join_slash cs) = cs.
Proof. intros Hn Hc. apply split_slash_join; [done|]. eapply Forall_impl; [exact Hc|]. by intros ? []. Qed.
Lemma filter_components cs : Forall component cs -> filter (fun part : bytes => part <> []) cs = cs.
Proof. induction 1 as [|c cs [Hc _] _ IH]; [done|]. rewrite filter_cons_True by done. by rewrite IH. Qed.

Lemma normalize_components cs : Forall component cs -> normalize_path (join_slash cs) = join_slash cs.
Proof.
  intros Hc. unfold normalize_path. destruct (decide (cs = [])) as [->|Hn]; [done|].
  by rewrite split_components, filter_components.
Qed.
Lemma normalize_normal path : normal (normalize_path path).
Proof.
  exists (filter (fun part => part <> []) (split_slash path)). split; [|done].
  destruct (join_split_slash path) as (_ & _ & H). apply Forall_forall. intros c [? Hc]%list_elem_of_filter.
  split; [done|]. by rewrite Forall_forall in H; apply H.
Qed.
Lemma normalize_id path : normal path -> normalize_path path = path.
Proof. intros (cs & Hc & ->). by apply normalize_components. Qed.
Lemma normal_root : normal [].
Proof. by exists []. Qed.
#[local] Hint Resolve normalize_normal normal_root : core.

Lemma join_inj cs ds : Forall component cs -> Forall component ds -> join_slash cs = join_slash ds -> cs = ds.
Proof.
  intros Hc Hd E.
  assert (Hnil : forall es, Forall component es -> join_slash es = [] -> es = []).
  { intros [|[|b c] es] He Hj; [done|by inversion He as [|? ? [? _]]|]. by destruct es. }
  destruct (decide (cs = [])) as [->|Hcs]; [symmetry; by apply Hnil|].
  destruct (decide (ds = [])) as [->|Hds]; [by apply Hnil|].
  by rewrite <- (split_components cs), <- (split_components ds), E.
Qed.
Lemma join_snoc cs c : cs <> [] -> join_slash (cs ++ [c]) = join_slash cs ++ "/"%byte :: c.
Proof.
  induction cs as [|d [|e cs] IH]; intros Hn; [done|done|].
  change (join_slash ((d :: e :: cs) ++ [c])) with (d ++ "/"%byte :: join_slash ((e :: cs) ++ [c])).
  rewrite IH by done. change (join_slash (d :: e :: cs)) with (d ++ "/"%byte :: join_slash (e :: cs)).
  by rewrite <- app_assoc.
Qed.
Lemma join_app cs ds : cs <> [] -> ds <> [] -> join_slash (cs ++ ds) = join_slash cs ++ "/"%byte :: join_slash ds.
Proof.
  intros Hc. induction ds as [|d ds IH] using rev_ind; intros Hd; [done|].
  rewrite app_assoc, join_snoc by (by destruct cs). destruct (decide (ds = [])) as [->|Hn].
  - by rewrite app_nil_r.
  - rewrite IH, join_snoc by done. by rewrite <- app_assoc.
Qed.
Lemma join_nonempty cs : cs <> [] -> Forall component cs -> join_slash cs <> [].
Proof. intros Hn Hc E. apply Hn, (join_inj cs []); [done|constructor|done]. Qed.

Lemma rfind_none c : Forall (fun b => b <> "/"%byte) c -> rfind_slash c = None.
Proof. induction 1 as [|b c Hb _ IH]; [done|]. cbn. by rewrite IH, bool_decide_false. Qed.
Lemma rfind_last s c : Forall (fun b => b <> "/"%byte) c -> rfind_slash (s ++ "/"%byte :: c) = Some (length s).
Proof. intros Hc. induction s as [|b s IH]; cbn; [by rewrite rfind_none|by rewrite IH]. Qed.
Lemma parent_snoc cs c : component c -> Forall component cs -> parent_of (join_slash (cs ++ [c])) = Some (join_slash cs).
Proof.
  intros [Hc Hs] Hcs. unfold parent_of.
  destruct (decide (cs = [])) as [->|Hn].
  - cbn. by rewrite bool_decide_false, rfind_none.
  - rewrite join_snoc by done. rewrite bool_decide_false by (by destruct (join_slash cs)).
    by rewrite rfind_last, take_app_length.
Qed.
Lemma parent_components path parent :
  normal path -> parent_of path = Some parent ->
  exists cs c, Forall component cs /\ component c /\ path = join_slash (cs ++ [c]) /\ parent = join_slash cs.
Proof.
  intros (cs & Hc & ->). destruct cs as [|c cs _] using rev_ind; [done|].
  apply Forall_app in Hc as [Hcs [Hc _]%Forall_cons]. rewrite parent_snoc by done. intros [= <-].
  by exists cs, c.
Qed.
Lemma parent_normal path parent : normal path -> parent_of path = Some parent -> normal parent.
Proof. intros Hn (cs & c & Hcs & _ & _ & ->)%parent_components; [|done]. by exists cs. Qed.

(** A path lies under another exactly when it extends its components. *)
Lemma below_components cs ds :
  Forall component cs -> Forall component ds ->
  below (join_slash cs) (join_slash ds) <-> exists es, cs <> [] /\ es <> [] /\ ds = cs ++ es.
Proof.
  intros Hc Hd. split.
  - intros [Hn [k Hk]]. assert (Hcs : cs <> []) by (intros ->; done).
    assert (Hsplit : split_slash (join_slash ds) = cs ++ split_slash k).
    { rewrite Hk, <- app_assoc. cbn.
      rewrite <- (proj1 (join_split_slash k)) at 1.
      rewrite <- join_app by (done || apply join_split_slash). apply split_slash_join.
      - by destruct cs.
      - apply Forall_app. split; [eapply Forall_impl; [exact Hc|]; by intros ? []|apply join_split_slash]. }
    destruct (decide (ds = [])) as [->|Hds].
    { cbn in Hk. by destruct (join_slash cs). }
    rewrite split_components in Hsplit by done. exists (split_slash k). split; [done|].
    split; [apply join_split_slash|done].
  - intros (es & Hn & He & ->). split; [by apply join_nonempty|].
    rewrite join_app by done. exists (join_slash es). by rewrite <- app_assoc.
Qed.

(** ** Ancestors *)

Lemma push_joins path pre part ds :
  Forall component pre -> component part ->
  push_part path (join_slash pre, ds) part =
  (join_slash (pre ++ [part]), if bool_decide (join_slash (pre ++ [part]) = path) then ds else {[join_slash (pre ++ [part])]} ∪ ds).
Proof.
  intros Hp Hc. unfold push_part. destruct (decide (pre = [])) as [->|Hn]; [done|].
  rewrite (bool_decide_false (join_slash pre = [])) by (by apply join_nonempty).
  by rewrite <- app_assoc, join_snoc.
Qed.
Lemma pushes_ancestors todo : forall pre ds d,
  Forall component pre -> Forall component todo ->
  d ∈ (foldl (push_part (join_slash (pre ++ todo))) (join_slash pre, ds) todo).2 <->
  d ∈ ds \/ exists k, (0 < k < length todo)%nat /\ d = join_slash (pre ++ take k todo).
Proof.
  induction todo as [|c todo IH]; intros pre ds d Hp Ht.
  - cbn. split; [by left|]. intros [?|(k & ? & _)]; [done|lia].
  - apply Forall_cons in Ht as [Hc Ht]. cbn [foldl]. rewrite push_joins by done.
    replace (pre ++ c :: todo) with ((pre ++ [c]) ++ todo) by (by rewrite <- app_assoc).
    rewrite IH by (rewrite ?Forall_app, ?Forall_singleton; done).
    assert (Hlast : join_slash (pre ++ [c]) = join_slash ((pre ++ [c]) ++ todo) <-> todo = []).
    { split; [|intros ->; by rewrite app_nil_r]. intros E. apply join_inj in E; [|rewrite !Forall_app, ?Forall_singleton; auto..].
      rewrite <- (app_nil_r (pre ++ [c])) in E at 1. by apply app_inv_head in E. }
    case_bool_decide as Hl.
    + apply Hlast in Hl as ->. cbn [length]. split; [intros [?|(k & ? & _)]|intros [?|(k & ? & _)]]; try lia; by left.
    + rewrite elem_of_union, elem_of_singleton. split.
      * intros [[->| ?]|(k & Hk & ->)]; [right|by left|right].
        { exists 1%nat. cbn. split; [|done]. destruct todo; [tauto|cbn; lia]. }
        exists (S k). cbn. split; [lia|]. by rewrite <- app_assoc.
      * intros [?|([|[|k]] & Hk & ->)]; [by left; right|lia|by left; left|right].
        exists (S k). cbn in *. split; [lia|]. by rewrite <- app_assoc.
Qed.

Lemma ensure_ancestors_in path s d :
  normal path ->
  d ∈ dirs (ensure_volatile_ancestors path s) <->
  d ∈ dirs s \/ (normal d /\ (below d path \/ parent_of path = Some d)).
Proof.
  intros Hn. destruct Hn as (cs & Hcs & ->).
  assert (Hpush : d ∈ (foldl (push_part (join_slash cs)) ([], dirs s) (filter (fun part => part <> []) (split_slash (join_slash cs)))).2 <->
    d ∈ dirs s \/ (normal d /\ below d (join_slash cs))).
  { destruct (decide (cs = [])) as [->|Hn].
    { cbn. split; [by left|]. intros [?|(_ & Hd & [k Hk])]; [done|]. by destruct d. }
    rewrite split_components, filter_components by done. rewrite (pushes_ancestors cs [] (dirs s) d) by done. cbn.
    apply or_iff_compat_l. split.
    - intros (k & Hk & ->). assert (Hk' : Forall component (take k cs)) by (by apply Forall_take).
      split; [by eexists|]. apply below_components; [done..|].
      exists (drop k cs). rewrite take_drop. split; [|split; [|done]]; intros E;
        apply (f_equal length) in E; rewrite ?length_take, ?length_drop in E; cbn in E; lia.
    - intros [(ds & Hds & ->) (es & Hd & He & ->)%below_components]; [|done..].
      exists (length ds). rewrite take_app_length, length_app.
      destruct ds, es; cbn; try done. split; [lia|done]. }
  unfold ensure_volatile_ancestors. destruct (parent_of (join_slash cs)) as [parent|] eqn:E; cbn.
  - rewrite elem_of_union, elem_of_singleton, Hpush. split.
    + intros [->|[?|[? ?]]]; [right|by left|right; auto]. split; [|by right].
      eapply parent_normal; [|exact E]. by eexists.
    + intros [?|[? [?|[= ->]]]]; auto.
  - rewrite Hpush. split; [intros [?|[? ?]]|intros [?|[? [?|?]]]]; auto; done.
Qed.
Lemma ensure_files path s : files (ensure_volatile_ancestors path s) = files s.
Proof. unfold ensure_volatile_ancestors. by destruct (parent_of path). Qed.
Lemma ensure_entries path s : durable_entries (ensure_volatile_ancestors path s) = durable_entries s.
Proof. unfold ensure_volatile_ancestors. by destruct (parent_of path). Qed.
Lemma ensure_data path s : durable_file_data (ensure_volatile_ancestors path s) = durable_file_data s.
Proof. unfold ensure_volatile_ancestors. by destruct (parent_of path). Qed.
Lemma ensure_durable_dirs path s : durable_dirs (ensure_volatile_ancestors path s) = durable_dirs s.
Proof. unfold ensure_volatile_ancestors. by destruct (parent_of path). Qed.
Create Rewrite HintDb sim.
#[local] Hint Rewrite ensure_files ensure_entries ensure_data ensure_durable_dirs : sim.

(** ** Syncing a directory *)

Lemma remove_all l : forall s,
  let s' := foldl remove_durable s l in
  files s' = files s /\ dirs s' = dirs s /\
  (forall p, p ∈ durable_entries s' <-> p ∈ durable_entries s /\ p ∉ l) /\
  (forall p, p ∈ durable_dirs s' <-> p ∈ durable_dirs s /\ p ∉ l) /\
  (forall p, p ∉ l -> durable_file_data s' !! p = durable_file_data s !! p) /\
  durable_file_data s' ⊆ durable_file_data s.
Proof.
  induction l as [|e l IH]; intros s; cbn [foldl].
  - repeat split; try done; try (intros [? _]; done); by apply not_elem_of_nil.
  - destruct (IH (remove_durable s e)) as (-> & -> & He & Hd & Hf & Hl). split; [done|]. split; [done|].
    split; [intros p; rewrite He; cbn; set_solver|]. split; [intros p; rewrite Hd; cbn; set_solver|].
    split; [|etrans; [exact Hl|apply delete_subseteq]].
    intros p [? ?]%not_elem_of_cons. rewrite Hf by done. cbn. by rewrite lookup_delete_ne.
Qed.

(** What a durable name keeps while others are dropped. *)
Record spares (s s' : Simulator) : Prop := {
  spared_files : files s' = files s;
  spared_dirs : dirs s' = dirs s;
  spared_entries : durable_entries s' ⊆ durable_entries s;
  spared_durable_dirs p : p ∈ durable_entries s' -> p ∈ durable_dirs s' <-> p ∈ durable_dirs s;
  spared_only p : p ∈ durable_dirs s' -> p ∈ durable_entries s -> p ∈ durable_entries s';
  spared_fewer : durable_dirs s' ⊆ durable_dirs s;
  spared_data p : p ∈ durable_entries s' -> durable_file_data s' !! p = durable_file_data s !! p;
  spared_less : durable_file_data s' ⊆ durable_file_data s
}.
Lemma spares_refl s : spares s s.
Proof. by split. Qed.
Lemma spares_trans s1 s2 s3 : spares s1 s2 -> spares s2 s3 -> spares s1 s3.
Proof.
  intros [F1 D1 E1 P1 O1 W1 A1 L1] [F2 D2 E2 P2 O2 W2 A2 L2]. split.
  - congruence.
  - congruence.
  - by etrans.
  - intros p Hp. rewrite P2 by done. by apply P1, E2.
  - intros p Hp H1. auto.
  - by etrans.
  - intros p Hp. rewrite A2, A1; auto.
  - by etrans.
Qed.

Lemma drop_one s e :
  e <> [] ->
  let s' := drop_durable_descendants e (remove_durable s e) in
  spares s s' /\ forall p, p ∈ durable_entries s' <-> p ∈ durable_entries s /\ p <> e /\ ~ below e p.
Proof.
  intros Hne. cbn zeta. unfold drop_durable_descendants. rewrite bool_decide_false by done.
  match goal with |- context [foldl remove_durable _ ?l] => set (doomed := l) end.
  destruct (remove_all doomed (remove_durable s e)) as (Hf & Hd & He & Hdd & Hda & Hle).
  assert (Hdoom : forall p, p ∈ doomed <-> (p ∈ durable_entries s /\ p <> e) /\ below e p).
  { intros p. unfold doomed. rewrite elem_of_elements, elem_of_filter. cbn. unfold below.
    rewrite elem_of_difference, not_elem_of_singleton. split; [intros [[_ ?] ?]; tauto|].
    intros [? [_ ?]]. split; [|done]. split; [|done]. by destruct e. }
  assert (Hentry : forall p, p ∈ durable_entries (foldl remove_durable (remove_durable s e) doomed) <->
    p ∈ durable_entries s /\ p <> e /\ ~ below e p).
  { intros p. rewrite He, Hdoom. cbn. rewrite elem_of_difference, not_elem_of_singleton. tauto. }
  split; [|done]. split; try done.
  - intros p. rewrite Hentry. tauto.
  - intros p (_ & ? & ?)%Hentry. rewrite Hdd, Hdoom. cbn. rewrite elem_of_difference, not_elem_of_singleton. tauto.
  - intros p [Hp Hn]%Hdd Hin. rewrite Hentry. rewrite Hdoom in Hn. cbn in Hp.
    apply elem_of_difference in Hp as [_ ?%not_elem_of_singleton]. tauto.
  - intros p [[? _]%elem_of_difference _]%Hdd. done.
  - intros p (_ & ? & ?)%Hentry. rewrite Hda by (rewrite Hdoom; tauto). cbn. by rewrite lookup_delete_ne.
  - etrans; [exact Hle|apply delete_subseteq].
Qed.

Lemma drop_all live l : forall s,
  [] ∉ l ->
  let s' := foldl (drop_stale live) s l in
  spares s s' /\
  forall p, p ∈ durable_entries s' <->
    p ∈ durable_entries s /\ forall e, e ∈ l -> e ∉ live -> p <> e /\ ~ below e p.
Proof.
  induction l as [|e l IH]; intros s Hl; cbn [foldl].
  - split; [apply spares_refl|]. intros p. split; [|by intros [? _]]. intros ?. split; [done|]. set_solver.
  - apply not_elem_of_cons in Hl as [Hne Hl]. destruct (IH (drop_stale live s e) Hl) as [Hs Hp].
    assert (Hone : spares s (drop_stale live s e) /\ forall p, p ∈ durable_entries (drop_stale live s e) <->
      p ∈ durable_entries s /\ (e ∉ live -> p <> e /\ ~ below e p)).
    { unfold drop_stale. case_bool_decide as Hlive; [split; [apply spares_refl|tauto]|].
      destruct (drop_one s e) as [Hs1 Hp1]; [done|]. split; [done|]. intros p. rewrite Hp1. tauto. }
    destruct Hone as [Hs1 Hp1]. split; [by eapply spares_trans|].
    intros p. rewrite Hp, Hp1. split.
    + intros [[? ?] Hr]. split; [done|]. intros e' [->|?]%elem_of_cons; auto.
    + intros [? Hr]. split; [split; [done|]|]; intros; apply Hr; try done; by constructor.
Qed.

Lemma commit_data s c p :
  durable_file_data (commit_child s c) !! p =
  match files s !! p with
  | Some f => if bool_decide (p = c /\ p ∉ dirs s) && data_synced f then Some (mkDurableFile (content f))
              else durable_file_data s !! p
  | None => durable_file_data s !! p
  end.
Proof.
  unfold commit_child. cbn. destruct (decide (p = c)) as [->|Hne].
  - destruct (files s !! c) as [[d []]|]; case_bool_decide as Hc; cbn; rewrite ?andb_false_r; try done.
    + by rewrite bool_decide_false by tauto.
    + by rewrite bool_decide_true, lookup_insert_eq.
  - rewrite (bool_decide_false (p = c /\ _)) by tauto. case_bool_decide; [by destruct (files s !! p)|].
    destruct (files s !! c) as [[d []]|]; cbn; rewrite ?lookup_insert_ne by done; by destruct (files s !! p).
Qed.
Lemma commit_all l : forall s,
  let s' := foldl commit_child s l in
  files s' = files s /\ dirs s' = dirs s /\
  (forall p, p ∈ durable_entries s' <-> p ∈ durable_entries s \/ p ∈ l) /\
  (forall p, p ∈ durable_dirs s' <-> p ∈ durable_dirs s \/ (p ∈ l /\ p ∈ dirs s)) /\
  (forall p, durable_file_data s' !! p =
     match files s !! p with
     | Some f => if bool_decide (p ∈ l /\ p ∉ dirs s) && data_synced f then Some (mkDurableFile (content f))
                 else durable_file_data s !! p
     | None => durable_file_data s !! p
     end).
Proof.
  induction l as [|c l IH]; intros s; cbn [foldl].
  - repeat split; try done; try set_solver. intros p. destruct (files s !! p); [|done].
    by rewrite bool_decide_false by set_solver.
  - destruct (IH (commit_child s c)) as (Hf & Hd & He & Hdd & Hda).
    assert (Hkeep : files (commit_child s c) = files s /\ dirs (commit_child s c) = dirs s /\
      durable_entries (commit_child s c) = {[c]} ∪ durable_entries s).
    { unfold commit_child. case_bool_decide; [done|]. by destruct (files _ !! c) as [[? []]|]. }
    destruct Hkeep as (Kf & Kd & Ke). rewrite Kf in *. rewrite Kd in *. rewrite Ke in *.
    split; [done|]. split; [done|]. split; [set_solver|]. split.
    + intros p. rewrite Hdd. unfold commit_child. cbn. case_bool_decide as Hc; cbn; [set_solver|].
      destruct (files s !! c) as [[? []]|]; cbn; set_solver.
    + intros p. rewrite Hda, commit_data. destruct (files s !! p) as [[d []]|]; [|by rewrite ?andb_false_r|done].
      cbn [data_synced content]. rewrite !andb_true_r. repeat case_bool_decide; set_solver.
Qed.

Definition live_children (path : bytes) (s : Simulator) : gset bytes :=
  children path (dirs s) ∪ children path (dom (files s)).
Lemma live_children_in path s p :
  p ∈ live_children path s <-> parent_of p = Some path /\ (p ∈ dirs s \/ is_Some (files s !! p)).
Proof. unfold live_children, children. rewrite elem_of_union, !elem_of_filter, elem_of_dom. tauto. Qed.

(** A name is lost from the durable namespace when its directory is synced
    and it, or a directory above it, is no longer live there. *)
Definition forgotten (path : bytes) (s : Simulator) (p : bytes) : Prop :=
  exists e, e ∈ durable_entries s /\ parent_of e = Some path /\ e ∉ live_children path s /\ (p = e \/ below e p).

(** The effect of [fsync_dir] on a directory that exists. *)
Lemma fsync_dir_effect path s :
  normal path -> path ∈ dirs s ->
  let s' := fsync_dir path s in
  files s' = files s /\ dirs s' = dirs s /\
  (forall p, p ∈ durable_entries s' <->
     p ∈ live_children path s \/ ((p = path \/ p ∈ durable_entries s) /\ ~ forgotten path s p)) /\
  (forall p, p ∈ live_children path s -> p ∉ dirs s -> forall f, files s !! p = Some f -> data_synced f = true ->
     durable_file_data s' !! p = Some (mkDurableFile (content f))) /\
  (forall p, p ∉ live_children path s -> p ∈ durable_entries s' -> durable_file_data s' !! p = durable_file_data s !! p) /\
  (durable_dirs s ⊆ durable_entries s -> durable_dirs s' ⊆ durable_entries s') /\
  (forall p, p ∈ durable_dirs s' -> p ∈ durable_dirs s \/ p ∈ dirs s) /\
  (forall p, p ∈ durable_dirs s -> p ∈ durable_entries s -> ~ forgotten path s p -> p ∈ durable_dirs s') /\
  (forall p, is_Some (durable_file_data s' !! p) -> is_Some (durable_file_data s !! p) \/ p ∈ live_children path s).
Proof.
  intros Hn Hd. unfold fsync_dir. rewrite normalize_id, bool_decide_true by done.
  set (s1 := set_entries _ _). change (children path (dirs s1) ∪ children path (dom (files s1))) with (live_children path s).
  assert (Hpp : parent_of path <> Some path).
  { intros (cs & c & Hcs & Hc & E1 & E2)%parent_components; [|done]. rewrite E1 in E2. apply join_inj in E2.
    - apply (f_equal length) in E2. rewrite length_app in E2. cbn in E2. lia.
    - apply Forall_app; auto.
    - done. }
  assert (Hstale : forall e, e ∈ elements (children path (durable_entries s1)) <-> e ∈ durable_entries s /\ parent_of e = Some path).
  { intros e. unfold children. rewrite elem_of_elements, elem_of_filter. cbn. rewrite elem_of_union, elem_of_singleton.
    split; [intros [? [->|?]]; [done|tauto]|tauto]. }
  destruct (drop_all (live_children path s) (elements (children path (durable_entries s1))) s1) as [Hs He].
  { rewrite Hstale. by intros [_ ?]. }
  revert Hs He. generalize (foldl (drop_stale (live_children path s)) s1 (elements (children path (durable_entries s1)))).
  intros s2 [Sf Sd Se Sdd So Sw Sda Sl] He.
  destruct (commit_all (elements (live_children path s)) s2) as (Hf' & Hd' & He' & Hdd' & Hda').
  assert (Hent : forall p, p ∈ durable_entries s2 <-> (p = path \/ p ∈ durable_entries s) /\ ~ forgotten path s p).
  { intros p. rewrite He. cbn. rewrite elem_of_union, elem_of_singleton. apply and_iff_compat_l. split.
    - intros Hx (e & ? & ? & ? & Hp). destruct (Hx e); [by apply Hstale|done|]. tauto.
    - intros Hx e [? ?]%Hstale ?. split; intros ?; apply Hx; exists e; tauto. }
  rewrite Sf, Sd in *. cbn in *. setoid_rewrite elem_of_elements in He'. setoid_rewrite elem_of_elements in Hdd'.
  split; [done|]. split; [done|]. split; [intros p; rewrite He', Hent; tauto|]. split; [|split; [|split; [|split; [|split]]]].
  - intros p Hl Hnd f Hlook Hsy. rewrite Hda', Hlook, Hsy, bool_decide_true; [done|]. by rewrite elem_of_elements.
  - intros p Hl Hp%He'. rewrite Hda'. destruct Hp as [Hp|]; [|done].
    rewrite (bool_decide_false (p ∈ elements _ /\ _)) by (rewrite elem_of_elements; tauto).
    destruct (files s !! p); apply Sda, Hp.
  - intros Hw p [Hp|[Hp _]]%Hdd'; apply He'; [left|by right]. apply So; [done|]. apply Sw in Hp. set_solver.
  - intros p [Hp|[_ Hp]]%Hdd'; [|by right]. apply Sw in Hp. set_solver.
  - intros p Hp Hpe Hnf. apply Hdd'. left. apply Sdd; [|set_solver]. apply Hent. auto.
  - intros p. rewrite Hda'. assert (Hold : is_Some (durable_file_data s2 !! p) -> is_Some (durable_file_data s !! p)).
    { intros [d ?]. exists d. by eapply lookup_weaken. }
    destruct (files s !! p); [|auto]. case_bool_decide as Hb; [|auto]. rewrite elem_of_elements in Hb.
    destruct Hb. auto.
Qed.
Lemma forgotten_root path s : ~ forgotten path s [].
Proof. intros (e & _ & He & _ & [<-|[_ [k Hk]]]); [done|]. by destruct e. Qed.
Lemma fsync_dir_absent path s : normalize_path path ∉ dirs s -> fsync_dir path s = s.
Proof. intros H. unfold fsync_dir. by rewrite bool_decide_false. Qed.

(** ** Crashing *)

Lemma restore_lookup data l : forall fs p,
  foldl (restore_file data) fs l !! p =
  if bool_decide (p ∈ l) then
    match data !! p with Some d => Some (mkSimFile (durable_content d) true) | None => fs !! p end
  else fs !! p.
Proof.
  induction l as [|e l IH]; intros fs p; cbn [foldl].
  - by rewrite bool_decide_false by (apply not_elem_of_nil).
  - rewrite IH. unfold restore_file. destruct (decide (p = e)) as [->|Hne].
    + rewrite (bool_decide_true (e ∈ e :: l)) by (by constructor).
      case_bool_decide; destruct (data !! e); try done. by rewrite lookup_insert_eq.
    + replace (bool_decide (p ∈ e :: l)) with (bool_decide (p ∈ l)) by (apply bool_decide_ext; set_solver).
      case_bool_decide; destruct (data !! e); rewrite ?lookup_insert_ne by done; done.
Qed.
Lemma crash_files s p :
  files (crash s) !! p =
  if bool_decide (p ∈ durable_entries s) then (fun d => mkSimFile (durable_content d) true) <$> (durable_file_data s !! p)
  else None.
Proof.
  cbn. rewrite restore_lookup.
  replace (bool_decide (p ∈ elements (durable_entries s))) with (bool_decide (p ∈ durable_entries s))
    by (apply bool_decide_ext; by rewrite elem_of_elements).
  case_bool_decide; [|done].
  by destruct (durable_file_data s !! p).
Qed.

(** ** Well-formed states *)

(** Every name of the tree is in normal form, the root is there on both sides,
    and the durable directories are durable names. *)
Record sim_wf (s : Simulator) : Prop := {
  wf_dirs p : p ∈ dirs s -> normal p;
  wf_files p f : files s !! p = Some f -> normal p;
  wf_entries p : p ∈ durable_entries s -> normal p;
  wf_data p d : durable_file_data s !! p = Some d -> normal p;
  wf_root : [] ∈ dirs s /\ [] ∈ durable_entries s /\ [] ∈ durable_dirs s;
  wf_durable_dirs : durable_dirs s ⊆ durable_entries s
}.

(** The operations, as data. *)
Inductive SimOp : Type :=
| SimCreateDir (path : bytes)
| SimWriteFile (path data : bytes)
| SimFsyncFile (path : bytes)
| SimFsyncDir (path : bytes)
| SimRename (src dest : bytes)
| SimUnlink (path : bytes)
| SimCrash
| SimFault (probability : Z).
Definition sim_apply (s : Simulator) (op : SimOp) : Simulator :=
  match op with
  | SimCreateDir path => create_dir path s
  | SimWriteFile path data => write_file path data s
  | SimFsyncFile path => fsync_file path s
  | SimFsyncDir path => fsync_dir path s
  | SimRename src dest => (rename_noreplace src dest s).2
  | SimUnlink path => (unlink path s).2
  | SimCrash => crash s
  | SimFault probability => (maybe_inject_fault probability s).2
  end.

Lemma wf_new seed : sim_wf (Simulator_new seed).
Proof. split; cbn; try set_solver; by intros ? ?; rewrite ?lookup_empty. Qed.
Lemma wf_ensure path s : normal path -> sim_wf s -> sim_wf (ensure_volatile_ancestors path s).
Proof.
  intros Hn [Wd Wf We Wa (W1 & W2) Ww]. split; autorewrite with sim; try done.
  - intros p [?|[? _]]%ensure_ancestors_in; auto.
  - split; [|done]. apply ensure_ancestors_in; auto.
Qed.
Lemma wf_insert path f s : normal path -> sim_wf s -> sim_wf (set_files (<[path := f]>) s).
Proof.
  intros Hn [Wd Wf We Wa Wr Ww]. split; try done. cbn. intros p f'. destruct (decide (p = path)) as [->|]; [done|].
  rewrite lookup_insert_ne by done. apply Wf.
Qed.
Lemma wf_delete path s : sim_wf s -> sim_wf (set_files (delete path) s).
Proof. intros [Wd Wf We Wa Wr Ww]. split; try done. cbn. intros p f' [_ ?]%lookup_delete_Some. by eapply Wf. Qed.
Lemma wf_fsync_file path s : sim_wf s -> sim_wf (fsync_file path s).
Proof.
  intros Hw. unfold fsync_file. destruct (files s !! normalize_path path) as [f|]; [|done].
  destruct (wf_insert (normalize_path path) (mkSimFile (content f) true) s) as [Wd Wf We Wa Wr Ww]; [done..|].
  split; try done. cbn in *. intros p d. destruct (decide (p = normalize_path path)) as [->|]; [done|].
  rewrite lookup_insert_ne by done. apply Wa.
Qed.
Lemma wf_fsync_dir path s : sim_wf s -> sim_wf (fsync_dir path s).
Proof.
  intros Hw. destruct (decide (normalize_path path ∈ dirs s)) as [Hd|Hd]; [|by rewrite fsync_dir_absent].
  assert (Hid : fsync_dir path s = fsync_dir (normalize_path path) s)
    by (unfold fsync_dir; by rewrite (normalize_id (normalize_path path))).
  rewrite Hid. destruct (fsync_dir_effect (normalize_path path) s) as (Hf & Hds & He & Hda & Hdb & Hw' & Hdd & Hdk & Hle); [done..|].
  destruct Hw as [Wd Wf We Wa (W1 & W2 & W3) Ww]. split; rewrite ?Hf, ?Hds; auto.
  - intros p [[_ [?|[f ?]]]%live_children_in|[[->|?] _]]%He; eauto.
  - intros p d Hp. destruct (Hle p) as [[? ?]|[_ [?|[? ?]]]%live_children_in]; eauto.
  - split; [done|]. split; [apply He; right; eauto using forgotten_root|]. apply Hdk; auto using forgotten_root.
Qed.
Lemma wf_crash s : sim_wf s -> sim_wf (crash s).
Proof.
  intros [Wd Wf We Wa (W1 & W2 & W3) Ww]. split; try done.
  - cbn. set_solver.
  - intros p f. rewrite crash_files. case_bool_decide; [|done]. auto.
  - cbn. set_solver.
  - cbn. set_solver.
  - cbn. set_solver.
Qed.
Lemma wf_apply s op : sim_wf s -> sim_wf (sim_apply s op).
Proof.
  intros Hw. destruct op as [path|path data|path|path|src dest|path| |prob]; cbn [sim_apply].
  - unfold create_dir. destruct (wf_ensure (normalize_path path) s) as [Wd Wf We Wa (W1 & W2) Ww]; [done..|].
    split; try done; cbn; set_solver.
  - apply wf_insert, wf_ensure; auto.
  - by apply wf_fsync_file.
  - by apply wf_fsync_dir.
  - unfold rename_noreplace. case_match; [done|]. destruct (files s !! normalize_path src); [|done].
    cbn. apply wf_insert, wf_ensure, wf_delete; auto.
  - unfold unlink. destruct (files s !! normalize_path path); [|done]. by apply wf_delete.
  - by apply wf_crash.
  - unfold maybe_inject_fault. destruct (next_range 100 (sim_rng s)). by destruct Hw.
Qed.

(** The simulator keeps its state well formed, and a crash reads back exactly
    the durable namespace.  After any sequence of operations on a new
    simulator every name is in normal form, the root exists on both sides and
    durable directories are durable names; a crash leaves exactly the files
    whose name and content were made durable, and a second crash changes
    nothing. *)
Theorem simulator_state_typed seed ops :
  let s := foldl sim_apply (Simulator_new seed) ops in
  sim_wf s /\
  (forall path data, read_file path (crash s) = Some data <->
     entry_is_durable path s = true /\ durable_file_data s !! normalize_path path = Some (mkDurableFile data)) /\
  crash (crash s) = crash s.
Proof.
  cbn zeta. assert (Hw : sim_wf (foldl sim_apply (Simulator_new seed) ops)).
  { generalize (wf_new seed). generalize (Simulator_new seed). induction ops as [|op ops IH]; [done|].
    intros s Hs. cbn [foldl]. by apply IH, wf_apply. }
  revert Hw. generalize (foldl sim_apply (Simulator_new seed) ops). intros s Hw. split; [done|]. split.
  - intros path data. unfold read_file, entry_is_durable. rewrite crash_files, bool_decide_eq_true.
    case_bool_decide; [|naive_solver].
    destruct (durable_file_data s !! normalize_path path) as [[d]|]; naive_solver.
  - destruct Hw as [_ _ _ _ (W1 & W2 & W3) _]. unfold crash, set_files, set_dirs, set_entries, set_durable_dirs. cbn.
    assert (E1 : {[ [] ]} ∪ durable_entries s = durable_entries s) by set_solver.
    assert (E2 : {[ [] ]} ∪ durable_dirs s = durable_dirs s) by set_solver.
    by rewrite !E1, !E2.
Qed.

(** ** Moving a file in the strict order *)

Lemma parent_irrefl path : normal path -> parent_of path <> Some path.
Proof.
  intros Hn (cs & c & Hcs & Hc & E1 & E2)%parent_components; [|done]. rewrite E1 in E2. apply join_inj in E2; [|by auto using Forall_app_2..].
  apply (f_equal length) in E2. rewrite length_app in E2. cbn in E2. lia.
Qed.
Lemma below_irrefl p : ~ below p p.
Proof. intros [_ [k Hk]]. apply (f_equal length) in Hk. rewrite !length_app in Hk. cbn in Hk. lia. Qed.
Lemma parent_below p parent : normal p -> parent <> [] -> parent_of p = Some parent -> below parent p.
Proof.
  intros Hn Hp (cs & c & Hcs & Hc & -> & ->)%parent_components; [|done].
  apply below_components; [done|by auto using Forall_app_2|]. exists [c]. split; [|done]. by intros ->.
Qed.

Section Move.
Context (s : Simulator) (src dest ps pd : bytes) (f : SimFile).
Hypotheses (Hwf : sim_wf s) (Hsrc : normal src) (Hdest : normal dest) (Hps : parent_of src = Some ps) (Hpd : parent_of dest = Some pd).
Hypotheses (Hfile : files s !! src = Some f) (Hlive : ps ∈ dirs s) (Hnodir : src ∉ dirs s).
Hypotheses (Hfree : files s !! dest = None) (Hfree' : dest ∉ dirs s) (Hapart : ~ below src dest).

(** The state after the rename. *)
Definition renamed : Simulator := set_files (<[dest := f]>) (ensure_volatile_ancestors dest (set_files (delete src) s)).
Lemma rename_succeeds : rename_noreplace src dest s = (Ok tt, renamed).
Proof.
  unfold rename_noreplace. rewrite !normalize_id, Hfree by done. rewrite (bool_decide_false (is_Some None)) by (by intros []).
  rewrite bool_decide_false by done. cbn. by rewrite Hfile.
Qed.
Lemma renamed_wf : sim_wf renamed.
Proof. apply wf_insert, wf_ensure, wf_delete; auto. Qed.
Lemma src_nonroot : src <> [].
Proof. intros E. by rewrite E in Hps. Qed.
Lemma renamed_dirs d : d ∈ dirs renamed <-> d ∈ dirs s \/ (normal d /\ (below d dest \/ d = pd)).
Proof.
  change (dirs renamed) with (dirs (ensure_volatile_ancestors dest (set_files (delete src) s))).
  rewrite ensure_ancestors_in, Hpd by done. cbn. naive_solver.
Qed.
Lemma renamed_gone : src ∉ dirs renamed /\ files renamed !! src = None.
Proof.
  split.
  - rewrite renamed_dirs. intros [?|[_ [?|E]]]; [done..|]. apply Hapart, parent_below; [done|apply src_nonroot|by rewrite E].
  - unfold renamed. cbn. rewrite ensure_files, lookup_insert_ne by (intros <-; congruence). cbn. apply lookup_delete_eq.
Qed.
Lemma renamed_dest : files renamed !! dest = Some f /\ dest ∉ dirs renamed.
Proof.
  split; [unfold renamed; cbn; apply lookup_insert_eq|]. rewrite renamed_dirs.
  intros [?|[_ [?%below_irrefl|E]]]; [done..|]. apply (parent_irrefl dest Hdest). by rewrite E at 2.
Qed.
Lemma dest_live : dest ∈ live_children pd renamed.
Proof. apply live_children_in. split; [done|]. right. rewrite (proj1 renamed_dest). by eexists. Qed.
Lemma pd_live : normal pd /\ pd ∈ dirs renamed.
Proof.
  assert (normal pd) by exact (parent_normal dest pd Hdest Hpd). split; [done|]. apply renamed_dirs. auto.
Qed.

(** The destination's sync makes the new name durable. *)
Lemma dest_synced : data_synced f = true ->
  let s2 := fsync_dir pd renamed in
  dest ∈ durable_entries s2 /\ durable_file_data s2 !! dest = Some (mkDurableFile (content f)).
Proof.
  intros Hsy. destruct pd_live as [Hn Hd]. destruct (fsync_dir_effect pd renamed Hn Hd) as (_ & _ & He & Hda & _).
  split; [apply He; left; apply dest_live|]. destruct renamed_dest. by apply Hda; [apply dest_live|..].
Qed.
(** The source's sync keeps it and forgets the old name. *)
Lemma src_synced : data_synced f = true ->
  let s3 := fsync_dir ps (fsync_dir pd renamed) in
  dest ∈ durable_entries s3 /\ durable_file_data s3 !! dest = Some (mkDurableFile (content f)) /\
  src ∉ durable_entries s3 /\ durable_dirs s3 ⊆ durable_entries s3.
Proof.
  intros Hsy. destruct pd_live as [Hn Hd]. pose proof (dest_synced Hsy) as [He2 Hd2].
  pose proof (wf_fsync_dir pd renamed renamed_wf) as Hw2.
  destruct (fsync_dir_effect pd renamed Hn Hd) as (Hf & Hds & _). cbn zeta in *. revert He2 Hd2 Hw2 Hf Hds.
  generalize (fsync_dir pd renamed). intros s2 He2 Hd2 Hw2 Hf Hds.
  assert (Hnps : normal ps) by exact (parent_normal src ps Hsrc Hps).
  destruct (fsync_dir_effect ps s2) as (_ & _ & He & Hda & Hdb & Hw & _); [done|rewrite Hds; apply renamed_dirs; auto|].
  assert (Hkeep : ~ forgotten ps s2 dest).
  { intros (e & Hein & Hep & Hel & Hor). apply Hel, live_children_in. split; [done|]. rewrite Hf, Hds. destruct Hor as [<-|Hb].
    - right. rewrite (proj1 renamed_dest). by eexists.
    - left. apply renamed_dirs. right. split; [by eapply wf_entries|by left]. }
  assert (Hin : dest ∈ durable_entries (fsync_dir ps s2)) by (apply He; auto).
  destruct renamed_gone as [Hg1 Hg2]. destruct renamed_dest as [Hr1 Hr2]. split; [done|]. split; [|split].
  - destruct (decide (dest ∈ live_children ps s2)); [apply Hda; try done; by rewrite ?Hds, ?Hf|].
    by rewrite Hdb.
  - intros [Hl|[[Hl|Hl] Hnf]]%He.
    + apply live_children_in in Hl as [_ [?|[? ?]]]; [by rewrite Hds in *|]. congruence.
    + apply (parent_irrefl src Hsrc). by rewrite Hl at 2.
    + apply Hnf. exists src. split; [done|]. split; [done|]. split; [|by left].
      intros [_ [?|[? ?]]]%live_children_in; [by rewrite Hds in *|]. congruence.
  - apply Hw, Hw2.
Qed.
End Move.

(** C40: The strict order of a move survives a crash at every point.  For a synced
    file moved to a free name that is not below it, the rename succeeds; a
    crash before any barrier keeps what was durable at the source; after the
    destination directory is synced a crash leaves the content at the
    destination; and once the source directory is synced too, at the
    destination and no longer at the source. *)
Theorem simulated_move_durable s src dest ps pd f :
  sim_wf s -> normal src -> normal dest -> parent_of src = Some ps -> parent_of dest = Some pd ->
  files s !! src = Some f -> data_synced f = true -> ps ∈ dirs s -> src ∉ dirs s ->
  exists_path dest s = false -> (below src dest -> False) ->
  let '(r, s1) := rename_noreplace src dest s in
  let s2 := fsync_dir pd s1 in
  let s3 := fsync_dir ps s2 in
  r = Ok tt /\
  read_file src (crash s1) = read_file src (crash s) /\
  read_file dest (crash s2) = Some (content f) /\
  read_file dest (crash s3) = Some (content f) /\ exists_path src (crash s3) = false.
Proof.
  intros Hwf Hsrc Hdest Hps Hpd Hfile Hsy Hlive Hnodir Hfree Hapart.
  unfold exists_path in Hfree. rewrite normalize_id in Hfree by done.
  apply orb_false_iff in Hfree as [Hf1%bool_decide_eq_false%eq_None_not_Some Hf2%bool_decide_eq_false].
  rewrite (rename_succeeds s src dest f) by done. cbn zeta. split; [done|].
  destruct (dest_synced s src dest pd f Hdest Hpd Hf2 Hsy) as [He2 Hd2].
  destruct (src_synced s src dest ps pd f Hwf Hsrc Hdest Hps Hpd Hfile Hlive Hnodir Hf1 Hf2 Hapart Hsy)
    as (He3 & Hd3 & Hg3 & Hw3).
  unfold read_file, exists_path. rewrite !normalize_id by done.
  split; [|split; [|split]].
  - rewrite !crash_files. unfold renamed. cbn. by rewrite ensure_entries, ensure_data.
  - by rewrite crash_files, bool_decide_true, Hd2.
  - by rewrite crash_files, bool_decide_true, Hd3.
  - rewrite crash_files, (bool_decide_false (src ∈ durable_entries _)) by done.
    rewrite (bool_decide_false (is_Some None)) by (by intros []). cbn [orb]. apply bool_decide_eq_false. cbn.
    intros [->%elem_of_singleton|?]%elem_of_union; [done|]. by apply Hg3, Hw3.
Qed.

(** A job file and the place it is claimed to. *)
Definition sample_src : bytes := lit "ready/0000/job.sqj".
Definition sample_dest : bytes := lit "leased/boot/0/0000/job.sqj".
Definition sample_ready : Simulator :=
  foldl sim_apply (Simulator_new 42)
    [SimCreateDir (lit "ready/0000"); SimWriteFile sample_src (replicate 128 x42); SimFsyncFile sample_src;
     SimFsyncDir (lit "ready"); SimFsyncDir (lit "ready/0000")].
Lemma sample_ready_wf : sim_wf sample_ready.
Proof. unfold sample_ready. cbn [foldl]. do 5 apply wf_apply. apply wf_new. Qed.
Lemma simulated_move_durable_witness :
  let '(r, s1) := rename_noreplace sample_src sample_dest sample_ready in
  let s2 := fsync_dir (lit "leased/boot/0/0000") s1 in
  let s3 := fsync_dir (lit "ready/0000") s2 in
  r = Ok tt /\
  read_file sample_src (crash s1) = read_file sample_src (crash sample_ready) /\
  read_file sample_dest (crash s2) = Some (replicate 128 x42) /\
  read_file sample_dest (crash s3) = Some (replicate 128 x42) /\ exists_path sample_src (crash s3) = false.
Proof.
  apply (simulated_move_durable sample_ready sample_src sample_dest (lit "ready/0000") (lit "leased/boot/0/0000")
    (mkSimFile (replicate 128 x42) true) sample_ready_wf).
  - exact (normalize_normal sample_src).
  - exact (normalize_normal sample_dest).
  - vm_compute. reflexivity.
  - vm_compute. reflexivity.
  - vm_compute. reflexivity.
  - reflexivity.
  - apply (bool_decide_unpack _). vm_compute. exact I.
  - apply (bool_decide_unpack _). vm_compute. exact I.
  - vm_compute. reflexivity.
  - intros [_ [k Hk]]. discriminate Hk.
Defined.
