(* ===== verification/Oracle.v ===== *)
(** * The reference oracle of the test kit

    Models [crates/steadq-testkit/src/oracle.rs]: a map from job ids to what the
    queue is expected to hold, one function per recorded event, and the two
    checked invariants.  The theorems relate it to the protocol histories of
    [Ticket]: as long as its user publishes only hidden, synced jobs and claims
    only jobs with attempts left, every job of the oracle is at the end of a
    protocol history, crashes included.  [+=] on counters wraps, the value the
    operator computes when it does not panic. *)
From stdpp Require Import base numbers list option strings gmap.
From Stdlib Require Import Strings.Byte ZArith.
From S2P Require Import Prelude Names StateMachine Ticket.
Open Scope list_scope.

Inductive OracleState : Type := OHidden | OReady | OLeased | ODelayed | ODead | OReceipt | OQuarantine.
#[global] Instance OracleState_eq_dec : EqDecision OracleState.
Proof. solve_decision. Defined.

Record OracleJob : Type := mkOracleJob {
  oj_job_id : bytes;
  oj_state : OracleState;
  oj_generation : Z;
  oj_attempt : Z;
  oj_maximum_attempts : Z;
  oj_token : option bytes;
  oj_file_synced : bool;
  oj_dest_dir_synced : bool;
  oj_src_dir_synced : bool
}.
Record Oracle : Type := mkOracle { oracle_jobs : gmap bytes OracleJob; next_job_counter : Z }.

Definition Oracle_new : Oracle := mkOracle ∅ 0.
Definition gen_job_id (o : Oracle) : bytes * Oracle :=
  (to_be 8 (next_job_counter o) ++ zeros 8, mkOracle (oracle_jobs o) (wrap64 (next_job_counter o + 1))).

Definition with_job (job_id : bytes) (f : OracleJob -> OracleJob) (o : Oracle) : Oracle :=
  mkOracle (alter f job_id (oracle_jobs o)) (next_job_counter o).

Definition record_enqueue (job_id : bytes) (max_attempts : Z) (o : Oracle) : Oracle :=
  mkOracle (<[job_id := mkOracleJob job_id OHidden 0 0 max_attempts None false false false]> (oracle_jobs o))
    (next_job_counter o).
Definition set_file_synced (j : OracleJob) : OracleJob :=
  mkOracleJob (oj_job_id j) (oj_state j) (oj_generation j) (oj_attempt j) (oj_maximum_attempts j) (oj_token j)
    true (oj_dest_dir_synced j) (oj_src_dir_synced j).
Definition set_dirs_synced (dest src : bool) (j : OracleJob) : OracleJob :=
  mkOracleJob (oj_job_id j) (oj_state j) (oj_generation j) (oj_attempt j) (oj_maximum_attempts j) (oj_token j)
    (oj_file_synced j) dest src.
Definition set_state (state : OracleState) (j : OracleJob) : OracleJob :=
  mkOracleJob (oj_job_id j) state (oj_generation j) (oj_attempt j) (oj_maximum_attempts j) (oj_token j)
    (oj_file_synced j) (oj_dest_dir_synced j) (oj_src_dir_synced j).
Definition set_progress (generation attempt : Z) (token : option bytes) (j : OracleJob) : OracleJob :=
  mkOracleJob (oj_job_id j) (oj_state j) generation attempt (oj_maximum_attempts j) token
    (oj_file_synced j) (oj_dest_dir_synced j) (oj_src_dir_synced j).

Definition record_file_sync (job_id : bytes) : Oracle -> Oracle := with_job job_id set_file_synced.
Definition record_dest_sync (job_id : bytes) : Oracle -> Oracle :=
  with_job job_id (fun j => set_dirs_synced true (oj_src_dir_synced j) j).
Definition record_src_sync (job_id : bytes) : Oracle -> Oracle :=
  with_job job_id (fun j => set_dirs_synced (oj_dest_dir_synced j) true j).
Definition record_publish (job_id : bytes) (to_ready : bool) : Oracle -> Oracle :=
  with_job job_id (set_state (if to_ready then OReady else ODelayed)).
Definition record_claim (job_id token : bytes) : Oracle -> Oracle :=
  with_job job_id (fun j =>
    if bool_decide (oj_state j = OReady) then
      set_dirs_synced false false (set_progress (wrap64 (oj_generation j + 1)) (wrap32 (oj_attempt j + 1)) (Some token)
        (set_state OLeased j))
    else j).
(** Leaving a lease: the next generation, without its token. *)
Definition leave_lease (state : OracleState) (j : OracleJob) : OracleJob :=
  if bool_decide (oj_state j = OLeased) then
    set_progress (wrap64 (oj_generation j + 1)) (oj_attempt j) None (set_state state j)
  else j.
Definition record_ack (job_id : bytes) : Oracle -> Oracle := with_job job_id (leave_lease OReceipt).
Definition record_retry (job_id : bytes) : Oracle -> Oracle := with_job job_id (leave_lease OReady).
Definition record_bury (job_id : bytes) : Oracle -> Oracle := with_job job_id (leave_lease ODead).

Definition crash_job (j : OracleJob) : OracleJob :=
  let j := set_dirs_synced false false j in
  let j :=
    if bool_decide (oj_state j = OLeased) && negb (oj_file_synced j) then
      set_progress (Z.max 0 (oj_generation j - 1)) (Z.max 0 (oj_attempt j - 1)) None (set_state OReady j)
    else j in
  if bool_decide (oj_state j = OReady) && negb (oj_file_synced j) && negb (oj_dest_dir_synced j) then set_state OHidden j
  else j.
Definition record_crash (o : Oracle) : Oracle := mkOracle (crash_job <$> oracle_jobs o) (next_job_counter o).

Definition all_jobs (p : OracleJob -> bool) (o : Oracle) : bool := forallb (fun kj => p kj.2) (map_to_list (oracle_jobs o)).
Definition visible (state : OracleState) : bool :=
  match state with OReady | OLeased | ODelayed | ODead | OReceipt => true | OHidden | OQuarantine => false end.
Definition check_i1 : Oracle -> bool := all_jobs (fun j => negb (visible (oj_state j)) || oj_file_synced j).
Definition check_i9 : Oracle -> bool := all_jobs (fun j => (oj_attempt j <=? oj_maximum_attempts j)%Z).
Definition get (job_id : bytes) (o : Oracle) : option OracleJob := oracle_jobs o !! job_id.

(** ** Events and the discipline of their user *)

Inductive OracleEvent : Type :=
| EvEnqueue (job_id : bytes) (max_attempts : Z)
| EvFileSync (job_id : bytes)
| EvDestSync (job_id : bytes)
| EvSrcSync (job_id : bytes)
| EvPublish (job_id : bytes) (to_ready : bool)
| EvClaim (job_id token : bytes)
| EvAck (job_id : bytes)
| EvRetry (job_id : bytes)
| EvBury (job_id : bytes)
| EvCrash.
Definition record_event (o : Oracle) (ev : OracleEvent) : Oracle :=
  match ev with
  | EvEnqueue id max => record_enqueue id max o
  | EvFileSync id => record_file_sync id o
  | EvDestSync id => record_dest_sync id o
  | EvSrcSync id => record_src_sync id o
  | EvPublish id to_ready => record_publish id to_ready o
  | EvClaim id token => record_claim id token o
  | EvAck id => record_ack id o
  | EvRetry id => record_retry id o
  | EvBury id => record_bury id o
  | EvCrash => record_crash o
  end.

(** What the recorded queue guarantees at each event: fresh ids, publication of
    hidden jobs after their file was synced, and claims within the budget. *)
Definition disciplined (o : Oracle) (ev : OracleEvent) : Prop :=
  match ev with
  | EvEnqueue id max => oracle_jobs o !! id = None /\ (0 <= max <= u32_max)%Z
  | EvPublish id _ => forall j, oracle_jobs o !! id = Some j -> oj_state j = OHidden /\ oj_file_synced j = true
  | EvClaim id _ => forall j, oracle_jobs o !! id = Some j -> (oj_attempt j < oj_maximum_attempts j)%Z
  | _ => True
  end.
Inductive oracle_run : nat -> Oracle -> Prop :=
| oracle_run_new : oracle_run 0 Oracle_new
| oracle_run_event n o ev : oracle_run n o -> disciplined o ev -> oracle_run (S n) (record_event o ev).

(** ** The oracle and the protocol *)

Definition state_view (state : OracleState) : ProtocolState :=
  match state with
  | OHidden => StHidden | OReady => StReady | OLeased => StLeased | ODelayed => StDelayed
  | ODead => StDead | OReceipt => StReceipt | OQuarantine => StQuarantine
  end.
Definition oracle_common (id : bytes) (j : OracleJob) : CommonFields :=
  mkCommon id (oj_generation j) (oj_attempt j) (oj_maximum_attempts j).
(** The oracle's job is at the protocol view, its lease token included. *)
Definition views (id : bytes) (j : OracleJob) (v : JobView) : Prop :=
  oj_job_id j = id /\ jv_state v = state_view (oj_state j) /\ jv_common v = oracle_common id j /\
  (oj_state j = OLeased -> jv_token v = oj_token j).
(** A job at the end of a protocol history of at most [n] operations. *)
Definition traced (n : nat) (id : bytes) (j : OracleJob) : Prop :=
  exists ops v, job_run (hidden_job (mkCommon id 0 0 (oj_maximum_attempts j))) ops v /\ (length ops <= n)%nat /\ views id j v.
Record job_ok (n : nat) (id : bytes) (j : OracleJob) : Prop := {
  ok_budget : (0 <= oj_attempt j <= oj_maximum_attempts j)%Z /\ (oj_maximum_attempts j <= u32_max)%Z;
  ok_synced : oj_state j <> OHidden -> oj_file_synced j = true;
  ok_traced : traced n id j
}.
Definition oracle_ok (n : nat) (o : Oracle) : Prop := forall id j, oracle_jobs o !! id = Some j -> job_ok n id j.

Lemma job_ok_later n id j : job_ok n id j -> job_ok (S n) id j.
Proof. intros [? ? (ops & v & ? & ? & ?)]. split; [done..|]. exists ops, v. split; [done|]. split; [lia|done]. Qed.
Lemma ok_with_job n o id f :
  oracle_ok n o -> (forall j, oracle_jobs o !! id = Some j -> job_ok n id j -> job_ok (S n) id (f j)) ->
  oracle_ok (S n) (with_job id f o).
Proof.
  intros Ho Hf id' j. cbn. destruct (decide (id = id')) as [<-|Hne].
  - rewrite lookup_alter_eq. intros (j' & Hj & ->)%fmap_Some. auto.
  - rewrite lookup_alter_ne by done. intros ?. auto using job_ok_later.
Qed.

(** One protocol step, taken by the oracle. *)
Lemma traced_step n id j v ops op j' token :
  job_run (hidden_job (mkCommon id 0 0 (oj_maximum_attempts j))) ops v -> (length ops <= n)%nat -> views id j v ->
  jv_state v = td_source (transition op) ->
  next_common_fields op (jv_common v) = Ok (oracle_common id j') ->
  (oj_attempt j' <= oj_maximum_attempts j')%Z -> oj_maximum_attempts j' = oj_maximum_attempts j ->
  oj_job_id j' = id -> td_destination (transition op) = state_view (oj_state j') ->
  (oj_state j' = OLeased -> next_token (td_token_change (transition op)) token (jv_token v) = oj_token j') ->
  traced (S n) id j'.
Proof.
  intros Hrun Hlen Hv Hsrc Hnext Hatt Hmax Hid Hdst Htok.
  exists (op :: ops), (mkJobView (td_destination (transition op)) (oracle_common id j')
    (next_token (td_token_change (transition op)) token (jv_token v))).
  rewrite Hmax. split; [|split; [cbn; lia|done]].
  eapply job_run_step; [exact Hrun|]. by apply (job_step_intro _ _ token).
Qed.

(** The generation of a traced job is below the number of events. *)
Lemma traced_generation n id j ops v :
  job_run (hidden_job (mkCommon id 0 0 (oj_maximum_attempts j))) ops v -> (length ops <= n)%nat -> views id j v ->
  (0 <= oj_generation j <= Z.of_nat n)%Z.
Proof.
  intros Hrun%job_run_inv Hlen (_ & _ & Hc & _). destruct ops as [|op ops]; cbn [job_inv] in Hrun.
  - rewrite Hrun in Hc. cbn in Hc. injection Hc as <- _. lia.
  - destruct Hrun as (_ & _ & _ & _ & Hg & _). rewrite Hc in Hg. cbn in *. lia.
Qed.
Lemma wrap64_next x : (0 <= x < 2 ^ 32)%Z -> wrap64 (x + 1) = (x + 1)%Z /\ u64_checked_add x 1 = Some (x + 1)%Z.
Proof.
  intros H. split; [unfold wrap64; apply Z.mod_small; lia|].
  unfold u64_checked_add, u64_max. rewrite decide_True by lia. done.
Qed.
Lemma wrap32_next x : (0 <= x < u32_max)%Z -> wrap32 (x + 1) = (x + 1)%Z /\ u32_checked_add x 1 = Some (x + 1)%Z.
Proof.
  intros H. split; [unfold wrap32, u32_max in *; apply Z.mod_small; lia|].
  unfold u32_checked_add. rewrite decide_True by lia. done.
Qed.

Lemma ok_publish n id j (to_ready : bool) :
  job_ok n id j -> oj_state j = OHidden -> oj_file_synced j = true ->
  job_ok (S n) id (set_state (if to_ready then OReady else ODelayed) j).
Proof.
  intros [Hb _ (ops & v & Hr & Hl & Hv)] Hs Hf. split; [done|done|].
  pose proof Hv as (Hid & Hst & Hc & _). rewrite Hs in Hst. pose proof (job_run_inv _ _ _ Hr) as Hi.
  destruct ops; cbn [job_inv] in Hi; [|by destruct Hi]. rewrite Hi in Hc. cbn in Hc. injection Hc as Hg Ha.
  apply (traced_step n id j v [] (if to_ready then OpEnqueueImmediate else OpEnqueueDelayed) _ []); try done;
    try (destruct to_ready; done); try lia.
  - rewrite Hi. unfold oracle_common. cbn. rewrite <- Hg, <- Ha. by destruct to_ready.
  - cbn. lia.
Qed.
Lemma ok_claim n id j token :
  job_ok n id j -> (oj_attempt j < oj_maximum_attempts j)%Z -> (Z.of_nat n < 2 ^ 32)%Z -> oj_state j = OReady ->
  job_ok (S n) id (set_dirs_synced false false (set_progress (wrap64 (oj_generation j + 1)) (wrap32 (oj_attempt j + 1))
    (Some token) (set_state OLeased j))).
Proof.
  intros [Hb Hf (ops & v & Hr & Hl & Hv)] Ha Hn Hs.
  destruct (wrap64_next (oj_generation j)) as [Eg Cg]; [pose proof (traced_generation _ _ _ _ _ Hr Hl Hv); lia|].
  destruct (wrap32_next (oj_attempt j)) as [Ea Ca]; [lia|]. rewrite Eg, Ea.
  split; [cbn; lia|intros _; cbn; apply Hf; by rewrite Hs|].
  pose proof Hv as (Hid & Hst & Hc & _). rewrite Hs in Hst.
  apply (traced_step n id j v ops OpClaim _ token); try done; [|cbn; lia].
  rewrite Hc. unfold next_common_fields. cbn. by rewrite Cg, Ca.
Qed.
(** The protocol operation that takes a lease to a state of the oracle. *)
Definition leaving (state : OracleState) : option ProtocolOperation :=
  match state with OReceipt => Some OpAcknowledge | OReady => Some OpRetryNow | ODead => Some OpBury | _ => None end.
Lemma ok_leave n id j state :
  job_ok n id j -> is_Some (leaving state) -> (Z.of_nat n < 2 ^ 32)%Z -> job_ok (S n) id (leave_lease state j).
Proof.
  intros Hj [op Hop] Hn. unfold leave_lease. case_bool_decide as Hs; [|by apply job_ok_later].
  destruct Hj as [Hb Hf (ops & v & Hr & Hl & Hv)].
  destruct (wrap64_next (oj_generation j)) as [Eg Cg]; [pose proof (traced_generation _ _ _ _ _ Hr Hl Hv); lia|]. rewrite Eg.
  split; [done|intros _; cbn; apply Hf; by rewrite Hs|].
  pose proof Hv as (Hid & Hst & Hc & _). rewrite Hs in Hst.
  apply (traced_step n id j v ops op _ [] Hr Hl Hv); try done; [..|cbn; lia| |].
  all: destruct state; try done; injection Hop as <-; try done.
  all: rewrite Hc; unfold next_common_fields; cbn; by rewrite Cg.
Qed.
Lemma ok_flags n id j fs ds ss :
  job_ok n id j -> (oj_file_synced j = true -> fs = true) ->
  job_ok (S n) id (mkOracleJob (oj_job_id j) (oj_state j) (oj_generation j) (oj_attempt j) (oj_maximum_attempts j)
    (oj_token j) fs ds ss).
Proof. intros [Hb Hf Ht]%job_ok_later Hfs. split; [done|auto|exact Ht]. Qed.
Lemma ok_crash n id j : job_ok n id j -> job_ok (S n) id (crash_job j).
Proof.
  intros Hj. assert (Hid : crash_job j = set_dirs_synced false false j); [|rewrite Hid; by apply ok_flags].
  unfold crash_job. cbn. destruct (oj_file_synced j) eqn:E; cbn.
  - rewrite !andb_false_r. cbn. by rewrite E, andb_false_r.
  - destruct Hj as [Hb Hf Ht].
    assert (Hs : oj_state j = OHidden) by (destruct (oj_state j); [done|by rewrite Hf in E..]).
    rewrite (bool_decide_false (oj_state j = OLeased)) by (by rewrite Hs). cbn.
    by rewrite (bool_decide_false (oj_state j = OReady)) by (by rewrite Hs).
Qed.

Lemma oracle_event_ok n o ev : oracle_ok n o -> disciplined o ev -> (Z.of_nat n < 2 ^ 32)%Z -> oracle_ok (S n) (record_event o ev).
Proof.
  intros Ho Hd Hn. destruct ev as [id max|id|id|id|id to_ready|id token|id|id|id|]; cbn [record_event disciplined] in *.
  2-9: apply (ok_with_job n o id _ Ho); intros j Hj Hok.
  - intros id' j. cbn. destruct (decide (id = id')) as [<-|Hne].
    + rewrite lookup_insert_eq. intros [= <-]. split; [cbn; lia|done|]. exists [], (hidden_job (mkCommon id 0 0 max)).
      split; [constructor|]. split; [cbn; lia|]. done.
    + rewrite lookup_insert_ne by done. eauto using job_ok_later.
  - by apply ok_flags.
  - by apply ok_flags.
  - by apply ok_flags.
  - destruct (Hd j Hj). by apply ok_publish.
  - case_bool_decide; [|by apply job_ok_later]. apply ok_claim; auto.
  - by apply ok_leave; [|eexists|].
  - by apply ok_leave; [|eexists|].
  - by apply ok_leave; [|eexists|].
  - intros id j. cbn. rewrite lookup_fmap. intros (j' & Hj & ->)%fmap_Some. apply ok_crash; auto.
Qed.

Lemma all_jobs_true p o : (forall id j, oracle_jobs o !! id = Some j -> p j = true) -> all_jobs p o = true.
Proof.
  intros Hp. apply forallb_forall. intros [id j] Hin%list_elem_of_In%elem_of_map_to_list. by eapply Hp.
Qed.


(** One job through a disciplined run with a crash in the middle. *)
Definition sample_job_id : bytes := (gen_job_id Oracle_new).1.
Definition sample_events : list OracleEvent :=
  [EvEnqueue sample_job_id 3; EvFileSync sample_job_id; EvPublish sample_job_id true; EvDestSync sample_job_id;
   EvClaim sample_job_id (replicate 16 xff); EvCrash; EvAck sample_job_id].
Lemma oracle_run_events evs : forall n o,
  oracle_run n o -> (forall k ev, evs !! k = Some ev -> disciplined (foldl record_event o (take k evs)) ev) ->
  oracle_run (length evs + n) (foldl record_event o evs).
Proof.
  induction evs as [|ev evs IH]; intros n o Hr Hd; [done|]. cbn [foldl length].
  rewrite Nat.add_succ_comm. apply IH.
  - constructor; [done|]. by apply (Hd 0%nat).
  - intros k ev' Hk. by apply (Hd (S k)).
Qed.
Lemma sample_disciplined k ev : sample_events !! k = Some ev -> disciplined (foldl record_event Oracle_new (take k sample_events)) ev.
Proof.
  destruct k as [|[|[|[|[|[|[|k]]]]]]]; intros [= <-]; cbn [disciplined take foldl sample_events].
  - by vm_compute.
  - done.
  - intros j. vm_compute. intros [= <-]. done.
  - done.
  - intros j. vm_compute. intros [= <-]. done.
  - done.
  - done.
Qed.

(** ** No published job is stuck *)

Lemma job_step_fields op j c :
  jv_state j = td_source (transition op) -> next_common_fields op (jv_common j) = Ok c ->
  (cf_attempt c <= cf_maximum_attempts c)%Z ->
  exists j', job_step op j j' /\ jv_state j' = td_destination (transition op) /\ jv_common j' = c.
Proof. intros Hs Hn Ha. eexists. split; [by apply (job_step_intro _ _ [])|done]. Qed.
(** Taking one operation that only counts the generation. *)
Lemma counts_generation op j :
  jv_state j = td_source (transition op) -> td_generation_change (transition op) = GenIncrement ->
  td_attempt_change (transition op) = AttUnchanged ->
  (cf_generation (jv_common j) < u64_max)%Z -> (cf_attempt (jv_common j) <= cf_maximum_attempts (jv_common j))%Z ->
  exists j', job_step op j j' /\ jv_state j' = td_destination (transition op) /\
    jv_common j' = mkCommon (cf_job_id (jv_common j)) (cf_generation (jv_common j) + 1) (cf_attempt (jv_common j))
      (cf_maximum_attempts (jv_common j)).
Proof.
  intros Hs Hg Ha Hlt Hle. apply job_step_fields; [done| |done].
  unfold next_common_fields. rewrite Hg, Ha. unfold u64_checked_add. by rewrite decide_True by lia.
Qed.
Lemma claims_attempt j :
  jv_state j = StReady -> (cf_generation (jv_common j) < u64_max)%Z ->
  (cf_attempt (jv_common j) < cf_maximum_attempts (jv_common j) <= u32_max)%Z ->
  exists j', job_step OpClaim j j' /\ jv_state j' = StLeased /\
    jv_common j' = mkCommon (cf_job_id (jv_common j)) (cf_generation (jv_common j) + 1) (cf_attempt (jv_common j) + 1)
      (cf_maximum_attempts (jv_common j)).
Proof.
  intros Hs Hg Ha. apply (job_step_fields OpClaim); [done| |cbn; lia].
  unfold next_common_fields, u64_checked_add, u32_checked_add. cbn. by rewrite !decide_True by lia.
Qed.

(** Where the last operations can take a job: a leased job, or one with
    attempts left, to its receipt; a spent one to the dead letters. *)
Definition ending (j : JobView) : ProtocolState :=
  if bool_decide (jv_state j = StLeased) || (cf_attempt (jv_common j) <? cf_maximum_attempts (jv_common j))%Z
  then StReceipt else StDead.
Lemma leased_ends j :
  jv_state j = StLeased -> (cf_generation (jv_common j) < u64_max)%Z ->
  (cf_attempt (jv_common j) <= cf_maximum_attempts (jv_common j))%Z ->
  exists j', job_run j [OpAcknowledge] j' /\ jv_state j' = ending j.
Proof.
  intros Hs Hg Ha. destruct (counts_generation OpAcknowledge j) as (j' & Hj & Hd & _); [done..|].
  exists j'. split; [eapply job_run_step; [constructor|done]|]. unfold ending. by rewrite bool_decide_true.
Qed.
Lemma ready_ends j :
  jv_state j = StReady -> (cf_generation (jv_common j) + 1 < u64_max)%Z ->
  (cf_attempt (jv_common j) <= cf_maximum_attempts (jv_common j) <= u32_max)%Z ->
  exists ops j', job_run j ops j' /\ (length ops <= 2)%nat /\ jv_state j' = ending j.
Proof.
  intros Hs Hg Ha. unfold ending. rewrite bool_decide_false by (by rewrite Hs). cbn [orb].
  destruct (Z.ltb_spec (cf_attempt (jv_common j)) (cf_maximum_attempts (jv_common j))) as [Hlt|Hge].
  - destruct (claims_attempt j) as (j1 & H1 & S1 & C1); [done|lia..|].
    destruct (leased_ends j1) as (j2 & H2 & S2); [done|rewrite C1; cbn; lia..|].
    exists ([OpAcknowledge] ++ [OpClaim]), j2. split; [|split; [cbn; lia|]].
    + eapply job_run_app; [|exact H2]. eapply job_run_step; [constructor|done].
    + rewrite S2. unfold ending. by rewrite bool_decide_true.
  - destruct (counts_generation OpExhaustedReadyCleanup j) as (j1 & H1 & S1 & _); [done..|lia|lia|].
    exists [OpExhaustedReadyCleanup], j1. split; [eapply job_run_step; [constructor|done]|]. split; [cbn; lia|done].
Qed.


(** A delayed job with one attempt: promotion, claim and acknowledgement. *)
Definition delayed_job : JobView := mkJobView StDelayed (mkCommon (replicate 16 x22) 0 0 1) None.
Lemma delayed_run : job_run (hidden_job (mkCommon (replicate 16 x22) 0 0 1)) [OpEnqueueDelayed] delayed_job.
Proof.
  eapply job_run_step; [constructor|].
  eapply (job_step_intro OpEnqueueDelayed _ []); [reflexivity..|vm_compute; discriminate].
Qed.
