(* ===== verification/Scenarios.v ===== *)
(** * Scenarios of the test kit

    Models [crates/steadq-testkit/src/verification.rs]: the seeded scenario that
    drives the oracle and the simulator side by side, and the check that a
    missing barrier makes them disagree.  [format!] texts of the mutation result
    are left out. *)
From stdpp Require Import base numbers list option strings gmap.
From Stdlib Require Import Strings.Byte ZArith.
From S2P Require Import Prelude FsLinux Simulator Oracle.
Open Scope string_scope.
Open Scope list_scope.

Record ScenarioResult : Type := mkScenarioResult {
  sr_seed : Z; i1_holds : bool; i9_holds : bool; sr_oracle_jobs : nat; sim_files : nat
}.

Definition ready_job : bytes := lit "ready/0000/job.sqj".
Definition leased_job : bytes := lit "leased/boot/0/0000/job.sqj".
Definition receipt_job : bytes := lit "receipts/bucket/0000/job.rct".


Definition count_sim_files (sim : Simulator) : nat := if exists_path ready_job sim then 1 else 0.

Definition scenario_ack (job : bytes) (so : Simulator * Oracle) : Simulator * Oracle :=
  let '(sim, oracle) := so in
  if exists_path leased_job sim then
    let sim := create_dir (lit "receipts/bucket/0000") sim in
    let sim := (rename_noreplace leased_job receipt_job sim).2 in
    let sim := fsync_dir (lit "receipts") sim in
    let sim := fsync_dir (lit "receipts/bucket") sim in
    let sim := fsync_dir (lit "receipts/bucket/0000") sim in
    let sim := fsync_dir (lit "leased/boot/0/0000") sim in
    (sim, record_ack job oracle)
  else (sim, oracle).
Definition scenario_claim (job : bytes) (so : Simulator * Oracle) : Simulator * Oracle :=
  let '(sim, oracle) := so in
  if exists_path ready_job sim then
    let token := replicate 16 xaa in
    let sim := create_dir (lit "leased/boot/0/0000") sim in
    let sim := (rename_noreplace ready_job leased_job sim).2 in
    let sim := fsync_dir (lit "leased") sim in
    let sim := fsync_dir (lit "leased/boot") sim in
    let sim := fsync_dir (lit "leased/boot/0") sim in
    let sim := fsync_dir (lit "leased/boot/0/0000") sim in
    let sim := fsync_dir (lit "ready/0000") sim in
    let oracle := record_claim job token oracle in
    let oracle := record_dest_sync job oracle in
    let oracle := record_src_sync job oracle in
    scenario_ack job (sim, oracle)
  else (sim, oracle).
Definition run_scenario (seed : Z) : ScenarioResult :=
  let rng := Rng_new seed in
  let sim := Simulator_new seed in
  let '(job, oracle) := gen_job_id Oracle_new in
  let oracle := record_enqueue job 3 oracle in
  let sim := create_dir (lit "ready/0000") sim in
  let sim := write_file ready_job (replicate 128 x42) sim in
  let oracle := record_file_sync job oracle in
  let sim := fsync_file ready_job sim in
  let sim := fsync_dir (lit "ready") sim in
  let sim := fsync_dir (lit "ready/0000") sim in
  let oracle := record_publish job true oracle in
  let oracle := record_dest_sync job oracle in
  let '(crashes, rng) := next_bool rng in
  let '(sim, oracle) := if crashes : bool then (crash sim, record_crash oracle) else (sim, oracle) in
  let '(sim, oracle) := scenario_claim job (sim, oracle) in
  mkScenarioResult seed (check_i1 oracle) (check_i9 oracle) (size (oracle_jobs oracle)) (count_sim_files sim).

Inductive Mutation : Type :=
| RemoveFileSyncBeforePublish
| RemoveDestDirSyncAfterRename
| RemoveSourceDirSyncAfterRename
| RemoveNameTagVerification
| RemoveLinkCountCheck
| RemoveShardVerification
| RemoveEnvelopeDigestCheck.
Definition Mutation_all : list Mutation :=
  [RemoveFileSyncBeforePublish; RemoveDestDirSyncAfterRename; RemoveSourceDirSyncAfterRename;
   RemoveNameTagVerification; RemoveLinkCountCheck; RemoveShardVerification; RemoveEnvelopeDigestCheck].

Record MutationResult : Type := mkMutationResult {
  mr_mutation : Mutation; mr_seed : Z; detected : bool; sim_has_file : bool
}.

(** Whether the oracle expects the job to be visible. *)
Definition oracle_visible (job : bytes) (oracle : Oracle) : bool :=
  match get job oracle with Some j => negb (bool_decide (oj_state j = OHidden)) | None => false end.

Definition run_mutation_test (mutation : Mutation) (seed : Z) : MutationResult :=
  let sim := Simulator_new seed in
  let '(job, oracle) := gen_job_id Oracle_new in
  let oracle := record_enqueue job 3 oracle in
  let sim := create_dir (lit "ready/0000") sim in
  let sim := write_file ready_job (replicate 128 x42) sim in
  match mutation with
  | RemoveFileSyncBeforePublish =>
      let oracle := record_file_sync job oracle in
      let sim := fsync_dir (lit "ready") sim in
      let sim := fsync_dir (lit "ready/0000") sim in
      let oracle := record_publish job true oracle in
      let oracle := record_crash oracle in
      let sim := crash sim in
      let sim_has := exists_path ready_job sim in
      mkMutationResult mutation seed (xorb (oracle_visible job oracle) sim_has) sim_has
  | RemoveDestDirSyncAfterRename =>
      let sim := fsync_file ready_job sim in
      let oracle := record_file_sync job oracle in
      let sim := fsync_dir (lit "ready") sim in
      let sim := fsync_dir (lit "ready/0000") sim in
      let sim := create_dir (lit "leased/boot/0/0000") sim in
      let sim := (rename_noreplace ready_job leased_job sim).2 in
      let sim := fsync_dir (lit "ready/0000") sim in
      let oracle := record_claim job (replicate 16 xaa) oracle in
      let oracle := record_dest_sync job oracle in
      let sim := crash sim in
      let oracle := record_crash oracle in
      let sim_has := exists_path leased_job sim || exists_path ready_job sim in
      mkMutationResult mutation seed (xorb (oracle_visible job oracle) sim_has || negb sim_has) sim_has
  | RemoveSourceDirSyncAfterRename =>
      let sim := fsync_file ready_job sim in
      let oracle := record_file_sync job oracle in
      let sim := fsync_dir (lit "ready") sim in
      let sim := fsync_dir (lit "ready/0000") sim in
      let sim := create_dir (lit "leased/boot/0/0000") sim in
      let sim := (rename_noreplace ready_job leased_job sim).2 in
      let sim := fsync_dir (lit "leased") sim in
      let sim := fsync_dir (lit "leased/boot") sim in
      let sim := fsync_dir (lit "leased/boot/0") sim in
      let sim := fsync_dir (lit "leased/boot/0/0000") sim in
      let oracle := record_claim job (replicate 16 xaa) oracle in
      let oracle := record_dest_sync job oracle in
      let sim := crash sim in
      let src_survived := exists_path ready_job sim in
      let dest_survived := exists_path leased_job sim in
      mkMutationResult mutation seed (src_survived || negb dest_survived) (dest_survived || src_survived)
  | RemoveNameTagVerification | RemoveLinkCountCheck | RemoveShardVerification | RemoveEnvelopeDigestCheck =>
      let sim := fsync_file ready_job sim in
      let oracle := record_file_sync job oracle in
      let sim := write_file (lit "ready/0000/evil.sqj") (replicate 128 x00) sim in
      let sim := fsync_file (lit "ready/0000/evil.sqj") sim in
      let sim := fsync_dir (lit "ready") sim in
      let sim := fsync_dir (lit "ready/0000") sim in
      let oracle := record_publish job true oracle in
      let file_count :=
        ((if exists_path ready_job sim then 1 else 0) + (if exists_path (lit "ready/0000/evil.sqj") sim then 1 else 0))%Z in
      mkMutationResult mutation seed (1 <? file_count)%Z (exists_path ready_job sim)
  end.

(** The scenarios come out for every seed, not only those the tests try: the
    scenario ends with both invariants, one job and no ready file, whether or
    not it crashes; and each mutation is detected, while every one is listed. *)
Theorem scenarios_hold seed :
  run_scenario seed = mkScenarioResult seed true true 1 0 /\
  forall m, m ∈ Mutation_all /\ detected (run_mutation_test m seed) = true.
Proof.
  split.
  - unfold run_scenario. destruct (next_bool (Rng_new seed)) as [[] rng]; vm_compute; reflexivity.
  - intros m. split; [destruct m; set_solver|]. destruct m; vm_compute; reflexivity.
Qed.
